(* ===== verification/_CoqProject ===== *)
-Q . S2P
Prelude.v
Bytes.v
Ring.v
Buddy.v
Slab.v
Spsc.v
ShmBus.v
OrderBook.v
MarketFeed.v
ShmHandle.v
SlottedPage.v
LruK.v
DiskManager.v
BufferPool.v
BTree.v
Bloom.v
SkipList.v
SSTable.v
LsmEngine.v
Mvcc.v
TxnEngine.v
EmbeddedDb.v
Mpmc.v
Futex.v
Channel.v
Fiber.v
FiberStack.v
Logger.v
WalEngine.v
Ostream.v
FutexDemo.v
Elf.v
Uring.v
Epoll.v
Simd.v
CrashProbe.v
Doubles.v
MemoryUtils.v
Latency.v
CycleCounter.v
PingPong.v
QueueFifo.v
Stream.v
QueuePrograms.v
FiberPrograms.v
RawSyscalls.v
StoragePrograms.v
BenchPrograms.v
Demos.v
