(* ===== verification/Prelude.v ===== *)
(** * A verification library for the systems-programming laboratory

    The repository's directory src/system-level-programming holds components
    of operating-system, database and trading software in C++20: allocators,
    lock-free queues, event loops, storage engines, transactions, a fiber
    scheduler and diagnostic tools.  This library models them as executable
    definitions and proves what makes each of them correct.  Paths below are
    relative to that directory.

    ** Parts and files

    Foundations.  [Prelude] (machine integers with [wrap], list and bit
    lemmas), [Bytes] (little-endian words, files with partial writes), [Ring]
    (the protocol of single-producer single-consumer rings, with the classes
    [RingQueue] and [RingLaws] its users implement), [Ostream] (formatted
    output), [Doubles] (binary64 conversions and rounding on [SpecFloat]).

    Memory.  [Buddy] and [Slab]: 02-.../slab_and_buddy_allocator.
    [MemoryUtils]: common/memory_utils.hpp.

    Queues and shared memory.  [Spsc], [Mpmc]: 04-.../lockfree_ring_buffers.
    [Channel]: 04-.../memory_order_drills.hpp.  [ShmBus]: the IPC bus,
    06-.../shm_ipc_bus.hpp; [ShmHandle]: the ownership of its mapping.
    [Futex]: 06-.../futex_mutex.hpp and its client shm_futex_sync.cpp.
    [Logger]: common/logger.hpp.  The queue [Spsc], the bus, the feed and
    the logger follow the ring protocol of [Ring].

    Trading.  [OrderBook] and [MarketFeed]: 12-.../01-shm-orderbook-feed; the
    engine applies the events of the feed to a book.  [Simd]: the vectorised
    pipelines and tick layouts of 03-cpu-microarchitecture-optimization.

    Storage.  [SlottedPage], [LruK], [DiskManager], [BufferPool]: module 07;
    the pool is written against the class [Replacer] that [LruK] implements
    and stores pages with the disk manager.  [BTree], [Bloom], [SkipList],
    [SSTable], [LsmEngine]: module 08; the engine is written against the class
    [MemTable] that [SkipList] implements and the tables of [SSTable], which
    contain the filter of [Bloom].  [Mvcc], [TxnEngine]: module 09.
    [WalEngine], [EmbeddedDb]: 12-.../02-embedded-lsm-kv-database, the latter
    on the memtable and tables of module 08.

    Run time.  [Fiber]: 12-.../03-cooperative-fiber-scheduler, [FiberStack]
    the ownership of its stacks and the current scheduler of the thread.
    [Uring], [Epoll]: the echo servers of module 05.  [Elf], [RawSyscalls]: module 01,
    with the program of nostdlib_entry.cpp.  [CrashProbe]: module 10.
    [Latency]: common/rdtsc_timer.hpp and 02-.../page_fault_tracker.hpp, the
    instruction sequences of the cycle counter in [CycleCounter].

    Programs.  [PingPong] and [Stream] are the two shapes of the programs with
    two threads or processes, request and reply and producer and consumer,
    over the class [Fifo] of a queue with its laws; [QueueFifo] gives the
    instances for the queue, the bus and the feed, and [QueuePrograms] the
    programs bench_lockfree_queues.cpp, bench_shm_ipc.cpp and
    bench_tick_to_trade.cpp.  [FutexDemo]: shm_futex_sync.cpp.
    [FiberPrograms]: bench_fibers.cpp.  [StoragePrograms]: bench_lsm_engine.cpp
    and bench_storage_engine.cpp over the class [KvStore].  [BenchPrograms]:
    bench_allocators.cpp, bench_pipeline.cpp and bench_client.cpp.  [Demos]:
    the demonstration programs, the main functions of the servers and of the
    ELF inspector, and the functions of target_app.cpp.

    ** How code is modelled

    The state of a class is a record with the fields of the class, an operation
    a function with the name of the method; [None] or a left injection is an
    exception or, where the comment says so, undefined behaviour.  Integers are
    values of [Z] that are wrapped to their width after each operation.  What
    the environment decides is an argument: results of system calls, iteration
    orders of hash maps, random draws, readings of clocks, and the kernel behind
    a raw system call.  Operations that hold a latch for their whole body are
    one step.  Code that is concurrent without one ([Spsc], [Mpmc], [Channel],
    [Futex], [BTree], [Logger], the rings) is split at its shared accesses and a
    relation [step] interleaves the threads, sequentially consistently; the
    fibers and the event loops are step relations too.  Files, pages, log
    blocks and tables are modelled byte for byte.

    ** What the theorems show

    - Refinement: the B+ tree is linearizable to a finite map; the engines
      ([LsmEngine], [WalEngine], [EmbeddedDb], [TxnEngine], [SlottedPage],
      [SkipList], [OrderBook], [BufferPool]) implement maps, snapshot
      isolation, tuple directories and transparent caches, and recovery from
      the log restores the abstract state.  The statements name the discipline
      they ask of clients and system calls: no conflicting writers in
      [TxnEngine], honest unpins in [BufferPool], complete writes in the
      engines that ignore short ones; the crash of [EmbeddedDb] may tear the
      last log entry.
    - Order and safety under every interleaving: the queues, the bus, the feed
      and the logger deliver in order, once, the shared rings for the
      power-of-two capacities whose size in bytes does not wrap around; what
      failing calls of write cost the logger is part of its theorem; the
      mutexes exclude; the echo servers neither reuse a deleted context nor
      lose a byte they have read or a wake-up, that of the listening socket
      provided that accept4 fails only when no connection is pending and the
      socket reports no error.
    - Memory: free and live blocks tile the buddy pool and partition the slabs;
      every shared mapping has one owner and is unmapped once; a fiber's stack
      is mapped exactly while the fiber has not ended, and which stacks are
      never unmapped.
    - Whole programs: under every interleaving, down to the loads and stores
      inside the queue calls, the ping-pong, throughput and trading programs
      receive what was sent, in order and once, can always run to their end
      and end with the computed replies, counts and order book; the storage
      programs read back every value they wrote; the futex program prints the
      expected total; the demonstration programs print the evaluated text.
    - Liveness and termination: latch crabbing and the futex mutex do not
      deadlock, the fiber scheduler returns, handlers of a batch end, and a
      measured block executes between the two readings of its cycle counter.
    - Round trips and bounds: tables, ELF files and hex dumps read back to
      what was written; exactly which ELF files make the inspector read
      outside its buffer; the crash report fits its buffer; percentiles are
      defined, ordered samples in binary64 arithmetic; system calls find
      their arguments in the registers of the calling convention.
    - Defects: lemmas that exhibit states in which code departs from its
      intention, such as lost updates on write-write conflicts and log records
      appended behind a torn block.

    ** Bounds and fuel

    Loops that are not structural carry fuel.  It is the largest order plus one
    in [Buddy], the number of digits of a 64-bit number (20) or of the integer
    part of a double (330) in number formatting, the number of bytes in
    [Logger], [MemoryUtils] and log replay, and the number of nodes in
    [SkipList].  The theorems state the result itself, so they show that the
    fuel is enough; where a definition returns [None] when fuel runs out the
    theorems exclude it.  The scheduler loop of [Fiber] is shown to return
    within a number of steps computed from the program, and the fibers of
    [FiberPrograms] with a fuel linear in the number of switches and fibers.
    A call of the B+ tree by a single thread takes at most 16 steps in
    [Demos].  Percentiles are shown for up to 2^52 samples.

    ** Not modelled

    Weak memory: interleavings are sequentially consistent.  Durability of
    completed writes is assumed; fdatasync has no model.  Also left out are the
    register contents that a context switch saves, the unmapping and freeing done by the destructors of the buddy
    allocator and the skip list, the descriptor of the disk manager, the timing
    of the compaction thread (whose work changes nothing), the constructor of
    the Bloom filter that computes sizes with logarithms, the cache hints of
    CacheController, locales other than C, and the values of NaNs.  Of the
    programs, the loop that measures malloc and the main function of
    target_app.cpp, which needs std::mt19937 and its distributions, are left
    out; readings of clocks and cycle counters are arguments, so nothing is
    shown about measured times.  The tests and the eBPF script drive or trace
    the modelled operations and have no theorems of their own. *)

From Stdlib Require Export ZArith Lia Bool.
From stdpp Require Export base numbers sorting relations option gmap list.

#[local] Open Scope Z_scope.

(** ** Machine integers

    Unsigned integers of width [w] are values of [Z] in [0, 2^w); every
    arithmetic operation of the source is followed by [wrap w]. *)

Definition wrap (w x : Z) : Z := x mod 2 ^ w.

Declare Scope cpp_scope.
Delimit Scope cpp_scope with cpp.
Abbreviation u8 := (wrap 8).
Abbreviation u16 := (wrap 16).
Abbreviation u32 := (wrap 32).
Abbreviation u64 := (wrap 64).
Notation "a +64 b" := (u64 (a + b)) (at level 50, left associativity) : cpp_scope.
Notation "a -64 b" := (u64 (a - b)) (at level 50, left associativity) : cpp_scope.
Notation "a *64 b" := (u64 (a * b)) (at level 40, left associativity) : cpp_scope.
Notation "a <<64 b" := (u64 (Z.shiftl a b)) (at level 50, left associativity) : cpp_scope.

(** ** [std::vector] used as a stack, and [std::find] followed by [erase] *)

Section vectors.
Context {A : Type}.

Definition push_back (l : list A) (x : A) : list A := l ++ [x].
Definition pop_back (l : list A) : list A := removelast l.

Fixpoint find_erase `{EqDecision A} (x : A) (l : list A) : option (list A) :=
  match l with
  | [] => None
  | y :: l' => if decide (y = x) then Some l' else cons y <$> find_erase x l'
  end.
End vectors.

(** [std::lower_bound] on a partitioned range: the first position not below
    [key]. *)
Fixpoint lower_bound (key : Z) (ks : list Z) : nat :=
  match ks with
  | [] => 0
  | k :: ks => if k <? key then S (lower_bound key ks) else 0
  end.

Create HintDb cpp.

(** ** Facts on wrapped arithmetic *)

Lemma wrap_range w x : 0 <= w -> 0 <= wrap w x < 2 ^ w.
Proof. intros Hw. apply Z.mod_pos_bound, Z.pow_pos_nonneg; lia. Qed.

Lemma wrap_small w x : 0 <= x < 2 ^ w -> wrap w x = x.
Proof. apply Z.mod_small. Qed.

Lemma wrap_wrap w x : wrap w (wrap w x) = wrap w x.
Proof. apply Zmod_mod. Qed.

Lemma wrap_add_l w x y : wrap w (wrap w x + y) = wrap w (x + y).
Proof. apply Zplus_mod_idemp_l. Qed.

Lemma wrap_sub_l w x y : wrap w (wrap w x - y) = wrap w (x - y).
Proof. apply Zminus_mod_idemp_l. Qed.

Lemma wrap_sub w x y : wrap w (wrap w x - wrap w y) = wrap w (x - y).
Proof. unfold wrap. by rewrite Zminus_mod_idemp_l, Zminus_mod_idemp_r. Qed.

Lemma wrap_inj w x y :
  0 <= w -> wrap w x = wrap w y -> Z.abs (x - y) < 2 ^ w -> x = y.
Proof.
  unfold wrap. intros Hw Heq Habs.
  assert (0 < 2 ^ w) by (apply Z.pow_pos_nonneg; lia).
  pose proof (Z.div_mod x (2 ^ w) ltac:(lia)). pose proof (Z.div_mod y (2 ^ w) ltac:(lia)).
  set (d := x / 2 ^ w - y / 2 ^ w). assert (x - y = 2 ^ w * d) as Hd by (unfold d; lia).
  destruct (Z.lt_trichotomy d 0) as [?|[?|?]]; nia.
Qed.

Lemma land_mask k x : 0 <= k -> Z.land x (2 ^ k - 1) = x mod 2 ^ k.
Proof. intros Hk. by rewrite <- Z.land_ones, Z.ones_equiv, Z.sub_1_r by done. Qed.

Lemma mod_mod_pow2 x j k : 0 <= j <= k -> (x mod 2 ^ k) mod 2 ^ j = x mod 2 ^ j.
Proof.
  intros Hjk. apply Z.mod_mod_divide.
  exists (2 ^ (k - j)). rewrite <- Z.pow_add_r by lia. f_equal. lia.
Qed.

(** A wrapped counter masked by a power of two not wider than the counter
    selects the same slot as the unbounded counter. *)
Lemma land_mask_wrap k w x :
  0 <= k <= w -> Z.land (wrap w x) (2 ^ k - 1) = x mod 2 ^ k.
Proof. intros Hk. rewrite land_mask by lia. by apply mod_mod_pow2. Qed.

(** Clearing the low bits with [x & ~(2^k - 1)] rounds down. *)
Lemma land_lnot_mask w k x :
  0 <= k <= w -> 0 <= x < 2 ^ w -> Z.land x (wrap w (Z.lnot (2 ^ k - 1))) = x - x mod 2 ^ k.
Proof.
  intros Hk Hx. unfold wrap. rewrite <- Z.land_ones, (Z.land_comm (Z.lnot _)), Z.land_assoc by lia.
  rewrite Z.land_ones, (Z.mod_small x) by lia.
  replace (2 ^ k - 1) with (Z.ones k) by (rewrite Z.ones_equiv; lia).
  rewrite <- Z.ldiff_land, Z.ldiff_ones_r, Z.shiftl_mul_pow2, Z.shiftr_div_pow2 by lia.
  pose proof (Z.div_mod x (2 ^ k) ltac:(lia)). lia.
Qed.

(** The idiom [(x + (2^k - 1)) & ~(2^k - 1)] rounds up to the next multiple. *)
Lemma round_up_mask w k x :
  0 <= k <= w -> 0 <= x -> x + (2 ^ k - 1) < 2 ^ w ->
  let r := Z.land (wrap w (x + wrap w (2 ^ k - 1))) (wrap w (Z.lnot (wrap w (2 ^ k - 1)))) in
  r mod 2 ^ k = 0 /\ x <= r < x + 2 ^ k.
Proof.
  intros Hk Hx Hb r. assert (0 < 2 ^ k) by (apply Z.pow_pos_nonneg; lia).
  unfold r. rewrite (wrap_small w (2 ^ k - 1)), (wrap_small w (x + _)), land_lnot_mask by lia.
  pose proof (Z.mod_pos_bound (x + (2 ^ k - 1)) (2 ^ k) ltac:(lia)).
  split; [|lia]. rewrite Zminus_mod, Z.mod_mod, Z.sub_diag by lia. done.
Qed.

(** The [static_assert] [(c & (c - 1)) == 0] of the ring buffers means that
    [c] is a power of two. *)
Lemma pow2_of_land c : 0 < c -> Z.land c (c - 1) = 0 -> exists k, 0 <= k /\ c = 2 ^ k.
Proof.
  intros Hc Hl. exists (Z.log2 c). split; [apply Z.log2_nonneg|].
  destruct (Z.log2_spec c Hc) as [Hlo Hhi].
  destruct (decide (c = 2 ^ Z.log2 c)) as [|Hne]; [done|exfalso].
  assert (Z.testbit (Z.land c (c - 1)) (Z.log2 c) = true) as Ht.
  { rewrite Z.land_spec, Z.bit_log2 by done. simpl.
    assert (Z.log2 (c - 1) = Z.log2 c) as <- by (apply Z.log2_unique; [apply Z.log2_nonneg|lia]).
    apply Z.bit_log2. pose proof (Z.pow_pos_nonneg 2 (Z.log2 c) ltac:(lia) (Z.log2_nonneg c)). lia. }
  by rewrite Hl, Z.testbit_0_l in Ht.
Qed.

(** ** Facts on vectors *)

Lemma last_push_back {A} (l : list A) x : last (push_back l x) = Some x.
Proof. apply last_snoc. Qed.

Lemma last_pop_back {A} (l : list A) x :
  last l = Some x -> l = push_back (pop_back l) x.
Proof.
  intros Hl. unfold push_back, pop_back.
  apply last_Some in Hl as [l' ->]. by rewrite removelast_last.
Qed.

Lemma find_erase_Some `{EqDecision A} (x : A) l l' :
  find_erase x l = Some l' -> exists l1 l2, l = l1 ++ x :: l2 /\ l' = l1 ++ l2.
Proof.
  revert l'. induction l as [|y l IH]; simpl; intros l' Hf; [done|].
  case_decide as Hy.
  - simplify_eq. by exists [], l'.
  - destruct (find_erase x l) as [r|]; simplify_eq/=.
    destruct (IH r) as (l1 & l2 & -> & ->); [done|]. by exists (y :: l1), l2.
Qed.

Lemma find_erase_None `{EqDecision A} (x : A) l : find_erase x l = None <-> x ∉ l.
Proof.
  induction l as [|y l IH]; simpl; [split; [intros _; apply not_elem_of_nil|done]|].
  rewrite not_elem_of_cons. case_decide; [split; [done|by intros []]|].
  rewrite fmap_None, IH. split; [by split|by intros []].
Qed.

Lemma find_erase_perm `{EqDecision A} (x : A) l l' :
  find_erase x l = Some l' -> l ≡ₚ x :: l'.
Proof. intros (l1 & l2 & -> & ->)%find_erase_Some. by rewrite Permutation_middle. Qed.

#[export] Hint Resolve wrap_range wrap_small find_erase_perm : cpp.
Create Rewrite HintDb cpp.
#[export] Hint Rewrite wrap_wrap wrap_add_l wrap_sub_l wrap_sub : cpp.

(** ** Filters *)

Lemma filter_all {A} (P : A -> Prop) `{forall x, Decision (P x)} (l : list A) : Forall P l -> filter P l = l.
Proof. induction 1 as [|x l Hx _ IH]; [done|]. by rewrite filter_cons_True, IH by done. Qed.

Lemma filter_none {A} (P : A -> Prop) `{forall x, Decision (P x)} (l : list A) :
  Forall (fun x => ~ P x) l -> filter P l = [].
Proof. induction 1 as [|x l Hx _ IH]; [done|]. by rewrite filter_cons_False, IH by done. Qed.

(** ** Sorted association lists *)

Lemma lower_bound_first key ks n :
  (n <= length ks)%nat -> (forall i k, (i < n)%nat -> ks !! i = Some k -> k < key) ->
  (forall k, ks !! n = Some k -> key <= k) -> lower_bound key ks = n.
Proof.
  revert n. induction ks as [|k ks IH]; intros n Hn Hlo Hhi; cbn in *; [lia|]. destruct n as [|n].
  - specialize (Hhi k eq_refl). by rewrite (proj2 (Z.ltb_ge _ _) Hhi).
  - pose proof (Hlo 0%nat k ltac:(lia) eq_refl) as Hk. rewrite (proj2 (Z.ltb_lt _ _) Hk). f_equal.
    apply IH; [lia| |done]. intros i x Hi. apply (Hlo (S i)). lia.
Qed.

Lemma zsorted_NoDup ks : StronglySorted Z.lt ks -> NoDup ks.
Proof.
  induction 1 as [|k ks _ IH Hf]; constructor; [|done]. rewrite Forall_forall in Hf. intros Hin%Hf. lia.
Qed.

(** A search with [lower_bound] is the lookup of the map. *)
Lemma lower_bound_lookup key (l : list (Z * Z)) :
  StronglySorted Z.lt l.*1 ->
  (list_to_map l : gmap Z Z) !! key =
    match l !! lower_bound key l.*1 with Some (k, v) => if k =? key then Some v else None | None => None end.
Proof.
  induction l as [|[k v] l IH]; [done|]. cbn. intros [Hs Hf]%StronglySorted_inv.
  destruct (Z.ltb_spec k key) as [Hlt|Hge]; cbn.
  - rewrite lookup_insert_ne by lia. by apply IH.
  - destruct (Z.eqb_spec k key) as [->|Hne]; [by rewrite lookup_insert_eq|]. rewrite lookup_insert_ne by done.
    apply not_elem_of_list_to_map_1. rewrite Forall_forall in Hf. intros Hin%Hf. lia.
Qed.

Lemma sorted_lookup_lt (l : list Z) i j a b :
  StronglySorted Z.lt l -> l !! i = Some a -> l !! j = Some b -> (i < j)%nat -> a < b.
Proof.
  intros Hs. revert i j. induction Hs as [|x l _ IH Hf]; intros [|i] [|j] Hi Hj Hij; try done; try lia; cbn in *.
  - simplify_eq. by eapply (Forall_lookup_1 _ _ _ _ Hf).
  - eapply IH; [done..|lia].
Qed.

(** ** Ranges of bit operations *)

Lemma testbit_range w a : 0 <= w -> 0 <= a -> (forall i, w <= i -> Z.testbit a i = false) -> a < 2 ^ w.
Proof.
  intros Hw Ha Hb. destruct (Z.lt_ge_cases a (2 ^ w)) as [|Hge]; [done|exfalso].
  assert (0 < 2 ^ w) by (apply Z.pow_pos_nonneg; lia).
  assert (Z.testbit a (Z.log2 a) = true) as Ht by (apply Z.bit_log2; lia). rewrite Hb in Ht; [done|].
  apply Z.log2_le_pow2; lia.
Qed.

Lemma testbit_above w a i : 0 <= a < 2 ^ w -> w <= i -> Z.testbit a i = false.
Proof.
  intros [Ha Hlt] Hi. destruct (decide (a = 0)) as [->|]; [apply Z.testbit_0_l|].
  apply Z.bits_above_log2; [done|]. enough (Z.log2 a < w) by lia. apply Z.log2_lt_pow2; lia.
Qed.

Lemma lor_range w a b : 0 <= w -> 0 <= a < 2 ^ w -> 0 <= b < 2 ^ w -> 0 <= Z.lor a b < 2 ^ w.
Proof.
  intros Hw Ha Hb. assert (0 <= Z.lor a b) by (apply Z.lor_nonneg; lia). split; [done|]. apply testbit_range; [done|done|].
  intros i Hi. by rewrite Z.lor_spec, (testbit_above w a), (testbit_above w b).
Qed.

Lemma lxor_range w a b : 0 <= w -> 0 <= a < 2 ^ w -> 0 <= b < 2 ^ w -> 0 <= Z.lxor a b < 2 ^ w.
Proof.
  intros Hw Ha Hb. assert (0 <= Z.lxor a b) by (apply Z.lxor_nonneg; lia). split; [done|]. apply testbit_range; [done|done|].
  intros i Hi. by rewrite Z.lxor_spec, (testbit_above w a), (testbit_above w b).
Qed.

(** ** Sums over lists *)

Lemma sum_list_insert {A} (f : A -> nat) l i x y :
  l !! i = Some x -> (sum_list_with f (<[i := y]> l) + f x = sum_list_with f l + f y)%nat.
Proof. revert i. induction l as [|z l IH]; intros [|i] Hi; simplify_eq/=; [lia|]. specialize (IH i Hi). lia. Qed.

Lemma sum_list_lookup {A} (f : A -> nat) l i x : l !! i = Some x -> (f x <= sum_list_with f l)%nat.
Proof. revert i. induction l as [|z l IH]; intros [|i] Hi; simplify_eq/=; [lia|]. specialize (IH i Hi). lia. Qed.

Lemma sum_list_two {A} (f : A -> nat) l i j x y :
  i <> j -> l !! i = Some x -> l !! j = Some y -> (f x + f y <= sum_list_with f l)%nat.
Proof.
  revert i j. induction l as [|z l IH]; intros [|i] [|j] Hne Hi Hj; simplify_eq/=.
  - apply (sum_list_lookup f) in Hj. lia.
  - apply (sum_list_lookup f) in Hi. lia.
  - specialize (IH i j ltac:(lia) Hi Hj). lia.
Qed.

Lemma sum_list_pos {A} (f : A -> nat) l :
  (0 < sum_list_with f l)%nat -> exists i x, l !! i = Some x /\ (0 < f x)%nat.
Proof.
  induction l as [|z l IH]; cbn; [lia|]. intros Hs. destruct (decide (0 < f z)%nat); [by exists 0%nat, z|].
  destruct IH as (i & x & ? & ?); [lia|]. by exists (S i), x.
Qed.

Lemma sum_list_const {A} (f : A -> nat) n x : sum_list_with f (replicate n x) = (n * f x)%nat.
Proof. induction n as [|n IH]; cbn; [done|]. by rewrite IH. Qed.
