(* ===== verification/Bytes.v ===== *)
(** * Bytes, little-endian words and regular files

    Objects that the source serialises by writing their memory image are
    lists of bytes (integers in [0, 256)); multi-byte fields are
    little-endian, as on the x86-64 target.  A regular file is its content
    and a file offset.  The number of bytes a [write] transfers is chosen by
    the kernel and is an argument of [file_write]; a [read] of a regular
    file returns what is left, up to the requested count. *)

From S2P Require Import Prelude.

#[local] Open Scope Z_scope.

(** ** Words *)

Fixpoint le_encode (n : nat) (v : Z) : list Z :=
  match n with
  | O => []
  | S n' => v mod 256 :: le_encode n' (v / 256)
  end.

Fixpoint le_decode (bs : list Z) : Z :=
  match bs with
  | [] => 0
  | b :: bs' => b + 256 * le_decode bs'
  end.

Definition is_byte (b : Z) : Prop := 0 <= b < 256.

(** ** Byte ranges of a memory image *)

Definition sub_bytes (off n : nat) (m : list Z) : list Z := take n (drop off m).
Definition store_bytes (off : nat) (bs : list Z) (m : list Z) : list Z := list_inserts off bs m.
Definition load_le (n off : nat) (m : list Z) : Z := le_decode (sub_bytes off n m).
Definition store_le (n off : nat) (v : Z) (m : list Z) : list Z := store_bytes off (le_encode n v) m.

(** ** Files *)

(** Writing beyond the end fills the gap with zeros; writing nothing does not
    extend the file. *)
Definition pwrite (off : nat) (bs : list Z) (content : list Z) : list Z :=
  match bs with
  | [] => content
  | _ => take off content ++ replicate (off - length content) 0 ++ bs ++ drop (off + length bs) content
  end.

Definition pread (off n : nat) (content : list Z) : list Z := sub_bytes off n content.

Record file := mk_file { content : list Z; offset : nat }.

(** [written] is the value returned by [::write]: negative for an error,
    otherwise the number of bytes transferred. *)
Definition file_write (written : Z) (bs : list Z) (f : file) : file :=
  let n := Z.to_nat written in
  mk_file (pwrite (offset f) (take n bs) (content f)) (offset f + n).

Definition file_read (n : nat) (f : file) : list Z * file :=
  let bs := pread (offset f) n (content f) in
  (bs, mk_file (content f) (offset f + length bs)).

Definition write_ok (written : Z) (bs : list Z) : Prop := written <= Z.of_nat (length bs).

(** ** Words: lengths and round trips *)

Lemma length_le_encode n v : length (le_encode n v) = n.
Proof. revert v. induction n as [|n IH]; intros v; simpl; [done|]. by rewrite IH. Qed.

Lemma le_encode_bytes n v : Forall is_byte (le_encode n v).
Proof.
  revert v. induction n as [|n IH]; intros v; simpl; constructor; [|apply IH].
  apply Z.mod_pos_bound. lia.
Qed.

Lemma le_decode_encode n v : le_decode (le_encode n v) = wrap (8 * Z.of_nat n) v.
Proof.
  revert v. induction n as [|n IH]; intros v; simpl.
  { unfold wrap. by rewrite Z.mod_1_r. }
  rewrite IH. unfold wrap.
  replace (8 * Z.of_nat (S n)) with (8 + 8 * Z.of_nat n) by lia.
  rewrite Z.pow_add_r by lia. change (2 ^ 8) with 256.
  rewrite Z.rem_mul_r; [done|lia|]. apply Z.pow_pos_nonneg; lia.
Qed.

Lemma le_decode_encode_small n v :
  0 <= v < 2 ^ (8 * Z.of_nat n) -> le_decode (le_encode n v) = v.
Proof. intros Hv. by rewrite le_decode_encode, wrap_small. Qed.

Lemma le_encode_decode bs : Forall is_byte bs -> le_encode (length bs) (le_decode bs) = bs.
Proof.
  induction 1 as [|b bs Hb _ IH]; simpl; [done|]. unfold is_byte in Hb.
  rewrite Z.mul_comm, Z.mod_add, Z.mod_small, Z.div_add, Z.div_small by lia.
  rewrite Z.add_0_l. by rewrite IH.
Qed.

Lemma le_decode_range bs :
  Forall is_byte bs -> 0 <= le_decode bs < 2 ^ (8 * Z.of_nat (length bs)).
Proof.
  induction 1 as [|b bs Hb _ IH]; cbn [le_decode length]; [lia|]. unfold is_byte in Hb.
  replace (8 * Z.of_nat (S (length bs))) with (8 + 8 * Z.of_nat (length bs)) by lia.
  rewrite Z.pow_add_r by lia. change (2 ^ 8) with 256. lia.
Qed.

(** ** Ranges *)

Lemma length_sub_bytes off n m : (off + n <= length m)%nat -> length (sub_bytes off n m) = n.
Proof. intros H. unfold sub_bytes. rewrite length_take, length_drop. lia. Qed.

Lemma lookup_sub_bytes off n m i : (i < n)%nat -> sub_bytes off n m !! i = m !! (off + i)%nat.
Proof. intros Hi. unfold sub_bytes. by rewrite lookup_take_lt, lookup_drop. Qed.

Lemma length_store_bytes off bs m : length (store_bytes off bs m) = length m.
Proof. apply length_inserts. Qed.

Lemma sub_store_same off bs m :
  (off + length bs <= length m)%nat -> sub_bytes off (length bs) (store_bytes off bs m) = bs.
Proof.
  intros Hl. apply list_eq. intros i. destruct (decide (i < length bs)%nat) as [Hi|Hi].
  - rewrite lookup_sub_bytes by done. unfold store_bytes.
    rewrite list_lookup_inserts by lia. f_equal. lia.
  - rewrite !lookup_ge_None_2; [done|lia|]. rewrite length_sub_bytes; [lia|].
    by rewrite length_store_bytes.
Qed.

Lemma sub_store_disjoint off bs m o n :
  (o + n <= off \/ off + length bs <= o)%nat ->
  sub_bytes o n (store_bytes off bs m) = sub_bytes o n m.
Proof.
  intros Hd. apply list_eq. intros i. destruct (decide (i < n)%nat) as [Hi|Hi].
  - rewrite !lookup_sub_bytes by done. unfold store_bytes.
    destruct (decide (o + i < off)%nat); [by rewrite list_lookup_inserts_lt|].
    by rewrite list_lookup_inserts_ge by lia.
  - unfold sub_bytes. by rewrite !lookup_take_ge by lia.
Qed.

Lemma load_store_same n off v m :
  (off + n <= length m)%nat -> load_le n off (store_le n off v m) = wrap (8 * Z.of_nat n) v.
Proof.
  intros Hl. unfold load_le, store_le.
  pose proof (length_le_encode n v) as He. rewrite <- He at 1.
  rewrite sub_store_same by lia. apply le_decode_encode.
Qed.

Lemma load_store_disjoint n off v m k o :
  (o + k <= off \/ off + n <= o)%nat -> load_le k o (store_le n off v m) = load_le k o m.
Proof.
  intros Hd. unfold load_le, store_le. by rewrite sub_store_disjoint by (by rewrite length_le_encode).
Qed.

Lemma load_store_bytes_disjoint k o off bs m :
  (o + k <= off \/ off + length bs <= o)%nat -> load_le k o (store_bytes off bs m) = load_le k o m.
Proof. intros Hd. unfold load_le. by rewrite sub_store_disjoint. Qed.

Lemma length_store_le n off v m : length (store_le n off v m) = length m.
Proof. apply length_store_bytes. Qed.

Lemma sub_store_le_disjoint n off v m o k :
  (o + k <= off \/ off + n <= o)%nat -> sub_bytes o k (store_le n off v m) = sub_bytes o k m.
Proof. intros Hd. unfold store_le. by rewrite sub_store_disjoint by (by rewrite length_le_encode). Qed.

(** Reading back a range that was copied from [src] to the same offsets. *)
Lemma sub_store_inside lo n src m o k :
  (lo + n <= length src)%nat -> (lo + n <= length m)%nat -> (lo <= o)%nat -> (o + k <= lo + n)%nat ->
  sub_bytes o k (store_bytes lo (sub_bytes lo n src) m) = sub_bytes o k src.
Proof.
  intros Hs Hm Hlo Hhi. apply list_eq. intros i. destruct (decide (i < k)%nat) as [Hi|Hi].
  - rewrite !lookup_sub_bytes by done. unfold store_bytes.
    rewrite list_lookup_inserts by (rewrite ?length_sub_bytes; lia).
    rewrite lookup_sub_bytes by lia. f_equal. lia.
  - unfold sub_bytes at 1 3. by rewrite !lookup_take_ge by lia.
Qed.

Lemma sub_bytes_nil off m : sub_bytes off 0 m = [].
Proof. done. Qed.

Lemma sub_bytes_all m : sub_bytes 0 (length m) m = m.
Proof. unfold sub_bytes. by rewrite drop_0, firstn_all. Qed.

Lemma sub_bytes_app_l off n (m1 m2 : list Z) :
  (off + n <= length m1)%nat -> sub_bytes off n (m1 ++ m2) = sub_bytes off n m1.
Proof. intros H. unfold sub_bytes. rewrite drop_app_le by lia. rewrite take_app_le; [done|]. rewrite length_drop. lia. Qed.

Lemma sub_bytes_app_r off n (m1 m2 : list Z) :
  sub_bytes (length m1 + off) n (m1 ++ m2) = sub_bytes off n m2.
Proof. unfold sub_bytes. by rewrite drop_app_add. Qed.

Lemma sub_bytes_app_exact (m1 bs m2 : list Z) off n :
  length m1 = off -> length bs = n -> sub_bytes off n (m1 ++ bs ++ m2) = bs.
Proof. intros <- <-. unfold sub_bytes. by rewrite drop_app_length, take_app_length. Qed.

Lemma encode_load n off m :
  Forall is_byte m -> (off + n <= length m)%nat -> le_encode n (load_le n off m) = sub_bytes off n m.
Proof.
  intros Hm Hl. unfold load_le. rewrite <- (length_sub_bytes off n m Hl) at 1.
  apply le_encode_decode. by apply Forall_take, Forall_drop.
Qed.

Lemma drop_sub_bytes off n (m : list Z) : drop off m = sub_bytes off n m ++ drop (off + n) m.
Proof. unfold sub_bytes. by rewrite <- drop_drop, take_drop. Qed.

(** Fields of a serialised record, one after the other. *)
Lemma load_le_app_here n v rest :
  0 <= v < 2 ^ (8 * Z.of_nat n) -> load_le n 0 (le_encode n v ++ rest) = v.
Proof.
  intros Hv. unfold load_le, sub_bytes. rewrite drop_0.
  rewrite take_app_length' by (by rewrite length_le_encode). by apply le_decode_encode_small.
Qed.

Lemma load_le_app_skip n off k v rest :
  (k <= off)%nat -> load_le n off (le_encode k v ++ rest) = load_le n (off - k) rest.
Proof.
  intros Hk. unfold load_le. f_equal.
  replace off with (length (le_encode k v) + (off - k))%nat at 1 by (rewrite length_le_encode; lia).
  apply sub_bytes_app_r.
Qed.

(** ** Files *)

(** [pwrite] replaces one range of the file. *)
Lemma pwrite_eq off bs c :
  bs <> [] -> pwrite off bs c = take off c ++ replicate (off - length c) 0 ++ bs ++ drop (off + length bs) c.
Proof. by destruct bs. Qed.

Lemma length_pwrite_prefix off (c : list Z) : length (take off c ++ replicate (off - length c) 0) = off.
Proof. rewrite length_app, length_take, length_replicate. lia. Qed.

Lemma length_pwrite off bs c : bs <> [] -> length (pwrite off bs c) = Nat.max (off + length bs) (length c).
Proof.
  intros Hbs. rewrite pwrite_eq, app_assoc, length_app, length_pwrite_prefix, length_app, length_drop by done. lia.
Qed.

Lemma sub_pwrite_same off bs c : sub_bytes off (length bs) (pwrite off bs c) = bs.
Proof.
  destruct (decide (bs = [])) as [->|Hbs]; [done|].
  rewrite pwrite_eq, app_assoc by done. apply sub_bytes_app_exact; [|done]. apply length_pwrite_prefix.
Qed.

Lemma sub_pwrite_high off bs c o n :
  (off + length bs <= o)%nat -> sub_bytes o n (pwrite off bs c) = sub_bytes o n c.
Proof.
  intros Ho. destruct (decide (bs = [])) as [->|Hbs]; [done|]. rewrite pwrite_eq, app_assoc, app_assoc by done.
  assert (length ((take off c ++ replicate (off - length c) 0) ++ bs) = (off + length bs)%nat) as Hl
    by (rewrite length_app, length_pwrite_prefix; done).
  replace o with (off + length bs + (o - (off + length bs)))%nat at 1 by lia. rewrite <- Hl at 1.
  rewrite sub_bytes_app_r. unfold sub_bytes. rewrite drop_drop. do 2 f_equal. lia.
Qed.

Lemma sub_pwrite_low off bs c o n :
  (o + n <= off)%nat -> (o + n <= length c)%nat -> sub_bytes o n (pwrite off bs c) = sub_bytes o n c.
Proof.
  intros Ho Hc. destruct (decide (bs = [])) as [->|Hbs]; [done|].
  rewrite pwrite_eq, sub_bytes_app_l by (done || rewrite length_take; lia).
  unfold sub_bytes. rewrite !take_drop_commute, take_take. f_equal. f_equal. lia.
Qed.

Lemma sub_pwrite_gap off bs c o n :
  bs <> [] -> (o + n <= off)%nat -> (length c <= o)%nat -> sub_bytes o n (pwrite off bs c) = replicate n 0.
Proof.
  intros Hbs Ho Hc. rewrite pwrite_eq, take_ge by (done || lia).
  replace o with (length c + (o - length c))%nat by lia. rewrite sub_bytes_app_r, sub_bytes_app_l.
  - unfold sub_bytes. rewrite drop_replicate, take_replicate. f_equal. lia.
  - rewrite length_replicate. lia.
Qed.

Lemma pwrite_end bs c : pwrite (length c) bs c = c ++ bs.
Proof.
  destruct (decide (bs = [])) as [->|Hbs]; [by rewrite app_nil_r|].
  rewrite pwrite_eq, take_ge, Nat.sub_diag, drop_ge by (done || lia). simpl. by rewrite app_nil_r.
Qed.

#[global] Arguments le_encode : simpl never.
#[global] Arguments le_decode : simpl never.
