(* ===== verification/Ring.v ===== *)
(** * Single-producer single-consumer rings

    The protocol shared by [SPSCQueue], [ShmIpcBus], [ShmMarketFeed] and
    [FastLogger]: two 64-bit counters that only grow (and wrap around), a
    power-of-two array indexed by counter and mask, a producer that owns the
    write counter and a consumer that owns the read counter.  [ring_inv]
    relates the shared variables to the history of published elements; the
    lemmas are the steps every client of the protocol takes. *)

From S2P Require Import Prelude.

#[local] Open Scope Z_scope.
#[local] Open Scope cpp_scope.

(** [index & mask] for a ring of [cap] slots. *)
Definition slot_of (cap idx : Z) : nat := Z.to_nat (Z.land idx (cap -64 1)).

Section ring.
Context {S : Type} (k : Z) (Hk : 0 <= k < 64).
Abbreviation cap := (2 ^ k).

(** [hist] holds the published elements, [nr] counts the consumed ones, and
    the slots of the elements from [lo] on still hold them: [lo] is [nr], or
    one more while the consumer has emptied the slot it is about to release. *)
Record ring_inv (w r : Z) (slots : list S) (hist : list S) (nr lo : nat) : Prop := {
  ring_w : w = u64 (Z.of_nat (length hist));
  ring_r : r = u64 (Z.of_nat nr);
  ring_lo : (nr <= lo <= length hist)%nat;
  ring_lo1 : (lo <= nr + 1)%nat;
  ring_cap : Z.of_nat (length hist) <= Z.of_nat nr + cap;
  ring_len : Z.of_nat (length slots) = cap;
  ring_slots : forall i, (lo <= i < length hist)%nat ->
    slots !! Z.to_nat (Z.of_nat i mod cap) = hist !! i }.

Lemma cap_pos : 0 < cap < 2 ^ 64.
Proof. split; [apply Z.pow_pos_nonneg; lia|apply Z.pow_lt_mono_r; lia]. Qed.

Lemma slot_of_counter n : slot_of cap (u64 n) = Z.to_nat (n mod cap).
Proof.
  pose proof cap_pos. unfold slot_of.
  by rewrite (wrap_small 64 (cap - 1)), land_mask_wrap by lia.
Qed.

Lemma mod_cap_inj i j : Z.abs (i - j) < cap -> i mod cap = j mod cap -> i = j.
Proof. intros Hab Heq. apply (wrap_inj k); [lia|done|done]. Qed.

(** The producer compares its counter with a value [r0] of the read counter
    loaded at some earlier time. *)
Lemma ring_full w r slots hist nr lo r0 nr0 :
  ring_inv w r slots hist nr lo -> r0 = u64 (Z.of_nat nr0) -> (nr0 <= nr)%nat ->
  Z.of_nat (length hist) <= Z.of_nat nr0 + cap ->
  (cap <=? w -64 r0) = bool_decide (Z.of_nat (length hist) = Z.of_nat nr0 + cap).
Proof.
  intros HI -> Hle Hb. rewrite (ring_w _ _ _ _ _ _ HI), wrap_sub. pose proof cap_pos.
  pose proof (ring_lo _ _ _ _ _ _ HI). rewrite wrap_small by lia.
  apply eq_bool_prop_intro. rewrite bool_decide_spec. unfold Is_true.
  destruct (Z.leb_spec cap (Z.of_nat (length hist) - Z.of_nat nr0)); split; lia || done.
Qed.

(** The consumer compares its counter with a value [w0] of the write counter
    loaded at some earlier time. *)
Lemma ring_empty w r slots hist nr lo w0 nw0 :
  ring_inv w r slots hist nr lo -> w0 = u64 (Z.of_nat nw0) -> (nr <= nw0 <= length hist)%nat ->
  (r =? w0) = bool_decide (nr = nw0).
Proof.
  intros HI -> Hle. rewrite (ring_r _ _ _ _ _ _ HI). pose proof cap_pos.
  pose proof (ring_cap _ _ _ _ _ _ HI).
  case_bool_decide as Heq; [subst; apply Z.eqb_refl|]. apply Z.eqb_neq. intros Hw.
  apply (wrap_inj 64) in Hw; lia.
Qed.

(** Writing the slot of the write counter while the ring is not full does not
    touch an element that is still to be read. *)
Lemma ring_write w r slots hist nr lo x :
  ring_inv w r slots hist nr lo -> Z.of_nat (length hist) < Z.of_nat nr + cap ->
  ring_inv w r (<[slot_of cap w := x]> slots) hist nr lo /\
  <[slot_of cap w := x]> slots !! slot_of cap w = Some x.
Proof.
  intros HI Hlt. pose proof cap_pos. pose proof (ring_len _ _ _ _ _ _ HI) as Hlen.
  assert (slot_of cap w = Z.to_nat (Z.of_nat (length hist) mod cap)) as Hs
    by (rewrite (ring_w _ _ _ _ _ _ HI); apply slot_of_counter).
  pose proof (Z.mod_pos_bound (Z.of_nat (length hist)) cap ltac:(lia)).
  split; [|apply list_lookup_insert_eq; lia].
  split; try apply HI; [by rewrite length_insert|].
  intros i Hi. rewrite list_lookup_insert_ne; [by apply HI|].
  rewrite Hs. intros Heq%Z2Nat.inj; [|lia|apply Z.mod_pos_bound; lia].
  pose proof (ring_lo _ _ _ _ _ _ HI). apply mod_cap_inj in Heq; lia.
Qed.

Lemma ring_commit w r slots hist nr lo x :
  ring_inv w r slots hist nr lo -> Z.of_nat (length hist) < Z.of_nat nr + cap ->
  slots !! slot_of cap w = Some x ->
  ring_inv (w +64 1) r slots (hist ++ [x]) nr lo.
Proof.
  intros HI Hlt Hx. rewrite (ring_w _ _ _ _ _ _ HI), slot_of_counter in Hx.
  split; try apply HI; rewrite ?length_app; cbn [length].
  - rewrite (ring_w _ _ _ _ _ _ HI), wrap_add_l. f_equal. lia.
  - pose proof (ring_lo _ _ _ _ _ _ HI). lia.
  - lia.
  - intros i Hi. destruct (decide (i = length hist)) as [->|Hne].
    + rewrite list_lookup_middle by done. done.
    + rewrite lookup_app_l by lia. apply HI. lia.
Qed.

(** The slot of the read counter holds the oldest element not yet consumed. *)
Lemma ring_read w r slots hist nr :
  ring_inv w r slots hist nr nr -> (nr < length hist)%nat ->
  slots !! slot_of cap r = hist !! nr.
Proof.
  intros HI Hlt. rewrite (ring_r _ _ _ _ _ _ HI), slot_of_counter. by apply HI.
Qed.

(** While the consumer holds that slot, changing it disturbs no later one. *)
Lemma ring_take w r slots hist nr x :
  ring_inv w r slots hist nr nr -> (nr < length hist)%nat ->
  ring_inv w r (<[slot_of cap r := x]> slots) hist nr (nr + 1).
Proof.
  intros HI Hlt. pose proof cap_pos. pose proof (ring_cap _ _ _ _ _ _ HI).
  split; try apply HI; [lia|lia|by rewrite length_insert; apply HI|].
  intros i Hi. rewrite (ring_r _ _ _ _ _ _ HI), slot_of_counter.
  rewrite list_lookup_insert_ne; [apply HI; lia|].
  intros Heq%Z2Nat.inj; try (apply Z.mod_pos_bound; lia). apply mod_cap_inj in Heq; lia.
Qed.

Lemma ring_release w r slots hist nr lo :
  ring_inv w r slots hist nr lo -> (nr < length hist)%nat ->
  ring_inv w (r +64 1) slots hist (nr + 1) (nr + 1).
Proof.
  intros HI Hlt. pose proof (ring_cap _ _ _ _ _ _ HI). pose proof (ring_lo1 _ _ _ _ _ _ HI).
  split; try apply HI; try lia.
  - rewrite (ring_r _ _ _ _ _ _ HI), wrap_add_l. f_equal. lia.
  - intros i Hi. apply HI. lia.
Qed.

(** The slots the two sides work on at the same time are different. *)
Lemma ring_no_race w r slots hist nr lo :
  ring_inv w r slots hist nr lo -> Z.of_nat (length hist) < Z.of_nat nr + cap ->
  (nr < length hist)%nat -> slot_of cap w <> slot_of cap r.
Proof.
  intros HI Hlt Hne. pose proof cap_pos.
  rewrite (ring_w _ _ _ _ _ _ HI), (ring_r _ _ _ _ _ _ HI), !slot_of_counter.
  intros Heq%Z2Nat.inj; try (apply Z.mod_pos_bound; lia). apply mod_cap_inj in Heq; lia.
Qed.

Lemma ring_init (x : S) : ring_inv 0 0 (replicate (Z.to_nat cap) x) [] 0 0.
Proof.
  pose proof cap_pos. split; simpl; try lia; [done|done|].
  rewrite length_replicate. lia.
Qed.
End ring.

(** ** The interface of an uncached ring

    What [ShmIpcBus] and [ShmMarketFeed] have in common: [publish] loads both
    counters, tests for room, fills the slot and stores the write counter;
    [consume] loads both counters, copies the slot out and stores the read
    counter.  [M] is the argument of [publish] and [S] the content of a slot;
    [rq_put] is what filling does to the old content. *)
Class RingQueue (Q M S : Type) := {
  rq_w : Q -> Z;
  rq_r : Q -> Z;
  rq_slots : Q -> list S;
  rq_put : M -> S -> S;
  rq_full : Z -> Z -> Q -> bool;
  rq_write : M -> Z -> Q -> Q;
  rq_publish : Z -> Q -> Q;
  rq_read : Z -> Q -> option S;
  rq_release : Z -> Q -> Q }.

Class RingLaws {Q M S} (R : RingQueue Q M S) (k : Z) (ok : Q -> Prop) := {
  rl_k : 0 <= k < 64;
  rl_full q w r : ok q -> rq_full w r q = (2 ^ k <=? w -64 r);
  rl_write q m w : ok q ->
    ok (rq_write m w q) /\ rq_w (rq_write m w q) = rq_w q /\ rq_r (rq_write m w q) = rq_r q /\
    rq_slots (rq_write m w q) = alter (rq_put m) (slot_of (2 ^ k) w) (rq_slots q);
  rl_publish q w : ok q ->
    ok (rq_publish w q) /\ rq_w (rq_publish w q) = w +64 1 /\ rq_r (rq_publish w q) = rq_r q /\
    rq_slots (rq_publish w q) = rq_slots q;
  rl_read q r : ok q -> rq_read r q = rq_slots q !! slot_of (2 ^ k) r;
  rl_release q r : ok q ->
    ok (rq_release r q) /\ rq_w (rq_release r q) = rq_w q /\ rq_r (rq_release r q) = r +64 1 /\
    rq_slots (rq_release r q) = rq_slots q }.

Section machine.
Context {Q M S : Type} {R : RingQueue Q M S}.

(** The calls as a whole, for one thread that is not interrupted; undefined
    for a slot outside the mapping. *)
Definition ring_publish (m : M) (q : Q) : option (bool * Q) :=
  let w := rq_w q in
  let r := rq_r q in
  if rq_full w r q then Some (false, q) else
  _ ← rq_read w q; Some (true, rq_publish w (rq_write m w q)).

Definition ring_consume (q : Q) : option (bool * option S * Q) :=
  let r := rq_r q in
  let w := rq_w q in
  if r =? w then Some (false, None, q) else
  out ← rq_read r q; Some (true, Some out, rq_release r q).

Inductive rppc := RP_idle | RP_loaded (m : M) (w : Z) | RP_ready (m : M) (w : Z) | RP_written (m : M) (w : Z).
Inductive rcpc := RC_idle | RC_loaded (r : Z) | RC_ready (r : Z) | RC_read (r : Z) (out : S).

(** [sent] holds the published messages with the slot content they became,
    [received] what the completed calls of [consume] copied out. *)
Record rcfg := mkr { rq : Q; rp : rppc; rc : rcpc; sent : list (M * S); received : list S }.

Inductive ring_step : rcfg -> rcfg -> Prop :=
| rs_call q c m ps qs :
    ring_step (mkr q RP_idle c ps qs) (mkr q (RP_loaded m (rq_w q)) c ps qs)
| rs_full q c m w ps qs :
    rq_full w (rq_r q) q = true ->
    ring_step (mkr q (RP_loaded m w) c ps qs) (mkr q RP_idle c ps qs)
| rs_room q c m w ps qs :
    rq_full w (rq_r q) q = false ->
    ring_step (mkr q (RP_loaded m w) c ps qs) (mkr q (RP_ready m w) c ps qs)
| rs_write q c m w ps qs :
    ring_step (mkr q (RP_ready m w) c ps qs) (mkr (rq_write m w q) (RP_written m w) c ps qs)
| rs_publish q c m w x ps qs :
    rq_read w q = Some x ->
    ring_step (mkr q (RP_written m w) c ps qs) (mkr (rq_publish w q) RP_idle c (ps ++ [(m, x)]) qs)
| rs_consume q p ps qs :
    ring_step (mkr q p RC_idle ps qs) (mkr q p (RC_loaded (rq_r q)) ps qs)
| rs_empty q p r ps qs :
    (r =? rq_w q) = true ->
    ring_step (mkr q p (RC_loaded r) ps qs) (mkr q p RC_idle ps qs)
| rs_avail q p r ps qs :
    (r =? rq_w q) = false ->
    ring_step (mkr q p (RC_loaded r) ps qs) (mkr q p (RC_ready r) ps qs)
| rs_read q p r x ps qs :
    rq_read r q = Some x ->
    ring_step (mkr q p (RC_ready r) ps qs) (mkr q p (RC_read r x) ps qs)
| rs_release q p r x ps qs :
    ring_step (mkr q p (RC_read r x) ps qs) (mkr (rq_release r q) p RC_idle ps (qs ++ [x])).

Context (k : Z) (ok : Q -> Prop) {L : RingLaws R k ok}.

Definition rp_ok (q : Q) (p : rppc) (room : Prop) : Prop :=
  match p with
  | RP_idle => True
  | RP_loaded _ w => w = rq_w q
  | RP_ready _ w => w = rq_w q /\ room
  | RP_written m w => w = rq_w q /\ room /\
      exists old, rq_slots q !! slot_of (2 ^ k) w = Some (rq_put m old)
  end.

Definition rc_ok (q : Q) (c : rcpc) (avail : Prop) (next : option S) : Prop :=
  match c with
  | RC_idle => True
  | RC_loaded r => r = rq_r q
  | RC_ready r => r = rq_r q /\ avail
  | RC_read r x => r = rq_r q /\ avail /\ next = Some x
  end.

Record RInv (x : rcfg) : Prop := {
  rinv_ok : ok (rq x);
  rinv_ring : ring_inv k (rq_w (rq x)) (rq_r (rq x)) (rq_slots (rq x)) (sent x).*2
                (length (received x)) (length (received x));
  rinv_fifo : received x = take (length (received x)) (sent x).*2;
  rinv_put : forall m y, (m, y) ∈ sent x -> exists old, y = rq_put m old;
  rinv_p : rp_ok (rq x) (rp x) (Z.of_nat (length (sent x)) < Z.of_nat (length (received x)) + 2 ^ k);
  rinv_c : rc_ok (rq x) (rc x) (length (received x) < length (sent x))%nat
             ((sent x).*2 !! length (received x)) }.
End machine.
#[global] Arguments rcfg : clear implicits.
#[global] Arguments rppc : clear implicits.
#[global] Arguments rcpc : clear implicits.

Lemma alter_as_insert {A} (f : A -> A) (l : list A) i x :
  l !! i = Some x -> alter f i l = <[i := f x]> l.
Proof.
  intros Hx. apply list_eq. intros j. destruct (decide (i = j)) as [<-|Hne].
  - rewrite list_lookup_alter_eq, Hx, list_lookup_insert_eq; [done|by eapply lookup_lt_Some].
  - by rewrite list_lookup_alter_ne, list_lookup_insert_ne.
Qed.

Section machine_inv.
Context {Q M S : Type} {R : RingQueue Q M S} (k : Z) (ok : Q -> Prop) {L : RingLaws R k ok}.

Lemma ring_slot_is_Some w r (slots hist : list S) nr lo n :
  ring_inv k w r slots hist nr lo -> is_Some (slots !! slot_of (2 ^ k) (u64 n)).
Proof.
  intros HR. pose proof (cap_pos k rl_k). apply lookup_lt_is_Some_2. rewrite slot_of_counter by apply L.
  pose proof (ring_len _ _ _ _ _ _ _ HR). pose proof (Z.mod_pos_bound n (2 ^ k) ltac:(lia)). lia.
Qed.

Lemma ring_test_full q p c ps qs :
  RInv k ok (mkr q p c ps qs) ->
  rq_full (rq_w q) (rq_r q) q = bool_decide (Z.of_nat (length ps) = Z.of_nat (length qs) + 2 ^ k).
Proof.
  intros HI. rewrite rl_full by apply HI. pose proof (rinv_ring _ _ _ HI) as HR. cbn in HR.
  pose proof (ring_cap _ _ _ _ _ _ _ HR) as Hcap.
  rewrite (ring_full k rl_k _ _ _ _ _ _ _ (length qs) HR); [by rewrite length_fmap|apply HR|done|done].
Qed.

Lemma ring_test_empty q p c ps qs :
  RInv k ok (mkr q p c ps qs) -> (rq_r q =? rq_w q) = bool_decide (length qs = length ps).
Proof.
  intros HI. pose proof (rinv_ring _ _ _ HI) as HR. cbn in HR. pose proof (ring_lo _ _ _ _ _ _ _ HR).
  rewrite (ring_empty k rl_k _ _ _ _ _ _ _ (length ps.*2) HR); [by rewrite length_fmap|apply HR|lia].
Qed.

Lemma rinv_write q m w c ps qs :
  RInv k ok (mkr q (RP_ready m w) c ps qs) ->
  RInv k ok (mkr (rq_write m w q) (RP_written m w) c ps qs).
Proof.
  intros HI. destruct (rinv_p _ _ _ HI) as [-> Hroom]. pose proof (rinv_ring _ _ _ HI) as HR.
  cbn [rq rp rc sent received] in *.
  destruct (rl_write q m (rq_w q) (rinv_ok _ _ _ HI)) as (Hok & Hw & Hr & Hs).
  destruct (ring_slot_is_Some _ _ _ _ _ _ (Z.of_nat (length ps.*2)) HR) as [old Hold].
  rewrite <- (ring_w _ _ _ _ _ _ _ HR) in Hold. rewrite (alter_as_insert _ _ _ _ Hold) in Hs.
  destruct (ring_write k rl_k _ _ _ _ _ _ (rq_put m old) HR) as [HR' Hx]; [by rewrite length_fmap|].
  split; try apply HI; cbn [rq rp rc sent received].
  - done.
  - rewrite Hs, Hw, Hr. apply HR'.
  - cbn. rewrite Hw, Hs. eauto.
  - pose proof (rinv_c _ _ _ HI) as Hc. destruct c; cbn in *; by rewrite ?Hr.
Qed.

Lemma rinv_publish q m w x c ps qs :
  RInv k ok (mkr q (RP_written m w) c ps qs) -> rq_read w q = Some x ->
  RInv k ok (mkr (rq_publish w q) RP_idle c (ps ++ [(m, x)]) qs).
Proof.
  intros HI Hx. destruct (rinv_p _ _ _ HI) as (Hwq & Hroom & old & Hold).
  pose proof (rinv_ring _ _ _ HI) as HR. cbn [rq rp rc sent received] in *. subst w.
  rewrite rl_read, Hold in Hx by apply HI. simplify_eq.
  destruct (rl_publish q (rq_w q) (rinv_ok _ _ _ HI)) as (Hok & Hw & Hr & Hs).
  pose proof (ring_lo _ _ _ _ _ _ _ HR) as Hlo. rewrite length_fmap in Hlo.
  split; try apply HI; cbn [rq rp rc sent received]; rewrite ?fmap_app.
  - done.
  - rewrite Hs, Hw, Hr. apply ring_commit; [apply L|done|by rewrite length_fmap|done].
  - rewrite take_app_le by (rewrite length_fmap; lia). apply HI.
  - intros m' y [Hin|Heq%list_elem_of_singleton]%elem_of_app; [by apply (rinv_put _ _ _ HI)|simplify_eq; eauto].
  - done.
  - pose proof (rinv_c _ _ _ HI) as Hc. destruct c; cbn in *; rewrite ?Hr, ?length_app; [done|done| |].
    + split; [apply Hc|]. cbn. lia.
    + destruct Hc as (? & ? & ?). split_and!; [done|cbn; lia|]. by apply lookup_app_l_Some.
Qed.

Lemma rinv_read q p r x ps qs :
  RInv k ok (mkr q p (RC_ready r) ps qs) -> rq_read r q = Some x ->
  RInv k ok (mkr q p (RC_read r x) ps qs).
Proof.
  intros HI Hx. destruct (rinv_c _ _ _ HI) as [Hrq Hav]. pose proof (rinv_ring _ _ _ HI) as HR.
  cbn [rq rp rc sent received] in *. subst r.
  split; try apply HI. cbn. split_and!; [done|done|]. rewrite rl_read in Hx by apply HI.
  by rewrite (ring_read k rl_k _ _ _ _ _ HR) in Hx by (rewrite length_fmap; lia).
Qed.

Lemma rinv_release q p r x ps qs :
  RInv k ok (mkr q p (RC_read r x) ps qs) -> RInv k ok (mkr (rq_release r q) p RC_idle ps (qs ++ [x])).
Proof.
  intros HI. destruct (rinv_c _ _ _ HI) as (-> & Hav & Hx). pose proof (rinv_ring _ _ _ HI) as HR.
  cbn [rq rp rc sent received] in *.
  destruct (rl_release q (rq_r q) (rinv_ok _ _ _ HI)) as (Hok & Hw & Hr & Hs).
  split; try apply HI; cbn [rq rp rc sent received]; rewrite ?length_app; cbn [length].
  - done.
  - rewrite Hs, Hw, Hr. eapply (ring_release k rl_k); [done|]. rewrite length_fmap. lia.
  - rewrite Nat.add_1_r, (take_S_r _ _ x) by done. f_equal. apply HI.
  - pose proof (rinv_p _ _ _ HI) as Hp. destruct p; cbn in *; rewrite ?Hw, ?Hs; [done|done| |].
    + split; [apply Hp|lia].
    + destruct Hp as (? & ? & ?). split_and!; [done|lia|done].
  - done.
Qed.

Lemma ring_step_inv x y : ring_step x y -> RInv k ok x -> RInv k ok y.
Proof.
  intros Hst HI. inversion Hst as
    [q c m ps qs|q c m w ps qs Hf|q c m w ps qs Hf|q c m w ps qs|q c m w z ps qs Hr
    |q p ps qs|q p r ps qs He|q p r ps qs He|q p r z ps qs Hr|q p r z ps qs]; subst.
  - by split; try apply HI.
  - by split; try apply HI.
  - split; try apply HI. pose proof (rinv_p _ _ _ HI) as Hp. cbn in Hp. subst w. cbn. split; [done|].
    rewrite (ring_test_full _ _ _ _ _ HI) in Hf. apply bool_decide_eq_false in Hf.
    pose proof (ring_cap _ _ _ _ _ _ _ (rinv_ring _ _ _ HI)) as Hc. cbn in Hc. rewrite length_fmap in Hc. lia.
  - by apply rinv_write.
  - by apply rinv_publish.
  - by split; try apply HI.
  - by split; try apply HI.
  - split; try apply HI. pose proof (rinv_c _ _ _ HI) as Hp. cbn in Hp. subst r. cbn. split; [done|].
    rewrite (ring_test_empty _ _ _ _ _ HI) in He. apply bool_decide_eq_false in He.
    pose proof (ring_lo _ _ _ _ _ _ _ (rinv_ring _ _ _ HI)) as Hc. cbn in Hc. rewrite length_fmap in Hc. lia.
  - by apply rinv_read.
  - by apply rinv_release.
Qed.

Lemma ring_reachable x y : rtc ring_step x y -> RInv k ok x -> RInv k ok y.
Proof. induction 1; eauto using ring_step_inv. Qed.

Definition rinit (q : Q) : rcfg Q M S := mkr q RP_idle RC_idle [] [].

Lemma rinv_init q z :
  ok q -> rq_w q = 0 -> rq_r q = 0 -> rq_slots q = replicate (Z.to_nat (2 ^ k)) z ->
  RInv k ok (rinit q).
Proof.
  intros Hok Hw Hr Hs. split; cbn; try done.
  - rewrite Hw, Hr, Hs. apply ring_init. apply L.
  - intros m y []%not_elem_of_nil.
Qed.

(** What every client of the interface may rely on. *)
Lemma ring_contract q z x :
  ok q -> rq_w q = 0 -> rq_r q = 0 -> rq_slots q = replicate (Z.to_nat (2 ^ k)) z ->
  rtc ring_step (rinit q) x ->
  received x `prefix_of` (sent x).*2 /\
  (forall m y, (m, y) ∈ sent x -> exists old, y = rq_put m old) /\
  Z.of_nat (length (sent x)) <= Z.of_nat (length (received x)) + 2 ^ k /\
  (forall m w, rp x = RP_loaded m w -> rq_full w (rq_r (rq x)) (rq x) = true ->
     Z.of_nat (length (sent x)) = Z.of_nat (length (received x)) + 2 ^ k) /\
  (forall r, rc x = RC_loaded r -> (r =? rq_w (rq x)) = true -> (sent x).*2 = received x) /\
  (forall m w r, rp x = RP_ready m w -> rc x = RC_ready r -> slot_of (2 ^ k) w <> slot_of (2 ^ k) r).
Proof.
  intros Hok Hw Hr Hs Hst. assert (RInv k ok x) as HI by (eapply ring_reachable; [done|by eapply rinv_init]).
  destruct x as [q' p c ps qs]. pose proof (rinv_ring _ _ _ HI) as HR. cbn [rq rp rc sent received] in *.
  pose proof (ring_cap _ _ _ _ _ _ _ HR) as Hcap. rewrite length_fmap in Hcap.
  pose proof (rinv_fifo _ _ _ HI) as Hf. cbn in Hf. split_and!.
  - rewrite Hf. apply prefix_take.
  - apply (rinv_put _ _ _ HI).
  - done.
  - intros m w -> Hfull. pose proof (rinv_p _ _ _ HI) as Hp. cbn in Hp. subst w.
    rewrite (ring_test_full _ _ _ _ _ HI) in Hfull. by apply bool_decide_eq_true in Hfull.
  - intros r -> He. pose proof (rinv_c _ _ _ HI) as Hc. cbn in Hc. subst r.
    rewrite (ring_test_empty _ _ _ _ _ HI) in He. apply bool_decide_eq_true in He.
    rewrite He in Hf. rewrite Hf. by rewrite <- (length_fmap snd ps), firstn_all.
  - intros m w r -> ->. destruct (rinv_p _ _ _ HI) as [-> ?], (rinv_c _ _ _ HI) as [-> ?].
    cbn in *. eapply (ring_no_race k rl_k); [done|rewrite length_fmap; lia|rewrite length_fmap; lia].
Qed.
End machine_inv.
