(* ===== verification/Buddy.v ===== *)
(** * The binary buddy allocator

    Model of [BuddyAllocator] (02-virtual-memory-and-custom-allocators,
    buddy_allocator.hpp): one mapped pool of 1 MB, one vector of free block
    addresses per order, splitting on [allocate] and coalescing on
    [deallocate].  Addresses are integers; [mmap] is a parameter of the
    constructor.  Every public operation holds the mutex for its whole body,
    so a concurrent execution is a sequence of the operations below. *)

From S2P Require Import Prelude.

#[local] Open Scope Z_scope.
#[local] Open Scope cpp_scope.

Module Buddy.

Definition MIN_BLOCK_SIZE : Z := 4096.
Definition MAX_ORDER : nat := 8.
Definition POOL_SIZE : Z := MIN_BLOCK_SIZE <<64 Z.of_nat MAX_ORDER.

Record t := mk {
  raw_memory_ : Z;
  free_lists_ : list (list Z);
  allocated_bytes_ : Z;
  split_count_ : Z;
  merge_count_ : Z }.

Definition fl (s : t) (order : nat) : list Z := default [] (free_lists_ s !! order).

Definition set_fl (order : nat) (l : list Z) (s : t) : t :=
  mk (raw_memory_ s) (<[order := l]> (free_lists_ s))
     (allocated_bytes_ s) (split_count_ s) (merge_count_ s).

Definition push_free (order : nat) (block : Z) (s : t) : t :=
  set_fl order (push_back (fl s order) block) s.

Definition add_allocated (d : Z) (s : t) : t :=
  mk (raw_memory_ s) (free_lists_ s) (allocated_bytes_ s +64 d) (split_count_ s) (merge_count_ s).

Definition incr_split (s : t) : t :=
  mk (raw_memory_ s) (free_lists_ s) (allocated_bytes_ s) (split_count_ s +64 1) (merge_count_ s).

Definition incr_merge (s : t) : t :=
  mk (raw_memory_ s) (free_lists_ s) (allocated_bytes_ s) (split_count_ s) (merge_count_ s +64 1).

(** The constructor; [None] is [MAP_FAILED] for [mmap] and the thrown
    [std::bad_alloc] for the result. *)
Definition BuddyAllocator (mmap : option Z) : option t :=
  match mmap with
  | None => None
  | Some raw =>
      let s := mk raw (replicate (S MAX_ORDER) []) 0 0 0 in
      Some (push_free MAX_ORDER raw s)
  end.

Definition order_to_size (order : nat) : Z := MIN_BLOCK_SIZE <<64 Z.of_nat order.

(** The loop runs at most [MAX_ORDER] times, because its guard tests
    [order < MAX_ORDER]. *)
Fixpoint size_to_order_loop (fuel : nat) (bytes size : Z) (order : nat) : nat :=
  match fuel with
  | O => order
  | S fuel' =>
      if (size <? bytes) && (order <? MAX_ORDER)%nat
      then size_to_order_loop fuel' bytes (size <<64 1) (S order)
      else order
  end.

Definition size_to_order (bytes : Z) : nat :=
  if bytes <=? MIN_BLOCK_SIZE then 0%nat
  else size_to_order_loop MAX_ORDER bytes MIN_BLOCK_SIZE 0.

(** The search for the smallest non-empty order; it leaves the range of
    orders after at most [MAX_ORDER + 1] iterations. *)
Fixpoint find_order (fuel : nat) (s : t) (current_order : nat) : nat :=
  match fuel with
  | O => current_order
  | S fuel' =>
      if (current_order <=? MAX_ORDER)%nat && bool_decide (fl s current_order = [])
      then find_order fuel' s (S current_order)
      else current_order
  end.

(** The splitting loop, from [current_order] down to [order]. *)
Fixpoint split_loop (fuel : nat) (order current_order : nat) (block : Z) (s : t) : t :=
  match fuel with
  | O => s
  | S fuel' =>
      if (order <? current_order)%nat then
        let current_order' := pred current_order in
        let block_size := order_to_size current_order' in
        let buddy := block + block_size in
        split_loop fuel' order current_order' block (incr_split (push_free current_order' buddy s))
      else s
  end.

Definition allocate (bytes : Z) (s : t) : option Z * t :=
  if (bytes =? 0) || (POOL_SIZE <? bytes) then (None, s) else
  let order := size_to_order bytes in
  if (MAX_ORDER <? order)%nat then (None, s) else
  let current_order := find_order (S MAX_ORDER) s order in
  if (MAX_ORDER <? current_order)%nat then (None, s) else
  match last (fl s current_order) with
  | None => (None, s)
  | Some block =>
      let s := set_fl current_order (pop_back (fl s current_order)) s in
      let s := split_loop MAX_ORDER order current_order block s in
      (Some block, add_allocated (order_to_size order) s)
  end.

(** The coalescing loop: the buddy of a block is found by flipping the bit
    of the block size in its offset. *)
Fixpoint coalesce (fuel : nat) (block : Z) (order : nat) (s : t) : t :=
  match fuel with
  | O => push_free order block s
  | S fuel' =>
      if (order <? MAX_ORDER)%nat then
        let block_size := order_to_size order in
        let offset := u64 (block - raw_memory_ s) in
        let buddy_offset := Z.lxor offset block_size in
        let buddy := raw_memory_ s + buddy_offset in
        match find_erase buddy (fl s order) with
        | None => push_free order block s
        | Some rest =>
            let block' := if offset <? buddy_offset then block else buddy in
            coalesce fuel' block' (S order) (incr_merge (set_fl order rest s))
        end
      else push_free order block s
  end.

(** [ptr = None] is the null pointer. *)
Definition deallocate (ptr : option Z) (bytes : Z) (s : t) : t :=
  match ptr with
  | None => s
  | Some block =>
      if bytes =? 0 then s else
      let order := size_to_order bytes in
      if (MAX_ORDER <? order)%nat then s else
      coalesce MAX_ORDER block order (add_allocated (- order_to_size order) s)
  end.

Definition get_allocated_bytes (s : t) : Z := allocated_bytes_ s.
Definition get_total_pool_size (s : t) : Z := POOL_SIZE.
Definition get_split_count (s : t) : Z := split_count_ s.
Definition get_merge_count (s : t) : Z := merge_count_ s.

(** ** Specification

    A client holds a list of live blocks (address and order); it may free
    only what it holds. *)

Inductive client_step : t * list (Z * nat) -> t * list (Z * nat) -> Prop :=
| step_alloc s live bytes block s' :
    0 <= bytes < 2 ^ 64 ->
    allocate bytes s = (Some block, s') ->
    client_step (s, live) (s', (block, size_to_order bytes) :: live)
| step_alloc_fail s live bytes s' :
    0 <= bytes < 2 ^ 64 ->
    allocate bytes s = (None, s') ->
    client_step (s, live) (s', live)
| step_free s live1 live2 block bytes :
    0 < bytes < 2 ^ 64 ->
    client_step (s, live1 ++ (block, size_to_order bytes) :: live2)
                (deallocate (Some block) bytes s, live1 ++ live2).

(** Block sizes, alignment and membership of an address in a block. *)
Definition sz (o : nat) : Z := 2 ^ (12 + Z.of_nat o).

Definition block_ok (raw b : Z) (o : nat) : Prop :=
  (o <= MAX_ORDER)%nat /\ raw <= b /\ b + sz o <= raw + POOL_SIZE /\ (sz o | b - raw).

Definition in_block (x b : Z) (o : nat) : bool := (b <=? x) && (x <? b + sz o).

(** A weight assigns a number to every block; it is additive when a block
    weighs as much as its two halves.  The size of a block is additive, and
    so is the indicator of "the block contains the address [x]". *)
Definition additive (f : Z -> nat -> Z) : Prop :=
  forall b o, f b (S o) = f b o + f (b + sz o) o.

Definition wsum (f : Z -> nat -> Z) (o : nat) (l : list Z) : Z :=
  foldr (fun b acc => f b o + acc) 0 l.

Fixpoint wsum_from (f : Z -> nat -> Z) (o : nat) (fls : list (list Z)) : Z :=
  match fls with
  | [] => 0
  | l :: fls' => wsum f o l + wsum_from f (S o) fls'
  end.

Definition wlive (f : Z -> nat -> Z) (live : list (Z * nat)) : Z :=
  foldr (fun p acc => f p.1 p.2 + acc) 0 live.

Definition total (f : Z -> nat -> Z) (s : t) (live : list (Z * nat)) : Z :=
  wsum_from f 0 (free_lists_ s) + wlive f live.

Definition buddy_of (raw b : Z) (o : nat) : Z := raw + Z.lxor (b - raw) (sz o).

(** The allocator's invariant, relative to the live blocks: free and live
    blocks are aligned blocks of the pool, every additive weight of all
    blocks together is that of the whole pool (so the blocks tile it), and
    no block is free together with its buddy. *)
Record Core (raw : Z) (s : t) (live : list (Z * nat)) : Prop := {
  core_raw : raw_memory_ s = raw;
  core_len : length (free_lists_ s) = S MAX_ORDER;
  core_free : forall o b, b ∈ fl s o -> block_ok raw b o;
  core_live : forall b o, (b, o) ∈ live -> block_ok raw b o;
  core_total : forall f, additive f -> total f s live = f raw MAX_ORDER;
  core_merged : forall o b, (o < MAX_ORDER)%nat -> b ∈ fl s o -> buddy_of raw b o ∉ fl s o }.

Definition Inv (raw : Z) (s : t) (live : list (Z * nat)) : Prop :=
  Core raw s live /\ allocated_bytes_ s = wlive (fun _ o => sz o) live.

(** A pool that the kernel can map. *)
Definition pool_addr (raw : Z) : Prop := 0 < raw /\ raw + POOL_SIZE <= 2 ^ 64.

(** ** Sizes and buddies *)

Lemma POOL_SIZE_eq : POOL_SIZE = 2 ^ 20.
Proof. reflexivity. Qed.

Lemma sz_pos o : 0 < sz o.
Proof. apply Z.pow_pos_nonneg; lia. Qed.

Lemma sz_S o : sz (S o) = 2 * sz o.
Proof. unfold sz. rewrite Nat2Z.inj_succ, Z.add_succ_r, Z.pow_succ_r; lia. Qed.

Lemma sz_pool o : (o <= MAX_ORDER)%nat -> sz o <= POOL_SIZE.
Proof. intros Ho. rewrite POOL_SIZE_eq. apply Z.pow_le_mono_r; unfold MAX_ORDER in Ho; lia. Qed.

Lemma sz_mono o o' : (o <= o')%nat -> sz o <= sz o'.
Proof. intros Ho. apply Z.pow_le_mono_r; lia. Qed.

Lemma sz_divide o o' : (o <= o')%nat -> (sz o | sz o').
Proof.
  intros Ho. exists (2 ^ (Z.of_nat (o' - o))). unfold sz.
  rewrite <- Z.pow_add_r by lia. f_equal. lia.
Qed.

Lemma order_to_size_sz o : (o <= MAX_ORDER)%nat -> order_to_size o = sz o.
Proof.
  intros Ho. unfold order_to_size. rewrite Z.shiftl_mul_pow2 by lia.
  change MIN_BLOCK_SIZE with (2 ^ 12). rewrite <- Z.pow_add_r by lia.
  apply wrap_small. split; [apply Z.pow_nonneg; lia|].
  apply Z.pow_lt_mono_r; unfold MAX_ORDER in Ho; lia.
Qed.

Lemma lxor_1 d : 0 <= d -> Z.lxor d 1 = if Z.even d then d + 1 else d - 1.
Proof. destruct d as [|[p|p|]|p]; intros; [reflexivity..|lia]. Qed.

(** Flipping the size bit of an aligned offset moves to the other half of
    the enclosing block. *)
Lemma lxor_aligned n off :
  0 <= n -> 0 <= off -> (2 ^ n | off) ->
  Z.lxor off (2 ^ n) = if Z.even (off / 2 ^ n) then off + 2 ^ n else off - 2 ^ n.
Proof.
  intros Hn Hoff [d ->]. assert (0 < 2 ^ n) by (apply Z.pow_pos_nonneg; lia).
  rewrite Z.div_mul by lia. rewrite <- (Z.mul_1_l (2 ^ n)) at 2.
  rewrite <- !Z.shiftl_mul_pow2, <- Z.shiftl_lxor, lxor_1 by nia.
  destruct (Z.even d); rewrite !Z.shiftl_mul_pow2 by lia; lia.
Qed.

Lemma buddy_of_cases raw b o :
  block_ok raw b o -> (o < MAX_ORDER)%nat ->
  (buddy_of raw b o = b + sz o /\ (sz (S o) | b - raw)) \/
  (buddy_of raw b o = b - sz o /\ raw <= b - sz o /\ (sz (S o) | b - sz o - raw)).
Proof.
  intros (_ & Hb & _ & Hd) Ho. unfold buddy_of. pose proof (sz_pos o).
  pose proof (lxor_aligned (12 + Z.of_nat o) (b - raw)) as Hx. fold (sz o) in Hx.
  rewrite Hx by (lia || done). clear Hx.
  destruct Hd as [d Hd]. rewrite Hd, Z.div_mul, sz_S by lia.
  destruct (Z.even d) eqn:He.
  - left. split; [lia|]. apply Z.even_spec in He as [e ->]. exists e. lia.
  - right. split; [lia|]. rewrite <- Z.negb_odd in He. apply negb_false_iff, Z.odd_spec in He as [e ->].
    assert (0 <= e) by (destruct (Z.neg_nonneg_cases e); nia).
    split; [nia|]. exists e. lia.
Qed.

Lemma buddy_of_involutive raw b o : buddy_of raw (buddy_of raw b o) o = b.
Proof.
  unfold buddy_of. replace (raw + Z.lxor (b - raw) (sz o) - raw) with (Z.lxor (b - raw) (sz o)) by lia.
  rewrite Z.lxor_assoc, Z.lxor_nilpotent, Z.lxor_0_r. lia.
Qed.

(** ** Free-list bookkeeping *)

Lemma fl_set_fl s o l o' :
  (o < length (free_lists_ s))%nat ->
  fl (set_fl o l s) o' = if decide (o = o') then l else fl s o'.
Proof.
  intros Ho. unfold fl, set_fl; simpl. case_decide as Heq.
  - subst. by rewrite list_lookup_insert_eq.
  - by rewrite list_lookup_insert_ne.
Qed.

Lemma wsum_from_insert f fls o k l :
  (o < length fls)%nat ->
  wsum_from f k (<[o := l]> fls) =
  wsum_from f k fls - wsum f (k + o) (default [] (fls !! o)) + wsum f (k + o) l.
Proof.
  revert o k. induction fls as [|l0 fls IH]; intros [|o] k Ho; simpl in *; try lia.
  - rewrite Nat.add_0_r. lia.
  - rewrite IH by lia. rewrite Nat.add_succ_r. simpl. lia.
Qed.

Lemma wsum_perm f o l l' : l ≡ₚ l' -> wsum f o l = wsum f o l'.
Proof. unfold wsum. induction 1; simpl in *; lia. Qed.

Lemma wlive_perm f live live' : live ≡ₚ live' -> wlive f live = wlive f live'.
Proof. unfold wlive. induction 1; simpl in *; lia. Qed.

Lemma total_set_fl f s live o l :
  (o < length (free_lists_ s))%nat ->
  total f (set_fl o l s) live = total f s live - wsum f o (fl s o) + wsum f o l.
Proof. intros Ho. unfold total, fl. simpl. rewrite wsum_from_insert by done. simpl. lia. Qed.

(** [Core] looks at the pool address and the free lists only. *)
Lemma Core_ext raw s s' live :
  raw_memory_ s' = raw_memory_ s -> free_lists_ s' = free_lists_ s ->
  Core raw s live -> Core raw s' live.
Proof.
  intros Hr Hf [H1 H2 H3 H4 H5 H6]. unfold fl, total in *.
  split; unfold fl, total; rewrite ?Hr, ?Hf; auto.
Qed.

Lemma Core_perm raw s live live' : live ≡ₚ live' -> Core raw s live -> Core raw s live'.
Proof.
  intros Hp [H1 H2 H3 H4 H5 H6]. split; auto.
  - intros b o. rewrite <- Hp. auto.
  - intros f Hf. unfold total. rewrite <- (wlive_perm _ _ _ Hp). by apply H5.
Qed.

(** Taking a block out of a free list makes it live. *)
Lemma Core_take raw s live o b l :
  (o <= MAX_ORDER)%nat -> fl s o ≡ₚ b :: l ->
  Core raw s live -> Core raw (set_fl o l s) ((b, o) :: live).
Proof.
  intros Ho Hp [H1 H2 H3 H4 H5 H6].
  assert (o < length (free_lists_ s))%nat as Hlen by (rewrite H2; lia).
  split; auto.
  - simpl. by rewrite length_insert.
  - intros o' b'. rewrite fl_set_fl by done. case_decide; [subst|by apply H3].
    intros Hb. apply H3. rewrite Hp. by right.
  - intros b' o' [[= -> ->]|Hin]%elem_of_cons; [|by apply H4]. apply H3. rewrite Hp. by left.
  - intros f Hf. rewrite <- (H5 f Hf). rewrite total_set_fl by done.
    rewrite (wsum_perm f o _ _ Hp). unfold total. simpl. lia.
  - intros o' b' Ho'. rewrite fl_set_fl by done. case_decide; [subst|by apply H6].
    intros Hb Hbud. apply (H6 o' b' Ho'); rewrite Hp; by right.
Qed.

(** Returning a live block whose buddy is not free. *)
Lemma Core_put raw s live o b :
  ((o < MAX_ORDER)%nat -> buddy_of raw b o ∉ fl s o) ->
  Core raw s ((b, o) :: live) -> Core raw (push_free o b s) live.
Proof.
  intros Hbud [H1 H2 H3 H4 H5 H6].
  destruct (H4 b o) as (Ho & Hbok); [by left|].
  assert (o < length (free_lists_ s))%nat as Hlen by (rewrite H2; lia).
  unfold push_free, push_back. split; auto.
  - simpl. by rewrite length_insert.
  - intros o' b'. rewrite fl_set_fl by done. case_decide; [subst|by apply H3].
    rewrite elem_of_app, list_elem_of_singleton. intros [?| ->]; [by apply H3|done].
  - intros b' o' Hin. apply H4. by right.
  - intros f Hf. rewrite <- (H5 f Hf). rewrite total_set_fl by done.
    rewrite (wsum_perm f o (fl s o ++ [b]) (b :: fl s o)) by (by rewrite Permutation_app_comm).
    unfold total. simpl. lia.
  - intros o' b' Ho'. rewrite fl_set_fl by done. case_decide as Heq; [subst o'|by apply H6].
    rewrite !elem_of_app, !list_elem_of_singleton.
    assert (buddy_of raw b o <> b) as Hself.
    { pose proof (sz_pos o).
      destruct (buddy_of_cases raw b o) as [[-> _]|[-> _]]; [done|lia|lia|lia]. }
    intros [Hb| ->] [Hb'|Hb'].
    + by apply (H6 o b').
    + apply Hbud; [lia|]. by rewrite <- Hb', buddy_of_involutive.
    + by apply Hbud.
    + done.
Qed.

(** Cutting a live block in two halves, and joining two halves. *)
Lemma Core_halve raw s live o b :
  Core raw s ((b, S o) :: live) -> Core raw s ((b, o) :: (b + sz o, o) :: live).
Proof.
  intros [H1 H2 H3 H4 H5 H6].
  destruct (H4 b (S o)) as (Ho & Hlo & Hhi & Hd); [by left|].
  pose proof (sz_pos o). rewrite sz_S in *.
  assert (sz o | b - raw) as Hd' by (etrans; [|apply Hd]; exists 2; lia).
  split; auto.
  - intros b' o' Hin. rewrite !elem_of_cons in Hin.
    destruct Hin as [[= -> ->]|[[= -> ->]|Hin]]; [| |apply H4; by right].
    + repeat split; try lia. done.
    + repeat split; try lia. replace (b + sz o - raw) with ((b - raw) + sz o) by lia.
      apply Z.divide_add_r; [done|reflexivity].
  - intros f Hf. rewrite <- (H5 f Hf). unfold total. simpl. rewrite (Hf b o). lia.
Qed.

Lemma Core_join raw s live o b :
  (o < MAX_ORDER)%nat -> (sz (S o) | b - raw) ->
  Core raw s ((b, o) :: (b + sz o, o) :: live) -> Core raw s ((b, S o) :: live).
Proof.
  intros Ho Hd [H1 H2 H3 H4 H5 H6].
  destruct (H4 b o) as (_ & Hlo & _ & _); [by left|].
  destruct (H4 (b + sz o) o) as (_ & _ & Hhi & _); [by right; left|].
  split; auto.
  - intros b' o' Hin. rewrite elem_of_cons in Hin.
    destruct Hin as [[= -> ->]|Hin]; [|apply H4; by right; right].
    repeat split; [lia|done| |done]. rewrite sz_S. lia.
  - intros f Hf. rewrite <- (H5 f Hf). unfold total. simpl. rewrite (Hf b o). lia.
Qed.

(** ** The loops *)

Lemma find_order_spec fuel s o :
  (MAX_ORDER < o + fuel)%nat ->
  let c := find_order fuel s o in
  (o <= c)%nat /\ (forall j, (o <= j < c)%nat -> fl s j = []) /\
  ((c <= MAX_ORDER)%nat -> fl s c <> []).
Proof.
  revert o. induction fuel as [|fuel IH]; intros o Ho; simpl.
  { split; [lia|]. split; [intros; lia|intros; lia]. }
  destruct (Nat.leb_spec o MAX_ORDER) as [Hle|Hgt]; simpl.
  - case_bool_decide as He.
    + destruct (IH (S o)) as (H1 & H2 & H3); [lia|]. split; [lia|]. split; [|done].
      intros j Hj. destruct (decide (j = o)) as [->|]; [done|apply H2; lia].
    + split; [lia|]. split; [intros; lia|done].
  - split; [lia|]. split; [intros; lia|intros; lia].
Qed.

Lemma Core_split_loop raw live fuel order cur block s :
  (cur <= order + fuel)%nat -> (order <= cur)%nat ->
  (forall j, (order <= j < cur)%nat -> fl s j = []) ->
  Core raw s ((block, cur) :: live) ->
  Core raw (split_loop fuel order cur block s) ((block, order) :: live).
Proof.
  revert cur s. induction fuel as [|fuel IH]; intros cur s Hf Hle He HC; simpl.
  { by replace order with cur by lia. }
  destruct (Nat.ltb_spec order cur) as [Hlt|Hge]; [|by replace order with cur by lia].
  destruct cur as [|c]; [lia|]. simpl.
  destruct (core_live _ _ _ HC block (S c)) as (Hc & _); [by left|].
  rewrite order_to_size_sz by lia.
  assert (c < length (free_lists_ s))%nat by (rewrite (core_len _ _ _ HC); lia).
  apply IH; [lia|lia| |].
  - intros j Hj. change (fl (push_free c (block + sz c) s) j = []).
    unfold push_free. rewrite fl_set_fl by done. case_decide; [lia|]. apply He. lia.
  - apply (Core_ext raw (push_free c (block + sz c) s)); [done|done|]. apply Core_put.
    + intros _. rewrite He by lia. apply not_elem_of_nil.
    + eapply Core_perm, Core_halve, HC. constructor.
Qed.

Lemma Core_coalesce raw live fuel block order s :
  pool_addr raw -> (MAX_ORDER <= order + fuel)%nat ->
  Core raw s ((block, order) :: live) -> Core raw (coalesce fuel block order s) live.
Proof.
  intros Hraw. revert block order s. induction fuel as [|fuel IH]; intros block order s Hf HC; simpl.
  { apply Core_put; [intros; lia|done]. }
  destruct (Nat.ltb_spec order MAX_ORDER) as [Hlt|Hge]; [|apply Core_put; [intros; lia|done]].
  pose proof (core_live _ _ _ HC block order ltac:(by left)) as Hok.
  rewrite (core_raw _ _ _ HC), order_to_size_sz, wrap_small by
    (destruct Hok, Hraw; pose proof (sz_pos order); lia).
  fold (buddy_of raw block order).
  destruct (find_erase _ _) as [rest|] eqn:Hfe.
  2:{ apply Core_put; [intros _|done]. by apply find_erase_None. }
  assert (Core raw (set_fl order rest s) ((buddy_of raw block order, order) :: (block, order) :: live))
    as HC' by (apply Core_take; [lia|by apply find_erase_perm|done]).
  apply IH; [lia|]. apply (Core_ext raw (set_fl order rest s)); [done|done|].
  pose proof (sz_pos order). unfold buddy_of in *.
  destruct (buddy_of_cases raw block order Hok Hlt) as [[Hb Hd]|(Hb & Hlo & Hd)]; unfold buddy_of in Hb.
  - replace (_ <? _) with true by (symmetry; apply Z.ltb_lt; lia).
    apply Core_join; [done|done|]. rewrite <- Hb.
    eapply Core_perm, HC'. constructor.
  - replace (_ <? _) with false by (symmetry; apply Z.ltb_ge; lia).
    apply Core_join; [done|by rewrite Hb|].
    by replace (raw + Z.lxor (block - raw) (sz order) + sz order) with block by lia.
Qed.

Lemma split_loop_allocated fuel order cur block s :
  allocated_bytes_ (split_loop fuel order cur block s) = allocated_bytes_ s.
Proof. revert cur s. induction fuel as [|fuel IH]; intros; simpl; [done|]. case_match; [by rewrite IH|done]. Qed.

Lemma coalesce_allocated fuel block order s :
  allocated_bytes_ (coalesce fuel block order s) = allocated_bytes_ s.
Proof.
  revert block order s. induction fuel as [|fuel IH]; intros; simpl; [done|].
  case_match; [|done]. case_match; [by rewrite IH|done].
Qed.

Lemma size_to_order_loop_le fuel bytes size order :
  (order <= MAX_ORDER)%nat -> (size_to_order_loop fuel bytes size order <= MAX_ORDER)%nat.
Proof.
  revert size order. induction fuel as [|fuel IH]; intros size order Ho; simpl; [done|].
  destruct (Nat.ltb_spec order MAX_ORDER); rewrite ?andb_false_r, ?andb_true_r; [|done].
  destruct (size <? bytes); [|done]. apply IH. lia.
Qed.

Lemma size_to_order_le bytes : (size_to_order bytes <= MAX_ORDER)%nat.
Proof. unfold size_to_order. case_match; [lia|]. apply size_to_order_loop_le. lia. Qed.

(** ** The invariant is preserved *)

Lemma additive_sz : additive (fun _ o => sz o).
Proof. intros b o. rewrite sz_S. lia. Qed.

Lemma additive_in_block x : additive (fun b o => Z.b2z (in_block x b o)).
Proof.
  intros b o. unfold in_block. rewrite sz_S. pose proof (sz_pos o).
  destruct (Z.leb_spec b x), (Z.ltb_spec x (b + 2 * sz o)), (Z.ltb_spec x (b + sz o)),
    (Z.leb_spec (b + sz o) x), (Z.ltb_spec x (b + sz o + sz o)); simpl; lia.
Qed.

Lemma wsum_from_nonneg f k fls : (forall b o, 0 <= f b o) -> 0 <= wsum_from f k fls.
Proof.
  intros Hf. revert k. induction fls as [|l fls IH]; intros k; simpl; [lia|].
  specialize (IH (S k)). enough (0 <= wsum f k l) by lia.
  induction l as [|b l IHl]; simpl; [lia|]. specialize (Hf b k). lia.
Qed.

Lemma wlive_bound raw s live : Core raw s live -> wlive (fun _ o => sz o) live <= POOL_SIZE.
Proof.
  intros HC. pose proof (core_total _ _ _ HC _ additive_sz) as Ht. unfold total in Ht.
  assert (0 <= wsum_from (fun _ o => sz o) 0 (free_lists_ s))
    by (apply wsum_from_nonneg; intros; apply Z.lt_le_incl, sz_pos).
  change (sz MAX_ORDER) with POOL_SIZE in Ht. lia.
Qed.

Lemma wlive_nonneg live : 0 <= wlive (fun _ o => sz o) live.
Proof. induction live as [|[b o] live IH]; simpl; [lia|]. pose proof (sz_pos o). lia. Qed.

Lemma Inv_init raw s : BuddyAllocator (Some raw) = Some s -> Inv raw s [].
Proof.
  intros [= <-]. split; [|done].
  apply Core_put; [intros; lia|]. split; simpl; auto.
  - intros o b. unfold fl. simpl. destruct o as [|[|[|[|[|[|[|[|[|o]]]]]]]]]; simpl; set_solver.
  - intros b o [= -> ->]%list_elem_of_singleton. repeat split; [lia|lia|reflexivity|].
    rewrite Z.sub_diag. apply Z.divide_0_r.
  - intros f Hf. unfold total. simpl. lia.
  - intros o b _. unfold fl. simpl. destruct o as [|[|[|[|[|[|[|[|[|o]]]]]]]]]; simpl; set_solver.
Qed.

Lemma allocate_Inv raw s live bytes block s' :
  Inv raw s live -> allocate bytes s = (Some block, s') ->
  Inv raw s' ((block, size_to_order bytes) :: live).
Proof.
  intros [HC Ha] Hal. unfold allocate in Hal.
  destruct (_ || _); [done|]. destruct (Nat.ltb_spec MAX_ORDER (size_to_order bytes)); [done|].
  set (order := size_to_order bytes) in *.
  destruct (find_order_spec (S MAX_ORDER) s order) as (H1 & H2 & H3); [lia|].
  set (cur := find_order _ _ _) in *. destruct (Nat.ltb_spec MAX_ORDER cur); [done|].
  destruct (last (fl s cur)) as [b|] eqn:Hl; [|done]. simplify_eq.
  assert (fl s cur ≡ₚ block :: pop_back (fl s cur)) as Hp.
  { rewrite (last_pop_back _ _ Hl) at 1. unfold push_back. by rewrite Permutation_app_comm. }
  assert (Core raw (split_loop MAX_ORDER order cur block (set_fl cur (pop_back (fl s cur)) s))
            ((block, order) :: live)) as HC'.
  { apply Core_split_loop; [lia|done| |by apply Core_take].
    intros j Hj. rewrite fl_set_fl by (rewrite (core_len _ _ _ HC); lia).
    case_decide; [lia|]. by apply H2. }
  split; [eapply Core_ext, HC'; done|].
  unfold add_allocated; cbn [allocated_bytes_].
  rewrite split_loop_allocated, order_to_size_sz by lia. simpl.
  rewrite Ha, Z.add_comm. apply wrap_small.
  pose proof (wlive_bound _ _ _ HC') as Hb. pose proof (wlive_nonneg ((block, order) :: live)).
  rewrite POOL_SIZE_eq in Hb. simpl in *. lia.
Qed.

Lemma allocate_None bytes s s' : allocate bytes s = (None, s') -> s' = s.
Proof. unfold allocate. repeat case_match; congruence. Qed.

Lemma deallocate_Inv raw s live1 live2 block bytes :
  pool_addr raw -> 0 < bytes -> Inv raw s (live1 ++ (block, size_to_order bytes) :: live2) ->
  Inv raw (deallocate (Some block) bytes s) (live1 ++ live2).
Proof.
  intros Hraw Hb [HC Ha]. pose proof (size_to_order_le bytes) as Ho. unfold deallocate.
  destruct (Z.eqb_spec bytes 0); [lia|].
  destruct (Nat.ltb_spec MAX_ORDER (size_to_order bytes)); [lia|].
  set (order := size_to_order bytes) in *.
  assert (Core raw s ((block, order) :: live1 ++ live2)) as HC'.
  { eapply Core_perm, HC. by rewrite Permutation_middle. }
  split.
  - apply Core_coalesce; [done|lia|]. by eapply Core_ext, HC'.
  - rewrite coalesce_allocated. simpl. rewrite order_to_size_sz, Ha by done.
    rewrite (wlive_perm _ (live1 ++ _) ((block, order) :: live1 ++ live2)) by (by rewrite Permutation_middle).
    simpl. rewrite wrap_small; [lia|].
    pose proof (wlive_bound _ _ _ HC') as Hw. pose proof (wlive_nonneg (live1 ++ live2)).
    pose proof (sz_pos order). rewrite POOL_SIZE_eq in Hw. simpl in Hw. lia.
Qed.

Lemma client_step_Inv raw c c' :
  pool_addr raw -> client_step c c' -> Inv raw c.1 c.2 -> Inv raw c'.1 c'.2.
Proof.
  intros Hraw Hs HI. destruct Hs as [s live bytes block s' _ Ha|s live bytes s' _ Ha|]; cbn [fst snd] in *.
  - by eapply allocate_Inv.
  - by apply allocate_None in Ha as ->.
  - apply deallocate_Inv; [done|lia|done].
Qed.

Lemma reachable_Inv raw s0 c :
  pool_addr raw -> BuddyAllocator (Some raw) = Some s0 ->
  rtc client_step (s0, []) c -> Inv raw c.1 c.2.
Proof.
  intros Hraw H0. apply (rtc_ind_r (fun c => Inv raw c.1 c.2)).
  - by apply Inv_init.
  - intros c1 c2 _ Hs HI. by eapply client_step_Inv.
Qed.

(** ** Consequences of tiling *)

Lemma wsum_from_elem f k fls i b :
  (forall b o, 0 <= f b o) -> b ∈ default [] (fls !! i) -> f b (k + i)%nat <= wsum_from f k fls.
Proof.
  intros Hf. revert k i. induction fls as [|l fls IH]; intros k i; [destruct i; set_solver|].
  assert (forall o l, 0 <= wsum f o l) as Hw.
  { intros o l'. induction l' as [|b' l' IHl]; simpl; [lia|]. specialize (Hf b' o). lia. }
  destruct i as [|i]; simpl.
  - rewrite Nat.add_0_r. pose proof (wsum_from_nonneg f (S k) fls Hf). intros Hb.
    enough (f b k <= wsum f k l) by lia. clear -Hb Hf Hw.
    induction Hb as [|? ? ? ? IH]; simpl; [specialize (Hw k l)|specialize (Hf y k)]; lia.
  - intros Hb. specialize (IH (S k) i Hb). specialize (Hw k l).
    rewrite Nat.add_succ_r. simpl in IH. lia.
Qed.

Lemma wsum_from_pos f k fls :
  (forall b o, 0 <= f b o) -> 0 < wsum_from f k fls ->
  exists i b, b ∈ default [] (fls !! i) /\ 0 < f b (k + i)%nat.
Proof.
  intros Hf. revert k. induction fls as [|l fls IH]; intros k; simpl; [lia|].
  destruct (decide (0 < wsum f k l)) as [Hl|Hl]; intros Hp.
  - enough (exists b, b ∈ l /\ 0 < f b k) as (b & ? & ?).
    { exists 0%nat, b. simpl. by rewrite Nat.add_0_r. }
    clear -Hl. induction l as [|b l IHl]; simpl in Hl; [lia|].
    destruct (decide (0 < f b k)); [exists b; set_solver|].
    destruct IHl as (b' & ? & ?); [fold (wsum f k l) in Hl; lia|]. exists b'. set_solver.
  - destruct (IH (S k)) as (i & b & Hb & Hpos); [lia|].
    exists (S i), b. rewrite Nat.add_succ_r. done.
Qed.

Lemma b2z_nonneg c : 0 <= Z.b2z c.
Proof. destruct c; simpl; lia. Qed.

Lemma in_block_spec x b o : in_block x b o = true <-> b <= x < b + sz o.
Proof. unfold in_block. rewrite andb_true_iff, Z.leb_le, Z.ltb_lt. lia. Qed.

(** Every address of the pool lies in exactly one block. *)
Lemma Core_tile raw s live x :
  Core raw s live -> raw <= x < raw + POOL_SIZE ->
  total (fun b o => Z.b2z (in_block x b o)) s live = 1.
Proof.
  intros HC Hx. rewrite (core_total _ _ _ HC _ (additive_in_block x)).
  by replace (in_block x raw MAX_ORDER) with true by (symmetry; by apply in_block_spec).
Qed.

Lemma Core_free_cover raw s x :
  Core raw s [] -> raw <= x < raw + POOL_SIZE ->
  exists o b, b ∈ fl s o /\ block_ok raw b o /\ b <= x < b + sz o.
Proof.
  intros HC Hx. pose proof (Core_tile _ _ _ _ HC Hx) as Ht. unfold total in Ht. simpl in Ht.
  destruct (wsum_from_pos (fun b o => Z.b2z (in_block x b o)) 0 (free_lists_ s))
    as (o & b & Hb & Hp); [intros; apply b2z_nonneg|lia|].
  exists o, b. split; [done|]. split; [by apply (core_free _ _ _ HC)|].
  apply in_block_spec. simpl in Hp. by destruct (in_block x b o).
Qed.

(** A free block and a live block have no address in common. *)
Lemma Core_free_live raw s live o b o' b' x :
  Core raw s live -> b ∈ fl s o -> (b', o') ∈ live ->
  b <= x < b + sz o -> b' <= x < b' + sz o' -> False.
Proof.
  intros HC Hb Hl Hx%in_block_spec Hx'%in_block_spec.
  destruct (core_free _ _ _ HC o b Hb) as (_ & Hlo & Hhi & _).
  apply in_block_spec in Hx as Hx2.
  pose proof (Core_tile raw s live x HC ltac:(lia)) as Ht. unfold total in Ht.
  pose proof (wsum_from_elem (fun b o => Z.b2z (in_block x b o)) 0 (free_lists_ s) o b
                ltac:(intros; apply b2z_nonneg) Hb) as H1.
  apply elem_of_Permutation in Hl as [l Hp]. rewrite (wlive_perm _ _ _ Hp) in Ht. simpl in *.
  rewrite Hx in H1. rewrite Hx' in Ht. simpl in *.
  enough (0 <= wlive (fun b o => Z.b2z (in_block x b o)) l) by (unfold wlive in *; lia).
  clear. induction l as [|[b o] l IH]; simpl; [lia|]. pose proof (b2z_nonneg (in_block x b o)). lia.
Qed.

(** Two aligned blocks with a common address: the smaller lies inside the
    larger. *)
Lemma aligned_nested raw b o c o' x :
  (o <= o')%nat -> (sz o | b - raw) -> (sz o' | c - raw) ->
  b <= x < b + sz o -> c <= x < c + sz o' -> c <= b /\ b + sz o <= c + sz o'.
Proof.
  intros Ho [d Hd] [e He] Hx Hx'. destruct (sz_divide o o' Ho) as [q Hq].
  pose proof (sz_pos o). pose proof (sz_pos o'). rewrite Hq in *.
  assert (e * q < d + 1) by nia. assert (d < e * q + q) by nia. nia.
Qed.

Lemma Core_all_free_low raw s o :
  Core raw s [] -> (o < MAX_ORDER)%nat -> fl s o = [].
Proof.
  intros HC. induction o as [o IH] using lt_wf_ind. intros Ho.
  destruct (fl s o) as [|b l] eqn:Hfl; [done|exfalso].
  assert (b ∈ fl s o) as Hb by (rewrite Hfl; left).
  pose proof (core_free _ _ _ HC o b Hb) as Hok. pose proof (core_merged _ _ _ HC o b Ho Hb) as Hm.
  pose proof (sz_pos o). pose proof (sz_S o).
  assert (exists p, (sz (S o) | p - raw) /\ raw <= p /\ p + sz (S o) <= raw + POOL_SIZE /\
            p <= b /\ b + sz o <= p + sz (S o) /\
            p <= buddy_of raw b o /\ buddy_of raw b o + sz o <= p + sz (S o) /\
            (sz o | buddy_of raw b o - raw)) as (p & Hp & Hp1 & Hp2 & Hb1 & Hb2 & Hy1 & Hy2 & Hyd).
  { destruct (sz_divide (S o) MAX_ORDER) as [q Hq]; [lia|]. change (sz MAX_ORDER) with POOL_SIZE in Hq.
    pose proof Hok as (_ & ? & ? & Hd).
    assert (sz o | sz (S o)) as Hdd by (apply sz_divide; lia).
    destruct (buddy_of_cases raw b o) as [[-> Hs]|(-> & ? & Hs)]; [done|done|exists b|exists (b - sz o)].
    - destruct Hs as [e He]. assert (e + 1 <= q) by nia. split_and!; try lia; [by exists e|nia|].
      replace (b + sz o - raw) with (b - raw + sz o) by lia. apply Z.divide_add_r; [done|reflexivity].
    - split_and!; try lia; try done. by transitivity (sz (S o)). }
  destruct (Core_free_cover raw s (buddy_of raw b o) HC) as (o' & c & Hc & (Ho' & _ & _ & Hcd) & Hx); [lia|].
  destruct (lt_eq_lt_dec o' o) as [[Hlt| ->]|Hlt].
  - rewrite (IH o') in Hc; [by apply not_elem_of_nil in Hc|done|lia].
  - apply Hm. destruct (aligned_nested raw (buddy_of raw b o) o c o (buddy_of raw b o)); [lia|done..|lia|done|].
    by replace (buddy_of raw b o) with c by lia.
  - destruct (aligned_nested raw p (S o) c o' (buddy_of raw b o)) as [? ?]; [lia|done|done|lia|done|].
    assert (Core raw (set_fl o l s) [(b, o)]) as HC'
      by (apply Core_take; [lia|by rewrite Hfl|done]).
    apply (Core_free_live raw _ _ o' c o b b HC'); [|by left|lia|lia].
    rewrite fl_set_fl by (rewrite (core_len _ _ _ HC); lia). case_decide; [lia|done].
Qed.

Lemma Core_all_free_top raw s : Core raw s [] -> fl s MAX_ORDER = [raw].
Proof.
  intros HC.
  assert (forall c, block_ok raw c MAX_ORDER -> c = raw) as Htop.
  { intros c (_ & ? & Hc & _). change (sz MAX_ORDER) with POOL_SIZE in Hc. lia. }
  destruct (Core_free_cover raw s raw HC) as (o & b & Hb & Hok & Hx); [rewrite POOL_SIZE_eq; lia|].
  destruct (decide (o < MAX_ORDER)%nat) as [Hlt|].
  { rewrite (Core_all_free_low raw s o HC Hlt) in Hb. by apply not_elem_of_nil in Hb. }
  assert (o = MAX_ORDER) as -> by (destruct Hok; lia).
  pose proof (Htop b Hok) as ->. destruct (fl s MAX_ORDER) as [|c l] eqn:Hfl; [by apply not_elem_of_nil in Hb|].
  assert (c = raw) as -> by (apply Htop, (core_free _ _ _ HC); rewrite Hfl; left).
  destruct l as [|c' l]; [done|exfalso].
  assert (c' = raw) as -> by (apply Htop, (core_free _ _ _ HC); rewrite Hfl; right; left).
  assert (Core raw (set_fl MAX_ORDER (raw :: l) s) [(raw, MAX_ORDER)]) as HC'
    by (apply Core_take; [lia|by rewrite Hfl|done]).
  apply (Core_free_live raw _ _ MAX_ORDER raw MAX_ORDER raw raw HC'); [|by left|done|done].
  rewrite fl_set_fl by (rewrite (core_len _ _ _ HC); lia). case_decide; [left|done].
Qed.

Lemma Core_live_live raw s live o b o' b' x :
  Core raw s ((b, o) :: live) -> (b', o') ∈ live ->
  b <= x < b + sz o -> b' <= x < b' + sz o' -> False.
Proof.
  intros HC Hl Hx Hx'.
  destruct (core_live _ _ _ HC b o) as (_ & Hlo & Hhi & _); [by left|].
  pose proof (Core_tile raw s _ x HC ltac:(lia)) as Ht.
  apply in_block_spec in Hx, Hx'. apply elem_of_Permutation in Hl as [l Hp].
  unfold total in Ht. simpl in Ht. unfold wlive in Ht.
  fold (wlive (fun b o => Z.b2z (in_block x b o)) live) in Ht.
  rewrite (wlive_perm _ _ _ Hp) in Ht. simpl in Ht. rewrite Hx, Hx' in Ht. simpl in Ht.
  pose proof (wsum_from_nonneg (fun b o => Z.b2z (in_block x b o)) 0 (free_lists_ s)
                ltac:(intros; apply b2z_nonneg)).
  enough (0 <= wlive (fun b o => Z.b2z (in_block x b o)) l) by (unfold wlive in *; lia).
  clear. induction l as [|[b o] l IH]; simpl; [lia|]. pose proof (b2z_nonneg (in_block x b o)). lia.
Qed.

Lemma size_to_order_loop_spec fuel bytes order :
  bytes <= POOL_SIZE -> (MAX_ORDER <= order + fuel)%nat -> (order <= MAX_ORDER)%nat ->
  (forall o, (o < order)%nat -> sz o < bytes) ->
  let r := size_to_order_loop fuel bytes (sz order) order in
  bytes <= sz r /\ (forall o, (o < r)%nat -> sz o < bytes).
Proof.
  intros Hb. revert order. induction fuel as [|fuel IH]; intros order Hf Ho Hlow; simpl.
  { split; [|done]. replace order with MAX_ORDER by lia. exact Hb. }
  destruct (Z.ltb_spec (sz order) bytes) as [Hlt|Hge]; simpl; [|done].
  destruct (Nat.ltb_spec order MAX_ORDER) as [Hlt'|Hge'].
  - replace (sz order <<64 1) with (sz (S order)).
    2:{ rewrite Z.shiftl_mul_pow2, Z.pow_1_r, sz_S, Z.mul_comm by lia. symmetry. apply wrap_small.
        pose proof (sz_pos order). pose proof (sz_pool (S order)) as Hp. rewrite sz_S, POOL_SIZE_eq in Hp. lia. }
    apply IH; [lia|lia|]. intros o Ho'. destruct (decide (o = order)) as [->|]; [done|]. apply Hlow. lia.
  - split; [|done]. replace order with MAX_ORDER by lia. exact Hb.
Qed.

Lemma size_to_order_spec bytes :
  0 < bytes <= POOL_SIZE ->
  bytes <= sz (size_to_order bytes) /\ forall o, (o < size_to_order bytes)%nat -> sz o < bytes.
Proof.
  intros [H0 H1]. unfold size_to_order. destruct (Z.leb_spec bytes MIN_BLOCK_SIZE) as [Hle|Hgt].
  - split; [exact Hle|lia].
  - apply (size_to_order_loop_spec MAX_ORDER bytes 0); [done|lia|lia|lia].
Qed.

(** ** The properties *)

(** C8. After any sequence of allocations and frees by a client that frees
    only what it holds, the free blocks and the live blocks tile the pool:
    every address of the pool lies in exactly one of them, all are aligned
    blocks inside the pool, and [get_allocated_bytes] is the exact number of
    bytes in live blocks. *)
Theorem buddy_tiling raw s0 s live :
  pool_addr raw -> BuddyAllocator (Some raw) = Some s0 ->
  rtc client_step (s0, []) (s, live) ->
  (forall x, raw <= x < raw + POOL_SIZE ->
     total (fun b o => Z.b2z (in_block x b o)) s live = 1) /\
  (forall b o, b ∈ fl s o \/ (b, o) ∈ live -> block_ok raw b o) /\
  get_allocated_bytes s = wlive (fun _ o => sz o) live.
Proof.
  intros Hraw H0 Hr. destruct (reachable_Inv _ _ _ Hraw H0 Hr) as [HC Ha]. split_and!.
  - intros x Hx. by eapply Core_tile.
  - intros b o [Hb|Hb]; [by apply (core_free _ _ _ HC)|by apply (core_live _ _ _ HC)].
  - done.
Qed.

(** When the client has returned every block, coalescing has restored
    the initial free lists: a single block of 1 MB at the top order and
    nothing at any other order, and the byte counter is back to zero. *)
Theorem buddy_reclaim raw s0 s :
  pool_addr raw -> BuddyAllocator (Some raw) = Some s0 ->
  rtc client_step (s0, []) (s, []) ->
  free_lists_ s = free_lists_ s0 /\ get_allocated_bytes s = 0.
Proof.
  intros Hraw H0 Hr. destruct (reachable_Inv _ _ _ Hraw H0 Hr) as [HC Ha].
  cbn [fst snd] in HC, Ha. split; [|done]. destruct (Inv_init _ _ H0) as [HC0 _].
  assert (forall o, fl s o = fl s0 o) as Hfl.
  { intros o. destruct (lt_eq_lt_dec o MAX_ORDER) as [[Hlt| ->]|Hgt].
    - by rewrite (Core_all_free_low raw s), (Core_all_free_low raw s0).
    - by rewrite (Core_all_free_top raw s), (Core_all_free_top raw s0).
    - unfold fl. by rewrite !lookup_ge_None_2 by (rewrite ?(core_len _ _ _ HC), ?(core_len _ _ _ HC0); lia). }
  apply list_eq. intros o. specialize (Hfl o). unfold fl in Hfl.
  destruct (decide (o < S MAX_ORDER)%nat) as [Hlt|].
  - rewrite <- (core_len _ _ _ HC) in Hlt. apply lookup_lt_is_Some_2 in Hlt as [l Hl].
    assert (o < length (free_lists_ s0))%nat as [l0 Hl0]%lookup_lt_is_Some_2
      by (rewrite (core_len _ _ _ HC0), <- (core_len _ _ _ HC); by apply lookup_lt_Some in Hl).
    rewrite Hl, Hl0 in *. by simplify_eq/=.
  - by rewrite !lookup_ge_None_2 by (rewrite ?(core_len _ _ _ HC), ?(core_len _ _ _ HC0); lia).
Qed.

(** [allocate] serves a request with the smallest sufficient block
    order; the block is an aligned block of the pool that shares no address
    with any live block.  It fails, leaving the state unchanged, only for a
    request of zero or more than [POOL_SIZE] bytes, or when no free block of
    sufficient order exists. *)
Theorem buddy_allocate raw s0 s live bytes :
  pool_addr raw -> BuddyAllocator (Some raw) = Some s0 ->
  rtc client_step (s0, []) (s, live) -> 0 <= bytes < 2 ^ 64 ->
  match allocate bytes s with
  | (Some b, _) =>
      let o := size_to_order bytes in
      0 < bytes <= sz o /\ (forall o', (o' < o)%nat -> sz o' < bytes) /\ block_ok raw b o /\
      (forall b' o' x, (b', o') ∈ live -> b <= x < b + sz o -> b' <= x < b' + sz o' -> False)
  | (None, s') =>
      s' = s /\
      (bytes = 0 \/ POOL_SIZE < bytes \/
       forall o, (size_to_order bytes <= o <= MAX_ORDER)%nat -> fl s o = [])
  end.
Proof.
  intros Hraw H0 Hr Hb. pose proof (reachable_Inv _ _ _ Hraw H0 Hr) as HI. cbn [fst snd] in HI.
  destruct (allocate bytes s) as [[b|] s'] eqn:Ha.
  - pose proof (allocate_Inv _ _ _ _ _ _ HI Ha) as [HC' _]. unfold allocate in Ha.
    destruct (Z.eqb_spec bytes 0), (Z.ltb_spec POOL_SIZE bytes); try done. clear Ha.
    destruct (size_to_order_spec bytes) as [H1 H2]; [lia|]. split_and!; [lia|done|done| |].
    + apply (core_live _ _ _ HC'). by left.
    + intros b' o' x Hl Hx Hx'. by eapply Core_live_live.
  - split; [by eapply allocate_None|]. unfold allocate in Ha.
    destruct (Z.eqb_spec bytes 0); [by left|]. destruct (Z.ltb_spec POOL_SIZE bytes); [right; by left|].
    right; right. cbn [orb] in Ha. pose proof (size_to_order_le bytes).
    destruct (Nat.ltb_spec MAX_ORDER (size_to_order bytes)); [lia|].
    destruct (find_order_spec (S MAX_ORDER) s (size_to_order bytes)) as (_ & Hlow & Hne); [lia|].
    destruct (Nat.ltb_spec MAX_ORDER (find_order (S MAX_ORDER) s (size_to_order bytes))).
    + intros o Ho. apply Hlow. lia.
    + destruct (last _) eqn:Hl; [done|]. apply last_None in Hl. exfalso. by apply Hne; [lia|].
Qed.

(** ** Witnesses: a pool at address 65536; 5000 bytes (order 1) are
    allocated, then 4096 (order 0), then the first block is freed. *)

Definition ex_s0 : t := Eval vm_compute in default (mk 0 [] 0 0 0) (BuddyAllocator (Some 65536)).
Definition ex_s1 : t := Eval vm_compute in (allocate 5000 ex_s0).2.
Definition ex_s2 : t := Eval vm_compute in (allocate 4096 ex_s1).2.
Definition ex_live2 : list (Z * nat) := [(73728, size_to_order 4096); (65536, size_to_order 5000)].

Lemma ex_steps2 : rtc client_step (ex_s0, []) (ex_s2, ex_live2).
Proof.
  eapply rtc_l; [apply (step_alloc ex_s0 [] 5000 65536 ex_s1); [lia|vm_compute; reflexivity]|].
  apply rtc_once, (step_alloc ex_s1 _ 4096 73728 ex_s2); [lia|vm_compute; reflexivity].
Qed.

Definition ex_s4 : t := deallocate (Some 73728) 4096 (deallocate (Some 65536) 5000 ex_s2).

Lemma ex_steps4 : rtc client_step (ex_s0, []) (ex_s4, []).
Proof.
  etrans; [apply ex_steps2|].
  eapply rtc_l; [apply (step_free ex_s2 [(73728, size_to_order 4096)] [] 65536 5000); lia|].
  apply rtc_once, (step_free _ [] [] 73728 4096). lia.
Qed.

Lemma ex_pool : pool_addr 65536.
Proof. split; [lia|]. rewrite POOL_SIZE_eq. lia. Qed.

Lemma buddy_tiling_witness : get_allocated_bytes ex_s2 = 12288.
Proof.
  destruct (buddy_tiling 65536 ex_s0 ex_s2 _ ex_pool eq_refl ex_steps2) as (_ & _ & ->).
  vm_compute. reflexivity.
Defined.

Lemma buddy_reclaim_witness : free_lists_ ex_s4 = replicate 8 [] ++ [[65536]].
Proof.
  destruct (buddy_reclaim 65536 ex_s0 ex_s4 ex_pool eq_refl ex_steps4) as [-> _].
  vm_compute. reflexivity.
Defined.

Lemma buddy_allocate_witness : block_ok 65536 81920 2.
Proof.
  pose proof (buddy_allocate 65536 ex_s0 ex_s2 _ 10000 ex_pool eq_refl ex_steps2 ltac:(lia)) as H.
  replace (allocate 10000 ex_s2) with (Some 81920, (allocate 10000 ex_s2).2) in H by (vm_compute; reflexivity).
  replace (size_to_order 10000) with 2%nat in H by (vm_compute; reflexivity). apply H.
Defined.
End Buddy.
