(* ===== verification/Slab.v ===== *)
(** * The slab allocator

    Model of [SlabAllocator<T, ObjectsPerSlab>] (02-virtual-memory,
    slab_allocator.hpp): fixed-size chunks handed out from an intrusive free
    list whose [next] pointers live in the first word of the free chunks.
    The memory is explicit, so a client that overwrites the chunk it owns
    overwrites the old link; [mmap] is a parameter of the operations that call
    it, [None] standing for [MAP_FAILED].  The mutex makes every operation one
    step. *)

From S2P Require Import Prelude.

#[local] Open Scope Z_scope.
#[local] Open Scope cpp_scope.

Module Slab.

Section slab.
(** [sizeof(T)], [alignof(T)] and the template parameter [ObjectsPerSlab]. *)
Context (sizeof_T alignof_T ObjectsPerSlab : Z).

Definition OBJECT_SIZE : Z := if sizeof_T <? 8 then 8 else sizeof_T.
Definition ALIGNMENT : Z := if alignof_T <? 8 then 8 else alignof_T.
Definition CHUNK_SIZE : Z :=
  Z.land (OBJECT_SIZE +64 (ALIGNMENT -64 1)) (u64 (Z.lnot (ALIGNMENT -64 1))).
Definition SLAB_SIZE : Z := CHUNK_SIZE *64 ObjectsPerSlab.

(** [mem] is the first word of every chunk, where [FreeNode::next] lives;
    0 is [nullptr]. *)
Record t := mk {
  mem : gmap Z Z;
  free_head_ : Z;
  slabs_ : list Z;
  active_objects_ : Z }.

Definition push_node (s : t) (node : Z) : t :=
  mk (<[node := free_head_ s]> (mem s)) node (slabs_ s) (active_objects_ s).

Definition grow_slab (mmap : option Z) (s : t) : t :=
  match mmap with
  | None => s
  | Some base =>
      let s := mk (mem s) (free_head_ s) (push_back (slabs_ s) base) (active_objects_ s) in
      foldl (fun s i => push_node s (base +64 (i *64 CHUNK_SIZE))) s (seqZ 0 ObjectsPerSlab)
  end.

Definition SlabAllocator (mmap : option Z) : t := grow_slab mmap (mk ∅ 0 [] 0).

Definition allocate (mmap : option Z) (s : t) : option Z * t :=
  let s := if free_head_ s =? 0 then grow_slab mmap s else s in
  if free_head_ s =? 0 then (None, s) else
  let node := free_head_ s in
  (Some node, mk (mem s) (default 0 (mem s !! node)) (slabs_ s) (active_objects_ s +64 1)).

Definition deallocate (ptr : option Z) (s : t) : t :=
  match ptr with
  | None => s
  | Some node =>
      mk (<[node := free_head_ s]> (mem s)) node (slabs_ s) (active_objects_ s -64 1)
  end.

(** The client's object overwrites the first word of its chunk. *)
Definition write_object (ptr word : Z) (s : t) : t :=
  mk (<[ptr := word]> (mem s)) (free_head_ s) (slabs_ s) (active_objects_ s).

(** [word] is what the constructor leaves in the first word of the object. *)
Definition construct (mmap : option Z) (word : Z) (s : t) : option Z * t :=
  match allocate mmap s with
  | (None, s) => (None, s)
  | (Some m, s) => (Some m, write_object m word s)
  end.

(** [word] is what the destructor leaves there. *)
Definition destroy (ptr : option Z) (word : Z) (s : t) : t :=
  match ptr with
  | None => s
  | Some p => deallocate (Some p) (write_object p word s)
  end.

Definition get_active_objects (s : t) : Z := active_objects_ s.
(** The destructor: the address ranges it unmaps, in order. *)
Definition unmapped (s : t) : list (Z * Z) := (fun slab => (slab, SLAB_SIZE)) <$> slabs_ s.

Definition get_total_capacity (s : t) : Z := Z.of_nat (length (slabs_ s)) *64 ObjectsPerSlab.
Definition get_slab_count (s : t) : Z := Z.of_nat (length (slabs_ s)).

(** ** Client protocol *)

(** What the kernel promises of a new anonymous mapping: page aligned, inside
    the address space and disjoint from the mappings still in use. *)
Definition mmap_ok (s : t) (mmap : option Z) : Prop :=
  match mmap with
  | None => True
  | Some b =>
      0 < b /\ b mod 4096 = 0 /\ b + SLAB_SIZE <= 2 ^ 64 /\
      forall b', b' ∈ slabs_ s -> b + SLAB_SIZE <= b' \/ b' + SLAB_SIZE <= b
  end.

(** The client owns the chunks of [live]: it may write to them, and gives each
    of them back once. *)
Inductive client_step : t * list Z -> t * list Z -> Prop :=
| step_alloc s live m p s' :
    mmap_ok s m -> allocate m s = (Some p, s') -> client_step (s, live) (s', p :: live)
| step_construct s live m w p s' :
    mmap_ok s m -> construct m w s = (Some p, s') -> client_step (s, live) (s', p :: live)
| step_fail s live m s' :
    mmap_ok s m -> allocate m s = (None, s') -> client_step (s, live) (s', live)
| step_write s live p w :
    p ∈ live -> client_step (s, live) (write_object p w s, live)
| step_free s live1 live2 p :
    client_step (s, live1 ++ p :: live2) (deallocate (Some p) s, live1 ++ live2)
| step_destroy s live1 live2 p w :
    client_step (s, live1 ++ p :: live2) (destroy (Some p) w s, live1 ++ live2).

(** Types whose slabs fit in the address space. *)
Definition layout_ok : Prop :=
  0 < sizeof_T /\ (exists a, 0 <= a <= 12 /\ alignof_T = 2 ^ a) /\
  0 < ObjectsPerSlab /\ (sizeof_T + 8192) * ObjectsPerSlab < 2 ^ 64.

(** The chunks of one slab, and of all slabs. *)
Definition chunks (base : Z) : list Z := (fun i => base + i * CHUNK_SIZE) <$> seqZ 0 ObjectsPerSlab.
Definition all_chunks (l : list Z) : list Z := concat (chunks <$> l).

(** The free list starting at [head] runs through exactly the nodes [l]. *)
Fixpoint chain (m : gmap Z Z) (head : Z) (l : list Z) : Prop :=
  match l with
  | [] => head = 0
  | x :: l' => head = x /\ x <> 0 /\ exists next, m !! x = Some next /\ chain m next l'
  end.

Definition slab_ok (b : Z) : Prop := 0 < b /\ b mod 4096 = 0 /\ b + SLAB_SIZE <= 2 ^ 64.
Definition slabs_disjoint (b b' : Z) : Prop := b + SLAB_SIZE <= b' \/ b' + SLAB_SIZE <= b.

Record Inv (s : t) (live free : list Z) : Prop := {
  inv_chain : chain (mem s) (free_head_ s) free;
  inv_perm : free ++ live ≡ₚ all_chunks (slabs_ s);
  inv_active : active_objects_ s = u64 (Z.of_nat (length live));
  inv_slabs : Forall slab_ok (slabs_ s);
  inv_nodup : NoDup (slabs_ s);
  inv_disj : forall b b', b ∈ slabs_ s -> b' ∈ slabs_ s -> b <> b' -> slabs_disjoint b b' }.

(** ** The layout of a slab *)

Context (Hlay : layout_ok).

Lemma ALIGNMENT_pow2 : exists a, 3 <= a <= 12 /\ ALIGNMENT = 2 ^ a.
Proof.
  destruct Hlay as (_ & (a & Ha & Hal) & _). unfold ALIGNMENT.
  destruct (Z.ltb_spec alignof_T 8) as [|H8]; [by exists 3|].
  exists a. split; [|done]. split; [|lia].
  destruct (decide (3 <= a)) as [|Hn]; [done|exfalso]. rewrite Hal in H8.
  pose proof (Z.pow_lt_mono_r 2 a 3 ltac:(lia) ltac:(lia) ltac:(lia)). lia.
Qed.

Lemma CHUNK_SIZE_spec :
  CHUNK_SIZE mod ALIGNMENT = 0 /\ OBJECT_SIZE <= CHUNK_SIZE < sizeof_T + 8192.
Proof.
  destruct ALIGNMENT_pow2 as (a & Ha & HA). unfold CHUNK_SIZE. rewrite HA.
  assert (2 ^ a <= 4096) by (apply (Z.pow_le_mono_r 2 a 12); lia).
  destruct Hlay as (Hs & _ & Hn & Hfit).
  assert (0 <= OBJECT_SIZE < sizeof_T + 8) by (unfold OBJECT_SIZE; destruct (Z.ltb_spec sizeof_T 8); lia).
  destruct (round_up_mask 64 a OBJECT_SIZE) as [Hm Hr]; [lia|lia|nia|]. split; [done|lia].
Qed.

Lemma CHUNK_SIZE_pos : 8 <= CHUNK_SIZE /\ sizeof_T <= CHUNK_SIZE.
Proof.
  destruct CHUNK_SIZE_spec as [_ [H _]]. unfold OBJECT_SIZE in H.
  destruct (Z.ltb_spec sizeof_T 8); lia.
Qed.

Lemma SLAB_SIZE_eq : SLAB_SIZE = CHUNK_SIZE * ObjectsPerSlab.
Proof.
  destruct CHUNK_SIZE_spec as [_ [_ H]], CHUNK_SIZE_pos, Hlay as (Hs & _ & Hn & Hfit).
  apply wrap_small. nia.
Qed.

Lemma elem_chunks b x :
  x ∈ chunks b <-> exists i, 0 <= i < ObjectsPerSlab /\ x = b + i * CHUNK_SIZE.
Proof.
  unfold chunks. rewrite list_elem_of_fmap. setoid_rewrite elem_of_seqZ.
  split; intros (i & ? & ?); exists i; split; lia || done.
Qed.

Lemma elem_all_chunks l x : x ∈ all_chunks l <-> exists b, b ∈ l /\ x ∈ chunks b.
Proof.
  unfold all_chunks. rewrite list_elem_of_In, in_concat. split.
  - intros (c & (b & -> & Hb)%list_elem_of_In%list_elem_of_fmap & Hx%list_elem_of_In). eauto.
  - intros (b & Hb & Hx). exists (chunks b).
    split; apply list_elem_of_In; [by apply list_elem_of_fmap_2|done].
Qed.

Lemma chunk_in_slab b x :
  x ∈ chunks b -> b <= x /\ x + CHUNK_SIZE <= b + SLAB_SIZE.
Proof.
  rewrite elem_chunks. intros (i & Hi & ->). rewrite SLAB_SIZE_eq.
  pose proof CHUNK_SIZE_pos. nia.
Qed.

(** Two different chunks do not overlap. *)
Definition sep (x y : Z) : Prop := x + CHUNK_SIZE <= y \/ y + CHUNK_SIZE <= x.

Lemma chunks_sep s live free x y :
  Inv s live free -> x ∈ all_chunks (slabs_ s) -> y ∈ all_chunks (slabs_ s) -> x <> y -> sep x y.
Proof.
  intros HI (b & Hb & Hx)%elem_all_chunks (b' & Hb' & Hy)%elem_all_chunks Hne.
  destruct (decide (b = b')) as [<-|Hbb].
  - apply elem_chunks in Hx as (i & Hi & ->). apply elem_chunks in Hy as (j & Hj & ->).
    pose proof CHUNK_SIZE_pos. unfold sep.
    destruct (Z.lt_trichotomy i j) as [|[->|]]; [left; nia|done|right; nia].
  - pose proof (chunk_in_slab _ _ Hx). pose proof (chunk_in_slab _ _ Hy).
    destruct (inv_disj _ _ _ HI b b' Hb Hb' Hbb); unfold sep; [left|right]; lia.
Qed.

Lemma chunk_aligned s live free p :
  Inv s live free -> p ∈ all_chunks (slabs_ s) -> p mod alignof_T = 0.
Proof.
  intros HI (b & Hb & Hp)%elem_all_chunks. apply elem_chunks in Hp as (i & _ & ->).
  pose proof (inv_slabs _ _ _ HI) as Hs. rewrite Forall_forall in Hs. destruct (Hs b Hb) as (_ & Hpage & _).
  destruct CHUNK_SIZE_spec as [HC _], ALIGNMENT_pow2 as (a & Ha & HA).
  destruct Hlay as (_ & (a' & Ha' & Hal) & _).
  assert (a' <= a) as Hle.
  { apply (Z.pow_le_mono_r_iff 2); [lia|lia|]. rewrite <- HA, <- Hal.
    unfold ALIGNMENT. destruct (Z.ltb_spec alignof_T 8); lia. }
  rewrite HA in HC. rewrite Hal.
  rewrite Zplus_mod, <- (mod_mod_pow2 b a' 12) by lia. rewrite (Zmult_mod i).
  rewrite <- (mod_mod_pow2 CHUNK_SIZE a' a) by lia. rewrite HC. change (2 ^ 12) with 4096. rewrite Hpage.
  by rewrite !Zmod_0_l, Z.mul_0_r, !Zmod_0_l.
Qed.

Lemma NoDup_chunks b : NoDup (chunks b).
Proof.
  apply NoDup_fmap_2; [|apply NoDup_seqZ]. intros i j Hij. pose proof CHUNK_SIZE_pos. nia.
Qed.

Lemma NoDup_all_chunks l :
  NoDup l -> (forall b b', b ∈ l -> b' ∈ l -> b <> b' -> slabs_disjoint b b') -> NoDup (all_chunks l).
Proof.
  induction l as [|b l IH]; intros Hnd Hd; [constructor|].
  apply NoDup_cons in Hnd as [Hb Hnd]. change (all_chunks (b :: l)) with (chunks b ++ all_chunks l).
  apply NoDup_app. split; [apply NoDup_chunks|]. split.
  - intros x Hx (b' & Hb' & Hx')%elem_all_chunks.
    pose proof (chunk_in_slab _ _ Hx). pose proof (chunk_in_slab _ _ Hx'). pose proof CHUNK_SIZE_pos.
    destruct (Hd b b'); [apply list_elem_of_here|by apply list_elem_of_further|by intros ->| |]; lia.
  - apply IH; [done|]. intros. apply Hd; by try apply list_elem_of_further.
Qed.

Lemma inv_NoDup s live free : Inv s live free -> NoDup (free ++ live).
Proof. intros HI. rewrite (inv_perm _ _ _ HI). apply NoDup_all_chunks; apply HI. Qed.

(** ** Every operation preserves the invariant *)

Lemma chain_insert m head l x w : x ∉ l -> chain m head l -> chain (<[x := w]> m) head l.
Proof.
  revert head. induction l as [|y l IH]; intros head Hx Hc; [done|]. simpl in *.
  apply not_elem_of_cons in Hx as [Hxy Hx]. destruct Hc as (-> & H0 & next & Hm & Hc).
  split_and!; [done|done|]. exists next. rewrite lookup_insert_ne by done. auto.
Qed.

Lemma push_chain m head l x :
  x <> 0 -> x ∉ l -> chain m head l -> chain (<[x := head]> m) x (x :: l).
Proof.
  intros H0 Hx Hc. split_and!; [done|done|]. exists head.
  rewrite lookup_insert_eq. auto using chain_insert.
Qed.

Lemma push_nodes nodes s free :
  chain (mem s) (free_head_ s) free -> NoDup (nodes ++ free) -> (forall x, x ∈ nodes -> x <> 0) ->
  let s' := foldl push_node s nodes in
  chain (mem s') (free_head_ s') (reverse nodes ++ free) /\
  slabs_ s' = slabs_ s /\ active_objects_ s' = active_objects_ s.
Proof.
  revert s free. induction nodes as [|x nodes IH]; intros s free Hc Hnd H0; [done|].
  simpl in Hnd |- *. apply NoDup_cons in Hnd as [Hx Hnd]. rewrite not_elem_of_app in Hx.
  rewrite reverse_cons, <- app_assoc. simpl.
  apply (IH (push_node s x) (x :: free)).
  - apply push_chain; [apply H0; left|tauto|done].
  - rewrite <- Permutation_middle. apply NoDup_cons. by rewrite not_elem_of_app.
  - intros y Hy. apply H0. by right.
Qed.

Lemma chunk_addr b i :
  slab_ok b -> 0 <= i < ObjectsPerSlab -> b +64 (i *64 CHUNK_SIZE) = b + i * CHUNK_SIZE.
Proof.
  intros (Hb & _ & Hfit) Hi. rewrite SLAB_SIZE_eq in Hfit. pose proof CHUNK_SIZE_pos.
  rewrite (wrap_small 64 (i * _)), wrap_small by nia. done.
Qed.

Lemma grow_slab_eq b s :
  slab_ok b ->
  grow_slab (Some b) s =
  foldl push_node (mk (mem s) (free_head_ s) (push_back (slabs_ s) b) (active_objects_ s)) (chunks b).
Proof.
  intros Hb. unfold grow_slab, chunks. generalize (mk (mem s) (free_head_ s) (push_back (slabs_ s) b) (active_objects_ s)).
  assert (forall i, i ∈ seqZ 0 ObjectsPerSlab -> 0 <= i < ObjectsPerSlab) as Hr by (intros i ?%elem_of_seqZ; lia).
  revert Hr. induction (seqZ 0 ObjectsPerSlab) as [|i l IH]; intros Hr s0; [done|]. simpl.
  rewrite chunk_addr, IH; [done| |done|apply Hr; left]. intros j Hj. apply Hr. by right.
Qed.

Lemma inv_grow s live free b :
  Inv s live free -> mmap_ok s (Some b) ->
  Inv (grow_slab (Some b) s) live (reverse (chunks b) ++ free).
Proof.
  intros HI (Hb & Hal & Hfit & Hd). rewrite grow_slab_eq by done.
  pose proof CHUNK_SIZE_pos as HC. assert (0 < SLAB_SIZE) as HS.
  { rewrite SLAB_SIZE_eq. destruct Hlay as (_ & _ & ? & _). nia. }
  assert (b ∉ slabs_ s) as Hfresh by (intros Hin; destruct (Hd b Hin); lia).
  assert (forall x y, x ∈ push_back (slabs_ s) b -> y ∈ push_back (slabs_ s) b -> x <> y ->
            slabs_disjoint x y) as Hdis.
  { intros x y [Hx|Hx%list_elem_of_singleton]%elem_of_app [Hy|Hy%list_elem_of_singleton]%elem_of_app Hne; subst.
    - by apply (inv_disj _ _ _ HI).
    - unfold slabs_disjoint. destruct (Hd x Hx); [by right|by left].
    - exact (Hd y Hy).
    - done. }
  assert (NoDup (push_back (slabs_ s) b)) as Hnd.
  { apply NoDup_app. split_and!; [apply HI| |apply NoDup_singleton].
    intros x Hx ->%list_elem_of_singleton. done. }
  pose proof (NoDup_all_chunks _ Hnd Hdis) as Hna.
  unfold push_back, all_chunks in Hna. rewrite fmap_app, concat_app in Hna. simpl in Hna.
  rewrite app_nil_r, <- (inv_perm _ _ _ HI) in Hna.
  destruct (push_nodes (chunks b) (mk (mem s) (free_head_ s) (push_back (slabs_ s) b) (active_objects_ s)) free)
    as (Hc & Hsl & Hact).
  - apply HI.
  - rewrite Permutation_app_comm in Hna. rewrite app_assoc in Hna. by apply NoDup_app in Hna as [? _].
  - intros x Hx%chunk_in_slab. lia.
  - split; rewrite ?Hsl, ?Hact; simpl; [done| |apply HI| |done|done].
    + unfold all_chunks, push_back. rewrite fmap_app, concat_app. simpl. fold (all_chunks (slabs_ s)).
      rewrite app_nil_r, <- (inv_perm _ _ _ HI), reverse_Permutation, <- app_assoc.
      apply Permutation_app_comm.
    + apply Forall_app. split; [apply HI|]. by repeat constructor.
Qed.
Lemma chain_head_0 m head l : chain m head l -> (head = 0 <-> l = []).
Proof. destruct l as [|x l]; simpl; [done|]. intros (-> & H0 & _). split; [by intros ->|done]. Qed.

Lemma inv_write s live free p w :
  Inv s live free -> p ∈ live -> Inv (write_object p w s) live free.
Proof.
  intros HI Hp. pose proof (inv_NoDup _ _ _ HI) as (_ & Hnd & _)%NoDup_app.
  split; try apply HI. simpl. apply chain_insert; [|apply HI]. intros Hf. by apply (Hnd p).
Qed.

Lemma inv_free s live1 live2 free p :
  Inv s (live1 ++ p :: live2) free -> Inv (deallocate (Some p) s) (live1 ++ live2) (p :: free).
Proof.
  intros HI. pose proof (inv_NoDup _ _ _ HI) as Hnd. pose proof (inv_perm _ _ _ HI) as Hperm.
  rewrite <- Permutation_middle, <- Permutation_middle in Hnd.
  apply NoDup_cons in Hnd as [Hp _]. rewrite not_elem_of_app in Hp.
  split; simpl; try apply HI.
  - apply push_chain; [|tauto|apply HI].
    assert (p ∈ all_chunks (slabs_ s)) as (b & Hb & Hpb%chunk_in_slab)%elem_all_chunks.
    { rewrite <- Hperm. apply elem_of_app. right. apply elem_of_app. right. left. }
    pose proof (inv_slabs _ _ _ HI) as Hs. rewrite Forall_forall in Hs.
    destruct (Hs b Hb) as [? _]. lia.
  - by rewrite <- Hperm, <- !Permutation_middle.
  - rewrite (inv_active _ _ _ HI), wrap_sub_l. f_equal. rewrite !length_app. simpl. lia.
Qed.

(** What [allocate] does, in terms of the free list before the call. *)
Lemma allocate_spec s live free m :
  Inv s live free -> mmap_ok s m ->
  match allocate m s with
  | (None, s') => s' = s /\ free = [] /\ m = None
  | (Some p, s') => exists free', Inv s' (p :: live) free'
  end.
Proof.
  intros HI Hm. unfold allocate.
  assert (exists free1, Inv (if free_head_ s =? 0 then grow_slab m s else s) live free1 /\
    (free1 = [] -> free = [] /\ m = None)) as (free1 & HI1 & Hnil).
  { destruct (Z.eqb_spec (free_head_ s) 0) as [H0|H0].
    - destruct m as [b|]; [|exists free; simpl; auto]. exists (reverse (chunks b) ++ free).
      split; [by apply inv_grow|]. intros [Hr _]%app_eq_nil.
      apply (f_equal length) in Hr. unfold chunks in Hr.
      rewrite length_reverse, length_fmap, length_seqZ in Hr. simpl in Hr. destruct Hlay as (_ & _ & ? & _). lia.
    - exists free. split; [done|]. intros ->. destruct H0. apply HI. }
  pose proof (chain_head_0 _ _ _ (inv_chain _ _ _ HI1)) as H0. pose proof (inv_chain _ _ _ HI1) as Hc.
  destruct (Z.eqb_spec (free_head_ (if free_head_ s =? 0 then grow_slab m s else s)) 0) as [Hz|Hz].
  - apply H0 in Hz as ->. destruct (Hnil eq_refl) as [-> ->]. split_and!; [|done|done].
    by destruct (free_head_ s =? 0).
  - destruct free1 as [|p free1]; [tauto|]. clear H0. revert HI1 Hc Hz.
    generalize (if free_head_ s =? 0 then grow_slab m s else s). intros s1 HI1 (Hp & Hp0 & next & Hn & Hc) Hz.
    exists free1. rewrite Hp, Hn. split; simpl; try apply HI1; [done| |].
    + rewrite <- Permutation_middle. apply HI1.
    + rewrite (inv_active _ _ _ HI1), wrap_add_l. f_equal. lia.
Qed.

Lemma client_step_inv s live s' live' free :
  client_step (s, live) (s', live') -> Inv s live free -> exists free', Inv s' live' free'.
Proof.
  intros Hs HI. inversion Hs as
    [? ? m p ? Hm Ha|? ? m w p ? Hm Ha|? ? m ? Hm Ha|? ? p w Hp|? ? ? p|? ? ? p w]; subst.
  - pose proof (allocate_spec _ _ _ _ HI Hm) as H. by rewrite Ha in H.
  - pose proof (allocate_spec _ _ _ _ HI Hm) as H. unfold construct in Ha.
    destruct (allocate m s) as [[q|] s1]; simplify_eq. destruct H as [free' H].
    exists free'. apply inv_write; [done|left].
  - pose proof (allocate_spec _ _ _ _ HI Hm) as H. rewrite Ha in H. destruct H as [-> _]. eauto.
  - eauto using inv_write.
  - eauto using inv_free.
  - exists (p :: free). apply (inv_free (write_object p w s)), inv_write; [done|].
    apply elem_of_app. right. left.
Qed.

Lemma slab_inv_init m : mmap_ok (mk ∅ 0 [] 0) m -> exists free, Inv (SlabAllocator m) [] free.
Proof.
  intros Hm. assert (Inv (mk ∅ 0 [] 0) [] []) as H0.
  { split; simpl; [done|done|done|constructor|constructor|]. by intros b b' ?%not_elem_of_nil. }
  destruct m as [b|]; [|eauto]. eexists. by apply inv_grow.
Qed.

Lemma slab_reachable_inv m s live :
  mmap_ok (mk ∅ 0 [] 0) m -> rtc client_step (SlabAllocator m, []) (s, live) ->
  exists free, Inv s live free.
Proof.
  intros Hm Hr. destruct (slab_inv_init m Hm) as [free0 H0].
  assert (forall x y, rtc client_step x y -> (exists free, Inv x.1 x.2 free) ->
            exists free, Inv y.1 y.2 free) as Hall.
  { induction 1 as [|[s0 l0] [s1 l1] z Hst _ IH]; [done|].
    intros [free HI]. apply IH. by eapply client_step_inv. }
  apply (Hall _ _ Hr). by exists free0.
Qed.
Lemma inv_live s live free p :
  Inv s live free -> p ∈ live -> p ∈ all_chunks (slabs_ s).
Proof. intros HI Hp. rewrite <- (inv_perm _ _ _ HI). apply elem_of_app. by right. Qed.

Lemma length_all_chunks l : length (all_chunks l) = (length l * Z.to_nat ObjectsPerSlab)%nat.
Proof.
  induction l as [|b l IH]; [done|]. change (all_chunks (b :: l)) with (chunks b ++ all_chunks l).
  rewrite length_app, IH. unfold chunks. rewrite length_fmap, length_seqZ. simpl. lia.
Qed.

(** Chunks are distinct addresses, so there are fewer than 2^64 of them. *)
Lemma chunks_bounded s live free :
  Inv s live free -> Z.of_nat (length (all_chunks (slabs_ s))) < 2 ^ 64.
Proof.
  intros HI. pose proof (inv_NoDup _ _ _ HI) as Hnd. rewrite (inv_perm _ _ _ HI) in Hnd.
  assert (length (all_chunks (slabs_ s)) <= length (seqZ 1 (2 ^ 64 - 1)))%nat as Hle.
  { apply submseteq_length, NoDup_submseteq; [done|].
    intros x (b & Hb & Hx%chunk_in_slab)%elem_all_chunks. apply elem_of_seqZ.
    pose proof (inv_slabs _ _ _ HI) as Hs. rewrite Forall_forall in Hs.
    destruct (Hs b Hb) as (? & _ & ?). pose proof CHUNK_SIZE_pos. lia. }
  rewrite length_seqZ in Hle. lia.
Qed.
End slab.

(** ** The properties *)

(** C14. In every state a client can reach, the chunks of all slabs are exactly
    the nodes of the free list together with the chunks the clients own, each
    chunk once, whatever the clients wrote into their chunks; and the counters
    are exact. *)
Theorem slab_partition szT alT N m s live :
  layout_ok szT alT N -> mmap_ok szT alT N (mk ∅ 0 [] 0) m ->
  rtc (client_step szT alT N) (SlabAllocator szT alT N m, []) (s, live) ->
  exists free,
    chain (mem s) (free_head_ s) free /\
    free ++ live ≡ₚ all_chunks szT alT N (slabs_ s) /\
    NoDup (free ++ live) /\
    get_active_objects s = Z.of_nat (length live) /\
    get_active_objects s + Z.of_nat (length free) = get_total_capacity N s.
Proof.
  intros Hl Hm Hr. destruct (slab_reachable_inv _ _ _ Hl _ _ _ Hm Hr) as [free HI]. exists free.
  pose proof (chunks_bounded _ _ _ Hl _ _ _ HI) as Hb. pose proof (inv_perm _ _ _ _ _ _ HI) as Hp.
  pose proof Hb as Hb'. rewrite <- Hp, length_app in Hb'.
  assert (get_active_objects s = Z.of_nat (length live)) as Hact.
  { unfold get_active_objects. rewrite (inv_active _ _ _ _ _ _ HI). apply wrap_small. lia. }
  split_and!; [apply HI|done|by eapply inv_NoDup|done|].
  rewrite Hact. unfold get_total_capacity. rewrite wrap_small.
  - pose proof (Permutation_length Hp) as Hlen.
    rewrite length_app, length_all_chunks in Hlen. destruct Hl as (_ & _ & ? & _). nia.
  - rewrite length_all_chunks in Hb. destruct Hl as (_ & _ & ? & _). nia.
Qed.

(** The destructor returns every mapping once: the ranges are disjoint and each
    chunk ever handed out lies in one of them. *)
Lemma slab_destructor szT alT N m s live :
  layout_ok szT alT N -> mmap_ok szT alT N (mk ∅ 0 [] 0) m ->
  rtc (client_step szT alT N) (SlabAllocator szT alT N m, []) (s, live) ->
  NoDup (unmapped szT alT N s) /\
  (forall x y, x ∈ unmapped szT alT N s -> y ∈ unmapped szT alT N s -> x <> y -> x.1 + x.2 <= y.1 \/ y.1 + y.2 <= x.1) /\
  (forall p, p ∈ live -> exists x, x ∈ unmapped szT alT N s /\ x.1 <= p /\ p + szT <= x.1 + x.2).
Proof.
  intros Hl Hm Hr. destruct (slab_reachable_inv _ _ _ Hl _ _ _ Hm Hr) as [free HI]. unfold unmapped. split; [|split].
  - apply NoDup_fmap_2; [intros ?? [=]; done|apply HI].
  - intros x y (b & -> & Hb)%list_elem_of_fmap (b' & -> & Hb')%list_elem_of_fmap Hne. cbn.
    apply (inv_disj _ _ _ _ _ _ HI b b'); [done|done|congruence].
  - intros p Hp. assert (p ∈ all_chunks szT alT N (slabs_ s)) as Hin by (by eapply inv_live).
    pose proof (CHUNK_SIZE_pos _ _ _ Hl) as [_ HC]. apply elem_all_chunks in Hin as (b & Hb & Hpb%chunk_in_slab); [|done].
    exists (b, SLAB_SIZE szT alT N). split; [apply list_elem_of_fmap; by exists b|cbn; lia].
Qed.

(** [allocate] hands out a chunk that is aligned for [T], large enough for
    it, inside a mapped slab and disjoint from every chunk in use; it returns
    null only when the free list is empty and [mmap] fails, and then changes
    nothing. *)
Theorem slab_allocate szT alT N m s live m' :
  layout_ok szT alT N -> mmap_ok szT alT N (mk ∅ 0 [] 0) m ->
  rtc (client_step szT alT N) (SlabAllocator szT alT N m, []) (s, live) ->
  mmap_ok szT alT N s m' ->
  match allocate szT alT N m' s with
  | (None, s') => s' = s /\ free_head_ s = 0 /\ m' = None
  | (Some p, s') =>
      p mod alT = 0 /\
      (exists b, b ∈ slabs_ s' /\ b <= p /\ p + szT <= b + SLAB_SIZE szT alT N) /\
      forall q, q ∈ live -> p + szT <= q \/ q + szT <= p
  end.
Proof.
  intros Hl Hm Hr Hm'. destruct (slab_reachable_inv _ _ _ Hl _ _ _ Hm Hr) as [free HI].
  pose proof (allocate_spec _ _ _ Hl _ _ _ _ HI Hm') as Ha.
  destruct (allocate szT alT N m' s) as [[p|] s'].
  2: { destruct Ha as (-> & -> & ->). split_and!; [done|apply HI|done]. }
  destruct Ha as [free' HI']. pose proof (CHUNK_SIZE_pos _ _ _ Hl) as [_ HC].
  assert (p ∈ all_chunks szT alT N (slabs_ s')) as Hp by (eapply inv_live; [done|left]).
  split_and!.
  - apply (chunk_aligned szT alT N Hl s' (p :: live) free'); done.
  - apply elem_all_chunks in Hp as (b & Hb & Hin%chunk_in_slab); [|done]. exists b. split; [done|lia].
  - intros q Hq. assert (p <> q) as Hne.
    { intros ->. pose proof (inv_NoDup _ _ _ Hl _ _ _ HI') as (_ & _ & Hnd)%NoDup_app.
      by apply NoDup_cons in Hnd as [? _]. }
    destruct (chunks_sep _ _ _ Hl s' (p :: live) free' p q) as [?|?]; try done; [| |lia..].
    + eapply inv_live; [done|by right].
    + left. lia.
Qed.

(** ** Witnesses: four objects of 20 bytes per slab *)

Definition ex_s0 : t := Eval vm_compute in SlabAllocator 20 8 4 (Some 65536).
Definition ex_s1 : t := Eval vm_compute in (allocate 20 8 4 None ex_s0).2.
Definition ex_s2 : t := Eval vm_compute in (construct 20 8 4 None 77 ex_s1).2.
Definition ex_s3 : t := Eval vm_compute in write_object 65608 3735928559 ex_s2.
Definition ex_s4 : t := Eval vm_compute in deallocate (Some 65608) ex_s3.

Lemma ex_layout : layout_ok 20 8 4.
Proof. split_and!; [lia|exists 3; lia|lia|lia]. Qed.

Lemma ex_mmap : mmap_ok 20 8 4 (mk ∅ 0 [] 0) (Some 65536).
Proof. split_and!; [lia|done|vm_compute; discriminate|]. by intros b ?%not_elem_of_nil. Qed.

Lemma ex_steps : rtc (client_step 20 8 4) (ex_s0, []) (ex_s4, [65584]).
Proof.
  eapply rtc_l; [apply (step_alloc 20 8 4 ex_s0 [] None 65608 ex_s1); done|].
  eapply rtc_l; [apply (step_construct 20 8 4 ex_s1 _ None 77 65584 ex_s2); done|].
  eapply rtc_l; [apply (step_write 20 8 4 ex_s2 _ 65608 3735928559); right; left|].
  eapply rtc_once, (step_free 20 8 4 ex_s3 [65584] [] 65608).
Qed.

Lemma slab_partition_witness : get_active_objects ex_s4 = 1 /\ free_head_ ex_s4 = 65608.
Proof.
  destruct (slab_partition 20 8 4 (Some 65536) ex_s4 [65584] ex_layout ex_mmap ex_steps)
    as (free & _ & _ & _ & -> & _). split; reflexivity.
Defined.

Lemma slab_allocate_witness :
  (allocate 20 8 4 None ex_s4).1 = Some 65608 /\ (65608 + 20 <= 65584 \/ 65584 + 20 <= 65608).
Proof.
  pose proof (slab_allocate 20 8 4 (Some 65536) ex_s4 [65584] None ex_layout ex_mmap ex_steps I) as H.
  split; [reflexivity|]. destruct H as (_ & _ & H). apply H. left.
Defined.
End Slab.
