(* ===== verification/Spsc.v ===== *)
(** * The wait-free single-producer single-consumer queue

    Model of [SPSCQueue<T, Capacity>] (04-hardware-sync, spsc_queue.hpp).
    The operations are split at their accesses to the shared counters and to
    the slots, so that [step] interleaves the producer and the consumer
    freely; the acquire/release pairs on the two single-writer counters are
    what makes this interleaving view the right one.  A slot is [None] while
    it holds no constructed object. *)

From S2P Require Import Prelude Ring.

#[local] Open Scope Z_scope.
#[local] Open Scope cpp_scope.

Module Spsc.

Section spsc.
Context {T : Type} (Capacity : Z).

Record t := mk {
  tail_ : Z; cached_head_ : Z;
  head_ : Z; cached_tail_ : Z;
  storage_ : list (option T) }.

Definition SPSCQueue : t := mk 0 0 0 0 (replicate (Z.to_nat Capacity) None).

(** The two-stage test for room. *)
Definition emplace_check (tail : Z) (s : t) : bool * t :=
  if Capacity <=? tail -64 cached_head_ s then
    let s := mk (tail_ s) (head_ s) (head_ s) (cached_tail_ s) (storage_ s) in
    if Capacity <=? tail -64 cached_head_ s then (false, s) else (true, s)
  else (true, s).

Definition emplace_construct (v : T) (tail : Z) (s : t) : t :=
  mk (tail_ s) (cached_head_ s) (head_ s) (cached_tail_ s)
     (<[slot_of Capacity tail := Some v]> (storage_ s)).

Definition emplace_publish (tail : Z) (s : t) : t :=
  mk (tail +64 1) (cached_head_ s) (head_ s) (cached_tail_ s) (storage_ s).

Definition emplace (v : T) (s : t) : bool * t :=
  let tail := tail_ s in
  match emplace_check tail s with
  | (false, s) => (false, s)
  | (true, s) => (true, emplace_publish tail (emplace_construct v tail s))
  end.

Definition push (v : T) (s : t) : bool * t := emplace v s.

Definition pop_check (head : Z) (s : t) : bool * t :=
  if head =? cached_tail_ s then
    let s := mk (tail_ s) (cached_head_ s) (head_ s) (tail_ s) (storage_ s) in
    if head =? cached_tail_ s then (false, s) else (true, s)
  else (true, s).

(** [out = std::move( *slot); slot->~T()]; [None] when the slot holds no
    object. *)
Definition pop_take (head : Z) (s : t) : option T * t :=
  (mjoin (storage_ s !! slot_of Capacity head),
   mk (tail_ s) (cached_head_ s) (head_ s) (cached_tail_ s)
      (<[slot_of Capacity head := None]> (storage_ s))).

Definition pop_publish (head : Z) (s : t) : t :=
  mk (tail_ s) (cached_head_ s) (head +64 1) (cached_tail_ s) (storage_ s).

(** The returned flag, and the value assigned to [out]. *)
Definition pop (s : t) : bool * option T * t :=
  let head := head_ s in
  match pop_check head s with
  | (false, s) => (false, None, s)
  | (true, s) => let '(out, s) := pop_take head s in (true, out, pop_publish head s)
  end.

Definition empty (s : t) : bool := head_ s =? tail_ s.

Definition size (s : t) : Z :=
  let head := head_ s in
  let tail := tail_ s in
  if head <=? tail then tail -64 head else 0.

(** The destructor's loop: what the successful calls of [pop] take out, with
    [fuel] bounding the number of iterations; [None] when it runs out. *)
Fixpoint drain (fuel : nat) (s : t) : option (list (option T) * t) :=
  match fuel with
  | O => None
  | S fuel' =>
      match pop s with
      | (false, _, s) => Some ([], s)
      | (true, out, s) => prod_map (cons out) id <$> drain fuel' s
      end
  end.

(** ** Interleaving of the two threads *)

Inductive ppc := P_idle | P_loaded (v : T) (tail : Z) | P_ready (v : T) (tail : Z) | P_written (v : T) (tail : Z).
Inductive cpc := C_idle | C_loaded (head : Z) | C_ready (head : Z) | C_taken (head : Z) (out : T).

(** [pushed] and [popped] record the values of the completed calls. *)
Record cfg := mkc { q : t; pp : ppc; cc : cpc; pushed : list T; popped : list T }.

Inductive step : cfg -> cfg -> Prop :=
| st_call s c v ps qs :
    step (mkc s P_idle c ps qs) (mkc s (P_loaded v (tail_ s)) c ps qs)
| st_full s s' c v tl ps qs :
    emplace_check tl s = (false, s') ->
    step (mkc s (P_loaded v tl) c ps qs) (mkc s' P_idle c ps qs)
| st_room s s' c v tl ps qs :
    emplace_check tl s = (true, s') ->
    step (mkc s (P_loaded v tl) c ps qs) (mkc s' (P_ready v tl) c ps qs)
| st_construct s c v tl ps qs :
    step (mkc s (P_ready v tl) c ps qs) (mkc (emplace_construct v tl s) (P_written v tl) c ps qs)
| st_publish s c v tl ps qs :
    step (mkc s (P_written v tl) c ps qs) (mkc (emplace_publish tl s) P_idle c (ps ++ [v]) qs)
| st_pop s p ps qs :
    step (mkc s p C_idle ps qs) (mkc s p (C_loaded (head_ s)) ps qs)
| st_empty s s' p h ps qs :
    pop_check h s = (false, s') ->
    step (mkc s p (C_loaded h) ps qs) (mkc s' p C_idle ps qs)
| st_avail s s' p h ps qs :
    pop_check h s = (true, s') ->
    step (mkc s p (C_loaded h) ps qs) (mkc s' p (C_ready h) ps qs)
| st_take s s' p h v ps qs :
    pop_take h s = (Some v, s') ->
    step (mkc s p (C_ready h) ps qs) (mkc s' p (C_taken h v) ps qs)
| st_release s p h v ps qs :
    step (mkc s p (C_taken h v) ps qs) (mkc (pop_publish h s) p C_idle ps (qs ++ [v])).

Definition init : cfg := mkc SPSCQueue P_idle C_idle [] [].
End spsc.
#[global] Arguments t : clear implicits.
#[global] Arguments ppc : clear implicits.
#[global] Arguments cpc : clear implicits.
#[global] Arguments cfg : clear implicits.

(** ** Invariant *)

Section invariant.
Context {T : Type} (k : Z) (Hk : 0 <= k < 64).
Abbreviation cap := (2 ^ k).

Definition taken (c : cpc T) : nat := match c with C_taken _ _ => 1 | _ => 0 end.
Definition written (p : ppc T) : nat := match p with P_written _ _ => 1 | _ => 0 end.

Definition p_ok (s : t T) (p : ppc T) (room : Prop) : Prop :=
  match p with
  | P_idle => True
  | P_loaded _ tl => tl = tail_ s
  | P_ready _ tl => tl = tail_ s /\ room
  | P_written v tl => tl = tail_ s /\ room /\ storage_ s !! slot_of cap tl = Some (Some v)
  end.

Definition c_ok (s : t T) (c : cpc T) (avail : Prop) (next : option T) : Prop :=
  match c with
  | C_idle => True
  | C_loaded h => h = head_ s
  | C_ready h => h = head_ s /\ avail
  | C_taken h v => h = head_ s /\ avail /\ next = Some v
  end.

Record Inv (x : cfg T) (nh nt : nat) : Prop := {
  inv_ring : ring_inv k (tail_ (q x)) (head_ (q x)) (storage_ (q x)) (Some <$> pushed x)
               (length (popped x)) (length (popped x) + taken (cc x));
  inv_fifo : popped x = take (length (popped x)) (pushed x);
  inv_ch : cached_head_ (q x) = u64 (Z.of_nat nh) /\ (nh <= length (popped x))%nat /\
           Z.of_nat (length (pushed x)) <= Z.of_nat nh + cap;
  inv_ct : cached_tail_ (q x) = u64 (Z.of_nat nt) /\ (length (popped x) <= nt <= length (pushed x))%nat;
  inv_p : p_ok (q x) (pp x) (Z.of_nat (length (pushed x)) < Z.of_nat nh + cap);
  inv_c : c_ok (q x) (cc x) (length (popped x) < nt)%nat (pushed x !! length (popped x));
  inv_vacant : forall i, Z.of_nat (length (pushed x) + written (pp x)) <= i
                 < Z.of_nat (length (popped x) + taken (cc x)) + cap ->
               storage_ (q x) !! Z.to_nat (i mod cap) = Some None }.

Ltac ring_facts HI :=
  pose proof (ring_lo _ _ _ _ _ _ _ (inv_ring _ _ _ HI)) as Hlo;
  pose proof (ring_cap _ _ _ _ _ _ _ (inv_ring _ _ _ HI)) as Hcap;
  cbn [q pp cc pushed popped] in *; rewrite length_fmap in *.

Lemma spsc_inv_init : Inv (init cap) 0 0.
Proof.
  pose proof (cap_pos k Hk). split; cbn -[Z.of_nat]; try done; try lia.
  - by apply ring_init.
  - split_and!; [done|lia|lia].
  - intros i Hi. apply lookup_replicate_2.
    pose proof (Z.mod_pos_bound i cap ltac:(lia)). lia.
Qed.

(** The producer's test: [true] means room, and [false] that the queue holds
    [Capacity] elements. *)
Lemma emplace_check_spec s s' v tl c ps qs nh nt b :
  Inv (mkc s (P_loaded v tl) c ps qs) nh nt -> emplace_check cap tl s = (b, s') ->
  exists nh', Inv (mkc s' (if b then P_ready v tl else P_idle) c ps qs) nh' nt /\
    (b = false -> Z.of_nat (length ps) = Z.of_nat (length qs) + cap).
Proof.
  intros HI Hc. pose proof (inv_p _ _ _ HI) as Htl. cbn in Htl. subst tl.
  destruct (inv_ch _ _ _ HI) as (Hch & Hnh & Hb). cbn [q pp cc pushed popped] in *.
  pose proof (ring_full k Hk _ _ _ _ _ _ _ nh (inv_ring _ _ _ HI) Hch Hnh) as Hf1.
  pose proof (ring_full k Hk _ _ _ _ _ _ (head_ s) (length qs) (inv_ring _ _ _ HI)
                (ring_r _ _ _ _ _ _ _ (inv_ring _ _ _ HI)) ltac:(done)) as Hf2.
  ring_facts HI. unfold emplace_check in Hc. rewrite Hf1 in Hc by lia.
  cbn [cached_head_ head_ tail_ cached_tail_ storage_] in Hc.
  clear Hf1. destruct (bool_decide_reflect (Z.of_nat (length ps) = Z.of_nat nh + cap)) as [H1|H1];
    [rewrite Hf2 in Hc by lia; clear Hf2; case_bool_decide as H2|]; simplify_eq.
  - exists (length qs). split; [|done]. split; try apply HI; [|done]. split_and!; [apply HI|done|cbn; lia].
  - exists (length qs). split; [|done]. split; try apply HI; [|cbn; lia].
    split_and!; [apply HI|done|cbn; lia].
  - exists nh. split; [|done]. split; try apply HI. cbn. split; [done|lia].
Qed.

Lemma emplace_construct_inv s v tl c ps qs nh nt :
  Inv (mkc s (P_ready v tl) c ps qs) nh nt ->
  Inv (mkc (emplace_construct cap v tl s) (P_written v tl) c ps qs) nh nt.
Proof.
  intros HI. destruct (inv_p _ _ _ HI) as [-> Hroom]. destruct (inv_ch _ _ _ HI) as (_ & Hnh & _).
  destruct (ring_write k Hk _ _ _ _ _ _ (Some v) (inv_ring _ _ _ HI)) as [HR Hs].
  { cbn [q pp cc pushed popped] in *. rewrite length_fmap. lia. }
  pose proof (ring_w _ _ _ _ _ _ _ (inv_ring _ _ _ HI)) as Hw.
  ring_facts HI. split; try apply HI; cbn [q pp cc pushed popped tail_ storage_ emplace_construct].
  - exact HR.
  - done.
  - intros i Hi. cbn [written] in Hi. rewrite list_lookup_insert_ne.
    + apply (inv_vacant _ _ _ HI). cbn. lia.
    + rewrite Hw, slot_of_counter by done. pose proof (cap_pos k Hk).
      intros Heq%Z2Nat.inj; try (apply Z.mod_pos_bound; lia).
      destruct (inv_ct _ _ _ HI). cbn in *.
      apply mod_cap_inj in Heq; [lia|done|destruct c; cbn in *; lia].
Qed.

Lemma emplace_publish_inv s v tl c ps qs nh nt :
  Inv (mkc s (P_written v tl) c ps qs) nh nt ->
  Inv (mkc (emplace_publish tl s) P_idle c (ps ++ [v]) qs) nh nt.
Proof.
  intros HI. destruct (inv_p _ _ _ HI) as (-> & Hroom & Hslot). destruct (inv_ch _ _ _ HI) as (Hch & Hnh & _).
  destruct (inv_ct _ _ _ HI) as [Hct Hnt].
  ring_facts HI. split; try apply HI; cbn [q pp cc pushed popped emplace_publish tail_ head_ storage_].
  - rewrite fmap_app. apply ring_commit; [done|apply HI| |done]. rewrite length_fmap. lia.
  - rewrite take_app_le by lia. apply HI.
  - rewrite length_app. cbn [length]. split_and!; [done|done|lia].
  - rewrite length_app. split; [done|lia].
  - done.
  - pose proof (inv_c _ _ _ HI) as Hc. destruct c; cbn in *; auto.
    rewrite lookup_app_l by lia. done.
  - intros i Hi. apply (inv_vacant _ _ _ HI). rewrite length_app in Hi. cbn in *. lia.
Qed.

Lemma pop_check_spec s s' h p ps qs nh nt b :
  Inv (mkc s p (C_loaded h) ps qs) nh nt -> pop_check h s = (b, s') ->
  exists nt', Inv (mkc s' p (if b then C_ready h else C_idle) ps qs) nh nt' /\
    (b = false -> ps = qs).
Proof.
  intros HI Hc. pose proof (inv_c _ _ _ HI) as Hh. cbn in Hh. subst h.
  destruct (inv_ct _ _ _ HI) as (Hct & Hnt). cbn [q pp cc pushed popped] in *.
  pose proof (ring_empty k Hk _ _ _ _ _ _ _ nt (inv_ring _ _ _ HI) Hct) as Hf1.
  pose proof (ring_empty k Hk _ _ _ _ _ _ (tail_ s) (length ps) (inv_ring _ _ _ HI)) as Hf2.
  pose proof (ring_w _ _ _ _ _ _ _ (inv_ring _ _ _ HI)) as Hw.
  ring_facts HI. unfold pop_check in Hc. rewrite Hf1 in Hc by lia.
  cbn [cached_head_ head_ tail_ cached_tail_ storage_] in Hc.
  clear Hf1. destruct (bool_decide_reflect (length qs = nt)) as [H1|H1];
    [rewrite Hf2 in Hc by (done || lia); clear Hf2; case_bool_decide as H2|]; simplify_eq.
  - exists (length ps). split.
    2: { intros _. pose proof (inv_fifo _ _ _ HI) as Hf. cbn in Hf. by rewrite H2, firstn_all in Hf. }
    split; try apply HI; [cbn; split; [done|lia]|done].
  - exists (length ps). split; [|done]. split; try apply HI; cbn; split; done || lia.
  - exists nt. split; [|done]. split; try apply HI; cbn; split; done || lia.
Qed.

Lemma pop_take_spec s h p ps qs nh nt :
  Inv (mkc s p (C_ready h) ps qs) nh nt ->
  exists v s', pop_take cap h s = (Some v, s') /\ Inv (mkc s' p (C_taken h v) ps qs) nh nt.
Proof.
  intros HI. destruct (inv_c _ _ _ HI) as [-> Hav]. destruct (inv_ct _ _ _ HI) as [Hct Hnt].
  cbn [q pp cc pushed popped taken] in *. pose proof (inv_ring _ _ _ HI) as HR. cbn in HR.
  rewrite Nat.add_0_r in HR.
  destruct (lookup_lt_is_Some_2 ps (length qs) ltac:(lia)) as [v Hv].
  exists v. eexists. unfold pop_take. rewrite (ring_read k Hk _ _ _ _ _ HR) by (rewrite length_fmap; lia).
  rewrite list_lookup_fmap, Hv. cbn. split; [done|].
  split; try apply HI; cbn [q pp cc pushed popped storage_ tail_ head_ taken].
  - apply ring_take; [done|done|]. rewrite length_fmap. lia.
  - pose proof (inv_p _ _ _ HI) as Hp. destruct p; cbn in *; auto. destruct Hp as (-> & Hroom & Hs).
    split_and!; [done|done|]. rewrite list_lookup_insert_ne; [done|]. apply not_eq_sym.
    eapply (ring_no_race k Hk _ _ _ _ _ _ HR); rewrite length_fmap; [|lia].
    destruct (inv_ch _ _ _ HI) as (_ & ? & _). cbn in *. lia.
  - done.
  - intros i Hi. pose proof (cap_pos k Hk). rewrite (ring_r _ _ _ _ _ _ _ HR), slot_of_counter by done.
    destruct (decide (i = Z.of_nat (length qs) + cap)) as [->|Hne].
    + replace ((Z.of_nat (length qs) + cap) mod cap) with (Z.of_nat (length qs) mod cap)
        by (rewrite <- (Z_mod_plus_full _ 1); f_equal; lia).
      apply list_lookup_insert_eq.
      pose proof (Z.mod_pos_bound (Z.of_nat (length qs)) cap ltac:(lia)).
      pose proof (ring_len _ _ _ _ _ _ _ HR). lia.
    + rewrite list_lookup_insert_ne; [apply (inv_vacant _ _ _ HI); cbn; lia|].
      intros Heq%Z2Nat.inj; try (apply Z.mod_pos_bound; lia). apply mod_cap_inj in Heq; [lia|done|lia].
Qed.

Lemma pop_publish_inv s h v p ps qs nh nt :
  Inv (mkc s p (C_taken h v) ps qs) nh nt -> Inv (mkc (pop_publish h s) p C_idle ps (qs ++ [v])) nh nt.
Proof.
  intros HI. destruct (inv_c _ _ _ HI) as (-> & Hav & Hv). destruct (inv_ct _ _ _ HI) as [Hct Hnt].
  destruct (inv_ch _ _ _ HI) as (Hch & Hnh & Hb).
  cbn [q pp cc pushed popped taken] in *.
  split; try apply HI; cbn [q pp cc pushed popped pop_publish head_ tail_ storage_ taken];
    rewrite ?length_app; cbn [length].
  - rewrite Nat.add_0_r. eapply (ring_release k Hk); [apply HI|]. rewrite length_fmap. lia.
  - rewrite Nat.add_1_r, (take_S_r _ _ v) by done. f_equal. apply HI.
  - split_and!; [done|lia|done].
  - split; [done|lia].
  - done.
  - intros i Hi. apply (inv_vacant _ _ _ HI). cbn. lia.
Qed.

Lemma step_inv x y nh nt : step cap x y -> Inv x nh nt -> exists nh' nt', Inv y nh' nt'.
Proof.
  intros Hst HI. inversion Hst; subst;
    try match goal with
        | H : emplace_check _ _ _ = _ |- _ => destruct (emplace_check_spec _ _ _ _ _ _ _ _ _ _ HI H) as (n & HI' & _)
        | H : pop_check _ _ = _ |- _ => destruct (pop_check_spec _ _ _ _ _ _ _ _ _ HI H) as (n & HI' & _)
        end.
  - exists nh, nt. by split; try apply HI.
  - by exists n, nt.
  - by exists n, nt.
  - exists nh, nt. by apply emplace_construct_inv.
  - exists nh, nt. by apply emplace_publish_inv in HI.
  - exists nh, nt. by split; try apply HI.
  - by exists nh, n.
  - by exists nh, n.
  - destruct (pop_take_spec _ _ _ _ _ _ _ HI) as (v' & s'' & Heq & ?).
    rewrite Heq in *. simplify_eq. eauto.
  - exists nh, nt. by apply pop_publish_inv.
Qed.

Lemma spsc_reachable_inv x : rtc (step cap) (init cap) x -> exists nh nt, Inv x nh nt.
Proof.
  intros Hr. cut (forall a b, rtc (step cap) a b -> (exists nh nt, Inv a nh nt) -> exists nh nt, Inv b nh nt).
  { intros H. apply (H _ _ Hr). exists 0%nat, 0%nat. apply spsc_inv_init. }
  induction 1 as [|a b c Hab _ IH]; [done|]. intros (nh & nt & HI).
  destruct (step_inv _ _ _ _ Hab HI) as (nh' & nt' & HI'). eauto.
Qed.

(** A whole [pop] while no other call of the consumer is in progress. *)
Lemma pop_inv s p ps qs nh nt :
  Inv (mkc s p C_idle ps qs) nh nt ->
  match pop cap s with
  | (false, _, s') => ps = qs /\ exists nt', Inv (mkc s' p C_idle ps qs) nh nt'
  | (true, out, s') => exists v nt', out = Some v /\ ps !! length qs = Some v /\
                       Inv (mkc s' p C_idle ps (qs ++ [v])) nh nt'
  end.
Proof.
  intros HI. assert (Inv (mkc s p (C_loaded (head_ s)) ps qs) nh nt) as HI1 by (by split; try apply HI).
  unfold pop. destruct (pop_check (head_ s) s) as [b s1] eqn:Hc.
  destruct (pop_check_spec _ _ _ _ _ _ _ _ _ HI1 Hc) as (nt' & HI2 & He). destruct b; [|eauto].
  destruct (pop_take_spec _ _ _ _ _ _ _ HI2) as (v & s2 & -> & HI3). exists v, nt'.
  split_and!; [done| |by apply pop_publish_inv]. apply (inv_c _ _ _ HI3).
Qed.

Lemma drain_inv fuel s p ps qs nh nt :
  Inv (mkc s p C_idle ps qs) nh nt -> (length ps < length qs + fuel)%nat ->
  exists s' nt', drain cap fuel s = Some (Some <$> drop (length qs) ps, s') /\
    Inv (mkc s' p C_idle ps ps) nh nt'.
Proof.
  revert s qs nt. induction fuel as [|fuel IH]; intros s qs nt HI Hlt.
  { pose proof (ring_lo _ _ _ _ _ _ _ (inv_ring _ _ _ HI)) as Hlo. cbn in Hlo.
    rewrite length_fmap in Hlo. lia. }
  pose proof (pop_inv _ _ _ _ _ _ HI) as Hp. cbn [drain]. destruct (pop cap s) as [[[|] out] s1].
  - destruct Hp as (v & nt' & -> & Hv & HI').
    destruct (IH s1 (qs ++ [v]) nt' HI') as (s' & nt'' & -> & HI''); [rewrite length_app; cbn; lia|].
    exists s', nt''. split; [|done]. cbn [fmap option_fmap option_map prod_map id fst snd].
    by rewrite (drop_S _ _ _ Hv), length_app, Nat.add_1_r.
  - destruct Hp as (-> & nt' & HI'). exists s1, nt'. by rewrite drop_all.
Qed.

Lemma vacant_all s ps nh nt :
  Inv (mkc s P_idle C_idle ps ps) nh nt -> storage_ s = replicate (Z.to_nat cap) None.
Proof.
  intros HI. pose proof (cap_pos k Hk). pose proof (ring_len _ _ _ _ _ _ _ (inv_ring _ _ _ HI)) as Hlen.
  cbn in Hlen. apply list_eq. intros i. destruct (decide (i < Z.to_nat cap)%nat) as [Hi|Hi].
  - rewrite lookup_replicate_2 by done. set (n := Z.of_nat (length ps)).
    pose proof (inv_vacant _ _ _ HI (n + (Z.of_nat i - n) mod cap)) as Hv. cbn in Hv.
    rewrite Zplus_mod_idemp_r in Hv. replace (n + (Z.of_nat i - n)) with (Z.of_nat i) in Hv by lia.
    rewrite (Z.mod_small (Z.of_nat i)), Nat2Z.id in Hv by lia. apply Hv.
    pose proof (Z.mod_pos_bound (Z.of_nat i - n) cap ltac:(lia)). lia.
  - rewrite !lookup_ge_None_2; [done|rewrite length_replicate; lia|lia].
Qed.
End invariant.

(** ** The properties *)

(** C9. The queue is a bounded FIFO under every interleaving of one producer
    and one consumer, also when the 64-bit counters wrap around: the values
    popped so far are a prefix of the values pushed so far, and at most
    [Capacity] values are in between. *)
Theorem spsc_fifo {T} k (x : cfg T) :
  0 <= k < 64 -> rtc (step (2 ^ k)) (init (2 ^ k)) x ->
  popped x `prefix_of` pushed x /\
  Z.of_nat (length (pushed x)) <= Z.of_nat (length (popped x)) + 2 ^ k.
Proof.
  intros Hk (nh & nt & HI)%spsc_reachable_inv; [|done]. split.
  - rewrite (inv_fifo _ _ _ _ HI). apply prefix_take.
  - destruct (inv_ch _ _ _ _ HI) as (_ & ? & ?). lia.
Qed.

(** The two threads never touch the same slot at the same time, an object
    is only ever constructed in a vacant slot and taken from a slot that holds
    the oldest pushed value, [emplace] fails only when the queue holds
    [Capacity] values, and [pop] fails only when it is empty. *)
Theorem spsc_slots {T} k (x : cfg T) :
  0 <= k < 64 -> rtc (step (2 ^ k)) (init (2 ^ k)) x ->
  (forall v tl, pp x = P_ready v tl -> storage_ (q x) !! slot_of (2 ^ k) tl = Some None) /\
  (forall h, cc x = C_ready h -> exists v,
     storage_ (q x) !! slot_of (2 ^ k) h = Some (Some v) /\ pushed x !! length (popped x) = Some v) /\
  (forall v tl h, pp x = P_ready v tl -> cc x = C_ready h -> slot_of (2 ^ k) tl <> slot_of (2 ^ k) h) /\
  (forall v tl, pp x = P_loaded v tl -> (emplace_check (2 ^ k) tl (q x)).1 = false ->
     Z.of_nat (length (pushed x)) = Z.of_nat (length (popped x)) + 2 ^ k) /\
  (forall h, cc x = C_loaded h -> (pop_check h (q x)).1 = false -> pushed x = popped x).
Proof.
  intros Hk (nh & nt & HI)%spsc_reachable_inv; [|done]. destruct x as [s p c ps qs]. cbn [pp cc q pushed popped].
  pose proof (inv_ring _ _ _ _ HI) as HR. destruct (inv_ch _ _ _ _ HI) as (_ & Hnh & _).
  destruct (inv_ct _ _ _ _ HI) as [_ Hnt]. cbn [pp cc q pushed popped] in *.
  assert (forall v tl, p = P_ready v tl -> storage_ s !! slot_of (2 ^ k) tl = Some None) as Hvac.
  { intros v tl ->. destruct (inv_p _ _ _ _ HI) as [-> Hroom]. cbn in *.
    rewrite (ring_w _ _ _ _ _ _ _ HR), slot_of_counter, length_fmap by done.
    apply (inv_vacant _ _ _ _ HI). cbn. lia. }
  assert (forall h, c = C_ready h -> exists v, storage_ s !! slot_of (2 ^ k) h = Some (Some v) /\
            ps !! length qs = Some v) as Htk.
  { intros h ->. destruct (inv_c _ _ _ _ HI) as [-> Hav]. cbn in *. rewrite Nat.add_0_r in HR.
    destruct (lookup_lt_is_Some_2 ps (length qs) ltac:(lia)) as [v Hv]. exists v. split; [|done].
    rewrite (ring_read k Hk _ _ _ _ _ HR), list_lookup_fmap, Hv by (rewrite length_fmap; lia). done. }
  split_and!; [done|done| | |].
  - intros v tl h Hp Hc Heq. specialize (Hvac v tl Hp). destruct (Htk h Hc) as (w & Hw & _). congruence.
  - intros v tl -> Hf. destruct (emplace_check (2 ^ k) tl s) as [b s'] eqn:Hc.
    destruct (emplace_check_spec k Hk _ _ _ _ _ _ _ _ _ _ HI Hc) as (_ & _ & H). auto.
  - intros h -> Hf. destruct (pop_check h s) as [b s'] eqn:Hc.
    destruct (pop_check_spec k Hk _ _ _ _ _ _ _ _ _ HI Hc) as (_ & _ & H). auto.
Qed.

(** The destructor terminates and destroys every object still queued: when
    both threads are done, at most [Capacity + 1] calls of [pop] return the
    remaining values in order and leave every slot vacant. *)
Theorem spsc_destructor {T} k (x : cfg T) :
  0 <= k < 64 -> rtc (step (2 ^ k)) (init (2 ^ k)) x -> pp x = P_idle -> cc x = C_idle ->
  exists s', drain (2 ^ k) (S (Z.to_nat (2 ^ k))) (q x) =
               Some (Some <$> drop (length (popped x)) (pushed x), s') /\
             storage_ s' = replicate (Z.to_nat (2 ^ k)) None.
Proof.
  intros Hk (nh & nt & HI)%spsc_reachable_inv Hp Hc; [|done]. destruct x as [s p c ps qs]. cbn in Hp, Hc. subst.
  destruct (inv_ch _ _ _ _ HI) as (_ & Hnh & Hb). cbn in Hnh, Hb.
  destruct (drain_inv k Hk (S (Z.to_nat (2 ^ k))) s P_idle ps qs nh nt HI) as (s' & nt' & Hd & HI'); [lia|].
  exists s'. split; [done|]. by eapply vacant_all.
Qed.

(** ** Witnesses: a queue of two slots *)

Ltac run_step c := eapply rtc_l; [eapply c; reflexivity|]; vm_compute.

(** One value pushed; the second [emplace] and the first [pop] both about to
    access their slots. *)
Definition ex_mid : cfg Z :=
  mkc (mk 1 0 0 1 [Some 5; None]) (P_ready 6 1) (C_ready 0) [5] [].

Lemma ex_mid_reachable : rtc (step (2 ^ 1)) (init (2 ^ 1)) ex_mid.
Proof.
  vm_compute. eapply rtc_l; [apply (st_call _ _ _ 5)|]. vm_compute.
  run_step @st_room. eapply rtc_l; [apply st_construct|]. vm_compute.
  eapply rtc_l; [apply st_publish|]. vm_compute. eapply rtc_l; [apply (st_call _ _ _ 6)|]. vm_compute.
  eapply rtc_l; [apply st_pop|]. vm_compute. run_step @st_avail.
  eapply rtc_once, st_room. reflexivity.
Qed.

Definition ex_end : cfg Z :=
  mkc (mk 2 0 1 1 [None; Some 6]) P_idle C_idle [5; 6] [5].

Lemma ex_end_reachable : rtc (step (2 ^ 1)) (init (2 ^ 1)) ex_end.
Proof.
  etrans; [apply ex_mid_reachable|]. unfold ex_mid, ex_end.
  eapply rtc_l; [apply st_construct|]. vm_compute. run_step @st_take.
  eapply rtc_l; [apply st_publish|]. vm_compute.
  eapply rtc_l; [apply st_release|]. reflexivity.
Qed.

Lemma spsc_fifo_witness : [5] `prefix_of` [5; 6].
Proof. apply (spsc_fifo 1 ex_end ltac:(lia) ex_end_reachable). Defined.

Lemma spsc_slots_witness : slot_of (2 ^ 1) 1 <> slot_of (2 ^ 1) 0.
Proof.
  destruct (spsc_slots 1 ex_mid ltac:(lia) ex_mid_reachable) as (_ & _ & H & _).
  exact (H 6 1 0 eq_refl eq_refl).
Defined.

Lemma spsc_destructor_witness :
  exists s', drain (2 ^ 1) 3 (q ex_end) = Some ([Some 6], s') /\ storage_ s' = [None; None].
Proof. exact (spsc_destructor 1 ex_end ltac:(lia) ex_end_reachable eq_refl eq_refl). Defined.
End Spsc.
