(* ===== verification/ShmBus.v ===== *)
(** * The shared-memory IPC bus

    Model of [ShmIpcBus] (06-systems-ipc, shm_ipc_bus.hpp): a ring of
    fixed-size messages in a shared mapping, with one publishing and one
    consuming process.  The results of [shm_open], [ftruncate] and [mmap] are
    parameters of [create] and [attach].  The FIFO behaviour is obtained from
    the ring protocol by showing that the bus implements its interface. *)

From S2P Require Import Prelude Ring.

#[local] Open Scope Z_scope.
#[local] Open Scope cpp_scope.

Module Ipc.

Definition MAX_PAYLOAD : nat := 104.

Record IpcMessage := mk_msg {
  msg_id : Z; timestamp_ns : Z; msg_length : Z; payload : list Z }.

(** The pages of a new mapping are zero. *)
Definition zero_msg : IpcMessage := mk_msg 0 0 0 (replicate MAX_PAYLOAD 0).

(** The mapping: [ShmRingHeader] followed by the messages. *)
Record t := mk {
  write_index : Z; read_index : Z; capacity : Z; mask : Z; ring_ : list IpcMessage }.

Definition sizeof_ShmRingHeader : Z := 128.
Definition sizeof_IpcMessage : Z := 128.
Definition DEFAULT_CAPACITY : Z := 16384.

Definition calculate_shm_size (cap : Z) : Z :=
  sizeof_ShmRingHeader +64 (cap *64 sizeof_IpcMessage).

(** The messages that lie inside a mapping of [total_size] bytes. *)
Definition slots_in (total_size : Z) : nat := Z.to_nat ((total_size - sizeof_ShmRingHeader) / sizeof_IpcMessage).

Inductive shm_error := shm_open_failed | ftruncate_failed | mmap_failed.

(** [shm_open], [ftruncate] and [mmap] tell whether the calls succeed; whatever
    they say, [ftruncate] fails for a size that is negative as an [off_t] and
    [mmap] for the size zero. *)
Definition create (shm_open ftruncate mmap : bool) (cap : Z) : shm_error + t :=
  let total_size := calculate_shm_size cap in
  if negb shm_open then inl shm_open_failed else
  if negb ftruncate || (2 ^ 63 <=? total_size) then inl ftruncate_failed else
  if negb mmap || (total_size =? 0) then inl mmap_failed else
  inr (mk 0 0 cap (cap -64 1) (replicate (slots_in total_size) zero_msg)).

(** The attached process works on the same mapping; it passes the capacity the
    bus was created with. *)
Definition attach (shm_open mmap : bool) (s : t) : shm_error + t :=
  if negb shm_open then inl shm_open_failed else
  if negb mmap then inl mmap_failed else inr s.

(** Arguments of [publish]: id, timestamp and payload bytes. *)
Definition msg_args : Type := Z * Z * list Z.

(** The assignments to [slot]; [memcpy] leaves the rest of the payload. *)
Definition fill (m : msg_args) (slot : IpcMessage) : IpcMessage :=
  let '(id, ts, p) := m in
  let len := Nat.min (length p) MAX_PAYLOAD in
  mk_msg id ts (u32 (Z.of_nat len)) (take len p ++ drop len (payload slot)).

Definition full (w r : Z) (s : t) : bool := capacity s <=? w -64 r.

Definition write_slot (m : msg_args) (w : Z) (s : t) : t :=
  mk (write_index s) (read_index s) (capacity s) (mask s)
     (alter (fill m) (Z.to_nat (Z.land w (mask s))) (ring_ s)).

Definition store_write (w : Z) (s : t) : t :=
  mk (w +64 1) (read_index s) (capacity s) (mask s) (ring_ s).

(** [None] when the slot lies outside the mapping. *)
Definition read_slot (r : Z) (s : t) : option IpcMessage :=
  ring_ s !! Z.to_nat (Z.land r (mask s)).

(** [None] is the access outside the mapping, which is undefined. *)
Definition publish (m : msg_args) (s : t) : option (bool * t) :=
  let w := write_index s in
  let r := read_index s in
  if full w r s then Some (false, s) else
  _ ← read_slot w s; Some (true, store_write w (write_slot m w s)).

Definition store_read (r : Z) (s : t) : t :=
  mk (write_index s) (r +64 1) (capacity s) (mask s) (ring_ s).

Definition consume (s : t) : option (bool * option IpcMessage * t) :=
  let r := read_index s in
  let w := write_index s in
  if r =? w then Some (false, None, s) else
  out ← read_slot r s; Some (true, Some out, store_read r s).

(** ** The bus implements the ring interface *)

#[export] Instance ipc_ring : RingQueue t msg_args IpcMessage := {
  rq_w := write_index; rq_r := read_index; rq_slots := ring_; rq_put := fill;
  rq_full := full; rq_write := write_slot; rq_publish := store_write;
  rq_read := read_slot; rq_release := store_read }.

Definition pow2_bus (k : Z) (s : t) : Prop := capacity s = 2 ^ k /\ mask s = 2 ^ k -64 1.

Lemma ipc_laws k : 0 <= k < 64 -> RingLaws ipc_ring k (pow2_bus k).
Proof.
  intros Hk. split; [done|..]; intros s; intros; destruct s as [wi ri cp mk_ rg];
    match goal with H : pow2_bus _ _ |- _ => destruct H as [Hc Hm] end; simpl in Hc, Hm; subst; done.
Qed.

(** Up to a capacity of 2^56 the size does not wrap around: the mapping has all
    the slots. *)
Lemma ipc_create_slots cap s :
  0 < cap <= 2 ^ 56 -> create true true true cap = inr s -> s = mk 0 0 cap (cap -64 1) (replicate (Z.to_nat cap) zero_msg).
Proof.
  intros Hc. unfold create, slots_in, calculate_shm_size, sizeof_ShmRingHeader, sizeof_IpcMessage. cbn [negb orb].
  rewrite (wrap_small 64 (cap * 128)), wrap_small by lia. destruct (_ <=? _); [done|]. destruct (_ =? _); [done|]. intros [= <-].
  replace ((128 + cap * 128 - 128) / 128) with cap; [done|]. replace (128 + cap * 128 - 128) with (cap * 128) by lia. by rewrite Z.div_mul.
Qed.

Lemma ipc_pow2_small k : 0 <= k < 57 -> 0 < 2 ^ k <= 2 ^ 56.
Proof. intros Hk. split; [apply Z.pow_pos_nonneg; lia|apply Z.pow_le_mono_r; lia]. Qed.

Lemma ipc_publish_is_ring m s : publish m s = ring_publish m s.
Proof. done. Qed.

Lemma ipc_consume_is_ring s : consume s = ring_consume (M := msg_args) s.
Proof. done. Qed.

(** What a receiver reads out of a message, and what a sender means by it. *)
Definition content (y : IpcMessage) : msg_args :=
  (msg_id y, timestamp_ns y, take (Z.to_nat (msg_length y)) (payload y)).
Definition truncate (m : msg_args) : msg_args :=
  let '(id, ts, p) := m in (id, ts, take MAX_PAYLOAD p).

Lemma content_fill m old : content (fill m old) = truncate m.
Proof.
  destruct m as [[id ts] p]. unfold content, fill, truncate. cbn [msg_id timestamp_ns msg_length payload].
  assert (Nat.min (length p) MAX_PAYLOAD <= MAX_PAYLOAD)%nat by lia. unfold MAX_PAYLOAD in *.
  rewrite wrap_small, Nat2Z.id by lia.
  rewrite take_app_le, take_take, Nat.min_id by (rewrite length_take; lia). f_equal.
  destruct (decide (length p <= 104)%nat).
  - by rewrite Nat.min_l, !take_ge by lia.
  - by rewrite Nat.min_r by lia.
Qed.

(** ** The properties *)

(** C24. A bus created with a power-of-two capacity up to 2^56, for which the
    size of the mapping does not wrap around, delivers messages in order,
    exactly once and unchanged up to the documented payload limit,
    under every interleaving of the publishing and the consuming process;
    [publish] fails only when [capacity] messages are waiting, [consume] only
    when none is, and the two processes never access the same slot at once. *)
Theorem ipc_fifo k s x :
  0 <= k < 57 -> create true true true (2 ^ k) = inr s -> rtc ring_step (rinit s) x ->
  content <$> received x `prefix_of` truncate ∘ fst <$> sent x /\
  Z.of_nat (length (sent x)) <= Z.of_nat (length (received x)) + 2 ^ k /\
  (forall m w, rp x = RP_loaded m w -> full w (read_index (rq x)) (rq x) = true ->
     Z.of_nat (length (sent x)) = Z.of_nat (length (received x)) + 2 ^ k) /\
  (forall r, rc x = RC_loaded r -> (r =? write_index (rq x)) = true ->
     length (sent x) = length (received x)) /\
  (forall m w r, rp x = RP_ready m w -> rc x = RC_ready r -> slot_of (2 ^ k) w <> slot_of (2 ^ k) r).
Proof.
  intros Hk Hc Hst. pose proof (ipc_create_slots _ _ (ipc_pow2_small k Hk) Hc) as ->. pose proof (ipc_laws k ltac:(lia)) as L.
  edestruct (ring_contract k (pow2_bus k)) as (Hpre & Hput & Hcap & Hfull & Hempty & Hrace);
    [| | | |exact Hst|]; [done..|].
  split_and!; [|done|done| |done].
  - replace (truncate ∘ fst <$> sent x) with (content <$> (sent x).*2).
    { destruct Hpre as [rest ->]. rewrite fmap_app. by apply prefix_app_r. }
    rewrite <- list_fmap_compose. apply list_fmap_ext. intros i [m y] Hi%list_elem_of_lookup_2.
    destruct (Hput _ _ Hi) as [old ->]. apply content_fill.
  - intros r Hr He. specialize (Hempty r Hr He). by rewrite <- Hempty, length_fmap.
Qed.

(** [create] accepts capacities that are not powers of two, and then the
    mask selects wrong slots: for every odd capacity from 3 on, the second
    message overwrites the first before it is consumed. *)
Theorem ipc_odd_capacity_overwrites c s m1 m2 :
  3 <= c < 2 ^ 32 -> Z.odd c = true -> create true true true c = inr s ->
  exists s1 s2 y s3, publish m1 s = Some (true, s1) /\ publish m2 s1 = Some (true, s2) /\
    consume s2 = Some (true, Some y, s3) /\ content y = truncate m2.
Proof.
  intros Hc Hodd Hcr. pose proof (ipc_create_slots c _ ltac:(lia) Hcr) as ->.
  assert (c -64 1 = c - 1) as Hmask by (apply wrap_small; lia).
  assert (Z.land 1 (c - 1) = 0) as Hslot.
  { rewrite Z.land_comm. change 1 with (2 ^ 1 - 1) at 2. rewrite land_mask by lia.
    change (2 ^ 1) with 2. rewrite Zmod_even, Z.even_sub, <- Z.negb_odd, Hodd. done. }
  rewrite Hmask. unfold publish, full, read_slot. cbn [write_index read_index capacity mask ring_].
  destruct (Z.leb_spec c (0 -64 0)) as [H|_]; [change (0 -64 0) with 0 in H; lia|].
  rewrite Z.land_0_l. change (Z.to_nat 0) with 0%nat. rewrite lookup_replicate_2 by lia. cbn [mbind option_bind]. do 4 eexists. split; [done|].
  unfold store_write, write_slot. cbn [write_index read_index capacity mask ring_]. change (0 +64 1) with 1.
  destruct (Z.leb_spec c (1 -64 0)) as [H|_]; [change (1 -64 0) with 1 in H; lia|]. rewrite Hslot, Z.land_0_l. change (Z.to_nat 0) with 0%nat.
  rewrite list_lookup_alter_eq, lookup_replicate_2 by lia. cbn [fmap option_fmap option_map mbind option_bind]. split; [done|].
  unfold consume, read_slot. cbn [write_index read_index capacity mask ring_]. change (0 =? 1 +64 1) with false. cbv iota.
  rewrite Z.land_0_l. change (Z.to_nat 0) with 0%nat. rewrite !list_lookup_alter_eq, lookup_replicate_2 by lia.
  cbn [fmap option_fmap option_map mbind option_bind]. split; [done|]. apply content_fill.
Qed.

(** Nothing checks that the size fits in 64 bits: for the powers of two from
    2^57 on, [create] succeeds with a mapping of the header alone, and the
    first [publish] writes outside of it. *)
Theorem ipc_size_wraps k m :
  57 <= k < 64 -> exists s, create true true true (2 ^ k) = inr s /\ ring_ s = [] /\ publish m s = None.
Proof.
  intros Hk. assert (calculate_shm_size (2 ^ k) = 128) as Hsz.
  { unfold calculate_shm_size, sizeof_ShmRingHeader, sizeof_IpcMessage. replace (2 ^ k *64 128) with 0; [reflexivity|].
    replace (2 ^ k * 128) with (2 ^ (k - 57) * 2 ^ 64); [symmetry; apply Z.mod_mul; lia|].
    rewrite <- Z.pow_add_r by lia. change 128 with (2 ^ 7). rewrite <- Z.pow_add_r by lia. f_equal. lia. }
  unfold create. rewrite Hsz. eexists. split; [reflexivity|]. split; [reflexivity|]. unfold publish, full. cbn [write_index read_index capacity].
  change (0 -64 0) with 0. rewrite (proj2 (Z.leb_gt _ _)) by (apply Z.pow_pos_nonneg; lia). reflexivity.
Qed.

(** ** Witnesses *)

Definition ex_bus : t := mk 0 0 2 1 [zero_msg; zero_msg].
Definition ex_m1 : msg_args := (1, 10, [104; 105]).
Definition ex_m2 : msg_args := (2, 20, []).
Definition ex_cfg : rcfg t msg_args IpcMessage :=
  mkr (mk 2 1 2 1 [fill ex_m1 zero_msg; fill ex_m2 zero_msg]) RP_idle RC_idle
      [(ex_m1, fill ex_m1 zero_msg); (ex_m2, fill ex_m2 zero_msg)] [fill ex_m1 zero_msg].

Lemma ipc_ex_reachable : rtc ring_step (rinit ex_bus) ex_cfg.
Proof.
  eapply rtc_l; [apply (rs_call _ _ ex_m1)|]. eapply rtc_l; [by apply rs_room|].
  eapply rtc_l; [apply rs_write|]. eapply rtc_l; [by eapply rs_publish|].
  eapply rtc_l; [apply (rs_call _ _ ex_m2)|]. eapply rtc_l; [apply rs_consume|].
  eapply rtc_l; [by apply rs_room|]. eapply rtc_l; [by apply rs_avail|].
  eapply rtc_l; [apply rs_write|]. eapply rtc_l; [by eapply rs_read|].
  eapply rtc_l; [apply rs_release|]. eapply rtc_l; [by eapply rs_publish|]. apply rtc_refl.
Qed.

Lemma ipc_fifo_witness : [ex_m1] `prefix_of` [ex_m1; ex_m2].
Proof. apply (ipc_fifo 1 ex_bus ex_cfg ltac:(lia) eq_refl ipc_ex_reachable). Defined.

Lemma ipc_odd_capacity_overwrites_witness :
  exists s1 s2 y s3, publish ex_m1 (mk 0 0 3 2 [zero_msg; zero_msg; zero_msg]) = Some (true, s1) /\
    publish ex_m2 s1 = Some (true, s2) /\ consume s2 = Some (true, Some y, s3) /\ content y = ex_m2.
Proof. apply (ipc_odd_capacity_overwrites 3 (mk 0 0 3 2 [zero_msg; zero_msg; zero_msg]) ex_m1 ex_m2 ltac:(lia) eq_refl eq_refl). Defined.
End Ipc.
