(* ===== verification/OrderBook.v ===== *)
(** * The level-2 order book

    Model of [L2OrderBook] (12-capstone-systems, 01-shm-orderbook-feed,
    orderbook.hpp).  Prices are IEEE doubles, taken from the Standard Library's
    [spec_float] with 53 bits of precision, so comparisons treat [-0] and [+0]
    as equal and NaN as unordered, as the source's do.  The two sides are
    arrays of 32 levels with a count, and the shifting loops work on the arrays
    in place. *)

From S2P Require Import Prelude.
From Stdlib Require Import SpecFloat.

#[local] Open Scope Z_scope.

Module Book.

Inductive Side := BUY | SELL.

Definition double : Type := spec_float.
Definition dlt (a b : double) : bool := SFltb a b.
Definition deq (a b : double) : bool := SFeqb a b.
Definition dadd (a b : double) : double := SFadd 53 1024 a b.
Definition dsub (a b : double) : double := SFsub 53 1024 a b.
Definition dmul (a b : double) : double := SFmul 53 1024 a b.
Definition d0 : double := S754_zero false.
Definition d_half : double := S754_finite false 4503599627370496 (-53).

Record PriceLevel := mk_level { price : double; qty : Z; order_count : Z }.

#[export] Instance PriceLevel_inhabited : Inhabited PriceLevel := populate (mk_level d0 0 0).

Definition MAX_DEPTH : nat := 32.

(** One side: the array and the number of levels in use. *)
Record side := mk_side { levels : list PriceLevel; count : nat }.

Record t := mk { bids : side; asks : side }.

Definition empty_side : side := mk_side (replicate MAX_DEPTH inhabitant) 0.
Definition L2OrderBook : t := mk empty_side empty_side.

(** The search loop over [levels[0 .. count)]. *)
Fixpoint find_level (p : double) (l : list PriceLevel) : option nat :=
  match l with
  | [] => None
  | x :: l' => if deq (price x) p then Some 0%nat else S <$> find_level p l'
  end.

(** The loop that determines [insert_pos]. *)
Fixpoint find_pos (cmp : double -> double -> bool) (p : double) (l : list PriceLevel) : nat :=
  match l with
  | [] => 0
  | x :: l' => if cmp p (price x) then 0 else S (find_pos cmp p l')
  end.

(** [for (j = i; j + 1 < count; ++j) levels[j] = levels[j + 1]] *)
Definition shift_down (l : list PriceLevel) (i n : nat) : list PriceLevel :=
  foldl (fun l j => <[j := l !!! S j]> l) l (seq i (n - 1 - i)).

(** [for (j = limit - 1; j > pos; --j) levels[j] = levels[j - 1]] *)
Definition shift_up (l : list PriceLevel) (pos limit : nat) : list PriceLevel :=
  foldl (fun l j => <[j := l !!! (j - 1)%nat]> l) l (reverse (seq (S pos) (limit - 1 - pos))).

Definition update_side (cmp : double -> double -> bool) (p : double) (q cnt : Z) (s : side) : side :=
  match find_level p (take (count s) (levels s)) with
  | Some i =>
      if q =? 0 then mk_side (shift_down (levels s) i (count s)) (count s - 1)
      else mk_side (alter (fun x => mk_level (price x) q cnt) i (levels s)) (count s)
  | None =>
      if q =? 0 then s else
      let pos := find_pos cmp p (take (count s) (levels s)) in
      if (pos <? MAX_DEPTH)%nat then
        let limit := Nat.min (count s + 1) MAX_DEPTH in
        let l := <[pos := mk_level p q cnt]> (shift_up (levels s) pos limit) in
        mk_side l (if (count s <? MAX_DEPTH)%nat then count s + 1 else count s)
      else s
  end.

Definition gt (a b : double) : bool := dlt b a.

Definition update_level (sd : Side) (p : double) (q cnt : Z) (s : t) : t :=
  match sd with
  | BUY => mk (update_side gt p q cnt (bids s)) (asks s)
  | SELL => mk (bids s) (update_side dlt p q cnt (asks s))
  end.

Definition best_bid (s : t) : option PriceLevel :=
  if (count (bids s) =? 0)%nat then None else Some (levels (bids s) !!! 0%nat).
Definition best_ask (s : t) : option PriceLevel :=
  if (count (asks s) =? 0)%nat then None else Some (levels (asks s) !!! 0%nat).

Definition mid_price (s : t) : double :=
  let b := price (levels (bids s) !!! 0%nat) in
  let a := price (levels (asks s) !!! 0%nat) in
  if ((0 <? count (bids s)) && (0 <? count (asks s)))%nat then dmul (dadd b a) d_half
  else if (0 <? count (bids s))%nat then b
  else if (0 <? count (asks s))%nat then a
  else d0.

Definition spread (s : t) : double :=
  if ((0 <? count (bids s)) && (0 <? count (asks s)))%nat
  then dsub (price (levels (asks s) !!! 0%nat)) (price (levels (bids s) !!! 0%nat)) else d0.

Definition bid_depth (s : t) : nat := count (bids s).
Definition ask_depth (s : t) : nat := count (asks s).

Definition clear (s : t) : t :=
  mk (mk_side (levels (bids s)) 0) (mk_side (levels (asks s)) 0).

(** ** Doubles other than NaN are totally ordered *)

Definition not_nan (a : double) : Prop := a <> S754_nan.

(** A key whose lexicographic order is the order of the comparison. *)
Definition rank (a : double) : Z * Z * Z :=
  match a with
  | S754_nan => (3, 0, 0)
  | S754_infinity true => (-2, 0, 0)
  | S754_finite true m e => (-1, - e, - Z.pos m)
  | S754_zero _ => (0, 0, 0)
  | S754_finite false m e => (1, e, Z.pos m)
  | S754_infinity false => (2, 0, 0)
  end.

Definition key_lt (x y : Z * Z * Z) : Prop :=
  let '(a1, b1, c1) := x in let '(a2, b2, c2) := y in
  a1 < a2 \/ a1 = a2 /\ (b1 < b2 \/ b1 = b2 /\ c1 < c2).

Lemma dlt_rank a b : not_nan a -> not_nan b -> dlt a b = true <-> key_lt (rank a) (rank b).
Proof.
  intros Ha Hb. unfold dlt, SFltb.
  destruct a as [sa|[]| |[] ma ea], b as [sb|[]| |[] mb eb]; try done;
    cbn -[Z.opp]; try (split; [done|lia]); try (split; [lia|done]); try lia;
    change (PosDef.Pos.compare_cont Eq ma mb) with (Pos.compare ma mb);
    destruct (Z.compare_spec ea eb), (Pos.compare_spec ma mb); cbn -[Z.opp]; split; lia || done.
Qed.

Lemma deq_rank a b : not_nan a -> not_nan b -> deq a b = true <-> rank a = rank b.
Proof.
  intros Ha Hb. unfold deq, SFeqb.
  destruct a as [sa|[]| |[] ma ea], b as [sb|[]| |[] mb eb]; try done;
    cbn -[Z.opp]; try done; try (split; [done|intros; simplify_eq]);
    change (PosDef.Pos.compare_cont Eq ma mb) with (Pos.compare ma mb);
    destruct (Z.compare_spec ea eb), (Pos.compare_spec ma mb); cbn -[Z.opp];
    split; intros Heq; try discriminate Heq; try done; try congruence;
    injection Heq; intros; exfalso; lia.
Qed.

(** Both comparators order prices by their key, best price first. *)
Class PriceOrder (cmp : double -> double -> bool) (lt : Z * Z * Z -> Z * Z * Z -> Prop) := {
  po_irrefl x : ~ lt x x;
  po_trans x y z : lt x y -> lt y z -> lt x z;
  po_total x y : lt x y \/ x = y \/ lt y x;
  po_cmp a b : not_nan a -> not_nan b -> cmp a b = true <-> lt (rank a) (rank b) }.

#[export] Instance ask_order : PriceOrder dlt key_lt.
Proof.
  split; [..|apply dlt_rank]; repeat intros [[??]?]; cbn; try lia.
  destruct (decide (z = z2)), (decide (z0 = z3)), (decide (z1 = z4)); subst; auto; lia.
Qed.

#[export] Instance bid_order : PriceOrder gt (flip key_lt).
Proof.
  split; unfold flip.
  - apply (po_irrefl (cmp := dlt)).
  - intros x y z Hxy Hyz. by eapply (po_trans (cmp := dlt)).
  - intros x y. destruct (po_total (cmp := dlt) x y) as [?|[?|?]]; auto.
  - intros a b Ha Hb. by apply dlt_rank.
Qed.

(** ** The array loops *)

Lemma shift_down_lookup (l : list PriceLevel) i m j :
  (i + m < length l)%nat ->
  foldl (fun l j => <[j := l !!! S j]> l) l (seq i m) !! j =
  if decide (i <= j < i + m)%nat then l !! S j else l !! j.
Proof.
  revert l i. induction m as [|m IH]; intros l i Hl; cbn [seq foldl]; [case_decide; [lia|done]|].
  rewrite IH by (rewrite length_insert; lia).
  destruct (lookup_lt_is_Some_2 l (S i) ltac:(lia)) as [x Hx].
  rewrite (list_lookup_total_correct _ _ _ Hx).
  destruct (decide (j = i)) as [->|Hne].
  - rewrite decide_False, decide_True, list_lookup_insert_eq by lia. done.
  - repeat case_decide; try lia; by rewrite list_lookup_insert_ne by lia.
Qed.

Lemma shift_up_lookup (l : list PriceLevel) pos m j :
  (pos + m < length l)%nat ->
  foldl (fun l j => <[j := l !!! (j - 1)%nat]> l) l (reverse (seq (S pos) m)) !! j =
  if decide (pos < j <= pos + m)%nat then l !! (j - 1)%nat else l !! j.
Proof.
  revert l. induction m as [|m IH]; intros l Hl; [cbn; case_decide; [lia|done]|].
  rewrite seq_S, reverse_app. cbn [reverse rev_append app foldl].
  change (reverse [(S pos + m)%nat]) with [(S pos + m)%nat]. cbn [app foldl].
  rewrite IH by (rewrite length_insert; lia).
  destruct (lookup_lt_is_Some_2 l (S pos + m - 1)%nat ltac:(lia)) as [x Hx].
  rewrite (list_lookup_total_correct _ _ _ Hx).
  destruct (decide (j = S pos + m)%nat) as [->|Hne].
  - rewrite decide_False, decide_True, list_lookup_insert_eq by lia. done.
  - repeat case_decide; try lia; by rewrite list_lookup_insert_ne by lia.
Qed.

Definition view (s : side) : list PriceLevel := take (count s) (levels s).

Lemma shift_down_view l n l1 x l2 :
  (n <= length l)%nat -> take n l = l1 ++ x :: l2 ->
  take (n - 1) (shift_down l (length l1) n) = l1 ++ l2.
Proof.
  intros Hn Hv. pose proof (f_equal length Hv) as Hlen.
  rewrite length_take, length_app in Hlen. cbn in Hlen. apply list_eq. intros j.
  assert (forall i, (i < n)%nat -> l !! i = (l1 ++ x :: l2) !! i) as Hl
    by (intros i Hi; rewrite <- Hv; symmetry; by apply lookup_take_lt).
  destruct (decide (j < n - 1)%nat) as [Hj|Hj].
  - rewrite lookup_take_lt by done. unfold shift_down. rewrite shift_down_lookup by lia.
    case_decide.
    + rewrite Hl, !lookup_app_r by lia.
      replace (S j - length l1)%nat with (S (j - length l1)) by lia. done.
    + rewrite Hl, !lookup_app_l by lia. done.
  - rewrite lookup_take_ge by lia. symmetry. apply lookup_ge_None_2. rewrite length_app. lia.
Qed.

Lemma shift_up_view l n l1 l2 y :
  (n <= length l)%nat -> (length l1 < length l)%nat -> take n l = l1 ++ l2 ->
  let limit := Nat.min (n + 1) (length l) in
  take limit (<[length l1 := y]> (shift_up l (length l1) limit)) = take (length l) (l1 ++ y :: l2).
Proof.
  intros Hn Hl1 Hv limit. pose proof (f_equal length Hv) as Hlen.
  rewrite length_take, length_app in Hlen. apply list_eq. intros j.
  assert (forall i, (i < n)%nat -> l !! i = (l1 ++ l2) !! i) as Hl
    by (intros i Hi; rewrite <- Hv; symmetry; by apply lookup_take_lt).
  assert (length (shift_up l (length l1) limit) = length l) as Hsl.
  { unfold shift_up. generalize (reverse (seq (S (length l1)) (limit - 1 - length l1))). intros js.
    clear. revert l. induction js as [|j js IH]; intros l; cbn; [done|]. by rewrite IH, length_insert. }
  destruct (decide (j < limit)%nat) as [Hj|Hj].
  - rewrite !lookup_take_lt by lia. destruct (decide (j = length l1)) as [->|Hne].
    { rewrite list_lookup_insert_eq by lia. by rewrite list_lookup_middle. }
    rewrite list_lookup_insert_ne by done. unfold shift_up. rewrite shift_up_lookup by lia.
    case_decide.
    + rewrite Hl, !lookup_app_r by lia. destruct j as [|j]; [lia|].
      replace (S j - length l1)%nat with (S (j - length l1)) by lia. cbn. f_equal. lia.
    + rewrite Hl, !lookup_app_l by lia. done.
  - rewrite lookup_take_ge by lia. symmetry. apply lookup_ge_None_2.
    rewrite length_take, length_app. cbn. lia.
Qed.

Lemma find_level_Some p l i :
  find_level p l = Some i ->
  exists l1 x l2, l = l1 ++ x :: l2 /\ length l1 = i /\ deq (price x) p = true.
Proof.
  revert i. induction l as [|y l IH]; intros i Hf; cbn in Hf; [done|].
  destruct (deq (price y) p) eqn:Hd; simplify_eq; [by exists [], y, l|].
  destruct (find_level p l) as [i'|]; simplify_eq/=.
  destruct (IH i' eq_refl) as (l1 & x & l2 & -> & <- & ?). by exists (y :: l1), x, l2.
Qed.

Lemma find_level_None p l x : find_level p l = None -> x ∈ l -> deq (price x) p = false.
Proof.
  induction l as [|y l IH]; cbn; [intros _ []%not_elem_of_nil|].
  destruct (deq (price y) p) eqn:Hd; [done|]. intros Hf%fmap_None [->|Hx]%elem_of_cons; auto.
Qed.

Lemma find_pos_split cmp p l :
  exists l1 l2, l = l1 ++ l2 /\ length l1 = find_pos cmp p l /\
    (forall x, x ∈ l1 -> cmp p (price x) = false) /\
    (forall x, head l2 = Some x -> cmp p (price x) = true).
Proof.
  induction l as [|y l (l1 & l2 & -> & Hlen & H1 & H2)]; cbn.
  { exists [], []. split_and!; [done|done| |done]. by intros x ?%not_elem_of_nil. }
  destruct (cmp p (price y)) eqn:Hc.
  - exists [], (y :: l1 ++ l2). split_and!; [done|done|by intros x ?%not_elem_of_nil|].
    intros x Hx. by simplify_eq/=.
  - exists (y :: l1), l2. split_and!; [done|cbn; by rewrite Hlen| |done].
    intros x [->|Hx]%elem_of_cons; auto.
Qed.

(** ** A side as a finite map from prices to quantities *)

Definition kv (x : PriceLevel) : (Z * Z * Z) * (Z * Z) := (rank (price x), (qty x, order_count x)).
Definition levels_map (v : list PriceLevel) : gmap (Z * Z * Z) (Z * Z) := list_to_map (kv <$> v).

Definition spec_update (p : double) (q cnt : Z) (m : gmap (Z * Z * Z) (Z * Z)) : gmap (Z * Z * Z) (Z * Z) :=
  if q =? 0 then delete (rank p) m else <[rank p := (q, cnt)]> m.

Section order.
Context {cmp : double -> double -> bool} {lt : Z * Z * Z -> Z * Z * Z -> Prop} {PO : PriceOrder cmp lt}.

Definition better (x y : PriceLevel) : Prop := lt (rank (price x)) (rank (price y)).

(** A sound level of the book. *)
Definition level_ok (x : PriceLevel) : Prop := not_nan (price x) /\ qty x <> 0.

Record side_ok (s : side) : Prop := {
  so_len : length (levels s) = MAX_DEPTH;
  so_count : (count s <= MAX_DEPTH)%nat;
  so_sorted : StronglySorted better (view s);
  so_levels : Forall level_ok (view s) }.

Lemma sorted_NoDup v : StronglySorted better v -> NoDup (kv <$> v).*1.
Proof.
  induction 1 as [|x v _ IH Hx]; [constructor|]. cbn. apply NoDup_cons. split; [|done].
  intros Hin. rewrite <- list_fmap_compose in Hin. apply list_elem_of_fmap in Hin as (y & Heq & Hy).
  rewrite Forall_forall in Hx. specialize (Hx y Hy). unfold better in Hx. cbn in Heq.
  rewrite Heq in Hx. by apply po_irrefl in Hx.
Qed.

Lemma levels_map_middle l1 x l2 :
  StronglySorted better (l1 ++ x :: l2) ->
  levels_map (l1 ++ x :: l2) = <[rank (price x) := (qty x, order_count x)]> (levels_map (l1 ++ l2)) /\
  levels_map (l1 ++ l2) !! rank (price x) = None.
Proof.
  intros Hs. pose proof (sorted_NoDup _ Hs) as Hnd. unfold levels_map. split.
  - rewrite (list_to_map_proper (kv <$> l1 ++ x :: l2) (kv <$> x :: l1 ++ l2)); [done|done|].
    by rewrite <- Permutation_middle.
  - apply not_elem_of_list_to_map_1. rewrite <- Permutation_middle in Hnd.
    cbn in Hnd. by apply NoDup_cons in Hnd as [? _].
Qed.

Lemma sorted_delete l1 x l2 : StronglySorted better (l1 ++ x :: l2) -> StronglySorted better (l1 ++ l2).
Proof.
  intros (Hx & H1 & H2)%StronglySorted_app. apply StronglySorted_inv in H2 as [H2 _].
  apply StronglySorted_app. split_and!; [|done|done]. intros. apply Hx; [done|by right].
Qed.

Lemma sorted_replace l1 x y l2 :
  price x = price y -> StronglySorted better (l1 ++ x :: l2) -> StronglySorted better (l1 ++ y :: l2).
Proof.
  intros Hp (Hx & H1 & H2)%StronglySorted_app. apply StronglySorted_inv in H2 as [H2 Hf].
  apply StronglySorted_app. split_and!; [|done|].
  - intros a b Ha [->|Hb]%elem_of_cons; [|apply Hx; [done|by right]].
    unfold better. rewrite <- Hp. apply Hx; [done|left].
  - constructor; [done|]. unfold better in *. by rewrite <- Hp.
Qed.

(** The position the insertion loop finds is the right one. *)
Lemma sorted_insert l1 y l2 :
  not_nan (price y) -> Forall level_ok (l1 ++ l2) -> StronglySorted better (l1 ++ l2) ->
  (forall x, x ∈ l1 ++ l2 -> deq (price x) (price y) = false) ->
  (forall x, x ∈ l1 -> cmp (price y) (price x) = false) ->
  (forall x, head l2 = Some x -> cmp (price y) (price x) = true) ->
  StronglySorted better (l1 ++ y :: l2).
Proof.
  intros Hy Hok Hs Hne H1 H2. rewrite Forall_forall in Hok.
  apply StronglySorted_app in Hs as (Hx & Hs1 & Hs2). apply StronglySorted_app. split_and!; [|done|].
  - intros a b Ha Hb.
    assert (better a y) as Hay.
    { destruct (Hok a) as [Hna _]; [apply elem_of_app; by left|]. specialize (H1 a Ha).
      specialize (Hne a ltac:(apply elem_of_app; by left)). unfold better.
      destruct (po_total (rank (price a)) (rank (price y))) as [?|[Heq|Hlt]]; [done| |].
      - apply deq_rank in Heq; [congruence|done|done].
      - apply (po_cmp (cmp := cmp)) in Hlt; [congruence|done|done]. }
    apply elem_of_cons in Hb as [->|Hb]; [done|]. by apply Hx.
  - constructor; [done|]. destruct l2 as [|z l2]; [constructor|].
    assert (better y z) as Hyz.
    { apply (po_cmp (cmp := cmp)); [done| |by apply H2]. apply Hok, elem_of_app. right. left. }
    constructor; [done|]. apply StronglySorted_inv in Hs2 as [_ Hz]. eapply Forall_impl; [exact Hz|].
    intros w Hw. unfold better in *. by eapply po_trans.
Qed.

Lemma StronglySorted_take n v : StronglySorted better v -> StronglySorted better (take n v).
Proof. rewrite <- (take_drop n v) at 1. by intros (_ & ? & _)%StronglySorted_app. Qed.
(** What an update does to a side, the level it may push off the end included. *)
Definition update_post (p : double) (q cnt : Z) (s s' : side) : Prop :=
  side_ok s' /\ exists dropped,
    StronglySorted better (view s' ++ dropped) /\
    levels_map (view s' ++ dropped) = spec_update p q cnt (levels_map (view s)) /\
    (dropped = [] \/ count s' = MAX_DEPTH /\ length dropped = 1%nat).

Lemma update_remove p cnt s l1 x l2 :
  side_ok s -> view s = l1 ++ x :: l2 -> rank (price x) = rank p ->
  update_post p 0 cnt s (mk_side (shift_down (levels s) (length l1) (count s)) (count s - 1)).
Proof.
  intros [Hlen Hc Hs Hok] Hv Hr. rewrite Hv in Hs, Hok.
  assert (view (mk_side (shift_down (levels s) (length l1) (count s)) (count s - 1)) = l1 ++ l2) as Hv'.
  { unfold view. cbn. apply (shift_down_view _ _ _ x); [lia|done]. }
  pose proof (sorted_delete _ _ _ Hs) as Hs'. destruct (levels_map_middle _ _ _ Hs) as [Hm Hnone]. split.
  - split; rewrite ?Hv'; cbn [levels count]; [|lia|done|].
    + unfold shift_down. rewrite <- Hlen. generalize (seq (length l1) (count s - 1 - length l1)).
      generalize (levels s). intros l js. revert l. induction js as [|j js IH]; intros l; cbn; [done|].
      by rewrite IH, length_insert.
    + apply Forall_app in Hok as [? Hok2]. apply Forall_cons in Hok2 as [_ ?]. by apply Forall_app.
  - exists []. rewrite app_nil_r, Hv'. split_and!; [done| |by left].
    unfold spec_update. cbn. rewrite Hv, Hm, <- Hr. by rewrite delete_insert_id.
Qed.

Lemma update_replace p q cnt s l1 x l2 :
  side_ok s -> q <> 0 -> view s = l1 ++ x :: l2 -> rank (price x) = rank p ->
  update_post p q cnt s
    (mk_side (alter (fun x => mk_level (price x) q cnt) (length l1) (levels s)) (count s)).
Proof.
  intros [Hlen Hc Hs Hok] Hq Hv Hr. rewrite Hv in Hs, Hok.
  set (y := mk_level (price x) q cnt).
  assert (view (mk_side (alter (fun x => mk_level (price x) q cnt) (length l1) (levels s)) (count s))
          = l1 ++ y :: l2) as Hv'.
  { unfold view in *. cbn. pose proof (f_equal length Hv) as Hl.
    rewrite length_take, length_app in Hl. cbn in Hl.
    by rewrite take_alter, decide_True, Hv, alter_app_r_alt, Nat.sub_diag by lia. }
  assert (StronglySorted better (l1 ++ y :: l2)) as Hs' by (by eapply sorted_replace; [|exact Hs]).
  destruct (levels_map_middle _ _ _ Hs) as [Hm _]. destruct (levels_map_middle _ _ _ Hs') as [Hm' _]. split.
  - split; rewrite ?Hv'; cbn [levels count]; [by rewrite length_alter|done|done|].
    apply Forall_app in Hok as [? Hok2]. apply Forall_cons in Hok2 as [[Hnan _] ?]. apply Forall_app.
    split; [done|]. constructor; [by split|done].
  - exists []. rewrite app_nil_r, Hv'. split_and!; [done| |by left].
    unfold spec_update. destruct (Z.eqb_spec q 0); [done|]. rewrite Hv, Hm, Hm'. cbn. rewrite <- Hr.
    by rewrite insert_insert_eq.
Qed.

Lemma update_insert p q cnt s :
  side_ok s -> not_nan p -> q <> 0 -> find_level p (view s) = None ->
  let pos := find_pos cmp p (view s) in
  let limit := Nat.min (count s + 1) MAX_DEPTH in
  (pos < MAX_DEPTH)%nat ->
  update_post p q cnt s
    (mk_side (<[pos := mk_level p q cnt]> (shift_up (levels s) pos limit))
             (if (count s <? MAX_DEPTH)%nat then count s + 1 else count s)).
Proof.
  intros [Hlen Hc Hs Hok] Hp Hq Hf pos limit Hpos. set (y := mk_level p q cnt).
  destruct (find_pos_split cmp p (view s)) as (l1 & l2 & Hv & Hl1 & H1 & H2). fold pos in Hl1. rewrite <- Hl1 in *.
  assert (length (l1 ++ l2) = count s) as Hcnt by (rewrite <- Hv; unfold view; rewrite length_take; lia).
  assert ((if (count s <? MAX_DEPTH)%nat then count s + 1 else count s)%nat = limit) as Hlim.
  { unfold limit. destruct (Nat.ltb_spec (count s) MAX_DEPTH); lia. }
  set (s' := mk_side _ _).
  assert (view s' = take MAX_DEPTH (l1 ++ y :: l2)) as Hv'.
  { unfold view, s'. cbn [levels count]. rewrite Hlim. unfold limit. rewrite <- Hlen.
    apply shift_up_view; [lia|lia|done]. }
  assert (StronglySorted better (l1 ++ y :: l2)) as Hs'.
  { rewrite Hv in Hs, Hok, Hf. apply sorted_insert; try done. intros x Hx. by eapply find_level_None. }
  assert (Forall level_ok (l1 ++ y :: l2)) as Hok'.
  { rewrite Hv in Hok. apply Forall_app in Hok as [? ?]. apply Forall_app. split; [done|]. by constructor. }
  destruct (levels_map_middle _ _ _ Hs') as [Hm _]. split.
  - split; rewrite ?Hv'; cbn [levels count s'].
    + rewrite length_insert. unfold shift_up. rewrite <- Hlen. generalize (levels s).
      generalize (reverse (seq (S (length l1)) (limit - 1 - length l1))).
      intros js. induction js as [|j js IH]; intros l; cbn; [done|]. by rewrite IH, length_insert.
    + rewrite Hlim. lia.
    + by apply StronglySorted_take.
    + by apply Forall_take.
  - exists (drop MAX_DEPTH (l1 ++ y :: l2)). rewrite Hv', take_drop. split_and!; [done| |].
    + unfold spec_update. destruct (Z.eqb_spec q 0); [done|]. by rewrite Hm, Hv.
    + rewrite length_app in Hcnt. cbn [count s']. rewrite Hlim.
      destruct (decide (count s < MAX_DEPTH)%nat).
      * left. apply drop_ge. rewrite length_app. cbn. lia.
      * right. rewrite length_drop, length_app. cbn [length]. lia.
Qed.

(** A full side and a price worse than all of its levels. *)
Lemma update_ignore p q cnt s :
  side_ok s -> not_nan p -> q <> 0 -> find_level p (view s) = None ->
  (MAX_DEPTH <= find_pos cmp p (view s))%nat -> update_post p q cnt s s.
Proof.
  intros [Hlen Hc Hs Hok] Hp Hq Hf Hge. split; [done|].
  destruct (find_pos_split cmp p (view s)) as (l1 & l2 & Hv & Hl1 & H1 & H2).
  assert (length (view s) = count s) as Hcnt by (unfold view; rewrite length_take; lia).
  rewrite Hv, length_app in Hcnt. destruct l2 as [|z l2]; [|cbn in Hcnt; lia]. cbn in Hcnt.
  rewrite app_nil_r in Hv. exists [mk_level p q cnt].
  assert (StronglySorted better (l1 ++ [mk_level p q cnt])) as Hs'.
  { rewrite Hv in *. apply sorted_insert; rewrite ?app_nil_r; try done.
    intros x Hx. by eapply find_level_None. }
  destruct (levels_map_middle _ _ _ Hs') as [Hm _]. rewrite Hv. split_and!; [done| |right; split; [lia|done]].
  unfold spec_update. destruct (Z.eqb_spec q 0); [done|]. by rewrite Hm, app_nil_r.
Qed.

Lemma update_side_spec p q cnt s :
  side_ok s -> not_nan p -> update_post p q cnt s (update_side cmp p q cnt s).
Proof.
  intros Hok Hp. unfold update_side. fold (view s). destruct (find_level p (view s)) as [i|] eqn:Hf.
  - destruct (find_level_Some _ _ _ Hf) as (l1 & x & l2 & Hv & <- & Hd).
    pose proof (so_levels _ Hok) as Hl. rewrite Hv in Hl. apply Forall_app in Hl as [_ Hl].
    apply Forall_cons in Hl as [[Hx _] _]. apply deq_rank in Hd; [|done|done].
    destruct (Z.eqb_spec q 0) as [->|Hq]; [by eapply update_remove|by eapply update_replace].
  - assert (levels_map (view s) !! rank p = None) as Hnone.
    { apply not_elem_of_list_to_map_1. rewrite <- list_fmap_compose.
      intros (x & Heq & Hx)%list_elem_of_fmap. pose proof (find_level_None _ _ _ Hf Hx) as Hd.
      pose proof (so_levels _ Hok) as Hl. rewrite Forall_forall in Hl. destruct (Hl x Hx) as [Hnx _].
      cbn in Heq. symmetry in Heq. apply deq_rank in Heq; congruence. }
    destruct (Z.eqb_spec q 0) as [->|Hq].
    { split; [done|]. exists []. rewrite app_nil_r. split_and!; [apply Hok| |by left].
      unfold spec_update. cbn. by rewrite delete_id. }
    destruct (Nat.ltb_spec (find_pos cmp p (view s)) MAX_DEPTH) as [Hlt|Hge]; [by apply update_insert|].
    by apply update_ignore.
Qed.
Lemma sorted_map_size v : StronglySorted better v -> size (levels_map v) = length v.
Proof.
  intros Hs%sorted_NoDup. unfold levels_map.
  rewrite <- (length_map_to_list (list_to_map (kv <$> v) : gmap _ _)).
  by rewrite map_to_list_to_map, length_fmap.
Qed.

Lemma side_ok_empty l : length l = MAX_DEPTH -> side_ok (mk_side l 0).
Proof. intros Hl. split; cbn; [done|lia|constructor|constructor]. Qed.

(** Without overflow the update is the update of the map. *)
Lemma update_side_exact p q cnt s :
  side_ok s -> not_nan p ->
  (size (spec_update p q cnt (levels_map (view s))) <= MAX_DEPTH)%nat ->
  levels_map (view (update_side cmp p q cnt s)) = spec_update p q cnt (levels_map (view s)).
Proof.
  intros Hok Hp Hsz. destruct (update_side_spec p q cnt s Hok Hp) as [[Hlen Hc Hs _] (d & Hsd & Hm & Hd)].
  destruct Hd as [->|[Hfull Hd]]; [by rewrite app_nil_r in Hm|exfalso].
  rewrite <- Hm, sorted_map_size, length_app, Hd in Hsz by done. unfold view in Hsz.
  rewrite length_take in Hsz. lia.
Qed.

(** The first level is the best one. *)
Lemma best_level s x :
  side_ok s -> (0 < count s)%nat -> levels s !!! 0%nat = x ->
  levels_map (view s) !! rank (price x) = Some (qty x, order_count x) /\
  (forall k v, levels_map (view s) !! k = Some v -> k = rank (price x) \/ lt (rank (price x)) k).
Proof.
  intros [Hlen Hc Hs Hok] Hpos Hx. assert (view s = x :: take (count s - 1) (tail (levels s))) as Hv.
  { unfold view. subst x. destruct (levels s) as [|y l]; [cbn in Hlen; done|].
    destruct (count s); [lia|]. cbn. by rewrite Nat.sub_0_r. }
  rewrite Hv in *. split; [cbn; apply lookup_insert_eq|]. intros k v Hk.
  apply elem_of_list_to_map_2 in Hk. apply list_elem_of_fmap in Hk as (y & Heq & Hy). injection Heq as -> _.
  apply elem_of_cons in Hy as [->|Hy]; [by left|right].
  apply StronglySorted_inv in Hs as [_ Hf]. rewrite Forall_forall in Hf. by apply Hf.
Qed.
End order.
#[global] Arguments side_ok : clear implicits.
#[global] Arguments update_post : clear implicits.
#[global] Arguments better : clear implicits.

(** ** Histories of the whole book *)

Inductive op := Update (sd : Side) (p : double) (q cnt : Z) | Clear.

Definition exec (s : t) (o : op) : t :=
  match o with Update sd p q cnt => update_level sd p q cnt s | Clear => clear s end.

Definition op_ok (o : op) : Prop := match o with Update _ p _ _ => not_nan p | Clear => True end.

(** The abstract book: one finite map per side. *)
Definition spec_book : Type := gmap (Z * Z * Z) (Z * Z) * gmap (Z * Z * Z) (Z * Z).

Definition spec_exec (m : spec_book) (o : op) : spec_book :=
  match o with
  | Update BUY p q cnt => (spec_update p q cnt m.1, m.2)
  | Update SELL p q cnt => (m.1, spec_update p q cnt m.2)
  | Clear => (∅, ∅)
  end.

Definition book_map (s : t) : spec_book := (levels_map (view (bids s)), levels_map (view (asks s))).
Definition book_ok (s : t) : Prop := side_ok (flip key_lt) (bids s) /\ side_ok key_lt (asks s).

Lemma exec_ok s o : book_ok s -> op_ok o -> book_ok (exec s o).
Proof.
  intros [Hb Ha] Ho. destruct o as [[] p q cnt|]; cbn in *.
  - split; [|done]. by apply (update_side_spec (cmp := gt)).
  - split; [done|]. by apply (update_side_spec (cmp := dlt)).
  - split; apply side_ok_empty; [apply Hb|apply Ha].
Qed.

Lemma run_ok ops s : book_ok s -> Forall op_ok ops -> book_ok (foldl exec s ops).
Proof.
  revert s. induction ops as [|o ops IH]; intros s Hs Ho; [done|].
  apply Forall_cons in Ho as [Ho Hos]. by apply IH; [apply exec_ok|].
Qed.

Lemma init_ok : book_ok L2OrderBook.
Proof. split; by apply side_ok_empty. Qed.

Definition fits (m : spec_book) : Prop := (size m.1 <= MAX_DEPTH)%nat /\ (size m.2 <= MAX_DEPTH)%nat.

Lemma exec_exact s o :
  book_ok s -> op_ok o -> fits (spec_exec (book_map s) o) -> book_map (exec s o) = spec_exec (book_map s) o.
Proof.
  intros [Hb Ha] Ho [Hf1 Hf2]. destruct o as [[] p q cnt|]; cbn in *; unfold book_map; cbn.
  - by rewrite (update_side_exact (cmp := gt)).
  - by rewrite (update_side_exact (cmp := dlt)).
  - done.
Qed.

(** ** The properties *)

(** C21. The in-place array updates implement a pair of finite maps from
    prices to quantities: after any history of updates and clears in which no
    side ever needs more than 32 levels, each side lists exactly the map that
    the same history builds, best price first and without empty levels. *)
Theorem book_refines ops :
  Forall op_ok ops ->
  (forall n, fits (foldl spec_exec (∅, ∅) (take n ops))) ->
  let s := foldl exec L2OrderBook ops in
  book_map s = foldl spec_exec (∅, ∅) ops /\ book_ok s.
Proof.
  intros Hops Hfit s. split; [|apply run_ok; [apply init_ok|done]]. unfold s. clear s.
  induction ops as [|o ops IH] using rev_ind; [done|].
  apply Forall_app in Hops as [Hops Ho]. apply Forall_cons in Ho as [Ho _].
  assert (forall n, fits (foldl spec_exec (∅, ∅) (take n ops))) as Hfit'.
  { intros n. specialize (Hfit (Nat.min n (length ops))).
    rewrite take_app_le, <- take_take, firstn_all in Hfit by lia. done. }
  rewrite !foldl_app. cbn [foldl]. rewrite <- (IH Hops Hfit').
  apply exec_exact; [apply run_ok; [apply init_ok|done]|done|].
  rewrite (IH Hops Hfit'). specialize (Hfit (length ops + 1)%nat).
  by rewrite take_ge, foldl_app in Hfit by (rewrite length_app; done).
Qed.

(** Every update keeps the book well formed also when a side is full:
    the other side is untouched, and the updated side holds the best 32
    levels of the updated map; at most one level, the worst, is dropped, and
    only when the side is full. *)
Theorem book_update sd p q cnt s :
  book_ok s -> not_nan p ->
  let s' := update_level sd p q cnt s in
  book_ok s' /\
  match sd with
  | BUY => asks s' = asks s /\ update_post (flip key_lt) p q cnt (bids s) (bids s')
  | SELL => bids s' = bids s /\ update_post key_lt p q cnt (asks s) (asks s')
  end.
Proof.
  intros Hok Hp s'. split; [by apply (exec_ok s (Update sd p q cnt))|].
  destruct Hok as [Hb Ha], sd; split; try done; by apply update_side_spec.
Qed.

(** [best_bid] is the highest bid and [best_ask] the lowest ask of the
    book, and each is absent exactly when its side is empty. *)
Theorem book_best s :
  book_ok s ->
  match best_bid s with
  | None => levels_map (view (bids s)) = ∅
  | Some x => levels_map (view (bids s)) !! rank (price x) = Some (qty x, order_count x) /\
      forall k v, levels_map (view (bids s)) !! k = Some v -> k = rank (price x) \/ key_lt k (rank (price x))
  end /\
  match best_ask s with
  | None => levels_map (view (asks s)) = ∅
  | Some x => levels_map (view (asks s)) !! rank (price x) = Some (qty x, order_count x) /\
      forall k v, levels_map (view (asks s)) !! k = Some v -> k = rank (price x) \/ key_lt (rank (price x)) k
  end.
Proof.
  intros [Hb Ha]. unfold best_bid, best_ask, view. split.
  - destruct (Nat.eqb_spec (count (bids s)) 0) as [->|Hne]; [done|].
    apply (best_level (lt := flip key_lt)); [done|lia|done].
  - destruct (Nat.eqb_spec (count (asks s)) 0) as [->|Hne]; [done|].
    apply (best_level (lt := key_lt)); [done|lia|done].
Qed.

(** ** Witnesses *)

Definition d100 : double := S754_finite false 7036874417766400 (-46).
Definition d101 : double := S754_finite false 7107243161944064 (-46).

Definition ex_ops : list op :=
  [Update BUY d100 10 1; Update BUY d101 5 2; Update SELL d101 7 1; Update BUY d100 0 0].

Lemma ex_ops_ok : Forall op_ok ex_ops.
Proof. by repeat constructor. Qed.

Definition ex_book : t := foldl exec L2OrderBook ex_ops.

Lemma ex_book_ok : book_ok ex_book.
Proof. apply run_ok; [apply init_ok|apply ex_ops_ok]. Qed.

Lemma book_refines_witness :
  (book_map ex_book).1 !! rank d101 = Some (5, 2) /\ (book_map ex_book).1 !! rank d100 = None /\
  (book_map ex_book).2 !! rank d101 = Some (7, 1).
Proof.
  assert (forall n, fits (foldl spec_exec (∅, ∅) (take n ex_ops))) as Hfit.
  { intros [|[|[|[|n]]]]; split; cbn [take ex_ops]; rewrite ?take_nil; vm_compute; lia. }
  destruct (book_refines ex_ops ex_ops_ok Hfit) as [H _].
  unfold ex_book. rewrite H. split_and!; vm_compute; reflexivity.
Defined.

Lemma book_update_witness :
  asks (update_level BUY d100 3 1 ex_book) = asks ex_book.
Proof. apply (book_update BUY d100 3 1 ex_book ex_book_ok ltac:(done)). Defined.

Lemma book_best_witness :
  best_bid ex_book = Some (mk_level d101 5 2) /\
  levels_map (view (bids ex_book)) !! rank d101 = Some (5, 2).
Proof.
  split; [vm_compute; reflexivity|].
  pose proof (book_best ex_book ex_book_ok) as [H _].
  replace (best_bid ex_book) with (Some (mk_level d101 5 2)) in H by (vm_compute; reflexivity).
  apply H.
Defined.
End Book.
