(* ===== verification/MarketFeed.v ===== *)
(** * The shared-memory market feed and the trading engine that reads it

    Model of [ShmMarketFeed] (12-capstone-systems, 01-shm-orderbook-feed,
    shm_feed.hpp) and of the consumer loop of bench_tick_to_trade.cpp, which
    applies every event to an order book.  The feed implements the ring
    interface; the engine is proved against that interface and the order
    book's operations. *)

From S2P Require Import Prelude Ring OrderBook.

#[local] Open Scope Z_scope.
#[local] Open Scope cpp_scope.

Module Feed.
Import Book.

Inductive MarketEventType := UPDATE_LEVEL | TRADE | CLEAR_BOOK.

Record MarketEvent := mk_event {
  seq_num : Z; timestamp_ns : Z; ev_price : double; ev_qty : Z; ev_order_count : Z;
  ev_side : Side; event_type : MarketEventType }.

Definition zero_event : MarketEvent := mk_event 0 0 d0 0 0 BUY UPDATE_LEVEL.

(** The mapping: [ShmFeedHeader] followed by the events. *)
Record t := mk {
  write_index : Z; read_index : Z; capacity : Z; mask : Z; ring_ : list MarketEvent }.

Definition DEFAULT_CAPACITY : Z := 32768.
Definition sizeof_ShmFeedHeader : Z := 128.
Definition sizeof_MarketEvent : Z := 64.

Definition calculate_size (cap : Z) : Z := sizeof_ShmFeedHeader +64 (cap *64 sizeof_MarketEvent).

(** The events that lie inside a mapping of [total_sz] bytes. *)
Definition slots_in (total_sz : Z) : nat := Z.to_nat ((total_sz - sizeof_ShmFeedHeader) / sizeof_MarketEvent).

Inductive shm_error := shm_open_failed | ftruncate_failed | mmap_failed.

(** The parameters are the outcomes of [shm_open], [ftruncate] and [mmap];
    whatever they say, [ftruncate] fails for a size that is negative as an
    [off_t] and [mmap] for the size zero.  [bg] is what the mapped memory reads as before the first event. *)
Definition create (shm_open ftruncate mmap : bool) (bg : MarketEvent) (cap : Z) : shm_error + t :=
  let total_sz := calculate_size cap in
  if negb shm_open then inl shm_open_failed else
  if negb ftruncate || (2 ^ 63 <=? total_sz) then inl ftruncate_failed else
  if negb mmap || (total_sz =? 0) then inl mmap_failed else
  inr (mk 0 0 cap (cap -64 1) (replicate (slots_in total_sz) bg)).

(** The attached process works on the same mapping; it passes the capacity the
    feed was created with. *)
Definition attach (shm_open mmap : bool) (s : t) : shm_error + t :=
  if negb shm_open then inl shm_open_failed else
  if negb mmap then inl mmap_failed else inr s.

Definition full (w r : Z) (s : t) : bool := capacity s <=? w -64 r.

Definition write_slot (e : MarketEvent) (w : Z) (s : t) : t :=
  mk (write_index s) (read_index s) (capacity s) (mask s)
     (alter (fun _ => e) (Z.to_nat (Z.land w (mask s))) (ring_ s)).

Definition store_write (w : Z) (s : t) : t :=
  mk (w +64 1) (read_index s) (capacity s) (mask s) (ring_ s).

(** [None] when the slot lies outside the mapping. *)
Definition read_slot (r : Z) (s : t) : option MarketEvent :=
  ring_ s !! Z.to_nat (Z.land r (mask s)).

(** [None] is the access outside the mapping, which is undefined. *)
Definition publish (e : MarketEvent) (s : t) : option (bool * t) :=
  let w := write_index s in
  let r := read_index s in
  if full w r s then Some (false, s) else
  _ ← read_slot w s; Some (true, store_write w (write_slot e w s)).

Definition store_read (r : Z) (s : t) : t :=
  mk (write_index s) (r +64 1) (capacity s) (mask s) (ring_ s).

Definition consume (s : t) : option (bool * option MarketEvent * t) :=
  let r := read_index s in
  let w := write_index s in
  if r =? w then Some (false, None, s) else
  out ← read_slot r s; Some (true, Some out, store_read r s).

(** The body of the engine's loop for a consumed event. *)
Definition on_event (b : Book.t) (e : MarketEvent) : Book.t :=
  update_level (ev_side e) (ev_price e) (ev_qty e) (ev_order_count e) b.

(** The replay of a list of events on an empty book. *)
Definition engine_book (consumed : list MarketEvent) : Book.t := foldl on_event L2OrderBook consumed.

(** ** The feed implements the ring interface *)

#[export] Instance feed_ring : RingQueue t MarketEvent MarketEvent := {
  rq_w := write_index; rq_r := read_index; rq_slots := ring_; rq_put := fun e _ => e;
  rq_full := full; rq_write := write_slot; rq_publish := store_write;
  rq_read := read_slot; rq_release := store_read }.

Definition pow2_feed (k : Z) (s : t) : Prop := capacity s = 2 ^ k /\ mask s = 2 ^ k -64 1.

Lemma feed_laws k : 0 <= k < 64 -> RingLaws feed_ring k (pow2_feed k).
Proof.
  intros Hk. split; [done|..]; intros s; intros; destruct s as [wi ri cp mk_ rg];
    match goal with H : pow2_feed _ _ |- _ => destruct H as [Hc Hm] end; simpl in Hc, Hm; subst; done.
Qed.

(** Up to a capacity of 2^57 the size does not wrap around: the mapping has all
    the slots. *)
Lemma feed_create_slots bg cap s :
  0 < cap <= 2 ^ 57 -> create true true true bg cap = inr s -> s = mk 0 0 cap (cap -64 1) (replicate (Z.to_nat cap) bg).
Proof.
  intros Hc. unfold create, slots_in, calculate_size, sizeof_ShmFeedHeader, sizeof_MarketEvent. cbn [negb orb].
  rewrite (wrap_small 64 (cap * 64)), wrap_small by lia. destruct (_ <=? _); [done|]. destruct (_ =? _); [done|]. intros [= <-].
  replace ((128 + cap * 64 - 128) / 64) with cap; [done|]. replace (128 + cap * 64 - 128) with (cap * 64) by lia. by rewrite Z.div_mul.
Qed.

Lemma feed_pow2_small k : 0 <= k < 58 -> 0 < 2 ^ k <= 2 ^ 57.
Proof. intros Hk. split; [apply Z.pow_pos_nonneg; lia|apply Z.pow_le_mono_r; lia]. Qed.

(** ** The engine

    The exchange and the engine run the calls of the feed step by step; the
    engine, which holds an event from the return of [consume] on, applies it
    to its book before it calls [consume] again. *)
Record engine := mk_engine { feed : rcfg t MarketEvent MarketEvent; book : Book.t; event : option MarketEvent }.

Inductive engine_does : engine -> engine -> Prop :=
| eng_ring x y b e :
    ring_step x y -> received y = received x -> (e = None \/ rc y = rc x) ->
    engine_does (mk_engine x b e) (mk_engine y b e)
| eng_consumed x y b e :
    ring_step x y -> received y = received x ++ [e] ->
    engine_does (mk_engine x b None) (mk_engine y b (Some e))
| eng_update x b e :
    engine_does (mk_engine x b (Some e)) (mk_engine x (on_event b e) None).

Definition engine_start (s : t) : engine := mk_engine (rinit s) L2OrderBook None.

(** The book lags behind the consumed events by the one the engine holds. *)
Definition lags (z : engine) : Prop :=
  exists done, book z = engine_book done /\ received (feed z) = done ++ option_list (event z).

Lemma engine_lags z z' : engine_does z z' -> lags z -> lags z'.
Proof.
  intros [x y b e Hs Hr _|x y b e Hs Hr|x b e] (es & Hb & He); cbn in *; subst b.
  - exists es. cbn. by rewrite Hr.
  - exists es. cbn. by rewrite Hr, He, app_nil_r.
  - exists (es ++ [e]). cbn. unfold engine_book. by rewrite foldl_app, app_nil_r.
Qed.

Lemma engine_ring z z' : engine_does z z' -> rtc ring_step (feed z) (feed z').
Proof. intros [x y b e Hs _ _|x y b e Hs _|x b e]; cbn; [by apply rtc_once..|done]. Qed.

Lemma engine_run s z : rtc engine_does (engine_start s) z -> rtc ring_step (rinit s) (feed z) /\ lags z.
Proof.
  revert z. apply (rtc_ind_r (R := engine_does)); [|intros z z' _ Hz [Hr Hl]].
  - split; [done|]. by exists [].
  - split; [by etrans; [|apply engine_ring]|by eapply engine_lags].
Qed.

Lemma feed_publish_is_ring e s : publish e s = ring_publish e s.
Proof. done. Qed.

Lemma feed_consume_is_ring s : consume s = ring_consume (M := MarketEvent) s.
Proof. done. Qed.

Definition event_ok (e : MarketEvent) : Prop := not_nan (ev_price e).

Lemma engine_book_ok es : Forall event_ok es -> book_ok (engine_book es).
Proof.
  intros Hes. unfold engine_book.
  replace (foldl on_event L2OrderBook es) with
    (foldl exec L2OrderBook ((fun e => Update (ev_side e) (ev_price e) (ev_qty e) (ev_order_count e)) <$> es)).
  - apply run_ok; [apply init_ok|]. by apply Forall_fmap.
  - generalize L2OrderBook. clear Hes. induction es as [|e es IH]; intros b; [done|]. apply IH.
Qed.

(** ** The properties *)

(** C22. Market data reaches the trading engine in order, without loss,
    duplication or tearing, under every interleaving of exchange and engine,
    for a power-of-two capacity up to 2^57, for which the size of the mapping
    does not wrap around: the engine has consumed a prefix of the published
    events, at most [capacity] events are in flight, a refused [publish] means
    a full ring, no slot is accessed by both sides at once, and the order book
    the engine updates event by event is the replay of that prefix, up to the
    last event while it is consumed and not applied yet; the book is well
    formed as long as no published price is a NaN. *)
Theorem feed_replay k bg s z :
  0 <= k < 58 -> create true true true bg (2 ^ k) = inr s -> rtc engine_does (engine_start s) z ->
  let x := feed z in
  exists n,
    received x = take n (sent x).*1 /\ (n <= length (sent x))%nat /\
    Z.of_nat (length (sent x)) <= Z.of_nat n + 2 ^ k /\
    (forall m w, rp x = RP_loaded m w -> full w (read_index (rq x)) (rq x) = true ->
       Z.of_nat (length (sent x)) = Z.of_nat n + 2 ^ k) /\
    (forall m w r, rp x = RP_ready m w -> rc x = RC_ready r -> slot_of (2 ^ k) w <> slot_of (2 ^ k) r) /\
    match event z with
    | None => book z = foldl on_event L2OrderBook (take n (sent x).*1)
    | Some e => exists n', n = S n' /\ (sent x).*1 !! n' = Some e /\
        book z = foldl on_event L2OrderBook (take n' (sent x).*1)
    end /\
    (Forall event_ok (sent x).*1 -> book_ok (book z)).
Proof.
  intros Hk Hc Hst x. pose proof (feed_create_slots _ _ _ (feed_pow2_small k Hk) Hc) as ->. pose proof (feed_laws k ltac:(lia)) as L.
  destruct (engine_run _ _ Hst) as [Hrun (es & Hb & He)]. fold x in Hrun, He.
  edestruct (ring_contract k (pow2_feed k)) as ([rest Hpre] & Hput & Hcap & Hfull & _ & Hrace);
    [| | | |exact Hrun|]; [done..|].
  assert ((sent x).*2 = (sent x).*1) as Heq.
  { apply list_fmap_ext. intros i [m y] Hi%list_elem_of_lookup_2. destruct (Hput _ _ Hi) as [old Hy]. by cbn in Hy. }
  rewrite Heq in Hpre.
  assert ((sent x).*1 = es ++ option_list (event z) ++ rest) as Hs by (by rewrite Hpre, He, <- app_assoc).
  exists (length (received x)). split_and!; [by rewrite Hpre, take_app_length| |done|done|done| |].
  - rewrite <- (length_fmap fst), Hpre, length_app. lia.
  - rewrite Hb, He, Hs. destruct (event z) as [e|]; cbn [option_list app].
    + exists (length es). rewrite length_app, take_app_length. cbn. rewrite list_lookup_middle by done. split; [lia|done].
    + by rewrite app_nil_r, take_app_length.
  - rewrite Hb, Hs. intros [Hok _]%Forall_app. by apply engine_book_ok.
Qed.

(** Nothing checks that the size fits in 64 bits: for the powers of two from
    2^58 on, [create] succeeds with a mapping of the header alone, and the
    first [publish] writes outside of it. *)
Theorem feed_size_wraps k bg e :
  58 <= k < 64 -> exists s, create true true true bg (2 ^ k) = inr s /\ ring_ s = [] /\ publish e s = None.
Proof.
  intros Hk. assert (calculate_size (2 ^ k) = 128) as Hsz.
  { unfold calculate_size, sizeof_ShmFeedHeader, sizeof_MarketEvent. replace (2 ^ k *64 64) with 0; [reflexivity|].
    replace (2 ^ k * 64) with (2 ^ (k - 58) * 2 ^ 64); [symmetry; apply Z.mod_mul; lia|].
    rewrite <- Z.pow_add_r by lia. change 64 with (2 ^ 6) at 2. rewrite <- Z.pow_add_r by lia. f_equal. lia. }
  unfold create. rewrite Hsz. eexists. split; [reflexivity|]. split; [reflexivity|]. unfold publish, full. cbn [write_index read_index capacity].
  change (0 -64 0) with 0. rewrite (proj2 (Z.leb_gt _ _)) by (apply Z.pow_pos_nonneg; lia). reflexivity.
Qed.

(** ** Witness: two events published, one consumed and applied *)

Definition ex_e1 : MarketEvent := mk_event 1 0 d100 10 1 BUY UPDATE_LEVEL.
Definition ex_e2 : MarketEvent := mk_event 2 0 d101 7 1 SELL UPDATE_LEVEL.
Definition ex_cfg : rcfg t MarketEvent MarketEvent :=
  mkr (mk 2 1 2 1 [ex_e1; ex_e2]) RP_idle RC_idle [(ex_e1, ex_e1); (ex_e2, ex_e2)] [ex_e1].

Ltac eng tac := eapply rtc_l; [eapply eng_ring; [tac|done|by left]|].

Lemma feed_ex_reachable :
  rtc engine_does (engine_start (mk 0 0 2 1 [zero_event; zero_event])) (mk_engine ex_cfg (on_event L2OrderBook ex_e1) None).
Proof.
  eng ltac:(apply (rs_call _ _ ex_e1)). eng ltac:(by apply rs_room). eng ltac:(apply rs_write). eng ltac:(by eapply rs_publish).
  eng ltac:(apply (rs_call _ _ ex_e2)). eng ltac:(apply rs_consume). eng ltac:(by apply rs_room). eng ltac:(by apply rs_avail).
  eng ltac:(apply rs_write). eng ltac:(by eapply rs_read).
  eapply rtc_l; [eapply eng_consumed; [apply rs_release|done]|]. eapply rtc_l; [apply eng_update|].
  eng ltac:(by eapply rs_publish). apply rtc_refl.
Qed.

Lemma feed_replay_witness : book_ok (on_event L2OrderBook ex_e1).
Proof.
  destruct (feed_replay 1 zero_event _ _ ltac:(lia) eq_refl feed_ex_reachable)
    as (n & _ & _ & _ & _ & _ & _ & H).
  apply H. by repeat constructor.
Defined.
End Feed.
