(* ===== verification/ShmHandle.v ===== *)
(** * Ownership of shared-memory mappings

    The objects [ShmIpcBus] (shm_ipc_bus.hpp) and [ShmMarketFeed] (shm_feed.hpp)
    as owners of a mapping: construction at the end of [create] and [attach],
    move construction, move assignment (of the bus; the feed has none) and
    destruction, over the mappings and names of the system.  What the objects
    do with the mapped ring is in the models of the bus and the feed. *)

From Stdlib Require Import String Ascii.
From S2P Require Import Prelude.

#[local] Open Scope Z_scope.

Module Shm.

(** The null pointer is 0. *)
Record handle := mk_handle {
  shm_name_ : string; mapped_base_ : Z; total_size_ : Z; is_creator_ : bool; header_ : Z; ring_ : Z }.

(** The mappings of the process, with their sizes, and the names in the
    directory of shared memory; [bad_unmaps] counts calls of [munmap] for
    something that is not a mapping of that size. *)
Record system := mk_sys { maps : gmap Z Z; names : gset string; bad_unmaps : nat }.

Definition munmap (base size : Z) (o : system) : system :=
  if decide (maps o !! base = Some size) then mk_sys (delete base (maps o)) (names o) (bad_unmaps o)
  else mk_sys (maps o) (names o) (S (bad_unmaps o)).
Definition shm_unlink (name : string) (o : system) : system := mk_sys (maps o) (names o ∖ {[name]}) (bad_unmaps o).

Section handles.
(** [sizeof(ShmRingHeader)] or [sizeof(ShmFeedHeader)] *)
Context (sizeof_header : Z).

(** The private constructor. *)
Definition ShmIpcBus (name : string) (base size : Z) (creator : bool) : handle :=
  mk_handle name base size creator base (base + sizeof_header).

(** [create] and [attach] once [mmap] has returned [base]. *)
Definition mapped (name : string) (base size : Z) (creator : bool) (o : system) : handle * system :=
  (ShmIpcBus name base size creator,
   mk_sys (<[base := size]> (maps o)) (if creator then {[name]} ∪ names o else names o) (bad_unmaps o)).

Definition release (h : handle) (o : system) : system :=
  if mapped_base_ h =? 0 then o else
  let o := munmap (mapped_base_ h) (total_size_ h) o in
  if is_creator_ h then shm_unlink (shm_name_ h) o else o.

Definition destroy (h : handle) (o : system) : system := release h o.

(** The name is moved out; the other fields of the source are copied and its
    mapping is cleared.  A moved-from string is left empty here. *)
Definition moved_from (h : handle) : handle :=
  mk_handle EmptyString 0 (total_size_ h) (is_creator_ h) (header_ h) (ring_ h).

(** The new object and the source. *)
Definition move_construct (other : handle) : handle * handle :=
  (mk_handle (shm_name_ other) (mapped_base_ other) (total_size_ other) (is_creator_ other) (header_ other) (ring_ other),
   moved_from other).

(** The assigned object, the source and the system; [this != &other]. *)
Definition move_assign (this other : handle) (o : system) : handle * handle * system :=
  let o := release this o in
  (mk_handle (shm_name_ other) (mapped_base_ other) (total_size_ other) (is_creator_ other) (header_ other) (ring_ other),
   moved_from other, o).

(** ** Programs: live objects by name of the variable *)

Record world := mk_world { objects : gmap nat handle; sys : system }.

Inductive step : world -> world -> Prop :=
| S_map w i name base size creator :
    objects w !! i = None -> base <> 0 -> maps (sys w) !! base = None ->
    step w (let '(h, o) := mapped name base size creator (sys w) in mk_world (<[i := h]> (objects w)) o)
| S_move w i j other :
    objects w !! i = None -> objects w !! j = Some other ->
    step w (let '(h, src) := move_construct other in mk_world (<[i := h]> (<[j := src]> (objects w))) (sys w))
| S_assign w i j this other :
    i <> j -> objects w !! i = Some this -> objects w !! j = Some other ->
    step w (let '(h, src, o) := move_assign this other (sys w) in mk_world (<[i := h]> (<[j := src]> (objects w))) o)
| S_self w i h : objects w !! i = Some h -> step w w
| S_destroy w i h :
    objects w !! i = Some h -> step w (mk_world (delete i (objects w)) (destroy h (sys w))).

Definition start : world := mk_world ∅ (mk_sys ∅ ∅ 0).

(** ** Every mapping has one owner *)

Definition owns (h : handle) (base size : Z) : Prop := mapped_base_ h = base /\ total_size_ h = size /\ base <> 0.

Record owned (w : world) : Prop := {
  ow_map : forall i h, objects w !! i = Some h -> mapped_base_ h <> 0 -> maps (sys w) !! mapped_base_ h = Some (total_size_ h);
  ow_owner : forall base size, maps (sys w) !! base = Some size -> exists i h, objects w !! i = Some h /\ owns h base size;
  ow_one : forall i j h k, objects w !! i = Some h -> objects w !! j = Some k -> mapped_base_ h <> 0 ->
    mapped_base_ h = mapped_base_ k -> i = j;
  ow_safe : bad_unmaps (sys w) = 0%nat }.

Lemma release_sys h o :
  mapped_base_ h <> 0 -> maps o !! mapped_base_ h = Some (total_size_ h) ->
  maps (release h o) = delete (mapped_base_ h) (maps o) /\ bad_unmaps (release h o) = bad_unmaps o.
Proof.
  intros Hb Hm. unfold release. rewrite (proj2 (Z.eqb_neq _ _)) by done. unfold munmap. rewrite decide_True by done.
  by destruct (is_creator_ h).
Qed.

Lemma destroy_owned w i h : owned w -> objects w !! i = Some h -> owned (mk_world (delete i (objects w)) (destroy h (sys w))).
Proof.
  intros [Hm Ho H1 Hs] Hi. unfold destroy. destruct (decide (mapped_base_ h = 0)) as [Hz|Hz].
  - assert (release h (sys w) = sys w) as -> by (unfold release; by rewrite Hz). split; cbn; [| | |done].
    + intros k g [_ Hk]%lookup_delete_Some. by apply (Hm k).
    + intros base size Hb. destruct (Ho base size Hb) as (k & g & Hk & Hg). exists k, g. split; [|done].
      rewrite lookup_delete_ne; [done|]. intros <-. destruct Hg as (? & _ & ?). simplify_eq.
    + intros k l g g' [_ Hk]%lookup_delete_Some [_ Hl]%lookup_delete_Some. by apply (H1 k l g g').
  - destruct (release_sys h (sys w) Hz (Hm i h Hi Hz)) as [E1 E2]. split; cbn; rewrite ?E1, ?E2; [| | |done].
    + intros k g [Hik Hk]%lookup_delete_Some Hg. rewrite lookup_delete_ne; [by apply (Hm k)|].
      intros E. apply Hik. by apply (H1 i k h g).
    + intros base size [Hne Hb]%lookup_delete_Some. destruct (Ho base size Hb) as (k & g & Hk & Hg). exists k, g. split; [|done].
      rewrite lookup_delete_ne; [done|]. intros <-. destruct Hg as (? & _ & _). simplify_eq.
    + intros k l g g' [_ Hk]%lookup_delete_Some [_ Hl]%lookup_delete_Some. by apply (H1 k l g g').
Qed.

Lemma move_owned w i j other :
  owned w -> objects w !! i = None -> objects w !! j = Some other ->
  owned (mk_world (<[i := (move_construct other).1]> (<[j := (move_construct other).2]> (objects w))) (sys w)).
Proof.
  intros [Hm Ho H1 Hs] Hi Hj. assert (i <> j) as Hij by congruence. cbn [move_construct fst snd].
  set (h := mk_handle _ _ _ _ _ _). set (objs := <[i := h]> _).
  assert (L : forall k g, objs !! k = Some g -> mapped_base_ g <> 0 ->
    exists l o, objects w !! l = Some o /\ mapped_base_ o = mapped_base_ g /\ total_size_ o = total_size_ g /\
      ((k = i /\ l = j) \/ (k <> i /\ k = l /\ k <> j))).
  { intros k g Hk Hg. apply lookup_insert_Some in Hk as [[<- <-]|[Hik Hk]]; [exists j, other; do 3 (split; [done|]); by left|].
    apply lookup_insert_Some in Hk as [[<- <-]|[Hjk Hk]]; [done|]. exists k, g. do 3 (split; [done|]). right. auto. }
  split; cbn; [| | |done].
  - intros k g Hk Hg. destruct (L k g Hk Hg) as (l & o & Hl & E1 & E2 & _). rewrite <- E1, <- E2. apply (Hm l); congruence.
  - intros base size Hb. destruct (Ho base size Hb) as (k & g & Hk & Hg). destruct (decide (k = j)) as [->|Hkj].
    + exists i, h. split; [apply lookup_insert_eq|]. simplify_eq. done.
    + exists k, g. split; [|done]. unfold objs. rewrite !lookup_insert_ne by congruence. done.
  - intros k l g g' Hk Hl Hg E. destruct (L k g Hk Hg) as (k' & o & Hk' & E1 & _ & Ck).
    destruct (L l g' Hl) as (l' & o' & Hl' & E1' & _ & Cl); [congruence|].
    assert (k' = l') by (apply (H1 k' l' o o'); congruence). naive_solver.
Qed.

Lemma map_owned w i name base size creator :
  owned w -> objects w !! i = None -> base <> 0 -> maps (sys w) !! base = None ->
  let '(h, o) := mapped name base size creator (sys w) in owned (mk_world (<[i := h]> (objects w)) o).
Proof.
  intros [Hm Ho H1 Hs] Hi Hb Hfree. cbn. split; cbn; [| | |done].
  - intros k g [[<- <-]|[Hik Hk]]%lookup_insert_Some Hg; cbn; [by rewrite lookup_insert_eq|].
    pose proof (Hm k g Hk Hg). rewrite lookup_insert_ne; [done|congruence].
  - intros b sz [[<- <-]|[Hne Hl]]%lookup_insert_Some.
    + exists i. eexists. split; [apply lookup_insert_eq|]. done.
    + destruct (Ho b sz Hl) as (k & g & Hk & Hg). exists k, g. split; [|done]. rewrite lookup_insert_ne; [done|congruence].
  - assert (forall k g, objects w !! k = Some g -> mapped_base_ g <> base) as Hnew.
    { intros k g Hk <-. pose proof (Hm k g Hk Hb). congruence. }
    intros k l g g' [[<- <-]|[Hik Hk]]%lookup_insert_Some [[<- <-]|[Hil Hl]]%lookup_insert_Some Hg E; cbn in *; [done| | |].
    + by destruct (Hnew l g' Hl).
    + by destruct (Hnew k g Hk).
    + by apply (H1 k l g g').
Qed.

Lemma step_owned w w' : owned w -> step w w' -> owned w'.
Proof.
  intros Hw Hs. destruct Hs as [w i name base size creator Hi Hb Hf|w i j other Hi Hj|w i j this other Hij Hi Hj|w i h Hi|w i h Hi].
  - by apply (map_owned w i name base size creator).
  - by apply (move_owned w i j other).
  - pose proof (destroy_owned w i this Hw Hi) as Hd.
    pose proof (move_owned _ i j other Hd) as Hm. cbn -[release] in Hm |- *.
    rewrite (insert_insert_ne (delete i (objects w))) in Hm by done. rewrite insert_delete_eq in Hm.
    rewrite (insert_insert_ne (objects w)) by done. apply Hm; [apply lookup_delete_eq|by rewrite lookup_delete_ne].
  - done.
  - by apply (destroy_owned w i h).
Qed.

(** In every program that creates, attaches, moves, assigns and destroys
    buses, each mapping has exactly one owner, so nothing is unmapped twice or
    with a wrong size, and no mapping is left when all objects are gone. *)
Theorem shm_ownership w :
  rtc step start w -> owned w /\ (objects w = ∅ -> maps (sys w) = ∅).
Proof.
  intros Hr. assert (owned w) as Hw.
  { revert Hr. apply (rtc_ind_r (R := step)); [by split; cbn|]. intros; by eapply step_owned. }
  split; [done|]. intros He. apply map_eq. intros base. rewrite lookup_empty.
  destruct (maps (sys w) !! base) as [size|] eqn:Hb; [|done].
  destruct (ow_owner w Hw base size Hb) as (i & h & Hi & _). by rewrite He in Hi.
Qed.
End handles.

(** A moved-from bus keeps its pointers to the ring: after the new owner is
    gone they point into memory that is not mapped. *)
Lemma moved_from_dangles hdr name base size o :
  base <> 0 ->
  let '(h, o) := mapped hdr name base size true o in
  let '(h', src) := move_construct h in
  header_ src = base /\ maps (destroy h' o) !! base = None.
Proof.
  intros Hb. cbn. split; [done|]. unfold destroy, release. cbn. rewrite (proj2 (Z.eqb_neq _ _)) by done.
  unfold munmap. cbn. rewrite decide_True by apply lookup_insert_eq. cbn. apply lookup_delete_eq.
Qed.
End Shm.
