(* ===== verification/SlottedPage.v ===== *)
(** * The slotted page

    Model of [SlottedPage] (07-database-storage-and-buffer-pool, exercises,
    slotted_page.hpp) on the 4096 bytes of the page: header fields, slots and
    tuples are read and written at their byte offsets.  The abstract page is a
    list of slots, each holding a tuple or marked deleted. *)

From S2P Require Import Prelude Bytes.

#[local] Open Scope Z_scope.
#[local] Open Scope cpp_scope.

Module Page.

Definition PAGE_SIZE : nat := Z.to_nat 4096.
Definition sizeof_Header : nat := 24.
Definition sizeof_Slot : nat := 6.

(** A page is its bytes, [data_]. *)
Definition t : Type := list Z.

(** ** [Header] and [Slot] fields *)

Definition page_id (d : t) : Z := load_le 8 0 d.
Definition lsn (d : t) : Z := load_le 8 8 d.
Definition slot_count (d : t) : Z := load_le 2 16 d.
Definition free_space_ptr (d : t) : Z := load_le 2 18 d.
Definition flags (d : t) : Z := load_le 4 20 d.
Definition set_lsn (v : Z) (d : t) : t := store_le 8 8 v d.
Definition set_slot_count (v : Z) (d : t) : t := store_le 2 16 v d.
Definition set_free_space_ptr (v : Z) (d : t) : t := store_le 2 18 v d.

Definition slot (i : nat) : nat := sizeof_Header + i * sizeof_Slot.
Definition slot_offset (i : nat) (d : t) : Z := load_le 2 (slot i) d.
Definition slot_size (i : nat) (d : t) : Z := load_le 2 (slot i + 2) d.
Definition slot_deleted (i : nat) (d : t) : Z := load_le 1 (slot i + 4) d.
Definition set_slot_offset (i : nat) (v : Z) (d : t) : t := store_le 2 (slot i) v d.
Definition set_slot_size (i : nat) (v : Z) (d : t) : t := store_le 2 (slot i + 2) v d.
Definition set_slot_deleted (i : nat) (v : Z) (d : t) : t := store_le 1 (slot i + 4) v d.

(** ** Operations *)

Definition init (pid : Z) : t :=
  let d := replicate PAGE_SIZE 0 in
  let d := store_le 8 0 pid d in
  let d := store_le 8 8 0 d in
  let d := set_slot_count 0 d in
  let d := set_free_space_ptr (u16 4096) d in
  store_le 4 20 0 d.

Definition free_space (d : t) : Z :=
  let header_and_slots := Z.of_nat sizeof_Header + slot_count d * Z.of_nat sizeof_Slot in
  if free_space_ptr d <? header_and_slots then 0
  else u16 (free_space_ptr d - header_and_slots).

(** The body of the loop of [compact]: the page, [temp_buf] and
    [new_free_ptr]. *)
Definition compact_step (c : t * list Z * Z) (i : nat) : t * list Z * Z :=
  let '(d, temp, ptr) := c in
  if (slot_deleted i d =? 0) && (0 <? slot_size i d) then
    let ptr := u16 (ptr - slot_size i d) in
    let tuple := sub_bytes (Z.to_nat (slot_offset i d)) (Z.to_nat (slot_size i d)) d in
    (set_slot_offset i ptr d, store_bytes (Z.to_nat ptr) tuple temp, ptr)
  else c.

(** Only bytes of [temp_buf] that the loop has written are copied back, so its
    initial content does not matter. *)
Definition compact (d : t) : t :=
  let '(d, temp, ptr) :=
    foldl compact_step (d, replicate PAGE_SIZE 0, u16 4096) (seq 0 (Z.to_nat (slot_count d))) in
  let compacted_bytes := 4096 - ptr in
  let d := if 0 <? compacted_bytes
           then store_bytes (Z.to_nat ptr) (sub_bytes (Z.to_nat ptr) (Z.to_nat compacted_bytes) temp) d
           else d in
  set_free_space_ptr ptr d.

(** The loop that looks for a deleted slot. *)
Fixpoint find_deleted (n i : nat) (d : t) : nat :=
  match n with
  | O => i
  | S n' => if slot_deleted i d =? 0 then find_deleted n' (S i) d else i
  end.

(** Moving [free_space_ptr] down and copying the payload there. *)
Definition push_payload (payload : list Z) (d : t) : t :=
  let d := set_free_space_ptr (u16 (free_space_ptr d - u16 (Z.of_nat (length payload)))) d in
  store_bytes (Z.to_nat (free_space_ptr d)) payload d.

(** [insert_tuple] once there is room. *)
Definition insert_here (payload : list Z) (d : t) : nat * t :=
  let d := push_payload payload d in
  let target := find_deleted (Z.to_nat (slot_count d)) 0 d in
  let d := set_slot_offset target (free_space_ptr d) d in
  let d := set_slot_size target (u16 (Z.of_nat (length payload))) d in
  let d := set_slot_deleted target 0 d in
  let d := if Z.of_nat target =? slot_count d then set_slot_count (u16 (slot_count d + 1)) d else d in
  (target, d).

(** The slot id, or [None] when the call returns false. *)
Definition insert_tuple (payload : list Z) (d : t) : option nat * t :=
  let needed_space := Z.of_nat (length payload) + Z.of_nat sizeof_Slot in
  let d := if free_space d <? needed_space then compact d else d in
  if free_space d <? needed_space then (None, d)
  else let '(i, d) := insert_here payload d in (Some i, d).

Definition get_tuple (slot_id : nat) (d : t) : option (list Z) :=
  if slot_count d <=? Z.of_nat slot_id then None else
  if negb (slot_deleted slot_id d =? 0) then None else
  Some (sub_bytes (Z.to_nat (slot_offset slot_id d)) (Z.to_nat (slot_size slot_id d)) d).

Definition update_tuple (slot_id : nat) (payload : list Z) (d : t) : bool * t :=
  if slot_count d <=? Z.of_nat slot_id then (false, d) else
  if negb (slot_deleted slot_id d =? 0) then (false, d) else
  let n := Z.of_nat (length payload) in
  if n <=? slot_size slot_id d then
    let d := store_bytes (Z.to_nat (slot_offset slot_id d)) payload d in
    (true, set_slot_size slot_id (u16 n) d)
  else
    let d := if free_space d <? n then compact d else d in
    if free_space d <? n then (false, d) else
    let d := push_payload payload d in
    let d := set_slot_offset slot_id (free_space_ptr d) d in
    (true, set_slot_size slot_id (u16 n) d).

Definition delete_tuple (slot_id : nat) (d : t) : bool * t :=
  if slot_count d <=? Z.of_nat slot_id then (false, d) else
  if negb (slot_deleted slot_id d =? 0) then (false, d) else
  (true, set_slot_size slot_id 0 (set_slot_deleted slot_id 1 d)).

Definition raw_data (d : t) : list Z := d.

(** ** The abstract page *)

Abbreviation tuples := (list (option (list Z))).

Definition live_bytes (ts : tuples) : nat := sum_list_with (fun x => length (default [] x)) ts.

(** Slot [i] of the bytes [d] represents [x]. *)
Definition slot_rep (d : t) (i : nat) (x : option (list Z)) : Prop :=
  match x with
  | None => slot_deleted i d <> 0
  | Some p => slot_deleted i d = 0 /\ slot_size i d = Z.of_nat (length p) /\
      (p <> [] -> free_space_ptr d <= slot_offset i d /\ slot_offset i d + Z.of_nat (length p) <= 4096 /\
                  sub_bytes (Z.to_nat (slot_offset i d)) (length p) d = p)
  end.

Definition apart (a n b m : Z) : Prop := a + n <= b \/ b + m <= a.

Record rep (d : t) (ts : tuples) : Prop := {
  rep_len : length d = PAGE_SIZE;
  rep_count : slot_count d = Z.of_nat (length ts);
  rep_dir : Z.of_nat (slot (length ts)) <= free_space_ptr d <= 4096;
  rep_slot i x : ts !! i = Some x -> slot_rep d i x;
  rep_apart i j p q : ts !! i = Some (Some p) -> ts !! j = Some (Some q) -> i <> j -> p <> [] -> q <> [] ->
    apart (slot_offset i d) (Z.of_nat (length p)) (slot_offset j d) (Z.of_nat (length q));
  rep_live : Z.of_nat (live_bytes ts) <= 4096 - free_space_ptr d }.

(** ** Bytes: fields and tuples do not interfere *)

(** The page has 4096 bytes; in [nat] arithmetic the constant stays folded. *)
Ltac page_lia := unfold slot, sizeof_Header, sizeof_Slot, PAGE_SIZE in *; lia.

Ltac page_rw :=
  unfold slot_count, free_space_ptr, slot_offset, slot_size, slot_deleted, set_slot_count,
    set_free_space_ptr, set_slot_offset, set_slot_size, set_slot_deleted in *;
  repeat first
    [ rewrite length_store_le | rewrite length_store_bytes
    | rewrite load_store_disjoint by page_lia
    | rewrite load_store_bytes_disjoint by page_lia
    | rewrite sub_store_le_disjoint by page_lia ].

(** Replacing slot [i], or appending it when [i] is the number of slots. *)
Definition put (i : nat) (x : option (list Z)) (ts : tuples) : tuples := take i ts ++ x :: drop (S i) ts.

Lemma length_put i x ts : (i <= length ts)%nat -> length (put i x ts) = Nat.max (length ts) (S i).
Proof. intros Hi. unfold put. rewrite length_app, length_take. cbn [length]. rewrite length_drop. lia. Qed.

Lemma lookup_put i x ts j :
  (i <= length ts)%nat -> put i x ts !! j = if decide (j = i) then Some x else ts !! j.
Proof.
  intros Hi. unfold put. case_decide as Hj.
  - subst. apply list_lookup_middle. rewrite length_take. lia.
  - destruct (decide (j < i)%nat).
    + rewrite lookup_app_l by (rewrite length_take; lia). by apply lookup_take_lt.
    + rewrite lookup_app_r by (rewrite length_take; lia). rewrite length_take, Nat.min_l by done.
      destruct (j - i)%nat as [|k] eqn:Hk; [lia|].
      change (drop (S i) ts !! k = ts !! j). rewrite lookup_drop. f_equal. lia.
Qed.

Lemma put_insert i x y ts : ts !! i = Some y -> put i x ts = <[i := x]> ts.
Proof. intros Hi. unfold put. symmetry. apply insert_take_drop. by eapply lookup_lt_Some. Qed.

Lemma live_app ts ts' : live_bytes (ts ++ ts') = (live_bytes ts + live_bytes ts')%nat.
Proof. apply sum_list_with_app. Qed.

Lemma live_cons x ts : live_bytes (x :: ts) = (length (default [] x) + live_bytes ts)%nat.
Proof. done. Qed.

Lemma live_put i x ts :
  (i <= length ts)%nat ->
  (live_bytes (put i x ts) + length (default [] (default None (ts !! i))) =
   live_bytes ts + length (default [] x))%nat.
Proof.
  intros Hi. unfold put. rewrite live_app, live_cons. destruct (ts !! i) as [y|] eqn:Hy; cbn [default].
  - rewrite <- (take_drop_middle ts i y Hy) at 3. rewrite live_app, live_cons. cbn. lia.
  - apply lookup_ge_None in Hy. rewrite take_ge, drop_ge by lia. cbn. lia.
Qed.

(** Every tuple that a slot names lies behind the free space. *)
Lemma live_bound ts i p : ts !! i = Some (Some p) -> (length p <= live_bytes ts)%nat.
Proof.
  intros Hi. rewrite <- (take_drop_middle ts i _ Hi), live_app, live_cons. cbn. lia.
Qed.

(** Changing slot [i] and nothing that another slot relies on. *)
Lemma rep_put d d' ts i x :
  rep d ts -> (i <= length ts)%nat -> length d' = PAGE_SIZE ->
  slot_count d' = Z.of_nat (length (put i x ts)) ->
  Z.of_nat (slot (length (put i x ts))) <= free_space_ptr d' <= free_space_ptr d ->
  (forall j, (j < length ts)%nat -> j <> i ->
     slot_offset j d' = slot_offset j d /\ slot_size j d' = slot_size j d /\ slot_deleted j d' = slot_deleted j d) ->
  (forall j q, ts !! j = Some (Some q) -> j <> i -> q <> [] ->
     sub_bytes (Z.to_nat (slot_offset j d)) (length q) d' = sub_bytes (Z.to_nat (slot_offset j d)) (length q) d) ->
  slot_rep d' i x ->
  (forall p j q, x = Some p -> ts !! j = Some (Some q) -> j <> i -> p <> [] -> q <> [] ->
     apart (slot_offset i d') (Z.of_nat (length p)) (slot_offset j d) (Z.of_nat (length q))) ->
  Z.of_nat (live_bytes (put i x ts)) <= 4096 - free_space_ptr d' ->
  rep d' (put i x ts).
Proof.
  intros HR Hi Hlen Hcnt Hdir Hsame Hmem Hx Hap Hlive.
  assert (forall j q, ts !! j = Some (Some q) -> j <> i -> q <> [] ->
            slot_offset j d' = slot_offset j d) as Hoff.
  { intros j q Hj Hne _. apply Hsame; [by eapply lookup_lt_Some|done]. }
  split; [done|done| | | |done].
  - pose proof (rep_dir _ _ HR). lia.
  - intros j y Hj. rewrite lookup_put in Hj by done. case_decide; simplify_eq; [done|].
    pose proof (rep_slot _ _ HR j y Hj) as Hy.
    destruct (Hsame j) as (Ho & Hs & Hd); [by eapply lookup_lt_Some|done|].
    unfold slot_rep in *. rewrite Hd, Hs, Ho. destruct y as [q|]; [|done].
    destruct Hy as (? & ? & Hq). split_and!; [done|done|]. intros Hne. destruct (Hq Hne) as (? & ? & ?).
    rewrite Hmem by done. split_and!; [lia|done|done].
  - intros j k p q Hj Hk Hne Hp Hq. rewrite lookup_put in Hj, Hk by done.
    destruct (decide (j = i)) as [->|Hji], (decide (k = i)) as [->|Hki]; [done|..].
    + injection Hj as ->. rewrite (Hoff k q) by done. by eapply Hap.
    + injection Hk as ->. rewrite (Hoff j p) by done. destruct (Hap q j p); try done; unfold apart; lia.
    + rewrite (Hoff j p), (Hoff k q) by done. by apply (rep_apart _ _ HR j k).
Qed.

(** [page_id] and [lsn] occupy the first 16 bytes. *)
Definition same_id (d d' : t) : Prop := sub_bytes 0 16 d' = sub_bytes 0 16 d.

Lemma same_id_page_id d d' : same_id d d' -> page_id d' = page_id d.
Proof.
  intros Hs. unfold page_id, load_le. f_equal. unfold same_id, sub_bytes in *. rewrite !drop_0 in *.
  apply (f_equal (take 8)) in Hs. rewrite !take_take in Hs. exact Hs.
Qed.

Lemma rep_init pid : rep (init pid) [].
Proof.
  unfold init. split.
  - page_rw. apply length_replicate.
  - page_rw. rewrite load_store_same; [done|]. page_rw. rewrite length_replicate. page_lia.
  - page_rw. rewrite load_store_same by (page_rw; rewrite length_replicate; page_lia).
    vm_compute. split; discriminate.
  - done.
  - done.
  - page_rw. rewrite load_store_same by (page_rw; rewrite length_replicate; page_lia). done.
Qed.

Lemma free_space_spec d ts :
  rep d ts -> free_space d = free_space_ptr d - Z.of_nat (slot (length ts)).
Proof.
  intros HR. unfold free_space. rewrite (rep_count _ _ HR). pose proof (rep_dir _ _ HR).
  replace (Z.of_nat sizeof_Header + Z.of_nat (length ts) * Z.of_nat sizeof_Slot)
    with (Z.of_nat (slot (length ts))) by page_lia.
  destruct (Z.ltb_spec (free_space_ptr d) (Z.of_nat (slot (length ts)))); [lia|].
  apply wrap_small. lia.
Qed.

Lemma push_payload_spec d ts p :
  rep d ts -> Z.of_nat (length p) <= free_space_ptr d - Z.of_nat (slot (length ts)) ->
  let d' := push_payload p d in
  length d' = PAGE_SIZE /\ same_id d d' /\ slot_count d' = slot_count d /\
  free_space_ptr d' = free_space_ptr d - Z.of_nat (length p) /\
  (forall j, (j < length ts)%nat ->
     slot_offset j d' = slot_offset j d /\ slot_size j d' = slot_size j d /\ slot_deleted j d' = slot_deleted j d) /\
  (forall o n, free_space_ptr d <= Z.of_nat o -> sub_bytes o n d' = sub_bytes o n d) /\
  sub_bytes (Z.to_nat (free_space_ptr d')) (length p) d' = p.
Proof.
  intros HR Hp. pose proof (rep_len _ _ HR) as Hlen. pose proof (rep_dir _ _ HR) as Hdir.
  assert (u16 (free_space_ptr d - u16 (Z.of_nat (length p))) = free_space_ptr d - Z.of_nat (length p)) as Hptr.
  { rewrite (wrap_small 16 (Z.of_nat _)), wrap_small by page_lia. done. }
  set (f := free_space_ptr d - Z.of_nat (length p)) in *.
  assert (free_space_ptr (set_free_space_ptr f d) = f) as Hset.
  { page_rw. rewrite load_store_same by page_lia. apply wrap_small. page_lia. }
  unfold push_payload. rewrite Hptr, Hset.
  assert (free_space_ptr (store_bytes (Z.to_nat f) p (set_free_space_ptr f d)) = f) as Hf'.
  { etrans; [|exact Hset]. apply load_store_bytes_disjoint. page_lia. }
  cbv zeta. rewrite Hf'. split_and!.
  - by page_rw.
  - unfold same_id. rewrite sub_store_disjoint by page_lia. unfold set_free_space_ptr.
    rewrite sub_store_le_disjoint by page_lia. done.
  - page_rw. done.
  - done.
  - intros j Hj. page_rw. done.
  - intros o n Ho. rewrite sub_store_disjoint by page_lia. unfold set_free_space_ptr.
    rewrite sub_store_le_disjoint by page_lia. done.
  - apply sub_store_same. page_rw. page_lia.
Qed.

(** Writing the three fields of slot [i], which lies below the free space. *)
Definition write_slot (i : nat) (off sz del : Z) (d : t) : t :=
  set_slot_deleted i del (set_slot_size i sz (set_slot_offset i off d)).

Lemma write_slot_spec d i off sz del :
  length d = PAGE_SIZE -> (slot (S i) <= PAGE_SIZE)%nat ->
  0 <= off < 2 ^ 16 -> 0 <= sz < 2 ^ 16 -> 0 <= del < 2 ^ 8 ->
  let d' := write_slot i off sz del d in
  length d' = PAGE_SIZE /\ same_id d d' /\ slot_count d' = slot_count d /\
  free_space_ptr d' = free_space_ptr d /\
  slot_offset i d' = off /\ slot_size i d' = sz /\ slot_deleted i d' = del /\
  (forall j, j <> i ->
     slot_offset j d' = slot_offset j d /\ slot_size j d' = slot_size j d /\ slot_deleted j d' = slot_deleted j d) /\
  (forall o n, (slot (S i) <= o)%nat -> sub_bytes o n d' = sub_bytes o n d).
Proof.
  intros Hlen Hi Hoff Hsz Hdel d'. unfold d', write_slot. split_and!.
  - by page_rw.
  - unfold same_id, set_slot_deleted, set_slot_size, set_slot_offset.
    by rewrite !sub_store_le_disjoint by page_lia.
  - by page_rw.
  - by page_rw.
  - page_rw. rewrite load_store_same by page_lia. by apply wrap_small.
  - page_rw. rewrite load_store_same by (page_rw; page_lia). by apply wrap_small.
  - page_rw. rewrite load_store_same by (page_rw; page_lia). by apply wrap_small.
  - intros j Hj. by page_rw.
  - intros o n Ho. unfold set_slot_deleted, set_slot_size, set_slot_offset.
    by rewrite !sub_store_le_disjoint by page_lia.
Qed.

Lemma find_deleted_spec n i d :
  let k := find_deleted n i d in
  (i <= k <= i + n)%nat /\ ((k < i + n)%nat -> slot_deleted k d <> 0) /\
  (forall j, (i <= j < k)%nat -> slot_deleted j d = 0).
Proof.
  revert i. induction n as [|n IH]; intros i; cbn [find_deleted].
  - split_and!; [lia|lia|lia|]. intros j Hj. lia.
  - destruct (Z.eqb_spec (slot_deleted i d) 0) as [Hd|Hd].
    + destruct (IH (S i)) as (Hk & Hdel & Hbefore). split_and!; [lia|lia|intros; apply Hdel; lia|].
      intros j Hj. destruct (decide (j = i)) as [->|]; [done|]. apply Hbefore. lia.
    + split_and!; [lia|lia|done|]. intros j Hj. lia.
Qed.

(** A deleted slot, or the next slot of the directory. *)
Lemma find_deleted_slot d ts :
  rep d ts ->
  let i := find_deleted (length ts) 0 d in
  (i <= length ts)%nat /\ (i = length ts \/ ts !! i = Some None).
Proof.
  intros HR i. destruct (find_deleted_spec (length ts) 0 d) as (Hi & Hdel & _). fold i in Hi, Hdel.
  split; [lia|]. destruct (decide (i = length ts)); [by left|right].
  destruct (lookup_lt_is_Some_2 ts i ltac:(lia)) as [[q|] Hx]; [exfalso|done].
  apply Hdel; [lia|]. apply (rep_slot _ _ HR i _ Hx).
Qed.

Lemma find_deleted_ext n i d d' :
  (forall j, (i <= j < i + n)%nat -> slot_deleted j d' = slot_deleted j d) ->
  find_deleted n i d' = find_deleted n i d.
Proof.
  revert i. induction n as [|n IH]; intros i Hj; cbn [find_deleted]; [done|].
  rewrite Hj by lia. destruct (slot_deleted i d =? 0); [|done]. apply IH. intros. apply Hj. lia.
Qed.

(** The tuples a page names lie behind [free_space_ptr]. *)
Lemma rep_offset d ts j q :
  rep d ts -> ts !! j = Some (Some q) -> q <> [] ->
  free_space_ptr d <= slot_offset j d /\ slot_offset j d + Z.of_nat (length q) <= 4096 /\
  sub_bytes (Z.to_nat (slot_offset j d)) (length q) d = q.
Proof. intros HR Hj Hq. by apply (rep_slot _ _ HR j _ Hj). Qed.

(** Storing a payload in the free space and pointing slot [i] at it. *)
Lemma place_spec d ts i p :
  rep d ts -> (i <= length ts)%nat ->
  Z.of_nat (length p) + (if decide (i = length ts) then 6 else 0) <=
    free_space_ptr d - Z.of_nat (slot (length ts)) ->
  let d1 := push_payload p d in
  let d2 := write_slot i (free_space_ptr d1) (Z.of_nat (length p)) 0 d1 in
  let d3 := if decide (i = length ts) then set_slot_count (slot_count d2 + 1) d2 else d2 in
  rep d3 (put i (Some p) ts) /\ same_id d d3.
Proof.
  intros HR Hi Hroom d1 d2 d3. pose proof (rep_dir _ _ HR) as Hdir. pose proof (rep_count _ _ HR) as Hcnt.
  destruct (push_payload_spec d ts p HR) as (Hl1 & Hid1 & Hc1 & Hf1 & Hs1 & Hm1 & Hp1); [case_decide; lia|].
  fold d1 in Hl1, Hid1, Hc1, Hf1, Hs1, Hm1, Hp1.
  destruct (write_slot_spec d1 i (free_space_ptr d1) (Z.of_nat (length p)) 0 Hl1)
    as (Hl2 & Hid2 & Hc2 & Hf2 & Ho2 & Hz2 & Hd2 & Hs2 & Hm2);
    [case_decide; page_lia|case_decide; page_lia|case_decide; page_lia|lia|].
  fold d2 in Hl2, Hid2, Hc2, Hf2, Ho2, Hz2, Hd2, Hs2, Hm2.
  assert (length d3 = PAGE_SIZE /\ same_id d d3 /\ slot_count d3 = Z.of_nat (length (put i (Some p) ts)) /\
    free_space_ptr d3 = free_space_ptr d1 /\
    (forall j, slot_offset j d3 = slot_offset j d2 /\ slot_size j d3 = slot_size j d2 /\
               slot_deleted j d3 = slot_deleted j d2) /\
    forall o n, (slot 0 <= o)%nat -> sub_bytes o n d3 = sub_bytes o n d2) as (Hl3 & Hid3 & Hc3 & Hf3 & Hs3 & Hm3).
  { rewrite length_put by done. unfold d3. destruct (decide (i = length ts)) as [->|Hne].
    - split_and!.
      + by page_rw.
      + unfold same_id in *. rewrite <- Hid1, <- Hid2. unfold set_slot_count.
        by rewrite sub_store_le_disjoint by page_lia.
      + rewrite Hc2, Hc1, Hcnt. page_rw. rewrite load_store_same, wrap_small by page_lia. lia.
      + rewrite <- Hf2. by page_rw.
      + intros j. by page_rw.
      + intros o n Ho. unfold set_slot_count. by rewrite sub_store_le_disjoint by page_lia.
    - split_and!; try done; [|rewrite Hc2, Hc1, Hcnt; lia]. unfold same_id in *. congruence. }
  clearbody d3. split; [|done].
  assert (forall o n, free_space_ptr d1 <= Z.of_nat o -> sub_bytes o n d3 = sub_bytes o n d1) as Hm.
  { intros o n Ho. rewrite Hm3, Hm2; [done|case_decide; page_lia|case_decide; page_lia]. }
  apply (rep_put d); try done.
  - rewrite Hf3, Hf1, length_put by done. case_decide; page_lia.
  - intros j Hj Hne. destruct (Hs3 j) as (-> & -> & ->), (Hs2 j Hne) as (-> & -> & ->). by apply Hs1.
  - intros j q Hj Hne Hq. destruct (rep_offset d ts j q HR Hj Hq) as (Hlo & _).
    rewrite Hm, Hm1; [done|lia|rewrite Hf1; lia].
  - destruct (Hs3 i) as (Hso & Hsz & Hsd). unfold slot_rep. rewrite Hsd, Hsz, Hso, Hd2, Hz2, Ho2, Hf3.
    split_and!; [done|done|]. intros _. split_and!; [lia|lia|]. rewrite Hm; [done|]. case_decide; page_lia.
  - intros p' j q [= <-] Hj Hne Hp' Hq. destruct (Hs3 i) as (-> & _). rewrite Ho2.
    destruct (rep_offset d ts j q HR Hj Hq) as (Hlo & _). unfold apart. lia.
  - pose proof (live_put i (Some p) ts Hi) as Hlp. change (length (default [] (Some p))) with (length p) in Hlp.
    pose proof (rep_live _ _ HR). rewrite Hf3, Hf1. lia.
Qed.

(** ** Compaction *)

Lemma live_take_S ts i x :
  ts !! i = Some x -> live_bytes (take (S i) ts) = (live_bytes (take i ts) + length (default [] x))%nat.
Proof. intros Hx. rewrite (take_S_r _ _ _ Hx), live_app, live_cons. cbn. lia. Qed.

Lemma live_take_le ts i : (live_bytes (take i ts) <= live_bytes ts)%nat.
Proof. rewrite <- (take_drop i ts) at 2. rewrite live_app. lia. Qed.

(** The loop has moved the tuples of the first [i] slots into [temp]. *)
Record compacting (d0 : t) (ts : tuples) (i : nat) (c : t * list Z * Z) : Prop := {
  ci_len : length c.1.1 = PAGE_SIZE /\ length c.1.2 = PAGE_SIZE;
  ci_hdr : same_id d0 c.1.1 /\ slot_count c.1.1 = slot_count d0;
  ci_slots j : slot_size j c.1.1 = slot_size j d0 /\ slot_deleted j c.1.1 = slot_deleted j d0;
  ci_rest j : (i <= j)%nat -> slot_offset j c.1.1 = slot_offset j d0;
  ci_mem o n : (slot (length ts) <= o)%nat -> sub_bytes o n c.1.1 = sub_bytes o n d0;
  ci_ptr : c.2 = 4096 - Z.of_nat (live_bytes (take i ts));
  ci_moved j p : ts !! j = Some (Some p) -> (j < i)%nat -> p <> [] ->
    c.2 <= slot_offset j c.1.1 /\ slot_offset j c.1.1 + Z.of_nat (length p) <= 4096 /\
    sub_bytes (Z.to_nat (slot_offset j c.1.1)) (length p) c.1.2 = p;
  ci_apart j k p q : ts !! j = Some (Some p) -> ts !! k = Some (Some q) -> (j < i)%nat -> (k < i)%nat ->
    j <> k -> p <> [] -> q <> [] ->
    apart (slot_offset j c.1.1) (Z.of_nat (length p)) (slot_offset k c.1.1) (Z.of_nat (length q)) }.

Lemma compact_start d ts : rep d ts -> compacting d ts 0 (d, replicate PAGE_SIZE 0, u16 4096).
Proof.
  intros HR. split; cbn [fst snd]; try done; try lia.
  split; [apply HR|apply length_replicate].
Qed.

(** A slot without bytes is left alone. *)
Lemma compact_skip d0 ts i c x :
  compacting d0 ts i c -> ts !! i = Some x -> default [] x = [] -> compacting d0 ts (S i) c.
Proof.
  intros HC Hx Hnil. assert (forall j p, ts !! j = Some (Some p) -> p <> [] -> (j < S i)%nat -> (j < i)%nat) as Hlt.
  { intros j p Hj Hp Hji. destruct (decide (j = i)) as [->|]; [|lia]. by simplify_eq. }
  split; try apply HC.
  - intros j Hj. apply HC. lia.
  - rewrite (ci_ptr _ _ _ _ HC), (live_take_S _ _ _ Hx), Hnil. cbn. lia.
  - intros j p Hj Hji Hp. by apply (ci_moved _ _ _ _ HC); [|eapply Hlt|].
  - intros j k p q Hj Hk Hji Hki Hne Hp Hq. apply (ci_apart _ _ _ _ HC); eauto.
Qed.

Lemma compact_move d0 ts i d temp ptr p :
  rep d0 ts -> compacting d0 ts i (d, temp, ptr) -> ts !! i = Some (Some p) -> p <> [] ->
  let ptr' := ptr - Z.of_nat (length p) in
  compacting d0 ts (S i) (set_slot_offset i ptr' d, store_bytes (Z.to_nat ptr') p temp, ptr').
Proof.
  intros HR HC Hx Hp ptr'. pose proof (lookup_lt_Some _ _ _ Hx) as Hi. pose proof (rep_dir _ _ HR) as Hdir.
  pose proof (rep_live _ _ HR) as Hlive. pose proof (live_take_le ts (S i)) as Hle.
  pose proof (ci_ptr _ _ _ _ HC) as Hptr. destruct (ci_len _ _ _ _ HC) as [Hld Hlt]. cbn [fst snd] in *.
  rewrite (live_take_S _ _ _ Hx) in Hle. change (length (default [] (Some p))) with (length p) in Hle.
  assert (0 <= ptr' < 2 ^ 16) as Hp' by (unfold ptr'; page_lia).
  assert (slot_offset i (set_slot_offset i ptr' d) = ptr') as Hset.
  { page_rw. rewrite load_store_same by page_lia. by apply wrap_small. }
  assert (forall j, j <> i -> slot_offset j (set_slot_offset i ptr' d) = slot_offset j d) as Hother
    by (intros j Hj; by page_rw).
  split; cbn [fst snd].
  - split; by page_rw.
  - destruct (ci_hdr _ _ _ _ HC) as [Hid Hc]. cbn [fst] in *. split; [|rewrite <- Hc; by page_rw].
    unfold same_id in *. rewrite <- Hid. unfold set_slot_offset. by rewrite sub_store_le_disjoint by page_lia.
  - intros j. destruct (ci_slots _ _ _ _ HC j) as [Hs Hd]. cbn [fst] in *. rewrite <- Hs, <- Hd. by page_rw.
  - intros j Hj. rewrite Hother by lia. apply HC. lia.
  - intros o n Ho. rewrite <- (ci_mem _ _ _ _ HC o n Ho). unfold set_slot_offset.
    by rewrite sub_store_le_disjoint by page_lia.
  - rewrite (live_take_S _ _ _ Hx). change (length (default [] (Some p))) with (length p). unfold ptr'. lia.
  - intros j q Hj Hji Hq. destruct (decide (j = i)) as [->|Hne].
    + assert (q = p) as -> by congruence. rewrite Hset. split_and!; [lia|unfold ptr'; lia|]. apply sub_store_same. unfold ptr'. page_lia.
    + destruct (ci_moved _ _ _ _ HC j q Hj ltac:(lia) Hq) as (H1 & H2 & H3). cbn [fst snd] in *.
      rewrite Hother by done. split_and!; [unfold ptr'; lia|done|].
      rewrite sub_store_disjoint; [done|]. right. unfold ptr'. page_lia.
  - assert (forall j q, ts !! j = Some (Some q) -> (j < S i)%nat -> j <> i -> q <> [] -> ptr <= slot_offset j d) as Hlow.
    { intros j q Hj Hji Hne Hq. apply (ci_moved _ _ _ _ HC j q Hj); [lia|done]. }
    intros j k q r Hj Hk Hji Hki Hne Hq Hr. destruct (decide (j = i)) as [->|Hj'], (decide (k = i)) as [->|Hk'].
    + done.
    + rewrite Hset, Hother by done. assert (q = p) as -> by congruence. specialize (Hlow k r Hk Hki Hk' Hr). unfold apart, ptr'. lia.
    + rewrite Hset, Hother by done. assert (r = p) as -> by congruence. specialize (Hlow j q Hj Hji Hj' Hq). unfold apart, ptr'. lia.
    + rewrite !Hother by done. apply (ci_apart _ _ _ _ HC j k q r); try done; lia.
Qed.

Lemma compact_step_spec d0 ts i c :
  rep d0 ts -> compacting d0 ts i c -> (i < length ts)%nat -> compacting d0 ts (S i) (compact_step c i).
Proof.
  intros HR HC Hi. destruct (lookup_lt_is_Some_2 ts i Hi) as [x Hx]. pose proof (rep_slot _ _ HR i x Hx) as Hrep.
  destruct c as [[d temp] ptr]. destruct (ci_slots _ _ _ _ HC i) as [Hs Hd]. cbn [fst] in Hs, Hd.
  unfold compact_step. rewrite Hs, Hd. destruct x as [p|]; cbn [slot_rep] in Hrep.
  2: { destruct (Z.eqb_spec (slot_deleted i d0) 0); [done|]. by eapply compact_skip. }
  destruct Hrep as (Hdel & Hsz & Hmem). rewrite Hdel, Hsz, Z.eqb_refl. cbn [andb].
  destruct (decide (p = [])) as [->|Hp]; [by eapply compact_skip|].
  assert (length p <> 0)%nat as Hlp by (by destruct p).
  destruct (Z.ltb_spec 0 (Z.of_nat (length p))); [|lia]. destruct (Hmem Hp) as (Hlo & Hhi & Hbytes).
  pose proof (ci_rest _ _ _ _ HC i ltac:(lia)) as Ho. cbn [fst] in Ho.
  pose proof (rep_dir _ _ HR). pose proof (ci_mem _ _ _ _ HC (Z.to_nat (slot_offset i d0)) (length p)) as Hm.
  cbn [fst] in Hm. rewrite Ho, Nat2Z.id, Hm, Hbytes by page_lia.
  pose proof (ci_ptr _ _ _ _ HC) as Hptr. cbn [snd] in Hptr. pose proof (live_take_le ts (S i)) as Hle.
  rewrite (live_take_S _ _ _ Hx) in Hle. change (length (default [] (Some p))) with (length p) in Hle.
  pose proof (rep_live _ _ HR). rewrite wrap_small by page_lia. by apply compact_move.
Qed.

Lemma compact_loop d0 ts m i c :
  rep d0 ts -> compacting d0 ts i c -> (i + m = length ts)%nat ->
  compacting d0 ts (length ts) (foldl compact_step c (seq i m)).
Proof.
  intros HR. revert i c. induction m as [|m IH]; intros i c HC Hm; cbn [seq foldl].
  - replace (length ts) with i by lia. done.
  - apply IH; [|lia]. apply compact_step_spec; [done|done|lia].
Qed.

(** The page after the loop, with the moved tuples copied back behind [ptr]. *)
Lemma compact_rep d0 ts d1 temp ptr d :
  rep d0 ts -> compacting d0 ts (length ts) (d1, temp, ptr) -> length d = PAGE_SIZE ->
  free_space_ptr d = ptr ->
  (forall k o, (o + k <= 18 \/ (20 <= o /\ o + k <= Z.to_nat ptr))%nat -> load_le k o d = load_le k o d1) ->
  (forall k o, (Z.to_nat ptr <= o)%nat -> (o + k <= PAGE_SIZE)%nat -> sub_bytes o k d = sub_bytes o k temp) ->
  rep d ts.
Proof.
  intros HR HC Hlen Hf Hld Hmem. pose proof (rep_dir _ _ HR). pose proof (rep_live _ _ HR).
  pose proof (ci_ptr _ _ _ _ HC) as Hptr. rewrite firstn_all in Hptr. cbn [snd] in Hptr.
  assert (forall j, (j < length ts)%nat -> slot_offset j d = slot_offset j d1 /\
    slot_size j d = slot_size j d0 /\ slot_deleted j d = slot_deleted j d0) as Hslot.
  { intros j Hj. destruct (ci_slots _ _ _ _ HC j) as [<- <-].
    unfold slot_offset, slot_size, slot_deleted. rewrite !Hld by page_lia. done. }
  destruct (ci_hdr _ _ _ _ HC) as [_ Hc]. cbn [fst] in Hc. split; [done| | | | |].
  - rewrite <- (rep_count _ _ HR), <- Hc. apply Hld. page_lia.
  - rewrite Hf. lia.
  - intros j x Hx. pose proof (rep_slot _ _ HR j x Hx) as Hr.
    destruct (Hslot j) as (Ho & Hs & Hd); [by eapply lookup_lt_Some|].
    unfold slot_rep in *. rewrite Ho, Hs, Hd, Hf. destruct x as [p|]; [|done]. destruct Hr as (? & ? & _).
    split_and!; [done|done|]. intros Hp.
    destruct (ci_moved _ _ _ _ HC j p Hx) as (Hm1 & Hm2 & Hm3); [by eapply lookup_lt_Some|done|].
    cbn [fst snd] in *. rewrite Hmem by page_lia. done.
  - intros j k p q Hj Hk Hne Hp Hq.
    destruct (Hslot j) as (-> & _); [by eapply lookup_lt_Some|]. destruct (Hslot k) as (-> & _); [by eapply lookup_lt_Some|].
    apply (ci_apart _ _ _ _ HC j k p q); try done; by eapply lookup_lt_Some.
  - lia.
Qed.

Lemma compact_spec d ts :
  rep d ts -> rep (compact d) ts /\ same_id d (compact d) /\
  free_space_ptr (compact d) = 4096 - Z.of_nat (live_bytes ts).
Proof.
  intros HR. unfold compact. rewrite (rep_count _ _ HR), Nat2Z.id.
  pose proof (compact_loop d ts (length ts) 0 _ HR (compact_start d ts HR) eq_refl) as HC.
  destruct (foldl compact_step _ _) as [[d1 temp] ptr]. pose proof (rep_dir _ _ HR) as Hdir.
  pose proof (ci_ptr _ _ _ _ HC) as Hptr. rewrite firstn_all in Hptr. cbn [snd] in Hptr.
  pose proof (rep_live _ _ HR) as Hlive. destruct (ci_len _ _ _ _ HC) as [Hl1 Hlt]. cbn [fst snd] in *.
  set (d2 := if 0 <? 4096 - ptr then _ else _).
  assert (length d2 = PAGE_SIZE /\ (forall k o, (o + k <= Z.to_nat ptr)%nat -> sub_bytes o k d2 = sub_bytes o k d1) /\
    (forall k o, (Z.to_nat ptr <= o)%nat -> (o + k <= PAGE_SIZE)%nat -> sub_bytes o k d2 = sub_bytes o k temp))
    as (Hl2 & Hm2 & Ht2).
  { unfold d2. destruct (Z.ltb_spec 0 (4096 - ptr)).
    - split_and!; [by page_rw| |].
      + intros k o Ho. by rewrite sub_store_disjoint by page_lia.
      + intros k o Hlo Hhi. apply sub_store_inside; page_lia.
    - split_and!; [done|done|]. intros k o Hlo Hhi. replace k with 0%nat by page_lia. done. }
  clearbody d2.
  assert (forall k o, (o + k <= 18 \/ (20 <= o /\ o + k <= Z.to_nat ptr))%nat ->
    load_le k o (set_free_space_ptr ptr d2) = load_le k o d1) as Hld.
  { intros k o Ho. unfold set_free_space_ptr. rewrite load_store_disjoint by page_lia. unfold load_le.
    by rewrite Hm2 by page_lia. }
  assert (free_space_ptr (set_free_space_ptr ptr d2) = ptr) as Hf.
  { page_rw. rewrite load_store_same by page_lia. apply wrap_small. page_lia. }
  destruct (ci_hdr _ _ _ _ HC) as [Hid Hc]. cbn [fst] in *.
  split_and!; [|unfold same_id, set_free_space_ptr in *; rewrite sub_store_le_disjoint, Hm2 by page_lia; done
               |by rewrite Hf].
  apply (compact_rep d ts d1 temp ptr); try done; [by page_rw|].
  intros k o Hlo Hhi. unfold set_free_space_ptr. rewrite sub_store_le_disjoint by page_lia. by apply Ht2.
Qed.

(** ** The operations refine operations on the abstract page *)

(** Bytes left once everything is compacted. *)
Definition room (ts : tuples) : Z := 4096 - Z.of_nat (live_bytes ts) - Z.of_nat (slot (length ts)).

Fixpoint first_free (ts : tuples) : nat :=
  match ts with
  | [] => 0
  | None :: _ => 0
  | Some _ :: ts' => S (first_free ts')
  end.

Definition spec_insert (p : list Z) (ts : tuples) : option nat * tuples :=
  if room ts <? Z.of_nat (length p) + 6 then (None, ts)
  else (Some (first_free ts), put (first_free ts) (Some p) ts).

Definition spec_get (i : nat) (ts : tuples) : option (list Z) := mjoin (ts !! i).

Definition spec_update (i : nat) (p : list Z) (ts : tuples) : bool * tuples :=
  match ts !! i with
  | Some (Some q) =>
      if (length p <=? length q)%nat || (Z.of_nat (length p) <=? room ts)
      then (true, put i (Some p) ts) else (false, ts)
  | _ => (false, ts)
  end.

Definition spec_delete (i : nat) (ts : tuples) : bool * tuples :=
  match ts !! i with Some (Some _) => (true, put i None ts) | _ => (false, ts) end.

Lemma find_deleted_first d ts i ts0 :
  (forall j x, ts !! j = Some x -> slot_rep d (i + j) x) -> ts0 = ts ->
  find_deleted (length ts) i d = (i + first_free ts0)%nat.
Proof.
  intros Hs ->. revert i Hs. induction ts as [|x ts IH]; intros i Hs; cbn [find_deleted length first_free]; [lia|].
  pose proof (Hs 0%nat x eq_refl) as Hx. rewrite Nat.add_0_r in Hx. destruct x as [p|]; cbn [slot_rep] in Hx.
  - destruct Hx as [-> _]. cbn. rewrite IH; [lia|]. intros j y Hj.
    replace (S i + j)%nat with (i + S j)%nat by lia. by apply Hs.
  - destruct (Z.eqb_spec (slot_deleted i d) 0); [done|]. lia.
Qed.

Lemma first_free_le ts : (first_free ts <= length ts)%nat.
Proof. induction ts as [|[p|] ts IH]; cbn; lia. Qed.

Lemma get_spec d ts i : rep d ts -> get_tuple i d = spec_get i ts.
Proof.
  intros HR. unfold get_tuple, spec_get. rewrite (rep_count _ _ HR).
  destruct (Z.leb_spec (Z.of_nat (length ts)) (Z.of_nat i)) as [Hge|Hlt].
  - by rewrite lookup_ge_None_2 by lia.
  - destruct (lookup_lt_is_Some_2 ts i ltac:(lia)) as [x Hx]. rewrite Hx.
    pose proof (rep_slot _ _ HR i x Hx) as Hr. destruct x as [p|]; cbn [slot_rep mjoin option_join] in *.
    + destruct Hr as (-> & -> & Hp). cbn. rewrite Nat2Z.id. f_equal. destruct p as [|b p]; [done|]. by apply Hp.
    + by destruct (Z.eqb_spec (slot_deleted i d) 0).
Qed.

(** Making room: afterwards the free space is all that can be had, or already
    enough. *)
Lemma make_room d ts n :
  rep d ts ->
  let d' := if free_space d <? n then compact d else d in
  rep d' ts /\ same_id d d' /\ (free_space d' <? n) = (room ts <? n).
Proof.
  intros HR d'. unfold d'. pose proof (free_space_spec _ _ HR) as Hf. pose proof (rep_live _ _ HR).
  destruct (Z.ltb_spec (free_space d) n) as [Hlt|Hge].
  - destruct (compact_spec d ts HR) as (HR' & Hid & Hptr). split_and!; [done|done|].
    by rewrite (free_space_spec _ _ HR'), Hptr.
  - split_and!; [done|done|]. unfold room. rewrite Hf in *.
    destruct (Z.ltb_spec (free_space_ptr d - Z.of_nat (slot (length ts))) n); [lia|].
    symmetry. apply Z.ltb_ge. lia.
Qed.

Lemma same_id_trans d1 d2 d3 : same_id d1 d2 -> same_id d2 d3 -> same_id d1 d3.
Proof. unfold same_id. congruence. Qed.

Lemma insert_spec d ts p :
  rep d ts ->
  let '(r, d') := insert_tuple p d in
  let '(r', ts') := spec_insert p ts in
  r = r' /\ rep d' ts' /\ same_id d d'.
Proof.
  intros HR. unfold insert_tuple, spec_insert.
  destruct (make_room d ts (Z.of_nat (length p) + Z.of_nat sizeof_Slot) HR) as (HR1 & Hid & Heq).
  change (Z.of_nat sizeof_Slot) with 6 in *. set (d1 := if free_space d <? _ then _ else _) in *. clearbody d1.
  pose proof (free_space_spec _ _ HR1) as Hfs. rewrite Heq.
  destruct (Z.ltb_spec (room ts) (Z.of_nat (length p) + 6)) as [Hno|Hyes]; [done|].
  assert (Z.of_nat (length p) + 6 <= free_space d1) as Hroom by (apply Z.ltb_ge; by rewrite Heq).
  pose proof (first_free_le ts) as Hff. pose proof (rep_dir _ _ HR1) as Hdir. pose proof (rep_count _ _ HR1) as Hcnt.
  destruct (push_payload_spec d1 ts p HR1) as (Hl & _ & Hc & Hptr & Hs & _); [lia|].
  pose proof (place_spec d1 ts (first_free ts) p HR1 Hff) as Hplace.
  cbv zeta in Hplace. unfold insert_here.
  rewrite Hc, Hcnt, Nat2Z.id.
  rewrite (find_deleted_ext _ _ d1) by (intros j Hj; apply Hs; lia).
  rewrite (find_deleted_first d1 ts 0 ts) by (auto; intros j x Hj; by apply (rep_slot _ _ HR1)). cbn [Nat.add].
  rewrite (wrap_small 16 (Z.of_nat (length p))) by page_lia.
  fold (write_slot (first_free ts) (free_space_ptr (push_payload p d1)) (Z.of_nat (length p)) 0 (push_payload p d1)).
  destruct (write_slot_spec (push_payload p d1) (first_free ts) (free_space_ptr (push_payload p d1))
              (Z.of_nat (length p)) 0) as (_ & _ & Hc2 & _); [done|page_lia|page_lia|page_lia|lia|].
  rewrite Hc2, Hc, Hcnt, (wrap_small 16 (Z.of_nat (length ts) + 1)) by page_lia.
  rewrite Hc2, Hc, Hcnt in Hplace.
  split; [done|]. destruct (decide (first_free ts = length ts)) as [He|Hne].
  - rewrite He, Z.eqb_refl in *. destruct Hplace as [? ?]; [lia|].
    split; [done|]. by eapply same_id_trans.
  - destruct (Z.eqb_spec (Z.of_nat (first_free ts)) (Z.of_nat (length ts))); [lia|].
    destruct Hplace as [? ?]; [lia|]. split; [done|]. by eapply same_id_trans.
Qed.

(** Clearing a flag byte that is already clear changes nothing. *)
Lemma set_deleted_id i d :
  length d = PAGE_SIZE -> (slot (S i) <= PAGE_SIZE)%nat -> slot_deleted i d = 0 -> set_slot_deleted i 0 d = d.
Proof.
  intros Hl Hi Hd. unfold set_slot_deleted, slot_deleted in *.
  destruct (lookup_lt_is_Some_2 d (slot i + 4)%nat) as [b Hb]; [page_lia|].
  unfold load_le, sub_bytes in Hd. rewrite (drop_S _ _ _ Hb) in Hd.
  change (b + 256 * 0 = 0) in Hd.
  unfold store_le, store_bytes. change (le_encode 1 0) with [0]. cbn [list_inserts].
  apply list_insert_id. rewrite Hb. f_equal. lia.
Qed.

Lemma nonempty_shorter (p q : list Z) : p <> [] -> (length p <= length q)%nat -> q <> [].
Proof. intros Hp Hle ->. apply Hp, nil_length_inv. cbn in Hle. lia. Qed.

(** Overwriting a tuple by one that is not longer. *)
Lemma overwrite_spec d ts i p q :
  rep d ts -> ts !! i = Some (Some q) -> (length p <= length q)%nat ->
  let d' := set_slot_size i (u16 (Z.of_nat (length p))) (store_bytes (Z.to_nat (slot_offset i d)) p d) in
  rep d' (put i (Some p) ts) /\ same_id d d'.
Proof.
  intros HR Hq Hle d'. pose proof (lookup_lt_Some _ _ _ Hq) as Hi. pose proof (rep_dir _ _ HR) as Hdir.
  pose proof (rep_len _ _ HR) as Hlen. pose proof (rep_slot _ _ HR i _ Hq) as (Hdel & Hsz & Hmem).
  pose proof (live_bound ts i q Hq). pose proof (rep_live _ _ HR) as Hlive.
  assert (u16 (Z.of_nat (length p)) = Z.of_nat (length p)) as Hw by (apply wrap_small; page_lia).
  set (o := Z.to_nat (slot_offset i d)) in *. set (d1 := store_bytes o p d) in *.
  assert (p <> [] -> (slot (length ts) <= o)%nat /\ (o + length q <= PAGE_SIZE)%nat) as Ho.
  { intros Hp. destruct Hmem as (? & ? & _); [by apply (nonempty_shorter p)|]. unfold o. page_lia. }
  assert (forall k a, (a + k <= slot (length ts))%nat -> sub_bytes a k d1 = sub_bytes a k d) as Hlow.
  { intros k a Ha. unfold d1. destruct p as [|b p]; [done|]. destruct (Ho ltac:(done)).
    by rewrite sub_store_disjoint by page_lia. }
  assert (forall k a, (a + k <= slot (length ts))%nat -> load_le k a d1 = load_le k a d) as Hload
    by (intros k a Ha; unfold load_le; by rewrite Hlow).
  assert (length d1 = PAGE_SIZE) as Hl1 by (unfold d1; by rewrite length_store_bytes).
  assert (rep d' (put i (Some p) ts)) as HR'.
  { apply (rep_put d); try done; [lia| | | | | | | |].
    - unfold d'. by page_rw.
    - rewrite length_put by lia. unfold d'. page_rw. rewrite Hload by page_lia.
      pose proof (rep_count _ _ HR) as Hc. unfold slot_count in Hc. lia.
    - rewrite length_put by lia. unfold d'. page_rw. rewrite !Hload by page_lia. page_lia.
    - intros j Hj Hne. unfold d'. page_rw. rewrite !Hload by page_lia. done.
    - intros j r Hj Hne Hr. destruct (rep_offset d ts j r HR Hj Hr) as (Hrl & Hrh & _).
      unfold d', set_slot_size. rewrite sub_store_le_disjoint by page_lia. unfold d1.
      destruct (decide (p = [])) as [->|Hp]; [done|].
      assert (q <> []) as Hqn by (by apply (nonempty_shorter p)). destruct (Hmem Hqn) as (? & ? & _).
      rewrite sub_store_disjoint; [done|].
      destruct (rep_apart _ _ HR i j q r Hq Hj) as [Ha|Ha]; try done; [right|left]; unfold o; page_lia.
    - unfold slot_rep, d'. rewrite Hw. page_rw. rewrite load_store_same, wrap_small by page_lia.
      page_rw. rewrite !Hload by page_lia. rewrite Hdel. split_and!; [done|done|]. intros Hp.
      destruct Hmem as (? & ? & _); [by apply (nonempty_shorter p)|].
      split_and!; [lia|lia|]. rewrite sub_store_le_disjoint by page_lia. apply sub_store_same. page_lia.
    - intros p' j r [= <-] Hj Hne Hp Hr. unfold d'. page_rw. rewrite Hload by page_lia.
      pose proof (nonempty_shorter _ _ Hp Hle) as Hqn.
      destruct (rep_apart _ _ HR i j q r Hq Hj) as [Ha|Ha]; try done; [left|right]; page_rw; lia.
    - unfold d'. page_rw. rewrite Hload by page_lia.
      pose proof (live_put i (Some p) ts ltac:(lia)) as Hlp. rewrite Hq in Hlp.
      change (length (default [] (Some p))) with (length p) in Hlp. cbn in Hlp. lia. }
  split; [done|]. unfold same_id, d', set_slot_size. rewrite sub_store_le_disjoint by page_lia.
  apply Hlow. page_lia.
Qed.

Lemma update_spec d ts i p :
  rep d ts ->
  let '(r, d') := update_tuple i p d in
  let '(r', ts') := spec_update i p ts in
  r = r' /\ rep d' ts' /\ same_id d d'.
Proof.
  intros HR. unfold update_tuple, spec_update. rewrite (rep_count _ _ HR).
  destruct (Z.leb_spec (Z.of_nat (length ts)) (Z.of_nat i)) as [Hge|Hlt].
  { by rewrite lookup_ge_None_2 by lia. }
  destruct (lookup_lt_is_Some_2 ts i ltac:(lia)) as [x Hx]. rewrite Hx.
  pose proof (rep_slot _ _ HR i x Hx) as Hr. destruct x as [q|]; cbn [slot_rep] in Hr.
  2: { by destruct (Z.eqb_spec (slot_deleted i d) 0). }
  destruct Hr as (Hdel & Hsz & _). rewrite Hdel, Hsz. cbn [negb Z.eqb].
  destruct (Z.leb_spec (Z.of_nat (length p)) (Z.of_nat (length q))) as [Hle|Hgt].
  { destruct (Nat.leb_spec (length p) (length q)); [|lia]. cbn [orb]. split; [done|].
    apply overwrite_spec with q; [done|done|lia]. }
  destruct (Nat.leb_spec (length p) (length q)); [lia|]. cbn [orb].
  destruct (make_room d ts (Z.of_nat (length p)) HR) as (HR1 & Hid & Heq).
  set (d1 := if free_space d <? _ then _ else _) in *. clearbody d1. rewrite Heq, Z.leb_antisym.
  destruct (Z.ltb_spec (room ts) (Z.of_nat (length p))) as [Hno|Hyes]; cbn [negb]; [done|].
  assert (Z.of_nat (length p) <= free_space d1) as Hroom by (apply Z.ltb_ge; by rewrite Heq).
  rewrite (free_space_spec _ _ HR1) in Hroom. pose proof (rep_dir _ _ HR1).
  destruct (push_payload_spec d1 ts p HR1) as (Hl & _ & _ & _ & Hs & _); [lia|].
  destruct (Hs i) as (_ & _ & Hd); [lia|]. rewrite (wrap_small 16) by page_lia.
  pose proof (rep_slot _ _ HR1 i _ Hx) as (Hdel1 & _). rewrite Hdel1 in Hd.
  pose proof (place_spec d1 ts i p HR1 ltac:(lia)) as Hplace. cbv zeta in Hplace.
  rewrite !decide_False in Hplace by lia. destruct Hplace as [HR2 Hid2]; [lia|].
  unfold write_slot in HR2, Hid2. rewrite set_deleted_id in HR2, Hid2; try (by page_rw); try page_lia.
  all: try (unfold set_slot_size, set_slot_offset; by rewrite !length_store_le).
  all: try (rewrite <- Hd; by page_rw).
  split_and!; [done|done|by eapply same_id_trans].
Qed.

Lemma delete_spec d ts i :
  rep d ts ->
  let '(r, d') := delete_tuple i d in
  let '(r', ts') := spec_delete i ts in
  r = r' /\ rep d' ts' /\ same_id d d'.
Proof.
  intros HR. unfold delete_tuple, spec_delete. rewrite (rep_count _ _ HR).
  destruct (Z.leb_spec (Z.of_nat (length ts)) (Z.of_nat i)) as [Hge|Hlt].
  { by rewrite lookup_ge_None_2 by lia. }
  destruct (lookup_lt_is_Some_2 ts i ltac:(lia)) as [x Hx]. rewrite Hx.
  pose proof (rep_slot _ _ HR i x Hx) as Hr. destruct x as [q|]; cbn [slot_rep] in Hr.
  2: { by destruct (Z.eqb_spec (slot_deleted i d) 0). }
  destruct Hr as (Hdel & Hsz & _). rewrite Hdel. cbn [negb Z.eqb]. split; [done|].
  pose proof (rep_len _ _ HR) as Hlen. pose proof (rep_dir _ _ HR) as Hdir. split.
  - apply (rep_put d); try done; [lia| | | | | | |].
    + by page_rw.
    + rewrite length_put by lia. page_rw. pose proof (rep_count _ _ HR) as Hc. unfold slot_count in Hc. lia.
    + rewrite length_put by lia. page_rw. page_lia.
    + intros j Hj Hne. by page_rw.
    + intros j r Hj Hne Hr. destruct (rep_offset d ts j r HR Hj Hr) as (Hrl & Hrh & _).
      unfold set_slot_size, set_slot_deleted. by rewrite !sub_store_le_disjoint by page_lia.
    + cbn [slot_rep]. page_rw. rewrite load_store_same by page_lia. done.
    + page_rw. pose proof (live_put i None ts ltac:(lia)) as Hlp. rewrite Hx in Hlp. cbn in Hlp.
      pose proof (rep_live _ _ HR) as Hlive. unfold free_space_ptr in Hlive. lia.
  - unfold same_id, set_slot_size, set_slot_deleted. by rewrite !sub_store_le_disjoint by page_lia.
Qed.

(** ** The properties *)

Inductive op := Insert (p : list Z) | Get (i : nat) | Update (i : nat) (p : list Z) | Delete (i : nat).
Inductive result := RSlot (r : option nat) | RTuple (r : option (list Z)) | RBool (b : bool).

Definition exec (o : op) (d : t) : result * t :=
  match o with
  | Insert p => prod_map RSlot id (insert_tuple p d)
  | Get i => (RTuple (get_tuple i d), d)
  | Update i p => prod_map RBool id (update_tuple i p d)
  | Delete i => prod_map RBool id (delete_tuple i d)
  end.

Definition spec_exec (o : op) (ts : tuples) : result * tuples :=
  match o with
  | Insert p => prod_map RSlot id (spec_insert p ts)
  | Get i => (RTuple (spec_get i ts), ts)
  | Update i p => prod_map RBool id (spec_update i p ts)
  | Delete i => prod_map RBool id (spec_delete i ts)
  end.

Fixpoint run {S} (f : op -> S -> result * S) (ops : list op) (s : S) : list result * S :=
  match ops with
  | [] => ([], s)
  | o :: ops' => let '(r, s) := f o s in let '(rs, s) := run f ops' s in (r :: rs, s)
  end.

Lemma exec_spec o d ts :
  rep d ts ->
  (exec o d).1 = (spec_exec o ts).1 /\ rep (exec o d).2 (spec_exec o ts).2 /\ same_id d (exec o d).2.
Proof.
  intros HR. destruct o as [p|i|i p|i]; cbn [exec spec_exec].
  - pose proof (insert_spec d ts p HR) as H. destruct (insert_tuple p d), (spec_insert p ts).
    destruct H as (-> & ? & ?). done.
  - by rewrite (get_spec d ts i HR).
  - pose proof (update_spec d ts i p HR) as H. destruct (update_tuple i p d), (spec_update i p ts).
    destruct H as (-> & ? & ?). done.
  - pose proof (delete_spec d ts i HR) as H. destruct (delete_tuple i d), (spec_delete i ts).
    destruct H as (-> & ? & ?). done.
Qed.

(** C10. The byte-level page implements a directory of variable-length tuples:
    from [init] on, every history of insertions, reads, updates and deletions
    returns exactly what the abstract page returns.  In particular an insertion
    succeeds whenever the tuple and a slot fit into the page after compaction,
    reads return the bytes last written, and [page_id] is never overwritten. *)
Theorem page_refines pid ops :
  0 <= pid < 2 ^ 64 ->
  (run exec ops (init pid)).1 = (run spec_exec ops []).1 /\
  rep (run exec ops (init pid)).2 (run spec_exec ops []).2 /\
  page_id (run exec ops (init pid)).2 = pid.
Proof.
  intros Hpid. assert (page_id (init pid) = pid) as Hid.
  { unfold page_id, init. page_rw. rewrite load_store_same; [by apply wrap_small|].
    rewrite length_replicate. page_lia. }
  assert (forall ops d ts, rep d ts ->
    (run exec ops d).1 = (run spec_exec ops ts).1 /\ rep (run exec ops d).2 (run spec_exec ops ts).2 /\
    same_id d (run exec ops d).2) as Hrun.
  { clear. induction ops as [|o ops IH]; intros d ts HR; cbn [run]; [done|].
    destruct (exec_spec o d ts HR) as (Hr & HR' & Hid).
    destruct (exec o d) as [r d1], (spec_exec o ts) as [r' ts1]. cbn [fst snd] in *.
    destruct (IH d1 ts1 HR') as (Hrs & HR'' & Hid').
    destruct (run exec ops d1) as [rs d2], (run spec_exec ops ts1) as [rs' ts2]. cbn [fst snd] in *.
    subst. split_and!; [done|done|by eapply same_id_trans]. }
  destruct (Hrun ops (init pid) [] (rep_init pid)) as (? & ? & Hsame). split_and!; [done|done|].
  etrans; [by apply same_id_page_id|done].
Qed.

(** [compact] loses nothing and is exhaustive: it keeps every slot and
    every tuple byte for byte, and afterwards the free space is the page minus
    header, slots and live tuples. *)
Theorem page_compact d ts :
  rep d ts ->
  (forall i, get_tuple i (compact d) = get_tuple i d) /\
  slot_count (compact d) = slot_count d /\ page_id (compact d) = page_id d /\
  free_space (compact d) = 4096 - Z.of_nat (slot (length ts)) - Z.of_nat (live_bytes ts).
Proof.
  intros HR. destruct (compact_spec d ts HR) as (HR' & Hid & Hf). split_and!.
  - intros i. by rewrite (get_spec _ ts _ HR), (get_spec _ ts _ HR').
  - by rewrite (rep_count _ _ HR), (rep_count _ _ HR').
  - by apply same_id_page_id.
  - rewrite (free_space_spec _ _ HR'), Hf. lia.
Qed.

(** ** Witnesses *)

Definition ex_ops : list op :=
  [Insert [1; 2; 3]; Insert [4; 5]; Update 0 [9; 9; 9; 9]; Delete 1; Get 0; Get 1; Insert [7]; Get 1].

Lemma page_refines_witness :
  (run exec ex_ops (init 42)).1 =
  [RSlot (Some 0%nat); RSlot (Some 1%nat); RBool true; RBool true; RTuple (Some [9; 9; 9; 9]); RTuple None;
   RSlot (Some 1%nat); RTuple (Some [7])].
Proof. destruct (page_refines 42 ex_ops ltac:(lia)) as [-> _]. vm_compute. reflexivity. Defined.

Lemma page_compact_witness :
  free_space (compact (run exec ex_ops (init 42)).2) = 4096 - 24 - 12 - 5.
Proof.
  assert (rep (run exec ex_ops (init 42)).2 (run spec_exec ex_ops []).2) as HR.
  { pose proof (rep_init 42) as H. revert H. generalize (init 42) ([] : tuples). induction ex_ops as [|o ops IH].
    - done.
    - intros d ts HR. cbn [run]. destruct (exec_spec o d ts HR) as (_ & HR' & _).
      destruct (exec o d) as [r d1], (spec_exec o ts) as [r' ts1]. specialize (IH d1 ts1 HR').
      destruct (run exec ops d1), (run spec_exec ops ts1). done. }
  destruct (page_compact _ _ HR) as (_ & _ & _ & ->). vm_compute. reflexivity.
Defined.
End Page.
