(* ===== verification/LruK.v ===== *)
(** * The LRU-K replacer

    Model of [LRUKReplacer] (07-database-storage-and-buffer-pool,
    lru_k_replacer.hpp).  The latch makes every operation one step.  The order
    in which [victim] visits the unordered map is a parameter: any list that
    holds the entries of the map once each.  [Replacer] is the contract the
    buffer pool relies on. *)

From S2P Require Import Prelude.

#[local] Open Scope Z_scope.
#[local] Open Scope cpp_scope.

(** What a frame replacer promises: the tracked frames, with their evictable
    flag, change as the calls say, and a victim is an evictable frame. *)
Class Replacer (R : Type) (rinv : R -> Prop) := {
  rep_flags : R -> gmap Z bool;
  rep_record : Z -> R -> R;
  rep_set : Z -> bool -> R -> R;
  rep_victim : list Z -> R -> option Z * R;
  rep_pre : Z -> R -> Prop;
  rep_record_flags f r : rinv r -> rep_pre f r -> rinv (rep_record f r) /\
    rep_flags (rep_record f r) = <[f := default false (rep_flags r !! f)]> (rep_flags r);
  rep_set_flags f b r : rinv r -> rinv (rep_set f b r) /\
    rep_flags (rep_set f b r) = (if decide (is_Some (rep_flags r !! f)) then <[f := b]> (rep_flags r) else rep_flags r);
  rep_victim_flags order r : rinv r -> order ≡ₚ (map_to_list (rep_flags r)).*1 ->
    match rep_victim order r with
    | (None, r') => r' = r /\ forall f, rep_flags r !! f <> Some true
    | (Some f, r') => rinv r' /\ rep_flags r !! f = Some true /\ rep_flags r' = delete f (rep_flags r)
    end;
  rep_victim_pre order f r : rep_pre f r -> rep_pre f (rep_victim order r).2 }.

Module LruK.

Section lruk.
Context (k_ : nat).

Record FrameNode := mk_node { history : list Z; is_evictable : bool }.

Record t := mk {
  curr_size_ : Z;
  current_timestamp_ : Z;
  entries_ : gmap Z FrameNode }.

Definition LRUKReplacer : t := mk 0 0 ∅.

(** [entries_[frame_id]] creates a default node when there is none. *)
Definition record_access (frame_id : Z) (s : t) : t :=
  let now := current_timestamp_ s +64 1 in
  let node := default (mk_node [] false) (entries_ s !! frame_id) in
  let h := history node ++ [now] in
  let h := if (k_ <? length h)%nat then tail h else h in
  mk (curr_size_ s) now (<[frame_id := mk_node h (is_evictable node)]> (entries_ s)).

Definition set_evictable (frame_id : Z) (b : bool) (s : t) : t :=
  match entries_ s !! frame_id with
  | None => s
  | Some node =>
      if Bool.eqb (is_evictable node) b then s
      else mk (if b then curr_size_ s +64 1 else curr_size_ s -64 1) (current_timestamp_ s)
              (<[frame_id := mk_node (history node) b]> (entries_ s))
  end.

(** The local variables of the scan. *)
Record scan := mk_scan {
  victim_id : Z; max_k_distance : Z; earliest_inf_timestamp : Z; found_inf : bool; found_any : bool }.

(** One iteration; [history.front()] of a full history exists. *)
Definition scan_step (now : Z) (c : scan) (e : Z * FrameNode) : scan :=
  let '(fid, entry) := e in
  if negb (is_evictable entry) then c else
  if (length (history entry) <? k_)%nat then
    let earliest := default 0 (head (history entry)) in
    if negb (found_inf c) || (earliest <? earliest_inf_timestamp c)
    then mk_scan fid (max_k_distance c) earliest true true
    else c
  else if negb (found_inf c) then
    let k_distance := now -64 default 0 (head (history entry)) in
    if negb (found_any c) || (max_k_distance c <? k_distance)
    then mk_scan fid k_distance (earliest_inf_timestamp c) (found_inf c) true
    else c
  else c.

Definition scan_init : scan := mk_scan 0 0 (2 ^ 64 - 1) false false.

(** [order] lists the frames as the iteration over [entries_] meets them. *)
Definition victim (order : list Z) (s : t) : option Z * t :=
  if curr_size_ s =? 0 then (None, s) else
  let es := omap (fun f => (fun n => (f, n)) <$> entries_ s !! f) order in
  let c := foldl (scan_step (current_timestamp_ s)) scan_init es in
  if found_any c
  then (Some (victim_id c),
        mk (curr_size_ s -64 1) (current_timestamp_ s) (delete (victim_id c) (entries_ s)))
  else (None, s).

Definition remove (frame_id : Z) (s : t) : t :=
  match entries_ s !! frame_id with
  | None => s
  | Some node =>
      mk (if is_evictable node then curr_size_ s -64 1 else curr_size_ s) (current_timestamp_ s)
         (delete frame_id (entries_ s))
  end.

Definition size (s : t) : Z := curr_size_ s.

(** ** Specification *)

Definition evictable (s : t) (f : Z) (n : FrameNode) : Prop := entries_ s !! f = Some n /\ is_evictable n = true.

(** Eviction priority: frames with fewer than [k] accesses first, then by the
    oldest access still remembered (the largest backward k-distance). *)
Definition class (n : FrameNode) : Z := if (length (history n) <? k_)%nat then 0 else 1.
Definition first_access (n : FrameNode) : Z := default 0 (head (history n)).
Definition before (a b : FrameNode) : Prop :=
  class a < class b \/ class a = class b /\ first_access a < first_access b.

Definition evs (m : gmap Z FrameNode) : gmap Z FrameNode := filter (fun e => is_evictable e.2 = true) m.
Definition evictable_set (s : t) : gmap Z FrameNode := evs (entries_ s).

Record Inv (s : t) : Prop := {
  inv_k : (0 < k_)%nat;
  inv_size : curr_size_ s = Z.of_nat (base.size (evictable_set s));
  inv_ids f : is_Some (entries_ s !! f) -> 0 <= f < 2 ^ 32;
  inv_now : 0 <= current_timestamp_ s < 2 ^ 64;
  inv_hist f n : entries_ s !! f = Some n ->
    history n <> [] /\ (length (history n) <= k_)%nat /\
    StronglySorted Z.lt (history n) /\ Forall (fun x => 0 < x <= current_timestamp_ s) (history n);
  inv_distinct f g n m x : entries_ s !! f = Some n -> entries_ s !! g = Some m ->
    x ∈ history n -> x ∈ history m -> f = g }.
(** ** The scan finds a frame of the highest priority *)

Definition scan_ok (now : Z) (c : scan) (seen : list (Z * FrameNode)) : Prop :=
  if found_any c then
    exists n, (victim_id c, n) ∈ seen /\ is_evictable n = true /\
      (forall g m, (g, m) ∈ seen -> is_evictable m = true -> ~ before m n) /\
      if found_inf c then class n = 0 /\ earliest_inf_timestamp c = first_access n
      else class n = 1 /\ max_k_distance c = now - first_access n
  else found_inf c = false /\ forall g m, (g, m) ∈ seen -> is_evictable m = false.

(** [n] becomes the candidate when it is not behind the previous one. *)
Lemma scan_take now c seen f n c' :
  scan_ok now c seen -> is_evictable n = true -> found_any c' = true -> victim_id c' = f ->
  (if found_inf c' then class n = 0 /\ earliest_inf_timestamp c' = first_access n
   else class n = 1 /\ max_k_distance c' = now - first_access n) ->
  (forall v, found_any c = true ->
     (if found_inf c then class v = 0 /\ earliest_inf_timestamp c = first_access v
      else class v = 1 /\ max_k_distance c = now - first_access v) -> ~ before v n) ->
  scan_ok now c' (seen ++ [(f, n)]).
Proof.
  unfold scan_ok. intros Hc Hn Hany <- Hacc Hv. rewrite Hany. exists n.
  split_and!; [apply elem_of_app; right; left|done| |done].
  intros g m [Hin|[= -> ->]%list_elem_of_singleton]%elem_of_app Hm; [|unfold before; lia].
  destruct (found_any c).
  - destruct Hc as (v & _ & _ & Hmin & Hva). specialize (Hmin g m Hin Hm). specialize (Hv v eq_refl Hva).
    unfold before in *. lia.
  - destruct Hc as [_ Hno]. by rewrite (Hno g m Hin) in Hm.
Qed.

(** [n] is passed over when it is not ahead of the candidate. *)
Lemma scan_skip now c seen f n :
  scan_ok now c seen ->
  (is_evictable n = true -> found_any c = true /\ forall v,
     (if found_inf c then class v = 0 /\ earliest_inf_timestamp c = first_access v
      else class v = 1 /\ max_k_distance c = now - first_access v) -> ~ before n v) ->
  scan_ok now c (seen ++ [(f, n)]).
Proof.
  unfold scan_ok. intros Hc Hn. destruct (found_any c).
  - destruct Hc as (v & Hv & Hev & Hmin & Hacc). exists v.
    split_and!; [apply elem_of_app; by left|done| |done].
    intros g m [Hin|[= -> ->]%list_elem_of_singleton]%elem_of_app Hm; [by eapply Hmin|].
    by apply (Hn Hm).
  - destruct Hc as [Hinf Hno]. split; [done|].
    intros g m [Hin|[= -> ->]%list_elem_of_singleton]%elem_of_app; [by eapply Hno|].
    destruct (is_evictable n); [by destruct (Hn eq_refl)|done].
Qed.

Lemma scan_step_ok now c seen f n :
  scan_ok now c seen -> 0 <= now < 2 ^ 64 -> 0 < first_access n <= now ->
  scan_ok now (scan_step now c (f, n)) (seen ++ [(f, n)]).
Proof.
  intros Hc Hnow Hf. assert (found_inf c = true -> found_any c = true) as Himp.
  { unfold scan_ok in Hc. destruct (found_any c); [done|]. destruct Hc as [-> _]. done. }
  assert (now -64 first_access n = now - first_access n) as Hd by (apply wrap_small; lia).
  unfold scan_step. fold (first_access n). rewrite Hd.
  destruct (is_evictable n) eqn:Hev; cbn [negb]; [|apply scan_skip; [done|congruence]].
  assert (class n = if (length (history n) <? k_)%nat then 0 else 1) as Hcl by done.
  destruct (length (history n) <? k_)%nat.
  - destruct (found_inf c) eqn:Hinf; cbn [negb orb].
    + destruct (Z.ltb_spec (first_access n) (earliest_inf_timestamp c)).
      * eapply scan_take; try done. rewrite Hinf. intros v _. unfold before. lia.
      * apply scan_skip; [done|]. intros _. split; [auto|]. rewrite Hinf. intros v. unfold before. lia.
    + eapply scan_take; try done. rewrite Hinf. intros v _. unfold before. lia.
  - destruct (found_inf c) eqn:Hinf; cbn [negb].
    + apply scan_skip; [done|]. intros _. split; [auto|]. rewrite Hinf. intros v. unfold before. lia.
    + destruct (found_any c) eqn:Hany; cbn [negb orb].
      * destruct (Z.ltb_spec (max_k_distance c) (now - first_access n)).
        -- eapply scan_take; try done. rewrite Hinf. intros v _. unfold before. lia.
        -- apply scan_skip; [done|]. intros _. split; [done|]. rewrite Hinf. intros v. unfold before. lia.
      * eapply scan_take; try done. by rewrite Hany.
Qed.

Lemma scan_all now es :
  0 <= now < 2 ^ 64 -> (forall f n, (f, n) ∈ es -> 0 < first_access n <= now) ->
  scan_ok now (foldl (scan_step now) scan_init es) es.
Proof.
  intros Hnow. induction es as [|[f n] es IH] using rev_ind; intros Hes.
  { split; [done|]. by intros g m ?%not_elem_of_nil. }
  rewrite foldl_snoc. apply scan_step_ok; [apply IH|done|apply (Hes f n), elem_of_app; right; left].
  intros g m Hg. apply (Hes g m), elem_of_app. by left.
Qed.
(** ** Every operation preserves the invariant *)

Lemma evs_insert f n m :
  evs (<[f := n]> m) = if is_evictable n then <[f := n]> (evs m) else delete f (evs m).
Proof.
  unfold evs. destruct (is_evictable n) eqn:He; [by rewrite map_filter_insert_True|].
  rewrite map_filter_insert_False, map_filter_delete; [done|]. cbn. congruence.
Qed.

Lemma evictable_lookup s f n : evictable_set s !! f = Some n <-> evictable s f n.
Proof. unfold evictable_set, evs, evictable. by rewrite map_lookup_filter_Some. Qed.

Lemma evictable_lookup_None s f n :
  entries_ s !! f = Some n -> is_evictable n = false -> evictable_set s !! f = None.
Proof.
  intros Hf He. apply eq_None_not_Some. intros [m [Hm ?]%evictable_lookup]. congruence.
Qed.

Lemma entries_bound s : Inv s -> Z.of_nat (base.size (entries_ s)) <= 2 ^ 32.
Proof.
  intros HI. assert (length (map_to_list (entries_ s)).*1 <= length (seqZ 0 (2 ^ 32)))%nat as Hle.
  { apply submseteq_length, NoDup_submseteq; [apply NoDup_fst_map_to_list|].
    intros f ([f' n] & -> & Hn%elem_of_map_to_list)%list_elem_of_fmap. cbn.
    apply elem_of_seqZ. pose proof (inv_ids _ HI f' ltac:(eauto)). lia. }
  rewrite length_fmap, length_map_to_list, length_seqZ in Hle. lia.
Qed.

Lemma evictable_bound s : Inv s -> Z.of_nat (base.size (evictable_set s)) <= 2 ^ 32.
Proof.
  intros HI. pose proof (entries_bound s HI). assert (evictable_set s ⊆ entries_ s) as Hsub
    by apply map_filter_subseteq. apply map_subseteq_size in Hsub. lia.
Qed.

Lemma inv_empty : (0 < k_)%nat -> Inv LRUKReplacer.
Proof.
  intros Hk. split; [done|reflexivity| |cbn; lia|done|done]. by intros f [n ?].
Qed.

Lemma inv_set_evictable f b s : Inv s -> Inv (set_evictable f b s).
Proof.
  intros HI. unfold set_evictable. destruct (entries_ s !! f) as [n|] eqn:Hf; [|done].
  destruct (Bool.eqb (is_evictable n) b) eqn:Hb; [done|].
  pose proof (evictable_bound s HI) as Hbound. apply eqb_false_iff in Hb.
  split; cbn [curr_size_ current_timestamp_ entries_]; [apply HI| | |apply HI| |].
  - rewrite (inv_size _ HI). unfold evictable_set. cbn [entries_]. rewrite evs_insert. cbn [is_evictable].
    fold (evictable_set s). destruct b.
    + rewrite map_size_insert_None.
      * rewrite wrap_small; lia.
      * eapply evictable_lookup_None; [done|by destruct (is_evictable n)].
    + assert (evictable_set s !! f = Some n) as Hn.
      { apply evictable_lookup. split; [done|by destruct (is_evictable n)]. }
      rewrite map_size_delete_Some by eauto.
      assert (base.size (evictable_set s) <> 0%nat) by (intros H0%map_size_empty_inv; rewrite H0 in Hn; done).
      rewrite wrap_small; lia.
  - intros g Hg. apply (inv_ids _ HI). destruct (decide (f = g)) as [<-|Hne]; [eauto|].
    by rewrite lookup_insert_ne in Hg.
  - intros g m Hg. destruct (decide (f = g)) as [<-|Hne].
    + rewrite lookup_insert_eq in Hg. simplify_eq. apply (inv_hist _ HI _ _ Hf).
    + rewrite lookup_insert_ne in Hg by done. apply (inv_hist _ HI _ _ Hg).
  - intros g h m m' x Hg Hh. apply lookup_insert_Some in Hg as [[<- <-]|[? Hg]];
      apply lookup_insert_Some in Hh as [[<- <-]|[? Hh]]; cbn [history]; [done|..].
    + by apply (inv_distinct _ HI f h n m').
    + by apply (inv_distinct _ HI g f m n).
    + by apply (inv_distinct _ HI g h m m').
Qed.

(** The history after an access: what was remembered, and the new time. *)
Lemma record_history s f n :
  Inv s -> current_timestamp_ s + 1 < 2 ^ 64 ->
  n = default (mk_node [] false) (entries_ s !! f) ->
  let h := history n ++ [current_timestamp_ s + 1] in
  let h' := if (k_ <? length h)%nat then tail h else h in
  h' <> [] /\ (length h' <= k_)%nat /\ StronglySorted Z.lt h' /\
  Forall (fun x => 0 < x <= current_timestamp_ s + 1) h' /\
  (forall x, x ∈ h' -> x = current_timestamp_ s + 1 \/ x ∈ history n).
Proof.
  intros HI Hlt -> h h'. pose proof (inv_k _ HI). pose proof (inv_now _ HI).
  set (n := default _ _) in *.
  assert ((length (history n) <= k_)%nat /\ StronglySorted Z.lt (history n) /\
    Forall (fun x => 0 < x <= current_timestamp_ s) (history n)) as (Hl & Hs & Hb).
  { unfold n. destruct (entries_ s !! f) as [m|] eqn:Hf; cbn.
    - destruct (inv_hist _ HI f m Hf) as (_ & ? & ? & ?). done.
    - split_and!; [lia|constructor|constructor]. }
  assert (StronglySorted Z.lt h /\ Forall (fun x => 0 < x <= current_timestamp_ s + 1) h /\
    forall x, x ∈ h -> x = current_timestamp_ s + 1 \/ x ∈ history n) as (Hsh & Hbh & Hin).
  { unfold h. rewrite Forall_forall in Hb. split_and!.
    - apply StronglySorted_app. split_and!; [|done|repeat constructor].
      intros x y Hx ->%list_elem_of_singleton. specialize (Hb x Hx). lia.
    - apply Forall_app. split; [|repeat constructor; lia]. apply Forall_forall. intros x Hx.
      specialize (Hb x Hx). lia.
    - intros x [Hx| ->%list_elem_of_singleton]%elem_of_app; auto. }
  assert (length h = S (length (history n))) as Hlen by (unfold h; rewrite length_app; cbn; lia).
  unfold h'. destruct (Nat.ltb_spec k_ (length h)) as [Hgt|Hle].
  - destruct h as [|a h0]; [done|]. cbn [tail] in *. apply StronglySorted_inv in Hsh as [? _].
    apply Forall_cons in Hbh as [_ ?]. cbn in Hlen.
    split_and!; [intros ->; cbn in *; lia|lia|done|done|]. intros x Hx. apply Hin. by right.
  - split_and!; [by intros Hnil; rewrite Hnil in Hlen|lia|done|done|done].
Qed.

Lemma inv_record_access f s :
  Inv s -> 0 <= f < 2 ^ 32 -> current_timestamp_ s + 1 < 2 ^ 64 -> Inv (record_access f s).
Proof.
  intros HI Hf Hlt. pose proof (inv_now _ HI).
  assert (current_timestamp_ s +64 1 = current_timestamp_ s + 1) as Hn by (apply wrap_small; lia).
  unfold record_access. rewrite Hn.
  destruct (record_history s f _ HI Hlt eq_refl) as (Hne & Hlen & Hs & Hb & Hin).
  set (n := default (mk_node [] false) (entries_ s !! f)) in *.
  set (h := history n ++ [current_timestamp_ s + 1]) in *.
  set (h' := if (k_ <? length h)%nat then tail h else h) in *.
  split; cbn [curr_size_ current_timestamp_ entries_]; [apply HI| | |lia| |].
  - rewrite (inv_size _ HI). unfold evictable_set. cbn [entries_]. rewrite evs_insert. cbn [is_evictable].
    fold (evictable_set s). f_equal. destruct (is_evictable n) eqn:He.
    + rewrite map_size_insert_Some; [done|].
      unfold n in *. destruct (entries_ s !! f) as [m|] eqn:Hm; [|done]. cbn in He. exists m.
      by apply evictable_lookup.
    + rewrite delete_id; [done|]. unfold n in *. destruct (entries_ s !! f) as [m|] eqn:Hm.
      * by eapply evictable_lookup_None.
      * apply eq_None_not_Some. intros [m' [? _]%evictable_lookup]. congruence.
  - intros g Hg. destruct (decide (f = g)) as [<-|Hfg]; [done|].
    apply (inv_ids _ HI). by rewrite lookup_insert_ne in Hg.
  - intros g m Hg. apply lookup_insert_Some in Hg as [[<- <-]|[? Hg]]; [done|].
    destruct (inv_hist _ HI _ _ Hg) as (? & ? & ? & Hb'). split_and!; try done.
    eapply Forall_impl; [exact Hb'|]. cbn. lia.
  - assert (forall g m x, f <> g -> entries_ s !! g = Some m -> x ∈ h' -> x ∈ history m -> f = g) as Hnew.
    { intros g m x Hfg Hg Hx Hm. destruct (Hin x Hx) as [->|Hold].
      - destruct (inv_hist _ HI _ _ Hg) as (_ & _ & _ & Hb'). rewrite Forall_forall in Hb'.
        specialize (Hb' _ Hm). lia.
      - unfold n in Hold. destruct (entries_ s !! f) as [m'|] eqn:Hf'; [|by apply not_elem_of_nil in Hold].
        by eapply (inv_distinct _ HI f g). }
    intros g g' m m' x Hg Hg' Hx Hx'. apply lookup_insert_Some in Hg as [[<- <-]|[? Hg]];
      apply lookup_insert_Some in Hg' as [[<- <-]|[? Hg']]; cbn [history] in *; [done|..].
    + by apply (Hnew g' m' x).
    + symmetry. by apply (Hnew g m x).
    + by apply (inv_distinct _ HI g g' m m' x).
Qed.
Lemma inv_delete f n sz s :
  Inv s -> entries_ s !! f = Some n ->
  sz = (if is_evictable n then curr_size_ s -64 1 else curr_size_ s) ->
  Inv (mk sz (current_timestamp_ s) (delete f (entries_ s))).
Proof.
  intros HI Hf ->. pose proof (evictable_bound s HI) as Hb.
  split; cbn [curr_size_ current_timestamp_ entries_]; [apply HI| | |apply HI| |].
  - rewrite (inv_size _ HI). unfold evictable_set, evs. cbn [entries_]. rewrite map_filter_delete.
    fold (evs (entries_ s)). fold (evictable_set s). destruct (is_evictable n) eqn:He.
    + assert (evictable_set s !! f = Some n) as Hn by (by apply evictable_lookup).
      rewrite map_size_delete_Some by eauto.
      assert (base.size (evictable_set s) <> 0%nat) by (intros H0%map_size_empty_inv; rewrite H0 in Hn; done).
      rewrite wrap_small; lia.
    + rewrite delete_id; [done|]. by eapply evictable_lookup_None.
  - intros g Hg. apply (inv_ids _ HI). apply lookup_delete_is_Some in Hg. tauto.
  - intros g m [_ Hg]%lookup_delete_Some. by apply (inv_hist _ HI g).
  - intros g g' m m' x [_ Hg]%lookup_delete_Some [_ Hg']%lookup_delete_Some. by apply (inv_distinct _ HI g g' m m').
Qed.

Lemma inv_remove f s : Inv s -> Inv (remove f s).
Proof.
  intros HI. unfold remove. destruct (entries_ s !! f) as [n|] eqn:Hf; [|done]. by eapply inv_delete.
Qed.

(** The entries in the order of the iteration. *)
Lemma visited_spec s order f n :
  order ≡ₚ (map_to_list (entries_ s)).*1 ->
  (f, n) ∈ omap (fun f => (fun n => (f, n)) <$> entries_ s !! f) order <-> entries_ s !! f = Some n.
Proof.
  intros Hperm. rewrite list_elem_of_omap. split.
  - intros (g & _ & Hg). apply fmap_Some in Hg as (m & ? & [= -> ->]). done.
  - intros Hf. exists f. rewrite Hf. split; [|done]. rewrite Hperm. apply list_elem_of_fmap.
    exists (f, n). split; [done|]. by apply elem_of_map_to_list.
Qed.

Lemma victim_spec order s :
  Inv s -> order ≡ₚ (map_to_list (entries_ s)).*1 ->
  match victim order s with
  | (None, s') => s' = s /\ forall f n, ~ evictable s f n
  | (Some f, s') => Inv s' /\ entries_ s' = delete f (entries_ s) /\
      exists n, evictable s f n /\ forall g m, evictable s g m -> ~ before m n
  end.
Proof.
  intros HI Hperm. unfold victim.
  assert (curr_size_ s = 0 <-> forall f n, ~ evictable s f n) as H0.
  { rewrite (inv_size _ HI). split.
    - intros Hz f n Hn%evictable_lookup. assert (evictable_set s = ∅) as He by (apply map_size_empty_inv; lia).
      by rewrite He in Hn.
    - intros Hno. replace (evictable_set s) with (∅ : gmap Z FrameNode); [done|]. symmetry.
      apply map_empty. intros f. apply eq_None_not_Some. intros [n Hn%evictable_lookup]. by apply (Hno f n). }
  destruct (Z.eqb_spec (curr_size_ s) 0) as [Hz|Hz]; [split; [done|]; by apply H0|].
  set (es := omap _ order). pose proof (inv_now _ HI) as Hnow.
  assert (scan_ok (current_timestamp_ s) (foldl (scan_step (current_timestamp_ s)) scan_init es) es) as Hscan.
  { apply scan_all; [done|]. intros f n Hn%visited_spec; [|done].
    destruct (inv_hist _ HI f n Hn) as (Hne & _ & _ & Hb). unfold first_access.
    destruct (history n) as [|x h]; [done|]. apply Forall_cons in Hb as [Hb _]. done. }
  unfold scan_ok in Hscan. destruct (found_any _).
  - destruct Hscan as (n & Hn%visited_spec & Hev & Hmin & _); [|done]. split_and!; [|done|].
    + eapply inv_delete; [done|done|]. by rewrite Hev.
    + exists n. split; [done|]. intros g m [Hg Hm]. apply (Hmin g m); [by apply visited_spec|done].
  - destruct Hscan as [_ Hno]. exfalso. apply Hz, H0. intros f n [Hf Hn].
    rewrite (Hno f n) in Hn; [done|]. by apply visited_spec.
Qed.

(** No two frames have the same priority. *)
Lemma before_total s f g n m :
  Inv s -> entries_ s !! f = Some n -> entries_ s !! g = Some m -> f <> g -> before n m \/ before m n.
Proof.
  intros HI Hf Hg Hne. unfold before.
  destruct (Z.lt_trichotomy (class n) (class m)) as [?|[?|?]]; [auto| |auto].
  destruct (Z.lt_trichotomy (first_access n) (first_access m)) as [?|[Heq|?]]; [auto| |auto].
  destruct Hne. destruct (inv_hist _ HI f n Hf) as (Hn & _). destruct (inv_hist _ HI g m Hg) as (Hm & _).
  apply (inv_distinct _ HI f g n m (first_access n)); [done|done| |rewrite Heq]; unfold first_access.
  - destruct (history n); [done|left].
  - destruct (history m); [done|left].
Qed.
End lruk.

(** ** The replacer implements the interface of the buffer pool *)

#[export] Instance lruk_replacer k : Replacer t (Inv k).
Proof.
  refine {| rep_flags s := is_evictable <$> entries_ s;
            rep_record := record_access k; rep_set := set_evictable; rep_victim := victim k;
            rep_pre f s := 0 <= f < 2 ^ 32 /\ current_timestamp_ s + 1 < 2 ^ 64 |}.
  - intros f s HI [Hf Hlt]. split; [by apply inv_record_access|]. unfold record_access. cbn [entries_].
    rewrite fmap_insert, lookup_fmap. cbn. by destruct (entries_ s !! f).
  - intros f b s HI. split; [by apply inv_set_evictable|]. rewrite lookup_fmap. unfold set_evictable.
    destruct (entries_ s !! f) as [n|] eqn:Hf; cbn; [|by rewrite decide_False by (intros []%is_Some_None)].
    rewrite decide_True by eauto. destruct (Bool.eqb (is_evictable n) b) eqn:Hb; cbn [entries_].
    + apply Bool.eqb_prop in Hb as <-. rewrite insert_id; [done|]. by rewrite lookup_fmap, Hf.
    + by rewrite fmap_insert.
  - intros order s HI Hperm.
    assert (order ≡ₚ (map_to_list (entries_ s)).*1) as Hperm'.
    { rewrite Hperm, map_to_list_fmap, <- list_fmap_compose. done. }
    pose proof (victim_spec k order s HI Hperm') as Hv. destruct (victim k order s) as [[f|] s'].
    + destruct Hv as (HI' & He & n & [Hf Hn] & _). rewrite lookup_fmap, Hf, He, fmap_delete. cbn. by rewrite Hn.
    + destruct Hv as [-> Hno]. split; [done|]. intros f. rewrite lookup_fmap.
      destruct (entries_ s !! f) as [n|] eqn:Hf; [|done]. cbn. intros [= Hn]. by apply (Hno f n).
  - intros order f s Hp. unfold victim. destruct (curr_size_ s =? 0); [done|]. by destruct (found_any _).
Defined.

(** ** The properties *)

(** What the callers have done, independent of the replacer: the number of
    accesses so far, and for every frame that is tracked the times of all its
    accesses since it entered, counted by that number, and the flag set last. *)
Record log := mk_log { accesses : Z; tracked : gmap Z (list Z * bool) }.

Definition no_calls : log := mk_log 0 ∅.

Definition log_access (f : Z) (l : log) : log :=
  let now := accesses l + 1 in
  let '(times, b) := default ([], false) (tracked l !! f) in
  mk_log now (<[f := (times ++ [now], b)]> (tracked l)).
Definition log_set (f : Z) (b : bool) (l : log) : log := mk_log (accesses l) (alter (fun x => (x.1, b)) f (tracked l)).
Definition log_forget (f : Z) (l : log) : log := mk_log (accesses l) (delete f (tracked l)).

(** Histories of calls; frame ids are 32-bit numbers, and the clock does not
    overflow. *)
Inductive op_step (k : nat) : t * log -> t * log -> Prop :=
| op_access f s l : 0 <= f < 2 ^ 32 -> current_timestamp_ s + 1 < 2 ^ 64 -> op_step k (s, l) (record_access k f s, log_access f l)
| op_set f b s l : op_step k (s, l) (set_evictable f b s, log_set f b l)
| op_victim order s l f s' : order ≡ₚ (map_to_list (entries_ s)).*1 -> victim k order s = (Some f, s') ->
    op_step k (s, l) (s', log_forget f l)
| op_no_victim order s l s' : order ≡ₚ (map_to_list (entries_ s)).*1 -> victim k order s = (None, s') -> op_step k (s, l) (s', l)
| op_remove f s l : op_step k (s, l) (remove f s, log_forget f l).

(** LRU-K on the full list of access times: a frame with fewer than [k]
    accesses has infinite backward k-distance and goes first, the one with the
    earliest access in front; else the distance is the time since the [k]-th
    last access, the largest first. *)
Definition backward_distance (k : nat) (now : Z) (times : list Z) : option Z :=
  if (length times <? k)%nat then None else Some (now - default 0 (times !! (length times - k)%nat)).
Definition precedes (k : nat) (now : Z) (a b : list Z) : Prop :=
  match backward_distance k now a, backward_distance k now b with
  | None, None => default 0 (head a) < default 0 (head b)
  | None, Some _ => True
  | Some _, None => False
  | Some da, Some db => db < da
  end.

(** *** The stored histories are the last [k] accesses *)

Definition last_k (k : nat) (times : list Z) : list Z := drop (length times - k) times.
Definition node_of (k : nat) (x : list Z * bool) : FrameNode := mk_node (last_k k x.1) x.2.
Definition agrees (k : nat) (s : t) (l : log) : Prop :=
  current_timestamp_ s = accesses l /\ entries_ s = node_of k <$> tracked l.

Lemma last_k_snoc k times now :
  (if (k <? length (last_k k times ++ [now]))%nat then tail (last_k k times ++ [now]) else last_k k times ++ [now]) =
  last_k k (times ++ [now]).
Proof.
  unfold last_k. rewrite !length_app, length_drop. cbn [length].
  destruct (Nat.ltb_spec k (length times - (length times - k) + 1)) as [Hlt|Hge].
  - rewrite <- (drop_app_le _ [now]) by lia. change (tail ?l) with (drop 1 l). rewrite drop_drop. f_equal. lia.
  - rewrite <- drop_app_le by lia. f_equal. lia.
Qed.

Lemma agrees_step k s l s' l' :
  op_step k (s, l) (s', l') -> Inv k s -> agrees k s l -> agrees k s' l'.
Proof.
  intros Hst HI [Ht He]. inversion Hst as [f ? ? Hf Hlt|f b|order ? ? f ? Hp Hv|order ? ? ? Hp Hv|f]; subst.
  - unfold record_access, log_access, agrees. cbn [current_timestamp_ entries_]. pose proof (inv_now _ _ HI).
    rewrite wrap_small by lia. rewrite Ht, He, lookup_fmap. destruct (tracked l !! f) as [[times b]|]; cbn [fmap option_fmap option_map default from_option];
      unfold Datatypes.id; cbn [history is_evictable node_of fst snd accesses tracked]; rewrite fmap_insert; (split; [done|]); f_equal; unfold node_of; cbn [fst snd]; f_equal.
    + apply last_k_snoc.
    + exact (last_k_snoc k [] (accesses l + 1)).
  - unfold set_evictable, log_set, agrees. rewrite He, lookup_fmap. destruct (tracked l !! f) as [[times c]|] eqn:Hf; cbn.
    + destruct (Bool.eqb c b) eqn:Hb; cbn.
      * apply Bool.eqb_prop in Hb as ->. split; [done|]. rewrite He. apply map_eq. intros g. rewrite !lookup_fmap.
        destruct (decide (f = g)) as [<-|]; [by rewrite lookup_alter_eq, Hf|by rewrite lookup_alter_ne].
      * split; [done|]. apply map_eq. intros g. rewrite lookup_fmap.
        destruct (decide (f = g)) as [<-|]; [by rewrite lookup_insert_eq, lookup_alter_eq, Hf|].
        by rewrite lookup_insert_ne, lookup_alter_ne, lookup_fmap.
    + split; [done|]. rewrite He. apply map_eq. intros g. rewrite !lookup_fmap.
      destruct (decide (f = g)) as [<-|]; [by rewrite lookup_alter_eq, Hf|by rewrite lookup_alter_ne].
  - unfold victim in Hv. destruct (_ =? 0); [done|]. destruct (found_any _); [|done]. injection Hv as <- <-.
    split; [done|]. cbn [entries_ log_forget tracked]. by rewrite He, fmap_delete.
  - unfold victim in Hv. destruct (_ =? 0); [by injection Hv as <-|]. destruct (found_any _); [done|]. by injection Hv as <-.
  - unfold remove, log_forget, agrees. rewrite He, lookup_fmap. destruct (tracked l !! f) as [x|] eqn:Hf; cbn.
    + by rewrite fmap_delete.
    + split; [done|]. by rewrite He, delete_id.
Qed.

Lemma op_step_inv k x y : op_step k x y -> Inv k x.1 -> Inv k y.1.
Proof.
  intros [f s l Hf Hlt|f b s l|order s l f s' Hp Hv|order s l s' Hp Hv|f s l] HI; cbn in *.
  - by apply inv_record_access.
  - by apply inv_set_evictable.
  - pose proof (victim_spec k order s HI Hp) as H. rewrite Hv in H. apply H.
  - pose proof (victim_spec k order s HI Hp) as H. rewrite Hv in H. by destruct H as [-> _].
  - by apply inv_remove.
Qed.

Lemma lruk_reachable_inv k s l : (0 < k)%nat -> rtc (op_step k) (LRUKReplacer, no_calls) (s, l) -> Inv k s /\ agrees k s l.
Proof.
  intros Hk Hr. cut (forall a b, rtc (op_step k) a b -> Inv k a.1 /\ agrees k a.1 a.2 -> Inv k b.1 /\ agrees k b.1 b.2).
  { intros H. apply (H _ _ Hr). split; [by apply inv_empty|]. split; [done|]. cbn. by rewrite fmap_empty. }
  induction 1 as [|[s1 l1] [s2 l2] z Hst _ IH]; [done|]. intros [HI Ha]. apply IH.
  split; [by apply (op_step_inv _ _ _ Hst)|by eapply agrees_step].
Qed.

(** The priority of the stored nodes is that of the full access times. *)
Lemma before_precedes k now a b ba bb :
  (0 < k)%nat -> before k (node_of k (a, ba)) (node_of k (b, bb)) -> precedes k now a b.
Proof.
  intros Hk. unfold before, precedes, class, first_access, backward_distance, node_of, last_k. cbn [history fst]. rewrite !length_drop.
  assert (forall l : list Z, ((length l - (length l - k) <? k) = (length l <? k))%nat) as Hl.
  { intros l. destruct (Nat.ltb_spec (length l) k), (Nat.ltb_spec (length l - (length l - k)) k); lia || done. }
  assert (forall l : list Z, (length l <? k)%nat = true -> drop (length l - k) l = l) as Hs.
  { intros l Hlt%Nat.ltb_lt. replace (length l - k)%nat with 0%nat by lia. done. }
  assert (forall l : list Z, head (drop (length l - k) l) = l !! (length l - k)%nat) as Hd.
  { intros l. by rewrite head_lookup, lookup_drop, Nat.add_0_r. }
  rewrite !Hl. destruct (length a <? k)%nat eqn:Ea, (length b <? k)%nat eqn:Eb; try lia.
  - rewrite !Hs by done. lia.
  - rewrite !Hd. lia.
Qed.

(** C35. [victim] implements LRU-K on the accesses that were made: after any
    history of calls in which the clock does not overflow, whatever order the
    unordered map is visited in, it evicts the one evictable frame that
    precedes all others (frames with fewer than [k] accesses first, by their
    earliest access, then the largest time since the [k]-th last access),
    forgets exactly that frame, and reports failure only when no frame is
    evictable; [size] counts the evictable frames. *)
Theorem lruk_victim k s l order :
  (0 < k)%nat -> rtc (op_step k) (LRUKReplacer, no_calls) (s, l) -> order ≡ₚ (map_to_list (entries_ s)).*1 ->
  size s = Z.of_nat (base.size (filter (fun x => x.2.2 = true) (tracked l))) /\
  match victim k order s with
  | (None, s') => s' = s /\ map_Forall (fun _ x => x.2 = false) (tracked l)
  | (Some f, s') => entries_ s' = delete f (entries_ s) /\ size s' = size s - 1 /\
      exists times, tracked l !! f = Some (times, true) /\
        forall g times', tracked l !! g = Some (times', true) -> g <> f -> precedes k (accesses l) times times'
  end.
Proof.
  intros Hk Hr Hp. destruct (lruk_reachable_inv k s l Hk Hr) as [HI [_ He]].
  assert (forall g times b, tracked l !! g = Some (times, b) -> entries_ s !! g = Some (node_of k (times, b))) as Hent.
  { intros g times b Hg. by rewrite He, lookup_fmap, Hg. }
  assert (size s = Z.of_nat (base.size (filter (fun x => x.2.2 = true) (tracked l)))) as Hsize.
  { unfold size. rewrite (inv_size _ _ HI). unfold evictable_set, evs. rewrite He, map_filter_fmap, map_size_fmap. done. }
  split; [done|]. pose proof (victim_spec k order s HI Hp) as Hv. destruct (victim k order s) as [[f|] s'].
  - destruct Hv as (HI' & He' & n & Hn & Hmin). pose proof Hn as [Hf Hfe]. split_and!; [done| |].
    + unfold size. rewrite (inv_size _ _ HI), (inv_size _ _ HI'). unfold evictable_set at 1, evs. rewrite He', map_filter_delete.
      apply evictable_lookup in Hn. fold (evs (entries_ s)). fold (evictable_set s). rewrite map_size_delete_Some by eauto.
      assert (base.size (evictable_set s) <> 0%nat) by (intros H0%map_size_empty_inv; rewrite H0 in Hn; done). lia.
    + rewrite He, lookup_fmap in Hf. destruct (tracked l !! f) as [[times b]|] eqn:Htf; [|done]. injection Hf as <-. cbn in Hfe. subst b.
      exists times. split; [done|]. intros g times' Hg Hne. pose proof (Hent g times' true Hg) as Hg'.
      apply (before_precedes k _ times times' true true Hk).
      destruct (before_total k s f g _ _ HI (Hent f times true Htf) Hg') as [?|Hb]; [done|done|]. by destruct (Hmin g _ (conj Hg' eq_refl)).
  - destruct Hv as [-> Hno]. split; [done|]. intros g [times b] Hg. destruct b; [|done]. by destruct (Hno g _ (conj (Hent g times true Hg) eq_refl)).
Qed.

(** ** Witness: frame 1 was accessed three times, frame 2 twice; the second last
    access of frame 1 is older *)

Definition ex_calls : t * log :=
  let acc f x := (record_access 2 f x.1, log_access f x.2) in
  let set f x := (set_evictable f true x.1, log_set f true x.2) in
  set 2 (set 1 (acc 1 (acc 2 (acc 2 (acc 1 (acc 1 (LRUKReplacer, no_calls))))))).

Lemma lruk_victim_witness :
  (victim 2 [1; 2] ex_calls.1).1 = Some 1 /\ size ex_calls.1 = 2 /\ tracked ex_calls.2 !! 1 = Some ([1; 2; 5], true).
Proof.
  assert (rtc (op_step 2) (LRUKReplacer, no_calls) ex_calls) as Hr.
  { eapply rtc_l; [apply (op_access 2 1); [lia|reflexivity]|]. eapply rtc_l; [apply (op_access 2 1); [lia|reflexivity]|].
    eapply rtc_l; [apply (op_access 2 2); [lia|reflexivity]|]. eapply rtc_l; [apply (op_access 2 2); [lia|reflexivity]|].
    eapply rtc_l; [apply (op_access 2 1); [lia|reflexivity]|]. eapply rtc_l; [apply (op_set 2 1 true)|].
    eapply rtc_once, (op_set 2 2 true). }
  destruct (lruk_victim 2 ex_calls.1 ex_calls.2 [1; 2] ltac:(lia) Hr) as [Hsz _].
  { vm_compute. constructor. }
  split; [reflexivity|]. split; [rewrite Hsz; reflexivity|reflexivity].
Defined.

End LruK.
