(* ===== verification/DiskManager.v ===== *)
(** * The disk manager

    Model of [DiskManager] (07-database-storage, disk_manager.hpp): pages at
    their offsets in the bytes of the database file.  The result of [pwrite]
    is a parameter.  The lemmas describe the file as an array of pages. *)

From S2P Require Import Prelude Bytes.

#[local] Open Scope Z_scope.
#[local] Open Scope cpp_scope.

Module Disk.

Definition PAGE_SIZE : nat := Z.to_nat 4096.

(** The content of the database file and the page counter. *)
Record t := mk { file : list Z; next_page_id_ : Z }.

(** Opening keeps the file; the counter starts at zero. *)
Definition DiskManager (content : list Z) : t := mk content 0.

Definition page_offset (page_id : Z) : nat := Z.to_nat (page_id *64 4096).

(** [written] is the result of [pwrite]; [false] is the exception. *)
Definition write_page (written : Z) (page_id : Z) (data : list Z) (s : t) : bool * t :=
  let s := mk (pwrite (page_offset page_id) (take (Z.to_nat written) data) (file s)) (next_page_id_ s) in
  (written =? 4096, s).

(** [buf] is the previous content of the caller's buffer: a short read
    replaces only its beginning. *)
Definition read_page (page_id : Z) (buf : list Z) (s : t) : list Z :=
  let bytes := pread (page_offset page_id) PAGE_SIZE (file s) in
  if (length bytes =? 0)%nat then replicate PAGE_SIZE 0
  else bytes ++ drop (length bytes) buf.

Definition allocate_page (s : t) : Z * t := (next_page_id_ s, mk (file s) (next_page_id_ s +64 1)).

(** ** The file as an array of pages *)

Definition zero_page : list Z := replicate PAGE_SIZE 0.

(** Whole pages only. *)
Definition disk_ok (s : t) : Prop := exists n, length (file s) = (n * PAGE_SIZE)%nat.

Definition valid_id (page_id : Z) : Prop := 0 <= page_id < 2 ^ 51.

Definition image (s : t) (page_id : Z) : list Z := read_page page_id zero_page s.

Lemma page_offset_eq pid : valid_id pid -> page_offset pid = (Z.to_nat pid * PAGE_SIZE)%nat.
Proof.
  intros Hv. unfold page_offset, valid_id, PAGE_SIZE in *. rewrite wrap_small by lia.
  rewrite Z2Nat.inj_mul by lia. done.
Qed.

(** A read delivers a whole page or nothing. *)
Lemma read_page_eq pid buf s :
  disk_ok s -> valid_id pid -> length buf = PAGE_SIZE ->
  read_page pid buf s =
    if decide (page_offset pid < length (file s))%nat
    then sub_bytes (page_offset pid) PAGE_SIZE (file s) else zero_page.
Proof.
  intros [n Hn] Hv Hbuf. unfold read_page, pread. rewrite (page_offset_eq _ Hv). case_decide as Hlt.
  - assert (Z.to_nat pid < n)%nat as Hp by (unfold PAGE_SIZE in *; nia).
    assert (length (sub_bytes (Z.to_nat pid * PAGE_SIZE) PAGE_SIZE (file s)) = PAGE_SIZE) as Hl.
    { apply length_sub_bytes. rewrite Hn. unfold PAGE_SIZE. nia. }
    rewrite Hl. change (PAGE_SIZE =? 0)%nat with false. cbv iota.
    by rewrite drop_ge, app_nil_r by lia.
  - unfold sub_bytes. rewrite drop_ge by lia. by rewrite take_nil.
Qed.

Lemma length_image s pid : disk_ok s -> valid_id pid -> length (image s pid) = PAGE_SIZE.
Proof.
  intros Hok Hv. unfold image. rewrite read_page_eq by (done || apply length_replicate).
  case_decide as Hlt; [|apply length_replicate]. apply length_sub_bytes. destruct Hok as [n Hn].
  rewrite (page_offset_eq _ Hv) in *. unfold PAGE_SIZE in *. nia.
Qed.

(** The previous content of the buffer does not matter. *)
Lemma read_page_image pid buf s :
  disk_ok s -> valid_id pid -> length buf = PAGE_SIZE -> read_page pid buf s = image s pid.
Proof. intros. unfold image. by rewrite !read_page_eq by (done || apply length_replicate). Qed.

(** A complete write changes one page of the array. *)
Lemma write_page_spec pid data s :
  disk_ok s -> valid_id pid -> length data = PAGE_SIZE ->
  let '(ok, s') := write_page 4096 pid data s in
  ok = true /\ disk_ok s' /\ next_page_id_ s' = next_page_id_ s /\
  image s' pid = data /\ (forall q, valid_id q -> q <> pid -> image s' q = image s q).
Proof.
  intros Hok Hv Hd. unfold write_page. rewrite take_ge by (rewrite Hd; unfold PAGE_SIZE; lia).
  assert (data <> []) as Hne0 by (intros ->; by cbn in Hd).
  set (s' := mk _ _). assert (disk_ok s') as Hok'.
  { destruct Hok as [n Hn]. exists (Nat.max (S (Z.to_nat pid)) n). unfold s'. cbn [file].
    rewrite length_pwrite, Hd, Hn, (page_offset_eq _ Hv) by done. unfold PAGE_SIZE in *. nia. }
  split_and!; [done|done|done| |].
  - unfold image. rewrite read_page_eq by (done || apply length_replicate). unfold s'. cbn [file].
    rewrite length_pwrite, decide_True by (done || rewrite Hd; unfold PAGE_SIZE; lia). rewrite <- Hd. apply sub_pwrite_same.
  - intros q Hq Hne. unfold image. rewrite !read_page_eq by (done || apply length_replicate).
    destruct Hok as [n Hn]. unfold s'. cbn [file].
    rewrite length_pwrite, !page_offset_eq, Hn, Hd by done.
    destruct (decide (Z.to_nat q < Z.to_nat pid)%nat) as [Hlt|Hge].
    + rewrite decide_True by (unfold PAGE_SIZE in *; nia). case_decide as Hqn.
      * apply sub_pwrite_low; unfold PAGE_SIZE in *; nia.
      * apply sub_pwrite_gap; [done|unfold PAGE_SIZE in *; nia..].
    + assert (Z.to_nat pid < Z.to_nat q)%nat by (unfold valid_id in *; lia).
      rewrite sub_pwrite_high by (unfold PAGE_SIZE in *; nia).
      repeat case_decide; try done; unfold PAGE_SIZE in *; nia.
Qed.

Lemma image_file s s' q : file s = file s' -> image s q = image s' q.
Proof. intros Hf. unfold image, read_page. by rewrite Hf. Qed.

Lemma disk_ok_file s s' : file s = file s' -> disk_ok s -> disk_ok s'.
Proof. intros Hf [n Hn]. exists n. by rewrite <- Hf. Qed.
End Disk.
