(* ===== verification/BufferPool.v ===== *)
(** * The buffer pool

    Model of [BufferPoolManager] (07-database-storage,
    concurrent_buffer_pool_manager).  The pool is written against the
    [Replacer] interface; every operation holds [bpm_latch_] and is one step.
    Parameters of the operations are what the environment decides: the result
    of [pwrite], and the order in which hash maps are visited.  An exception
    leaves the state as it was when it was thrown. *)

From S2P Require Import Prelude Bytes LruK SlottedPage DiskManager.

#[local] Open Scope Z_scope.
#[local] Open Scope cpp_scope.

Module Pool.
Import Disk.

#[local] Opaque image read_page write_page disk_ok Page.init.

Section pool.
Context {R : Type} {rinv : R -> Prop} {RP : Replacer R rinv}.

Definition INVALID_PAGE_ID : Z := 2 ^ 64 - 1.

Record FrameMeta := mk_meta { page_id : Z; pin_count : Z; is_dirty : bool }.

#[export] Instance FrameMeta_inhabited : Inhabited FrameMeta := populate (mk_meta 0 0 false).

Record t := mk {
  disk_manager_ : Disk.t;
  replacer_ : R;
  pages_ : list (list Z);
  frames_ : list FrameMeta;
  free_list_ : list nat;
  page_table_ : gmap Z nat }.

Definition BufferPoolManager (pool_size : nat) (dk : Disk.t) (r : R) : t :=
  mk dk r (replicate pool_size (Page.init 0)) (replicate pool_size (mk_meta INVALID_PAGE_ID 0 false))
     (seq 0 pool_size) ∅.

Definition set_disk (dk : Disk.t) (s : t) : t :=
  mk dk (replacer_ s) (pages_ s) (frames_ s) (free_list_ s) (page_table_ s).
Definition set_replacer (r : R) (s : t) : t :=
  mk (disk_manager_ s) r (pages_ s) (frames_ s) (free_list_ s) (page_table_ s).
Definition set_page (f : nat) (x : list Z) (s : t) : t :=
  mk (disk_manager_ s) (replacer_ s) (<[f := x]> (pages_ s)) (frames_ s) (free_list_ s) (page_table_ s).
Definition set_frame (f : nat) (m : FrameMeta) (s : t) : t :=
  mk (disk_manager_ s) (replacer_ s) (pages_ s) (<[f := m]> (frames_ s)) (free_list_ s) (page_table_ s).
Definition set_free (l : list nat) (s : t) : t :=
  mk (disk_manager_ s) (replacer_ s) (pages_ s) (frames_ s) l (page_table_ s).
Definition set_table (pt : gmap Z nat) (s : t) : t :=
  mk (disk_manager_ s) (replacer_ s) (pages_ s) (frames_ s) (free_list_ s) pt.

(** [order] is the iteration order of the replacer's hash map. *)
Definition find_available_frame (order : list Z) (s : t) : option nat * t :=
  match free_list_ s with
  | f :: rest => (Some f, set_free rest s)
  | [] => let '(v, r) := rep_victim order (replacer_ s) in (Z.to_nat <$> v, set_replacer r s)
  end.

(** Writing back and forgetting the old page of frame [f]; [false] when
    [write_page] throws. *)
Definition evict (written : Z) (f : nat) (s : t) : bool * t :=
  let m := frames_ s !!! f in
  if page_id m =? INVALID_PAGE_ID then (true, s) else
  if is_dirty m then
    let '(ok, dk) := write_page written (page_id m) (pages_ s !!! f) (disk_manager_ s) in
    let s := set_disk dk s in
    if negb ok then (false, s) else
    let s := set_frame f (mk_meta (page_id m) (pin_count m) false) s in
    (true, set_table (delete (page_id m) (page_table_ s)) s)
  else (true, set_table (delete (page_id m) (page_table_ s)) s).

(** Recording the access and pinning frame [f] in the replacer. *)
Definition touch (f : nat) (s : t) : t :=
  set_replacer (rep_set (Z.of_nat f) false (rep_record (Z.of_nat f) (replacer_ s))) s.

(** Entering page [pid] in frame [f]. *)
Definition enter (f : nat) (pid : Z) (s : t) : t :=
  let s := set_table (<[pid := f]> (page_table_ s)) s in
  touch f (set_frame f (mk_meta pid 1 false) s).

(** [Overflow] is the undefined behaviour of incrementing the largest
    [int32_t]. *)
Inductive outcome := Threw | Null | Frame (pid : Z) (f : nat) | Overflow.

Definition INT32_MAX : Z := 2147483647.

Definition new_page (order : list Z) (written : Z) (s : t) : outcome * t :=
  match find_available_frame order s with
  | (None, s) => (Null, s)
  | (Some f, s) =>
      let '(pid, dk) := allocate_page (disk_manager_ s) in
      let s := set_disk dk s in
      match evict written f s with
      | (false, s) => (Threw, s)
      | (true, s) => (Frame pid f, enter f pid (set_page f (Page.init pid) s))
      end
  end.

Definition fetch_page (pid : Z) (order : list Z) (written : Z) (s : t) : outcome * t :=
  match page_table_ s !! pid with
  | Some f =>
      let m := frames_ s !!! f in
      if pin_count m =? INT32_MAX then (Overflow, s) else
      (Frame pid f, touch f (set_frame f (mk_meta (page_id m) (pin_count m + 1) (is_dirty m)) s))
  | None =>
      match find_available_frame order s with
      | (None, s) => (Null, s)
      | (Some f, s) =>
          match evict written f s with
          | (false, s) => (Threw, s)
          | (true, s) =>
              (Frame pid f, enter f pid (set_page f (read_page pid (pages_ s !!! f) (disk_manager_ s)) s))
          end
      end
  end.

Definition unpin_page (pid : Z) (dirty : bool) (s : t) : bool * t :=
  match page_table_ s !! pid with
  | None => (false, s)
  | Some f =>
      let m := frames_ s !!! f in
      if pin_count m <=? 0 then (false, s) else
      let m := mk_meta (page_id m) (pin_count m - 1) (is_dirty m || dirty) in
      let s := set_frame f m s in
      (true, if pin_count m =? 0 then set_replacer (rep_set (Z.of_nat f) true (replacer_ s)) s else s)
  end.

(** [None] when [write_page] throws. *)
Definition flush_page (pid : Z) (written : Z) (s : t) : option bool * t :=
  match page_table_ s !! pid with
  | None => (Some false, s)
  | Some f =>
      let '(ok, dk) := write_page written pid (pages_ s !!! f) (disk_manager_ s) in
      let s := set_disk dk s in
      let m := frames_ s !!! f in
      if negb ok then (None, s)
      else (Some true, set_frame f (mk_meta (page_id m) (pin_count m) false) s)
  end.

(** The loop over [page_table_], in the order of [pids]; the first failed
    write ends it with an exception. *)
Fixpoint flush_all_pages (pids : list Z) (written : Z -> Z) (s : t) : bool * t :=
  match pids with
  | [] => (true, s)
  | pid :: pids' =>
      match page_table_ s !! pid with
      | None => flush_all_pages pids' written s
      | Some f =>
          let m := frames_ s !!! f in
          if is_dirty m then
            let '(ok, dk) := write_page (written pid) pid (pages_ s !!! f) (disk_manager_ s) in
            let s := set_disk dk s in
            if negb ok then (false, s)
            else flush_all_pages pids' written (set_frame f (mk_meta (page_id m) (pin_count m) false) s)
          else flush_all_pages pids' written s
      end
  end.

Definition pool_size (s : t) : nat := length (frames_ s).

(** ** Invariant *)

(** What clients see as the content of page [pid]. *)
Definition logical (s : t) (pid : Z) : list Z :=
  match page_table_ s !! pid with
  | Some f => pages_ s !!! f
  | None => image (disk_manager_ s) pid
  end.

(** The flags the replacer must have for the frames. *)
Definition frame_flag (s : t) (z : Z) : option bool :=
  if decide (0 <= z) then
    match frames_ s !! Z.to_nat z with
    | Some m => if decide (page_id m = INVALID_PAGE_ID) then None else Some (pin_count m =? 0)
    | None => None
    end
  else None.

(** [x] is a frame taken out of the free list or the replacer, if any. *)
Record pool_inv (x : option nat) (s : t) : Prop := {
  pi_len : length (pages_ s) = length (frames_ s);
  pi_ids : (Z.of_nat (length (frames_ s)) <= 2 ^ 32);
  pi_pages f p : pages_ s !! f = Some p -> length p = PAGE_SIZE;
  pi_disk : disk_ok (disk_manager_ s);
  pi_rinv : rinv (replacer_ s);
  pi_table pid f : page_table_ s !! pid = Some f ->
    valid_id pid /\ pid < next_page_id_ (disk_manager_ s) /\
    exists m, frames_ s !! f = Some m /\ page_id m = pid;
  pi_frame f m : frames_ s !! f = Some m -> page_id m <> INVALID_PAGE_ID ->
    page_table_ s !! page_id m = Some f /\ 0 <= pin_count m <= INT32_MAX;
  pi_free_nodup : NoDup (free_list_ s);
  pi_free f : f ∈ free_list_ s <->
    x <> Some f /\ exists m, frames_ s !! f = Some m /\ page_id m = INVALID_PAGE_ID;
  pi_flags z : rep_flags (replacer_ s) !! z =
    if decide (x = Some (Z.to_nat z)) then None else frame_flag s z;
  pi_taken f : x = Some f -> exists m, frames_ s !! f = Some m /\
    (page_id m = INVALID_PAGE_ID \/ pin_count m = 0);
  pi_clean f m : frames_ s !! f = Some m -> page_id m <> INVALID_PAGE_ID ->
    pin_count m = 0 -> is_dirty m = false ->
    pages_ s !! f = Some (image (disk_manager_ s) (page_id m)) }.

Definition no_page : FrameMeta := mk_meta INVALID_PAGE_ID 0 false.

Lemma valid_not_invalid pid : valid_id pid -> pid <> INVALID_PAGE_ID.
Proof. unfold valid_id, INVALID_PAGE_ID. lia. Qed.

Lemma pool_init n dk r :
  disk_ok dk -> rinv r -> rep_flags r = ∅ -> Z.of_nat n <= 2 ^ 32 ->
  pool_inv None (BufferPoolManager n dk r).
Proof.
  intros Hdk Hr Hf Hn. split; cbn [BufferPoolManager disk_manager_ replacer_ pages_ frames_ free_list_ page_table_];
    rewrite ?length_replicate; try done.
  - intros f p [-> _]%lookup_replicate. apply (Page.rep_init 0).
  - intros f m [-> _]%lookup_replicate Hm. done.
  - apply NoDup_seq.
  - intros f. rewrite elem_of_seq. split.
    + intros Hf'. split; [done|]. eexists. split; [apply lookup_replicate_2; lia|done].
    + intros (_ & m & [_ Hlt]%lookup_replicate & _). lia.
  - intros z. rewrite Hf, lookup_empty, decide_False by done. unfold frame_flag. cbn [BufferPoolManager frames_].
    case_decide; [|done]. destruct (replicate n (mk_meta INVALID_PAGE_ID 0 false) !! Z.to_nat z) as [m|] eqn:Hm; [|done].
    apply lookup_replicate in Hm as [-> _]. done.
  - intros f m [-> _]%lookup_replicate Hm. done.
Qed.

Lemma free_is_unpaged s f : pool_inv None s -> f ∈ free_list_ s ->
  exists m, frames_ s !! f = Some m /\ page_id m = INVALID_PAGE_ID.
Proof. intros HI Hf. by apply (pi_free _ _ HI f). Qed.

Lemma find_available_spec order s :
  pool_inv None s -> order ≡ₚ (map_to_list (rep_flags (replacer_ s))).*1 ->
  match find_available_frame order s with
  | (Some f, s') => pool_inv (Some f) s' /\ (forall q, logical s' q = logical s q) /\
      disk_manager_ s' = disk_manager_ s /\ page_table_ s' = page_table_ s
  | (None, s') => s' = s /\ forall f m, frames_ s !! f = Some m ->
      page_id m <> INVALID_PAGE_ID /\ 0 < pin_count m
  end.
Proof.
  intros HI Hp. unfold find_available_frame. destruct (free_list_ s) as [|f rest] eqn:Hfree.
  - pose proof (rep_victim_flags order _ (pi_rinv _ _ HI) Hp) as Hv.
    destruct (rep_victim order (replacer_ s)) as [[z|] r]; cbn [fmap option_fmap option_map].
    + destruct Hv as (Hr & Hz & Hfl). rewrite (pi_flags _ _ HI), decide_False in Hz by done.
      unfold frame_flag in Hz. case_decide as Hz0; [|done].
      destruct (frames_ s !! Z.to_nat z) as [m|] eqn:Hm; [|done]. case_decide as Hpid; [done|].
      assert (pin_count m = 0) as Hpin by (injection Hz; lia).
      split_and!; [|done|done|done]. split; try apply HI; cbn [set_replacer replacer_ frames_ free_list_].
      * done.
      * intros g. rewrite (pi_free _ _ HI g). split; [|by intros [_ ?]].
        intros (_ & m' & Hm' & Hi). split; [|eauto]. congruence.
      * intros y. rewrite Hfl. destruct (decide (z = y)) as [->|Hne].
        { rewrite lookup_delete_eq. by rewrite decide_True. }
        rewrite lookup_delete_ne, (pi_flags _ _ HI), decide_False by done.
        case_decide as Hzy; [|done]. unfold frame_flag. case_decide; [|done].
        injection Hzy as Hzy. lia.
      * intros g [= <-]. eauto.
    + destruct Hv as [-> Hno]. split; [by destruct s|]. intros g m Hm.
      assert (page_id m <> INVALID_PAGE_ID) as Hpid.
      { intros Hinv. assert (g ∈ free_list_ s) as Hg by (apply (pi_free _ _ HI); eauto).
        rewrite Hfree in Hg. by apply not_elem_of_nil in Hg. }
      split; [done|]. specialize (Hno (Z.of_nat g)). rewrite (pi_flags _ _ HI), decide_False in Hno by done.
      unfold frame_flag in Hno. rewrite decide_True, Nat2Z.id, Hm, decide_False in Hno by (done || lia).
      destruct (pi_frame _ _ HI g m Hm Hpid) as [_ Hge]. destruct (Z.eqb_spec (pin_count m) 0); [done|lia].
  - pose proof (pi_free_nodup _ _ HI) as Hnd. rewrite Hfree in Hnd. apply NoDup_cons in Hnd as [Hf Hnd].
    destruct (free_is_unpaged s f HI) as (m & Hm & Hinv); [rewrite Hfree; left|].
    split_and!; [|done|done|done]. split; try apply HI; cbn [set_free replacer_ frames_ free_list_]; [done| | |].
    + intros g. pose proof (pi_free _ _ HI g) as Hg. rewrite Hfree in Hg. split.
      * intros Hgr. split; [intros [= ->]; done|]. apply Hg. by right.
      * intros [Hne Hex]. assert (g ∈ f :: rest) as Hin by (by apply Hg).
        apply elem_of_cons in Hin as [->|]; done.
    + intros z. rewrite (pi_flags _ _ HI), decide_False by done. case_decide as Hfz; [|done].
      injection Hfz as ->. unfold frame_flag. case_decide; [|done]. by rewrite Hm, decide_True.
    + intros g [= <-]. eauto.
Qed.

(** Forgetting the page of a frame that was taken out. *)
Definition forget (f : nat) (m : FrameMeta) (dk : Disk.t) (s : t) : t :=
  mk dk (replacer_ s) (pages_ s) (<[f := no_page]> (frames_ s)) (free_list_ s) (delete (page_id m) (page_table_ s)).

Lemma forget_inv f m dk s :
  pool_inv (Some f) s -> frames_ s !! f = Some m ->
  disk_ok dk -> next_page_id_ dk = next_page_id_ (disk_manager_ s) ->
  (forall q, valid_id q -> q <> page_id m -> image dk q = image (disk_manager_ s) q) ->
  pool_inv (Some f) (forget f m dk s).
Proof.
  intros HI Hm Hdk Hnext Himg.
  assert (forall g m', frames_ s !! g = Some m' -> page_id m' <> INVALID_PAGE_ID -> g <> f -> page_id m' <> page_id m) as Hdiff.
  { intros g m' Hg Hinv Hgf Heq. destruct (pi_frame _ _ HI g m' Hg Hinv) as [Ht _].
    rewrite Heq in Hinv, Ht. destruct (pi_frame _ _ HI f m Hm Hinv) as [Ht' _]. congruence. }
  split; try apply HI; cbn [forget disk_manager_ replacer_ pages_ frames_ free_list_ page_table_].
  - rewrite length_insert. apply HI.
  - rewrite length_insert. apply HI.
  - done.
  - intros pid g [Hne Hg]%lookup_delete_Some. destruct (pi_table _ _ HI pid g Hg) as (Hv & Hlt & m' & Hm' & Hp).
    rewrite Hnext. split_and!; [done|done|]. exists m'. split; [|done]. rewrite list_lookup_insert_ne; [done|].
    intros ->. congruence.
  - intros g m' Hg Hinv. apply list_lookup_insert_Some in Hg as [(<- & <- & _)|[Hne Hg]]; [done|].
    rewrite lookup_delete_ne; [by apply (pi_frame _ _ HI g)|]. apply not_eq_sym. by eapply Hdiff.
  - intros g. rewrite (pi_free _ _ HI g). split; intros [Hne (m' & Hm' & Hp)]; (split; [done|]);
      exists m'; (split; [|done]); destruct (decide (f = g)) as [->|Hfg]; try done;
      [by rewrite list_lookup_insert_ne|by rewrite list_lookup_insert_ne in Hm'].
  - intros z. rewrite (pi_flags _ _ HI). case_decide as Hz; [done|]. unfold frame_flag. cbn [forget frames_].
    case_decide; [|done]. rewrite list_lookup_insert_ne; [done|]. congruence.
  - intros g [= <-]. exists no_page. split; [|by left]. apply list_lookup_insert_eq. by eapply lookup_lt_Some.
  - intros g m' Hg Hinv Hpin Hd. apply list_lookup_insert_Some in Hg as [(<- & <- & _)|[Hne Hg]]; [done|].
    rewrite Himg; [by apply (pi_clean _ _ HI g)| |by eapply Hdiff].
    destruct (pi_frame _ _ HI g m' Hg Hinv) as [Ht _]. apply (pi_table _ _ HI _ _ Ht).
Qed.

Lemma forget_logical f m dk s q :
  pool_inv (Some f) s -> frames_ s !! f = Some m ->
  (forall q, valid_id q -> q <> page_id m -> image dk q = image (disk_manager_ s) q) ->
  (page_id m <> INVALID_PAGE_ID -> image dk (page_id m) = pages_ s !!! f) ->
  valid_id q -> logical (forget f m dk s) q = logical s q.
Proof.
  intros HI Hm Himg Hsaved Hq. unfold logical, forget. cbn [page_table_ pages_ disk_manager_].
  destruct (decide (page_id m = q)) as [<-|Hne].
  - rewrite lookup_delete_eq. pose proof (valid_not_invalid _ Hq) as Hinv.
    destruct (pi_frame _ _ HI f m Hm Hinv) as [-> _]. by apply Hsaved.
  - rewrite lookup_delete_ne by done. destruct (page_table_ s !! q); [done|]. by apply Himg.
Qed.

(** The old page of a frame that was taken out is saved and forgotten. *)
Lemma evict_spec f s :
  pool_inv (Some f) s ->
  exists s', evict 4096 f s = (true, s') /\
    pool_inv (Some f) (set_frame f no_page s') /\
    (forall q, valid_id q -> logical (set_frame f no_page s') q = logical s q) /\
    next_page_id_ (disk_manager_ s') = next_page_id_ (disk_manager_ s) /\
    (forall q, page_table_ s !! q = None -> page_table_ s' !! q = None).
Proof.
  intros HI. destruct (pi_taken _ _ HI f eq_refl) as (m & Hm & Hcase).
  pose proof (lookup_lt_Some _ _ _ Hm) as Hlt.
  destruct (lookup_lt_is_Some_2 (pages_ s) f) as [p Hp]; [rewrite (pi_len _ _ HI); done|].
  assert (forall q, page_table_ s !! q = None -> delete (page_id m) (page_table_ s) !! q = None) as Hnone.
  { intros q Hq. apply lookup_delete_None. by right. }
  unfold evict. rewrite (list_lookup_total_correct _ _ _ Hm), (list_lookup_total_correct _ _ _ Hp).
  destruct (Z.eqb_spec (page_id m) INVALID_PAGE_ID) as [Hinv|Hinv].
  { exists s. assert (set_frame f no_page s = forget f m (disk_manager_ s) s) as ->.
    { unfold forget, set_frame. f_equal. symmetry. apply delete_id, eq_None_not_Some. intros [g Hg].
      destruct (pi_table _ _ HI _ _ Hg) as (Hv & _). by apply (valid_not_invalid _ Hv). }
    split_and!; [done|apply forget_inv; try done; apply HI| |done|done].
    intros q Hq. by apply forget_logical. }
  destruct Hcase as [|Hpin]; [done|]. destruct (pi_frame _ _ HI f m Hm Hinv) as [Ht _].
  destruct (pi_table _ _ HI _ _ Ht) as (Hv & _).
  destruct (is_dirty m) eqn:Hd.
  - pose proof (write_page_spec (page_id m) p (disk_manager_ s) (pi_disk _ _ HI) Hv (pi_pages _ _ HI _ _ Hp)) as Hw.
    destruct (write_page 4096 (page_id m) p (disk_manager_ s)) as [ok dk]. destruct Hw as (-> & Hdk & Hnx & Hi & Ho).
    eexists. split; [done|]. cbn [negb]. set (s' := set_table _ _).
    assert (set_frame f no_page s' = forget f m dk s) as ->.
    { unfold forget, s', set_table, set_frame. cbn. by rewrite list_insert_insert_eq. }
    split_and!; [by apply forget_inv| |done|done]. intros q Hq. apply forget_logical; try done.
    intros _. by rewrite (list_lookup_total_correct _ _ _ Hp).
  - eexists. split; [done|]. set (s' := set_table _ _).
    assert (set_frame f no_page s' = forget f m (disk_manager_ s) s) as -> by done.
    split_and!; [apply forget_inv; try done; apply HI| |done|done]. intros q Hq. apply forget_logical; try done.
    intros _. pose proof (pi_clean _ _ HI f m Hm Hinv Hpin Hd) as Hc. by rewrite (list_lookup_total_correct _ _ _ Hc).
Qed.

Lemma touch_flags f r :
  rinv r -> rep_pre (Z.of_nat f) r ->
  rinv (rep_set (Z.of_nat f) false (rep_record (Z.of_nat f) r)) /\
  rep_flags (rep_set (Z.of_nat f) false (rep_record (Z.of_nat f) r)) = <[Z.of_nat f := false]> (rep_flags r).
Proof.
  intros Hr Hp. destruct (rep_record_flags (Z.of_nat f) r Hr Hp) as [Hr1 Hf1].
  destruct (rep_set_flags (Z.of_nat f) false _ Hr1) as [Hr2 Hf2]. split; [done|].
  rewrite Hf2, Hf1, lookup_insert_eq, decide_True by eauto. by rewrite insert_insert_eq.
Qed.

(** Entering a page in an empty frame that was taken out. *)
Lemma enter_spec f pid x s :
  pool_inv (Some f) s -> frames_ s !! f = Some no_page -> page_table_ s !! pid = None ->
  valid_id pid -> pid < next_page_id_ (disk_manager_ s) -> length x = PAGE_SIZE ->
  rep_pre (Z.of_nat f) (replacer_ s) ->
  let s' := enter f pid (set_page f x s) in
  pool_inv None s' /\ (forall q, logical s' q = if decide (q = pid) then x else logical s q) /\
  page_table_ s' !! pid = Some f /\ frames_ s' !! f = Some (mk_meta pid 1 false) /\ pages_ s' !! f = Some x.
Proof.
  intros HI Hf Hnone Hv Hlt Hx Hpre s'. pose proof (lookup_lt_Some _ _ _ Hf) as Hfl.
  pose proof (valid_not_invalid _ Hv) as Hinv.
  destruct (touch_flags f (replacer_ s) (pi_rinv _ _ HI) Hpre) as [Hr Hfl'].
  assert (forall q g, page_table_ s !! q = Some g -> g <> f) as Hother.
  { intros q g Hq ->. destruct (pi_table _ _ HI q f Hq) as (Hvq & _ & m & Hm & Hp). simplify_eq.
    by apply (valid_not_invalid _ Hvq). }
  assert (pages_ s' !! f = Some x) as Hpage.
  { unfold s'. cbn. apply list_lookup_insert_eq. by rewrite (pi_len _ _ HI). }
  split_and!; [split| | | |done];
    unfold s'; cbn [enter touch set_replacer set_frame set_table set_page disk_manager_ replacer_ pages_ frames_ free_list_ page_table_].
  - rewrite !length_insert. apply HI.
  - rewrite length_insert. apply HI.
  - intros g p Hg. apply list_lookup_insert_Some in Hg as [(<- & <- & _)|[_ Hg]]; [done|by apply (pi_pages _ _ HI g)].
  - apply HI.
  - done.
  - intros q g Hq. apply lookup_insert_Some in Hq as [[<- <-]|[Hne Hq]].
    + split_and!; [done|done|]. eexists. split; [by apply list_lookup_insert_eq|done].
    + destruct (pi_table _ _ HI q g Hq) as (? & ? & m & Hm & ?). split_and!; [done|done|]. exists m.
      split; [|done]. rewrite list_lookup_insert_ne; [done|]. apply not_eq_sym. by eapply Hother.
  - intros g m Hg Hm. apply list_lookup_insert_Some in Hg as [(<- & <- & _)|[Hne Hg]].
    + cbn. rewrite lookup_insert_eq. split; [done|unfold INT32_MAX; lia].
    + destruct (pi_frame _ _ HI g m Hg Hm) as [Ht ?]. split; [|done]. rewrite lookup_insert_ne; [done|]. congruence.
  - apply HI.
  - intros g. rewrite (pi_free _ _ HI g). split; intros [Hne (m & Hm & Hp)].
    + split; [done|]. exists m. split; [|done]. rewrite list_lookup_insert_ne; [done|congruence].
    + apply list_lookup_insert_Some in Hm as [(<- & <- & _)|[Hgf Hm]]; [done|]. split; [congruence|eauto].
  - intros z. rewrite Hfl', decide_False by done. destruct (decide (z = Z.of_nat f)) as [->|Hz].
    + rewrite lookup_insert_eq. unfold frame_flag. cbn [frames_ enter touch set_replacer set_frame set_table set_page].
      rewrite decide_True, Nat2Z.id, list_lookup_insert_eq by (done || lia). cbn. by rewrite decide_False.
    + rewrite lookup_insert_ne, (pi_flags _ _ HI) by done. unfold frame_flag.
      cbn [frames_ enter touch set_replacer set_frame set_table set_page]. destruct (decide (0 <= z)); [|by case_decide].
      assert (f <> Z.to_nat z) by lia. rewrite decide_False by congruence. by rewrite list_lookup_insert_ne.
  - done.
  - intros g m Hg Hm Hpin Hd. apply list_lookup_insert_Some in Hg as [(<- & <- & _)|[Hne Hg]]; [done|].
    rewrite list_lookup_insert_ne by done. by apply (pi_clean _ _ HI g).
  - intros q. unfold logical. cbn [page_table_ pages_ disk_manager_ enter touch set_replacer set_frame set_table set_page].
    case_decide as Hq; [subst; rewrite lookup_insert_eq|].
    + by apply list_lookup_total_correct.
    + rewrite lookup_insert_ne by done. destruct (page_table_ s !! q) as [g|] eqn:Hg; [|done].
      rewrite list_lookup_total_insert_ne; [done|]. apply not_eq_sym. by eapply Hother.
  - apply lookup_insert_eq.
  - by apply list_lookup_insert_eq.
Qed.

(** [enter] overwrites the whole entry of its frame. *)
Lemma enter_forget f pid x s : enter f pid (set_page f x s) = enter f pid (set_page f x (set_frame f no_page s)).
Proof.
  unfold enter, touch, set_replacer, set_frame, set_table, set_page. cbn. by rewrite list_insert_insert_eq.
Qed.

(** ** The operations *)

(** The replacer can record one more access to any frame. *)
Definition clock_ok (s : t) : Prop :=
  forall f, (f < length (frames_ s))%nat -> rep_pre (Z.of_nat f) (replacer_ s).

Definition order_ok (order : list Z) (s : t) : Prop :=
  order ≡ₚ (map_to_list (rep_flags (replacer_ s))).*1.

Definition all_pinned (s : t) : Prop :=
  forall f m, frames_ s !! f = Some m -> page_id m <> INVALID_PAGE_ID /\ 0 < pin_count m.

Lemma find_available_clock order s f s' :
  find_available_frame order s = (Some f, s') -> clock_ok s -> clock_ok s' /\ frames_ s' = frames_ s.
Proof.
  unfold find_available_frame. intros Hf Hc. destruct (free_list_ s); [|by simplify_eq].
  destruct (rep_victim order (replacer_ s)) as [v r] eqn:Hv. simplify_eq. split; [|done].
  intros g Hg. cbn. replace r with (rep_victim order (replacer_ s)).2 by (by rewrite Hv).
  apply rep_victim_pre, Hc. exact Hg.
Qed.

Lemma evict_replacer w f s : replacer_ (evict w f s).2 = replacer_ s /\ length (frames_ (evict w f s).2) = length (frames_ s).
Proof.
  unfold evict. destruct (page_id _ =? _); [done|]. destruct (is_dirty _); [|done].
  destruct (write_page _ _ _ _) as [[] ?]; cbn; by rewrite ?length_insert.
Qed.

(** Allocating an id only raises the bound of the ids in use. *)
Lemma pool_inv_next x dk s :
  pool_inv x s -> file dk = file (disk_manager_ s) -> next_page_id_ (disk_manager_ s) <= next_page_id_ dk ->
  pool_inv x (set_disk dk s).
Proof.
  intros HI Hf Hn. assert (forall q, image dk q = image (disk_manager_ s) q) as Himg
    by (intros q; by apply image_file).
  destruct HI as [H1 H2 H3 H4 H5 H6 H7 H8 H9 H10 H11 H12]. split; [exact H1|exact H2|exact H3| |exact H5|
    |exact H7|exact H8|exact H9|exact H10|exact H11|]; cbn [set_disk disk_manager_].
  - by eapply disk_ok_file; [|exact H4].
  - intros pid f Ht. destruct (H6 pid f Ht) as (? & ? & ?). split_and!; [done|lia|done].
  - intros f m Hf' Hi Hp Hd. rewrite Himg. by apply (H12 f m).
Qed.

(** Loading page content [x] into the frame that [find_available_frame]
    delivered. *)
Lemma load_spec f pid x s :
  pool_inv (Some f) s -> clock_ok s -> page_table_ s !! pid = None -> valid_id pid ->
  pid < next_page_id_ (disk_manager_ s) -> length x = PAGE_SIZE ->
  exists s', evict 4096 f s = (true, s') /\
    let s'' := enter f pid (set_page f x s') in
    pool_inv None s'' /\
    (forall q, valid_id q -> logical s'' q = if decide (q = pid) then x else logical s q) /\
    page_table_ s'' !! pid = Some f /\ frames_ s'' !! f = Some (mk_meta pid 1 false) /\ pages_ s'' !! f = Some x /\
    next_page_id_ (disk_manager_ s'') = next_page_id_ (disk_manager_ s) /\
    (forall q, valid_id q -> page_table_ s !! q = None -> image (disk_manager_ s') q = image (disk_manager_ s) q) /\
    length (pages_ s' !!! f) = PAGE_SIZE /\ disk_ok (disk_manager_ s').
Proof.
  intros HI Hc Hnone Hv Hlt Hx. destruct (evict_spec f s HI) as (s' & He & HI' & Hlog & Hnx & Hpt).
  destruct (evict_replacer 4096 f s) as [Hr Hl]. rewrite He in Hr, Hl. cbn [snd] in Hr, Hl.
  destruct (pi_taken _ _ HI f eq_refl) as (m & Hm & _). pose proof (lookup_lt_Some _ _ _ Hm) as Hfl.
  exists s'. split; [done|]. cbv zeta. rewrite enter_forget.
  destruct (enter_spec f pid x (set_frame f no_page s') HI') as (HI'' & Hlog' & Ht & Hfr & Hpg).
  - cbn. apply list_lookup_insert_eq. lia.
  - by apply Hpt.
  - exact Hv.
  - cbn. lia.
  - exact Hx.
  - cbn. rewrite Hr. by apply Hc.
  - split_and!; [exact HI''| |exact Ht|exact Hfr|exact Hpg|exact Hnx| | |].
    + intros q Hq. rewrite Hlog'. case_decide; [done|]. by apply Hlog.
    + intros q Hq Hn. specialize (Hlog q Hq). unfold logical in Hlog. cbn in Hlog. by rewrite Hn, (Hpt q Hn) in Hlog.
    + assert (f < length (pages_ s'))%nat as Hp.
      { pose proof (pi_len _ _ HI') as Hle. cbn in Hle. rewrite length_insert in Hle. lia. }
      destruct (lookup_lt_is_Some_2 _ _ Hp) as [p Hp']. rewrite (list_lookup_total_correct _ _ _ Hp').
      by apply (pi_pages _ _ HI' f).
    + apply (pi_disk _ _ HI').
Qed.

Lemma new_page_spec order s :
  pool_inv None s -> clock_ok s -> order_ok order s -> valid_id (next_page_id_ (disk_manager_ s)) ->
  match new_page order 4096 s with
  | (Threw, _) => False
  | (Null, s') => s' = s /\ all_pinned s
  | (Overflow, _) => False
  | (Frame pid f, s') => pid = next_page_id_ (disk_manager_ s) /\ pool_inv None s' /\
      next_page_id_ (disk_manager_ s') = pid + 1 /\
      (forall q, valid_id q -> logical s' q = if decide (q = pid) then Page.init pid else logical s q) /\
      page_table_ s' !! pid = Some f /\ frames_ s' !! f = Some (mk_meta pid 1 false)
  end.
Proof.
  intros HI Hc Ho Hv. pose proof (find_available_spec order s HI Ho) as Hf. unfold new_page.
  destruct (find_available_frame order s) as [[f|] s1] eqn:He; [|done].
  destruct Hf as (HI1 & Hlog & Hdk & Hpt). destruct (find_available_clock _ _ _ _ He Hc) as [Hc1 Hfr].
  unfold allocate_page. rewrite Hdk. set (pid := next_page_id_ (disk_manager_ s)) in *.
  assert (pid +64 1 = pid + 1) as Hn by (apply wrap_small; unfold valid_id in Hv; lia). rewrite Hn.
  set (dk := Disk.mk _ _). assert (pool_inv (Some f) (set_disk dk s1)) as HI2.
  { apply pool_inv_next; [done|by rewrite Hdk|rewrite Hdk; cbn; lia]. }
  destruct (load_spec f pid (Page.init pid) (set_disk dk s1) HI2 Hc1) as (s' & -> & HI' & Hl & Ht & Hm & _ & Hnx & _).
  - cbn. rewrite Hpt. apply eq_None_not_Some. intros [g Hg].
    destruct (pi_table _ _ HI pid g Hg) as (_ & Hlt & _). unfold pid in Hlt. lia.
  - exact Hv.
  - cbn. lia.
  - apply (Page.rep_init pid).
  - split_and!; [done|exact HI'|exact Hnx| |exact Ht|exact Hm]. intros q Hq. rewrite Hl by done. case_decide; [done|].
    rewrite <- Hlog. unfold logical. cbn [set_disk page_table_ disk_manager_ pages_].
    destruct (page_table_ s1 !! q); [done|]. apply image_file. by rewrite Hdk.
Qed.

(** Changing the metadata of a frame that keeps its page. *)
Lemma reframe_inv pid f m m' r s :
  pool_inv None s -> page_table_ s !! pid = Some f -> frames_ s !! f = Some m ->
  page_id m' = page_id m -> 0 <= pin_count m' <= INT32_MAX -> rinv r ->
  rep_flags r = <[Z.of_nat f := pin_count m' =? 0]> (rep_flags (replacer_ s)) ->
  (pin_count m' = 0 -> is_dirty m' = false -> pages_ s !! f = Some (image (disk_manager_ s) pid)) ->
  pool_inv None (set_replacer r (set_frame f m' s)).
Proof.
  intros HI Ht Hm Hid Hpin Hr Hflags Hclean. pose proof (lookup_lt_Some _ _ _ Hm) as Hfl.
  destruct (pi_table _ _ HI pid f Ht) as (Hv & Hlt & m0 & Hm0 & Hp). assert (m0 = m) as -> by congruence.
  pose proof (valid_not_invalid _ Hv) as Hinv.
  split; try apply HI; cbn [set_replacer set_frame disk_manager_ replacer_ pages_ frames_ free_list_ page_table_].
  - rewrite length_insert. apply HI.
  - rewrite length_insert. apply HI.
  - done.
  - intros q g Hq. destruct (pi_table _ _ HI q g Hq) as (? & ? & mg & Hg & ?). split_and!; [done|done|].
    destruct (decide (f = g)) as [->|Hne].
    + eexists. split; [by apply list_lookup_insert_eq|]. congruence.
    + exists mg. by rewrite list_lookup_insert_ne.
  - intros g mg Hg Hi. apply list_lookup_insert_Some in Hg as [(<- & <- & _)|[Hne Hg]].
    + split; [by rewrite Hid, Hp|done].
    + by apply (pi_frame _ _ HI g).
  - intros g. rewrite (pi_free _ _ HI g). split; intros [Hne (mg & Hg & Hi)]; (split; [done|]).
    + exists mg. split; [|done]. rewrite list_lookup_insert_ne; [done|]. congruence.
    + apply list_lookup_insert_Some in Hg as [(<- & <- & _)|[? Hg]]; [congruence|eauto].
  - intros z. rewrite Hflags, decide_False by done. destruct (decide (z = Z.of_nat f)) as [->|Hz].
    + rewrite lookup_insert_eq. unfold frame_flag. cbn [frames_ set_replacer set_frame].
      rewrite decide_True, Nat2Z.id, list_lookup_insert_eq by (done || lia). by rewrite decide_False by congruence.
    + rewrite lookup_insert_ne, (pi_flags _ _ HI), decide_False by done. unfold frame_flag.
      cbn [frames_ set_replacer set_frame]. destruct (decide (0 <= z)); [|done].
      rewrite list_lookup_insert_ne by lia. done.
  - done.
  - intros g mg Hg Hi Hp0 Hd. apply list_lookup_insert_Some in Hg as [(<- & <- & _)|[Hne Hg]].
    + rewrite Hid, Hp. by apply Hclean.
    + by apply (pi_clean _ _ HI g).
Qed.

(** Pinning a page that is already in the pool. *)
Lemma pin_spec pid f m s :
  pool_inv None s -> clock_ok s -> page_table_ s !! pid = Some f -> frames_ s !! f = Some m -> pin_count m <> INT32_MAX ->
  let s' := touch f (set_frame f (mk_meta (page_id m) (pin_count m + 1) (is_dirty m)) s) in
  pool_inv None s' /\ (forall q, logical s' q = logical s q).
Proof.
  intros HI Hc Ht Hm Hmax. pose proof (lookup_lt_Some _ _ _ Hm) as Hfl.
  destruct (pi_table _ _ HI pid f Ht) as (Hv & Hlt & m' & Hm' & Hp). assert (m' = m) as -> by congruence.
  pose proof (valid_not_invalid _ Hv) as Hinv. rewrite <- Hp in Hinv.
  destruct (pi_frame _ _ HI f m Hm Hinv) as [_ Hpin].
  destruct (touch_flags f (replacer_ s) (pi_rinv _ _ HI) (Hc f Hfl)) as [Hr Hfl'].
  split; [|done]. apply (reframe_inv pid f m); cbn [page_id pin_count is_dirty]; try done; try lia.
  cbn [set_frame replacer_]. rewrite Hfl'. by destruct (Z.eqb_spec (pin_count m + 1) 0); [lia|].
Qed.

(** Page [q] stays where it is, pinned, between [s] and [s']. *)
Definition stays (q : Z) (g : nat) (s s' : t) : Prop :=
  page_table_ s' !! q = Some g /\ frames_ s' !! g = frames_ s !! g /\ pages_ s' !! g = pages_ s !! g.

Definition pinned (q : Z) (g : nat) (s : t) : Prop :=
  page_table_ s !! q = Some g /\ exists m, frames_ s !! g = Some m /\ 0 < pin_count m.

Lemma load_pinned f pid x s s' q g :
  pool_inv (Some f) s -> evict 4096 f s = (true, s') -> page_table_ s !! pid = None -> pinned q g s ->
  stays q g s (enter f pid (set_page f x s')).
Proof.
  intros HI He Hnone (Hq & m & Hm & Hpin). destruct (pi_table _ _ HI q g Hq) as (Hv & _ & m' & Hm' & Hp).
  assert (m' = m) as -> by congruence. pose proof (valid_not_invalid _ Hv) as Hinv.
  destruct (pi_taken _ _ HI f eq_refl) as (mf & Hmf & Hcase).
  assert (f <> g) as Hfg by (intros ->; assert (mf = m) as -> by congruence; destruct Hcase; [congruence|lia]).
  assert (page_id mf <> q) as Hne.
  { intros Heq. assert (page_id mf <> INVALID_PAGE_ID) as Hi by congruence.
    destruct (pi_frame _ _ HI f mf Hmf Hi) as [Ht _]. congruence. }
  assert (page_table_ s' !! q = Some g /\ frames_ s' !! g = frames_ s !! g /\ pages_ s' = pages_ s) as (Ht & Hfr & Hpg).
  { unfold evict in He. rewrite (list_lookup_total_correct _ _ _ Hmf) in He.
    destruct (page_id mf =? INVALID_PAGE_ID); [by simplify_eq|]. destruct (is_dirty mf).
    - destruct (write_page _ _ _ _) as [[] dk]; cbn in He; simplify_eq. cbn.
      rewrite lookup_delete_ne, list_lookup_insert_ne by done. done.
    - simplify_eq. cbn. by rewrite lookup_delete_ne. }
  unfold stays. cbn [enter touch set_replacer set_frame set_table set_page page_table_ frames_ pages_].
  rewrite lookup_insert_ne by congruence. rewrite !list_lookup_insert_ne, Hpg by done. done.
Qed.

(** Page [pid] is in the pool with the largest number of pins. *)
Definition exhausted (pid : Z) (s : t) : Prop :=
  exists f m, page_table_ s !! pid = Some f /\ frames_ s !! f = Some m /\ pin_count m = INT32_MAX.

Lemma fetch_page_spec pid order s :
  pool_inv None s -> clock_ok s -> order_ok order s -> valid_id pid -> pid < next_page_id_ (disk_manager_ s) ->
  match fetch_page pid order 4096 s with
  | (Threw, _) => False
  | (Null, s') => s' = s /\ all_pinned s
  | (Overflow, _) => exhausted pid s
  | (Frame pid' f, s') => pid' = pid /\ pool_inv None s' /\
      next_page_id_ (disk_manager_ s') = next_page_id_ (disk_manager_ s) /\
      (forall q, valid_id q -> logical s' q = logical s q) /\
      pages_ s' !! f = Some (logical s pid) /\ pinned pid f s'
  end.
Proof.
  intros HI Hc Ho Hv Hlt. unfold fetch_page. destruct (page_table_ s !! pid) as [f|] eqn:Ht.
  - destruct (pi_table _ _ HI pid f Ht) as (_ & _ & m & Hm & Hp).
    rewrite (list_lookup_total_correct _ _ _ Hm). destruct (Z.eqb_spec (pin_count m) INT32_MAX) as [Hmax|Hmax]; [by exists f, m|].
    destruct (pin_spec pid f m s HI Hc Ht Hm Hmax) as [HI' Hlog]. pose proof (lookup_lt_Some _ _ _ Hm) as Hfl.
    destruct (lookup_lt_is_Some_2 (pages_ s) f) as [p Hpg]; [rewrite (pi_len _ _ HI); done|].
    split_and!; [done|done|done|by intros; apply Hlog| |].
    + unfold logical. rewrite Ht, (list_lookup_total_correct _ _ _ Hpg). exact Hpg.
    + split; [exact Ht|]. eexists. split; [by apply list_lookup_insert_eq|]. cbn.
      pose proof (valid_not_invalid _ Hv) as Hinv. rewrite <- Hp in Hinv.
      destruct (pi_frame _ _ HI f m Hm Hinv). lia.
  - pose proof (find_available_spec order s HI Ho) as Hf.
    destruct (find_available_frame order s) as [[f|] s1] eqn:He; [|done].
    destruct Hf as (HI1 & Hlog & Hdk & Hpt). destruct (find_available_clock _ _ _ _ He Hc) as [Hc1 Hfr].
    assert (page_table_ s1 !! pid = None) as Hnone by (by rewrite Hpt).
    assert (pid < next_page_id_ (disk_manager_ s1)) as Hlt1 by (by rewrite Hdk).
    assert (logical s pid = image (disk_manager_ s) pid) as Hcur by (unfold logical; by rewrite Ht).
    destruct (load_spec f pid (image (disk_manager_ s) pid) s1 HI1 Hc1 Hnone Hv Hlt1)
      as (s' & Hev & HI' & Hl & Ht' & Hm & Hpg & Hnx & Himg & Hlen & Hok').
    { apply length_image; [apply HI|done]. }
    rewrite Hev. rewrite read_page_image by done. rewrite Himg, Hdk by done.
    split_and!; [done|exact HI'|by rewrite Hnx, Hdk| |by rewrite Hpg, Hcur|].
    + intros q Hq. rewrite Hl by done. case_decide; [subst; by rewrite Hcur|]. apply Hlog.
    + split; [exact Ht'|]. eexists. split; [exact Hm|]. cbn. lia.
Qed.


Lemma flags_of_frame s f m :
  pool_inv None s -> frames_ s !! f = Some m -> page_id m <> INVALID_PAGE_ID ->
  rep_flags (replacer_ s) !! Z.of_nat f = Some (pin_count m =? 0).
Proof.
  intros HI Hm Hinv. rewrite (pi_flags _ _ HI), decide_False by done. unfold frame_flag.
  by rewrite decide_True, Nat2Z.id, Hm, decide_False by (done || lia).
Qed.

(** The caller's side of [unpin_page]: whoever releases the last pin without
    marking the page dirty has left it as it is on disk. *)
Definition honest (pid : Z) (dirty : bool) (s : t) : Prop :=
  forall f m, page_table_ s !! pid = Some f -> frames_ s !! f = Some m ->
    pin_count m = 1 -> is_dirty m || dirty = false -> pages_ s !! f = Some (image (disk_manager_ s) pid).

Lemma unpin_spec pid dirty s :
  pool_inv None s -> honest pid dirty s ->
  let '(ok, s') := unpin_page pid dirty s in
  pool_inv None s' /\ (forall q, logical s' q = logical s q) /\ disk_manager_ s' = disk_manager_ s /\
  (ok = true <-> exists f, pinned pid f s).
Proof.
  intros HI Hh. unfold unpin_page. destruct (page_table_ s !! pid) as [f|] eqn:Ht.
  2: { split_and!; [done|done|done|]. split; [done|]. intros (f & Hf & _). congruence. }
  destruct (pi_table _ _ HI pid f Ht) as (Hv & Hlt & m & Hm & Hp).
  pose proof (valid_not_invalid _ Hv) as Hinv. rewrite <- Hp in Hinv.
  destruct (pi_frame _ _ HI f m Hm Hinv) as [_ Hpin]. rewrite (list_lookup_total_correct _ _ _ Hm).
  destruct (Z.leb_spec (pin_count m) 0) as [Hz|Hz].
  { split_and!; [done|done|done|]. split; [done|]. intros (g & Hg & m' & Hm' & Hp'). simplify_eq. lia. }
  cbn [pin_count]. pose proof (flags_of_frame s f m HI Hm Hinv) as Hflag.
  destruct (Z.eqb_spec (pin_count m) 0); [lia|].
  assert (exists f, pinned pid f s) as Hex by (exists f; split; [done|]; exists m; done).
  destruct (Z.eqb_spec (pin_count m - 1) 0) as [H1|H1].
  - destruct (rep_set_flags (Z.of_nat f) true (replacer_ s) (pi_rinv _ _ HI)) as [Hr Hfl].
    rewrite decide_True in Hfl by eauto. split_and!; [|done|done|done].
    apply (reframe_inv pid f m); cbn [page_id pin_count is_dirty]; try done; [lia| |].
    + rewrite H1. exact Hfl.
    + intros _ Hd. apply (Hh f m); [done|done|lia|done].
  - split_and!; [|done|done|done]. set (m' := mk_meta _ _ _).
    assert (set_frame f m' s = set_replacer (replacer_ s) (set_frame f m' s)) as -> by done.
    apply (reframe_inv pid f m); cbn [page_id pin_count is_dirty m']; try done; try lia; [apply HI|].
    destruct (Z.eqb_spec (pin_count m - 1) 0); [lia|]. by rewrite insert_id.
Qed.

(** Saving a cached page. *)
Lemma save_spec pid f m s :
  pool_inv None s -> page_table_ s !! pid = Some f -> frames_ s !! f = Some m ->
  let '(ok, dk) := write_page 4096 pid (pages_ s !!! f) (disk_manager_ s) in
  let s' := set_frame f (mk_meta (page_id m) (pin_count m) false) (set_disk dk s) in
  ok = true /\ pool_inv None s' /\ (forall q, valid_id q -> logical s' q = logical s q) /\
  image dk pid = pages_ s !!! f /\ (forall q, valid_id q -> q <> pid -> image dk q = image (disk_manager_ s) q) /\
  next_page_id_ dk = next_page_id_ (disk_manager_ s).
Proof.
  intros HI Ht Hm. destruct (pi_table _ _ HI pid f Ht) as (Hv & Hlt & m' & Hm' & Hp).
  assert (m' = m) as -> by congruence. pose proof (lookup_lt_Some _ _ _ Hm) as Hfl.
  destruct (lookup_lt_is_Some_2 (pages_ s) f) as [p Hpg]; [rewrite (pi_len _ _ HI); done|].
  rewrite (list_lookup_total_correct _ _ _ Hpg).
  pose proof (write_page_spec pid p (disk_manager_ s) (pi_disk _ _ HI) Hv (pi_pages _ _ HI _ _ Hpg)) as Hw.
  destruct (write_page 4096 pid p (disk_manager_ s)) as [ok dk]. destruct Hw as (-> & Hok & Hnx & Hi & Ho).
  pose proof (valid_not_invalid _ Hv) as Hinv. rewrite <- Hp in Hinv.
  destruct (pi_frame _ _ HI f m Hm Hinv) as [_ Hpin].
  assert (pool_inv None (set_disk dk s)) as HI1.
  { destruct HI as [H1 H2 H3 H4 H5 H6 H7 H8 H9 H10 H11 H12]. split; [exact H1|exact H2|exact H3|exact Hok|exact H5|
      |exact H7|exact H8|exact H9|exact H10|exact H11|]; cbn [set_disk disk_manager_ frames_ page_table_ pages_].
    - intros q g Hq. rewrite Hnx. by apply H6.
    - intros g mg Hg Hig Hpg' Hdg. destruct (decide (g = f)) as [->|Hne].
      + assert (mg = m) as -> by congruence. by rewrite Hp, Hi.
      + destruct (H7 g mg Hg Hig) as [Htg _]. destruct (H6 _ _ Htg) as (Hvg & _).
        rewrite Ho; [by apply H12|done|]. intros Heq. congruence. }
  split_and!; [done| | |done|done|done].
  - set (m1 := mk_meta _ _ _). set (s1 := set_disk dk s) in *.
    assert (set_frame f m1 s1 = set_replacer (replacer_ s1) (set_frame f m1 s1)) as -> by done.
    apply (reframe_inv pid f m); cbn [page_id pin_count is_dirty m1]; try done; [apply HI1| |].
    + rewrite insert_id; [done|]. by apply (flags_of_frame s1 f m).
    + intros _ _. cbn. by rewrite Hi.
  - intros q Hq. unfold logical. cbn [set_frame set_disk page_table_ pages_ disk_manager_].
    destruct (page_table_ s !! q) eqn:Hq'; [done|]. apply Ho; [done|]. intros ->. congruence.
Qed.

(** Frames keep page and pins and may only become clean. *)
Definition cleaned (s s' : t) : Prop :=
  page_table_ s' = page_table_ s /\
  next_page_id_ (disk_manager_ s') = next_page_id_ (disk_manager_ s) /\
  forall f m', frames_ s' !! f = Some m' -> exists m, frames_ s !! f = Some m /\
    page_id m' = page_id m /\ pin_count m' = pin_count m /\ (is_dirty m = false -> is_dirty m' = false).

Lemma cleaned_refl s : cleaned s s.
Proof. split_and!; [done|done|]. intros f m Hm. exists m. done. Qed.

Lemma cleaned_trans s1 s2 s3 : cleaned s1 s2 -> cleaned s2 s3 -> cleaned s1 s3.
Proof.
  intros (Ht1 & Hn1 & Hf1) (Ht2 & Hn2 & Hf2). split_and!; [congruence|congruence|].
  intros f m3 H3. destruct (Hf2 f m3 H3) as (m2 & H2 & Hi2 & Hp2 & Hd2).
  destruct (Hf1 f m2 H2) as (m1 & H1 & Hi1 & Hp1 & Hd1). exists m1. split_and!; [done|congruence|congruence|auto].
Qed.

Lemma flush_all_spec pids s :
  pool_inv None s ->
  exists s', flush_all_pages pids (fun _ => 4096) s = (true, s') /\ pool_inv None s' /\
    (forall q, valid_id q -> logical s' q = logical s q) /\ cleaned s s' /\
    (forall q f m', q ∈ pids -> page_table_ s !! q = Some f -> frames_ s' !! f = Some m' -> is_dirty m' = false).
Proof.
  revert s. induction pids as [|pid pids IH]; intros s HI; cbn [flush_all_pages].
  { exists s. split_and!; [done|done|done|apply cleaned_refl|]. by intros q f m' ?%not_elem_of_nil. }
  destruct (page_table_ s !! pid) as [f|] eqn:Ht.
  2: { destruct (IH s HI) as (s' & -> & HI' & Hlog & Hcl & Hd). exists s'. split_and!; try done.
       intros q f m' [->|Hq]%elem_of_cons Hf; [congruence|by eapply Hd]. }
  destruct (pi_table _ _ HI pid f Ht) as (Hv & _ & m & Hm & Hp). rewrite (list_lookup_total_correct _ _ _ Hm).
  pose proof (lookup_lt_Some _ _ _ Hm) as Hfl. destruct (is_dirty m) eqn:Hd.
  - pose proof (save_spec pid f m s HI Ht Hm) as Hs.
    destruct (write_page 4096 pid (pages_ s !!! f) (disk_manager_ s)) as [ok dk].
    destruct Hs as (-> & HI1 & Hlog1 & _ & _ & Hnx). cbn [negb]. set (s1 := set_frame _ _ _) in *.
    assert (cleaned s s1) as Hcl1.
    { split_and!; [done|done|]. intros g mg Hg. unfold s1 in Hg. cbn in Hg.
      apply list_lookup_insert_Some in Hg as [(<- & <- & _)|[_ Hg]]; [|by exists mg]. by exists m. }
    destruct (IH s1 HI1) as (s' & -> & HI' & Hlog & Hcl & Hdd). exists s'.
    split_and!; [done|done|intros q Hq; by rewrite Hlog, Hlog1|by eapply cleaned_trans|].
    intros q g m' [->|Hq]%elem_of_cons Hg Hm'; [|by eapply Hdd].
    assert (g = f) as -> by congruence. destruct Hcl as (_ & _ & Hcl). destruct (Hcl f m' Hm') as (m1 & Hm1 & _ & _ & Hc).
    apply Hc. unfold s1 in Hm1. cbn in Hm1. rewrite list_lookup_insert_eq in Hm1 by done. by simplify_eq.
  - destruct (IH s HI) as (s' & -> & HI' & Hlog & Hcl & Hdd). exists s'. split_and!; try done.
    intros q g m' [->|Hq]%elem_of_cons Hg Hm'; [|by eapply Hdd].
    assert (g = f) as -> by congruence. destruct Hcl as (_ & _ & Hcl). destruct (Hcl f m' Hm') as (m1 & Hm1 & _ & _ & Hc).
    apply Hc. congruence.
Qed.

(** The holder of a pin changes the bytes of its page. *)
Lemma client_write_spec pid f bytes s :
  pool_inv None s -> pinned pid f s -> length bytes = PAGE_SIZE ->
  pool_inv None (set_page f bytes s) /\
  (forall q, logical (set_page f bytes s) q = if decide (q = pid) then bytes else logical s q).
Proof.
  intros HI (Ht & m & Hm & Hpin) Hlen. pose proof (lookup_lt_Some _ _ _ Hm) as Hfl.
  assert (f < length (pages_ s))%nat as Hfp by (rewrite (pi_len _ _ HI); done). split.
  - split; try apply HI; cbn [set_page disk_manager_ replacer_ pages_ frames_ free_list_ page_table_].
    + rewrite length_insert. apply HI.
    + intros g p Hg. apply list_lookup_insert_Some in Hg as [(<- & <- & _)|[_ Hg]]; [done|by apply (pi_pages _ _ HI g)].
    + intros g mg Hg Hi Hp0 Hd. rewrite list_lookup_insert_ne; [by apply (pi_clean _ _ HI g)|].
      intros ->. assert (mg = m) as -> by congruence. lia.
  - intros q. unfold logical. cbn [set_page page_table_ pages_ disk_manager_]. case_decide as Hq.
    + subst. rewrite Ht. apply list_lookup_total_correct. by apply list_lookup_insert_eq.
    + destruct (page_table_ s !! q) as [g|] eqn:Hg; [|done]. rewrite list_lookup_total_insert_ne; [done|].
      intros ->. destruct (pi_table _ _ HI q g Hg) as (_ & _ & mq & Hmq & Hpq).
      destruct (pi_table _ _ HI pid g Ht) as (_ & _ & mp & Hmp & Hpp). congruence.
Qed.

(** ** Histories *)

(** [m] is the content clients expect of every page. *)
Definition store : Type := Z -> list Z.
Definition upd (pid : Z) (x : list Z) (m : store) : store := fun q => if decide (q = pid) then x else m q.

Inductive step : t * store -> t * store -> Prop :=
| st_new order s m pid f s' :
    clock_ok s -> order_ok order s -> valid_id (next_page_id_ (disk_manager_ s)) ->
    new_page order 4096 s = (Frame pid f, s') -> step (s, m) (s', upd pid (Page.init pid) m)
| st_fetch pid order s m f s' :
    clock_ok s -> order_ok order s -> valid_id pid -> pid < next_page_id_ (disk_manager_ s) ->
    fetch_page pid order 4096 s = (Frame pid f, s') -> step (s, m) (s', m)
| st_write pid f bytes s m :
    pinned pid f s -> length bytes = PAGE_SIZE -> step (s, m) (set_page f bytes s, upd pid bytes m)
| st_unpin pid dirty s m :
    honest pid dirty s -> step (s, m) ((unpin_page pid dirty s).2, m)
| st_flush pid s m : step (s, m) ((flush_page pid 4096 s).2, m)
| st_flush_all pids s m : step (s, m) ((flush_all_pages pids (fun _ => 4096) s).2, m).

Definition agree (s : t) (m : store) : Prop := forall q, valid_id q -> logical s q = m q.

Lemma step_inv_agree s m s' m' :
  step (s, m) (s', m') -> pool_inv None s -> agree s m -> pool_inv None s' /\ agree s' m'.
Proof.
  intros Hst HI Hag. inversion Hst as
    [order s0 m0 pid f s1 Hc Ho Hv He|pid order s0 m0 f s1 Hc Ho Hv Hlt He|pid f bytes s0 m0 Hp Hl
    |pid dirty s0 m0 Hh|pid s0 m0|pids s0 m0]; subst.
  - pose proof (new_page_spec order s HI Hc Ho Hv) as H. rewrite He in H. destruct H as (-> & HI' & _ & Hlog & _).
    split; [done|]. intros q Hq. rewrite Hlog by done. unfold upd. case_decide; [done|by apply Hag].
  - pose proof (fetch_page_spec pid order s HI Hc Ho Hv Hlt) as H. rewrite He in H.
    destruct H as (_ & HI' & _ & Hlog & _). split; [done|]. intros q Hq. rewrite Hlog by done. by apply Hag.
  - destruct (client_write_spec pid f bytes s HI Hp Hl) as [HI' Hlog]. split; [done|].
    intros q Hq. rewrite Hlog. unfold upd. case_decide; [done|by apply Hag].
  - pose proof (unpin_spec pid dirty s HI Hh) as H. destruct (unpin_page pid dirty s) as [ok s1].
    destruct H as (HI' & Hlog & _). split; [done|]. intros q Hq. rewrite Hlog. by apply Hag.
  - unfold flush_page. destruct (page_table_ s !! pid) as [f|] eqn:Ht; [|done].
    destruct (pi_table _ _ HI pid f Ht) as (_ & _ & mf & Hm & _).
    pose proof (save_spec pid f mf s HI Ht Hm) as H.
    destruct (write_page 4096 pid (pages_ s !!! f) (disk_manager_ s)) as [ok dk].
    destruct H as (-> & HI' & Hlog & _). cbn [negb snd set_disk frames_].
    rewrite (list_lookup_total_correct _ _ _ Hm). split; [exact HI'|]. intros q Hq. rewrite Hlog by done. by apply Hag.
  - destruct (flush_all_spec pids s HI) as (s1 & -> & HI' & Hlog & _). cbn [snd]. split; [done|].
    intros q Hq. rewrite Hlog by done. by apply Hag.
Qed.

Lemma pool_reachable n dk r s m :
  disk_ok dk -> rinv r -> rep_flags r = ∅ -> Z.of_nat n <= 2 ^ 32 ->
  rtc step (BufferPoolManager n dk r, image dk) (s, m) -> pool_inv None s /\ agree s m.
Proof.
  intros Hdk Hr Hf Hn Hst.
  cut (forall x y, rtc step x y -> pool_inv None x.1 /\ agree x.1 x.2 -> pool_inv None y.1 /\ agree y.1 y.2).
  { intros H. apply (H _ _ Hst). split; [by apply pool_init|]. intros q Hq. unfold logical. cbn. done. }
  induction 1 as [|[s1 m1] [s2 m2] z H12 _ IH]; [done|]. intros [HI Hag]. apply IH. cbn in *.
  by eapply step_inv_agree.
Qed.

Lemma find_available_same order s o s' :
  find_available_frame order s = (o, s') ->
  page_table_ s' = page_table_ s /\ frames_ s' = frames_ s /\ pages_ s' = pages_ s.
Proof.
  unfold find_available_frame. destruct (free_list_ s); [|by intros; simplify_eq].
  destruct (rep_victim order (replacer_ s)). by intros; simplify_eq.
Qed.

Lemma fetch_stays pid order s f s' q g :
  pool_inv None s -> order_ok order s -> fetch_page pid order 4096 s = (Frame pid f, s') ->
  pinned q g s -> q <> pid -> stays q g s s'.
Proof.
  intros HI Ho. unfold fetch_page. destruct (page_table_ s !! pid) as [f'|] eqn:Ht.
  - destruct (_ =? _); [done|]. intros [= -> <-] (Hq & _) Hne. destruct (pi_table _ _ HI q g Hq) as (_ & _ & mq & Hmq & Hpq).
    destruct (pi_table _ _ HI pid f Ht) as (_ & _ & mp & Hmp & Hpp).
    assert (f <> g) by (intros ->; congruence). unfold stays. cbn. by rewrite list_lookup_insert_ne.
  - pose proof (find_available_spec order s HI Ho) as Hf. destruct (find_available_frame order s) as [[f'|] s1] eqn:He; [|done].
    destruct Hf as (HI1 & _). destruct (find_available_same _ _ _ _ He) as (Hpt & Hfr & Hpg).
    destruct (evict 4096 f' s1) as [[] s2] eqn:Hev; [|done]. intros [= -> <-] Hp Hne. unfold stays.
    assert (pinned q g s1) as Hp1 by (unfold pinned; by rewrite Hpt, Hfr).
    rewrite <- Hfr, <- Hpg. apply load_pinned; [done|done|by rewrite Hpt|done].
Qed.
End pool.

(** ** The pool with the LRU-K replacer *)

Section lruk_pool.
Context (k : nat) (Hk : (0 < k)%nat).

#[local] Existing Instance LruK.lruk_replacer.

(** A new pool on an existing file. *)
Definition open_pool (n : nat) (dk : Disk.t) : t (R := LruK.t) := BufferPoolManager n dk LruK.LRUKReplacer.

Definition pool_step := step (RP := LruK.lruk_replacer k).

Lemma lruk_pool_reachable n dk s m :
  disk_ok dk -> Z.of_nat n <= 2 ^ 32 -> rtc pool_step (open_pool n dk, image dk) (s, m) ->
  pool_inv (RP := LruK.lruk_replacer k) None s /\ agree s m.
Proof. intros Hdk Hn. apply pool_reachable; [done|by apply LruK.inv_empty|done|done]. Qed.
End lruk_pool.

(** ** The properties *)

(** C3. The buffer pool is a transparent cache, for clients that are honest:
    who releases the last pin of a page without the dirty flag has left it as
    it is on disk.  Take any history of page creations, fetches of allocated
    pages, writes through pins, honest unpins and flushes in which every
    [pwrite] transfers the whole page and the replacer's clock does not run
    over.  Then every page has the content last written to it, and fetching
    an allocated page returns a pinned frame that holds exactly that content
    and moves no page that somebody has pinned; it fails only when every
    frame is pinned, and is undefined only when the page has 2^31 - 1 pins. *)
Theorem pool_transparent k n dk s m pid order :
  (0 < k)%nat -> disk_ok dk -> Z.of_nat n <= 2 ^ 32 ->
  rtc (pool_step k) (open_pool n dk, image dk) (s, m) ->
  clock_ok (RP := LruK.lruk_replacer k) s -> order_ok (RP := LruK.lruk_replacer k) order s ->
  valid_id pid -> pid < next_page_id_ (disk_manager_ s) ->
  (forall q, valid_id q -> logical s q = m q) /\
  match fetch_page (RP := LruK.lruk_replacer k) pid order 4096 s with
  | (Threw, _) => False
  | (Null, s') => s' = s /\ all_pinned s
  | (Overflow, _) => exhausted pid s
  | (Frame pid' f, s') => pid' = pid /\ pages_ s' !! f = Some (m pid) /\ pinned pid f s' /\
      (forall q g, pinned q g s -> q <> pid -> stays q g s s')
  end.
Proof.
  intros Hk Hdk Hn Hst Hc Ho Hv Hlt. destruct (lruk_pool_reachable k Hk n dk s m Hdk Hn Hst) as [HI Hag].
  split; [done|]. pose proof (fetch_page_spec pid order s HI Hc Ho Hv Hlt) as Hf.
  pose proof (fetch_stays (RP := LruK.lruk_replacer k) pid order s) as Hstay.
  destruct (fetch_page pid order 4096 s) as [[| |pid' f|] s']; [done|done| |done].
  destruct Hf as (-> & _ & _ & _ & Hpg & Hp). split_and!; [done|by rewrite Hpg, Hag|done|].
  intros q g Hq Hne. by eapply Hstay.
Qed.

(** [flush_all_pages] makes every page durable: when no page is pinned and
    the loop has visited the page table, the file alone holds the content
    clients expect of every page, so a pool opened on it serves the same
    content. *)
Theorem pool_flush_durable k n dk s m pids n' :
  (0 < k)%nat -> disk_ok dk -> Z.of_nat n <= 2 ^ 32 ->
  rtc (pool_step k) (open_pool n dk, image dk) (s, m) ->
  (forall f mf, frames_ s !! f = Some mf -> page_id mf <> INVALID_PAGE_ID -> pin_count mf = 0) ->
  (forall q f, page_table_ s !! q = Some f -> q ∈ pids) ->
  let '(ok, s') := flush_all_pages pids (fun _ => 4096) s in
  ok = true /\ forall q, valid_id q ->
    logical (open_pool n' (Disk.DiskManager (file (disk_manager_ s')))) q = m q.
Proof.
  intros Hk Hdk Hn Hst Hpin Hall. destruct (lruk_pool_reachable k Hk n dk s m Hdk Hn Hst) as [HI Hag].
  destruct (flush_all_spec pids s HI) as (s' & -> & HI' & Hlog & (Ht & _ & Hcl) & Hd).
  split; [done|]. intros q Hq. rewrite <- Hag, <- Hlog by done.
  unfold logical at 1. cbn. rewrite lookup_empty.
  rewrite (image_file _ (disk_manager_ s')) by done. unfold logical.
  destruct (page_table_ s' !! q) as [f|] eqn:Hqf; [|done].
  destruct (pi_table _ _ HI' q f Hqf) as (_ & _ & mf & Hm & Hp). pose proof (valid_not_invalid _ Hq) as Hinv.
  destruct (Hcl f mf Hm) as (m0 & Hm0 & Hid & Hpc & _). rewrite Ht in Hqf.
  assert (pages_ s' !! f = Some (image (disk_manager_ s') (page_id mf))) as Hc.
  { apply (pi_clean _ _ HI' f mf Hm); [congruence| |].
    - rewrite Hpc. apply (Hpin f); [done|congruence].
    - apply (Hd q f mf); [by eapply Hall|done|done]. }
  by rewrite (list_lookup_total_correct _ _ _ Hc), Hp.
Qed.

(** ** Two observations *)

(** The page counter restarts at zero when a file is opened again: the first
    new page gets id 0 and hides whatever page 0 of the file held. *)
Lemma pool_reopen_reuses_ids k n content :
  (0 < k)%nat -> (0 < n)%nat -> Z.of_nat n <= 2 ^ 32 -> disk_ok (Disk.DiskManager content) ->
  exists f s', new_page (RP := LruK.lruk_replacer k) [] 4096 (open_pool n (Disk.DiskManager content)) = (Frame 0 f, s') /\
    logical s' 0 = Page.init 0.
Proof.
  intros Hk Hn0 Hn Hdk. set (s := open_pool n (Disk.DiskManager content)).
  assert (pool_inv (RP := LruK.lruk_replacer k) None s) as HI.
  { apply pool_init; [done|by apply LruK.inv_empty|done|done]. }
  assert (clock_ok (RP := LruK.lruk_replacer k) s) as Hc.
  { intros f Hf. unfold s, open_pool, BufferPoolManager in Hf. cbn [frames_] in Hf. rewrite length_replicate in Hf.
    split; [lia|done]. }
  pose proof (new_page_spec (RP := LruK.lruk_replacer k) [] s HI Hc ltac:(constructor) ltac:(unfold valid_id; cbn; lia)) as Hs.
  destruct (new_page [] 4096 s) as [[| |pid f|] s']; [done| | |done].
  - destruct Hs as [_ Hall]. destruct (Hall 0%nat no_page) as [? _]; [|done]. by apply lookup_replicate_2.
  - destruct Hs as (-> & _ & _ & Hlog & _). exists f, s'. split; [done|].
    rewrite Hlog by (unfold valid_id; cbn; lia). by rewrite decide_True.
Qed.

(** [new_page] leaves the frame clean although the file does not hold the
    initialised page: when its creator unpins it without the dirty flag, an
    eviction loses the header, and the page comes back with [page_id] 0. *)
Definition ex_lost : list Z :=
  let RP := LruK.lruk_replacer 2 in
  let s := (new_page [] 4096 (open_pool 1 (Disk.DiskManager []))).2 in
  let s := (unpin_page 0 true s).2 in
  let s := (new_page [0] 4096 s).2 in
  let s := (unpin_page 1 false s).2 in
  let s := (new_page [0] 4096 s).2 in
  let s := (unpin_page 2 false s).2 in
  let s := (fetch_page 1 [0] 4096 s).2 in
  pages_ s !!! 0%nat.

Lemma pool_fresh_page_lost : Page.page_id (Page.init 1) = 1 /\ Page.page_id ex_lost = 0.
Proof. split; vm_compute; reflexivity. Qed.

(** ** Witnesses: a pool of one frame, page 0 written, evicted and fetched *)

Section examples.
#[local] Existing Instance LruK.lruk_replacer.
Definition ex_k : Replacer LruK.t (LruK.Inv 2) := LruK.lruk_replacer 2.
Definition ex_bytes : list Z := 7 :: replicate (Z.to_nat 4095) 0.
Definition ex_s0 : t (R := LruK.t) := open_pool 1 (Disk.DiskManager []).
Definition ex_s1 := (new_page (RP := ex_k) [] 4096 ex_s0).2.
Definition ex_s2 := set_page 0 ex_bytes ex_s1.
Definition ex_s3 := (unpin_page (RP := ex_k) 0 true ex_s2).2.
Definition ex_s4 := (new_page (RP := ex_k) [0] 4096 ex_s3).2.
Definition ex_s5 := (unpin_page (RP := ex_k) 1 true ex_s4).2.
Definition ex_store : store := upd 1 (Page.init 1) (upd 0 ex_bytes (upd 0 (Page.init 0) (image (Disk.DiskManager [])))).

Lemma ex_clock s : LruK.current_timestamp_ (replacer_ s) + 1 < 2 ^ 64 ->
  (length (frames_ s) <= 1)%nat -> clock_ok (RP := ex_k) s.
Proof. intros Ht Hl f Hf. split; [lia|done]. Qed.

Lemma ex_pool_steps : rtc (pool_step 2) (ex_s0, image (Disk.DiskManager [])) (ex_s5, ex_store).
Proof.
  eapply rtc_l; [eapply (st_new (RP := ex_k) [] ex_s0 _ 0 0 ex_s1); 
    [apply ex_clock; [reflexivity|vm_compute; lia]|constructor|unfold valid_id; cbn; lia|vm_compute; reflexivity]|].
  eapply rtc_l; [eapply (st_write (RP := ex_k) 0 0 ex_bytes ex_s1); [|vm_compute; reflexivity]|].
  { split; [vm_compute; reflexivity|]. eexists. split; [vm_compute; reflexivity|done]. }
  eapply rtc_l; [eapply (st_unpin (RP := ex_k) 0 true ex_s2)|].
  { intros f m _ _ _ Hd. by rewrite orb_true_r in Hd. }
  eapply rtc_l; [eapply (st_new (RP := ex_k) [0] ex_s3 _ 1 0 ex_s4); 
    [apply ex_clock; [reflexivity|vm_compute; lia]|vm_compute; reflexivity|split; vm_compute; done|vm_compute; reflexivity]|].
  eapply rtc_once, (st_unpin (RP := ex_k) 1 true ex_s4).
  intros f m _ _ _ Hd. by rewrite orb_true_r in Hd.
Qed.

Lemma ex_disk_ok : disk_ok (Disk.DiskManager []).
Proof. by exists 0%nat. Qed.

Lemma pool_transparent_witness :
  let '(r, s') := fetch_page (RP := ex_k) 0 [0] 4096 ex_s5 in
  r = Frame 0 0 /\ pages_ s' !! 0%nat = Some ex_bytes.
Proof.
  assert ((fetch_page (RP := ex_k) 0 [0] 4096 ex_s5).1 = Frame 0 0) as Hr by (vm_compute; reflexivity).
  pose proof (pool_transparent 2 1 (Disk.DiskManager []) ex_s5 ex_store 0 [0] ltac:(lia) ex_disk_ok ltac:(lia)
    ex_pool_steps ltac:(apply ex_clock; [reflexivity|vm_compute; lia]) ltac:(vm_compute; reflexivity)
    ltac:(unfold valid_id; lia) ltac:(vm_compute; reflexivity)) as [_ H].
  change (LruK.lruk_replacer 2) with ex_k in H.
  destruct (fetch_page (RP := ex_k) 0 [0] 4096 ex_s5) as [r s']. cbn [fst] in Hr. subst r.
  destruct H as (_ & -> & _). split; reflexivity.
Defined.

Lemma pool_flush_durable_witness :
  logical (open_pool 3 (Disk.DiskManager (file (disk_manager_ (flush_all_pages [1] (fun _ => 4096) ex_s5).2)))) 0
  = ex_bytes.
Proof.
  pose proof (pool_flush_durable 2 1 (Disk.DiskManager []) ex_s5 ex_store [1] 3 ltac:(lia) ex_disk_ok ltac:(lia)
    ex_pool_steps) as H.
  destruct (flush_all_pages [1] (fun _ => 4096) ex_s5) as [ok s']. cbn [snd].
  destruct H as [_ H].
  - intros f mf Hf. assert (frames_ ex_s5 = [mk_meta 1 0 true]) as Hfr by (vm_compute; reflexivity).
    rewrite Hfr in Hf. clear Hfr. destruct f as [|f]; [|discriminate Hf]. injection Hf as <-. reflexivity.
  - intros q f Hq. assert (page_table_ ex_s5 = {[1 := 0%nat]}) as Ht by (vm_compute; reflexivity).
    rewrite Ht in Hq. apply lookup_singleton_Some in Hq as [<- _]. left.
  - rewrite H by (unfold valid_id; lia). reflexivity.
Defined.
End examples.
End Pool.
