(* ===== verification/BTree.v ===== *)
(** * The B+ tree with latch crabbing

    Model of [ConcurrentBTree] (08-database-indexing,
    latch_crabbing_btree.hpp).  Nodes live in a heap, threads run [search] and
    [insert] one latch operation or node access at a time, and a latch is
    granted when no other thread holds it in a conflicting mode.  The theorems:
    every interleaving is linearizable to a finite map, and no interleaving
    deadlocks or runs forever. *)

From S2P Require Import Prelude.

#[local] Open Scope Z_scope.

Module BTree.

(** ** Nodes *)

(** Addresses are positions in the heap. *)
Inductive Node :=
  | LeafNode (keys values : list Z) (next : option nat)
  | InternalNode (keys : list Z) (children : list nat).

Definition is_leaf (n : Node) : bool := match n with LeafNode _ _ _ => true | _ => false end.

Definition keys (n : Node) : list Z := match n with LeafNode ks _ _ => ks | InternalNode ks _ => ks end.

Definition is_safe_for_insert (MaxKeys : nat) (n : Node) : bool := (length (keys n) <? MaxKeys)%nat.

Record data := mk { heap : list Node; root_ : nat }.

Definition ConcurrentBTree : data := mk [LeafNode [] [] None] 0.

(** The child to descend to: the number of leading keys not above [key]. *)
Fixpoint child_idx (key : Z) (ks : list Z) : nat :=
  match ks with
  | [] => 0
  | k :: ks => if k <=? key then S (child_idx key ks) else 0
  end.

(** The outer option is a read outside of [values]. *)
Definition search_leaf (key : Z) (ks vs : list Z) : option (option Z) :=
  let idx := lower_bound key ks in
  if bool_decide (ks !! idx = Some key) then Some <$> vs !! idx else Some None.

Definition insert_at {A} (i : nat) (x : A) (l : list A) : list A := take i l ++ x :: drop i l.

Definition insert_into_leaf (key val : Z) (ks vs : list Z) : list Z * list Z :=
  let idx := lower_bound key ks in
  if bool_decide (ks !! idx = Some key) then (ks, <[idx := val]> vs)
  else (insert_at idx key ks, insert_at idx val vs).

(** The split of a root leaf at address [l]; new nodes are appended. *)
Definition split_root_leaf (l : nat) (ks vs : list Z) (next : option nat) (d : data) : option data :=
  let mid := (length ks / 2)%nat in
  let new_root := length (heap d) in
  let new_leaf := S new_root in
  split_key ← ks !! mid;
  Some (mk (<[l := LeafNode (take mid ks) (take mid vs) (Some new_leaf)]> (heap d) ++
            [InternalNode [split_key] [root_ d; new_leaf]; LeafNode (drop mid ks) (drop mid vs) next])
           new_root).

(** ** Latches and program points *)

Inductive latch := RootLatch | NodeLatch (l : nat).
Inductive mode := Shared | Exclusive.

#[global] Instance latch_eq_dec : EqDecision latch.
Proof. solve_decision. Defined.
#[global] Instance mode_eq_dec : EqDecision mode.
Proof. solve_decision. Defined.

Inductive pc :=
  (* search *)
  | Sstart (key : Z)
  | Sroot (key : Z)
  | Sfirst (key : Z) (curr : nat)
  | Sloop (key : Z) (curr : nat)
  | Schild (key : Z) (curr child : nat)
  | Sleave (curr : nat) (result : option Z)
  | Sdone (result : option Z)
  (* insert, root is a leaf *)
  | Istart (key val : Z)
  | Iroot (key val : Z)
  | Ileaf (key val : Z) (leaf : nat)
  | Isplit (leaf : nat)
  | Iunlock_leaf (leaf : nat)
  | Iunlock_root
  (* insert, root is internal *)
  | Ifirst (key val : Z) (curr : nat)
  | Iloop (key val : Z) (curr : nat) (locked_ancestors : list nat) (owns_root : bool)
  | Ichild (key val : Z) (child : nat) (locked_ancestors : list nat) (owns_root : bool)
  | Irelease (key val : Z) (child : nat) (todo : list nat) (owns_root : bool)
  | Iend (todo : list nat) (owns_root : bool)
  | Idone.

Definition xs (l : list nat) : list (latch * mode) := (fun n => (NodeLatch n, Exclusive)) <$> l.
Definition rootx (owns : bool) : list (latch * mode) := if owns then [(RootLatch, Exclusive)] else [].

(** The latches a thread holds at each program point. *)
Definition holds (p : pc) : list (latch * mode) :=
  match p with
  | Sstart _ | Sdone _ | Istart _ _ | Idone => []
  | Sroot _ => [(RootLatch, Shared)]
  | Sfirst _ c => [(RootLatch, Shared); (NodeLatch c, Shared)]
  | Sloop _ c | Sleave c _ => [(NodeLatch c, Shared)]
  | Schild _ c ch => [(NodeLatch c, Shared); (NodeLatch ch, Shared)]
  | Iroot _ _ | Iunlock_root => [(RootLatch, Exclusive)]
  | Ileaf _ _ l | Isplit l | Iunlock_leaf l | Ifirst _ _ l => [(RootLatch, Exclusive); (NodeLatch l, Exclusive)]
  | Iloop _ _ _ anc o | Iend anc o => rootx o ++ xs anc
  | Ichild _ _ ch anc o | Irelease _ _ ch anc o => rootx o ++ xs anc ++ xs [ch]
  end.

(** What a step makes visible: the result of a lookup, or an update. *)
Inductive event := Found (key : Z) (result : option Z) | Inserted (key val : Z).

(** One step of a thread: the latch it has to be granted, the new data and
    program point, the event.  [None] is an access that is not defined, or a
    finished thread. *)
Definition outcome : Type := option (latch * mode) * data * pc * option event.

Definition local (d : data) (p : pc) : option outcome := Some (None, d, p, None).

Definition acquire (d : data) (l : latch) (m : mode) (p : pc) : option outcome := Some (Some (l, m), d, p, None).

Section tree.
Context (MaxKeys : nat).

Definition search_step (d : data) (p : pc) : option outcome :=
  match p with
  | Sstart key => acquire d RootLatch Shared (Sroot key)
  | Sroot key => acquire d (NodeLatch (root_ d)) Shared (Sfirst key (root_ d))
  | Sfirst key curr => local d (Sloop key curr)
  | Sloop key curr =>
      n ← heap d !! curr;
      match n with
      | InternalNode ks ch => child ← ch !! child_idx key ks; acquire d (NodeLatch child) Shared (Schild key curr child)
      | LeafNode ks vs _ => r ← search_leaf key ks vs; Some (None, d, Sleave curr r, Some (Found key r))
      end
  | Schild key curr child => local d (Sloop key child)
  | Sleave curr r => local d (Sdone r)
  | _ => None
  end.

Definition insert_step (d : data) (p : pc) : option outcome :=
  match p with
  | Istart key val => acquire d RootLatch Exclusive (Iroot key val)
  | Iroot key val =>
      n ← heap d !! root_ d;
      acquire d (NodeLatch (root_ d)) Exclusive
        (if is_leaf n then Ileaf key val (root_ d) else Ifirst key val (root_ d))
  | Ileaf key val l =>
      n ← heap d !! l;
      match n with
      | LeafNode ks vs nx =>
          let '(ks, vs) := insert_into_leaf key val ks vs in
          Some (None, mk (<[l := LeafNode ks vs nx]> (heap d)) (root_ d), Isplit l, Some (Inserted key val))
      | _ => None
      end
  | Isplit l =>
      n ← heap d !! l;
      match n with
      | LeafNode ks vs nx =>
          if (MaxKeys <? length ks)%nat
          then d ← split_root_leaf l ks vs nx d; local d (Iunlock_leaf l)
          else local d (Iunlock_leaf l)
      | _ => None
      end
  | Iunlock_leaf l => local d Iunlock_root
  | Iunlock_root => local d Idone
  | Ifirst key val curr =>
      n ← heap d !! curr;
      local d (Iloop key val curr [curr] (negb (is_safe_for_insert MaxKeys n)))
  | Iloop key val curr anc o =>
      n ← heap d !! curr;
      match n with
      | InternalNode ks ch =>
          child ← ch !! child_idx key ks; acquire d (NodeLatch child) Exclusive (Ichild key val child anc o)
      | LeafNode ks vs nx =>
          let '(ks, vs) := insert_into_leaf key val ks vs in
          Some (None, mk (<[curr := LeafNode ks vs nx]> (heap d)) (root_ d), Iend anc o, Some (Inserted key val))
      end
  | Ichild key val child anc o =>
      n ← heap d !! child;
      local d (if is_safe_for_insert MaxKeys n then Irelease key val child anc o
               else Iloop key val child (anc ++ [child]) o)
  | Irelease key val child (_ :: todo) o => local d (Irelease key val child todo o)
  | Irelease key val child [] true => local d (Irelease key val child [] false)
  | Irelease key val child [] false => local d (Iloop key val child [child] false)
  | Iend (_ :: todo) o => local d (Iend todo o)
  | Iend [] _ => local d Idone
  | _ => None
  end.

Definition advance (d : data) (p : pc) : option outcome :=
  match search_step d p with Some r => Some r | None => insert_step d p end.

(** ** Interleavings *)

Definition compatible (m m' : mode) : bool := bool_decide (m = Shared /\ m' = Shared).

(** [std::shared_mutex]: granted when no other thread is in conflict. *)
Definition free_for (l : latch) (m : mode) (q : pc) : bool :=
  forallb (fun lm : latch * mode => negb (bool_decide (lm.1 = l)) || compatible m lm.2) (holds q).

Definition granted (want : option (latch * mode)) (others : list pc) : bool :=
  match want with Some (l, m) => forallb (free_for l m) others | None => true end.

Definition cfg : Type := data * list pc.

Definition step_thread (i : nat) (c : cfg) : option (cfg * option event) :=
  p ← c.2 !! i;
  '(want, d, p', e) ← advance c.1 p;
  if granted want (delete i c.2) then Some ((d, <[i := p']> c.2), e) else None.

Definition step (c c' : cfg) : Prop := exists i e, step_thread i c = Some (c', e).

(** A schedule: thread identifiers in execution order; the events so far are
    accumulated. *)
Fixpoint run (sched : list nat) (evs : list (nat * event)) (c : cfg) : option (list (nat * event) * cfg) :=
  match sched with
  | [] => Some (evs, c)
  | i :: sched => '(c, e) ← step_thread i c; run sched (evs ++ option_list ((i,.) <$> e)) c
  end.

(** ** The abstract map *)

Definition leaf_map (ks vs : list Z) : gmap Z Z := list_to_map (zip ks vs).

Definition contents (d : data) : gmap Z Z :=
  foldr (fun n m => match n with LeafNode ks vs _ => leaf_map ks vs ∪ m | _ => m end) ∅ (heap d).

Definition fresh (p : pc) : Prop :=
  match p with Sstart _ | Istart _ _ => True | _ => False end.

Definition finished (p : pc) : Prop :=
  match p with Sdone _ | Idone => True | _ => False end.
End tree.

(** ** Leaves *)

Definition leaf_ok (ks vs : list Z) : Prop := StronglySorted Z.lt ks /\ length ks = length vs.

Lemma leaf_map_None ks vs k : k ∉ ks -> leaf_map ks vs !! k = None.
Proof.
  intros Hk. apply not_elem_of_list_to_map_1. intros ([? v] & -> & Hin)%list_elem_of_fmap.
  apply elem_of_zip_l in Hin. done.
Qed.

Lemma leaf_map_cons k v ks vs : leaf_map (k :: ks) (v :: vs) = <[k := v]> (leaf_map ks vs).
Proof. done. Qed.

Lemma sorted_not_in k ks : Forall (Z.lt k) ks -> k ∉ ks.
Proof. rewrite Forall_forall. intros H Hin. specialize (H k Hin). lia. Qed.

(** Below the head nothing is found. *)
Lemma leaf_map_below k ks vs key :
  StronglySorted Z.lt (k :: ks) -> key < k -> leaf_map (k :: ks) vs !! key = None.
Proof.
  intros [_ Hf]%StronglySorted_inv Hlt. apply leaf_map_None. rewrite elem_of_cons. intros [->|Hin]; [lia|].
  rewrite Forall_forall in Hf. specialize (Hf key Hin). lia.
Qed.

Lemma search_leaf_spec key ks vs : leaf_ok ks vs -> search_leaf key ks vs = Some (leaf_map ks vs !! key).
Proof.
  unfold search_leaf. revert vs. induction ks as [|k ks IH]; intros vs [Hs Hl]; [done|].
  destruct vs as [|v vs]; [done|]. cbn [lower_bound]. rewrite leaf_map_cons.
  pose proof (StronglySorted_inv Hs) as [Hs' Hf].
  destruct (k <? key) eqn:Hlt; rewrite ?Z.ltb_lt, ?Z.ltb_ge in Hlt.
  - cbn [lookup list_lookup]. rewrite lookup_insert_ne by lia. apply IH. split; [done|]. by injection Hl.
  - cbn [lookup list_lookup]. destruct (decide (k = key)) as [->|Hne].
    + rewrite bool_decide_true by done. cbn. by rewrite lookup_insert_eq.
    + rewrite bool_decide_false by congruence. f_equal. symmetry.
      rewrite <- leaf_map_cons. apply leaf_map_below; [done|lia].
Qed.

Lemma insert_into_leaf_cons_lt key val k v ks vs :
  k < key ->
  insert_into_leaf key val (k :: ks) (v :: vs) =
    let '(ks', vs') := insert_into_leaf key val ks vs in (k :: ks', v :: vs').
Proof.
  intros Hlt. unfold insert_into_leaf. cbn [lower_bound]. rewrite (proj2 (Z.ltb_lt _ _) Hlt).
  cbn [lookup list_lookup]. 
  by destruct (bool_decide _).
Qed.

Lemma insert_into_leaf_spec key val ks vs :
  leaf_ok ks vs ->
  let '(ks', vs') := insert_into_leaf key val ks vs in
  leaf_ok ks' vs' /\ leaf_map ks' vs' = <[key := val]> (leaf_map ks vs) /\ (forall k, k ∈ ks' -> k = key \/ k ∈ ks).
Proof.
  revert vs. induction ks as [|k ks IH]; intros vs [Hs Hl].
  { destruct vs; [|done]. cbn. split_and!; [|done|intros x [->|Hx]%elem_of_cons; tauto]. split; [|done]. repeat constructor. }
  destruct vs as [|v vs]; [done|]. pose proof (StronglySorted_inv Hs) as [Hs' Hf].
  destruct (decide (k < key)) as [Hlt|Hge].
  - rewrite insert_into_leaf_cons_lt by done. specialize (IH vs ltac:(split; [done|by injection Hl])).
    destruct (insert_into_leaf key val ks vs) as [ks' vs']. destruct IH as ([Hs2 Hl2] & Hm & Hin).
    split_and!.
    + split; [|cbn; by f_equal]. constructor; [done|]. rewrite Forall_forall in *. intros x [->|Hx]%Hin; [done|by apply Hf].
    + rewrite !leaf_map_cons, Hm. apply insert_insert_ne. lia.
    + intros x. rewrite !elem_of_cons. intros [->|Hx%Hin]; tauto.
  - unfold insert_into_leaf. cbn [lower_bound]. rewrite (proj2 (Z.ltb_ge _ _)) by lia.
    cbn [lookup list_lookup]. destruct (decide (k = key)) as [->|Hne].
    + rewrite bool_decide_true by done. split_and!; [by split| |tauto].
      cbn [insert list_insert]. rewrite !leaf_map_cons. by rewrite insert_insert_eq.
    + rewrite bool_decide_false by congruence. unfold insert_at. cbn [take drop app].
      split_and!; [|done|intros x [->|Hx]%elem_of_cons; tauto]. split; [|cbn; by f_equal]. constructor; [done|]. constructor; [lia|].
      eapply Forall_impl; [done|]. cbn. lia.
Qed.

Lemma leaf_ok_take n ks vs : leaf_ok ks vs -> leaf_ok (take n ks) (take n vs).
Proof.
  intros [Hs Hl]. split; [|rewrite !length_take; lia]. rewrite <- (take_drop n ks) in Hs.
  by apply StronglySorted_app_1_l in Hs.
Qed.

Lemma leaf_ok_drop n ks vs : leaf_ok ks vs -> leaf_ok (drop n ks) (drop n vs).
Proof.
  intros [Hs Hl]. split; [|rewrite !length_drop; lia]. rewrite <- (take_drop n ks) in Hs.
  by apply StronglySorted_app_1_r in Hs.
Qed.

(** Splitting at position [n] separates the keys by the key there. *)
Lemma sorted_split n ks sk :
  StronglySorted Z.lt ks -> ks !! n = Some sk ->
  Forall (fun k => k < sk) (take n ks) /\ Forall (fun k => sk <= k) (drop n ks).
Proof.
  intros Hs Hn. rewrite <- (take_drop_middle ks n sk Hn) in Hs |- *.
  assert (length (take n ks) = n) as Hlen by (apply length_take_le; apply lookup_lt_Some in Hn; lia).
  split.
  - rewrite take_app_le, take_ge by lia. apply Forall_forall. intros k Hk.
    eapply StronglySorted_app_1_elem_of; [done..|]. apply elem_of_cons. by left.
  - rewrite drop_app_ge by lia. rewrite Hlen, Nat.sub_diag. cbn [drop].
    apply StronglySorted_app_1_r in Hs. apply StronglySorted_inv in Hs as [_ Hf]. constructor; [lia|].
    eapply Forall_impl; [done|]. cbn. lia.
Qed.

Lemma leaf_map_split n ks vs :
  leaf_ok ks vs -> leaf_map (take n ks) (take n vs) ∪ leaf_map (drop n ks) (drop n vs) = leaf_map ks vs.
Proof.
  intros [Hs Hl]. unfold leaf_map. rewrite <- list_to_map_app. f_equal.
  rewrite <- zip_with_app by (rewrite !length_take; lia). by rewrite !take_drop.
Qed.

(** ** The invariant *)

Section proofs.
Context (MaxKeys : nat).

(** A single leaf, or two leaves under a root with one key. *)
Inductive data_ok : data -> Prop :=
  | ok_leaf ks vs : leaf_ok ks vs -> data_ok (mk [LeafNode ks vs None] 0)
  | ok_split k0 v0 k1 v1 sk :
      leaf_ok k0 v0 -> leaf_ok k1 v1 ->
      Forall (fun k => k < sk) k0 -> Forall (fun k => sk <= k) k1 ->
      data_ok (mk [LeafNode k0 v0 (Some 2%nat); InternalNode [sk] [0%nat; 2%nat]; LeafNode k1 v1 None] 1).

(** [ch] is where the search for [k] goes from an internal root. *)
Definition child_of (d : data) (k : Z) (ch : nat) : Prop :=
  exists ks cs, heap d !! root_ d = Some (InternalNode ks cs) /\ cs !! child_idx k ks = Some ch.

Definition internal (d : data) : Prop := exists ks cs, heap d !! root_ d = Some (InternalNode ks cs).

Definition leaf_root (d : data) : Prop := exists ks vs nx, heap d !! root_ d = Some (LeafNode ks vs nx).

Definition pc_ok (d : data) (p : pc) : Prop :=
  match p with
  | Sfirst _ c => c = root_ d
  | Sloop k c => c = root_ d \/ child_of d k c
  | Schild k _ ch => child_of d k ch
  | Ileaf _ _ l | Isplit l => l = root_ d /\ leaf_root d
  | Ifirst _ _ c => c = root_ d /\ internal d
  | Iloop k _ c anc _ => c ∈ anc /\ internal d /\ (c = root_ d /\ anc = [c] \/ child_of d k c)
  | Ichild k _ ch _ _ => child_of d k ch
  | Irelease k _ ch _ _ => child_of d k ch
  | _ => True
  end.

(** Threads that hold the same latch hold it shared. *)
Definition exclusion (ps : list pc) : Prop :=
  forall i j p q l m m', ps !! i = Some p -> ps !! j = Some q -> i <> j ->
    (l, m) ∈ holds p -> (l, m') ∈ holds q -> m = Shared /\ m' = Shared.

Record inv (c : cfg) : Prop := {
  inv_data : data_ok c.1;
  inv_pcs : forall i p, c.2 !! i = Some p -> pc_ok c.1 p;
  inv_excl : exclusion c.2;
}.

(** The outcomes of one step of a thread. *)
Ltac step_cases H :=
  unfold advance, search_step, insert_step, local, acquire in H; cbv beta iota in H;
  repeat (first [progress simplify_eq | progress simplify_option_eq | case_match]).

(** ** What a step does to the latches *)

Lemma advance_holds d p want d' p' e l m :
  advance MaxKeys d p = Some (want, d', p', e) -> (l, m) ∈ holds p' -> (l, m) ∈ holds p \/ want = Some (l, m).
Proof.
  intros Ha Hin. destruct p; step_cases Ha; cbn [holds] in *; unfold xs, rootx in *; rewrite ?fmap_app in *;
    cbn [fmap list_fmap app] in *; repeat case_match;
    repeat (rewrite elem_of_app in * || rewrite elem_of_cons in * || rewrite elem_of_nil in * ); naive_solver.
Qed.

Lemma free_for_spec l m q : free_for l m q = true -> forall m', (l, m') ∈ holds q -> m = Shared /\ m' = Shared.
Proof.
  unfold free_for. rewrite forallb_forall. intros Hf m' Hin.
  specialize (Hf (l, m') ltac:(by apply list_elem_of_In)). cbn in Hf.
  rewrite bool_decide_true in Hf by done. by apply bool_decide_eq_true in Hf.
Qed.

Lemma granted_spec want i ps l m :
  granted want (delete i ps) = true -> want = Some (l, m) ->
  forall j q m', ps !! j = Some q -> j <> i -> (l, m') ∈ holds q -> m = Shared /\ m' = Shared.
Proof.
  intros Hg -> j q m' Hj Hne. cbn in Hg. rewrite forallb_forall in Hg. apply free_for_spec, Hg, list_elem_of_In.
  apply list_elem_of_lookup. destruct (decide (j < i)%nat).
  - exists j. by rewrite list_lookup_delete_lt by lia.
  - exists (pred j). rewrite list_lookup_delete_ge by lia. by replace (S (pred j)) with j by lia.
Qed.

Lemma step_exclusion i ps p want d d' p' e :
  exclusion ps -> ps !! i = Some p -> advance MaxKeys d p = Some (want, d', p', e) ->
  granted want (delete i ps) = true -> exclusion (<[i := p']> ps).
Proof.
  intros He Hi Ha Hg.
  assert (forall j q l m m', ps !! j = Some q -> j <> i -> (l, m) ∈ holds p' -> (l, m') ∈ holds q -> m = Shared /\ m' = Shared) as Hnew.
  { intros j q l m m' Hj Hne Hin Hin'. destruct (advance_holds _ _ _ _ _ _ _ _ Ha Hin) as [Hold| ->].
    - by eapply (He i j).
    - by eapply granted_spec. }
  intros a b pa pb l m m' Hpa Hpb Hab Hin Hin'.
  apply list_lookup_insert_Some in Hpa as [(<- & <- & _)|[Hna Hpa]];
  apply list_lookup_insert_Some in Hpb as [(<- & <- & _)|[Hnb Hpb]]; [done|..].
  - by eapply Hnew.
  - destruct (Hnew a pa l m' m) as [-> ->]; done.
  - by eapply (He a b).
Qed.

(** ** What a step does to the data *)

(** The search for [k] ends in the leaf [c]. *)
Definition routed (d : data) (k : Z) (c : nat) : Prop := c = root_ d \/ child_of d k c.

Lemma contents_leaf ks vs : contents (mk [LeafNode ks vs None] 0) = leaf_map ks vs.
Proof. unfold contents. cbn. by rewrite map_union_empty. Qed.

Lemma contents_split k0 v0 k1 v1 nx ks cs r :
  contents (mk [LeafNode k0 v0 nx; InternalNode ks cs; LeafNode k1 v1 None] r) = leaf_map k0 v0 ∪ leaf_map k1 v1.
Proof. unfold contents. cbn. by rewrite map_union_empty. Qed.

Lemma child_of_split n0 n2 sk k ch :
  child_of (mk [n0; InternalNode [sk] [0%nat; 2%nat]; n2] 1) k ch ->
  (k < sk /\ ch = 0%nat) \/ (sk <= k /\ ch = 2%nat).
Proof.
  intros (ks & cs & Hr & Hc). cbn in Hr. injection Hr as <- <-. cbn [child_idx] in Hc.
  destruct (sk <=? k) eqn:Hle; rewrite ?Z.leb_le, ?Z.leb_gt in Hle; cbn in Hc; injection Hc as <-; [right|left]; done.
Qed.

Lemma Forall_not_in {P : Z -> Prop} l k : Forall P l -> ~ P k -> k ∉ l.
Proof. rewrite Forall_forall. intros Hf Hn Hin. by apply Hn, Hf. Qed.

(** In the leaf of the search is what the whole tree has for the key. *)
Lemma routed_lookup d k c ks vs nx :
  data_ok d -> routed d k c -> heap d !! c = Some (LeafNode ks vs nx) ->
  search_leaf k ks vs = Some (contents d !! k).
Proof.
  intros [ks' vs' Hok|k0 v0 k1 v1 sk Hok0 Hok1 Hf0 Hf1] Hr Hc.
  - destruct Hr as [->|(? & ? & ? & _)]; [|done]. cbn in Hc. injection Hc as -> -> <-.
    rewrite contents_leaf. by apply search_leaf_spec.
  - rewrite contents_split, lookup_union. destruct Hr as [->|[[Hlt ->]|[Hge ->]]%child_of_split]; [done|..];
      cbn in Hc; injection Hc as -> -> <-; rewrite search_leaf_spec by done; f_equal.
    + rewrite (leaf_map_None k1 v1) by (eapply Forall_not_in; [done|cbn; lia]). by destruct (leaf_map ks vs !! k).
    + rewrite (leaf_map_None k0 v0) by (eapply Forall_not_in; [done|cbn; lia]). by destruct (leaf_map ks vs !! k).
Qed.

Lemma Forall_insert_key {P : Z -> Prop} key (ks ks' : list Z) :
  P key -> (forall k, k ∈ ks' -> k = key \/ k ∈ ks) -> Forall P ks -> Forall P ks'.
Proof. rewrite !Forall_forall. intros Hk Hin Hf x [->|Hx]%Hin; [done|by apply Hf]. Qed.

Lemma routed_insert d k v c ks vs nx :
  data_ok d -> routed d k c -> heap d !! c = Some (LeafNode ks vs nx) ->
  let '(ks', vs') := insert_into_leaf k v ks vs in
  let d' := mk (<[c := LeafNode ks' vs' nx]> (heap d)) (root_ d) in
  data_ok d' /\ contents d' = <[k := v]> (contents d).
Proof.
  intros [ks0 vs0 Hok|k0 v0 k1 v1 sk Hok0 Hok1 Hf0 Hf1] Hr Hc.
  - destruct Hr as [->|(? & ? & ? & _)]; [|done]. cbn in Hc. injection Hc as -> -> <-.
    pose proof (insert_into_leaf_spec k v _ _ Hok) as Hi. destruct (insert_into_leaf k v ks vs) as [ks' vs'].
    destruct Hi as (Hok' & Hm & _). cbn [heap root_ insert list_insert]. rewrite !contents_leaf. split; [by constructor|done].
  - destruct Hr as [->|[[Hlt ->]|[Hge ->]]%child_of_split]; [done|..]; cbn in Hc; injection Hc as -> -> <-.
    + pose proof (insert_into_leaf_spec k v _ _ Hok0) as Hi. destruct (insert_into_leaf k v ks vs) as [ks' vs'].
      destruct Hi as (Hok' & Hm & Hin). cbn [heap root_ insert list_insert]. rewrite !contents_split, Hm. split; [|by rewrite insert_union_l].
      constructor; try done. by eapply Forall_insert_key.
    + pose proof (insert_into_leaf_spec k v _ _ Hok1) as Hi. destruct (insert_into_leaf k v ks vs) as [ks' vs'].
      destruct Hi as (Hok' & Hm & Hin). cbn [heap root_ insert list_insert]. rewrite !contents_split, Hm. split.
      * constructor; try done. by eapply Forall_insert_key.
      * rewrite insert_union_r; [done|]. apply leaf_map_None. eapply Forall_not_in; [done|cbn; lia].
Qed.

Lemma split_ok d ks vs nx :
  data_ok d -> heap d !! root_ d = Some (LeafNode ks vs nx) -> (MaxKeys < length ks)%nat ->
  exists d', split_root_leaf (root_ d) ks vs nx d = Some d' /\ data_ok d' /\ contents d' = contents d.
Proof.
  intros [ks0 vs0 Hok|] Hr Hlen; [|done]. cbn in Hr. injection Hr as -> -> <-. unfold split_root_leaf. cbn [heap root_].
  assert (length ks / 2 < length ks)%nat as Hmid by (apply Nat.div_lt; lia).
  destruct (lookup_lt_is_Some_2 _ _ Hmid) as [sk Hsk]. rewrite Hsk. cbn [mbind option_bind].
  eexists. split; [done|]. cbn [heap root_ insert list_insert app length]. rewrite contents_split, contents_leaf. split; [|by apply leaf_map_split].
  destruct (sorted_split _ _ _ (proj1 Hok) Hsk) as [Hf0 Hf1].
  constructor; [by apply leaf_ok_take|by apply leaf_ok_drop|done|done].
Qed.

Definition effect (e : option event) (m m' : gmap Z Z) : Prop :=
  match e with
  | None => m' = m
  | Some (Found k r) => m' = m /\ r = m !! k
  | Some (Inserted k v) => m' = <[k := v]> m
  end.

(** What other threads rely on: the root and its routing stay. *)
Definition same_root (d d' : data) : Prop :=
  root_ d' = root_ d /\
  (forall ks cs, heap d !! root_ d = Some (InternalNode ks cs) -> heap d' !! root_ d = Some (InternalNode ks cs)) /\
  (leaf_root d -> leaf_root d').

(** Or the root leaf is split, under both latches. *)
Definition split_by (p : pc) (d : data) : Prop :=
  leaf_root d /\ (RootLatch, Exclusive) ∈ holds p /\ (NodeLatch (root_ d), Exclusive) ∈ holds p.

Lemma same_root_refl d : same_root d d.
Proof. by split_and!. Qed.

Lemma same_root_leaf d c ks vs nx ks' vs' :
  heap d !! c = Some (LeafNode ks vs nx) -> same_root d (mk (<[c := LeafNode ks' vs' nx]> (heap d)) (root_ d)).
Proof.
  intros Hc. split; [done|]. unfold leaf_root. cbn [heap root_]. destruct (decide (c = root_ d)) as [->|Hne].
  - rewrite list_lookup_insert_eq by by eapply lookup_lt_Some. split; [by intros ?? ?; simplify_eq|naive_solver].
  - rewrite list_lookup_insert_ne by done. done.
Qed.

Lemma same_root_child d d' k ch : same_root d d' -> child_of d k ch -> child_of d' k ch.
Proof. intros (Hr & Hi & _) (ks & cs & Hl & Hc). exists ks, cs. rewrite Hr. auto. Qed.

Lemma same_root_internal d d' : same_root d d' -> internal d -> internal d'.
Proof. intros (Hr & Hi & _) (ks & cs & Hl). exists ks, cs. rewrite Hr. auto. Qed.

Lemma same_root_pc d d' p : same_root d d' -> pc_ok d p -> pc_ok d' p.
Proof.
  intros Hs. pose proof Hs as (Hr & _ & Hl). destruct p; cbn; rewrite ?Hr;
    naive_solver eauto using same_root_child, same_root_internal.
Qed.

Lemma leaf_root_intro d n : heap d !! root_ d = Some n -> is_leaf n = true -> leaf_root d.
Proof. intros Hn Hl. destruct n; [|done]. unfold leaf_root. eauto. Qed.

Lemma internal_intro d n : heap d !! root_ d = Some n -> is_leaf n = false -> internal d.
Proof. intros Hn Hl. destruct n; [done|]. unfold internal. eauto. Qed.

(** Children of the root are leaves, so an internal node is the root. *)
Lemma routed_internal d k c ks cs ch :
  data_ok d -> routed d k c -> heap d !! c = Some (InternalNode ks cs) -> cs !! child_idx k ks = Some ch -> child_of d k ch.
Proof.
  intros [ks' vs' Hok|k0 v0 k1 v1 sk Hok0 Hok1 Hf0 Hf1] [->|Hc] Hn Hch.
  - done.
  - by destruct Hc as (? & ? & ? & _).
  - by exists ks, cs.
  - by apply child_of_split in Hc as [[_ ->]|[_ ->]].
Qed.

Lemma child_internal d k ch : child_of d k ch -> internal d.
Proof. intros (ks & cs & Hl & _). by exists ks, cs. Qed.

Lemma insert_ok d k v c ks vs nx ks' vs' :
  data_ok d -> routed d k c -> heap d !! c = Some (LeafNode ks vs nx) -> insert_into_leaf k v ks vs = (ks', vs') ->
  let d' := mk (<[c := LeafNode ks' vs' nx]> (heap d)) (root_ d) in
  data_ok d' /\ contents d' = <[k := v]> (contents d) /\ same_root d d'.
Proof.
  intros Hd Hr Hc Hi. pose proof (routed_insert d k v c ks vs nx Hd Hr Hc) as H. rewrite Hi in H.
  destruct H as [Hd' Hm]. split_and!; [done|done|by eapply same_root_leaf].
Qed.

Lemma advance_ok d p want d' p' e :
  data_ok d -> pc_ok d p -> advance MaxKeys d p = Some (want, d', p', e) ->
  data_ok d' /\ pc_ok d' p' /\ effect e (contents d) (contents d') /\ (same_root d d' \/ split_by p d).
Proof.
  intros Hd Hp Ha. destruct p; step_cases Ha; cbn [pc_ok effect] in *;
    try (split_and!; [assumption|naive_solver|reflexivity|left; apply same_root_refl]).
  - pose proof (routed_lookup _ _ _ _ _ _ Hd Hp ltac:(eassumption)).
    split_and!; [done|done|congruence..|left; apply same_root_refl].
  - split_and!; [done|by eapply routed_internal|done|left; apply same_root_refl].
  - split_and!; [done|done|by eapply leaf_root_intro|done|left; apply same_root_refl].
  - split_and!; [done|done|by eapply internal_intro|done|left; apply same_root_refl].
  - destruct Hp as [-> Hl]. edestruct insert_ok as (Hd' & Hm & Hs); [done|by left|done|done|].
    split_and!; [done|done|by apply Hs|done|by left].
  - destruct Hp as [-> Hl]. edestruct split_ok as (d2 & Hsp & Hd' & Hm); [done..|by apply Nat.ltb_lt|].
    simplify_eq. split_and!; [done|done|done|right]. split_and!; [done|set_solver..].
  - destruct Hp as [-> Hl]. split_and!; [done|set_solver|done|by left|done|left; apply same_root_refl].
  - destruct Hp as (_ & _ & Hr). edestruct insert_ok as (Hd' & Hm & Hs); [done| |done|done|].
    { destruct Hr as [[-> _]|Hr]; [by left|by right]. }
    split_and!; [done|done|done|by left].
  - destruct Hp as (_ & _ & Hr). split_and!; [done| |done|left; apply same_root_refl].
    eapply routed_internal; [done| |done..]. destruct Hr as [[-> _]|Hr]; [by left|by right].
  - split_and!; [done|set_solver|by eapply child_internal|by right|done|left; apply same_root_refl].
  - split_and!; [done|set_solver|by eapply child_internal|by right|done|left; apply same_root_refl].
Qed.

(** ** Every reachable state satisfies the invariant *)

Lemma split_pc d p q d' :
  split_by p d -> pc_ok d q -> data_ok d' ->
  (forall l m m', (l, m) ∈ holds p -> (l, m') ∈ holds q -> m = Shared /\ m' = Shared) -> pc_ok d' q.
Proof.
  intros ((ks & vs & nx & Hl) & Hr & Hn) Hq Hd' Hex.
  assert (forall k ch, ~ child_of d k ch) as Hnc by (intros k ch (? & ? & ? & _); congruence).
  assert (~ internal d) as Hni by (intros (? & ? & ?); congruence).
  assert (forall l m, (l, m) ∈ holds q -> l = RootLatch \/ l = NodeLatch (root_ d) -> False) as Hno.
  { intros l m Hin [->| ->]; [by destruct (Hex _ _ _ Hr Hin)|by destruct (Hex _ _ _ Hn Hin)]. }
  destruct q; cbn in Hq |- *; try done; try (exfalso; by eapply Hnc).
  - exfalso. eapply Hno; [apply elem_of_cons; by left|by left].
  - exfalso. destruct Hq as [->|Hc]; [|by eapply Hnc]. eapply Hno; [apply elem_of_cons; by left|by right].
  - exfalso. eapply Hno; [apply elem_of_cons; by left|by left].
  - exfalso. eapply Hno; [apply elem_of_cons; by left|by left].
  - by destruct Hq.
  - by destruct Hq as (_ & ? & _).
Qed.

Lemma tree_step_inv i c c' e :
  inv c -> step_thread MaxKeys i c = Some (c', e) -> inv c' /\ effect e (contents c.1) (contents c'.1).
Proof.
  destruct c as [d ps]. intros [Hd Hps He] Hs. unfold step_thread in Hs. cbn [fst snd] in *.
  destruct (ps !! i) as [p|] eqn:Hi; [|done]. cbn [mbind option_bind] in Hs.
  destruct (advance MaxKeys d p) as [[[[want d'] p'] e']|] eqn:Ha; [|done]. cbn [mbind option_bind] in Hs.
  destruct (granted want (delete i ps)) eqn:Hg; [|done]. injection Hs as <- <-.
  destruct (advance_ok _ _ _ _ _ _ Hd (Hps _ _ Hi) Ha) as (Hd' & Hp' & Hm & Hframe).
  split; [|done]. constructor; cbn [fst snd]; [done| |by eapply step_exclusion].
  intros j q [(<- & <- & _)|[Hne Hj]]%list_lookup_insert_Some; [done|].
  destruct Hframe as [Hs|Hs]; [by eapply same_root_pc, Hps|].
  eapply split_pc; [done|by eapply Hps|done|]. intros l m m'. by eapply (He i j).
Qed.

Lemma inv_init ps : Forall fresh ps -> inv (ConcurrentBTree, ps).
Proof.
  rewrite Forall_lookup. intros Hf. constructor; cbn [fst snd].
  - repeat constructor.
  - intros i p Hi%Hf. by destruct p.
  - intros i j p q l m m' Hi%Hf _ _ Hin. destruct p; set_solver.
Qed.

Lemma reachable_inv c c' : inv c -> rtc (step MaxKeys) c c' -> inv c'.
Proof. intros Hi. induction 1 as [|c c2 c3 (i & e & Hs) _ IH]; [done|]. apply IH. by eapply tree_step_inv. Qed.

(** ** Linearizability *)

(** Executions with the events of each thread. *)
Inductive exec (c0 : cfg) : list (nat * event) -> cfg -> Prop :=
  | exec_nil : exec c0 [] c0
  | exec_snoc evs c i c' e :
      exec c0 evs c -> step_thread MaxKeys i c = Some (c', e) ->
      exec c0 (evs ++ option_list ((i,.) <$> e)) c'.

(** The sequential specification: a map that is read and updated. *)
Fixpoint legal (m : gmap Z Z) (evs : list event) (m' : gmap Z Z) : Prop :=
  match evs with
  | [] => m' = m
  | Found k r :: evs => r = m !! k /\ legal m evs m'
  | Inserted k v :: evs => legal (<[k := v]> m) evs m'
  end.

Inductive status := Searching (k : Z) | Inserting (k v : Z) | SearchDone (r : option Z) | InsertDone.

Definition status_of (p : pc) : status :=
  match p with
  | Sstart k | Sroot k | Sfirst k _ | Sloop k _ | Schild k _ _ => Searching k
  | Sleave _ r | Sdone r => SearchDone r
  | Istart k v | Iroot k v | Ileaf k v _ | Ifirst k v _ | Iloop k v _ _ _ | Ichild k v _ _ _ | Irelease k v _ _ _ =>
      Inserting k v
  | Isplit _ | Iunlock_leaf _ | Iunlock_root | Iend _ _ | Idone => InsertDone
  end.

(** A thread has had no effect yet, or exactly the one of its operation. *)
Inductive history : status -> list event -> status -> Prop :=
  | hist_pending s : history s [] s
  | hist_search k r : history (Searching k) [Found k r] (SearchDone r)
  | hist_insert k v : history (Inserting k v) [Inserted k v] InsertDone.

Definition own (i : nat) (evs : list (nat * event)) : list event :=
  omap (fun je => if decide (je.1 = i) then Some je.2 else None) evs.

Lemma legal_snoc m evs m1 e m2 : legal m evs m1 -> effect e m1 m2 -> legal m (evs ++ option_list e) m2.
Proof.
  revert m. induction evs as [|[k r|k v] evs IH]; intros m; cbn.
  - intros ->. destruct e as [[k r|k v]|]; cbn; naive_solver.
  - naive_solver.
  - naive_solver.
Qed.

Lemma advance_status d p want d' p' e s evs :
  advance MaxKeys d p = Some (want, d', p', e) -> history s evs (status_of p) ->
  history s (evs ++ option_list e) (status_of p').
Proof.
  intros Ha Hh. destruct p; step_cases Ha; cbn [status_of option_list] in *; rewrite ?app_nil_r; try done;
    repeat case_match; try done; inversion Hh; subst; constructor.
Qed.

Lemma own_app i evs evs' : own i (evs ++ evs') = own i evs ++ own i evs'.
Proof. apply omap_app. Qed.

Lemma own_event i j (e : option event) :
  own i (option_list ((j,.) <$> e)) = if decide (j = i) then option_list e else [].
Proof. destruct e as [e|]; cbn; by case_decide. Qed.

Lemma step_thread_inv i c c' e :
  step_thread MaxKeys i c = Some (c', e) ->
  exists p want p', c.2 !! i = Some p /\ advance MaxKeys c.1 p = Some (want, c'.1, p', e) /\
    granted want (delete i c.2) = true /\ c'.2 = <[i := p']> c.2.
Proof.
  unfold step_thread. intros Hs. destruct (c.2 !! i) as [p|]; [|done]. cbn [mbind option_bind] in Hs.
  destruct (advance MaxKeys c.1 p) as [[[[want d'] p'] e']|] eqn:Ha; [|done]. cbn [mbind option_bind] in Hs.
  destruct (granted want (delete i c.2)) eqn:Hg; [|done]. injection Hs as <- <-. by exists p, want, p'.
Qed.

Lemma exec_inv ps evs c : Forall fresh ps -> exec (ConcurrentBTree, ps) evs c -> inv c.
Proof.
  intros Hf. induction 1 as [|evs c i c' e _ IH Hs]; [by apply inv_init|]. by eapply tree_step_inv.
Qed.

Lemma exec_legal ps evs c :
  Forall fresh ps -> exec (ConcurrentBTree, ps) evs c -> legal ∅ evs.*2 (contents c.1).
Proof.
  intros Hf. induction 1 as [|evs c i c' e Hx IH Hs].
  - apply contents_leaf.
  - rewrite fmap_app. replace (option_list ((i,.) <$> e)).*2 with (option_list e) by by destruct e.
    eapply legal_snoc; [done|]. eapply tree_step_inv; [by eapply exec_inv|done].
Qed.

Lemma exec_history c0 evs c :
  exec c0 evs c -> forall i p0 p, c0.2 !! i = Some p0 -> c.2 !! i = Some p ->
  history (status_of p0) (own i evs) (status_of p).
Proof.
  induction 1 as [|evs c j c' e Hx IH Hs]; intros i p0 p Hi Hp.
  - simplify_eq. constructor.
  - apply step_thread_inv in Hs as (q & want & q' & Hq & Ha & _ & Hc). rewrite Hc in Hp.
    rewrite own_app, own_event. case_decide as Hji.
    + subst j. rewrite list_lookup_insert_eq in Hp by by eapply lookup_lt_Some. simplify_eq.
      eapply advance_status; [done|]. by apply IH.
    + rewrite list_lookup_insert_ne in Hp by done. rewrite app_nil_r. by apply IH.
Qed.

(** ** Progress *)

Lemma routed_some d k c : data_ok d -> routed d k c -> exists n, heap d !! c = Some n.
Proof.
  intros [ks' vs' Hok|k0 v0 k1 v1 sk Hok0 Hok1 Hf0 Hf1] [->|Hc]; try by eexists.
  - by destruct Hc as (? & ? & ? & _).
  - apply child_of_split in Hc as [[_ ->]|[_ ->]]; by eexists.
Qed.

Lemma child_idx_some d k c ks cs :
  data_ok d -> routed d k c -> heap d !! c = Some (InternalNode ks cs) -> exists ch, cs !! child_idx k ks = Some ch.
Proof.
  intros [ks' vs' Hok|k0 v0 k1 v1 sk Hok0 Hok1 Hf0 Hf1] [->|Hc] Hn; try done.
  - by destruct Hc as (? & ? & ? & _).
  - cbn in Hn. injection Hn as <- <-. cbn. destruct (sk <=? k); by eexists.
  - by apply child_of_split in Hc as [[_ ->]|[_ ->]].
Qed.

Lemma iloop_routed d k v c anc o : pc_ok d (Iloop k v c anc o) -> routed d k c.
Proof. intros (_ & _ & [[-> _]|Hc]); [by left|by right]. Qed.

(** An unfinished thread is never stuck on an undefined access. *)
Lemma advance_total d p :
  data_ok d -> pc_ok d p -> ~ finished p -> exists r, advance MaxKeys d p = Some r.
Proof.
  intros Hd Hp Hf. destruct p; try done; unfold advance, search_step, insert_step, local, acquire; cbv beta iota;
    try by eexists.
  - destruct (routed_some _ _ _ Hd Hp) as [[ks vs nx|ks cs] Hn]; rewrite Hn; cbn [mbind option_bind].
    + rewrite (routed_lookup _ _ _ _ _ _ Hd Hp Hn). by eexists.
    + destruct (child_idx_some _ _ _ _ _ Hd Hp Hn) as [ch ->]. by eexists.
  - destruct (routed_some d 0 (root_ d) Hd ltac:(by left)) as [n ->]. by eexists.
  - destruct Hp as [-> (ks & vs & nx & ->)]. cbn [mbind option_bind]. destruct (insert_into_leaf _ _ _ _). by eexists.
  - destruct Hp as [-> (ks & vs & nx & Hn)]. rewrite Hn. cbn [mbind option_bind]. destruct (_ <? _)%nat eqn:Hlt; [|by eexists].
    edestruct split_ok as (d' & -> & _); [done..|by apply Nat.ltb_lt|]. by eexists.
  - destruct Hp as [-> (ks & cs & ->)]. by eexists.
  - apply iloop_routed in Hp. destruct (routed_some _ _ _ Hd Hp) as [[ks vs nx|ks cs] Hn]; rewrite Hn; cbn [mbind option_bind].
    + destruct (insert_into_leaf _ _ _ _). by eexists.
    + destruct (child_idx_some _ _ _ _ _ Hd Hp Hn) as [ch ->]. by eexists.
  - destruct (routed_some d key child Hd ltac:(by right)) as [n ->]. by eexists.
  - destruct todo; [destruct owns_root|]; by eexists.
  - destruct todo; by eexists.
Qed.

(** Latches are taken from the root downwards. *)
Definition depth (d : data) (l : latch) : nat :=
  match l with RootLatch => 0 | NodeLatch c => if decide (c = root_ d) then 1 else 2 end.

Lemma depth_child d k ch : data_ok d -> child_of d k ch -> depth d (NodeLatch ch) = 2%nat.
Proof.
  intros [ks' vs' Hok|k0 v0 k1 v1 sk Hok0 Hok1 Hf0 Hf1] Hc; [by destruct Hc as (? & ? & ? & _)|].
  apply child_of_split in Hc as [[_ ->]|[_ ->]]; done.
Qed.

Lemma internal_root d k c ks cs : data_ok d -> routed d k c -> heap d !! c = Some (InternalNode ks cs) -> c = root_ d.
Proof.
  intros [ks' vs' Hok|k0 v0 k1 v1 sk Hok0 Hok1 Hf0 Hf1] [->|Hc] Hn; try done.
  - by destruct Hc as (? & ? & ? & _).
  - by apply child_of_split in Hc as [[_ ->]|[_ ->]].
Qed.

Lemma depth_root d : depth d (NodeLatch (root_ d)) = 1%nat.
Proof. cbn. by rewrite decide_True. Qed.

Lemma depth_latch d : depth d RootLatch = 0%nat.
Proof. done. Qed.

#[local] Opaque depth.

Lemma latch_order d p l m d' p' e :
  data_ok d -> pc_ok d p -> advance MaxKeys d p = Some (Some (l, m), d', p', e) ->
  (depth d l <= 2)%nat /\ forall l' m', (l', m') ∈ holds p -> (depth d l' < depth d l)%nat.
Proof.
  intros Hd Hp Ha. destruct p; step_cases Ha; cbn [holds].
  - split; [rewrite depth_latch; lia|]. by intros ? ? ?%elem_of_nil.
  - rewrite depth_root. split; [lia|]. intros ? ? [[=-> ->]|?%elem_of_nil]%elem_of_cons; [rewrite depth_latch; lia|done].
  - pose proof (internal_root _ _ _ _ _ Hd Hp ltac:(done)) as ->.
    rewrite (depth_child _ key) by (done || by eapply routed_internal). split; [lia|].
    intros ? ? [[=-> ->]|?%elem_of_nil]%elem_of_cons; [rewrite depth_root; lia|done].
  - split; [rewrite depth_latch; lia|]. by intros ? ? ?%elem_of_nil.
  - rewrite depth_root. split; [lia|]. intros ? ? [[=-> ->]|?%elem_of_nil]%elem_of_cons; [rewrite depth_latch; lia|done].
  - pose proof (iloop_routed _ key val curr locked_ancestors owns_root Hp) as Hr. pose proof (internal_root _ _ _ _ _ Hd Hr ltac:(done)) as ->.
    rewrite (depth_child _ key) by (done || by eapply routed_internal). split; [lia|].
    destruct Hp as (_ & _ & [[_ ->]|Hc]); [|apply depth_child in Hc; [rewrite depth_root in Hc|]; done].
    intros l' m' [Hin|[[=-> ->]|?%elem_of_nil]%elem_of_cons]%elem_of_app; [|rewrite depth_root; lia|done].
    destruct owns_root; [|by apply elem_of_nil in Hin]. apply list_elem_of_singleton in Hin. injection Hin as -> ->. rewrite depth_latch. lia.
Qed.

Lemma holder_unfinished l m q : (l, m) ∈ holds q -> ~ finished q.
Proof. destruct q; cbn; try tauto; by intros ?%elem_of_nil. Qed.

Lemma not_granted l m i ps :
  granted (Some (l, m)) (delete i ps) = false -> exists j q m', ps !! j = Some q /\ (l, m') ∈ holds q.
Proof.
  intros Hg. cbn in Hg. apply not_true_iff_false in Hg. rewrite forallb_forall in Hg.
  destruct (decide (Exists (fun q => l ∈ (holds q).*1) ps)) as [He|Hn].
  - apply Exists_exists in He as (q & [j Hj]%list_elem_of_lookup & ([? m'] & -> & Hin)%list_elem_of_fmap). by exists j, q, m'.
  - exfalso. apply Hg. intros q Hq%list_elem_of_In. apply list_elem_of_lookup in Hq as [j Hj].
    unfold free_for. apply forallb_forall. intros [l' m'] Hin%list_elem_of_In. cbn.
    rewrite bool_decide_false; [done|]. intros ->. apply Hn, Exists_exists. exists q. split.
    + destruct (decide (j < i)%nat).
      * rewrite list_lookup_delete_lt in Hj by lia. by eapply list_elem_of_lookup_2.
      * rewrite list_lookup_delete_ge in Hj by lia. by eapply list_elem_of_lookup_2.
    + apply list_elem_of_fmap. by exists (l, m').
Qed.

(** Follow the holders of the wanted latches downwards. *)
Lemma some_step c n i p :
  inv c -> c.2 !! i = Some p -> ~ finished p ->
  (forall l m d' p' e, advance MaxKeys c.1 p = Some (Some (l, m), d', p', e) -> 3 - depth c.1 l <= n)%nat ->
  exists c', step MaxKeys c c'.
Proof.
  destruct c as [d ps]. intros [Hd Hps He]. cbn [fst snd] in *. revert i p.
  induction n as [|n IH]; intros i p Hi Hf Hn;
    destruct (advance_total _ _ Hd (Hps _ _ Hi) Hf) as [[[[want d'] p'] e] Ha];
    (destruct (granted want (delete i ps)) eqn:Hg;
     [by exists (d', <[i := p']> ps), i, e; unfold step_thread; cbn [fst snd]; rewrite Hi; cbn [mbind option_bind];
         rewrite Ha; cbn [mbind option_bind]; rewrite Hg|]);
    destruct want as [[l m]|]; try done; specialize (Hn _ _ _ _ _ Ha);
    destruct (latch_order _ _ _ _ _ _ _ Hd (Hps _ _ Hi) Ha) as [Hdep _]; [lia|].
  destruct (not_granted _ _ _ _ Hg) as (j & q & m' & Hj & Hin).
  apply (IH j q Hj (holder_unfinished _ _ _ Hin)). intros l2 m2 d2 p2 e2 Ha2.
  destruct (latch_order _ _ _ _ _ _ _ Hd (Hps _ _ Hj) Ha2) as [Hdep2 Hlt]. specialize (Hlt _ _ Hin). lia.
Qed.

(** ** Termination *)

Definition levels (n : option Node) : nat := match n with Some (InternalNode _ _) => 1 | _ => 0 end.

Definition descent (d : data) (c : nat) : nat := levels (heap d !! c).

(** A bound on the steps a thread still makes. *)
Definition cost (d : data) (p : pc) : nat :=
  match p with
  | Sdone _ | Idone => 0
  | Sleave _ _ | Iunlock_root => 1
  | Sloop _ c => 2 + 2 * descent d c
  | Schild _ _ _ | Isplit _ => 3
  | Sfirst _ _ => 5
  | Sroot _ => 6
  | Sstart _ => 7
  | Iunlock_leaf _ => 2
  | Ileaf _ _ _ => 4
  | Iend todo _ => 1 + length todo
  | Iloop _ _ c anc _ => 2 + length anc + 5 * descent d c
  | Irelease _ _ _ todo o => 4 + (if o then 1 else 0) + length todo
  | Ichild _ _ _ anc _ => 6 + length anc
  | Ifirst _ _ _ => 9
  | Iroot _ _ => 10
  | Istart _ _ => 11
  end.

Lemma descent_child d k ch : data_ok d -> child_of d k ch -> descent d ch = 0%nat.
Proof.
  intros [ks' vs' Hok|k0 v0 k1 v1 sk Hok0 Hok1 Hf0 Hf1] Hc; [by destruct Hc as (? & ? & ? & _)|].
  apply child_of_split in Hc as [[_ ->]|[_ ->]]; done.
Qed.

Lemma descent_le d c : (descent d c <= 1)%nat.
Proof. unfold descent, levels. repeat case_match; lia. Qed.

(** Nodes keep their kind. *)
Lemma advance_kind d p want d' p' e c n :
  advance MaxKeys d p = Some (want, d', p', e) -> heap d !! c = Some n -> descent d' c = descent d c.
Proof.
  intros Ha Hc.
  assert (forall l ks vs nx ks' vs' nx', heap d !! l = Some (LeafNode ks vs nx) ->
    levels (<[l := LeafNode ks' vs' nx']> (heap d) !! c) = levels (heap d !! c)) as Hset.
  { intros l ks vs nx ks' vs' nx' Hl. destruct (decide (l = c)) as [->|Hne].
    - rewrite list_lookup_insert_eq by by eapply lookup_lt_Some. by rewrite Hl.
    - by rewrite list_lookup_insert_ne. }
  unfold descent. destruct p; step_cases Ha; try reflexivity; cbn [heap]; try by eapply Hset.
  unfold split_root_leaf in *. simplify_option_eq.
  rewrite lookup_app_l by (rewrite length_insert; by eapply lookup_lt_Some). by eapply Hset.
Qed.

Lemma advance_cost d p want d' p' e :
  data_ok d -> pc_ok d p -> advance MaxKeys d p = Some (want, d', p', e) -> (cost d' p' < cost d p)%nat.
Proof.
  intros Hd Hp Ha. destruct p; step_cases Ha; cbn [cost pc_ok length] in *; try lia.
  all: try (pose proof (descent_le d' curr); lia).
  all: try (pose proof (descent_le d' (root_ d')); lia).
  all: try (rewrite ?length_app, (descent_child _ key) by done; cbn [length]; lia).
  all: unfold descent; repeat match goal with Hc : heap _ !! _ = _ |- _ => rewrite Hc; clear Hc end; cbn; lia.
Qed.

Lemma cost_frame d p want d' p' e q :
  data_ok d -> pc_ok d q -> advance MaxKeys d p = Some (want, d', p', e) -> cost d' q = cost d q.
Proof.
  intros Hd Hq Ha. destruct q; cbn [cost]; try done.
  - destruct (routed_some _ _ _ Hd Hq) as [n Hn]. by rewrite (advance_kind _ _ _ _ _ _ _ _ Ha Hn).
  - destruct (routed_some _ _ _ Hd (iloop_routed _ _ val _ _ owns_root Hq)) as [n Hn].
    by rewrite (advance_kind _ _ _ _ _ _ _ _ Ha Hn).
Qed.

Definition total (c : cfg) : nat := sum_list (cost c.1 <$> c.2).

Lemma sum_insert_lt (f g : pc -> nat) ps i p p' :
  ps !! i = Some p -> (g p' < f p)%nat -> (forall j q, ps !! j = Some q -> g q = f q) ->
  (sum_list (g <$> <[i := p']> ps) < sum_list (f <$> ps))%nat.
Proof.
  revert i. induction ps as [|q ps IH]; intros [|i] Hi Hlt Hfg; try done.
  - injection Hi as ->. change (g p' + sum_list (g <$> ps) < f p + sum_list (f <$> ps))%nat.
    rewrite (list_fmap_ext g f ps); [lia|]. intros j q Hq. by apply (Hfg (S j)).
  - change (g q + sum_list (g <$> <[i := p']> ps) < f q + sum_list (f <$> ps))%nat.
    rewrite (Hfg 0%nat q) by done. specialize (IH i Hi Hlt (fun j q' => Hfg (S j) q')). lia.
Qed.

Lemma step_total c c' : inv c -> step MaxKeys c c' -> (total c' < total c)%nat.
Proof.
  intros [Hd Hps He] (i & e & (p & want & p' & Hi & Ha & _ & Hc)%step_thread_inv). unfold total. rewrite Hc.
  apply (sum_insert_lt _ _ _ _ p); [done| |].
  - by eapply advance_cost; [|eapply Hps|].
  - intros j q Hj. eapply cost_frame; [done|by eapply Hps|done].
Qed.

Lemma nsteps_total n c c' : inv c -> relations.nsteps (step MaxKeys) n c c' -> (n + total c' <= total c)%nat.
Proof.
  intros Hi. induction 1 as [|n c c2 c3 Hs _ IH]; [lia|]. pose proof (step_total _ _ Hi Hs).
  destruct Hs as (i & e & Hs). apply tree_step_inv in Hs as [Hi2 _]; [|done]. specialize (IH Hi2). lia.
Qed.

Lemma total_fresh ps : Forall fresh ps -> (total (ConcurrentBTree, ps) <= 11 * length ps)%nat.
Proof.
  unfold total. cbn [fst snd]. induction 1 as [|p ps Hp _ IH]; [cbn; lia|]. rewrite fmap_cons.
  change (sum_list (?x :: ?l)) with (x + sum_list l)%nat. cbn [length]. destruct p; cbn [cost]; try done; lia.
Qed.

(** C1. Linearizability.  For any set of threads, each with one [search] or
    [insert], and any interleaving of their latch operations and node accesses
    on an empty tree: the effects, in the order in which they happen, are a
    legal history of a finite map whose final state is the content of the
    tree, and each thread contributes exactly its own operation, with the
    result it returns, before it finishes. *)
Theorem btree_linearizable (ps : list pc) evs c :
  Forall fresh ps -> exec (ConcurrentBTree, ps) evs c ->
  legal ∅ evs.*2 (contents c.1) /\
  forall i p0 p, ps !! i = Some p0 -> c.2 !! i = Some p -> history (status_of p0) (own i evs) (status_of p).
Proof.
  intros Hf Hx. split; [by eapply exec_legal|]. intros i p0 p Hi. by apply (exec_history _ _ _ Hx).
Qed.

(** C32. Latches.  In every reachable state a latch held exclusively has no other
    holder; if some thread is unfinished some thread can step, so the latch
    order excludes deadlock and no undefined access is reached; and no
    execution has more than 11 steps per thread. *)
Theorem btree_progress (ps : list pc) n c :
  Forall fresh ps -> relations.nsteps (step MaxKeys) n (ConcurrentBTree, ps) c ->
  exclusion c.2 /\ (Exists (fun p => ~ finished p) c.2 -> exists c', step MaxKeys c c') /\ (n <= 11 * length ps)%nat.
Proof.
  intros Hf Hn. pose proof (inv_init _ Hf) as Hi. pose proof (total_fresh _ Hf).
  pose proof (nsteps_total _ _ _ Hi Hn). pose proof (reachable_inv _ _ Hi (rtc_nsteps_2 _ _ _ Hn)) as Hc.
  split_and!; [apply Hc| |lia]. intros (p & [i Hp]%list_elem_of_lookup & Hnf)%Exists_exists.
  apply (some_step c 3 i p Hc Hp Hnf). intros. lia.
Qed.

Lemma run_exec c0 sched evs c evs' c' :
  exec c0 evs c -> run MaxKeys sched evs c = Some (evs', c') -> exec c0 evs' c'.
Proof.
  revert evs c. induction sched as [|i sched IH]; cbn; intros evs c Hx Hr; [by simplify_eq|].
  destruct (step_thread MaxKeys i c) as [[c2 e]|] eqn:Hs; [|done]. cbn in Hr. eapply IH; [|done]. by econstructor.
Qed.

Lemma run_nsteps sched evs c evs' c' :
  run MaxKeys sched evs c = Some (evs', c') -> relations.nsteps (step MaxKeys) (length sched) c c'.
Proof.
  revert evs c. induction sched as [|i sched IH]; cbn; intros evs c Hr; [simplify_eq; constructor|].
  destruct (step_thread MaxKeys i c) as [[c2 e]|] eqn:Hs; [|done]. cbn in Hr. econstructor; [by exists i, e|by eapply IH].
Qed.
End proofs.

(** ** An example with [MaxKeys = 2] *)

Definition ex_threads : list pc := [Istart 5 50; Istart 3 30; Istart 8 80; Istart 9 90; Sstart 3; Istart 10 100].

(** Three inserts split the root; then a fourth insert and the lookup overlap,
    the lookup waiting for the latch of the root; the fifth insert comes last. *)
Definition ex_sched : list nat :=
  replicate 6 0%nat ++ replicate 6 1%nat ++ replicate 6 2%nat ++
  [3; 3; 3; 4; 3; 3; 3; 3; 4; 4; 3; 4; 4; 4; 4; 3]%nat ++ replicate 9 5%nat.

Definition ex_run (n : nat) : list (nat * event) * cfg :=
  default ([], (ConcurrentBTree, [])) (run 2 (take n ex_sched) [] (ConcurrentBTree, ex_threads)).

Lemma ex_fresh : Forall fresh ex_threads.
Proof. repeat constructor. Qed.

Lemma btree_linearizable_witness :
  legal ∅ [Inserted 5 50; Inserted 3 30; Inserted 8 80; Inserted 9 90; Found 3 (Some 30); Inserted 10 100]
    (contents (ex_run 43).2.1) /\
  history (status_of (Sstart 3)) [Found 3 (Some 30)] (status_of (Sdone (Some 30))).
Proof.
  pose proof (btree_linearizable 2 ex_threads (ex_run 43).1 (ex_run 43).2 ex_fresh
    (run_exec 2 _ ex_sched [] (ConcurrentBTree, ex_threads) (ex_run 43).1 (ex_run 43).2 (exec_nil 2 _)
       ltac:(vm_compute; reflexivity))) as [Hl Hh].
  split; [exact Hl|]. exact (Hh 4%nat (Sstart 3) (Sdone (Some 30)) eq_refl ltac:(vm_compute; reflexivity)).
Defined.

(** After 22 steps the lookup waits for a latch that the insert holds. *)
Lemma btree_progress_witness : exists c', step 2 (ex_run 22).2 c'.
Proof.
  destruct (btree_progress 2 ex_threads 22 (ex_run 22).2 ex_fresh
    (run_nsteps 2 (take 22 ex_sched) [] (ConcurrentBTree, ex_threads) (ex_run 22).1 (ex_run 22).2 ltac:(vm_compute; reflexivity))) as (_ & Hs & _).
  apply Hs. apply Exists_exists. exists (Sroot 3). split; [|intros []].
  apply (list_elem_of_lookup_2 _ 4). vm_compute. reflexivity.
Defined.

(** Leaves under an internal root are never split: with [MaxKeys = 2] the
    second leaf holds four keys. *)
Lemma btree_leaf_overflow :
  run 2 ex_sched [] (ConcurrentBTree, ex_threads) = Some (ex_run 43) /\
  heap (ex_run 43).2.1 !! 2%nat = Some (LeafNode [5; 8; 9; 10] [50; 80; 90; 100] None).
Proof. split; vm_compute; reflexivity. Qed.
End BTree.
