(* ===== verification/Bloom.v ===== *)
(** * The Bloom filter

    Model of [BloomFilter] (08-database-indexing, bloom_filter.hpp): the two
    64-bit hashes, the double hashing and the packed bit words.  The sizes that
    the constructor computes with floating-point logarithms are parameters. *)

From S2P Require Import Prelude.

#[local] Open Scope Z_scope.
#[local] Open Scope cpp_scope.

Module Bloom.

Record t := mk { num_bits_ : Z; num_hashes_ : Z; bits_ : list Z }.

(** [m_of n] is [ceil (- n * log fpp / (log 2 * log 2))] and [k_of bits n] is
    [round (bits / n * log 2)], both converted to integers. *)
Definition BloomFilter (m_of : Z -> Z) (k_of : Z -> Z -> Z) (expected_elements : Z) : t :=
  let expected_elements := if expected_elements =? 0 then 1 else expected_elements in
  let num_bits := u64 (m_of expected_elements) in
  let num_bits := if num_bits <? 64 then 64 else num_bits in
  let num_hashes := u64 (Z.max 1 (k_of num_bits expected_elements)) in
  mk num_bits num_hashes (replicate (Z.to_nat ((num_bits +64 63) / 64)) 0).

Definition hash1 (k : Z) : Z :=
  let k := Z.lxor k (Z.shiftr k 33) in
  let k := k *64 0xff51afd7ed558ccd in
  let k := Z.lxor k (Z.shiftr k 33) in
  let k := k *64 0xc4ceb9fe1a85ec53 in
  Z.lxor k (Z.shiftr k 33).

Definition hash2 (k : Z) : Z :=
  let k := u64 (Z.lnot k) +64 (k <<64 21) in
  let k := Z.lxor k (Z.shiftr k 24) in
  let k := (k +64 (k <<64 3)) +64 (k <<64 8) in
  let k := Z.lxor k (Z.shiftr k 14) in
  let k := (k +64 (k <<64 2)) +64 (k <<64 4) in
  let k := Z.lxor k (Z.shiftr k 28) in
  k +64 (k <<64 31).

(** The bit that probe [i] of [key] addresses. *)
Definition combined (b : t) (key : Z) (i : nat) : Z :=
  (hash1 key +64 (Z.of_nat i *64 hash2 key)) mod num_bits_ b.

Definition probes (b : t) : list nat := seq 0 (Z.to_nat (num_hashes_ b)).

Definition set_bit (bits : list Z) (p : Z) : list Z :=
  alter (fun w => Z.lor w (1 <<64 (p mod 64))) (Z.to_nat (p / 64)) bits.

Definition add (b : t) (key : Z) : t :=
  mk (num_bits_ b) (num_hashes_ b)
     (foldl (fun bits i => set_bit bits (combined b key i)) (bits_ b) (probes b)).

Definition get_bit (bits : list Z) (p : Z) : bool :=
  negb (Z.land (default 0 (bits !! Z.to_nat (p / 64))) (1 <<64 (p mod 64)) =? 0).

(** The loop stops at the first clear bit. *)
Definition contains (b : t) (key : Z) : bool :=
  forallb (fun i => get_bit (bits_ b) (combined b key i)) (probes b).

Definition raw_bits (b : t) : list Z := bits_ b.

Definition set_raw_bits (bits : list Z) (num_bits num_hashes : Z) (b : t) : t := mk num_bits num_hashes bits.

Definition num_bits (b : t) : Z := num_bits_ b.
Definition num_hashes (b : t) : Z := num_hashes_ b.

(** ** Single bits *)

Lemma shift_one p : 1 <<64 (p mod 64) = 2 ^ (p mod 64).
Proof.
  assert (0 <= p mod 64 < 64) by (apply Z.mod_pos_bound; lia).
  rewrite Z.shiftl_1_l. apply wrap_small. split; [lia|]. apply Z.pow_lt_mono_r; lia.
Qed.

Lemma get_bit_testbit bits p : get_bit bits p = Z.testbit (default 0 (bits !! Z.to_nat (p / 64))) (p mod 64).
Proof.
  assert (0 <= p mod 64 < 64) by (apply Z.mod_pos_bound; lia).
  unfold get_bit. rewrite shift_one. set (w := default 0 _). set (r := p mod 64) in *.
  destruct (Z.testbit w r) eqn:Hb.
  - apply negb_true_iff, Z.eqb_neq. intros H0. apply (f_equal (fun z => Z.testbit z r)) in H0.
    rewrite Z.land_spec, Hb, Z.pow2_bits_true, Z.testbit_0_l in H0 by lia. done.
  - apply negb_false_iff, Z.eqb_eq. apply Z.bits_inj'. intros n Hn. rewrite Z.land_spec, Z.pow2_bits_eqb, Z.testbit_0_l by lia.
    destruct (Z.eqb_spec r n) as [<-|]; [by rewrite Hb|apply andb_false_r].
Qed.

(** A position inside the words. *)
Definition in_words (bits : list Z) (p : Z) : Prop := 0 <= p < 64 * Z.of_nat (length bits).

Lemma length_set_bit bits p : length (set_bit bits p) = length bits.
Proof. apply length_alter. Qed.

Lemma get_set_bit bits p q :
  in_words bits p -> 0 <= q -> get_bit (set_bit bits p) q = get_bit bits q || (p =? q).
Proof.
  intros Hp Hq. rewrite !get_bit_testbit. unfold set_bit. rewrite shift_one.
  pose proof (Z.div_mod p 64 ltac:(lia)). pose proof (Z.div_mod q 64 ltac:(lia)).
  assert (0 <= p mod 64 < 64) by (apply Z.mod_pos_bound; lia).
  assert (0 <= q mod 64 < 64) by (apply Z.mod_pos_bound; lia).
  assert (0 <= p / 64 /\ 0 <= q / 64) as [Hp0 Hq0] by (unfold in_words in *; split; apply Z.div_pos; lia).
  destruct (decide (Z.to_nat (p / 64) = Z.to_nat (q / 64))) as [Heq|Hne].
  - assert (p / 64 = q / 64) as Hd by lia. rewrite <- Heq.
    destruct (lookup_lt_is_Some_2 bits (Z.to_nat (p / 64))) as [w Hw]; [unfold in_words in *; lia|].
    rewrite list_lookup_alter_eq, Hw. cbn. rewrite Z.lor_spec, Z.pow2_bits_eqb by lia. f_equal.
    destruct (Z.eqb_spec p q), (Z.eqb_spec (p mod 64) (q mod 64)); lia || done.
  - rewrite list_lookup_alter_ne by done.
    destruct (Z.eqb_spec p q) as [->|]; [done|]. by rewrite orb_false_r.
Qed.

Lemma get_set_bits bits ps q :
  Forall (in_words bits) ps -> 0 <= q -> get_bit (foldl set_bit bits ps) q = get_bit bits q || existsb (Z.eqb q) ps.
Proof.
  intros Hps Hq. revert bits Hps. induction ps as [|p ps IH]; intros bits Hps; cbn [foldl existsb]; [by rewrite orb_false_r|].
  apply Forall_cons in Hps as [Hp Hps]. rewrite IH by (unfold in_words in *; by rewrite length_set_bit).
  rewrite get_set_bit by done. by rewrite (Z.eqb_sym p q), orb_assoc.
Qed.

(** ** The set of positions of a key *)

Definition wf (b : t) : Prop := 0 < num_bits_ b <= 64 * Z.of_nat (length (bits_ b)).

Definition positions (b : t) (key : Z) : list Z := combined b key <$> probes b.

(** Same parameters: the same positions for every key. *)
Definition same_shape (b b' : t) : Prop := num_bits_ b = num_bits_ b' /\ num_hashes_ b = num_hashes_ b'.

Lemma same_shape_positions b b' key : same_shape b b' -> positions b key = positions b' key.
Proof. intros [Hn Hh]. unfold positions, probes, combined. by rewrite Hn, Hh. Qed.

Lemma positions_range b key : wf b -> Forall (in_words (bits_ b)) (positions b key).
Proof.
  intros Hwf. apply Forall_forall. intros p (i & -> & _)%list_elem_of_fmap. unfold in_words, wf in *.
  pose proof (Z.mod_pos_bound (hash1 key +64 (Z.of_nat i *64 hash2 key)) (num_bits_ b) ltac:(lia)). unfold combined. lia.
Qed.

Lemma foldl_set_positions b key bits :
  foldl (fun bits i => set_bit bits (combined b key i)) bits (probes b) = foldl set_bit bits (positions b key).
Proof. unfold positions. by rewrite foldl_fmap. Qed.

Lemma length_foldl_set ps bits : length (foldl set_bit bits ps) = length bits.
Proof. revert bits. induction ps as [|p ps IH]; intros bits; [done|]. cbn. by rewrite IH, length_set_bit. Qed.

Lemma add_shape b key : same_shape (add b key) b /\ length (bits_ (add b key)) = length (bits_ b).
Proof. split; [done|]. unfold add. cbn [bits_]. by rewrite foldl_set_positions, length_foldl_set. Qed.

Lemma adds_shape keys b : same_shape (foldl add b keys) b /\ length (bits_ (foldl add b keys)) = length (bits_ b).
Proof.
  revert b. induction keys as [|k keys IH]; intros b; [done|]. cbn [foldl].
  destruct (IH (add b k)) as [[Hn Hh] ->], (add_shape b k) as [[Hn' Hh'] ->]. split; [split|done]; congruence.
Qed.

Lemma wf_adds b keys : wf b -> wf (foldl add b keys).
Proof. intros Hwf. unfold wf. destruct (adds_shape keys b) as [[-> _] ->]. done. Qed.

Lemma contains_positions b key : contains b key = forallb (get_bit (bits_ b)) (positions b key).
Proof. unfold contains, positions. induction (probes b) as [|i l IH]; [done|]. cbn. by rewrite IH. Qed.

(** The set bits are those of the added keys. *)
Lemma adds_get_bit b keys q :
  wf b -> 0 <= q ->
  get_bit (bits_ (foldl add b keys)) q = get_bit (bits_ b) q || existsb (fun k => existsb (Z.eqb q) (positions b k)) keys.
Proof.
  intros Hwf Hq. revert b Hwf. induction keys as [|k keys IH]; intros b Hwf; cbn [foldl existsb]; [by rewrite orb_false_r|].
  destruct (add_shape b k) as [Hs Hl]. rewrite IH by (unfold wf in *; rewrite Hl; by destruct Hs as [-> _]).
  unfold add at 1. cbn [bits_]. rewrite foldl_set_positions, get_set_bits by (done || by apply positions_range).
  by rewrite <- orb_assoc.
Qed.

Lemma BloomFilter_wf m_of k_of n :
  num_bits_ (BloomFilter m_of k_of n) < 2 ^ 64 - 63 -> wf (BloomFilter m_of k_of n).
Proof.
  unfold BloomFilter, wf. cbn [num_bits_ bits_]. set (w := u64 (m_of _)). set (nb := if w <? 64 then 64 else w). intros Hnb.
  assert (64 <= nb) by (unfold nb; destruct (Z.ltb_spec w 64); lia).
  rewrite length_replicate, wrap_small by lia.
  pose proof (Z.div_mod (nb + 63) 64 ltac:(lia)). pose proof (Z.mod_pos_bound (nb + 63) 64 ltac:(lia)). lia.
Qed.

Lemma BloomFilter_clear m_of k_of n p : get_bit (bits_ (BloomFilter m_of k_of n)) p = false.
Proof.
  rewrite get_bit_testbit. unfold BloomFilter. cbn [bits_].
  destruct (replicate _ _ !! _) as [x|] eqn:Hx; cbn; [|apply Z.testbit_0_l].
  apply lookup_replicate in Hx as [-> _]. apply Z.testbit_0_l.
Qed.

(** The words stay 64-bit values. *)
Lemma adds_words keys b :
  Forall (fun w => 0 <= w < 2 ^ 64) (bits_ b) -> Forall (fun w => 0 <= w < 2 ^ 64) (bits_ (foldl add b keys)).
Proof.
  assert (forall p bits, Forall (fun w => 0 <= w < 2 ^ 64) bits -> Forall (fun w => 0 <= w < 2 ^ 64) (set_bit bits p)) as Hset.
  { intros p bits Hb. unfold set_bit. apply Forall_alter; [done|]. intros w Hw [H0 H1]. rewrite shift_one.
    assert (0 <= p mod 64 < 64) by (apply Z.mod_pos_bound; lia).
    apply lor_range; [lia|done|]. split; [lia|]. apply Z.pow_lt_mono_r; lia. }
  revert b. induction keys as [|k keys IH]; intros b Hb; [done|]. cbn [foldl]. apply IH. unfold add. cbn [bits_].
  rewrite foldl_set_positions. revert Hb. generalize (bits_ b). induction (positions b k) as [|p ps IHp]; intros bits Hb; [done|].
  cbn [foldl]. by apply IHp, Hset.
Qed.

Lemma BloomFilter_words m_of k_of n : Forall (fun w => 0 <= w < 2 ^ 64) (bits_ (BloomFilter m_of k_of n)).
Proof. apply Forall_replicate. lia. Qed.

(** No false negatives. *)
Lemma bloom_member m_of k_of n keys key :
  num_bits_ (BloomFilter m_of k_of n) < 2 ^ 64 - 63 -> key ∈ keys -> contains (foldl add (BloomFilter m_of k_of n) keys) key = true.
Proof.
  intros Hsz Hk. pose proof (BloomFilter_wf m_of k_of n Hsz) as Hwf. set (b := BloomFilter m_of k_of n) in *.
  destruct (adds_shape keys b) as [Hs _]. rewrite contains_positions, (same_shape_positions _ _ _ Hs).
  apply forallb_forall. intros p Hp. rewrite adds_get_bit; [|done|].
  - apply orb_true_iff. right. apply existsb_exists. exists key. split; [by apply list_elem_of_In|].
    apply existsb_exists. exists p. split; [done|lia].
  - apply list_elem_of_In in Hp. by apply (proj1 (Forall_forall _ _) (positions_range b key Hwf)) in Hp as [? _].
Qed.

(** The Bloom filter.  After any insertions into a filter from the
    constructor, all probes stay inside the bit words and [contains] holds
    exactly if every position of the key is a position of some inserted key:
    there are no false negatives and false positives come only from collisions
    of all probes. *)
Theorem bloom_contains m_of k_of n keys key :
  let b := BloomFilter m_of k_of n in
  let b' := foldl add b keys in
  num_bits_ b < 2 ^ 64 - 63 ->
  Forall (in_words (bits_ b')) (positions b' key) /\
  (contains b' key = true <-> forall p, p ∈ positions b' key -> exists k, k ∈ keys /\ p ∈ positions b' k) /\
  (key ∈ keys -> contains b' key = true).
Proof.
  intros b b' Hsz. pose proof (BloomFilter_wf m_of k_of n Hsz) as Hwf. fold b in Hwf.
  assert (wf b') as Hwf' by by apply wf_adds. destruct (adds_shape keys b) as [Hs _].
  split; [by apply positions_range|]. rewrite contains_positions.
  assert (forallb (get_bit (bits_ b')) (positions b' key) = true <->
    forall p, p ∈ positions b' key -> exists k, k ∈ keys /\ p ∈ positions b' k) as Hiff.
  { rewrite forallb_forall. apply forall_proper. intros p. rewrite <- list_elem_of_In.
    split; intros Hp Hin; specialize (Hp Hin);
      pose proof (proj1 (Forall_forall _ _) (positions_range b' key Hwf') p Hin) as [Hp0 _].
    - unfold b' in Hp. rewrite adds_get_bit, (BloomFilter_clear m_of k_of n p : get_bit (bits_ b) p = _) in Hp by done.
      apply existsb_exists in Hp as (k & Hk & (p' & Hp' & ->%Z.eqb_eq)%existsb_exists).
      exists k. rewrite (same_shape_positions _ _ _ Hs). by rewrite !list_elem_of_In.
    - destruct Hp as (k & Hk & Hpk). rewrite (same_shape_positions _ _ _ Hs) in Hpk.
      unfold b'. rewrite adds_get_bit by done. apply orb_true_iff. right. apply existsb_exists.
      exists k. split; [by apply list_elem_of_In|]. apply existsb_exists. exists p. split; [by apply list_elem_of_In|lia]. }
  split; [done|]. intros Hk. rewrite <- contains_positions. by apply bloom_member.
Qed.

(** 1000 elements at one percent: 9586 bits and 7 probes. *)
Definition ex_m (n : Z) : Z := 9586 * n / 1000 + 1.
Definition ex_k (bits n : Z) : Z := bits * 693 / (1000 * n).

Lemma bloom_contains_witness :
  let b := foldl add (BloomFilter ex_m ex_k 3) [17; 2 ^ 63; 5] in
  contains b 5 = true /\ contains b 6 = false.
Proof.
  split; [|vm_compute; reflexivity].
  refine (proj2 (proj2 (bloom_contains ex_m ex_k 3 [17; 2 ^ 63; 5] 5 _)) _); [vm_compute; reflexivity|].
  apply (list_elem_of_lookup_2 _ 2). reflexivity.
Defined.
End Bloom.
