(* ===== verification/SkipList.v ===== *)
(** * The skip-list memtable

    Model of [SkipListMemTable] (08-database-indexing, skiplist_memtable.hpp).
    Nodes live in a heap and carry their vectors of forward pointers; [None] as
    the result of an operation is an access outside of a vector or a loop that
    has not ended within the number of nodes, and the theorems exclude it.  The
    outcomes of the random draws are a parameter of [put].  The operations run
    under the latch of the table.

    The class [MemTable] states what an engine relies on; the skip list is its
    instance. *)

From S2P Require Import Prelude.

#[local] Open Scope Z_scope.
#[local] Open Scope cpp_scope.

(** What a memtable promises: it behaves like the finite map it represents and
    enumerates it in key order. *)
Class MemTable (T : Type) (repr : T -> gmap Z Z -> Prop) := {
  mt_empty : T;
  mt_put : list bool -> Z -> Z -> T -> option T;
  mt_get : Z -> T -> option (option Z);
  mt_to_vector : T -> option (list (Z * Z));
  mt_size : T -> Z;
  mt_byte_size : T -> Z;
  mt_empty_repr : repr mt_empty ∅;
  mt_put_repr draws k v s m : repr s m -> exists s', mt_put draws k v s = Some s' /\ repr s' (<[k := v]> m);
  mt_get_repr k s m : repr s m -> mt_get k s = Some (m !! k);
  mt_to_vector_repr s m : repr s m ->
    exists l, mt_to_vector s = Some l /\ StronglySorted Z.lt l.*1 /\ list_to_map l = m;
  mt_size_repr s m : repr s m -> mt_size s = u64 (Z.of_nat (size m));
}.

Module SkipList.

Definition MAX_LEVEL : nat := 16.

Record Node := mk_node { key : Z; value : Z; level : nat; forward : list (option nat) }.

Definition new_Node (k v : Z) (lvl : nat) : Node := mk_node k v lvl (replicate lvl None).

(** [key], [value], [level] and a vector: 48 bytes. *)
Definition sizeof_Node : Z := 48.

Record t := mk { heap : list Node; head_ : nat; current_level_ : nat; size_ : Z; byte_size_ : Z }.

Definition SkipListMemTable : t := mk [new_Node 0 0 MAX_LEVEL] 0 1 0 0.

(** [node->forward[i]]. *)
Definition fwd (h : list Node) (a i : nat) : option (option nat) := n ← h !! a; forward n !! i.

Definition set_fwd (h : list Node) (a i : nat) (x : option nat) : list Node :=
  alter (fun n => mk_node (key n) (value n) (level n) (<[i := x]> (forward n))) a h.

(** The inner loop: advance on level [i] while the next key is smaller. *)
Fixpoint walk (fuel : nat) (h : list Node) (k : Z) (i curr : nat) : option nat :=
  match fuel with
  | O => None
  | S fuel =>
      nx ← fwd h curr i;
      match nx with
      | Some b => n ← h !! b; if key n <? k then walk fuel h k i b else Some curr
      | None => Some curr
      end
  end.

(** The outer loop from level [i - 1] down to 0, recording the path. *)
Fixpoint descend (h : list Node) (k : Z) (i curr : nat) (update : list (option nat)) : option (nat * list (option nat)) :=
  match i with
  | O => Some (curr, update)
  | S i => c ← walk (S (length h)) h k i curr; descend h k i c (<[i := Some c]> update)
  end.

(** [draws] are the results of [dist_(rng_) < 0.5]. *)
Fixpoint random_level (draws : list bool) (lvl : nat) : nat :=
  match draws with
  | true :: draws => if (lvl <? MAX_LEVEL)%nat then random_level draws (S lvl) else lvl
  | _ => lvl
  end.

(** Linking node [new] on the given levels. *)
Fixpoint link (levels : list nat) (update : list (option nat)) (new : nat) (h : list Node) : option (list Node) :=
  match levels with
  | [] => Some h
  | i :: levels =>
      u ← mjoin (update !! i);
      f ← fwd h u i;
      link levels update new (set_fwd (set_fwd h new i f) u i (Some new))
  end.

(** [put] of a key that is not in the list. *)
Definition put_new (draws : list bool) (k v : Z) (update : list (option nat)) (s : t) : option t :=
  let new_level := random_level draws 1 in
  let cur := current_level_ s in
  let update :=
    if (cur <? new_level)%nat
    then foldl (fun u i => <[i := Some (head_ s)]> u) update (seq cur (new_level - cur)) else update in
  h ← link (seq 0 new_level) update (length (heap s)) (heap s ++ [new_Node k v new_level]);
  Some (mk h (head_ s) (Nat.max cur new_level) (size_ s +64 1)
           (byte_size_ s +64 (sizeof_Node +64 (Z.of_nat new_level *64 8)))).

(** The node behind [curr] on level 0, if it has the key. *)
Definition hit (h : list Node) (k : Z) (curr : nat) : option (option (nat * Node)) :=
  nx ← fwd h curr 0;
  match nx with
  | Some b => n ← h !! b; Some (if key n =? k then Some (b, n) else None)
  | None => Some None
  end.

Definition put (draws : list bool) (k v : Z) (s : t) : option t :=
  '(curr, update) ← descend (heap s) k (current_level_ s) (head_ s) (replicate MAX_LEVEL None);
  r ← hit (heap s) k curr;
  match r with
  | Some (b, n) =>
      Some (mk (<[b := mk_node (key n) v (level n) (forward n)]> (heap s))
               (head_ s) (current_level_ s) (size_ s) (byte_size_ s))
  | None => put_new draws k v update s
  end.

(** The inner option is the [bool] result with the value of [out_val]. *)
Definition get (k : Z) (s : t) : option (option Z) :=
  '(curr, update) ← descend (heap s) k (current_level_ s) (head_ s) [];
  r ← hit (heap s) k curr;
  Some (match r with Some (_, n) => Some (value n) | None => None end).

(** The chain of level 0 from [curr] on. *)
Fixpoint chain (fuel : nat) (h : list Node) (curr : option nat) : option (list (Z * Z)) :=
  match curr, fuel with
  | None, _ => Some []
  | Some a, S fuel => n ← h !! a; nx ← fwd h a 0; l ← chain fuel h nx; Some ((key n, value n) :: l)
  | Some _, O => None
  end.

Definition to_vector (s : t) : option (list (Z * Z)) :=
  nx ← fwd (heap s) (head_ s) 0; chain (length (heap s)) (heap s) nx.

Definition size (s : t) : Z := size_ s.
Definition byte_size (s : t) : Z := byte_size_ s.

(** ** The representation *)

Definition key_of (h : list Node) (a : nat) : Z := default 0 (key <$> h !! a).
Definition level_of (h : list Node) (a : nat) : nat := default 0%nat (level <$> h !! a).
Definition pair_of (h : list Node) (a : nat) : Z * Z := default (0, 0) ((fun n => (key n, value n)) <$> h !! a).

(** The nodes of [L] that are linked on level [i]. *)
Definition on_level (h : list Node) (i : nat) (L : list nat) : list nat := filter (fun a => (i < level_of h a)%nat) L.

(** Each node points to the next one of the list on level [i]. *)
Fixpoint links (h : list Node) (i : nat) (l : list nat) : Prop :=
  match l with
  | [] => True
  | a :: rest => fwd h a i = Some (head rest) /\ links h i rest
  end.

(** [L] is the nodes in key order. *)
Record repr (s : t) (L : list nat) : Prop := {
  r_head : exists n, heap s !! head_ s = Some n /\ length (forward n) = MAX_LEVEL;
  r_nodup : NoDup (head_ s :: L);
  r_nodes : forall a, a ∈ L -> exists n, heap s !! a = Some n /\ length (forward n) = level n /\ (1 <= level n <= current_level_ s)%nat;
  r_sorted : StronglySorted Z.lt (key_of (heap s) <$> L);
  r_links : forall i, (i < MAX_LEVEL)%nat -> links (heap s) i (head_ s :: on_level (heap s) i L);
  r_levels : (1 <= current_level_ s <= MAX_LEVEL)%nat;
  r_size : size_ s = u64 (Z.of_nat (length L));
}.

(** The finite map of the nodes. *)
Definition map_of (h : list Node) (L : list nat) : gmap Z Z := list_to_map (pair_of h <$> L).

Definition represents (s : t) (m : gmap Z Z) : Prop := exists L, repr s L /\ m = map_of (heap s) L.

(** ** Links *)

Lemma links_app_l h i l1 l2 : links h i (l1 ++ l2) -> links h i l2.
Proof. induction l1 as [|a l1 IH]; [done|]. cbn. intros [_ H]. by apply IH. Qed.

Lemma links_at h i l1 a l2 : links h i (l1 ++ a :: l2) -> fwd h a i = Some (head l2).
Proof. intros H%links_app_l. apply H. Qed.

Lemma links_ext h h' i l :
  (forall a, a ∈ l -> fwd h' a i = fwd h a i) -> links h i l -> links h' i l.
Proof.
  induction l as [|a l IH]; [done|]. intros Hf [Ha Hl]. split.
  - rewrite Hf by (apply elem_of_cons; by left). done.
  - apply IH; [|done]. intros b Hb. apply Hf, elem_of_cons. by right.
Qed.

Lemma fwd_set_same h a i x y : fwd h a i = Some y -> fwd (set_fwd h a i x) a i = Some x.
Proof.
  unfold fwd, set_fwd. intros H. rewrite list_lookup_alter_eq. destruct (h !! a) as [n|]; [|done]. cbn in *.
  apply list_lookup_insert_eq. by eapply lookup_lt_Some.
Qed.

Lemma fwd_set_ne h a i x b j : (a, i) <> (b, j) -> fwd (set_fwd h a i x) b j = fwd h b j.
Proof.
  unfold fwd, set_fwd. intros Hne. destruct (decide (a = b)) as [->|Hab].
  - rewrite list_lookup_alter_eq. destruct (h !! b) as [n|]; [|done]. cbn. apply list_lookup_insert_ne. congruence.
  - by rewrite list_lookup_alter_ne.
Qed.

(** Linking a node behind [u] on one level. *)
Lemma links_insert h i l1 u l2 new y :
  links h i (l1 ++ u :: l2) -> NoDup (l1 ++ u :: l2) -> new ∉ l1 ++ u :: l2 -> fwd h new i = Some y ->
  links (set_fwd (set_fwd h new i (head l2)) u i (Some new)) i (l1 ++ u :: new :: l2).
Proof.
  intros Hl Hnd Hnew Hfn.
  assert (new <> u /\ (u ∉ l2) /\ (new ∉ l2)) as (Hnu & Hul & Hnl).
  { apply NoDup_app in Hnd as (_ & _ & [Hu _]%NoDup_cons). rewrite elem_of_app, elem_of_cons in Hnew. tauto. }
  pose proof (links_at _ _ _ _ _ Hl) as Hu. set (h' := set_fwd _ u i _).
  assert (links h' i (u :: new :: l2)) as Htl.
  { split; [|split].
    - apply (fwd_set_same _ _ _ _ (head l2)). rewrite fwd_set_ne by congruence. done.
    - unfold h'. rewrite fwd_set_ne by congruence. by eapply fwd_set_same.
    - apply links_app_l in Hl as [_ Hl2]. eapply links_ext; [|exact Hl2].
      intros b Hb. unfold h'. rewrite !fwd_set_ne; [done|intros [= ->]; done..]. }
  clear Hu. induction l1 as [|a l1 IH]; [done|]. cbn in Hl |- *. destruct Hl as [Ha Hl].
  apply NoDup_cons in Hnd as [Hal Hnd]. rewrite elem_of_app, elem_of_cons in Hal.
  cbn in Hnew. rewrite elem_of_cons in Hnew. split.
  - unfold h'. rewrite !fwd_set_ne by (intros [= ->]; tauto). rewrite Ha. f_equal. by destruct l1.
  - apply IH; [done|done|tauto].
Qed.

(** ** The search *)

Definition below (h : list Node) (k : Z) (a : nat) : Prop := key_of h a < k.
Definition above (h : list Node) (k : Z) (a : nat) : Prop := k <= key_of h a.

Lemma sorted_partition h k L :
  StronglySorted Z.lt (key_of h <$> L) -> exists A B, L = A ++ B /\ Forall (below h k) A /\ Forall (above h k) B.
Proof.
  induction L as [|a L IH]; cbn; [by exists [], []|]. intros [Hs Hf]%StronglySorted_inv.
  destruct (decide (key_of h a < k)) as [Hlt|Hge].
  - destruct (IH Hs) as (A & B & -> & HA & HB). exists (a :: A), B. split_and!; [done|by constructor|done].
  - exists [], (a :: L). split_and!; [done|done|]. constructor; [unfold above; lia|]. rewrite Forall_fmap in Hf.
    eapply Forall_impl; [exact Hf|]. cbn. unfold above. lia.
Qed.

Lemma key_of_lookup h a n : h !! a = Some n -> key_of h a = key n.
Proof. unfold key_of. by intros ->. Qed.

Lemma level_of_lookup h a n : h !! a = Some n -> level_of h a = level n.
Proof. unfold level_of. by intros ->. Qed.

(** All nodes of a list are in the heap. *)
Definition valid (h : list Node) (l : list nat) : Prop := Forall (fun a => exists n, h !! a = Some n) l.

Lemma walk_spec fuel h k i curr p1 p2 :
  links h i (curr :: p1 ++ p2) -> valid h (p1 ++ p2) -> Forall (below h k) p1 -> Forall (above h k) p2 ->
  (length p1 < fuel)%nat -> walk fuel h k i curr = Some (default curr (last p1)).
Proof.
  revert fuel curr. induction p1 as [|b p1 IH]; intros [|fuel] curr Hl Hv H1 H2 Hfuel; try (cbn in *; lia).
  - destruct Hl as [Hc _]. cbn [walk]. rewrite Hc. destruct p2 as [|b p2]; [done|]. cbn.
    apply Forall_cons in Hv as [[n Hn] _]. apply Forall_cons in H2 as [Hb _]. rewrite Hn. cbn.
    unfold above in Hb. rewrite (key_of_lookup _ _ _ Hn) in Hb. by rewrite (proj2 (Z.ltb_ge _ _) Hb).
  - destruct Hl as [Hc Hl]. cbn [walk]. rewrite Hc. cbn [head app mbind option_bind].
    apply Forall_cons in Hv as [[n Hn] Hv]. apply Forall_cons in H1 as [Hb H1]. rewrite Hn. cbn [mbind option_bind].
    unfold below in Hb. rewrite (key_of_lookup _ _ _ Hn) in Hb. rewrite (proj2 (Z.ltb_lt _ _) Hb).
    rewrite (IH fuel b) by (done || cbn in *; lia). f_equal. by destruct p1 as [|c p1 _] using rev_ind; [|rewrite last_cons, last_snoc].
Qed.

(** The last node before [k] on level [i]. *)
Definition pred (h : list Node) (hd i : nat) (A : list nat) : nat := default hd (last (on_level h i A)).

Lemma on_level_app h i A B : on_level h i (A ++ B) = on_level h i A ++ on_level h i B.
Proof. apply filter_app. Qed.

Lemma elem_of_on_level h i a L : a ∈ on_level h i L <-> a ∈ L /\ (i < level_of h a)%nat.
Proof. unfold on_level. rewrite list_elem_of_filter. tauto. Qed.

Lemma pred_split h hd i A : exists p1, hd :: on_level h i A = p1 ++ [pred h hd i A].
Proof.
  unfold pred. destruct (on_level h i A) as [|a l _] using rev_ind; [by exists []|]. exists (hd :: l). by rewrite last_snoc.
Qed.

(** The path enters level [i] at a node of this level. *)
Lemma pred_next h hd i A :
  exists p p1, hd :: on_level h i A = p ++ pred h hd (S i) A :: p1 /\ pred h hd i A = default (pred h hd (S i) A) (last p1).
Proof.
  assert (pred h hd (S i) A ∈ hd :: on_level h i A) as Hin.
  { unfold pred. destruct (last (on_level h (S i) A)) as [a|] eqn:Hl; cbn; apply elem_of_cons; [right|by left].
    apply last_Some_elem_of, elem_of_on_level in Hl as [Ha Hi]. apply elem_of_on_level. split; [done|lia]. }
  apply list_elem_of_split in Hin as (p & p1 & Hp). exists p, p1. split; [done|].
  unfold pred at 1. assert (last (hd :: on_level h i A) = last (p ++ pred h hd (S i) A :: p1)) as Hl by by rewrite Hp.
  rewrite last_app_cons, !last_cons in Hl. destruct (last (on_level h i A)), (last p1); cbn in *; congruence.
Qed.

Section search.
Context (s : t) (L A B : list nat) (k : Z).
Context (HR : repr s L) (HL : L = A ++ B).
Context (HA : Forall (below (heap s) k) A) (HB : Forall (above (heap s) k) B).

Lemma repr_valid : valid (heap s) L.
Proof. apply Forall_forall. intros a (n & Hn & _)%(r_nodes _ _ HR). by exists n. Qed.

Lemma valid_sub l : l ⊆ L -> valid (heap s) l.
Proof. intros Hl. apply Forall_forall. intros a Ha%Hl. by apply (proj1 (Forall_forall _ _) repr_valid). Qed.

Lemma length_L : (length L < length (heap s))%nat.
Proof.
  assert (length (head_ s :: L) <= length (heap s))%nat as H; [|cbn in H; lia].
  rewrite <- (length_seq (length (heap s)) 0). apply submseteq_length, NoDup_submseteq; [apply HR|].
  intros a Ha. apply elem_of_seq. split; [lia|]. apply elem_of_cons in Ha as [->|Ha].
  - destruct (r_head _ _ HR) as (n & Hn & _). by apply lookup_lt_Some in Hn.
  - destruct (r_nodes _ _ HR a Ha) as (n & Hn & _). by apply lookup_lt_Some in Hn.
Qed.

Lemma on_level_sub i l : on_level (heap s) i l ⊆ l.
Proof. intros a [Ha _]%elem_of_on_level. done. Qed.

Lemma level_links i :
  (i < MAX_LEVEL)%nat -> links (heap s) i (head_ s :: on_level (heap s) i A ++ on_level (heap s) i B).
Proof. intros Hi. rewrite <- on_level_app, <- HL. by apply HR. Qed.

Lemma level_walk i :
  (i < MAX_LEVEL)%nat ->
  walk (S (length (heap s))) (heap s) k i (pred (heap s) (head_ s) (S i) A) = Some (pred (heap s) (head_ s) i A).
Proof.
  intros Hi. destruct (pred_next (heap s) (head_ s) i A) as (p & p1 & Hp & ->).
  pose proof (level_links i Hi) as Hl. rewrite app_comm_cons, Hp, <- app_assoc in Hl. apply links_app_l in Hl.
  assert (p1 ⊆ on_level (heap s) i A) as Hsub.
  { intros a Ha. destruct p as [|q p]; injection Hp as _ Hp; [by rewrite Hp|]. rewrite Hp. apply elem_of_app. right.
    apply elem_of_cons. by right. }
  apply (walk_spec _ _ _ _ _ _ (on_level (heap s) i B)); [done|..].
  - apply valid_sub. intros a [Ha%Hsub%on_level_sub|Ha%on_level_sub]%elem_of_app; rewrite HL; apply elem_of_app; auto.
  - apply Forall_forall. intros a Ha%Hsub%on_level_sub. by apply (proj1 (Forall_forall _ _) HA).
  - apply Forall_forall. intros a Ha%on_level_sub. by apply (proj1 (Forall_forall _ _) HB).
  - pose proof length_L. assert (length (head_ s :: on_level (heap s) i A) = length (p ++ pred (heap s) (head_ s) (S i) A :: p1)) as Hlen
      by by rewrite Hp. rewrite length_app in Hlen. cbn in Hlen.
    pose proof (length_filter (fun a => (i < level_of (heap s) a)%nat) A) as Hf. unfold on_level in Hlen.
    rewrite HL, length_app in *. lia.
Qed.

Lemma descend_spec j update :
  (j <= MAX_LEVEL)%nat ->
  exists update', descend (heap s) k j (pred (heap s) (head_ s) j A) update = Some (pred (heap s) (head_ s) 0 A, update') /\
    length update' = length update /\
    (forall i, (i < j)%nat -> (i < length update)%nat -> update' !! i = Some (Some (pred (heap s) (head_ s) i A))) /\
    (forall i, (j <= i)%nat -> update' !! i = update !! i).
Proof.
  revert update. induction j as [|j IH]; intros update Hj; [by exists update; split_and!; [..|lia|]|].
  cbn [descend]. rewrite level_walk by lia. cbn [mbind option_bind].
  destruct (IH (<[j := Some (pred (heap s) (head_ s) j A)]> update) ltac:(lia)) as (u & -> & Hlen & Hlt & Hge).
  rewrite length_insert in *. exists u. split_and!; [done|done|..].
  - intros i Hi Hiu. destruct (decide (i = j)) as [->|]; [|apply Hlt; lia]. rewrite Hge by lia. by apply list_lookup_insert_eq.
  - intros i Hi. rewrite Hge by lia. apply list_lookup_insert_ne. lia.
Qed.

Lemma pred_top i : (current_level_ s <= i)%nat -> pred (heap s) (head_ s) i A = head_ s.
Proof.
  intros Hi. unfold pred. destruct (last _) as [a|] eqn:Hl; [|done]. apply last_Some_elem_of, elem_of_on_level in Hl as [Ha Hlv].
  destruct (r_nodes _ _ HR a) as (n & Hn & _ & Hle); [rewrite HL; apply elem_of_app; by left|].
  rewrite (level_of_lookup _ _ _ Hn) in Hlv. lia.
Qed.

Lemma on_level_all l : l ⊆ L -> on_level (heap s) 0 l = l.
Proof.
  intros Hl. apply filter_all. apply Forall_forall. intros a Ha%Hl.
  destruct (r_nodes _ _ HR a Ha) as (n & Hn & _ & Hle). rewrite (level_of_lookup _ _ _ Hn). lia.
Qed.

Lemma sub_A : A ⊆ L.
Proof. intros a Ha. rewrite HL. apply elem_of_app. by left. Qed.

Lemma sub_B : B ⊆ L.
Proof. intros a Ha. rewrite HL. apply elem_of_app. by right. Qed.

Lemma pred_fwd i : (i < MAX_LEVEL)%nat -> fwd (heap s) (pred (heap s) (head_ s) i A) i = Some (head (on_level (heap s) i B)).
Proof.
  intros Hi. destruct (pred_split (heap s) (head_ s) i A) as (p & Hp).
  pose proof (level_links i Hi) as Hl. rewrite app_comm_cons, Hp, <- app_assoc in Hl. by apply links_at in Hl.
Qed.

(** The search ends in front of [B]. *)
Lemma hit_spec :
  hit (heap s) k (pred (heap s) (head_ s) 0 A) =
    Some (match B with
          | b :: _ => match heap s !! b with Some n => if key n =? k then Some (b, n) else None | None => None end
          | [] => None
          end).
Proof.
  unfold hit. rewrite pred_fwd by (unfold MAX_LEVEL; lia). rewrite (on_level_all B sub_B).
  destruct B as [|b B'] eqn:HBe; [done|]. cbn [head mbind option_bind].
  destruct (r_nodes _ _ HR b) as (n & Hn & _); [rewrite HL; apply elem_of_app; right; apply elem_of_cons; by left|]. by rewrite Hn.
Qed.
End search.

Lemma search_ok s L k :
  repr s L -> exists A B, L = A ++ B /\ Forall (below (heap s) k) A /\ Forall (above (heap s) k) B.
Proof. intros HR. apply sorted_partition, HR. Qed.

(** ** The map of a list of nodes *)

Lemma pair_of_lookup h a n : h !! a = Some n -> pair_of h a = (key n, value n).
Proof. unfold pair_of. by intros ->. Qed.

Lemma fst_pair_of h L : (pair_of h <$> L).*1 = key_of h <$> L.
Proof.
  rewrite <- list_fmap_compose. apply list_fmap_ext. intros i a _. unfold compose, pair_of, key_of. by destruct (h !! a).
Qed.

Lemma map_of_None h L k : Forall (fun a => key_of h a <> k) L -> map_of h L !! k = None.
Proof.
  intros Hf. apply not_elem_of_list_to_map_1. rewrite fst_pair_of. intros (a & -> & Ha)%list_elem_of_fmap.
  rewrite Forall_forall in Hf. by apply (Hf a).
Qed.

Lemma map_of_app h A B : map_of h (A ++ B) = map_of h A ∪ map_of h B.
Proof. unfold map_of. by rewrite fmap_app, list_to_map_app. Qed.

Lemma below_None h k A : Forall (below h k) A -> map_of h A !! k = None.
Proof. intros HA. apply map_of_None. eapply Forall_impl; [exact HA|]. unfold below. cbn. lia. Qed.

(** Only the head of [B] can have the key. *)
Lemma above_None h k B :
  StronglySorted Z.lt (key_of h <$> B) -> Forall (above h k) B -> (forall b B', B = b :: B' -> key_of h b <> k) ->
  map_of h B !! k = None.
Proof.
  intros Hs HB Hne. apply map_of_None. destruct B as [|b B]; [done|]. specialize (Hne b B eq_refl).
  apply Forall_cons in HB as [Hb _]. cbn in Hs. apply StronglySorted_inv in Hs as [_ Hf]. rewrite Forall_fmap in Hf.
  constructor; [done|]. eapply Forall_impl; [exact Hf|]. unfold above in *. cbn. lia.
Qed.

Lemma sorted_app_r h A B : StronglySorted Z.lt (key_of h <$> A ++ B) -> StronglySorted Z.lt (key_of h <$> B).
Proof. rewrite fmap_app. apply StronglySorted_app_1_r. Qed.

Lemma get_represents k s m : represents s m -> get k s = Some (m !! k).
Proof.
  intros (L & HR & ->). destruct (search_ok s L k HR) as (A & B & HL & HA & HB). unfold get.
  rewrite <- (pred_top s L A B HR HL (current_level_ s)) at 1 by lia.
  destruct (descend_spec s L A B k HR HL HA HB (current_level_ s) [] ltac:(apply HR)) as (u & -> & _). cbn [mbind option_bind].
  rewrite (hit_spec s L A B k HR HL) by done. cbn [mbind option_bind]. f_equal.
  pose proof (r_sorted _ _ HR) as Hs. rewrite HL in Hs |- *. apply sorted_app_r in Hs.
  rewrite map_of_app, lookup_union, (below_None _ _ _ HA).
  replace (None ∪ map_of (heap s) B !! k) with (map_of (heap s) B !! k) by by destruct (map_of (heap s) B !! k).
  destruct B as [|b B]; [done|]. destruct (r_nodes _ _ HR b) as (n & Hn & _); [rewrite HL; apply elem_of_app; right; apply elem_of_cons; by left|].
  rewrite Hn. destruct (Z.eqb_spec (key n) k) as [Hk|Hk].
  - unfold map_of. cbn. rewrite (pair_of_lookup _ _ _ Hn), Hk. cbn. by rewrite lookup_insert_eq.
  - symmetry. apply above_None; [done|done|]. intros b' B' [= -> ->]. by rewrite (key_of_lookup _ _ _ Hn).
Qed.

(** ** Heaps that differ only in their links *)

Definition skeleton (n : Node) : Z * Z * nat * nat := (key n, value n, level n, length (forward n)).

Definition same_nodes (h h' : list Node) : Prop := forall a, skeleton <$> h' !! a = skeleton <$> h !! a.

Lemma same_nodes_trans h1 h2 h3 : same_nodes h1 h2 -> same_nodes h2 h3 -> same_nodes h1 h3.
Proof. intros H1 H2 a. by rewrite H2, H1. Qed.

Lemma same_nodes_set h a i x : same_nodes h (set_fwd h a i x).
Proof.
  intros b. unfold set_fwd. destruct (decide (a = b)) as [->|Hne]; [|by rewrite list_lookup_alter_ne].
  rewrite list_lookup_alter_eq. destruct (h !! b) as [n|]; [|done]. unfold skeleton. cbn. by rewrite length_insert.
Qed.

Lemma same_nodes_lookup h h' a n :
  same_nodes h h' -> h !! a = Some n ->
  exists n', h' !! a = Some n' /\ key n' = key n /\ value n' = value n /\ level n' = level n /\ length (forward n') = length (forward n).
Proof.
  intros Hs Ha. specialize (Hs a). rewrite Ha in Hs. destruct (h' !! a) as [n'|]; [|done].
  cbn in Hs. injection Hs as H1 H2 H3 H4. by exists n'.
Qed.

Lemma same_nodes_fields h h' a :
  same_nodes h h' -> key_of h' a = key_of h a /\ level_of h' a = level_of h a /\ pair_of h' a = pair_of h a.
Proof.
  intros Hs. specialize (Hs a). unfold key_of, level_of, pair_of.
  destruct (h !! a), (h' !! a); cbn in *; try done. injection Hs as H1 H2 H3 H4. by rewrite H1, H2, H3.
Qed.

Lemma fwd_defined h a i : (exists n, h !! a = Some n /\ (i < length (forward n))%nat) -> exists y, fwd h a i = Some y.
Proof. intros (n & Hn & Hi). unfold fwd. rewrite Hn. by apply lookup_lt_is_Some_2. Qed.

(** ** Linking a node on all its levels *)

Section link.
Context (hd new : nat) (Al Bl : nat -> list nat) (update : list (option nat)) (lvl : nat).
Context (Hfresh : forall j, (j < lvl)%nat -> NoDup (hd :: Al j ++ Bl j) /\ new ∉ (hd :: Al j ++ Bl j)).
Context (Hupd : forall j, (j < lvl)%nat -> update !! j = Some (Some (default hd (last (Al j))))).

Lemma link_level h j y :
  (j < lvl)%nat -> links h j (hd :: Al j ++ Bl j) -> fwd h new j = Some y ->
  let u := default hd (last (Al j)) in
  fwd h u j = Some (head (Bl j)) /\
  links (set_fwd (set_fwd h new j (head (Bl j))) u j (Some new)) j (hd :: Al j ++ new :: Bl j).
Proof.
  intros Hj Hl Hy u. destruct (Hfresh j Hj) as [Hnd Hnew].
  assert (exists p, hd :: Al j = p ++ [u]) as [p Hp].
  { unfold u. destruct (Al j) as [|a l _] using rev_ind; [by exists []|]. exists (hd :: l). by rewrite last_snoc. }
  rewrite app_comm_cons, Hp, <- app_assoc in Hl, Hnd, Hnew. split; [by eapply links_at|].
  rewrite app_comm_cons, Hp, <- app_assoc. by eapply links_insert.
Qed.

Lemma link_spec n i h :
  (i + n = lvl)%nat -> (lvl <= MAX_LEVEL)%nat ->
  (exists nn, h !! new = Some nn /\ length (forward nn) = lvl) ->
  (forall j, (j < i)%nat -> links h j (hd :: Al j ++ new :: Bl j)) ->
  (forall j, (i <= j < MAX_LEVEL)%nat -> links h j (hd :: Al j ++ Bl j)) ->
  exists h', link (seq i n) update new h = Some h' /\ same_nodes h h' /\
    (forall j, (j < lvl)%nat -> links h' j (hd :: Al j ++ new :: Bl j)) /\
    (forall j, (lvl <= j < MAX_LEVEL)%nat -> links h' j (hd :: Al j ++ Bl j)).
Proof.
  revert i h. induction n as [|n IH]; intros i h Hin Hmax (nn & Hnn & Hlen) Hdone Htodo.
  - exists h. split_and!; [done|done|..]; intros j Hj; [apply Hdone; lia|apply Htodo; lia].
  - cbn [seq link]. rewrite Hupd by lia. cbn [mjoin option_join mbind option_bind].
    destruct (fwd_defined h new i) as [y Hy]; [exists nn; split; [done|lia]|].
    destruct (link_level h i y ltac:(lia) (Htodo i ltac:(lia)) Hy) as [Hu Hl]. rewrite Hu. cbn [mbind option_bind].
    set (u := default hd _) in *. set (h1 := set_fwd (set_fwd h new i (head (Bl i))) u i (Some new)) in *.
    assert (same_nodes h h1) as Hs by (eapply same_nodes_trans; apply same_nodes_set).
    destruct (same_nodes_lookup _ _ _ _ Hs Hnn) as (n1 & Hn1 & _ & _ & _ & Hlen1).
    assert (forall j l, j <> i -> links h j l -> links h1 j l) as Hframe.
    { intros j l Hne. apply links_ext. intros a _. unfold h1. by rewrite !fwd_set_ne by congruence. }
    destruct (IH (S i) h1) as (h' & -> & Hs' & Hlo & Hhi); [lia|lia|by exists n1; rewrite Hlen1|..].
    + intros j Hj. destruct (decide (j = i)) as [->|Hne]; [done|]. apply Hframe; [done|]. apply Hdone. lia.
    + intros j Hj. apply Hframe; [lia|]. apply Htodo. lia.
    + exists h'. split_and!; [done|by eapply same_nodes_trans|done|done].
Qed.
End link.

(** ** [put] *)

Lemma on_level_ext h h' i L : (forall a, a ∈ L -> level_of h' a = level_of h a) -> on_level h' i L = on_level h i L.
Proof.
  intros Hl. unfold on_level. induction L as [|a L IH]; [done|]. rewrite !filter_cons.
  rewrite (Hl a) by (apply elem_of_cons; by left). rewrite IH; [done|]. intros b Hb. apply Hl, elem_of_cons. by right.
Qed.

Lemma fmap_ext_in {C} (f g : nat -> C) (L : list nat) : (forall a, a ∈ L -> f a = g a) -> f <$> L = g <$> L.
Proof. intros H. apply list_fmap_ext. intros i a Ha. apply H. by eapply list_elem_of_lookup_2. Qed.

Lemma put_hit s A b B n v :
  repr s (A ++ b :: B) -> Forall (below (heap s) (key n)) A -> heap s !! b = Some n ->
  let s' := mk (<[b := mk_node (key n) v (level n) (forward n)]> (heap s)) (head_ s) (current_level_ s) (size_ s) (byte_size_ s) in
  repr s' (A ++ b :: B) /\ map_of (heap s') (A ++ b :: B) = <[key n := v]> (map_of (heap s) (A ++ b :: B)).
Proof.
  intros HR HA Hb s'. set (n' := mk_node (key n) v (level n) (forward n)).
  assert (forall a, a = b /\ heap s' !! a = Some n' \/ a <> b /\ heap s' !! a = heap s !! a) as Hlook.
  { intros a. unfold s'. cbn [heap]. destruct (decide (a = b)) as [->|Hne]; [left|right]; split; try done.
    - apply list_lookup_insert_eq. by eapply lookup_lt_Some.
    - by rewrite list_lookup_insert_ne. }
  assert (forall a, key_of (heap s') a = key_of (heap s) a /\ level_of (heap s') a = level_of (heap s) a) as Hkl.
  { intros a. unfold key_of, level_of. destruct (Hlook a) as [[-> ->]|[_ ->]]; [by rewrite Hb|done]. }
  assert (forall a i, fwd (heap s') a i = fwd (heap s) a i) as Hfw.
  { intros a i. unfold fwd. destruct (Hlook a) as [[-> ->]|[_ ->]]; [by rewrite Hb|done]. }
  split.
  - destruct HR as [Hh Hnd Hn Hso Hli Hle Hsz]. constructor; try done.
    + destruct Hh as (x & Hx & Hlen). change (head_ s') with (head_ s). destruct (Hlook (head_ s)) as [[He ->]|[_ ->]]; [|by exists x].
      exists n'. split; [done|]. rewrite He in Hx. simplify_eq. done.
    + intros a Ha. destruct (Hn a Ha) as (x & Hx & Hlen & Hlv). destruct (Hlook a) as [[-> ->]|[_ ->]]; [|by exists x].
      exists n'. simplify_eq. done.
    + rewrite (list_fmap_ext _ (key_of (heap s))); [done|]. intros. apply Hkl.
    + intros i Hi. change (head_ s') with (head_ s). rewrite (on_level_ext (heap s)) by (intros; apply Hkl).
      eapply links_ext; [|by apply Hli]. intros a _. apply Hfw.
  - assert (NoDup (A ++ b :: B)) as Hnd by (apply (NoDup_cons_1_2 (head_ s)), HR).
    apply NoDup_app in Hnd as (_ & HAb & [HbB _]%NoDup_cons).
    assert (forall l, b ∉ l -> map_of (heap s') l = map_of (heap s) l) as Hmap.
    { intros l Hl. unfold map_of. f_equal. apply fmap_ext_in. intros a Ha. unfold pair_of.
      destruct (Hlook a) as [[-> _]|[_ ->]]; done. }
    rewrite !(map_of_app _ A). change (map_of ?h (b :: B)) with (<[(pair_of h b).1 := (pair_of h b).2]> (map_of h B)).
    rewrite !Hmap by (done || intros Hx; by apply (HAb b Hx), elem_of_cons; left).
    destruct (Hlook b) as [[_ Hb']|[? _]]; [|done].
    rewrite (pair_of_lookup _ _ _ Hb'), (pair_of_lookup _ _ _ Hb). cbn [fst snd].
    rewrite insert_union_r by by apply below_None. by rewrite insert_insert_eq.
Qed.

Lemma random_level_bounds draws lvl : (1 <= lvl <= MAX_LEVEL)%nat -> (1 <= random_level draws lvl <= MAX_LEVEL)%nat.
Proof.
  revert lvl. induction draws as [|[] draws IH]; cbn [random_level]; intros lvl Hl; [done| |done].
  destruct (Nat.ltb_spec lvl MAX_LEVEL); [apply IH; lia|done].
Qed.

Lemma fill_lookup {C} (x : C) c n u i :
  foldl (fun u i => <[i := x]> u) u (seq c n) !! i =
    if decide (c <= i < c + n)%nat then (if decide (i < length u)%nat then Some x else None) else u !! i.
Proof.
  revert c u. induction n as [|n IH]; intros c u; cbn [seq foldl]; [by rewrite decide_False by lia|].
  rewrite IH, length_insert. repeat case_decide; try lia; try done.
  - assert (i = c) as -> by lia. by apply list_lookup_insert_eq.
  - assert (i = c) as -> by lia. apply lookup_ge_None_2. rewrite length_insert. lia.
  - apply list_lookup_insert_ne. lia.
Qed.

(** The heap after [new Node(key, value, new_level)]. *)
Section put_new.
Context (s : t) (A B : list nat) (k v : Z) (lvl : nat).
Context (HR : repr s (A ++ B)).
Context (HA : Forall (below (heap s) k) A) (HB : Forall (fun a => k < key_of (heap s) a) B).
Context (Hlvl : (1 <= lvl <= MAX_LEVEL)%nat).

Let new : nat := length (heap s).
Let h0 : list Node := heap s ++ [new_Node k v lvl].

Lemma in_heap a : a ∈ head_ s :: A ++ B -> (a < new)%nat.
Proof.
  intros [->|Ha]%elem_of_cons; [destruct (r_head _ _ HR) as (n & Hn & _)|destruct (r_nodes _ _ HR a Ha) as (n & Hn & _)];
    by apply lookup_lt_Some in Hn.
Qed.

Lemma h0_old a : (a < new)%nat -> h0 !! a = heap s !! a.
Proof. intros Ha. by apply lookup_app_l. Qed.

Lemma h0_new : h0 !! new = Some (new_Node k v lvl).
Proof. unfold h0, new. by apply list_lookup_middle. Qed.

Lemma h0_fields a :
  (a < new)%nat ->
  key_of h0 a = key_of (heap s) a /\ level_of h0 a = level_of (heap s) a /\ pair_of h0 a = pair_of (heap s) a /\
  forall i, fwd h0 a i = fwd (heap s) a i.
Proof. intros Ha. unfold key_of, level_of, pair_of, fwd. by rewrite h0_old. Qed.

Lemma h0_links i : (i < MAX_LEVEL)%nat -> links h0 i (head_ s :: on_level (heap s) i A ++ on_level (heap s) i B).
Proof.
  intros Hi. rewrite <- on_level_app. eapply links_ext; [|by apply HR]. intros a Ha. apply h0_fields, in_heap.
  apply elem_of_cons in Ha as [->|Ha%on_level_sub]; apply elem_of_cons; auto.
Qed.

Lemma level_fresh i :
  NoDup (head_ s :: on_level (heap s) i A ++ on_level (heap s) i B) /\
  new ∉ (head_ s :: on_level (heap s) i A ++ on_level (heap s) i B).
Proof.
  rewrite <- on_level_app. pose proof (r_nodup _ _ HR) as Hnd. split.
  - apply NoDup_cons in Hnd as [Hh Hnd]. apply NoDup_cons. split; [|by apply NoDup_filter].
    intros Hx%on_level_sub. done.
  - intros Hx. assert (new < new)%nat; [|lia]. apply in_heap. apply elem_of_cons in Hx as [->|Hx%on_level_sub]; apply elem_of_cons; auto.
Qed.

(** On its levels the new node stands between [A] and [B]. *)
Lemma linked_on_level h' i :
  same_nodes h0 h' ->
  on_level h' i (A ++ new :: B) =
    on_level (heap s) i A ++ (if decide (i < lvl)%nat then [new] else []) ++ on_level (heap s) i B.
Proof.
  intros Hs. assert (forall l, l ⊆ A ++ B -> on_level h' i l = on_level (heap s) i l) as Hsub.
  { intros l Hl. apply on_level_ext. intros a Ha%Hl. rewrite (proj1 (proj2 (same_nodes_fields _ _ a Hs))).
    apply h0_fields, in_heap, elem_of_cons. by right. }
  rewrite on_level_app, (Hsub A) by (intros a Ha; apply elem_of_app; by left). f_equal.
  change (new :: B) with ([new] ++ B). rewrite on_level_app, (Hsub B) by (intros a Ha; apply elem_of_app; by right). f_equal.
  assert (level_of h' new = lvl) as Hl.
  { rewrite (proj1 (proj2 (same_nodes_fields _ _ new Hs))). by rewrite (level_of_lookup _ _ _ h0_new). }
  unfold on_level. rewrite filter_cons, Hl. by case_decide.
Qed.

Lemma new_repr h' bs :
  same_nodes h0 h' ->
  (forall j, (j < lvl)%nat -> links h' j (head_ s :: on_level (heap s) j A ++ new :: on_level (heap s) j B)) ->
  (forall j, (lvl <= j < MAX_LEVEL)%nat -> links h' j (head_ s :: on_level (heap s) j A ++ on_level (heap s) j B)) ->
  let s' := mk h' (head_ s) (Nat.max (current_level_ s) lvl) (size_ s +64 1) bs in
  repr s' (A ++ new :: B) /\ map_of h' (A ++ new :: B) = <[k := v]> (map_of (heap s) (A ++ B)).
Proof.
  intros Hs Hlo Hhi s'.
  assert (forall a, a ∈ A ++ B -> key_of h' a = key_of (heap s) a /\ pair_of h' a = pair_of (heap s) a) as Hold.
  { intros a Ha. destruct (same_nodes_fields _ _ a Hs) as (-> & _ & ->).
    destruct (h0_fields a) as (-> & _ & -> & _); [apply in_heap, elem_of_cons; by right|done]. }
  destruct (same_nodes_lookup _ _ _ _ Hs h0_new) as (nn & Hnn & Hk & Hv & Hl & Hf). cbn in Hk, Hv, Hl, Hf.
  rewrite length_replicate in Hf.
  assert (A ⊆ A ++ B /\ B ⊆ A ++ B) as [HsA HsB] by (split; intros a Ha; apply elem_of_app; auto).
  assert (forall a, a ∈ A ++ new :: B <-> a = new \/ a ∈ A ++ B) as Hin.
  { intros a. rewrite !elem_of_app, elem_of_cons. tauto. }
  assert (key_of h' <$> A = key_of (heap s) <$> A) as HkA by (apply fmap_ext_in; intros a Ha%HsA; by apply Hold).
  assert (key_of h' <$> B = key_of (heap s) <$> B) as HkB by (apply fmap_ext_in; intros a Ha%HsB; by apply Hold).
  split.
  - destruct HR as [Hh Hnd Hn Hso Hli Hle Hsz]. constructor; unfold s'; cbn [heap head_ current_level_ size_].
    + destruct Hh as (x & Hx & Hlen). rewrite <- (h0_old (head_ s)) in Hx by (apply in_heap, elem_of_cons; by left).
      destruct (same_nodes_lookup _ _ _ _ Hs Hx) as (x' & Hx' & _ & _ & _ & Hl'). exists x'. by rewrite Hl'.
    + assert (head_ s :: A ++ new :: B ≡ₚ new :: head_ s :: A ++ B) as -> by by rewrite <- Permutation_middle, Permutation_swap.
      apply NoDup_cons. split; [|done]. intros Hx%in_heap. lia.
    + intros a [->|Ha]%Hin; [exists nn; split_and!; [done|lia..]|].
      destruct (Hn a Ha) as (x & Hx & Hlen & Hlv). rewrite <- (h0_old a) in Hx by (apply in_heap, elem_of_cons; by right).
      destruct (same_nodes_lookup _ _ _ _ Hs Hx) as (x' & Hx' & _ & _ & Hl' & Hf'). exists x'. split_and!; [done|congruence|lia..].
    + rewrite fmap_app, fmap_cons, HkA, HkB, (key_of_lookup _ _ _ Hnn), Hk. rewrite fmap_app in Hso.
      apply StronglySorted_app in Hso as (Hab & HsoA & HsoB). rewrite Forall_forall in HA, HB.
      apply StronglySorted_app_2; [|done|constructor; [done|]].
      * intros x1 x2 Hx1 [->|Hx2]%elem_of_cons; [|by apply Hab]. apply list_elem_of_fmap in Hx1 as (a & -> & Ha). by apply HA.
      * apply Forall_fmap, Forall_forall. intros a Ha. by apply HB.
    + intros j Hj. rewrite (linked_on_level h' j Hs). case_decide as Hd; [by apply Hlo|]. apply Hhi. lia.
    + lia.
    + rewrite Hsz, wrap_add_l. f_equal. rewrite !length_app. cbn [length]. lia.
  - rewrite !map_of_app. change (map_of h' (new :: B)) with (<[(pair_of h' new).1 := (pair_of h' new).2]> (map_of h' B)).
    rewrite (pair_of_lookup _ _ _ Hnn), Hk, Hv. cbn [fst snd].
    assert (map_of h' A = map_of (heap s) A) as -> by (unfold map_of; f_equal; apply fmap_ext_in; intros a Ha%HsA; by apply Hold).
    assert (map_of h' B = map_of (heap s) B) as -> by (unfold map_of; f_equal; apply fmap_ext_in; intros a Ha%HsB; by apply Hold).
    by rewrite insert_union_r by by apply below_None.
Qed.
End put_new.

(** The path of the search, completed by the head for new levels. *)
Lemma update_path s L A B lvl u :
  repr s L -> L = A ++ B -> (lvl <= MAX_LEVEL)%nat -> length u = MAX_LEVEL ->
  (forall i, (i < current_level_ s)%nat -> (i < MAX_LEVEL)%nat -> u !! i = Some (Some (pred (heap s) (head_ s) i A))) ->
  let cur := current_level_ s in
  let u' := if (cur <? lvl)%nat then foldl (fun u i => <[i := Some (head_ s)]> u) u (seq cur (lvl - cur)) else u in
  forall j, (j < lvl)%nat -> u' !! j = Some (Some (pred (heap s) (head_ s) j A)).
Proof.
  intros HR HL Hlvl Hlen Hu cur u' j Hj. unfold u', cur. destruct (Nat.ltb_spec (current_level_ s) lvl) as [Hlt|Hge]; [|apply Hu; lia].
  rewrite fill_lookup, Hlen. destruct (decide (current_level_ s <= j < current_level_ s + (lvl - current_level_ s))%nat) as [Hr|Hr].
  - rewrite decide_True by lia. by rewrite (pred_top s L A B HR HL) by lia.
  - apply Hu; lia.
Qed.

Lemma put_new_represents s L A B draws k v u :
  repr s L -> L = A ++ B -> Forall (below (heap s) k) A -> Forall (fun a => k < key_of (heap s) a) B -> length u = MAX_LEVEL ->
  (forall i, (i < current_level_ s)%nat -> (i < MAX_LEVEL)%nat -> u !! i = Some (Some (pred (heap s) (head_ s) i A))) ->
  exists s', put_new draws k v u s = Some s' /\ represents s' (<[k := v]> (map_of (heap s) L)).
Proof.
  intros HR HL HA HB Hlen Hu. unfold put_new. pose proof (random_level_bounds draws 1 ltac:(unfold MAX_LEVEL; lia)) as Hlvl.
  set (lvl := random_level draws 1) in *. pose proof (update_path s L A B lvl u HR HL ltac:(lia) Hlen Hu) as Hpath. cbv zeta in Hpath.
  set (u' := if (current_level_ s <? lvl)%nat then _ else u) in *. rewrite HL in *.
  destruct (link_spec (head_ s) (length (heap s)) (fun j => on_level (heap s) j A) (fun j => on_level (heap s) j B) u' lvl
    (fun j _ => level_fresh s A B lvl HR Hlvl j) Hpath lvl 0 (heap s ++ [new_Node k v lvl])) as (h' & -> & Hs & Hlo & Hhi).
  - lia.
  - lia.
  - eexists. split; [by apply list_lookup_middle|apply length_replicate].
  - lia.
  - intros j Hj. apply h0_links; [done|lia].
  - cbn [mbind option_bind]. eexists. split; [done|].
    destruct (new_repr s A B k v lvl HR HA HB Hlvl h' (byte_size_ s +64 (sizeof_Node +64 (Z.of_nat lvl *64 8))) Hs Hlo Hhi) as [HR' Hm].
    by eexists.
Qed.

Lemma put_represents draws k v s m :
  represents s m -> exists s', put draws k v s = Some s' /\ represents s' (<[k := v]> m).
Proof.
  intros (L & HR & ->). destruct (search_ok s L k HR) as (A & B & HL & HA & HB). unfold put.
  destruct (descend_spec s L A B k HR HL HA HB (current_level_ s) (replicate MAX_LEVEL None) ltac:(apply HR)) as (u & Hd & Hlen & Hu & _).
  rewrite (pred_top s L A B HR HL (current_level_ s)) in Hd by lia. rewrite Hd.
  rewrite length_replicate in Hlen, Hu. cbn [mbind option_bind]. rewrite (hit_spec s L A B k HR HL) by done. cbn [mbind option_bind].
  pose proof (r_sorted _ _ HR) as Hs. rewrite HL in Hs. apply sorted_app_r in Hs.
  destruct B as [|b B]; [by eapply put_new_represents|].
  destruct (r_nodes _ _ HR b) as (n & Hn & _); [rewrite HL; apply elem_of_app; right; apply elem_of_cons; by left|].
  rewrite Hn. destruct (Z.eqb_spec (key n) k) as [<-|Hk].
  - subst L. destruct (put_hit s A b B n v HR HA Hn) as [HR' Hm]. eexists. split; [done|]. by eexists.
  - eapply put_new_represents; try done. apply Forall_cons in HB as [Hb HB].
    cbn in Hs. apply StronglySorted_inv in Hs as [_ Hf]. rewrite Forall_fmap in Hf.
    unfold above in *. pose proof (key_of_lookup _ _ _ Hn). constructor; [lia|].
    eapply Forall_impl; [exact Hf|]. cbn. lia.
Qed.

Lemma chain_spec h l fuel :
  links h 0 l -> valid h l -> (length l <= fuel)%nat -> chain fuel h (head l) = Some (pair_of h <$> l).
Proof.
  revert l. induction fuel as [|fuel IH]; intros [|a l] Hl Hv Hlen; try done; [cbn in Hlen; lia|].
  destruct Hl as [Ha Hl]. apply Forall_cons in Hv as [[n Hn] Hv]. cbn [head chain]. rewrite Hn. cbn [mbind option_bind].
  rewrite Ha. cbn [mbind option_bind]. rewrite IH by (done || cbn in Hlen; lia). cbn. by rewrite (pair_of_lookup _ _ _ Hn).
Qed.

Lemma to_vector_represents s m :
  represents s m -> exists l, to_vector s = Some l /\ StronglySorted Z.lt l.*1 /\ list_to_map l = m.
Proof.
  intros (L & HR & ->). exists (pair_of (heap s) <$> L). split_and!; [|rewrite fst_pair_of; apply HR|done].
  destruct (r_links _ _ HR 0) as [Hh Hl]; [unfold MAX_LEVEL; lia|]. unfold to_vector. rewrite Hh. cbn [mbind option_bind].
  rewrite (on_level_all s L HR) in Hl |- * by done.
  apply chain_spec; [done|by eapply repr_valid|]. pose proof (length_L s L HR). lia.
Qed.

Lemma size_represents s m : represents s m -> size s = u64 (Z.of_nat (base.size m)).
Proof.
  intros (L & HR & ->). unfold size. rewrite (r_size _ _ HR). do 2 f_equal. unfold map_of.
  rewrite map_size_list_to_map; [by rewrite length_fmap|]. rewrite fst_pair_of.
  pose proof (r_sorted _ _ HR) as Hs. induction Hs as [|x l _ IH Hf]; constructor; [|done].
  rewrite Forall_forall in Hf. intros Hin%Hf. lia.
Qed.

Lemma empty_represents : represents SkipListMemTable ∅.
Proof.
  exists []. split; [|done]. constructor; cbn; try done.
  - by eexists.
  - apply NoDup_singleton.
  - by intros a Ha%elem_of_nil.
  - constructor.
  - intros i Hi. split; [|done]. apply (lookup_replicate_2 MAX_LEVEL None i). done.
  - unfold MAX_LEVEL. lia.
Qed.

#[global] Instance skiplist_memtable : MemTable t represents := {|
  mt_empty := SkipListMemTable; mt_put := put; mt_get := get; mt_to_vector := to_vector; mt_size := size; mt_byte_size := byte_size;
  mt_empty_repr := empty_represents; mt_put_repr := put_represents; mt_get_repr := get_represents;
  mt_to_vector_repr := to_vector_represents; mt_size_repr := size_represents |}.

(** ** Histories *)

(** Insertions in order, each with its random draws. *)
Definition puts (ops : list (list bool * Z * Z)) : option t :=
  foldl (fun s '(draws, k, v) => s ≫= put draws k v) (Some SkipListMemTable) ops.

Definition abstract (ops : list (list bool * Z * Z)) : gmap Z Z :=
  foldl (fun m '(_, k, v) => <[k := v]> m) ∅ ops.

Lemma puts_represents ops : exists s, puts ops = Some s /\ represents s (abstract ops).
Proof.
  induction ops as [|[[draws k] v] ops (s & Hs & HR)] using rev_ind; [by exists SkipListMemTable; split; [|apply empty_represents]|].
  destruct (put_represents draws k v s _ HR) as (s' & Hs' & HR'). exists s'.
  unfold puts, abstract in *. rewrite !foldl_app, Hs. done.
Qed.

(** C29. The skip list refines a finite map.  For any insertions and any outcome
    of the random levels every operation terminates without an access outside
    of a forward vector; then [get] is the lookup of the last value put under
    the key, [to_vector] lists the map strictly ordered by key, and [size] is
    the number of keys. *)
Theorem skiplist_refines ops :
  exists s, puts ops = Some s /\
    (forall k, get k s = Some (abstract ops !! k)) /\
    (exists l, to_vector s = Some l /\ StronglySorted Z.lt l.*1 /\ list_to_map l = abstract ops) /\
    size s = u64 (Z.of_nat (base.size (abstract ops))).
Proof.
  destruct (puts_represents ops) as (s & Hs & HR). exists s. split_and!; [done|..].
  - intros k. by apply get_represents.
  - by apply to_vector_represents.
  - by apply size_represents.
Qed.
End SkipList.
