(* ===== verification/SSTable.v ===== *)
(** * Sorted string tables

    Model of [SSTable] (08-database-indexing, sstable.hpp): the file of data
    blocks, block index, Bloom filter words and footer, byte for byte, and the
    lookup that searches it.  Parameters are what the environment decides: the
    success of [open], the number of bytes each [write] transfers, and the
    indeterminate padding bytes of the footer.

    The theorem is the round trip: a table built from sorted pairs opens again
    and answers every lookup like the map of the pairs. *)

From S2P Require Import Prelude Bytes Bloom.

#[local] Open Scope Z_scope.
#[local] Open Scope cpp_scope.

Module SST.

Record BlockIndexEntry := mk_entry { last_key : Z; offset : Z; count : Z }.

Definition sizeof_Pair : Z := 16.
Definition sizeof_BlockIndexEntry : Z := 24.
Definition RECORDS_PER_BLOCK : nat := 128.

(** [struct Footer]: four bytes of padding follow the magic number. *)
Definition MAGIC : Z := 0x53535431.
Definition sizeof_Footer : nat := 48.

Record Footer := mk_footer {
  magic : Z; index_offset : Z; index_count : Z; bloom_offset : Z; bloom_num_bits : Z; bloom_num_hashes : Z }.

(** ** Memory images *)

Definition pair_bytes (p : Z * Z) : list Z := le_encode 8 p.1 ++ le_encode 8 p.2.

Definition entry_bytes (e : BlockIndexEntry) : list Z :=
  le_encode 8 (last_key e) ++ le_encode 8 (offset e) ++ le_encode 8 (count e).

Definition footer_bytes (pad : list Z) (f : Footer) : list Z :=
  le_encode 4 (magic f) ++ pad ++ le_encode 8 (index_offset f) ++ le_encode 8 (index_count f) ++
  le_encode 8 (bloom_offset f) ++ le_encode 8 (bloom_num_bits f) ++ le_encode 8 (bloom_num_hashes f).

Definition parse_pair (m : list Z) (j : nat) : Z * Z := (load_le 8 (16 * j) m, load_le 8 (16 * j + 8) m).

Definition parse_entry (m : list Z) (j : nat) : BlockIndexEntry :=
  mk_entry (load_le 8 (24 * j) m) (load_le 8 (24 * j + 8) m) (load_le 8 (24 * j + 16) m).

Definition parse_footer (m : list Z) : Footer :=
  mk_footer (load_le 4 0 m) (load_le 8 8 m) (load_le 8 16 m) (load_le 8 24 m) (load_le 8 32 m) (load_le 8 40 m).

(** ** [build] *)

(** [wr n bs] is the number of bytes that the [n]-th [write], of [bs], puts into
    the file; the results are ignored. *)
Definition append (wr : nat -> list Z -> nat) (n : nat) (bs file : list Z) : list Z := file ++ take (wr n bs) bs.

(** The loop over the blocks; [fuel] is the number of records. *)
Fixpoint build_blocks (fuel : nat) (wr : nat -> list Z -> nat) (n : nat) (pairs : list (Z * Z))
    (current_offset : Z) (index : list BlockIndexEntry) (file : list Z) : Z * list BlockIndexEntry * list Z * nat :=
  match fuel, pairs with
  | S fuel, _ :: _ =>
      let chunk := take RECORDS_PER_BLOCK pairs in
      let bytes_to_write := Z.of_nat (length chunk) *64 sizeof_Pair in
      let entry := mk_entry (default 0 (fst <$> last chunk)) current_offset (Z.of_nat (length chunk)) in
      build_blocks fuel wr (S n) (drop RECORDS_PER_BLOCK pairs) (current_offset +64 bytes_to_write)
        (index ++ [entry]) (append wr n (concat (pair_bytes <$> chunk)) file)
  | _, _ => (current_offset, index, file, n)
  end.

(** What [build] writes into the empty file. *)
Definition build_file (m_of : Z -> Z) (k_of : Z -> Z -> Z) (pad : list Z) (wr : nat -> list Z -> nat)
    (pairs : list (Z * Z)) : list Z :=
  let bloom := foldl Bloom.add (Bloom.BloomFilter m_of k_of (Z.of_nat (length pairs))) pairs.*1 in
  let '(index_offset, index, file, n) := build_blocks (length pairs) wr 0 pairs 0 [] [] in
  let file := append wr n (concat (entry_bytes <$> index)) file in
  let bloom_offset := index_offset +64 (Z.of_nat (length index) *64 sizeof_BlockIndexEntry) in
  let file := append wr (S n) (concat (le_encode 8 <$> Bloom.raw_bits bloom)) file in
  let footer := mk_footer MAGIC index_offset (Z.of_nat (length index)) bloom_offset
                  (Bloom.num_bits bloom) (Bloom.num_hashes bloom) in
  append wr (S (S n)) (footer_bytes pad footer) file.

(** The result and the content of the file; a file that is opened is truncated
    and written anew, [old] stays otherwise. *)
Definition build (m_of : Z -> Z) (k_of : Z -> Z -> Z) (pad : list Z) (opened : bool) (wr : nat -> list Z -> nat)
    (pairs : list (Z * Z)) (old : list Z) : bool * list Z :=
  if bool_decide (pairs = []) then (false, old) else
  if negb opened then (false, old) else
  (true, build_file m_of k_of pad wr pairs).

(** ** [open] *)

Record t := mk { file : list Z; bloom_ : Bloom.t; index_ : list BlockIndexEntry }.

(** [pread] into a zeroed buffer of [n] bytes; an offset that is negative as an
    [off_t] is an error and reads nothing. *)
Definition read_at (off : Z) (n : nat) (content : list Z) : list Z :=
  let bytes := if off <? 2 ^ 63 then pread (Z.to_nat off) n content else [] in
  bytes ++ replicate (n - length bytes) 0.

Definition open (opened : bool) (content : list Z) : option t :=
  if negb opened then None else
  if (length content <? sizeof_Footer)%nat then None else
  let footer := parse_footer (pread (length content - sizeof_Footer) sizeof_Footer content) in
  if negb (magic footer =? MAGIC) then None else
  let index_buf := read_at (index_offset footer) (Z.to_nat (index_count footer *64 sizeof_BlockIndexEntry)) content in
  let bloom_words := Z.to_nat ((bloom_num_bits footer +64 63) / 64) in
  let bloom_buf := read_at (bloom_offset footer) (8 * bloom_words) content in
  Some (mk content
          (Bloom.mk (bloom_num_bits footer) (bloom_num_hashes footer)
             ((fun j => load_le 8 (8 * j) bloom_buf) <$> seq 0 bloom_words))
          (parse_entry index_buf <$> seq 0 (Z.to_nat (index_count footer)))).

(** ** [get] *)

(** The binary search for the first block whose last key is not below [key]. *)
Fixpoint find_block (fuel : nat) (index : list BlockIndexEntry) (key : Z) (low high block_idx : nat) : option nat :=
  match fuel with
  | O => None
  | S fuel =>
      if (low <? high)%nat then
        let mid := (low + (high - low) / 2)%nat in
        e ← index !! mid;
        if key <=? last_key e then find_block fuel index key low mid mid
        else find_block fuel index key (S mid) high block_idx
      else Some block_idx
  end.

Definition read_block (content : list Z) (e : BlockIndexEntry) : list (Z * Z) :=
  parse_pair (read_at (offset e) (Z.to_nat (count e *64 sizeof_Pair)) content) <$> seq 0 (Z.to_nat (count e)).

(** The outer option is a failed search; the inner one is the [bool] result with
    the value of [out_val]. *)
Definition get (key : Z) (s : t) : option (option Z) :=
  if negb (Bloom.contains (bloom_ s) key) then Some None else
  let n := length (index_ s) in
  block_idx ← find_block (S n) (index_ s) key 0 n n;
  match index_ s !! block_idx with
  | None => Some None
  | Some e =>
      let records := read_block (file s) e in
      Some (match records !! lower_bound key records.*1 with
            | Some (k, v) => if k =? key then Some v else None
            | None => None
            end)
  end.

(** ** Arrays of fixed-size records *)

Lemma concat_record {A} (f : A -> list Z) (sz : nat) (l : list A) j x :
  (forall y, length (f y) = sz) -> l !! j = Some x ->
  exists pre post, concat (f <$> l) = pre ++ f x ++ post /\ length pre = (sz * j)%nat.
Proof.
  intros Hsz Hj. rewrite <- (take_drop_middle l j x Hj), fmap_app, fmap_cons, concat_app. cbn [concat].
  eexists _, _. split; [done|]. apply lookup_lt_Some in Hj.
  assert (forall l', length (concat (f <$> l')) = (sz * length l')%nat) as Hc.
  { induction l' as [|y l' IH]; cbn; [lia|]. rewrite length_app, Hsz, IH. lia. }
  rewrite Hc, length_take. lia.
Qed.

Lemma length_concat_record {A} (f : A -> list Z) (sz : nat) (l : list A) :
  (forall y, length (f y) = sz) -> length (concat (f <$> l)) = (sz * length l)%nat.
Proof. intros Hsz. induction l as [|y l IH]; cbn; [lia|]. rewrite length_app, Hsz, IH. lia. Qed.

Lemma load_le_skip n off (pre m : list Z) k : length pre = k -> load_le n (k + off) (pre ++ m) = load_le n off m.
Proof. intros <-. unfold load_le. by rewrite sub_bytes_app_r. Qed.

Lemma fmap_seq_lookup {A} (g : nat -> A) (l : list A) :
  (forall j x, l !! j = Some x -> g j = x) -> g <$> seq 0 (length l) = l.
Proof.
  intros H. apply list_eq. intros j. rewrite list_lookup_fmap. destruct (l !! j) as [x|] eqn:Hj.
  - rewrite lookup_seq_lt by (by eapply lookup_lt_Some). cbn. f_equal. by apply H.
  - rewrite lookup_seq_ge; [done|]. by apply lookup_ge_None_1.
Qed.

Definition is_u64 (x : Z) : Prop := 0 <= x < 2 ^ 64.
Definition pair_ok (p : Z * Z) : Prop := is_u64 p.1 /\ is_u64 p.2.
Definition entry_ok (e : BlockIndexEntry) : Prop := is_u64 (last_key e) /\ is_u64 (offset e) /\ is_u64 (count e).

Lemma length_pair_bytes p : length (pair_bytes p) = 16%nat.
Proof. unfold pair_bytes. by rewrite length_app, !length_le_encode. Qed.

Lemma length_entry_bytes e : length (entry_bytes e) = 24%nat.
Proof. unfold entry_bytes. by rewrite !length_app, !length_le_encode. Qed.

(** Reading the fields of a record that starts at 0. *)
Ltac load_fields :=
  repeat first [rewrite load_le_app_here by (cbn; done) | rewrite load_le_app_skip by lia; cbn [Nat.sub]].

Lemma parse_pairs l rest :
  Forall pair_ok l -> parse_pair (concat (pair_bytes <$> l) ++ rest) <$> seq 0 (length l) = l.
Proof.
  intros Hok. apply fmap_seq_lookup. intros j [k v] Hj. pose proof (Forall_lookup_1 _ _ _ _ Hok Hj) as [Hk Hv].
  destruct (concat_record pair_bytes 16 l j _ length_pair_bytes Hj) as (pre & post & -> & Hpre).
  unfold parse_pair, pair_bytes. cbn [fst snd] in *. rewrite <- !app_assoc.
  rewrite <- (Nat.add_0_r (16 * j)) at 1. rewrite !load_le_skip by done. load_fields. done.
Qed.

Lemma parse_entries l rest :
  Forall entry_ok l -> parse_entry (concat (entry_bytes <$> l) ++ rest) <$> seq 0 (length l) = l.
Proof.
  intros Hok. apply fmap_seq_lookup. intros j e Hj. pose proof (Forall_lookup_1 _ _ _ _ Hok Hj) as (Hk & Ho & Hc).
  destruct (concat_record entry_bytes 24 l j _ length_entry_bytes Hj) as (pre & post & -> & Hpre).
  unfold parse_entry, entry_bytes. rewrite <- !app_assoc.
  rewrite <- (Nat.add_0_r (24 * j)) at 1. rewrite !load_le_skip by done. load_fields. by destruct e.
Qed.

Lemma parse_words l rest :
  Forall is_u64 l -> (fun j => load_le 8 (8 * j) (concat (le_encode 8 <$> l) ++ rest)) <$> seq 0 (length l) = l.
Proof.
  intros Hok. apply fmap_seq_lookup. intros j w Hj. pose proof (Forall_lookup_1 _ _ _ _ Hok Hj) as Hw.
  destruct (concat_record (le_encode 8) 8 l j _ (length_le_encode 8) Hj) as (pre & post & -> & Hpre).
  rewrite <- !app_assoc, <- (Nat.add_0_r (8 * j)), load_le_skip by done. by load_fields.
Qed.

Lemma parse_footer_bytes pad f :
  length pad = 4%nat -> 0 <= magic f < 2 ^ 32 -> is_u64 (index_offset f) -> is_u64 (index_count f) -> is_u64 (bloom_offset f) ->
  is_u64 (bloom_num_bits f) -> is_u64 (bloom_num_hashes f) -> parse_footer (footer_bytes pad f) = f.
Proof.
  intros Hpad Hm H1 H2 H3 H4 H5. unfold parse_footer, footer_bytes.
  rewrite load_le_app_here by done. rewrite !(load_le_app_skip 8 _ 4) by lia. cbn [Nat.sub].
  assert (forall off m, (4 <= off)%nat -> load_le 8 off (pad ++ m) = load_le 8 (off - 4) m) as Hskip.
  { intros off m Hoff. rewrite <- (load_le_skip 8 (off - 4) pad m 4 Hpad). f_equal. lia. }
  rewrite !Hskip by lia. cbn [Nat.sub]. rewrite <- (app_nil_r (le_encode 8 (bloom_num_hashes f))).
  load_fields. by destruct f.
Qed.

(** ** Blocks *)

(** The blocks of a list of records, and their index entries. *)
Fixpoint chunks (fuel : nat) (pairs : list (Z * Z)) : list (list (Z * Z)) :=
  match fuel, pairs with
  | S fuel, _ :: _ => take RECORDS_PER_BLOCK pairs :: chunks fuel (drop RECORDS_PER_BLOCK pairs)
  | _, _ => []
  end.

Definition chunk_key (c : list (Z * Z)) : Z := default 0 (fst <$> last c).

Fixpoint index_from (cur : Z) (cs : list (list (Z * Z))) : list BlockIndexEntry :=
  match cs with
  | [] => []
  | c :: cs => mk_entry (chunk_key c) cur (Z.of_nat (length c)) :: index_from (cur + 16 * Z.of_nat (length c)) cs
  end.

Definition data_bytes (pairs : list (Z * Z)) : list Z := concat (pair_bytes <$> pairs).

Lemma length_data_bytes pairs : length (data_bytes pairs) = (16 * length pairs)%nat.
Proof. apply length_concat_record, length_pair_bytes. Qed.

Lemma chunks_concat fuel pairs : (length pairs <= fuel)%nat -> concat (chunks fuel pairs) = pairs.
Proof.
  revert pairs. induction fuel as [|fuel IH]; intros [|p pairs] Hf; try done; [cbn in Hf; lia|].
  cbn [chunks concat]. rewrite IH; [apply take_drop|]. rewrite length_drop. unfold RECORDS_PER_BLOCK. cbn in *. lia.
Qed.

Lemma chunks_sizes fuel pairs : Forall (fun c => c <> [] /\ (length c <= 128)%nat) (chunks fuel pairs).
Proof.
  revert pairs. induction fuel as [|fuel IH]; intros [|p pairs]; cbn [chunks]; try done. constructor; [|apply IH].
  split; [done|]. rewrite length_take. unfold RECORDS_PER_BLOCK. lia.
Qed.

Section full_writes.
Context (wr : nat -> list Z -> nat) (Hwr : forall n bs, wr n bs = length bs).

Lemma append_full n bs file : append wr n bs file = file ++ bs.
Proof. unfold append. by rewrite Hwr, firstn_all. Qed.

Lemma build_blocks_spec fuel n pairs cur index file :
  (length pairs <= fuel)%nat -> 0 <= cur -> cur + 16 * Z.of_nat (length pairs) < 2 ^ 64 ->
  build_blocks fuel wr n pairs cur index file =
    (cur + 16 * Z.of_nat (length pairs), index ++ index_from cur (chunks fuel pairs), file ++ data_bytes pairs,
     (n + length (chunks fuel pairs))%nat).
Proof.
  revert n pairs cur index file. induction fuel as [|fuel IH]; intros n [|p pairs] cur index file Hf H0 Hc;
    cbn [build_blocks chunks index_from]; try (cbn in Hf; lia);
    try (cbn; rewrite ?app_nil_r, Z.add_0_r, Nat.add_0_r; done).
  set (l := p :: pairs) in *. assert (length (take RECORDS_PER_BLOCK l) + length (drop RECORDS_PER_BLOCK l) = length l)%nat as Hlen
    by by rewrite <- length_app, take_drop.
  assert (length (drop RECORDS_PER_BLOCK l) < length l)%nat by (rewrite length_drop; unfold l, RECORDS_PER_BLOCK; cbn; lia).
  unfold sizeof_Pair. rewrite !wrap_small by (rewrite ?wrap_small; lia).
  rewrite IH by lia. rewrite append_full. f_equal; [f_equal; [f_equal|]|].
  - lia.
  - rewrite <- app_assoc. cbn. do 3 f_equal. lia.
  - rewrite <- app_assoc. f_equal. unfold data_bytes. by rewrite <- concat_app, <- fmap_app, take_drop.
  - cbn. lia.
Qed.
End full_writes.

Lemma last_key_index cur cs : last_key <$> index_from cur cs = chunk_key <$> cs.
Proof. revert cur. induction cs as [|c cs IH]; intros cur; [done|]. cbn. by rewrite IH. Qed.

Lemma length_index_from cur cs : length (index_from cur cs) = length cs.
Proof. revert cur. induction cs as [|c cs IH]; intros cur; [done|]. cbn. by rewrite IH. Qed.

Lemma index_from_lookup cur cs j c :
  cs !! j = Some c ->
  index_from cur cs !! j =
    Some (mk_entry (chunk_key c) (cur + 16 * Z.of_nat (length (concat (take j cs)))) (Z.of_nat (length c))).
Proof.
  revert cur j. induction cs as [|c' cs IH]; intros cur [|j] Hj; try done; cbn in *.
  - simplify_eq. by rewrite Z.add_0_r.
  - rewrite (IH _ _ Hj). do 2 f_equal. rewrite length_app. lia.
Qed.

(** The keys of a nonempty sorted block are at most its last key. *)
Lemma chunk_key_max c k v : StronglySorted Z.lt c.*1 -> (k, v) ∈ c -> k <= chunk_key c.
Proof.
  unfold chunk_key. destruct c as [|[lk lv] c _] using rev_ind; [by intros _ ?%elem_of_nil|].
  rewrite last_snoc, fmap_app. cbn. intros Hs [Hin|[=-> ->]%list_elem_of_singleton]%elem_of_app; [|lia].
  assert (k < lk); [|lia]. eapply StronglySorted_app_1_elem_of; [exact Hs|..].
  - apply list_elem_of_fmap. by exists (k, v).
  - by apply list_elem_of_singleton.
Qed.

Lemma chunk_key_in c : c <> [] -> exists v, (chunk_key c, v) ∈ c.
Proof.
  unfold chunk_key. destruct c as [|[lk lv] c _] using rev_ind; [done|]. intros _. rewrite last_snoc.
  exists lv. apply elem_of_app. right. by apply list_elem_of_singleton.
Qed.

Lemma map_key_None (l : list (Z * Z)) key :
  (forall k v, (k, v) ∈ l -> k <> key) -> (list_to_map l : gmap Z Z) !! key = None.
Proof. intros H. apply not_elem_of_list_to_map_1. intros ([k v] & -> & Hin)%list_elem_of_fmap. by apply (H k v). Qed.

(** The keys of later blocks are above those of an earlier one. *)
Lemma chunks_order (c : list (Z * Z)) cs (k v k' v' : Z) :
  StronglySorted Z.lt (c ++ concat cs).*1 -> (k, v) ∈ c -> (k', v') ∈ concat cs -> k < k'.
Proof.
  rewrite fmap_app. intros Hs Hk Hk'. eapply StronglySorted_app_1_elem_of; [exact Hs|..]; apply list_elem_of_fmap; [by exists (k, v)|by exists (k', v')].
Qed.

Lemma chunk_keys_sorted cs :
  StronglySorted Z.lt (concat cs).*1 -> Forall (fun c => c <> []) cs -> StronglySorted Z.lt (chunk_key <$> cs).
Proof.
  induction cs as [|c cs IH]; cbn; [constructor|]. intros Hs [Hc Hne]%Forall_cons. constructor.
  - apply IH; [|done]. rewrite fmap_app in Hs. by apply StronglySorted_app_1_r in Hs.
  - apply Forall_fmap, Forall_forall. intros c' Hc'. cbn.
    destruct (chunk_key_in c Hc) as [v Hv], (chunk_key_in c' (proj1 (Forall_forall _ _) Hne c' Hc')) as [v' Hv'].
    eapply chunks_order; [exact Hs|done|]. apply list_elem_of_In, in_concat. exists c'. by rewrite <- !list_elem_of_In.
Qed.

(** The only block that can hold [key] is the first whose last key is not
    below it. *)
Lemma block_lookup cs key :
  StronglySorted Z.lt (concat cs).*1 -> Forall (fun c => c <> []) cs ->
  (list_to_map (concat cs) : gmap Z Z) !! key =
    match cs !! lower_bound key (chunk_key <$> cs) with Some c => (list_to_map c : gmap Z Z) !! key | None => None end.
Proof.
  induction cs as [|c cs IH]; [done|]. cbn [concat fmap list_fmap lower_bound]. intros Hs [Hc Hne]%Forall_cons.
  rewrite list_to_map_app, lookup_union. pose proof Hs as Hs'. rewrite fmap_app in Hs'.
  destruct (Z.ltb_spec (chunk_key c) key) as [Hlt|Hge]; cbn [lookup list_lookup].
  - rewrite (map_key_None c).
    + transitivity ((list_to_map (concat cs) : gmap Z Z) !! key); [by destruct (_ !! key)|].
      apply IH; [by apply StronglySorted_app_1_r in Hs'|done].
    + intros k v Hin%(chunk_key_max c k v); [lia|]. by apply StronglySorted_app_1_l in Hs'.
  - rewrite (map_key_None (concat cs)); [by destruct ((list_to_map c : gmap Z Z) !! key)|]. intros k v Hin.
    destruct (chunk_key_in c Hc) as [w Hw]. pose proof (chunks_order _ _ _ _ _ _ Hs Hw Hin). lia.
Qed.

(** The binary search finds that block. *)
Lemma find_block_spec fuel index key low high :
  StronglySorted Z.lt (last_key <$> index) -> (low <= high <= length index)%nat -> (high - low < fuel)%nat ->
  (forall i e, (i < low)%nat -> index !! i = Some e -> last_key e < key) ->
  (forall e, index !! high = Some e -> key <= last_key e) ->
  find_block fuel index key low high high = Some (lower_bound key (last_key <$> index)).
Proof.
  intros Hs. revert low high. induction fuel as [|fuel IH]; intros low high Hr Hf Hlo Hhi; [lia|]. cbn [find_block].
  destruct (Nat.ltb_spec low high) as [Hlt|Hge].
  - set (mid := (low + (high - low) / 2)%nat).
    assert (low <= mid < high)%nat as Hmid.
    { pose proof (Nat.div_lt (high - low) 2). unfold mid. lia. }
    destruct (lookup_lt_is_Some_2 index mid ltac:(lia)) as [e He]. rewrite He. cbn [mbind option_bind].
    destruct (Z.leb_spec key (last_key e)).
    + apply IH; [lia|lia|done|]. intros e' He'. by simplify_eq.
    + apply IH; [lia|lia| |done]. intros i e' Hi He'. destruct (decide (i = mid)) as [->|]; [by simplify_eq|].
      enough (last_key e' < last_key e) by lia.
      apply (sorted_lookup_lt _ i mid _ _ Hs); [by rewrite list_lookup_fmap, He'|by rewrite list_lookup_fmap, He|lia].
  - assert (low = high) as -> by lia. f_equal. symmetry. apply lower_bound_first.
    + rewrite length_fmap. lia.
    + intros i k Hi. rewrite list_lookup_fmap. intros (e & He & ->)%fmap_Some. by eapply Hlo.
    + intros k. rewrite list_lookup_fmap. intros (e & He & ->)%fmap_Some. by apply Hhi.
Qed.

(** ** The file *)

Lemma read_at_exact off n (pre bs post : list Z) :
  off = Z.of_nat (length pre) -> off < 2 ^ 63 -> n = length bs -> read_at off n (pre ++ bs ++ post) = bs.
Proof.
  intros -> Hlt ->. unfold read_at. rewrite (proj2 (Z.ltb_lt _ _) Hlt). unfold pread. rewrite Nat2Z.id.
  rewrite sub_bytes_app_exact by done. by rewrite Nat.sub_diag, app_nil_r.
Qed.

Lemma length_le_concat {A} (ls : list (list A)) : Forall (fun l => l <> []) ls -> (length ls <= length (concat ls))%nat.
Proof. induction 1 as [|c ls Hc _ IH]; [done|]. cbn. rewrite length_app. destruct c; [done|]. cbn. lia. Qed.

Section table.
Context (m_of : Z -> Z) (k_of : Z -> Z -> Z) (pad : list Z) (wr : nat -> list Z -> nat) (pairs : list (Z * Z)).

(** Every write is complete, the sizes are far from the 64-bit limits, and the
    keys are sorted. *)
Record fits : Prop := {
  f_write : forall n bs, wr n bs = length bs;
  f_pad : length pad = 4%nat;
  f_pairs : Forall pair_ok pairs;
  f_count : Z.of_nat (length pairs) < 2 ^ 40;
  f_bits : Bloom.num_bits_ (Bloom.BloomFilter m_of k_of (Z.of_nat (length pairs))) < 2 ^ 60;
  f_sorted : StronglySorted Z.lt pairs.*1;
  f_nonempty : pairs <> [];
}.
Context (Hf : fits).

Let bloom : Bloom.t := foldl Bloom.add (Bloom.BloomFilter m_of k_of (Z.of_nat (length pairs))) pairs.*1.
Let cs : list (list (Z * Z)) := chunks (length pairs) pairs.
Let index : list BlockIndexEntry := index_from 0 cs.
Let ioff : Z := 16 * Z.of_nat (length pairs).
Let boff : Z := ioff + 24 * Z.of_nat (length index).
Let footer : Footer := mk_footer MAGIC ioff (Z.of_nat (length index)) boff (Bloom.num_bits bloom) (Bloom.num_hashes bloom).

Definition table_bytes : list Z :=
  data_bytes pairs ++ concat (entry_bytes <$> index) ++ concat (le_encode 8 <$> Bloom.raw_bits bloom) ++ footer_bytes pad footer.

Lemma concat_cs : concat cs = pairs.
Proof. by apply chunks_concat. Qed.

Lemma cs_nonempty : Forall (fun c => c <> []) cs.
Proof. eapply Forall_impl; [apply chunks_sizes|]. by intros c [? _]. Qed.

Lemma length_cs : (length cs <= length pairs)%nat.
Proof.
  enough (length cs <= length (concat cs))%nat as H by by rewrite concat_cs in H.
  apply length_le_concat, cs_nonempty.
Qed.

Lemma length_index : length index = length cs.
Proof. apply length_index_from. Qed.

Lemma build_table old : build m_of k_of pad true wr pairs old = (true, table_bytes).
Proof.
  destruct Hf as [Hw Hp _ Hc _ _ Hne]. unfold build. rewrite bool_decide_false by done. cbn [negb]. f_equal. unfold build_file.
  pose proof length_cs as Hcs. pose proof length_index as Hidx.
  rewrite build_blocks_spec by (done || lia). rewrite !append_full by done. cbn [app].
  unfold sizeof_BlockIndexEntry. fold cs index. rewrite !wrap_small by (rewrite ?wrap_small; lia).
  unfold table_bytes. rewrite <- !app_assoc. rewrite Z.add_0_l.
  unfold footer, boff, ioff. by rewrite (Z.mul_comm 24).
Qed.

Lemma bloom_shape :
  0 < Bloom.num_bits bloom < 2 ^ 60 /\ is_u64 (Bloom.num_hashes bloom) /\
  length (Bloom.raw_bits bloom) = Z.to_nat ((Bloom.num_bits bloom +64 63) / 64) /\ Forall is_u64 (Bloom.raw_bits bloom).
Proof.
  pose proof (f_bits Hf) as Hb. unfold bloom, Bloom.num_bits, Bloom.num_hashes, Bloom.raw_bits.
  destruct (Bloom.adds_shape pairs.*1 (Bloom.BloomFilter m_of k_of (Z.of_nat (length pairs)))) as [[-> ->] ->].
  pose proof (Bloom.BloomFilter_wf m_of k_of (Z.of_nat (length pairs)) ltac:(lia)) as Hwf. split_and!.
  - apply Hwf.
  - done.
  - unfold Bloom.BloomFilter. cbn [Bloom.num_hashes_]. apply wrap_range. lia.
  - unfold Bloom.BloomFilter. cbn [Bloom.bits_ Bloom.num_bits_]. apply length_replicate.
  - apply Bloom.adds_words, Bloom.BloomFilter_words.
Qed.

Lemma entries_ok : Forall entry_ok index.
Proof.
  apply Forall_lookup_2. intros j e He. assert (exists c, cs !! j = Some c) as [c Hc].
  { apply lookup_lt_is_Some_2. rewrite <- length_index. by eapply lookup_lt_Some. }
  unfold index in He. rewrite (index_from_lookup _ _ _ _ Hc) in He. injection He as <-.
  assert (c ∈ cs) as Hin by (by eapply list_elem_of_lookup_2).
  destruct (chunk_key_in c) as [v Hv]; [by apply (proj1 (Forall_forall _ _) cs_nonempty)|].
  assert ((chunk_key c, v) ∈ pairs) as Hkv.
  { rewrite <- concat_cs. apply list_elem_of_In, in_concat. exists c. by rewrite <- !list_elem_of_In. }
  pose proof (proj1 (Forall_forall _ _) (f_pairs Hf) _ Hkv) as [Hk _]. pose proof (f_count Hf).
  assert (length (concat (take j cs)) + length c <= length pairs)%nat.
  { enough (length (concat (take j cs)) + length c <= length (concat cs))%nat as Hle by by rewrite concat_cs in Hle.
    rewrite <- (take_drop_middle cs j c Hc) at 2. rewrite concat_app, length_app. cbn. rewrite length_app. lia. }
  split_and!; cbn; [done|..]; unfold is_u64; lia.
Qed.

Lemma length_footer_bytes : length (footer_bytes pad footer) = 48%nat.
Proof. unfold footer_bytes. by rewrite !length_app, !length_le_encode, (f_pad Hf). Qed.

Lemma parse_table_footer :
  parse_footer (pread (length table_bytes - sizeof_Footer) sizeof_Footer table_bytes) = footer.
Proof.
  destruct bloom_shape as (Hnb & Hnh & _ & _). pose proof length_cs. pose proof length_index. pose proof (f_count Hf).
  assert (pread (length table_bytes - sizeof_Footer) sizeof_Footer table_bytes = footer_bytes pad footer) as ->.
  { unfold pread, table_bytes, sizeof_Footer. rewrite !app_assoc. set (pre := (data_bytes pairs ++ _) ++ _).
    pose proof (sub_bytes_app_exact pre (footer_bytes pad footer) [] (length (pre ++ footer_bytes pad footer) - 48) 48) as He.
    rewrite app_nil_r in He. apply He; [|apply length_footer_bytes]. rewrite length_app, length_footer_bytes. lia. }
  unfold footer, boff, ioff. apply parse_footer_bytes; cbn; unfold is_u64 in *; [apply Hf|done|lia..|done].
Qed.

Lemma data_length : Z.of_nat (length (data_bytes pairs)) = ioff.
Proof. rewrite length_data_bytes. unfold ioff. lia. Qed.

Lemma index_length : Z.of_nat (length (concat (entry_bytes <$> index))) = 24 * Z.of_nat (length index).
Proof. rewrite (length_concat_record _ 24) by apply length_entry_bytes. lia. Qed.

Lemma read_table_index :
  read_at ioff (Z.to_nat (Z.of_nat (length index) *64 sizeof_BlockIndexEntry)) table_bytes = concat (entry_bytes <$> index).
Proof.
  pose proof length_cs. pose proof length_index. pose proof (f_count Hf). pose proof index_length as Hil.
  apply read_at_exact; [by rewrite data_length|unfold ioff; lia|].
  unfold sizeof_BlockIndexEntry. rewrite wrap_small; lia.
Qed.

Lemma read_table_bloom :
  read_at boff (8 * length (Bloom.raw_bits bloom)) table_bytes = concat (le_encode 8 <$> Bloom.raw_bits bloom).
Proof.
  pose proof length_cs. pose proof length_index. pose proof (f_count Hf). unfold table_bytes. rewrite app_assoc.
  apply read_at_exact.
  - rewrite length_app, Nat2Z.inj_add, data_length, index_length. done.
  - unfold boff, ioff. lia.
  - by rewrite (length_concat_record _ 8) by apply length_le_encode.
Qed.

Lemma open_table : open true table_bytes = Some (mk table_bytes bloom index).
Proof.
  destruct bloom_shape as (Hnb & Hnh & Hlen & Hwords). unfold open. cbn [negb].
  rewrite (proj2 (Nat.ltb_ge _ _)) by (unfold table_bytes, sizeof_Footer; rewrite !length_app, length_footer_bytes; lia).
  rewrite parse_table_footer. cbn [magic footer index_offset index_count bloom_offset bloom_num_bits bloom_num_hashes].
  change (negb (magic footer =? MAGIC)) with false. cbv iota.
  change (index_offset footer) with ioff. change (index_count footer) with (Z.of_nat (length index)).
  change (bloom_offset footer) with boff. change (bloom_num_bits footer) with (Bloom.num_bits bloom).
  change (bloom_num_hashes footer) with (Bloom.num_hashes bloom).
  rewrite read_table_index, <- Hlen, read_table_bloom, Nat2Z.id.
  rewrite <- (app_nil_r (concat (entry_bytes <$> index))), <- (app_nil_r (concat (le_encode 8 <$> _))).
  rewrite (parse_entries index []) by apply entries_ok. rewrite (parse_words _ []) by done.
  assert (forall b, Bloom.mk (Bloom.num_bits b) (Bloom.num_hashes b) (Bloom.raw_bits b) = b) as Heta by by intros [].
  by rewrite Heta.
Qed.

Lemma read_table_block j c e : cs !! j = Some c -> index !! j = Some e -> read_block table_bytes e = c.
Proof.
  intros Hc He. unfold index in He. rewrite (index_from_lookup _ _ _ _ Hc) in He. injection He as <-.
  unfold read_block. cbn [offset count]. rewrite Nat2Z.id. pose proof (f_count Hf).
  pose proof (take_drop_middle cs j c Hc) as Hsplit.
  assert (pairs = concat (take j cs) ++ c ++ concat (drop (S j) cs)) as Hp.
  { rewrite <- concat_cs, <- Hsplit at 1. by rewrite concat_app. }
  assert (length (concat (take j cs)) + length c <= length pairs)%nat by (rewrite Hp at 1; rewrite !length_app; lia).
  assert (Forall pair_ok c) as Hok.
  { apply Forall_forall. intros p Hin. apply (proj1 (Forall_forall _ _) (f_pairs Hf)). rewrite Hp, !elem_of_app. auto. }
  assert (data_bytes pairs = data_bytes (concat (take j cs)) ++ data_bytes c ++ data_bytes (concat (drop (S j) cs))) as Hd.
  { rewrite Hp at 1. unfold data_bytes. by rewrite !fmap_app, !concat_app. }
  unfold table_bytes. rewrite Hd, <- !app_assoc.
  rewrite read_at_exact.
  - rewrite <- (app_nil_r (data_bytes c)). by apply parse_pairs.
  - rewrite length_data_bytes. lia.
  - lia.
  - rewrite length_data_bytes. unfold sizeof_Pair. rewrite wrap_small by lia. lia.
Qed.

Lemma get_table key : get key (mk table_bytes bloom index) = Some ((list_to_map pairs : gmap Z Z) !! key).
Proof.
  unfold get. cbn [bloom_ index_ file]. pose proof (f_sorted Hf) as Hs.
  assert (last_key <$> index = chunk_key <$> cs) as Hk by apply last_key_index.
  assert (StronglySorted Z.lt (concat cs).*1) as Hsc by by rewrite concat_cs.
  destruct (Bloom.contains bloom key) eqn:Hbl; cbn [negb].
  - rewrite find_block_spec; [|rewrite Hk; by apply chunk_keys_sorted, cs_nonempty|lia|lia|lia|].
    2: { intros e He%lookup_lt_Some. lia. }
    cbn [mbind option_bind]. rewrite Hk, <- concat_cs at 1. rewrite (block_lookup cs key Hsc cs_nonempty).
    destruct (cs !! lower_bound key (chunk_key <$> cs)) as [c|] eqn:Hc.
    + destruct (lookup_lt_is_Some_2 index (lower_bound key (chunk_key <$> cs))) as [e He].
      { rewrite length_index. by eapply lookup_lt_Some. }
      rewrite He, (read_table_block _ _ _ Hc He). f_equal. symmetry. apply lower_bound_lookup.
      rewrite <- (take_drop_middle cs _ c Hc), concat_app in Hsc. cbn in Hsc. rewrite !fmap_app in Hsc.
      by apply StronglySorted_app_1_r, StronglySorted_app_1_l in Hsc.
    + destruct (index !! _) as [e|] eqn:He; [|done]. apply lookup_lt_Some in He. rewrite length_index in He.
      apply lookup_ge_None_1 in Hc. lia.
  - f_equal. symmetry. apply not_elem_of_list_to_map_1. intros Hin.
    enough (Bloom.contains bloom key = true) by congruence.
    apply Bloom.bloom_member; [|done]. pose proof (f_bits Hf). lia.
Qed.
End table.

(** C26. The table round trip.  If the pairs are nonempty, strictly sorted 64-bit
    values and every write is complete, [build] succeeds for every previous
    content of the file, the written file opens, and [get] on the opened table
    returns exactly what the map of the pairs holds, absent keys included. *)
Theorem sst_roundtrip m_of k_of pad wr pairs old :
  fits m_of k_of pad wr pairs ->
  exists file s, build m_of k_of pad true wr pairs old = (true, file) /\ open true file = Some s /\
    forall key, get key s = Some ((list_to_map pairs : gmap Z Z) !! key).
Proof.
  intros Hf. eexists _, _. split; [by apply build_table|]. split; [by eapply open_table|]. intros key. by eapply get_table.
Qed.

(** 130 records in two blocks. *)
Definition ex_pairs : list (Z * Z) := (fun i => (3 * Z.of_nat i, Z.of_nat i + 100)) <$> seq 0 130.

Lemma ex_sorted n i : StronglySorted Z.lt ((fun i => (3 * Z.of_nat i, Z.of_nat i + 100)) <$> seq i n).*1.
Proof.
  revert i. induction n as [|n IH]; intros i; cbn; constructor; [apply IH|].
  apply Forall_forall. intros k (p & -> & (j & -> & Hj%elem_of_seq)%list_elem_of_fmap)%list_elem_of_fmap. cbn. lia.
Qed.

Lemma ex_fits : fits Bloom.ex_m Bloom.ex_k [0; 0; 0; 0] (fun _ bs => length bs) ex_pairs.
Proof.
  constructor; try done; [|apply ex_sorted]. apply Forall_forall. intros p (j & -> & Hj%elem_of_seq)%list_elem_of_fmap.
  split; unfold is_u64; cbn; lia.
Qed.

Lemma sst_roundtrip_witness :
  exists s, open true (build Bloom.ex_m Bloom.ex_k [0; 0; 0; 0] true (fun _ bs => length bs) ex_pairs [1; 2]).2 = Some s /\
    get 387 s = Some (Some 229) /\ get 388 s = Some None.
Proof.
  destruct (sst_roundtrip Bloom.ex_m Bloom.ex_k [0; 0; 0; 0] (fun _ bs => length bs) ex_pairs [1; 2] ex_fits)
    as (file & s & -> & Ho & Hg).
  exists s. split; [exact Ho|]. rewrite !Hg. split; vm_compute; reflexivity.
Defined.
End SST.
