(* ===== verification/LsmEngine.v ===== *)
(** * The LSM engine

    Model of [LsmEngine] (08-database-indexing, lsm_engine.hpp): a memtable in
    front of a list of immutable sorted tables, newest last.  The engine is
    written against the [MemTable] interface and the tables of [SSTable]; each
    operation holds the engine latch.  The outcomes of the system calls during a
    flush are an argument of the operations. *)

From S2P Require Import Prelude Bytes Bloom SSTable SkipList.

#[local] Open Scope Z_scope.
#[local] Open Scope cpp_scope.

Module Lsm.

(** One flush: whether the file can be created, what each [write] transfers,
    whether it can be opened for reading, and the padding of the footer. *)
Record io := mk_io { created : bool; writes : nat -> list Z -> nat; reopened : bool; padding : list Z }.

Definition good_io (e : io) : Prop :=
  created e = true /\ (forall n bs, writes e n bs = length bs) /\ reopened e = true /\ length (padding e) = 4%nat.

Section engine.
Context {T : Type} {repr : T -> gmap Z Z -> Prop} {MT : MemTable T repr}.
Context (m_of : Z -> Z) (k_of : Z -> Z -> Z).

(** [files] are the files of the directory, by the number in their name. *)
Record t := mk {
  memtable_threshold_bytes_ : Z;
  next_sst_id_ : Z;
  memtable_ : T;
  sstables_ : list SST.t;
  files : gmap Z (list Z);
}.

Definition LsmEngine (threshold : Z) (dir : gmap Z (list Z)) : t := mk threshold 0 mt_empty [] dir.

Definition flush_memtable_internal (e : io) (s : t) : option t :=
  if mt_size (memtable_ s) =? 0 then Some s else
  pairs ← mt_to_vector (memtable_ s);
  let id := next_sst_id_ s in
  let old := default [] (files s !! id) in
  let '(built, content) := SST.build m_of k_of (padding e) (created e) (writes e) pairs old in
  let sstables :=
    if built then
      match SST.open (reopened e) content with Some sst => sstables_ s ++ [sst] | None => sstables_ s end
    else sstables_ s in
  Some (mk (memtable_threshold_bytes_ s) (id +64 1) mt_empty sstables
           (if built then <[id := content]> (files s) else files s)).

Definition flush_memtable (e : io) (s : t) : option t := flush_memtable_internal e s.

Definition put (draws : list bool) (e : io) (k v : Z) (s : t) : option t :=
  mem ← mt_put draws k v (memtable_ s);
  let s := mk (memtable_threshold_bytes_ s) (next_sst_id_ s) mem (sstables_ s) (files s) in
  if memtable_threshold_bytes_ s <=? mt_byte_size mem then flush_memtable_internal e s else Some s.

(** The tables from the newest to the oldest. *)
Fixpoint get_tables (k : Z) (tables : list SST.t) : option (option Z) :=
  match tables with
  | [] => Some None
  | sst :: tables => r ← SST.get k sst; match r with Some v => Some (Some v) | None => get_tables k tables end
  end.

Definition get (k : Z) (s : t) : option (option Z) :=
  r ← mt_get k (memtable_ s);
  match r with
  | Some v => Some (Some v)
  | None => get_tables k (reverse (sstables_ s))
  end.

Definition sstable_count (s : t) : Z := Z.of_nat (length (sstables_ s)).

(** ** The invariant *)

Definition table_of (sst : SST.t) (m : gmap Z Z) : Prop := forall k, SST.get k sst = Some (m !! k).

(** [tms] are the maps of the tables, newest first. *)
Record einv (s : t) (mm : gmap Z Z) (tms : list (gmap Z Z)) : Prop := {
  e_mem : repr (memtable_ s) mm;
  e_tables : Forall2 table_of (reverse (sstables_ s)) tms;
}.

Definition merged (mm : gmap Z Z) (tms : list (gmap Z Z)) : gmap Z Z := mm ∪ foldr union ∅ tms.

Lemma get_tables_spec k tables tms :
  Forall2 table_of tables tms -> get_tables k tables = Some ((foldr union ∅ tms : gmap Z Z) !! k).
Proof.
  induction 1 as [|sst m tables tms Ht _ IH]; [done|]. cbn. rewrite (Ht k). cbn [mbind option_bind].
  rewrite lookup_union. destruct (m !! k); [by destruct (_ !! k)|]. rewrite IH. by destruct (_ !! k).
Qed.

Lemma engine_get_spec k s mm tms : einv s mm tms -> get k s = Some (merged mm tms !! k).
Proof.
  intros [Hm Ht]. unfold get, merged. rewrite (mt_get_repr k _ _ Hm). cbn [mbind option_bind]. rewrite lookup_union.
  rewrite (get_tables_spec k _ _ Ht). destruct (mm !! k); by destruct (_ !! k).
Qed.

(** All keys and values are 64-bit and there are not too many of them. *)
Definition small_map (m : gmap Z Z) : Prop :=
  Z.of_nat (base.size m) < 2 ^ 40 /\ map_Forall (fun k v => SST.pair_ok (k, v)) m.

Context (Hbits : forall n, 0 <= n < 2 ^ 40 -> Bloom.num_bits_ (Bloom.BloomFilter m_of k_of n) < 2 ^ 60).

Lemma table_fits e l m :
  good_io e -> small_map m -> m <> ∅ -> StronglySorted Z.lt l.*1 -> list_to_map l = m ->
  SST.fits m_of k_of (padding e) (writes e) l.
Proof.
  intros (_ & Hw & _ & Hp) [Hsz Hok] Hne Hs Hl. pose proof (zsorted_NoDup _ Hs) as Hnd.
  assert (length l = base.size m) as Hlen by by rewrite <- Hl, map_size_list_to_map.
  constructor; try done; try (rewrite Hlen; try apply Hbits; lia).
  - apply Forall_forall. intros [k v] Hin. apply Hok. rewrite <- Hl. by apply elem_of_list_to_map_1.
  - intros ->. by rewrite <- Hl in Hne.
Qed.

Lemma flush_good e s mm tms :
  good_io e -> einv s mm tms -> small_map mm ->
  exists s' mm' tms', flush_memtable_internal e s = Some s' /\ einv s' mm' tms' /\ small_map mm' /\ merged mm' tms' = merged mm tms /\
    (mm' = ∅ \/ mm' = mm).
Proof.
  intros He [Hm Ht] Hsm. unfold flush_memtable_internal. rewrite (mt_size_repr _ _ Hm).
  pose proof Hsm as [Hsz _]. rewrite wrap_small by lia. destruct (Z.eqb_spec (Z.of_nat (base.size mm)) 0) as [H0|H0].
  - exists s, mm, tms. split_and!; [done|by constructor|done|done|by right].
  - assert (mm <> ∅) as Hne by (intros ->; by rewrite map_size_empty in H0).
    destruct (mt_to_vector_repr _ _ Hm) as (l & -> & Hs & Hl). cbn [mbind option_bind].
    pose proof (table_fits e l mm He Hsm Hne Hs Hl) as Hf. destruct He as (Hc & _ & Ho & _). rewrite Hc, Ho.
    rewrite (SST.build_table _ _ _ _ _ Hf), (SST.open_table _ _ _ _ _ Hf).
    eexists _, ∅, (mm :: tms). split; [done|]. split_and!.
    + constructor; cbn [memtable_ sstables_]; [apply mt_empty_repr|]. rewrite reverse_app. cbn. constructor; [|done].
      intros k. rewrite (SST.get_table _ _ _ _ _ Hf), Hl. done.
    + split; [done|apply map_Forall_empty].
    + unfold merged. cbn. apply (left_id_L ∅ union).
    + by left.
Qed.

(** ** Histories *)

Inductive op := Put (draws : list bool) (e : io) (k v : Z) | Flush (e : io).

Definition exec (s : option t) (o : op) : option t :=
  s ≫= match o with Put draws e k v => put draws e k v | Flush e => flush_memtable e end.

Definition abstract (m : gmap Z Z) (o : op) : gmap Z Z :=
  match o with Put _ _ k v => <[k := v]> m | Flush _ => m end.

Definition good_op (o : op) : Prop :=
  match o with Put _ e k v => good_io e /\ SST.pair_ok (k, v) | Flush e => good_io e end.

Lemma merged_insert k v mm tms : merged (<[k := v]> mm) tms = <[k := v]> (merged mm tms).
Proof. unfold merged. by rewrite insert_union_l. Qed.

Lemma small_insert k v mm (n : nat) :
  map_Forall (fun k v => SST.pair_ok (k, v)) mm -> (base.size mm <= n)%nat -> Z.of_nat (S n) < 2 ^ 40 -> SST.pair_ok (k, v) ->
  small_map (<[k := v]> mm) /\ (base.size (<[k := v]> mm) <= S n)%nat.
Proof.
  intros Hok Hsz Hn Hkv. assert (base.size (<[k := v]> mm) <= S (base.size mm))%nat as Hle.
  { destruct (mm !! k) as [w|] eqn:Hk; [rewrite map_size_insert_Some by (by rewrite Hk); lia|].
    by rewrite map_size_insert_None. }
  split; [split; [lia|by apply map_Forall_insert_2]|lia].
Qed.

(** The state after a history: its map, in at most as many keys as operations. *)
Definition after (s : t) (m : gmap Z Z) (n : nat) : Prop :=
  exists mm tms, einv s mm tms /\ small_map mm /\ (base.size mm <= n)%nat /\ merged mm tms = m.

Lemma flush_after e s m n : good_io e -> after s m n -> exists s', flush_memtable_internal e s = Some s' /\ after s' m n.
Proof.
  intros He (mm & tms & Hi & Hsm & Hn & <-).
  destruct (flush_good e s mm tms He Hi Hsm) as (s' & mm' & tms' & Hs & Hi' & Hsm' & Hm & Hcase).
  exists s'. split; [done|]. exists mm', tms'. split_and!; [done|done| |done].
  destruct Hcase as [->| ->]; [|done]. rewrite map_size_empty. lia.
Qed.

Lemma exec_after o s m n :
  good_op o -> Z.of_nat (S n) < 2 ^ 40 -> after s m n -> exists s', exec (Some s) o = Some s' /\ after s' (abstract m o) (S n).
Proof.
  assert (forall s m, after s m n -> after s m (S n)) as Hweak.
  { intros s0 m0 (mm & tms & Hi & Hsm & Hn & Hm). exists mm, tms. split_and!; [done|done|lia|done]. }
  destruct o as [draws e k v|e]; intros Hg Hn Ha.
  - destruct Hg as [He Hkv], Ha as (mm & tms & [Hm Ht] & [_ Hok] & Hsz & <-). cbn [exec mbind option_bind]. unfold put.
    destruct (mt_put_repr draws k v _ _ Hm) as (mem & -> & Hmem). cbn [mbind option_bind].
    destruct (small_insert k v mm n Hok Hsz Hn Hkv) as [Hsm Hsz'].
    assert (after (mk (memtable_threshold_bytes_ s) (next_sst_id_ s) mem (sstables_ s) (files s)) (<[k := v]> (merged mm tms)) (S n)) as Ha.
    { exists (<[k := v]> mm), tms. split_and!; [by constructor|done|done|apply merged_insert]. }
    destruct (_ <=? _); [|by eexists]. by apply flush_after.
  - destruct (flush_after e s m n Hg Ha) as (s' & Hs & Ha'). exists s'. split; [done|]. by apply Hweak.
Qed.

Lemma run_after ops threshold dir :
  Forall good_op ops -> Z.of_nat (length ops) < 2 ^ 40 ->
  exists s, foldl exec (Some (LsmEngine threshold dir)) ops = Some s /\ after s (foldl abstract ∅ ops) (length ops).
Proof.
  induction ops as [|o ops IH] using rev_ind; intros Hg Hn.
  - eexists. split; [done|]. exists ∅, []. split_and!; [constructor; [apply mt_empty_repr|constructor]| | |done].
    + split; [done|apply map_Forall_empty].
    + by rewrite map_size_empty.
  - rewrite length_app in *. cbn [length] in *. rewrite Nat.add_1_r in *. apply Forall_app in Hg as [Hg [Ho _]%Forall_cons].
    destruct IH as (s & Hs & Ha); [done|lia|]. rewrite !foldl_app, Hs. cbn [foldl]. by apply exec_after.
Qed.

(** C6. The engine is a map.  For any history of puts and flushes with working
    system calls, on any directory, threshold and memtable that keeps its
    contract, all operations return and [get] finds for every key the value put
    last, whether it is still in the memtable or in one of the tables. *)
Theorem lsm_refines ops threshold dir :
  Forall good_op ops -> Z.of_nat (length ops) < 2 ^ 40 ->
  exists s, foldl exec (Some (LsmEngine threshold dir)) ops = Some s /\
    forall k, get k s = Some (foldl abstract ∅ ops !! k).
Proof.
  intros Hg Hn. destruct (run_after ops threshold dir Hg Hn) as (s & Hs & mm & tms & Hi & _ & _ & <-).
  exists s. split; [done|]. intros k. by apply engine_get_spec.
Qed.

(** A failed flush loses the memtable.  When the file of the table cannot be
    created, or cannot be opened again, the memtable is dropped all the same:
    afterwards only the older tables answer. *)
Theorem lsm_failed_flush_drops e s mm tms :
  einv s mm tms -> small_map mm -> mm <> ∅ -> created e = false \/ reopened e = false ->
  exists s', flush_memtable e s = Some s' /\ sstables_ s' = sstables_ s /\
    forall k, get k s' = Some ((foldr union ∅ tms : gmap Z Z) !! k).
Proof.
  intros [Hm Ht] [Hsz _] Hne Hfail. unfold flush_memtable, flush_memtable_internal. rewrite (mt_size_repr _ _ Hm), wrap_small by lia.
  destruct (Z.eqb_spec (Z.of_nat (base.size mm)) 0) as [H0|H0]; [exfalso; apply Hne, map_size_empty_inv; lia|].
  destruct (mt_to_vector_repr _ _ Hm) as (l & -> & _). cbn [mbind option_bind].
  destruct (SST.build _ _ _ _ _ _ _) as [built content] eqn:Hb.
  assert ((if built then match SST.open (reopened e) content with Some sst => sstables_ s ++ [sst] | None => sstables_ s end
           else sstables_ s) = sstables_ s) as ->.
  { unfold SST.build in Hb. destruct Hfail as [Hc|Ho].
    - rewrite Hc in Hb. destruct (bool_decide _); by injection Hb as <- _.
    - rewrite Ho. by destruct built. }
  eexists. split; [done|]. split; [done|]. intros k.
  rewrite (engine_get_spec k _ ∅ tms) by (constructor; [apply mt_empty_repr|done]). unfold merged. by rewrite (left_id_L ∅ union).
Qed.
End engine.

(** ** Examples with the skip list *)

Definition ex_io : io := mk_io true (fun _ bs => length bs) true [0; 0; 0; 0].

Lemma ex_good_io : good_io ex_io.
Proof. by split_and!. Qed.

Lemma ex_bits n : 0 <= n < 2 ^ 40 -> Bloom.num_bits_ (Bloom.BloomFilter Bloom.ex_m Bloom.ex_k n) < 2 ^ 60.
Proof.
  intros Hn. unfold Bloom.BloomFilter. cbn [Bloom.num_bits_]. set (n' := if n =? 0 then 1 else n).
  assert (0 <= n' < 2 ^ 40) by (unfold n'; destruct (n =? 0); lia). unfold Bloom.ex_m.
  assert (9586 * n' / 1000 <= 9586 * n') by (apply Z.div_le_upper_bound; lia).
  assert (0 <= 9586 * n' / 1000) by (apply Z.div_pos; lia).
  rewrite !wrap_small by lia. destruct (_ <? _); lia.
Qed.

(** Two flushes by size, one requested; key 7 is overwritten in a later table. *)
Definition ex_ops : list op :=
  [Put [true; false] ex_io 7 70; Put [] ex_io 3 30; Put [true] ex_io 9 90; Put [] ex_io 7 71; Flush ex_io; Put [] ex_io 1 10].

Lemma ex_good_ops : Forall good_op ex_ops.
Proof.
  assert (forall draws k v, 0 <= k < 100 -> 0 <= v < 100 -> good_op (Put draws ex_io k v)) as Hp.
  { intros draws k v Hk Hv. split; [apply ex_good_io|]. split; unfold SST.is_u64; cbn; lia. }
  repeat apply Forall_cons_2; [apply Hp; lia..|apply ex_good_io|apply Hp; lia|constructor].
Qed.

Lemma lsm_refines_witness :
  exists s : @t SkipList.t, foldl (exec Bloom.ex_m Bloom.ex_k) (Some (LsmEngine 120 ∅)) ex_ops = Some s /\
    get 7 s = Some (Some 71) /\ get 3 s = Some (Some 30) /\ get 8 s = Some None.
Proof.
  destruct (lsm_refines (T := SkipList.t) Bloom.ex_m Bloom.ex_k ex_bits ex_ops 120 ∅) as (s & Hs & Hg).
  - exact ex_good_ops.
  - reflexivity.
  - exists s. split; [exact Hs|]. rewrite !Hg. split_and!; vm_compute; reflexivity.
Defined.

Definition ex_failing : io := mk_io false (fun _ bs => length bs) true [0; 0; 0; 0].

Lemma lsm_failed_flush_drops_witness :
  exists s s' : @t SkipList.t, foldl (exec Bloom.ex_m Bloom.ex_k) (Some (LsmEngine 120 ∅)) [Put [] ex_io 3 30] = Some s /\
    get 3 s = Some (Some 30) /\ flush_memtable Bloom.ex_m Bloom.ex_k ex_failing s = Some s' /\ get 3 s' = Some None.
Proof.
  destruct (SkipList.put_represents [] 3 30 _ _ SkipList.empty_represents) as (mem & Hmem & HR).
  destruct (lsm_failed_flush_drops (T := SkipList.t) Bloom.ex_m Bloom.ex_k ex_failing (mk 120 0 mem [] ∅) (<[3 := 30]> ∅) [])
    as (s' & Hs' & _ & Hg).
  - constructor; [exact HR|constructor].
  - split; [vm_compute; reflexivity|]. apply map_Forall_insert_2; [split; unfold SST.is_u64; cbn; lia|apply map_Forall_empty].
  - apply insert_non_empty.
  - by left.
  - exists (mk 120 0 mem [] ∅), s'. split_and!; [|apply (SkipList.get_represents 3) in HR|exact Hs'|rewrite Hg; reflexivity].
    + cbn [foldl exec mbind option_bind]. unfold put. cbn [memtable_ LsmEngine mt_empty mt_put SkipList.skiplist_memtable].
      rewrite Hmem. cbn [mbind option_bind]. vm_compute in Hmem. injection Hmem as <-. reflexivity.
    + unfold get. cbn [memtable_ mt_get SkipList.skiplist_memtable]. rewrite HR. reflexivity.
Defined.

(** A new engine on an existing directory does not see its tables. *)
Lemma lsm_reopen_empty threshold dir k : get k (LsmEngine (T := SkipList.t) threshold dir) = Some None.
Proof. done. Qed.
End Lsm.
