(* ===== verification/Mvcc.v ===== *)
(** * Snapshots and the transaction manager

    Models of [ReadView], [UndoRecord], [TupleSlot] and [read_tuple_snapshot]
    (09-database-transactions, mvcc_undo_log.hpp) and of [TransactionManager]
    (transaction_manager.hpp).  Transactions are shared objects: [objs] holds
    them, and a handle is the transaction id.  Strings are lists of bytes.  Undo
    chains are immutable once linked and are lists, newest first. *)

From S2P Require Import Prelude.

#[local] Open Scope Z_scope.
#[local] Open Scope cpp_scope.

Module Mvcc.

Record ReadView := mk_view { creator_txn_id : Z; up_limit_id : Z; low_limit_id : Z; active_ids : list Z }.

(** [std::binary_search] on the sorted [active_ids] is membership. *)
Definition is_visible (view : ReadView) (xmin : Z) : bool :=
  if xmin =? creator_txn_id view then true
  else if xmin <? up_limit_id view then true
  else if low_limit_id view <=? xmin then false
  else negb (bool_decide (xmin ∈ active_ids view)).

Record UndoRecord := mk_undo { undo_xmin : Z; old_val : list Z }.

Record TupleSlot := mk_slot { key : Z; val : list Z; xmin : Z; roll_ptr : list UndoRecord }.

(** The slot that [operator[]] of the table creates. *)
Definition new_slot : TupleSlot := mk_slot 0 [] 0 [].

Fixpoint read_chain (view : ReadView) (chain : list UndoRecord) : option (list Z) :=
  match chain with
  | [] => None
  | u :: chain => if is_visible view (undo_xmin u) then Some (old_val u) else read_chain view chain
  end.

Definition read_tuple_snapshot (tuple : TupleSlot) (view : ReadView) : option (list Z) :=
  if is_visible view (xmin tuple) then Some (val tuple) else read_chain view (roll_ptr tuple).

(** ** The transaction manager *)

Inductive TxnState := ACTIVE | COMMITTED | ABORTED.

#[global] Instance TxnState_eq_dec : EqDecision TxnState.
Proof. solve_decision. Defined.

Record Transaction := mk_txn {
  txn_id : Z; state : TxnState; read_view : ReadView; undo_entries : list (Z * list Z) }.

Record manager := mk_mgr { next_txn_id_ : Z; active_txns_ : gset Z; objs : gmap Z Transaction }.

Definition TransactionManager : manager := mk_mgr 1 ∅ ∅.

Definition is_active (m : manager) (id : Z) : bool :=
  match objs m !! id with Some t => bool_decide (state t = ACTIVE) | None => false end.

(** The sorted ids of the active transactions; the order in which the hash map
    is visited is lost by the sort. *)
Definition active_list (m : manager) : list Z :=
  merge_sort Z.le (filter (fun id => is_active m id = true) (elements (active_txns_ m))).

Definition begin_transaction (m : manager) : Z * manager :=
  let tid := next_txn_id_ m in
  let ids := active_list m in
  let view := mk_view tid (foldr Z.min tid ids) tid ids in
  (tid, mk_mgr (tid +64 1) ({[tid]} ∪ active_txns_ m) (<[tid := mk_txn tid ACTIVE view []]> (objs m))).

Definition finish (st : TxnState) (tid : Z) (m : manager) : manager :=
  mk_mgr (next_txn_id_ m) (active_txns_ m ∖ {[tid]})
         (alter (fun t => mk_txn (txn_id t) st (read_view t) (undo_entries t)) tid (objs m)).

Definition commit (tid : Z) (m : manager) : manager := finish COMMITTED tid m.
Definition abort (tid : Z) (m : manager) : manager := finish ABORTED tid m.

Definition set_next_txn_id (next_id : Z) (m : manager) : manager := mk_mgr next_id (active_txns_ m) (objs m).

(** ** Visibility *)

(** The versions of a tuple, newest first. *)
Definition versions (s : TupleSlot) : list (Z * list Z) :=
  (xmin s, val s) :: ((fun u => (undo_xmin u, old_val u)) <$> roll_ptr s).

Fixpoint first_visible (vis : Z -> bool) (l : list (Z * list Z)) : option (list Z) :=
  match l with
  | [] => None
  | (w, v) :: l => if vis w then Some v else first_visible vis l
  end.

Lemma read_versions s view : read_tuple_snapshot s view = first_visible (is_visible view) (versions s).
Proof.
  unfold read_tuple_snapshot, versions. cbn. destruct (is_visible view (xmin s)); [done|].
  induction (roll_ptr s) as [|u l IH]; [done|]. cbn. by rewrite IH.
Qed.

Lemma first_visible_app vis l1 l2 :
  Forall (fun wv => vis wv.1 = false) l1 -> first_visible vis (l1 ++ l2) = first_visible vis l2.
Proof. induction 1 as [|[w v] l1 Hw _ IH]; [done|]. cbn in *. by rewrite Hw. Qed.

(** What the view of transaction [t] can see among ids below [t] when the
    transactions [act] are active. *)
Record view_of (t : Z) (act : gset Z) (view : ReadView) : Prop := {
  v_creator : creator_txn_id view = t;
  v_low : low_limit_id view = t;
  v_up : up_limit_id view <= t;
  v_min : forall u, u ∈ act -> up_limit_id view <= u;
  v_ids : forall u, u ∈ active_ids view <-> u ∈ act;
}.

Lemma view_own t act view : view_of t act view -> is_visible view t = true.
Proof. intros [Hc _ _ _ _]. unfold is_visible. by rewrite Hc, Z.eqb_refl. Qed.

Lemma view_later t act view u : view_of t act view -> t < u -> is_visible view u = false.
Proof.
  intros [Hc Hl Hu _ _] Hlt. unfold is_visible. rewrite Hc, Hl.
  destruct (Z.eqb_spec u t); [lia|]. destruct (Z.ltb_spec u (up_limit_id view)); [lia|]. destruct (Z.leb_spec t u); [done|lia].
Qed.

Lemma view_active t act view u : view_of t act view -> u ∈ act -> u <> t -> is_visible view u = false.
Proof.
  intros [Hc Hl Hu Hm Hi] Hact Hne. unfold is_visible. rewrite Hc. destruct (Z.eqb_spec u t); [done|].
  specialize (Hm u Hact). destruct (Z.ltb_spec u (up_limit_id view)); [lia|]. destruct (_ <=? _); [done|].
  by rewrite bool_decide_true by by apply Hi.
Qed.

Lemma view_inactive t act view u : view_of t act view -> u ∉ act -> u < t -> is_visible view u = true.
Proof.
  intros [Hc Hl Hu Hm Hi] Hact Hlt. unfold is_visible. rewrite Hc, Hl. destruct (Z.eqb_spec u t); [done|].
  destruct (Z.ltb_spec u (up_limit_id view)); [done|]. destruct (Z.leb_spec t u); [lia|].
  by rewrite bool_decide_false by by rewrite Hi.
Qed.

Lemma foldr_min_spec a l : foldr Z.min a l <= a /\ (forall x, x ∈ l -> foldr Z.min a l <= x).
Proof.
  induction l as [|y l [IH1 IH2]]; cbn; [split; [lia|by intros x ?%elem_of_nil]|].
  split; [lia|]. intros x [->|Hx]%elem_of_cons; [lia|]. specialize (IH2 x Hx). lia.
Qed.

(** The active ids are sorted, as the binary search needs them. *)
Lemma active_list_sorted m : Sorted Z.le (active_list m).
Proof. apply Sorted_merge_sort, _. Qed.

Lemma elem_of_active_list m u :
  (forall u, u ∈ active_txns_ m -> is_active m u = true) -> u ∈ active_list m <-> u ∈ active_txns_ m.
Proof.
  intros Hact. unfold active_list. rewrite merge_sort_Permutation, list_elem_of_filter, elem_of_elements. naive_solver.
Qed.

Lemma begin_view m :
  (forall u, u ∈ active_txns_ m -> is_active m u = true) ->
  view_of (next_txn_id_ m) (active_txns_ m)
    (mk_view (next_txn_id_ m) (foldr Z.min (next_txn_id_ m) (active_list m)) (next_txn_id_ m) (active_list m)).
Proof.
  intros Hact. destruct (foldr_min_spec (next_txn_id_ m) (active_list m)) as [Hle Hmin]. constructor; cbn; try done.
  - intros u Hu. apply Hmin. by apply elem_of_active_list.
  - intros u. by apply elem_of_active_list.
Qed.
End Mvcc.
