(* ===== verification/TxnEngine.v ===== *)
(** * The transactional engine

    Model of [TransactionalEngine] (09-database-transactions,
    transactional_engine.hpp): the versioned table, the undo of aborted
    transactions, the write-ahead log byte for byte and the two-pass recovery.
    Each operation holds the engine latch.  The numbers of bytes the [write]
    calls transfer are arguments; a completed write is taken as durable.

    The theorems are refinements of an abstract snapshot-isolation store with
    equal results, for clients in which no two active transactions have written
    the same key, the recovery of exactly the committed state from the log, and
    what goes wrong when two active transactions write one key. *)

From S2P Require Import Prelude Bytes Mvcc.

#[local] Open Scope Z_scope.
#[local] Open Scope cpp_scope.

Module Txn.
Import Mvcc.

(** ** The log *)

Inductive WalRecordType := PUT | COMMIT | ABORT.

Definition WalRecordType_val (t : WalRecordType) : Z := match t with PUT => 1 | COMMIT => 2 | ABORT => 3 end.

(** [type] is kept as the byte that is read. *)
Record WalHeader := mk_header { type : Z; hdr_txn_id : Z; hdr_key : Z; val_size : Z }.

(** The packed layout: one byte, two words of eight, one of four. *)
Definition sizeof_WalHeader : nat := 21.

Definition header_bytes (h : WalHeader) : list Z :=
  le_encode 1 (type h) ++ le_encode 8 (hdr_txn_id h) ++ le_encode 8 (hdr_key h) ++ le_encode 4 (val_size h).

Definition parse_header (m : list Z) : WalHeader :=
  mk_header (load_le 1 0 m) (load_le 8 1 m) (load_le 8 9 m) (load_le 4 17 m).

(** ** The engine *)

Record t := mk { wal : list Z; tx_manager_ : manager; table_ : gmap Z TupleSlot }.

(** A log file that exists already is kept. *)
Definition TransactionalEngine (content : list Z) : t := mk content TransactionManager ∅.

(** The file is in append mode. *)
Definition append (written : Z) (bs : list Z) (file : list Z) : list Z := file ++ take (Z.to_nat written) bs.

Definition begin_transaction (e : t) : Z * t :=
  let '(tid, m) := Mvcc.begin_transaction (tx_manager_ e) in (tid, mk (wal e) m (table_ e)).

Definition get (tid k : Z) (e : t) : option (option (list Z)) :=
  txn ← objs (tx_manager_ e) !! tid;
  Some (match table_ e !! k with
        | None => None
        | Some slot => read_tuple_snapshot slot (read_view txn)
        end).

Definition log_undo (tid k : Z) (old : list Z) (m : manager) : manager :=
  mk_mgr (next_txn_id_ m) (active_txns_ m)
    (alter (fun x => mk_txn (txn_id x) (state x) (read_view x) (undo_entries x ++ [(k, old)])) tid (objs m)).

Definition put (w1 w2 : Z) (tid k : Z) (value : list Z) (e : t) : option t :=
  txn ← objs (tx_manager_ e) !! tid;
  let hdr := mk_header (WalRecordType_val PUT) (txn_id txn) k (u32 (Z.of_nat (length value))) in
  let file := append w2 value (append w1 (header_bytes hdr) (wal e)) in
  let slot := default new_slot (table_ e !! k) in
  let undo := mk_undo (xmin slot) (val slot) in
  let slot' := mk_slot k value (txn_id txn) (undo :: roll_ptr slot) in
  Some (mk file (log_undo tid k (old_val undo) (tx_manager_ e)) (<[k := slot']> (table_ e))).

Definition log_end (w : Z) (ty : WalRecordType) (txn : Transaction) (file : list Z) : list Z :=
  append w (header_bytes (mk_header (WalRecordType_val ty) (txn_id txn) 0 0)) file.

Definition commit (w : Z) (tid : Z) (e : t) : option t :=
  txn ← objs (tx_manager_ e) !! tid;
  Some (mk (log_end w COMMIT txn (wal e)) (Mvcc.commit tid (tx_manager_ e)) (table_ e)).

(** Pop the newest version of [k], whoever wrote it. *)
Definition undo_key (table : gmap Z TupleSlot) (k : Z) : gmap Z TupleSlot :=
  match table !! k with
  | None => table
  | Some slot =>
      match roll_ptr slot with
      | [] => table
      | u :: prev => <[k := mk_slot (key slot) (old_val u) (undo_xmin u) prev]> table
      end
  end.

Definition abort (w : Z) (tid : Z) (e : t) : option t :=
  txn ← objs (tx_manager_ e) !! tid;
  let table := foldl undo_key (table_ e) (undo_entries txn).*1 in
  Some (mk (log_end w ABORT txn (wal e)) (Mvcc.abort tid (tx_manager_ e)) table).

(** ** Recovery *)

(** The analysis pass: committed ids and the largest id.  [fuel] is the size of
    the file: every round consumes a header. *)
Fixpoint analysis (fuel : nat) (file : list Z) (committed : gset Z) (max_txn_id : Z) : gset Z * Z :=
  match fuel with
  | O => (committed, max_txn_id)
  | S fuel =>
      if (length file <? sizeof_WalHeader)%nat then (committed, max_txn_id) else
      let header := parse_header (take sizeof_WalHeader file) in
      let rest := drop sizeof_WalHeader file in
      let max_txn_id := Z.max max_txn_id (hdr_txn_id header) in
      if type header =? WalRecordType_val PUT
      then analysis fuel (drop (Z.to_nat (val_size header)) rest) committed max_txn_id
      else if type header =? WalRecordType_val COMMIT
      then analysis fuel rest ({[hdr_txn_id header]} ∪ committed) max_txn_id
      else analysis fuel rest committed max_txn_id
  end.

(** The redo pass; a value cut off by the end of the file is padded with
    zeros. *)
Fixpoint redo (fuel : nat) (file : list Z) (committed : gset Z) (table : gmap Z TupleSlot) : gmap Z TupleSlot :=
  match fuel with
  | O => table
  | S fuel =>
      if (length file <? sizeof_WalHeader)%nat then table else
      let header := parse_header (take sizeof_WalHeader file) in
      let rest := drop sizeof_WalHeader file in
      if type header =? WalRecordType_val PUT then
        let n := Z.to_nat (val_size header) in
        let v := take n rest ++ replicate (n - length rest) 0 in
        let table :=
          if bool_decide (hdr_txn_id header ∈ committed) then
            let slot := default new_slot (table !! hdr_key header) in
            <[hdr_key header := mk_slot (hdr_key header) v (hdr_txn_id header) (roll_ptr slot)]> table
          else table in
        redo fuel (drop n rest) committed table
      else redo fuel rest committed table
  end.

Definition recover_from_wal (opened : bool) (e : t) : t :=
  if negb opened then mk (wal e) (tx_manager_ e) ∅ else
  let '(committed, max_txn_id) := analysis (length (wal e)) (wal e) ∅ 0 in
  mk (wal e) (set_next_txn_id (max_txn_id +64 1) (tx_manager_ e)) (redo (length (wal e)) (wal e) committed ∅).

Definition size (e : t) : Z := Z.of_nat (base.size (table_ e)).

(** ** The abstract store: snapshot isolation *)

(** An active transaction: the state at its begin and its own writes. *)
Record client := mk_client { snap : gmap Z (list Z); writes : gmap Z (list Z) }.

(** [sp_slots] are the keys that have been written since the engine was
    started, by whatever transaction, or recovered from the log. *)
Record store := mk_store {
  sp_next : Z; sp_committed : gmap Z (list Z); sp_active : gmap Z client; sp_slots : gset Z }.

Inductive op :=
  | Begin
  | Get (tid k : Z)
  | Put (tid k : Z) (value : list Z)
  | Commit (tid : Z)
  | Abort (tid : Z).

Inductive result := RTxn (tid : Z) | RVal (v : option (list Z)) | RUnit.

Definition view_get (c : client) (k : Z) : option (list Z) :=
  match writes c !! k with Some v => Some v | None => snap c !! k end.

(** What a transaction reads: its own last write, else the value committed at
    its begin, else nothing, which shows as the empty string once the key has
    a slot. *)
Definition read_result (s : store) (c : client) (k : Z) : option (list Z) :=
  match view_get c k with
  | Some v => Some v
  | None => if bool_decide (k ∈ sp_slots s) then Some [] else None
  end.

Definition spec_step (s : store) (o : op) : option (store * result) :=
  match o with
  | Begin => Some (mk_store (sp_next s + 1) (sp_committed s)
                     (<[sp_next s := mk_client (sp_committed s) ∅]> (sp_active s)) (sp_slots s), RTxn (sp_next s))
  | Get tid k => c ← sp_active s !! tid; Some (s, RVal (read_result s c k))
  | Put tid k v =>
      c ← sp_active s !! tid;
      Some (mk_store (sp_next s) (sp_committed s) (<[tid := mk_client (snap c) (<[k := v]> (writes c))]> (sp_active s))
              ({[k]} ∪ sp_slots s), RUnit)
  | Commit tid =>
      c ← sp_active s !! tid;
      Some (mk_store (sp_next s) (writes c ∪ sp_committed s) (delete tid (sp_active s)) (sp_slots s), RUnit)
  | Abort tid => c ← sp_active s !! tid; Some (mk_store (sp_next s) (sp_committed s) (delete tid (sp_active s)) (sp_slots s), RUnit)
  end.

(** The discipline of the clients: no write to a key that another active
    transaction has written; sizes inside the widths of the log. *)
Definition allowed (s : store) (o : op) : Prop :=
  match o with
  | Begin => sp_next s < 2 ^ 64 - 1
  | Put tid k v =>
      (forall u c, u <> tid -> sp_active s !! u = Some c -> writes c !! k = None) /\
      0 <= k < 2 ^ 64 /\ Z.of_nat (length v) < 2 ^ 32
  | _ => True
  end.

(** Every write is complete. *)
Definition step (e : t) (o : op) : option (t * result) :=
  match o with
  | Begin => let '(tid, e) := begin_transaction e in Some (e, RTxn tid)
  | Get tid k => r ← get tid k e; Some (e, RVal r)
  | Put tid k v => e ← put 21 (Z.of_nat (length v)) tid k v e; Some (e, RUnit)
  | Commit tid => e ← commit 21 tid e; Some (e, RUnit)
  | Abort tid => e ← abort 21 tid e; Some (e, RUnit)
  end.

(** ** The simulation *)

Definition by_writer (u : Z) (l : list (Z * list Z)) : list (Z * list Z) := filter (fun wv => wv.1 = u) l.

Definition undo_count (k : Z) (es : list (Z * list Z)) : nat := length (filter (fun kv => kv.1 = k) es).

(** [A] is the versions of the active transaction that has written [k], the
    newest with its current value. *)
Inductive writer (s : store) (k : Z) : list (Z * list Z) -> Prop :=
  | no_writer : (forall u c, sp_active s !! u = Some c -> writes c !! k = None) -> writer s k []
  | one_writer u c v A :
      sp_active s !! u = Some c -> writes c !! k = Some v ->
      (forall u' c', u' <> u -> sp_active s !! u' = Some c' -> writes c' !! k = None) ->
      Forall (fun wv => wv.1 = u) A -> writer s k ((u, v) :: A).

(** The versions below are committed, the first with the committed value. *)
Record settled (s : store) (k : Z) (R : list (Z * list Z)) : Prop := {
  st_ids : Forall (fun wv => wv.1 < sp_next s /\ sp_active s !! wv.1 = None) R;
  st_val : snd <$> head R = Some (default [] (sp_committed s !! k));
}.

Definition key_ok (s : store) (k : Z) (slot : TupleSlot) : Prop :=
  exists A R, versions slot = A ++ R /\ writer s k A /\ settled s k R.

(** Transaction [u], with its client state and object. *)
Record txn_ok (s : store) (table : gmap Z TupleSlot) (u : Z) (c : client) (x : Transaction) : Prop := {
  t_id : txn_id x = u;
  t_state : state x = ACTIVE;
  t_range : 1 <= u < sp_next s;
  t_base : is_visible (read_view x) 0 = true;
  t_others : forall u', u' <> u -> is_Some (sp_active s !! u') -> is_visible (read_view x) u' = false;
  t_own : is_visible (read_view x) u = true;
  t_future : forall u', sp_next s <= u' -> is_visible (read_view x) u' = false;
  t_read : forall k slot, table !! k = Some slot ->
    first_visible (is_visible (read_view x)) (versions slot) = Some (default [] (view_get c k));
  t_absent : forall k, table !! k = None -> view_get c k = None;
  t_count : forall k slot, table !! k = Some slot -> undo_count k (undo_entries x) = length (by_writer u (versions slot));
  t_none : forall k, table !! k = None -> undo_count k (undo_entries x) = 0%nat;
}.

Record sim (e : t) (s : store) : Prop := {
  sim_next : next_txn_id_ (tx_manager_ e) = sp_next s;
  sim_range : 1 <= sp_next s < 2 ^ 64;
  sim_active : active_txns_ (tx_manager_ e) = dom (sp_active s);
  sim_txn : forall u c, sp_active s !! u = Some c ->
    exists x, objs (tx_manager_ e) !! u = Some x /\ txn_ok s (table_ e) u c x;
  sim_key : forall k slot, table_ e !! k = Some slot -> key_ok s k slot;
  sim_absent : forall k, table_ e !! k = None -> sp_committed s !! k = None;
  sim_slots : dom (table_ e) = sp_slots s;
}.

Lemma sim_is_active e s u :
  sim e s -> u ∈ active_txns_ (tx_manager_ e) -> is_active (tx_manager_ e) u = true.
Proof.
  intros Hs. rewrite (sim_active _ _ Hs). intros [c Hc]%elem_of_dom.
  destruct (sim_txn _ _ Hs u c Hc) as (x & Hx & Hok). unfold is_active. rewrite Hx. by rewrite bool_decide_true by apply Hok.
Qed.

(** The writers of the versions of a key are below the next id. *)
Lemma writer_range e s k A : sim e s -> writer s k A -> Forall (fun wv => 1 <= wv.1 < sp_next s /\ is_Some (sp_active s !! wv.1)) A.
Proof.
  intros Hs [Hn|u c v A' Hu Hv Ho HA]; [done|]. destruct (sim_txn _ _ Hs u c Hu) as (x & _ & Hok).
  assert (1 <= u < sp_next s /\ is_Some (sp_active s !! u)) as Hru by (split; [apply Hok|by eexists]).
  constructor; [done|]. eapply Forall_impl; [exact HA|]. by intros wv ->.
Qed.

Lemma by_writer_none u l : Forall (fun wv : Z * list Z => wv.1 <> u) l -> by_writer u l = [].
Proof. apply filter_none. Qed.

Lemma by_writer_app u l1 l2 : by_writer u (l1 ++ l2) = by_writer u l1 ++ by_writer u l2.
Proof. apply filter_app. Qed.

Lemma head_visible vis R v : snd <$> head R = Some v -> Forall (fun wv => vis wv.1 = true) R -> first_visible vis R = Some v.
Proof. destruct R as [|[w v'] R]; [done|]. cbn. intros [= ->] [Hw _]%Forall_cons. cbn in Hw. by rewrite Hw. Qed.

(** ** Begin *)

Definition begun (s : store) : store :=
  mk_store (sp_next s + 1) (sp_committed s) (<[sp_next s := mk_client (sp_committed s) ∅]> (sp_active s)) (sp_slots s).

Lemma sim_fresh e s u : sim e s -> u < 1 \/ sp_next s <= u -> sp_active s !! u = None.
Proof.
  intros Hs Hu. destruct (sp_active s !! u) as [c|] eqn:Hc; [|done]. destruct (sim_txn _ _ Hs _ _ Hc) as (x & _ & Hok).
  pose proof (t_range _ _ _ _ _ Hok). lia.
Qed.

Lemma begin_writer e s k A : sim e s -> writer s k A -> writer (begun s) k A.
Proof.
  intros Hs [Hn|u c v A' Hu Hv Ho HA].
  - constructor. intros u c. cbn. intros [[_ <-]|[_ Hc]]%lookup_insert_Some; [apply lookup_empty|by eapply Hn].
  - econstructor; [|done| |done].
    + cbn. rewrite lookup_insert_ne; [done|]. intros <-. rewrite (sim_fresh e s (sp_next s) Hs) in Hu by lia. done.
    + intros u' c' Hne. cbn. intros [[_ <-]|[_ Hc]]%lookup_insert_Some; [apply lookup_empty|by eapply Ho].
Qed.

(** The new transaction sees the committed versions. *)
Lemma begin_new e s view :
  sim e s -> view_of (sp_next s) (active_txns_ (tx_manager_ e)) view ->
  txn_ok (begun s) (table_ e) (sp_next s) (mk_client (sp_committed s) ∅) (mk_txn (sp_next s) ACTIVE view []).
Proof.
  intros Hs Hview. pose proof (sim_range _ _ Hs) as Hr. rewrite (sim_active _ _ Hs) in Hview.
  assert (forall u', u' < sp_next s -> sp_active s !! u' = None -> is_visible view u' = true) as Hvis.
  { intros u' Hu' Hn. apply (view_inactive _ _ _ _ Hview); [|done]. by apply not_elem_of_dom. }
  assert (forall u', is_Some (sp_active s !! u') -> u' <> sp_next s -> is_visible view u' = false) as Hinv.
  { intros u' Hu' Hne. apply (view_active _ _ _ _ Hview); [|done]. by apply elem_of_dom. }
  constructor; cbn [txn_id state read_view undo_entries begun sp_next sp_active]; try done.
  - lia.
  - apply Hvis; [lia|]. apply (sim_fresh e s); [done|lia].
  - intros u' Hne [c' [[? _]|[_ Hc']]%lookup_insert_Some]; [done|]. apply Hinv; [by eexists|done].
  - by apply (view_own _ _ _ Hview).
  - intros u' Hu'. apply (view_later _ _ _ _ Hview). lia.
  - intros k slot Hk. destruct (sim_key _ _ Hs k slot Hk) as (A & R & -> & HA & [Hids Hval]). rewrite first_visible_app.
    + unfold view_get. cbn. apply head_visible; [done|]. eapply Forall_impl; [exact Hids|]. intros wv [? ?]. by apply Hvis.
    + eapply Forall_impl; [by apply (writer_range e s k A Hs)|]. intros wv [? ?]. apply Hinv; [done|lia].
  - intros k Hk. unfold view_get. cbn. by apply (sim_absent _ _ Hs).
  - intros k slot Hk. destruct (sim_key _ _ Hs k slot Hk) as (A & R & -> & HA & [Hids _]).
    rewrite by_writer_none; [done|]. apply Forall_app. split.
    + eapply Forall_impl; [by apply (writer_range e s k A Hs)|]. intros wv [? ?]. lia.
    + eapply Forall_impl; [exact Hids|]. intros wv [? ?]. lia.
Qed.

Lemma sim_begin e s :
  sim e s -> sp_next s < 2 ^ 64 - 1 ->
  exists e', begin_transaction e = (sp_next s, e') /\ sim e' (begun s) /\ wal e' = wal e.
Proof.
  intros Hs Hlt. pose proof (sim_range _ _ Hs) as Hr. unfold begin_transaction, Mvcc.begin_transaction.
  rewrite (sim_next _ _ Hs), wrap_small by lia.
  pose proof (begin_view (tx_manager_ e) (fun u => sim_is_active e s u Hs)) as Hview. rewrite (sim_next _ _ Hs) in Hview.
  eexists. split; [done|]. split; [|done].
  constructor; cbn [tx_manager_ next_txn_id_ active_txns_ objs table_ begun sp_next sp_active sp_committed].
  - done.
  - lia.
  - by rewrite dom_insert_L, (sim_active _ _ Hs).
  - intros u c [[<- <-]|[Hne Hc]]%lookup_insert_Some.
    + eexists. rewrite lookup_insert_eq. split; [done|]. by apply begin_new.
    + destruct (sim_txn _ _ Hs u c Hc) as (x & Hx & [H1 H2 H3 H4 H5 H6 H7 H8 H9 H10 H11]).
      exists x. rewrite lookup_insert_ne by done. split; [done|]. constructor; try done; cbn.
      * lia.
      * intros u' Hu' [c' [[<- _]|[_ Hc']]%lookup_insert_Some]; [apply H7; lia|apply H5; [done|by eexists]].
      * intros u' Hu'. apply H7. lia.
  - intros k slot Hk. destruct (sim_key _ _ Hs k slot Hk) as (A & R & HAR & HA & [Hids Hval]).
    exists A, R. split_and!; [done|by eapply begin_writer|]. constructor; [|done]. cbn. eapply Forall_impl; [exact Hids|].
    intros wv [? ?]. split; [lia|]. rewrite lookup_insert_ne by lia. done.
  - apply (sim_absent _ _ Hs).
  - apply (sim_slots _ _ Hs).
Qed.

(** ** Get *)

Lemma sim_get e s tid k c :
  sim e s -> sp_active s !! tid = Some c -> get tid k e = Some (read_result s c k).
Proof.
  intros Hs Hc. destruct (sim_txn _ _ Hs _ _ Hc) as (x & Hx & Hok). unfold get, read_result. rewrite Hx. cbn [mbind option_bind].
  rewrite <- (sim_slots _ _ Hs). destruct (table_ e !! k) as [slot|] eqn:Hk.
  - rewrite read_versions, (t_read _ _ _ _ _ Hok k slot Hk), bool_decide_true by by eapply elem_of_dom_2. by destruct (view_get c k).
  - rewrite (t_absent _ _ _ _ _ Hok k Hk), bool_decide_false; [done|]. by apply not_elem_of_dom.
Qed.

(** ** Put *)

Definition wrote (s : store) (tid k : Z) (v : list Z) (c : client) : store :=
  mk_store (sp_next s) (sp_committed s) (<[tid := mk_client (snap c) (<[k := v]> (writes c))]> (sp_active s))
    ({[k]} ∪ sp_slots s).

(** The slot before the write, created by [operator[]] if it is new, is in
    order for every other transaction. *)
Definition slot_at (table : gmap Z TupleSlot) (k : Z) : TupleSlot := default new_slot (table !! k).

Lemma slot_key_ok e s k : sim e s -> key_ok s k (slot_at (table_ e) k) \/ table_ e !! k = None.
Proof.
  intros Hs. unfold slot_at. destruct (table_ e !! k) as [slot|] eqn:Hk; [left|by right]. by apply (sim_key _ _ Hs).
Qed.

Lemma new_slot_settled e s k :
  sim e s -> table_ e !! k = None -> settled s k (versions new_slot).
Proof.
  intros Hs Hk. pose proof (sim_range _ _ Hs). constructor; cbn.
  - constructor; [|done]. cbn. split; [lia|]. apply (sim_fresh e s); [done|lia].
  - by rewrite (sim_absent _ _ Hs k Hk).
Qed.

(** All versions of [k], whether the slot exists or is created. *)
Lemma slot_split e s tid k c :
  sim e s -> sp_active s !! tid = Some c ->
  (forall u c', u <> tid -> sp_active s !! u = Some c' -> writes c' !! k = None) ->
  exists A R, versions (slot_at (table_ e) k) = A ++ R /\ Forall (fun wv => wv.1 = tid) A /\ settled s k R.
Proof.
  intros Hs Hc Hother. unfold slot_at. destruct (table_ e !! k) as [slot|] eqn:Hk; cbn [default].
  - destruct (sim_key _ _ Hs k slot Hk) as (A & R & HAR & HA & HR). exists A, R. split_and!; [exact HAR| |done].
    destruct HA as [|u c' v A Hu Hv Ho HA]; [done|]. assert (u = tid) as ->; [|by constructor].
    destruct (decide (u = tid)) as [|Hne]; [done|]. by rewrite (Hother u c' Hne Hu) in Hv.
  - exists [], (versions new_slot). split_and!; [done|done|]. by eapply new_slot_settled.
Qed.

Lemma slot_read e s u c x k :
  sim e s -> txn_ok s (table_ e) u c x ->
  first_visible (is_visible (read_view x)) (versions (slot_at (table_ e) k)) = Some (default [] (view_get c k)) /\
  undo_count k (undo_entries x) = length (by_writer u (versions (slot_at (table_ e) k))).
Proof.
  intros Hs Hok. unfold slot_at. destruct (table_ e !! k) as [slot|] eqn:Hk; cbn [default].
  - split; [by apply Hok|by apply Hok].
  - rewrite (t_absent _ _ _ _ _ Hok k Hk), (t_none _ _ _ _ _ Hok k Hk). pose proof (t_range _ _ _ _ _ Hok).
    split; [cbn; by rewrite (t_base _ _ _ _ _ Hok)|]. rewrite by_writer_none; [done|]. constructor; [cbn; lia|done].
Qed.

Lemma undo_count_snoc k es k' old :
  undo_count k (es ++ [(k', old)]) = (undo_count k es + if decide (k' = k) then 1 else 0)%nat.
Proof. unfold undo_count. rewrite filter_app, length_app, filter_cons. cbn. case_decide; done. Qed.

Section put.
Context (e : t) (s : store) (tid k : Z) (v : list Z) (c : client) (x : Transaction) (file : list Z).
Context (Hs : sim e s) (Hc : sp_active s !! tid = Some c) (Hx : objs (tx_manager_ e) !! tid = Some x).
Context (Hok : txn_ok s (table_ e) tid c x).
Context (Hother : forall u c', u <> tid -> sp_active s !! u = Some c' -> writes c' !! k = None).

Let slot : TupleSlot := slot_at (table_ e) k.
Let slot' : TupleSlot := mk_slot k v tid (mk_undo (xmin slot) (val slot) :: roll_ptr slot).
Let table' : gmap Z TupleSlot := <[k := slot']> (table_ e).
Let s' : store := wrote s tid k v c.

Lemma put_versions : versions slot' = (tid, v) :: versions slot.
Proof. done. Qed.

Lemma put_active u c' :
  sp_active s' !! u = Some c' ->
  (u = tid /\ c' = mk_client (snap c) (<[k := v]> (writes c))) \/ (u <> tid /\ sp_active s !! u = Some c').
Proof. unfold s', wrote. cbn. intros [[<- <-]|[Hne Hu]]%lookup_insert_Some; auto. Qed.

Lemma put_active_dom u : is_Some (sp_active s' !! u) <-> is_Some (sp_active s !! u).
Proof.
  unfold s', wrote. cbn. destruct (decide (u = tid)) as [->|Hne].
  - rewrite lookup_insert_eq, Hc. split; intros _; by eexists.
  - by rewrite lookup_insert_ne.
Qed.

Lemma put_none u : sp_active s !! u = None <-> sp_active s' !! u = None.
Proof. rewrite !eq_None_not_Some. by rewrite put_active_dom. Qed.

Lemma put_view k' : view_get (mk_client (snap c) (<[k := v]> (writes c))) k' = if decide (k' = k) then Some v else view_get c k'.
Proof. unfold view_get. cbn. case_decide as Hk; [subst; by rewrite lookup_insert_eq|by rewrite lookup_insert_ne]. Qed.

(** The writing transaction. *)
Lemma put_self old :
  txn_ok s' table' tid (mk_client (snap c) (<[k := v]> (writes c)))
    (mk_txn (txn_id x) (state x) (read_view x) (undo_entries x ++ [(k, old)])).
Proof.
  destruct (slot_read e s tid c x k Hs Hok) as [Hread Hcount].
  pose proof Hok as [H1 H2 H3 H4 H5 H6 H7 H8 H9 H10 H11]. constructor; cbn [txn_id state read_view undo_entries]; try done.
  - intros u' Hne Hu'%put_active_dom. by apply H5.
  - intros k' sl. unfold table'. rewrite put_view. intros [[<- <-]|[Hne Hk']]%lookup_insert_Some.
    + rewrite decide_True by done. rewrite put_versions. cbn. by rewrite H6.
    + rewrite decide_False by done. by apply H8.
  - intros k'. unfold table'. rewrite put_view. intros [Hk' Hne]%lookup_insert_None. rewrite decide_False by done. by apply H9.
  - intros k' sl. unfold table'. rewrite undo_count_snoc. intros [[<- <-]|[Hne Hk']]%lookup_insert_Some.
    + rewrite decide_True by done. rewrite put_versions. unfold by_writer. rewrite filter_cons_True by done.
      rewrite Hcount. cbn [length]. unfold by_writer, slot. lia.
    + rewrite decide_False by done. rewrite (H10 _ _ Hk'). lia.
  - intros k'. unfold table'. rewrite undo_count_snoc. intros [Hk' Hne]%lookup_insert_None.
    rewrite decide_False by done. by rewrite (H11 _ Hk').
Qed.

(** The other transactions do not see the write. *)
Lemma put_other u c' y : u <> tid -> sp_active s !! u = Some c' -> txn_ok s (table_ e) u c' y -> txn_ok s' table' u c' y.
Proof.
  intros Hne Hu Hy. destruct (slot_read e s u c' y k Hs Hy) as [Hread Hcount].
  pose proof Hy as [H1 H2 H3 H4 H5 H6 H7 H8 H9 H10 H11].
  assert (is_visible (read_view y) tid = false) as Hinv by (apply H5; [done|by eexists]).
  constructor; try done.
  - intros u' Hne' Hu'%put_active_dom. by apply H5.
  - intros k' sl. unfold table'. intros [[<- <-]|[Hk Hk']]%lookup_insert_Some; [|by apply H8].
    rewrite put_versions. cbn. by rewrite Hinv.
  - intros k'. unfold table'. intros [Hk' _]%lookup_insert_None. by apply H9.
  - intros k' sl. unfold table'. intros [[<- <-]|[Hk Hk']]%lookup_insert_Some; [|by apply H10].
    rewrite put_versions. unfold by_writer. rewrite filter_cons_False by (cbn; done). done.
  - intros k'. unfold table'. intros [Hk' _]%lookup_insert_None. by apply H11.
Qed.

Lemma put_settled k' R : settled s k' R -> settled s' k' R.
Proof.
  intros [Hids Hv]. constructor; [|done]. eapply Forall_impl; [exact Hids|]. intros wv [? ?]. split; [done|]. by apply put_none.
Qed.

Lemma put_key k' sl : table' !! k' = Some sl -> key_ok s' k' sl.
Proof.
  unfold table'. intros [[<- <-]|[Hne Hk']]%lookup_insert_Some.
  - destruct (slot_split e s tid k c Hs Hc Hother) as (A & R & HAR & HA & HR). exists ((tid, v) :: A), R.
    split_and!; [rewrite put_versions; unfold slot; by rewrite HAR| |by apply put_settled].
    apply (one_writer _ _ tid (mk_client (snap c) (<[k := v]> (writes c)))); [apply lookup_insert_eq|apply lookup_insert_eq| |done].
    intros u' c' Hne [[? _]|[_ Hu]]%put_active; [done|]. by eapply Hother.
  - destruct (sim_key _ _ Hs k' sl Hk') as (A & R & HAR & HA & HR). exists A, R. split_and!; [done| |by apply put_settled].
    destruct HA as [Hn|u c' v' A Hu Hv Ho HA].
    + constructor. intros u c' [[-> ->]|[_ Hu]]%put_active; [|by eapply Hn]. cbn. rewrite lookup_insert_ne by done. by eapply Hn.
    + assert (exists c'', sp_active s' !! u = Some c'' /\ writes c'' !! k' = Some v') as (c'' & Hu' & Hv').
      { unfold s', wrote. cbn. destruct (decide (u = tid)) as [->|Hut].
        - eexists. rewrite lookup_insert_eq. split; [done|]. cbn. rewrite lookup_insert_ne by done. by simplify_eq.
        - exists c'. by rewrite lookup_insert_ne. }
      apply (one_writer _ _ u c''); [done|done| |done]. intros u' c3 Hne' [[-> ->]|[_ Hu3]]%put_active; [|by eapply Ho].
      cbn. rewrite lookup_insert_ne by done. by eapply Ho.
Qed.

Lemma sim_put_state old : sim (mk file (log_undo tid k old (tx_manager_ e)) table') s'.
Proof.
  pose proof Hs as [H1 H2 H3 H4 H5 H6 H7]. constructor; cbn [tx_manager_ log_undo next_txn_id_ active_txns_ objs table_]; try done.
  - rewrite H3. unfold s', wrote. cbn. rewrite dom_insert_L. assert (tid ∈ dom (sp_active s)) by (by apply elem_of_dom). set_solver.
  - intros u c' [[-> ->]|[Hne Hu]]%put_active.
    + eexists. rewrite lookup_alter_eq, Hx. split; [done|]. apply put_self.
    + destruct (H4 u c' Hu) as (y & Hy & Hyok). exists y. rewrite lookup_alter_ne by done. split; [done|]. by apply put_other.
  - apply put_key.
  - intros k'. unfold table'. intros [Hk' _]%lookup_insert_None. by apply H6.
  - unfold table'. rewrite dom_insert_L, H7. done.
Qed.
End put.

(** ** Commit and abort *)

Lemma finish_sim_txn e s s' st tid table' u c' :
  sim e s -> sp_next s' = sp_next s -> sp_active s' = delete tid (sp_active s) ->
  (forall y, txn_ok s (table_ e) u c' y -> txn_ok s' table' u c' y) ->
  sp_active s' !! u = Some c' ->
  exists x, objs (finish st tid (tx_manager_ e)) !! u = Some x /\ txn_ok s' table' u c' x.
Proof.
  intros Hs Hn Ha Hok Hu. rewrite Ha in Hu. apply lookup_delete_Some in Hu as [Hne Hu].
  destruct (sim_txn _ _ Hs u c' Hu) as (y & Hy & Hyok). exists y. cbn. rewrite lookup_alter_ne by done. split; [done|]. by apply Hok.
Qed.

(** The remaining transactions keep what they rely on. *)
Lemma delete_others s s' table u c' y tid :
  sp_next s' = sp_next s -> sp_active s' = delete tid (sp_active s) ->
  txn_ok s table u c' y -> txn_ok s' table u c' y.
Proof.
  intros Hn Ha [H1 H2 H3 H4 H5 H6 H7 H8 H9 H10 H11]. constructor; try done; try (rewrite Hn; done).
  intros u' Hne [c2 Hc2]. rewrite Ha in Hc2. apply lookup_delete_Some in Hc2 as [_ Hc2]. apply H5; [done|by eexists].
Qed.

Lemma settled_delete s s' k R tid :
  sp_next s' = sp_next s -> sp_active s' = delete tid (sp_active s) -> sp_committed s' !! k = sp_committed s !! k ->
  settled s k R -> settled s' k R.
Proof.
  intros Hn Ha Hcm [Hids Hv]. constructor; [|by rewrite Hcm]. eapply Forall_impl; [exact Hids|]. intros wv [? ?].
  rewrite Hn, Ha. split; [done|]. apply lookup_delete_None. by right.
Qed.

Lemma writer_delete s s' k A tid c :
  sp_active s' = delete tid (sp_active s) -> sp_active s !! tid = Some c -> writes c !! k = None -> writer s k A -> writer s' k A.
Proof.
  intros Ha Hc Hk [Hn|u c' v A' Hu Hv Ho HA].
  - constructor. intros u c'. rewrite Ha. intros [_ Hu]%lookup_delete_Some. by eapply Hn.
  - apply (one_writer _ _ u c'); [|done| |done].
    + rewrite Ha, lookup_delete_ne; [done|]. intros ->. congruence.
    + intros u' c2 Hne. rewrite Ha. intros [_ Hu']%lookup_delete_Some. by eapply Ho.
Qed.

(** A key that the finishing transaction has written. *)
Lemma writer_self s k A tid c v :
  sp_active s !! tid = Some c -> writes c !! k = Some v -> writer s k A ->
  (exists A', A = (tid, v) :: A') /\ Forall (fun wv => wv.1 = tid) A /\
  (forall u c', u <> tid -> sp_active s !! u = Some c' -> writes c' !! k = None).
Proof.
  intros Hc Hk [Hn|u c' v' A' Hu Hv Ho HA]; [by rewrite (Hn _ _ Hc) in Hk|].
  assert (u = tid) as -> by (destruct (decide (u = tid)) as [|Hne]; [done|]; by rewrite (Ho tid c) in Hk).
  simplify_eq. split_and!; [by eexists|by constructor|done].
Qed.

Lemma sim_commit_state e s tid c x file :
  sim e s -> sp_active s !! tid = Some c -> objs (tx_manager_ e) !! tid = Some x ->
  sim (mk file (Mvcc.commit tid (tx_manager_ e)) (table_ e)) (mk_store (sp_next s) (writes c ∪ sp_committed s) (delete tid (sp_active s)) (sp_slots s)).
Proof.
  intros Hs Hc Hx. pose proof Hs as [H1 H2 H3 H4 H5 H6 H7]. destruct (H4 tid c Hc) as (x' & Hx' & Hok).
  set (s' := mk_store _ _ _ _). constructor; try done.
  - cbn. rewrite H3. by rewrite dom_delete_L.
  - intros u c' Hu. apply (finish_sim_txn e s); try done. intros y. by apply (delete_others s s' _ _ _ _ tid).
  - intros k slot Hk. cbn [table_] in Hk. destruct (H5 k slot Hk) as (A & R & HAR & HA & HR).
    destruct (writes c !! k) as [v|] eqn:Hw.
    + destruct (writer_self s k A tid c v Hc Hw HA) as ((A' & ->) & HAt & Hoth).
      exists [], (((tid, v) :: A') ++ R). split_and!; [done|constructor|].
      * intros u c'. cbn. intros [Hne Hu]%lookup_delete_Some. by eapply Hoth.
      * constructor; [|cbn; by rewrite (lookup_union_Some_l _ _ k v)]. apply Forall_app. split.
        -- eapply Forall_impl; [exact HAt|]. intros wv ->. cbn. split; [apply Hok|apply lookup_delete_eq].
        -- eapply Forall_impl; [apply HR|]. cbn. intros wv [? ?]. split; [done|]. apply lookup_delete_None. by right.
    + exists A, R. split_and!; [done|by eapply writer_delete|]. apply (settled_delete s _ _ _ tid); try done.
      cbn. rewrite lookup_union, Hw. by destruct (sp_committed s !! k).
  - intros k Hk. cbn. apply lookup_union_None. split; [|by apply H6].
    pose proof (t_absent _ _ _ _ _ Hok k Hk) as Hv. unfold view_get in Hv. by destruct (writes c !! k).
Qed.

(** Undoing one key pops one version. *)
Lemma undo_key_ne table k k' : k' <> k -> undo_key table k' !! k = table !! k.
Proof.
  intros Hne. unfold undo_key. destruct (table !! k') as [slot|]; [|done]. destruct (roll_ptr slot); [done|]. by rewrite lookup_insert_ne.
Qed.

Lemma undo_key_pop table k slot :
  table !! k = Some slot -> (1 < length (versions slot))%nat ->
  exists slot', undo_key table k !! k = Some slot' /\ versions slot' = drop 1 (versions slot).
Proof.
  intros Hk Hlen. unfold undo_key. rewrite Hk. unfold versions in *. destruct (roll_ptr slot) as [|u prev]; [cbn in Hlen; lia|].
  eexists. rewrite lookup_insert_eq. split; [done|]. done.
Qed.

Lemma undo_keys es table k slot :
  table !! k = Some slot -> (undo_count k es < length (versions slot))%nat ->
  exists slot', foldl undo_key table es.*1 !! k = Some slot' /\ versions slot' = drop (undo_count k es) (versions slot).
Proof.
  revert table slot. induction es as [|[k' old] es IH]; intros table slot Hk Hlen; [by exists slot|]. cbn [fmap list_fmap foldl fst].
  unfold undo_count in *. rewrite filter_cons in *. cbn [fst] in *. destruct (decide (k' = k)) as [->|Hne].
  - cbn [length] in Hlen. destruct (undo_key_pop table k slot Hk ltac:(lia)) as (s1 & Hs1 & Hv1).
    destruct (IH _ s1 Hs1) as (s2 & Hs2 & Hv2); [rewrite Hv1, length_drop; lia|]. exists s2. split; [done|].
    by rewrite Hv2, Hv1, drop_drop.
  - apply IH; [by rewrite undo_key_ne|done].
Qed.

Lemma undo_keys_absent es table k : table !! k = None -> foldl undo_key table es !! k = None.
Proof.
  revert table. induction es as [|k' es IH]; intros table Hk; [done|]. cbn. apply IH.
  destruct (decide (k' = k)) as [->|]; [|by rewrite undo_key_ne]. unfold undo_key. by rewrite Hk.
Qed.

Lemma settled_nonempty s k R : settled s k R -> (0 < length R)%nat.
Proof. intros [_ Hv]. destruct R; [done|]. cbn. lia. Qed.

Lemma settled_by_writer s k R u : settled s k R -> is_Some (sp_active s !! u) -> by_writer u R = [].
Proof. intros [Hids _] [c Hc]. apply by_writer_none. eapply Forall_impl; [exact Hids|]. intros wv [_ Hn] He. congruence. Qed.

(** Aborting removes exactly the versions of the transaction. *)
Lemma abort_slot e s tid c x k slot :
  sim e s -> sp_active s !! tid = Some c -> txn_ok s (table_ e) tid c x -> table_ e !! k = Some slot ->
  exists slot' A R, foldl undo_key (table_ e) (undo_entries x).*1 !! k = Some slot' /\
    versions slot = A ++ R /\ writer s k A /\ settled s k R /\
    ((is_Some (writes c !! k) /\ Forall (fun wv => wv.1 = tid) A /\ versions slot' = R) \/
     (writes c !! k = None /\ versions slot' = A ++ R)).
Proof.
  intros Hs Hc Hok Hk. destruct (sim_key _ _ Hs k slot Hk) as (A & R & HAR & HA & HR).
  pose proof (settled_nonempty _ _ _ HR) as HRn. pose proof (t_count _ _ _ _ _ Hok k slot Hk) as Hcnt.
  rewrite HAR, by_writer_app, (settled_by_writer _ _ _ tid HR) in Hcnt by (by eexists). rewrite app_nil_r in Hcnt.
  destruct (writes c !! k) as [v|] eqn:Hw.
  - destruct (writer_self s k A tid c v Hc Hw HA) as (_ & HAt & _). unfold by_writer in Hcnt. rewrite filter_all in Hcnt by done.
    destruct (undo_keys (undo_entries x) (table_ e) k slot Hk) as (slot' & Hs' & Hv').
    { rewrite Hcnt, HAR, length_app. lia. }
    exists slot', A, R. split_and!; [done|done|done|done|]. left. split_and!; [by eexists|done|].
    by rewrite Hv', Hcnt, HAR, drop_app_length.
  - assert (by_writer tid A = []) as Hno.
    { destruct HA as [|u c' v A' Hu Hv Ho HAu]; [done|]. apply by_writer_none.
      assert (u <> tid) by (intros ->; congruence). constructor; [done|]. eapply Forall_impl; [exact HAu|]. by intros wv ->. }
    rewrite Hno in Hcnt. destruct (undo_keys (undo_entries x) (table_ e) k slot Hk) as (slot' & Hs' & Hv').
    { rewrite Hcnt, HAR, length_app. cbn. lia. }
    exists slot', A, R. split_and!; [done|done|done|done|]. right. split; [done|]. by rewrite Hv', Hcnt, HAR.
Qed.

Lemma abort_present e s tid c x k slot' :
  sim e s -> sp_active s !! tid = Some c -> txn_ok s (table_ e) tid c x ->
  foldl undo_key (table_ e) (undo_entries x).*1 !! k = Some slot' -> exists slot, table_ e !! k = Some slot.
Proof.
  intros Hs Hc Hok Hk. destruct (table_ e !! k) as [slot|] eqn:Ht; [by eexists|].
  by rewrite (undo_keys_absent _ _ _ Ht) in Hk.
Qed.

Section abort.
Context (e : t) (s : store) (tid : Z) (c : client) (x : Transaction) (file : list Z).
Context (Hs : sim e s) (Hc : sp_active s !! tid = Some c).
Context (Hok : txn_ok s (table_ e) tid c x).

Let table' : gmap Z TupleSlot := foldl undo_key (table_ e) (undo_entries x).*1.
Let s' : store := mk_store (sp_next s) (sp_committed s) (delete tid (sp_active s)) (sp_slots s).

Lemma abort_none k : table' !! k = None -> table_ e !! k = None.
Proof.
  intros Hk. destruct (table_ e !! k) as [slot|] eqn:Ht; [|done].
  destruct (abort_slot e s tid c x k slot Hs Hc Hok Ht) as (slot' & _ & _ & Hs' & _). unfold table' in Hk. congruence.
Qed.

Lemma abort_other u c' y : u <> tid -> sp_active s !! u = Some c' -> txn_ok s (table_ e) u c' y -> txn_ok s' table' u c' y.
Proof.
  intros Hne Hu Hy. apply (delete_others s s' table' u c' y tid); [done|done|].
  pose proof Hy as [H1 H2 H3 H4 H5 H6 H7 H8 H9 H10 H11].
  assert (is_visible (read_view y) tid = false) as Hinv by (apply H5; [done|by eexists]).
  assert (forall k slot', table' !! k = Some slot' ->
    exists slot, table_ e !! k = Some slot /\
      first_visible (is_visible (read_view y)) (versions slot') = first_visible (is_visible (read_view y)) (versions slot) /\
      by_writer u (versions slot') = by_writer u (versions slot)) as Hsame.
  { intros k slot' Hk. destruct (abort_present e s tid c x k slot' Hs Hc Hok Hk) as [slot Ht]. exists slot. split; [done|].
    destruct (abort_slot e s tid c x k slot Hs Hc Hok Ht) as (sl & A & R & Hsl & HAR & _ & _ & Hcase).
    unfold table' in Hk. assert (sl = slot') as -> by congruence. rewrite HAR.
    destruct Hcase as [(_ & HA & ->)|[_ ->]]; [|done]. split.
    - rewrite first_visible_app; [done|]. eapply Forall_impl; [exact HA|]. by intros wv ->.
    - rewrite by_writer_app, (by_writer_none u A); [done|]. eapply Forall_impl; [exact HA|]. by intros wv ->. }
  constructor; try done.
  - intros k slot' (slot & Ht & -> & _)%Hsame. by apply H8.
  - intros k Hk%abort_none. by apply H9.
  - intros k slot' (slot & Ht & _ & ->)%Hsame. by apply H10.
  - intros k Hk%abort_none. by apply H11.
Qed.

Lemma abort_key k slot' : table' !! k = Some slot' -> key_ok s' k slot'.
Proof.
  intros Hk. destruct (abort_present e s tid c x k slot' Hs Hc Hok Hk) as [slot Ht].
  destruct (abort_slot e s tid c x k slot Hs Hc Hok Ht) as (sl & A & R & Hsl & HAR & HA & HR & Hcase).
  unfold table' in Hk. assert (sl = slot') as -> by congruence.
  assert (settled s' k R) as HR' by (by apply (settled_delete s s' k R tid)).
  destruct Hcase as [([v Hw] & HAt & Hv)|[Hw Hv]].
  - exists [], R. split_and!; [done| |done]. destruct (writer_self s k A tid c v Hc Hw HA) as (_ & _ & Hoth).
    constructor. intros u c'. cbn. intros [Hne Hu]%lookup_delete_Some. by eapply Hoth.
  - exists A, R. split_and!; [done| |done]. by apply (writer_delete s s' k A tid c).
Qed.

Lemma sim_abort_state : sim (mk file (Mvcc.abort tid (tx_manager_ e)) table') s'.
Proof.
  pose proof Hs as [H1 H2 H3 H4 H5 H6 H7]. constructor; try done.
  - cbn. rewrite H3. by rewrite dom_delete_L.
  - intros u c' Hu. apply (finish_sim_txn e s); try done. intros y.
    cbn in Hu. apply lookup_delete_Some in Hu as [Hne Hu]. by apply abort_other.
  - apply abort_key.
  - intros k Hk%abort_none. by apply H6.
  - cbn [table_ sp_slots s']. rewrite <- H7. apply set_eq. intros k. rewrite !elem_of_dom. split.
    + intros [slot' Hk]. by destruct (abort_present e s tid c x k slot' Hs Hc Hok Hk) as [slot ->].
    + intros [slot Hk]. destruct (abort_slot e s tid c x k slot Hs Hc Hok Hk) as (slot' & _ & _ & Hs' & _). by exists slot'.
Qed.
End abort.

(** ** The log as a list of records *)

Inductive wrec := WPut (tid k : Z) (v : list Z) | WCommit (tid : Z) | WAbort (tid : Z).

Definition rec_id (r : wrec) : Z := match r with WPut tid _ _ | WCommit tid | WAbort tid => tid end.

Definition rec_bytes (r : wrec) : list Z :=
  match r with
  | WPut tid k v => header_bytes (mk_header 1 tid k (Z.of_nat (length v))) ++ v
  | WCommit tid => header_bytes (mk_header 2 tid 0 0)
  | WAbort tid => header_bytes (mk_header 3 tid 0 0)
  end.

Definition rec_ok (r : wrec) : Prop :=
  0 <= rec_id r < 2 ^ 64 /\
  match r with WPut _ k v => 0 <= k < 2 ^ 64 /\ Z.of_nat (length v) < 2 ^ 32 | _ => True end.

Definition log_bytes (log : list wrec) : list Z := concat (rec_bytes <$> log).

(** The transactions with a commit record. *)
Fixpoint committed_in (log : list wrec) : gset Z :=
  match log with
  | [] => ∅
  | WCommit tid :: log => {[tid]} ∪ committed_in log
  | _ :: log => committed_in log
  end.

(** The last value logged for [k] by a transaction of [X]. *)
Definition put_value (X : gset Z) (k : Z) (acc : option (list Z)) (r : wrec) : option (list Z) :=
  match r with
  | WPut tid k' v => if decide (tid ∈ X /\ k' = k) then Some v else acc
  | _ => acc
  end.

Definition last_put (X : gset Z) (log : list wrec) (k : Z) : option (list Z) := foldl (put_value X k) None log.

Record wal_ok (file : list Z) (s : store) (log : list wrec) : Prop := {
  w_bytes : file = log_bytes log;
  w_recs : Forall rec_ok log;
  w_ids : Forall (fun r => 1 <= rec_id r < sp_next s) log;
  w_active : forall u, u ∈ committed_in log -> sp_active s !! u = None;
  w_committed : forall k, last_put (committed_in log) log k = sp_committed s !! k;
  w_pending : forall u c k, sp_active s !! u = Some c ->
    last_put ({[u]} ∪ committed_in log) log k = match writes c !! k with Some v => Some v | None => sp_committed s !! k end;
  w_silent : forall u c k, sp_active s !! u = Some c -> writes c !! k = None -> Forall (fun r => forall v, r <> WPut u k v) log;
}.

Lemma committed_in_app l1 l2 : committed_in (l1 ++ l2) = committed_in l1 ∪ committed_in l2.
Proof. induction l1 as [|[] l1 IH]; cbn; rewrite ?IH; set_solver. Qed.

Lemma last_put_snoc X log r k : last_put X (log ++ [r]) k = put_value X k (last_put X log k) r.
Proof. unfold last_put. by rewrite foldl_app. Qed.

Lemma log_bytes_snoc log r : log_bytes (log ++ [r]) = log_bytes log ++ rec_bytes r.
Proof. unfold log_bytes. rewrite fmap_app, concat_app. cbn. by rewrite app_nil_r. Qed.

(** A transaction that has not written [k] does not matter for [k]. *)
Lemma last_put_silent X u log k :
  Forall (fun r => forall v, r <> WPut u k v) log -> last_put ({[u]} ∪ X) log k = last_put X log k.
Proof.
  intros Hs. unfold last_put. generalize (@None (list Z)). induction Hs as [|r log Hr _ IH]; intros acc; [done|]. cbn. rewrite IH. f_equal.
  destruct r as [tid k' v| |]; [|done..]. cbn. destruct (decide (k' = k)) as [->|]; [|by rewrite !decide_False by naive_solver].
  assert (tid <> u) by (intros ->; by apply (Hr v)). repeat case_decide; set_solver.
Qed.

Lemma last_put_ext X Y log k :
  (forall r, r ∈ log -> rec_id r ∈ X <-> rec_id r ∈ Y) -> last_put X log k = last_put Y log k.
Proof.
  intros Hxy. unfold last_put. generalize (@None (list Z)). induction log as [|r log IH]; intros acc; [done|]. cbn.
  rewrite IH by (intros r' Hr'; apply Hxy, elem_of_cons; by right). f_equal.
  destruct r as [tid k' v| |]; [|done..]. cbn. pose proof (Hxy (WPut tid k' v) ltac:(apply elem_of_cons; by left)) as H. cbn in H.
  destruct (decide (tid ∈ X /\ k' = k)), (decide (tid ∈ Y /\ k' = k)); tauto.
Qed.

Lemma wal_append_full bs file n : Z.to_nat n = length bs -> append n bs file = file ++ bs.
Proof. intros Hn. unfold append. by rewrite Hn, firstn_all. Qed.

Lemma length_header_bytes h : length (header_bytes h) = 21%nat.
Proof. unfold header_bytes. by rewrite !length_app, !length_le_encode. Qed.

(** ** The log of each operation *)

Lemma wal_begin file s log : wal_ok file s log -> 1 <= sp_next s -> wal_ok file (begun s) log.
Proof.
  intros [H1 H2 H3 H4 H5 H6 H7] Hn.
  assert (sp_next s ∉ committed_in log) as Hfresh.
  { clear -H3. induction log as [|r log IH]; [set_solver|]. apply Forall_cons in H3 as [Hr H3]. specialize (IH H3).
    destruct r; cbn in *; [done| |done]. rewrite not_elem_of_union, not_elem_of_singleton. split; [lia|done]. }
  assert (forall k, Forall (fun r => forall v, r <> WPut (sp_next s) k v) log) as Hsil.
  { intros k. eapply Forall_impl; [exact H3|]. intros r Hr v ->. cbn in Hr. lia. }
  constructor; try done.
  - eapply Forall_impl; [exact H3|]. cbn. lia.
  - intros u Hu. cbn. rewrite lookup_insert_ne; [by apply H4|]. intros <-. done.
  - intros u c k. cbn. intros [[<- <-]|[Hne Hc]]%lookup_insert_Some; [|by apply H6]. rewrite last_put_silent by done. cbn. by rewrite lookup_empty, H5.
  - intros u c k. cbn. intros [[<- <-]|[Hne Hc]]%lookup_insert_Some; [done|]. by apply H7.
Qed.

Lemma wal_put file s log tid k v c :
  wal_ok file s log -> sp_active s !! tid = Some c -> 1 <= tid < sp_next s -> sp_next s < 2 ^ 64 ->
  0 <= k < 2 ^ 64 -> Z.of_nat (length v) < 2 ^ 32 ->
  wal_ok (file ++ rec_bytes (WPut tid k v)) (wrote s tid k v c) (log ++ [WPut tid k v]).
Proof.
  intros [H1 H2 H3 H4 H5 H6 H7] Hc Ht Hn Hk Hv.
  assert (tid ∉ committed_in log) as Hnc by (intros Hin%H4; congruence).
  assert (committed_in (log ++ [WPut tid k v]) = committed_in log) as Hcm by (rewrite committed_in_app; set_solver).
  constructor.
  - by rewrite log_bytes_snoc, H1.
  - apply Forall_app. split; [done|]. constructor; [|done]. split; [cbn; lia|done].
  - apply Forall_app. split; [done|]. by constructor.
  - rewrite Hcm. intros u Hu. unfold wrote. cbn. rewrite lookup_insert_ne; [by apply H4|]. intros ->. done.
  - intros k'. rewrite Hcm, last_put_snoc, H5. cbn. rewrite decide_False by naive_solver. done.
  - intros u c' k'. rewrite Hcm, last_put_snoc. unfold wrote. cbn. intros [[<- <-]|[Hne Hu]]%lookup_insert_Some; cbn.
    + destruct (decide (k = k')) as [->|Hkk].
      * rewrite decide_True by set_solver. by rewrite lookup_insert_eq.
      * rewrite decide_False by naive_solver. rewrite lookup_insert_ne by done. by apply H6.
    + rewrite decide_False by set_solver. by apply H6.
  - intros u c' k'. unfold wrote. cbn. intros [[<- <-]|[Hne Hu]]%lookup_insert_Some; cbn; intros Hw; apply Forall_app; split.
    + apply lookup_insert_None in Hw as [Hw _]. by eapply H7.
    + apply lookup_insert_None in Hw as [_ Hkk]. constructor; [|done]. intros v' [=]. done.
    + by eapply H7.
    + constructor; [|done]. intros v' [=]. congruence.
Qed.

Lemma wal_commit file s log tid c :
  wal_ok file s log -> sp_active s !! tid = Some c -> 1 <= tid < sp_next s -> sp_next s < 2 ^ 64 ->
  (forall u c' k, u <> tid -> sp_active s !! u = Some c' -> is_Some (writes c !! k) -> writes c' !! k = None) ->
  wal_ok (file ++ rec_bytes (WCommit tid)) (mk_store (sp_next s) (writes c ∪ sp_committed s) (delete tid (sp_active s)) (sp_slots s))
    (log ++ [WCommit tid]).
Proof.
  intros [H1 H2 H3 H4 H5 H6 H7] Hc Ht Hn Huniq.
  assert (committed_in (log ++ [WCommit tid]) = {[tid]} ∪ committed_in log) as Hcm by (rewrite committed_in_app; set_solver).
  assert (forall k, (writes c ∪ sp_committed s) !! k = match writes c !! k with Some v => Some v | None => sp_committed s !! k end) as Hun.
  { intros k. rewrite lookup_union. destruct (writes c !! k); by destruct (sp_committed s !! k). }
  constructor; cbn [sp_next sp_committed sp_active].
  - by rewrite log_bytes_snoc, H1.
  - apply Forall_app. split; [done|]. constructor; [|done]. split; [cbn; lia|done].
  - apply Forall_app. split; [done|]. by constructor.
  - rewrite Hcm. intros u [->%elem_of_singleton|Hu]%elem_of_union; [apply lookup_delete_eq|].
    apply lookup_delete_None. right. by apply H4.
  - intros k. rewrite Hcm, last_put_snoc, Hun. cbn. by apply H6.
  - intros u c' k [Hne Hu]%lookup_delete_Some. rewrite Hcm, last_put_snoc, Hun. cbn. destruct (writes c !! k) as [v|] eqn:Hw.
    + assert (writes c' !! k = None) as Hw' by (eapply Huniq; [|done|]; [done|by rewrite Hw]). rewrite Hw'.
      rewrite last_put_silent by by eapply H7. rewrite (H6 tid c k Hc), Hw. done.
    + rewrite union_assoc_L, (union_comm_L {[u]}), <- union_assoc_L.
      rewrite (last_put_silent _ tid) by by eapply H7. by rewrite (H6 u c' k Hu).
  - intros u c' k [Hne Hu]%lookup_delete_Some Hw. apply Forall_app. split; [by eapply H7|]. by constructor.
Qed.

Lemma wal_abort file s log tid c :
  wal_ok file s log -> sp_active s !! tid = Some c -> 1 <= tid < sp_next s -> sp_next s < 2 ^ 64 ->
  wal_ok (file ++ rec_bytes (WAbort tid)) (mk_store (sp_next s) (sp_committed s) (delete tid (sp_active s)) (sp_slots s))
    (log ++ [WAbort tid]).
Proof.
  intros [H1 H2 H3 H4 H5 H6 H7] Hc Ht Hn.
  assert (committed_in (log ++ [WAbort tid]) = committed_in log) as Hcm by (rewrite committed_in_app; set_solver).
  constructor; cbn [sp_next sp_committed sp_active].
  - by rewrite log_bytes_snoc, H1.
  - apply Forall_app. split; [done|]. constructor; [|done]. split; [cbn; lia|done].
  - apply Forall_app. split; [done|]. by constructor.
  - rewrite Hcm. intros u Hu. apply lookup_delete_None. right. by apply H4.
  - intros k. by rewrite Hcm, last_put_snoc, H5.
  - intros u c' k [Hne Hu]%lookup_delete_Some. rewrite Hcm, last_put_snoc. by apply H6.
  - intros u c' k [Hne Hu]%lookup_delete_Some Hw. apply Forall_app. split; [by eapply H7|]. by constructor.
Qed.

(** ** One step of the engine simulates one step of the store *)

Definition related (e : t) (s : store) : Prop := sim e s /\ exists log, wal_ok (wal e) s log.

Lemma one_writer_per_key e s tid c u c' k :
  sim e s -> sp_active s !! tid = Some c -> u <> tid -> sp_active s !! u = Some c' -> is_Some (writes c !! k) -> writes c' !! k = None.
Proof.
  intros Hs Hc Hne Hu [v Hv]. destruct (table_ e !! k) as [slot|] eqn:Hk.
  - destruct (sim_key _ _ Hs k slot Hk) as (A & R & _ & HA & _).
    destruct (writer_self s k A tid c v Hc Hv HA) as (_ & _ & Ho). by eapply Ho.
  - destruct (sim_txn _ _ Hs u c' Hu) as (x & _ & Hok). pose proof (t_absent _ _ _ _ _ Hok k Hk) as Hva.
    unfold view_get in Hva. by destruct (writes c' !! k).
Qed.

Lemma step_related e s o s' rs :
  related e s -> allowed s o -> spec_step s o = Some (s', rs) ->
  exists e', step e o = Some (e', rs) /\ related e' s'.
Proof.
  intros [Hs [log Hw]] Ha Hsp. pose proof (sim_range _ _ Hs) as Hr.
  destruct o as [|tid k|tid k v|tid|tid]; cbn [spec_step] in Hsp.
  { destruct (sim_begin e s Hs Ha) as (e' & He & Hs' & Hwal). injection Hsp as <- <-. exists e'.
    cbn [step]. rewrite He. split; [done|]. split; [done|]. exists log. rewrite Hwal. apply wal_begin; [done|lia]. }
  all: destruct (sp_active s !! tid) as [c|] eqn:Hc; [|done]; cbn [mbind option_bind] in Hsp; injection Hsp as <- <-;
    destruct (sim_txn _ _ Hs _ _ Hc) as (x & Hx & Hok); pose proof (t_range _ _ _ _ _ Hok) as Ht; pose proof (t_id _ _ _ _ _ Hok) as Hid.
  - exists e. cbn [step]. rewrite (sim_get e s tid k c Hs Hc). split; [done|by split; [|exists log]].
  - destruct Ha as (Hother & Hk & Hv). eexists. cbn [step]. unfold put. rewrite Hx. cbn [mbind option_bind]. rewrite Hid.
    split; [done|]. split; [by apply (sim_put_state e s tid k v c x)|]. exists (log ++ [WPut tid k v]). cbn [wal].
    rewrite wal_append_full by lia. rewrite wal_append_full by by rewrite length_header_bytes. rewrite <- app_assoc, wrap_small by lia.
    apply (wal_put (wal e) s log tid k v c); done || lia.
  - eexists. cbn [step]. unfold commit, log_end. rewrite Hx. cbn [mbind option_bind]. rewrite Hid.
    split; [done|]. split; [by apply (sim_commit_state e s tid c x)|]. exists (log ++ [WCommit tid]). cbn [wal].
    rewrite wal_append_full by by rewrite length_header_bytes. apply wal_commit; try done; [lia|].
    intros u c' k' Hne Hu Hsome. by eapply (one_writer_per_key e s tid c u c' k').
  - eexists. cbn [step]. unfold abort, log_end. rewrite Hx. cbn [mbind option_bind]. rewrite Hid.
    split; [done|]. split; [by apply (sim_abort_state e s tid c x)|]. exists (log ++ [WAbort tid]). cbn [wal].
    rewrite wal_append_full by by rewrite length_header_bytes. apply (wal_abort _ _ _ tid c); try done. lia.
Qed.

(** ** Recovery reads the records back *)

Lemma parse_header_bytes h rest :
  0 <= type h < 256 -> 0 <= hdr_txn_id h < 2 ^ 64 -> 0 <= hdr_key h < 2 ^ 64 -> 0 <= val_size h < 2 ^ 32 ->
  parse_header (take sizeof_WalHeader (header_bytes h ++ rest)) = h.
Proof.
  intros H1 H2 H3 H4. rewrite take_app_length' by (symmetry; apply length_header_bytes). unfold parse_header, header_bytes.
  rewrite <- (app_nil_r (le_encode 4 (val_size h))).
  repeat first [rewrite load_le_app_here by (cbn; done) | rewrite load_le_app_skip by lia; cbn [Nat.sub]]. by destruct h.
Qed.

Definition redo_rec (X : gset Z) (table : gmap Z TupleSlot) (r : wrec) : gmap Z TupleSlot :=
  match r with
  | WPut tid k v =>
      if bool_decide (tid ∈ X) then <[k := mk_slot k v tid (roll_ptr (default new_slot (table !! k)))]> table else table
  | _ => table
  end.

Lemma rec_bytes_long r : (21 <= length (rec_bytes r))%nat.
Proof. destruct r; cbn; rewrite ?length_app, ?length_header_bytes; lia. Qed.

Lemma header_ltb h rest : (length (header_bytes h ++ rest) <? sizeof_WalHeader)%nat = false.
Proof. apply Nat.ltb_ge. rewrite length_app, length_header_bytes. unfold sizeof_WalHeader. lia. Qed.

Lemma drop_header h rest : drop sizeof_WalHeader (header_bytes h ++ rest) = rest.
Proof. apply drop_app_length'. symmetry. apply length_header_bytes. Qed.

Lemma analysis_log log fuel X m :
  Forall rec_ok log -> (length (log_bytes log) <= fuel)%nat ->
  analysis fuel (log_bytes log) X m = (committed_in log ∪ X, foldl Z.max m (rec_id <$> log)).
Proof.
  revert fuel X m. induction log as [|r log IH]; intros fuel X m Hok Hf.
  { cbn. rewrite (left_id_L ∅ union). destruct fuel; done. }
  apply Forall_cons in Hok as [[Hid Hr] Hok]. change (log_bytes (r :: log)) with (rec_bytes r ++ log_bytes log) in *.
  rewrite length_app in Hf. pose proof (rec_bytes_long r). destruct fuel as [|fuel]; [lia|]. cbn [analysis].
  destruct r as [tid k v|tid|tid]; cbn [rec_bytes rec_id] in *; rewrite <- ?app_assoc.
  - rewrite header_ltb, drop_header, parse_header_bytes by (cbn; lia). cbn [type val_size hdr_txn_id].
    change (1 =? WalRecordType_val PUT) with true. cbv iota. rewrite Nat2Z.id, drop_app_length.
    rewrite IH by (done || lia). done.
  - rewrite header_ltb, drop_header, parse_header_bytes by (cbn; lia). cbn [type val_size hdr_txn_id].
    change (2 =? WalRecordType_val PUT) with false. change (2 =? WalRecordType_val COMMIT) with true. cbv iota.
    rewrite IH by (done || lia). cbn [committed_in fmap list_fmap foldl rec_id]. f_equal. set_solver.
  - rewrite header_ltb, drop_header, parse_header_bytes by (cbn; lia). cbn [type val_size hdr_txn_id].
    change (3 =? WalRecordType_val PUT) with false. change (3 =? WalRecordType_val COMMIT) with false. cbv iota.
    rewrite IH by (done || lia). done.
Qed.

Lemma redo_log log fuel X table :
  Forall rec_ok log -> (length (log_bytes log) <= fuel)%nat ->
  redo fuel (log_bytes log) X table = foldl (redo_rec X) table log.
Proof.
  revert fuel table. induction log as [|r log IH]; intros fuel table Hok Hf; [by destruct fuel|].
  apply Forall_cons in Hok as [[Hid Hr] Hok]. change (log_bytes (r :: log)) with (rec_bytes r ++ log_bytes log) in *.
  rewrite length_app in Hf. pose proof (rec_bytes_long r). destruct fuel as [|fuel]; [lia|]. cbn [redo foldl].
  destruct r as [tid k v|tid|tid]; cbn [rec_bytes rec_id] in *; rewrite <- ?app_assoc.
  - rewrite header_ltb, drop_header, parse_header_bytes by (cbn; lia). cbn [type val_size hdr_txn_id hdr_key].
    change (1 =? WalRecordType_val PUT) with true. cbv iota. rewrite Nat2Z.id, drop_app_length, take_app_length.
    rewrite length_app, (proj2 (Nat.sub_0_le _ _)) by lia. cbn [replicate]. rewrite app_nil_r. rewrite IH by (done || lia). done.
  - rewrite header_ltb, drop_header, parse_header_bytes by (cbn; lia). cbn [type].
    change (2 =? WalRecordType_val PUT) with false. cbv iota. by apply IH; [|lia].
  - rewrite header_ltb, drop_header, parse_header_bytes by (cbn; lia). cbn [type].
    change (3 =? WalRecordType_val PUT) with false. cbv iota. by apply IH; [|lia].
Qed.

(** The rebuilt table: for every key one version, the last committed one. *)
Lemma redo_table X log k :
  match foldl (redo_rec X) ∅ log !! k with
  | Some slot => exists tid v, versions slot = [(tid, v)] /\ last_put X log k = Some v /\ tid ∈ X /\ exists v', WPut tid k v' ∈ log
  | None => last_put X log k = None
  end.
Proof.
  induction log as [|r log IH] using rev_ind; [done|]. rewrite foldl_app, last_put_snoc. cbn [foldl].
  assert (forall slot, (exists tid v, versions slot = [(tid, v)] /\ last_put X log k = Some v /\ tid ∈ X /\ exists v', WPut tid k v' ∈ log) ->
    exists tid v, versions slot = [(tid, v)] /\ last_put X log k = Some v /\ tid ∈ X /\ exists v', WPut tid k v' ∈ log ++ [r]) as Hmono.
  { intros slot (tid & v & H1 & H2 & H3 & v' & H4). exists tid, v. split_and!; [done..|]. exists v'. apply elem_of_app. by left. }
  set (table := foldl (redo_rec X) ∅ log) in *. destruct r as [tid k' v|tid|tid]; cbn [redo_rec put_value].
  - case_bool_decide as HX; [|rewrite decide_False by tauto; destruct (table !! k); [by apply Hmono|done]].
    destruct (decide (k' = k)) as [->|Hne].
    + rewrite lookup_insert_eq, decide_True by done. exists tid, v. split_and!; [|done|done|].
      * destruct (table !! k) as [slot|]; [|done]. destruct IH as (t0 & v0 & Hv & _). unfold versions in *. cbn.
        injection Hv as _ _ Hv. by rewrite Hv.
      * exists v. apply elem_of_app. right. by apply list_elem_of_singleton.
    + rewrite lookup_insert_ne, decide_False by tauto. destruct (table !! k); [by apply Hmono|done].
  - destruct (table !! k); [by apply Hmono|done].
  - destruct (table !! k); [by apply Hmono|done].
Qed.

Lemma foldl_max_spec l m : m <= foldl Z.max m l /\ (forall x, x ∈ l -> x <= foldl Z.max m l).
Proof.
  revert m. induction l as [|y l IH]; intros m; cbn; [split; [lia|by intros x ?%elem_of_nil]|].
  destruct (IH (Z.max m y)) as [H1 H2]. split; [lia|]. intros x [->|Hx]%elem_of_cons; [lia|by apply H2].
Qed.

Lemma foldl_max_lt l m n : m < n -> Forall (fun x => x < n) l -> foldl Z.max m l < n.
Proof. intros Hm Hl. revert m Hm. induction Hl as [|y l Hy _ IH]; intros m Hm; [done|]. cbn. apply IH. lia. Qed.

(** The engine that a restart builds from a log file. *)
Definition restart (file : list Z) : t := recover_from_wal true (TransactionalEngine file).

(** The abstract store after a restart: nothing is active, and exactly the
    committed keys exist. *)
Definition recovered (n : Z) (s : store) : store := mk_store n (sp_committed s) ∅ (dom (sp_committed s)).

Lemma restart_related e s :
  related e s -> exists n, 1 <= n <= sp_next s /\ related (restart (wal e)) (recovered n s).
Proof.
  intros [Hs [log [H1 H2 H3 H4 H5 H6 H7]]]. pose proof (sim_range _ _ Hs) as Hr. unfold restart, recover_from_wal. cbn [negb wal TransactionalEngine].
  rewrite H1, analysis_log, redo_log by (done || lia). rewrite (right_id_L ∅ union).
  destruct (foldl_max_spec (rec_id <$> log) 0) as [Hm0 Hmax]. set (mx := foldl Z.max 0 (rec_id <$> log)) in *.
  assert (mx < sp_next s) as Hmx.
  { apply foldl_max_lt; [lia|]. apply Forall_fmap. eapply Forall_impl; [exact H3|]. cbn. lia. }
  rewrite wrap_small by lia. exists (mx + 1). split; [lia|]. split.
  - constructor; cbn [tx_manager_ set_next_txn_id next_txn_id_ active_txns_ TransactionalEngine TransactionManager sp_next sp_active sp_committed sp_slots table_ recovered].
    + done.
    + lia.
    + by rewrite dom_empty_L.
    + intros u c. by rewrite lookup_empty.
    + intros k slot Hk. pose proof (redo_table (committed_in log) log k) as Ht. rewrite Hk in Ht.
      destruct Ht as (tid & v & Hv & Hl & HX & v' & Hin). exists [], [(tid, v)]. split_and!; [done|constructor|].
      * intros u c. cbn. by rewrite lookup_empty.
      * rewrite H5 in Hl. constructor; cbn; [|by rewrite Hl]. constructor; [|done]. cbn. rewrite lookup_empty. split; [|done].
        enough (tid <= mx) by lia. apply Hmax, list_elem_of_fmap. by exists (WPut tid k v').
    + intros k Hk. pose proof (redo_table (committed_in log) log k) as Ht. rewrite Hk in Ht. cbn. by rewrite <- H5.
    + cbn [recovered sp_slots]. apply set_eq. intros k. rewrite !elem_of_dom, <- H5. pose proof (redo_table (committed_in log) log k) as Ht.
      destruct (foldl _ _ _ !! k) as [slot|]; [destruct Ht as (tid & v & _ & -> & _); split; intros _; by eexists|by rewrite Ht, !is_Some_alt].
  - exists log. constructor; cbn [wal recovered sp_next sp_active sp_committed]; try done.
    apply Forall_forall. intros r Hr'. pose proof (proj1 (Forall_forall _ _) H3 r Hr') as Hid. cbn in Hid. enough (rec_id r <= mx) by lia.
    apply Hmax, list_elem_of_fmap. by exists r.
Qed.

(** ** Histories *)

Inductive legal : store -> list op -> list result -> store -> Prop :=
  | legal_nil s : legal s [] [] s
  | legal_cons s o s1 r ops rs s2 :
      allowed s o -> spec_step s o = Some (s1, r) -> legal s1 ops rs s2 -> legal s (o :: ops) (r :: rs) s2.

Fixpoint run (e : t) (ops : list op) : option (t * list result) :=
  match ops with
  | [] => Some (e, [])
  | o :: ops => '(e, r) ← step e o; '(e, rs) ← run e ops; Some (e, r :: rs)
  end.

Definition empty_store : store := mk_store 1 ∅ ∅ ∅.

Lemma related_init : related (TransactionalEngine []) empty_store.
Proof.
  split.
  - constructor; cbn; try done; try (by intros ? ?; rewrite lookup_empty).
  - exists []. constructor; cbn; try done; try (by intros ? ? ?; rewrite lookup_empty).
Qed.

Lemma run_related e s ops rs s' :
  related e s -> legal s ops rs s' -> exists e', run e ops = Some (e', rs) /\ related e' s'.
Proof.
  intros He Hl. revert e He. induction Hl as [s|s o s1 r ops rs s2 Ha Hsp _ IH]; intros e He; [by exists e|].
  destruct (step_related e s o s1 r He Ha Hsp) as (e1 & Hst & He1). destruct (IH e1 He1) as (e2 & Hrun & He2).
  exists e2. cbn [run]. rewrite Hst. cbn [mbind option_bind]. by rewrite Hrun.
Qed.

(** C2. Snapshot isolation.  For every history in which no two active
    transactions write the same key and every log write is complete, the
    engine returns exactly the results of the abstract store: each transaction
    reads its own writes over the committed state at its begin, commits take
    effect atomically for later transactions, and an aborted transaction
    leaves nothing of its values.  What it does leave is the slot of a key
    that it wrote first: a key without a value reads as the empty string if
    it has ever been written and as absent otherwise. *)
Theorem txn_snapshot_isolation ops rs s :
  legal empty_store ops rs s -> exists e, run (TransactionalEngine []) ops = Some (e, rs).
Proof.
  intros Hl. destruct (run_related _ _ _ _ _ related_init Hl) as (e & Hrun & _). by exists e.
Qed.

(** C11. Crash recovery.  After any such history a restart from the log reaches
    a state that returns, for all further such histories, exactly the results
    of the abstract store with the committed state, no active transactions
    and no other keys: a key that was written but not committed before the
    restart reads as absent. *)
Theorem txn_recovery ops rs s :
  legal empty_store ops rs s ->
  exists e n, run (TransactionalEngine []) ops = Some (e, rs) /\ 1 <= n <= sp_next s /\
    forall ops2 rs2 s2, legal (recovered n s) ops2 rs2 s2 -> exists e2, run (restart (wal e)) ops2 = Some (e2, rs2).
Proof.
  intros Hl. destruct (run_related _ _ _ _ _ related_init Hl) as (e & Hrun & He).
  destruct (restart_related e s He) as (n & Hle & Hn). exists e, n. split_and!; [done|lia..|]. intros ops2 rs2 s2 Hl2.
  destruct (run_related _ _ _ _ _ Hn Hl2) as (e2 & Hrun2 & _). by exists e2.
Qed.

(** ** Examples *)

(** The abstract store with the discipline checked at every step. *)
Definition allowedb (s : store) (o : op) : bool :=
  match o with
  | Begin => sp_next s <? 2 ^ 64 - 1
  | Put tid k v =>
      forallb (fun uc => (uc.1 =? tid) || bool_decide (writes uc.2 !! k = None)) (map_to_list (sp_active s)) &&
      (0 <=? k) && (k <? 2 ^ 64) && (Z.of_nat (length v) <? 2 ^ 32)
  | _ => true
  end.

Fixpoint spec_run (s : store) (ops : list op) : option (store * list result) :=
  match ops with
  | [] => Some (s, [])
  | o :: ops => if allowedb s o then '(s, r) ← spec_step s o; '(s, rs) ← spec_run s ops; Some (s, r :: rs) else None
  end.

Lemma allowedb_sound s o : allowedb s o = true -> allowed s o.
Proof.
  destruct o as [| |tid k v| |]; cbn; try done; [lia|].
  rewrite !andb_true_iff, forallb_forall. intros [[[Hf H1] H2] H3]. split_and!; [|lia..]. intros u c Hne Hu.
  specialize (Hf (u, c)). cbn in Hf. apply orb_true_iff in Hf as [He|Hb]; [lia|by apply bool_decide_eq_true in Hb|].
  by apply list_elem_of_In, elem_of_map_to_list.
Qed.

Lemma spec_run_legal s ops s' rs : spec_run s ops = Some (s', rs) -> legal s ops rs s'.
Proof.
  revert s rs. induction ops as [|o ops IH]; cbn; intros s rs H; [simplify_eq; constructor|].
  destruct (allowedb s o) eqn:Ha; [|done]. destruct (spec_step s o) as [[s1 r]|] eqn:Hs; [|done]. cbn in H.
  destruct (spec_run s1 ops) as [[s2 rs2]|] eqn:Hr; [|done]. cbn in H. simplify_eq.
  econstructor; [by apply allowedb_sound|done|by apply IH].
Qed.

Definition apple : list Z := [65; 112; 112; 108; 101].
Definition google : list Z := [71; 111; 111].
Definition alpha : list Z := [65; 108].

(** Commit, snapshot, abort and overwrite. *)
Definition ex_ops : list op :=
  [Begin; Put 1 10 apple; Put 1 20 google; Commit 1; Begin; Begin; Put 3 10 alpha; Get 2 10; Abort 3;
   Begin; Put 4 20 alpha; Get 4 20; Commit 4; Get 2 20; Begin; Get 5 20; Put 5 10 google].

Definition ex_spec : store * list result := default (empty_store, []) (spec_run empty_store ex_ops).

Lemma ex_legal : legal empty_store ex_ops ex_spec.2 ex_spec.1.
Proof. apply spec_run_legal. vm_compute. reflexivity. Qed.

Lemma txn_snapshot_isolation_witness :
  exists e, run (TransactionalEngine []) ex_ops = Some (e, ex_spec.2) /\
    ex_spec.2 !! 7%nat = Some (RVal (Some apple)) /\ ex_spec.2 !! 13%nat = Some (RVal (Some google)) /\
    ex_spec.2 !! 15%nat = Some (RVal (Some alpha)).
Proof.
  destruct (txn_snapshot_isolation ex_ops ex_spec.2 ex_spec.1 ex_legal) as (e & Hrun).
  exists e. split; [exact Hrun|]. split_and!; vm_compute; reflexivity.
Defined.

(** Transaction 5 is lost in the crash. *)
Lemma txn_recovery_witness :
  exists e n, run (TransactionalEngine []) ex_ops = Some (e, ex_spec.2) /\
    exists e2, run (restart (wal e)) [Begin; Get n 10; Get n 30] = Some (e2, [RTxn n; RVal (Some apple); RVal None]).
Proof.
  destruct (txn_recovery ex_ops ex_spec.2 ex_spec.1 ex_legal) as (e & n & Hrun & Hn & Hrec).
  exists e, n. split; [exact Hrun|]. assert (sp_next ex_spec.1 = 6) as Hnext by (vm_compute; reflexivity).
  assert (forall k r, r = read_result (recovered n ex_spec.1) (mk_client (sp_committed ex_spec.1) ∅) k ->
    spec_step (begun (recovered n ex_spec.1)) (Get n k) = Some (begun (recovered n ex_spec.1), RVal r)) as Hget.
  { intros k r ->. cbn [spec_step begun recovered sp_active sp_next]. by rewrite lookup_insert_eq. }
  apply (Hrec _ _ (begun (recovered n ex_spec.1))).
  apply (legal_cons _ _ (begun (recovered n ex_spec.1))); [cbn; lia|reflexivity|].
  apply (legal_cons _ _ (begun (recovered n ex_spec.1))); [exact I|apply Hget; vm_compute; reflexivity|].
  apply (legal_cons _ _ (begun (recovered n ex_spec.1))); [exact I|apply Hget; vm_compute; reflexivity|]. constructor.
Defined.

(** ** Conflicting writers *)

Section conflict.
Context (e : t) (s : store) (a b k : Z) (va vb : list Z) (ca cb : client).
Context (Hs : sim e s) (Ha : sp_active s !! a = Some ca) (Hb : sp_active s !! b = Some cb) (Hab : a <> b).
Context (Hnone : forall u c, sp_active s !! u = Some c -> writes c !! k = None).

Let slot : TupleSlot := slot_at (table_ e) k.
Let slot1 : TupleSlot := mk_slot k va a (mk_undo (xmin slot) (val slot) :: roll_ptr slot).
Let slot2 : TupleSlot := mk_slot k vb b (mk_undo a va :: roll_ptr slot1).
Let m2 : manager := log_undo b k va (log_undo a k (val slot) (tx_manager_ e)).

(** Neither transaction has written the key before. *)
Lemma unwritten_count x : txn_ok s (table_ e) a ca x -> undo_count k (undo_entries x) = 0%nat.
Proof using Hs Ha Hnone.
  intros Hok. rewrite (proj2 (slot_read e s a ca x k Hs Hok)).
  destruct (slot_split e s a k ca Hs Ha (fun u c _ Hu => Hnone u c Hu)) as (A & R & HAR & _ & HR). rewrite HAR, by_writer_app.
  rewrite (settled_by_writer s k R a HR) by (by eexists). destruct (table_ e !! k) as [sl|] eqn:Hk.
  - destruct (sim_key _ _ Hs k sl Hk) as (A' & R' & HAR' & HA' & HR'). unfold slot_at in HAR. rewrite Hk in HAR. cbn in HAR.
    destruct HA' as [_|u c v A' Hu Hv _ _]; [|by rewrite (Hnone u c Hu) in Hv].
    pose proof (settled_by_writer s k R' a HR' ltac:(by eexists)) as H0. rewrite HAR' in HAR. cbn in HAR.
    rewrite HAR, by_writer_app in H0. apply app_eq_nil in H0 as [-> _]. done.
  - pose proof (settled_by_writer s k _ a (new_slot_settled e s k Hs Hk) ltac:(by eexists)) as H0. unfold slot_at in HAR.
    rewrite Hk in HAR. cbn [default] in HAR. rewrite HAR, by_writer_app in H0. apply app_eq_nil in H0 as [-> _]. done.
Qed.

(** The two writes, then the abort of the first writer pops the version of the
    second. *)
Lemma conflict_abort file w :
  exists x table slot3, objs m2 !! a = Some x /\ txn_id x = a /\
    abort w a (mk file m2 (<[k := slot2]> (<[k := slot1]> (table_ e)))) =
      Some (mk (log_end w ABORT x file) (Mvcc.abort a m2) table) /\
    table !! k = Some slot3 /\ head (versions slot3) = Some (a, va).
Proof using Hs Ha Hab Hnone.
  destruct (sim_txn _ _ Hs a ca Ha) as (x & Hx & Hok). pose proof (unwritten_count x Hok) as H0.
  set (x' := mk_txn (txn_id x) (state x) (read_view x) (undo_entries x ++ [(k, val slot)])).
  assert (objs m2 !! a = Some x') as Hx'. { unfold m2. cbn. rewrite lookup_alter_ne, lookup_alter_eq, Hx by done. done. }
  set (table := <[k := slot2]> (<[k := slot1]> (table_ e))).
  destruct (undo_keys (undo_entries x') table k slot2) as (slot3 & Hs3 & Hv3).
  - apply lookup_insert_eq.
  - cbn [undo_entries x']. rewrite undo_count_snoc, H0, decide_True by done. cbn. lia.
  - exists x', (foldl undo_key table (undo_entries x').*1), slot3. split_and!; [done|apply Hok| |done|].
    + unfold abort. cbn [tx_manager_ wal table_]. by rewrite Hx'.
    + rewrite Hv3. cbn [undo_entries x']. rewrite undo_count_snoc, H0, decide_True by done. done.
Qed.

(** What a transaction that begins after the end of both reads. *)
Lemma conflict_read file table slot3 :
  sp_next s < 2 ^ 64 - 1 -> table !! k = Some slot3 -> head (versions slot3) = Some (a, va) ->
  exists e', begin_transaction (mk file (Mvcc.commit b (Mvcc.abort a m2)) table) = (sp_next s, e') /\
    get (sp_next s) k e' = Some (Some va).
Proof using Hs Ha Hb Hab Hnone.
  intros Hn Ht Hv. set (m4 := Mvcc.commit b (Mvcc.abort a m2)).
  assert (next_txn_id_ m4 = sp_next s) as Hnext by apply (sim_next _ _ Hs).
  assert (active_txns_ m4 = dom (sp_active s) ∖ {[a]} ∖ {[b]}) as Hact by (cbn; by rewrite (sim_active _ _ Hs)).
  destruct (sim_txn _ _ Hs a ca Ha) as (x & _ & Hok). pose proof (t_range _ _ _ _ _ Hok) as Hr. pose proof (sim_range _ _ Hs).
  assert (forall u, u ∈ active_txns_ m4 -> is_active m4 u = true) as Hall.
  { intros u. rewrite Hact, !elem_of_difference, !not_elem_of_singleton. intros [[Hu Hua] Hub].
    rewrite <- (sim_is_active e s u Hs) by by rewrite (sim_active _ _ Hs). unfold is_active. cbn. by rewrite !lookup_alter_ne. }
  pose proof (begin_view m4 Hall) as Hview. rewrite Hnext in Hview.
  unfold begin_transaction, Mvcc.begin_transaction. cbn [tx_manager_ wal table_]. fold m4. rewrite Hnext, wrap_small by lia.
  eexists. split; [done|]. unfold get. cbn [tx_manager_ objs table_]. rewrite lookup_insert_eq. cbn [mbind option_bind]. rewrite Ht.
  rewrite read_versions. destruct (versions slot3) as [|[w v] l]; [done|]. injection Hv as -> ->. cbn [first_visible read_view].
  rewrite (view_inactive _ _ _ a Hview); [done| |lia]. rewrite Hact. set_solver.
Qed.
End conflict.

Lemma run_app e ops1 ops2 e1 rs1 :
  run e ops1 = Some (e1, rs1) -> run e (ops1 ++ ops2) = ('(e2, rs2) ← run e1 ops2; Some (e2, rs1 ++ rs2)).
Proof.
  revert e rs1. induction ops1 as [|o ops1 IH]; intros e rs1; cbn [run app].
  - intros [= -> <-]. by destruct (run e1 ops2) as [[]|].
  - destruct (step e o) as [[e' r]|]; [|done]. cbn [mbind option_bind]. destruct (run e' ops1) as [[e2 rs2]|] eqn:Hr; [|done].
    cbn [mbind option_bind]. intros [= -> <-]. rewrite (IH e' rs2 Hr). by destruct (run e1 ops2) as [[]|].
Qed.

(** C40. Conflicting writes are not detected.  After any history without
    conflicts, let two active transactions write a key that no active
    transaction has written: when the first writer aborts, the version of the
    second is popped instead of its own, so once the second has committed
    every later transaction reads the value of the aborted one. *)
Theorem txn_conflicting_abort ops rs s a b k va vb :
  legal empty_store ops rs s -> is_Some (sp_active s !! a) -> is_Some (sp_active s !! b) -> a <> b ->
  (forall u c, sp_active s !! u = Some c -> writes c !! k = None) -> sp_next s < 2 ^ 64 - 1 ->
  exists e, run (TransactionalEngine [])
      (ops ++ [Put a k va; Put b k vb; Abort a; Commit b; Begin; Get (sp_next s) k]) =
    Some (e, rs ++ [RUnit; RUnit; RUnit; RUnit; RTxn (sp_next s); RVal (Some va)]).
Proof.
  intros Hl [ca Ha] [cb Hb] Hab Hnone Hn. destruct (run_related _ _ _ _ _ related_init Hl) as (e & Hrun & Hs & _).
  rewrite (run_app _ _ _ _ _ Hrun). destruct (sim_txn _ _ Hs a ca Ha) as (x & Hx & Hxok).
  destruct (sim_txn _ _ Hs b cb Hb) as (y & Hy & Hyok). set (slot := slot_at (table_ e) k).
  set (slot1 := mk_slot k va a (mk_undo (xmin slot) (val slot) :: roll_ptr slot)).
  assert (exists f1, put 21 (Z.of_nat (length va)) a k va e =
    Some (mk f1 (log_undo a k (val slot) (tx_manager_ e)) (<[k := slot1]> (table_ e)))) as [f1 H1].
  { eexists. unfold put. rewrite Hx. cbn [mbind option_bind]. by rewrite (t_id _ _ _ _ _ Hxok). }
  set (m2 := log_undo b k va (log_undo a k (val slot) (tx_manager_ e))).
  set (slot2 := mk_slot k vb b (mk_undo a va :: roll_ptr slot1)).
  assert (exists f2, put 21 (Z.of_nat (length vb)) b k vb (mk f1 (log_undo a k (val slot) (tx_manager_ e)) (<[k := slot1]> (table_ e))) =
    Some (mk f2 m2 (<[k := slot2]> (<[k := slot1]> (table_ e))))) as [f2 H2].
  { eexists. unfold put. cbn [tx_manager_ log_undo objs table_]. rewrite lookup_alter_ne, Hy by done. cbn [mbind option_bind].
    rewrite lookup_insert_eq. by rewrite (t_id _ _ _ _ _ Hyok). }
  destruct (conflict_abort e s a b k va vb ca Hs Ha Hab Hnone f2 21) as (x' & table & slot3 & _ & _ & H3 & Ht & Hv).
  fold slot in H3. fold slot1 in H3. fold slot2 m2 in H3. set (f3 := log_end 21 ABORT x' f2) in *.
  assert (exists f4, commit 21 b (mk f3 (Mvcc.abort a m2) table) = Some (mk f4 (Mvcc.commit b (Mvcc.abort a m2)) table)) as [f4 H4].
  { unfold commit. cbn. rewrite lookup_alter_ne, lookup_alter_eq, lookup_alter_ne, Hy by done. by eexists. }
  destruct (conflict_read e s a b k va ca cb Hs Ha Hb Hab Hnone f4 table slot3 Hn Ht Hv) as (e5 & H5 & H6).
  fold slot in H5. fold m2 in H5. exists e5. cbn [run step]. rewrite H1. cbn [mbind option_bind]. rewrite H2. cbn [mbind option_bind].
  rewrite H3. cbn [mbind option_bind]. rewrite H4. cbn [mbind option_bind]. rewrite H5. cbn [mbind option_bind]. by rewrite H6.
Qed.

(** Transactions 2 and 5 of the history above. *)
Lemma txn_conflicting_abort_witness :
  exists e, run (TransactionalEngine []) (ex_ops ++ [Put 2 30 apple; Put 5 30 google; Abort 2; Commit 5; Begin; Get 6 30]) =
    Some (e, ex_spec.2 ++ [RUnit; RUnit; RUnit; RUnit; RTxn 6; RVal (Some apple)]).
Proof.
  assert (sp_next ex_spec.1 = 6) as Hnext by (vm_compute; reflexivity). rewrite <- Hnext.
  apply (txn_conflicting_abort ex_ops ex_spec.2 ex_spec.1 2 5 30 apple google ex_legal).
  - vm_compute. by eexists.
  - vm_compute. by eexists.
  - lia.
  - assert (map_Forall (fun _ c => writes c !! 30 = None) (sp_active ex_spec.1)) as Hf by (apply (bool_decide_unpack _); vm_compute; exact I).
    exact Hf.
  - rewrite Hnext. reflexivity.
Defined.

(** A key that was only written by an aborted transaction reads as the empty
    string. *)
Lemma txn_absent_reads_empty va :
  snd <$> run (TransactionalEngine []) [Begin; Put 1 10 va; Abort 1; Begin; Get 2 10] =
    Some [RTxn 1; RUnit; RUnit; RTxn 2; RVal (Some [])].
Proof. vm_compute. reflexivity. Qed.

(** A record cut off by a crash stays in the log: a transaction committed after
    the restart is not found by the next one. *)
Definition ex_torn : t := default (TransactionalEngine []) (fst <$> run (restart [3]) [Begin; Put 1 10 apple; Commit 1]).

Lemma txn_lost_after_torn_write :
  snd <$> run (restart [3]) [Begin; Put 1 10 apple; Commit 1] = Some [RTxn 1; RUnit; RUnit] /\
  table_ (restart (wal ex_torn)) !! 10 = None.
Proof. split; vm_compute; reflexivity. Qed.
End Txn.
