(* ===== verification/EmbeddedDb.v ===== *)
(** * The embedded LSM database

    Model of [EmbeddedLsmDatabase] (12-capstone, embedded_lsm_database.hpp):
    the memtable and tables of the LSM engine behind a write-ahead log.  [put]
    appends to the log before it takes the latch, so its two halves are
    separate operations.  A table reads its file through an open descriptor:
    it sees what the file holds now.  The outcomes of the system calls are
    arguments. *)

From S2P Require Import Prelude Bytes Bloom SSTable SkipList LsmEngine.

#[local] Open Scope Z_scope.
#[local] Open Scope cpp_scope.

Module Db.

Section db.
Context {T : Type} {repr : T -> gmap Z Z -> Prop} {MT : MemTable T repr}.
Context (m_of : Z -> Z) (k_of : Z -> Z -> Z).

(** [sstables_] pairs each table with the number of its file; [files] and
    [wal] are the directory. *)
Record t := mk {
  memtable_threshold_ : Z;
  wal_fd_ : bool;
  next_sst_id_ : Z;
  memtable_ : T;
  sstables_ : list (Z * SST.t);
  compaction_running_ : bool;
  files : gmap Z (list Z);
  wal : list Z;
}.

Definition EmbeddedLsmDatabase (threshold : Z) (wal_opened : bool) (dir : gmap Z (list Z)) (log : list Z) : t :=
  mk threshold wal_opened 0 mt_empty [] true dir log.

Definition flush_memtable_locked (e : Lsm.io) (s : t) : option t :=
  if mt_size (memtable_ s) =? 0 then Some s else
  pairs ← mt_to_vector (memtable_ s);
  let id := next_sst_id_ s in
  let old := default [] (files s !! id) in
  let '(built, content) := SST.build m_of k_of (Lsm.padding e) (Lsm.created e) (Lsm.writes e) pairs old in
  let sstables :=
    if built then
      match SST.open (Lsm.reopened e) content with Some sst => sstables_ s ++ [(id, sst)] | None => sstables_ s end
    else sstables_ s in
  Some (mk (memtable_threshold_ s) (wal_fd_ s) (id +64 1) mt_empty sstables (compaction_running_ s)
           (if built then <[id := content]> (files s) else files s) (wal s)).

Definition flush_memtable (e : Lsm.io) (s : t) : option t := flush_memtable_locked e s.

Definition wal_entry (k v : Z) : list Z := le_encode 8 k ++ le_encode 8 v.

(** [w] is the number of bytes that reach the log; the result of [write] is
    discarded. *)
Definition put_wal (w : nat) (k v : Z) (s : t) : t :=
  mk (memtable_threshold_ s) (wal_fd_ s) (next_sst_id_ s) (memtable_ s) (sstables_ s) (compaction_running_ s) (files s)
     (if wal_fd_ s then wal s ++ take w (wal_entry k v) else wal s).

Definition put_mem (draws : list bool) (e : Lsm.io) (k v : Z) (s : t) : option t :=
  mem ← mt_put draws k v (memtable_ s);
  let s := mk (memtable_threshold_ s) (wal_fd_ s) (next_sst_id_ s) mem (sstables_ s) (compaction_running_ s) (files s) (wal s) in
  if memtable_threshold_ s <=? mt_byte_size mem then flush_memtable_locked e s else Some s.

Definition put (w : nat) (draws : list bool) (e : Lsm.io) (k v : Z) (s : t) : option t :=
  put_mem draws e k v (put_wal w k v s).

(** A table with what its file holds at the moment. *)
Definition current (fs : gmap Z (list Z)) (x : Z * SST.t) : SST.t :=
  SST.mk (default [] (fs !! x.1)) (SST.bloom_ x.2) (SST.index_ x.2).

Definition get (k : Z) (s : t) : option (option Z) :=
  r ← mt_get k (memtable_ s);
  match r with
  | Some v => Some (Some v)
  | None => Lsm.get_tables k (current (files s) <$> reverse (sstables_ s))
  end.

Definition load_tables (opens : Z -> bool) (order : list Z) (fs : gmap Z (list Z)) : list (Z * SST.t) :=
  omap (fun id => c ← fs !! id; pair id <$> SST.open (opens id) c) order.

(** The loop of [read] calls of 16 bytes. *)
Fixpoint replay (fuel : nat) (draws : nat -> list bool) (log : list Z) (mem : T) : option T :=
  match fuel with
  | O => Some mem
  | S fuel =>
      let entry := take 16 log in
      if (length entry =? 16)%nat then
        mem ← mt_put (draws fuel) (load_le 8 0 entry) (load_le 8 8 entry) mem;
        replay fuel draws (drop 16 log) mem
      else Some mem
  end.

(** [order] is the order of the directory iteration. *)
Definition recover (opens : Z -> bool) (order : list Z) (wal_opens : bool) (draws : nat -> list bool) (s : t) : option t :=
  mem ← (if wal_opens then replay (S (length (wal s))) draws (wal s) mt_empty else Some mt_empty);
  Some (mk (memtable_threshold_ s) (wal_fd_ s) (next_sst_id_ s) mem (load_tables opens order (files s))
           (compaction_running_ s) (files s) (wal s)).

Definition sstable_count (s : t) : Z := Z.of_nat (length (sstables_ s)).

(** The merged table is created and dropped. *)
Definition compact_level0 (s : t) : t :=
  if sstable_count s <? 4 then s else let merged_table := mt_empty in s.

Definition close (e : Lsm.io) (s : t) : option t :=
  let s := mk (memtable_threshold_ s) (wal_fd_ s) (next_sst_id_ s) (memtable_ s) (sstables_ s) false (files s) (wal s) in
  s ← flush_memtable e s;
  Some (mk (memtable_threshold_ s) false (next_sst_id_ s) (memtable_ s) (sstables_ s) false (files s) (wal s)).

(** ** Invariant *)

(** A file that holds a table over keys of [m]. *)
Definition file_ok (m : gmap Z Z) (c : list Z) : Prop :=
  exists sst tm, SST.open true c = Some sst /\ SST.file sst = c /\ Lsm.table_of sst tm /\ dom tm ⊆ dom m.

Definition table_ok (s : t) (x : Z * SST.t) (tm : gmap Z Z) : Prop :=
  files s !! x.1 = Some (SST.file x.2) /\ Lsm.table_of x.2 tm.

Record inv (s : t) (puts : list (Z * Z)) (mm : gmap Z Z) (tms : list (gmap Z Z)) (n : nat) : Prop := {
  i_mem : repr (memtable_ s) mm;
  i_small : Lsm.small_map mm;
  i_size : (base.size mm <= n)%nat;
  i_tables : Forall2 (table_ok s) (reverse (sstables_ s)) tms;
  i_next : 0 <= next_sst_id_ s <= Z.of_nat n;
  i_fresh : forall id, next_sst_id_ s <= id -> files s !! id = None;
  i_files : forall id c, files s !! id = Some c -> file_ok (Lsm.merged mm tms) c;
  i_fd : wal_fd_ s = true;
  i_wal : wal s = concat (uncurry wal_entry <$> puts);
  i_puts : Lsm.merged mm tms = foldl (fun m kv => <[kv.1 := kv.2]> m) ∅ puts;
  i_u64 : Forall SST.pair_ok puts }.

Lemma current_ok s x tm : table_ok s x tm -> Lsm.table_of (current (files s) x) tm.
Proof. intros [Hf Ht]. unfold current. rewrite Hf. cbn. destruct x as [id [c b ix]]. done. Qed.

Lemma db_get_spec k s puts mm tms n : inv s puts mm tms n -> get k s = Some (Lsm.merged mm tms !! k).
Proof.
  intros HI. unfold get, Lsm.merged. rewrite (mt_get_repr k _ _ (i_mem _ _ _ _ _ HI)). cbn [mbind option_bind].
  rewrite (Lsm.get_tables_spec k _ tms).
  - rewrite lookup_union. destruct (mm !! k); by destruct (_ !! k).
  - eapply Forall2_fmap_l, Forall2_impl; [apply HI|]. intros x tm. apply current_ok.
Qed.

Context (Hbits : forall n, 0 <= n < 2 ^ 40 -> Bloom.num_bits_ (Bloom.BloomFilter m_of k_of n) < 2 ^ 60).

Lemma db_flush e s puts mm tms n :
  Lsm.good_io e -> Z.of_nat (S n) < 2 ^ 40 -> inv s puts mm tms n ->
  exists s' mm' tms', flush_memtable_locked e s = Some s' /\ inv s' puts mm' tms' (S n).
Proof using Hbits.
  intros He Hn HI. pose proof (i_mem _ _ _ _ _ HI) as Hm. pose proof (i_small _ _ _ _ _ HI) as Hsm.
  unfold flush_memtable_locked. rewrite (mt_size_repr _ _ Hm). pose proof Hsm as [Hsz _]. rewrite wrap_small by lia.
  destruct (Z.eqb_spec (Z.of_nat (base.size mm)) 0) as [H0|H0].
  { exists s, mm, tms. split; [done|]. destruct HI. split; try done; lia. }
  assert (mm <> ∅) as Hne by (intros ->; by rewrite map_size_empty in H0).
  destruct (mt_to_vector_repr _ _ Hm) as (l & -> & Hs & Hl). cbn [mbind option_bind].
  pose proof (Lsm.table_fits m_of k_of Hbits e l mm He Hsm Hne Hs Hl) as Hf. destruct He as (Hc & _ & Ho & _). rewrite Hc, Ho.
  rewrite (SST.build_table _ _ _ _ _ Hf), (SST.open_table _ _ _ _ _ Hf).
  set (c := SST.table_bytes _ _ _ _). set (sst := SST.mk c _ _).
  assert (Lsm.table_of sst mm) as Ht by (intros k; unfold sst, c; by rewrite (SST.get_table _ _ _ _ _ Hf), Hl).
  eexists _, ∅, (mm :: tms). split; [done|]. destruct HI as [_ _ Hz Htb Hnx Hfr Hfi Hfd Hw Hp Hu].
  assert (Lsm.merged ∅ (mm :: tms) = Lsm.merged mm tms) as Hmg by (unfold Lsm.merged; cbn; by rewrite (left_id_L ∅ union)).
  split; cbn [wal_fd_ next_sst_id_ memtable_ sstables_ files wal]; try done.
  - apply mt_empty_repr.
  - rewrite map_size_empty. lia.
  - rewrite reverse_app. cbn. constructor; [split; [apply lookup_insert_eq|done]|].
    eapply Forall2_impl; [done|]. intros [id x] tm [Hid Hx]. split; [|done]. cbn in *.
    rewrite lookup_insert_ne; [done|]. intros <-. by rewrite Hfr in Hid.
  - rewrite wrap_small; lia.
  - intros id Hid. rewrite wrap_small in Hid by lia. rewrite lookup_insert_ne by lia. apply Hfr. lia.
  - intros id c' [[<- <-]|[_ Hc']]%lookup_insert_Some; rewrite Hmg; [|by eapply Hfi].
    exists sst, mm. split_and!; [exact (SST.open_table _ _ _ _ _ Hf)|done|done|]. unfold Lsm.merged. rewrite dom_union_L. set_solver.
  - by rewrite Hmg.
Qed.

Lemma file_ok_mono m m' c : dom m ⊆ dom m' -> file_ok m c -> file_ok m' c.
Proof. intros Hd (sst & tm & ? & ? & ? & ?). exists sst, tm. split_and!; [done..|]. set_solver. Qed.

Lemma db_put draws e k v s puts mm tms n :
  Lsm.good_io e -> SST.pair_ok (k, v) -> Z.of_nat (S (S n)) < 2 ^ 40 -> inv s puts mm tms n ->
  exists s' mm' tms', put 16 draws e k v s = Some s' /\ inv s' (puts ++ [(k, v)]) mm' tms' (S (S n)).
Proof using Hbits.
  intros He Hkv Hn HI. unfold put, put_mem. cbn.
  destruct (mt_put_repr draws k v _ _ (i_mem _ _ _ _ _ HI)) as (mem & -> & Hmem). cbn [mbind option_bind].
  set (s1 := mk _ _ _ mem _ _ _ _). destruct HI as [Hm [_ Hok] Hz Htb Hnx Hfr Hfi Hfd Hw Hp Hu].
  destruct (Lsm.small_insert k v mm n Hok Hz ltac:(lia) Hkv) as [Hsm Hsz].
  assert (inv s1 (puts ++ [(k, v)]) (<[k := v]> mm) tms (S n)) as HI.
  { split; cbn [s1 wal_fd_ next_sst_id_ memtable_ sstables_ files wal]; try done; try lia.
    - intros id c Hc. apply (file_ok_mono (Lsm.merged mm tms)); [|by eapply Hfi].
      rewrite Lsm.merged_insert, dom_insert_L. set_solver.
    - rewrite Hfd, Hw, fmap_app, concat_app. cbn. by rewrite app_nil_r.
    - by rewrite Lsm.merged_insert, foldl_app, Hp.
    - apply Forall_app. split; [done|by constructor]. }
  destruct (_ <=? _); [destruct (db_flush e s1 _ _ _ _ He Hn HI) as (s' & mm' & tms' & ? & ?); eauto|].
  exists s1, (<[k := v]> mm), tms. split; [done|]. destruct HI. split; try done; lia.
Qed.

(** ** Recovery *)

Lemma length_wal_entry k v : length (wal_entry k v) = 16%nat.
Proof. unfold wal_entry. by rewrite length_app, !length_le_encode. Qed.

(** The log of complete entries and a torn one. *)
Lemma replay_spec fuel draws puts torn mem m :
  (length puts < fuel)%nat -> (length torn < 16)%nat -> Forall SST.pair_ok puts -> repr mem m ->
  exists mem', replay fuel draws (concat (uncurry wal_entry <$> puts) ++ torn) mem = Some mem' /\
    repr mem' (foldl (fun m kv => <[kv.1 := kv.2]> m) m puts).
Proof.
  intros Hf Ht. revert fuel mem m Hf. induction puts as [|[k v] puts IH]; intros fuel mem m Hf Hu Hm; (destruct fuel as [|fuel]; [cbn in Hf; lia|]).
  { exists mem. cbn [fmap list_fmap concat app replay]. rewrite take_ge by lia. by rewrite (proj2 (Nat.eqb_neq _ _)) by lia. }
  apply Forall_cons in Hu as [[Hk Hv] Hu]. cbn [fmap list_fmap concat uncurry replay]. rewrite <- app_assoc.
  pose proof (length_wal_entry k v) as Hlen.
  rewrite take_app_length' by done. rewrite drop_app_length' by done. rewrite Hlen. cbn [Nat.eqb].
  assert (load_le 8 0 (wal_entry k v) = k /\ load_le 8 8 (wal_entry k v) = v) as [-> ->].
  { unfold wal_entry. split; [by apply load_le_app_here|]. rewrite load_le_app_skip by lia.
    rewrite <- (app_nil_r (le_encode 8 v)). by apply load_le_app_here. }
  destruct (mt_put_repr (draws fuel) k v _ _ Hm) as (mem1 & -> & Hm1). cbn [mbind option_bind].
  apply IH; [cbn in Hf; lia|done|done].
Qed.

Lemma load_tables_ok m opens order (fs : gmap Z (list Z)) :
  (forall id c, fs !! id = Some c -> file_ok m c) ->
  exists tms, Forall2 Lsm.table_of (current fs <$> load_tables opens order fs) tms /\ Forall (fun tm => dom tm ⊆ dom m) tms.
Proof.
  intros Hfs. induction order as [|id order (tms & Ht & Hd)]; [by exists []|]. cbn.
  destruct (fs !! id) as [c|] eqn:Hc; cbn; [|by exists tms].
  destruct (Hfs _ _ Hc) as (sst & tm & Ho & Hf & Htm & Hdm). destruct (opens id); [|by exists tms]. rewrite Ho. cbn.
  exists (tm :: tms). split; constructor; try done. unfold current. cbn. rewrite Hc. cbn. rewrite <- Hf. by destruct sst.
Qed.

Lemma union_none (m : gmap Z Z) (tms : list (gmap Z Z)) k :
  Forall (fun tm => dom tm ⊆ dom m) tms -> m !! k = None -> (foldr union ∅ tms : gmap Z Z) !! k = None.
Proof.
  intros Hd Hk. induction Hd as [|tm tms Hs _ IH]; cbn; [apply lookup_empty|].
  apply lookup_union_None. split; [|done]. apply not_elem_of_dom. apply not_elem_of_dom in Hk. set_solver.
Qed.

(** Recovery from a log of [puts] and a torn entry, on tables over keys that
    the log mentions. *)
Lemma recover_get opens order draws threshold fs puts torn :
  (length torn < 16)%nat -> Forall SST.pair_ok puts ->
  let m := foldl (fun m kv => <[kv.1 := kv.2]> m) ∅ puts in
  (forall id c, fs !! id = Some c -> file_ok m c) ->
  exists r, recover opens order true draws (EmbeddedLsmDatabase threshold true fs (concat (uncurry wal_entry <$> puts) ++ torn)) = Some r /\
    forall k, get k r = Some (m !! k).
Proof.
  intros Ht Hu m Hfi. unfold recover. cbn [wal EmbeddedLsmDatabase].
  destruct (replay_spec (S (length (concat (uncurry wal_entry <$> puts) ++ torn))) draws puts torn mt_empty ∅)
    as (mem & -> & Hmem); [|done|done|apply mt_empty_repr|].
  { apply Nat.lt_succ_r. rewrite length_app. etrans; [|apply Nat.le_add_r]. etrans; [|apply SST.length_le_concat]; [by rewrite length_fmap|].
    apply Forall_fmap, Forall_true. by intros []. }
  fold m in Hmem. cbn [mbind option_bind]. eexists. split; [done|]. intros k. unfold get. cbn [memtable_ files sstables_].
  rewrite (mt_get_repr k _ _ Hmem). cbn [mbind option_bind].
  destruct (m !! k) as [v|] eqn:Hk; [done|].
  destruct (load_tables_ok _ opens order fs Hfi) as (tms' & Hts & Hd).
  rewrite fmap_reverse. apply Forall2_reverse in Hts.
  rewrite (Lsm.get_tables_spec k _ (reverse tms')) by done. f_equal.
  apply (union_none m); [by apply Forall_reverse|done].
Qed.

(** The crash comes while one more [put] has written [w] bytes of its entry. *)
Lemma crash_get opens order draws threshold s puts mm tms n w k v :
  inv s puts mm tms n -> SST.pair_ok (k, v) ->
  exists r, recover opens order true draws (EmbeddedLsmDatabase threshold true (files s) (wal (put_wal w k v s))) = Some r /\
    forall j, get j r = Some ((if (w <? 16)%nat then Lsm.merged mm tms else <[k := v]> (Lsm.merged mm tms)) !! j).
Proof.
  intros HI Hkv. destruct HI as [Hm Hsm Hz Htb Hnx Hfr Hfi Hfd Hw Hp Hu]. unfold put_wal. cbn [wal]. rewrite Hfd, Hw. pose proof (length_wal_entry k v) as Hlen.
  rewrite Hp in *. destruct (Nat.ltb_spec w 16).
  - apply recover_get; [rewrite length_take; lia|done|done].
  - rewrite take_ge by lia.
    destruct (recover_get opens order draws threshold (files s) (puts ++ [(k, v)]) []) as (r & Hr & Hg); [cbn; lia| | |].
    + apply Forall_app. split; [done|by constructor].
    + intros id c Hc. eapply file_ok_mono; [|by eapply Hfi]. rewrite foldl_app. cbn. rewrite dom_insert_L. set_solver.
    + rewrite fmap_app, concat_app in Hr. cbn in Hr. rewrite !app_nil_r in Hr. exists r. split; [done|].
      intros j. by rewrite Hg, foldl_app.
Qed.

(** ** Histories *)

Inductive op := Put (draws : list bool) (e : Lsm.io) (k v : Z) | Flush (e : Lsm.io) | Compact.

(** Every [put] gets its 16 bytes into the log. *)
Definition exec (s : option t) (o : op) : option t :=
  s ≫= match o with
       | Put draws e k v => put 16 draws e k v
       | Flush e => flush_memtable e
       | Compact => fun s => Some (compact_level0 s)
       end.

Definition abstract (m : gmap Z Z) (o : op) : gmap Z Z := match o with Put _ _ k v => <[k := v]> m | _ => m end.

Definition good_op (o : op) : Prop :=
  match o with Put _ e k v => Lsm.good_io e /\ SST.pair_ok (k, v) | Flush e => Lsm.good_io e | Compact => True end.

Lemma db_run ops threshold :
  Forall good_op ops -> 2 * Z.of_nat (length ops) < 2 ^ 40 ->
  exists s puts mm tms, foldl exec (Some (EmbeddedLsmDatabase threshold true ∅ [])) ops = Some s /\
    inv s puts mm tms (2 * length ops) /\ Lsm.merged mm tms = foldl abstract ∅ ops.
Proof using Hbits.
  induction ops as [|o ops IH] using rev_ind; intros Hg Hn.
  - eexists _, [], ∅, []. split_and!; [done| |done]. split; cbn; try done. apply mt_empty_repr.
  - rewrite length_app in *. cbn [length] in *. apply Forall_app in Hg as [Hg [Ho _]%Forall_cons].
    destruct IH as (s & puts & mm & tms & Hs & HI & Hm); [done|lia|]. rewrite !foldl_app, Hs. cbn [foldl exec mbind option_bind].
    replace (2 * (length ops + 1))%nat with (S (S (2 * length ops))) by lia.
    destruct o as [draws e k v|e|]; cbn in Ho.
    + destruct Ho as [He Hkv]. destruct (db_put draws e k v s puts mm tms (2 * length ops) He Hkv ltac:(lia) HI) as (s' & mm' & tms' & Hs' & HI').
      exists s'. eexists _, mm', tms'. split_and!; [done|exact HI'|].
      rewrite (i_puts _ _ _ _ _ HI'), foldl_app, <- (i_puts _ _ _ _ _ HI), Hm. done.
    + destruct (db_flush e s puts mm tms (2 * length ops) Ho ltac:(lia) HI) as (s' & mm' & tms' & Hs' & HI').
      exists s', puts, mm', tms'. split_and!; [done| |].
      * destruct HI'. split; try done; lia.
      * rewrite (i_puts _ _ _ _ _ HI'), <- (i_puts _ _ _ _ _ HI), Hm. done.
    + exists s, puts, mm, tms. split_and!; [unfold compact_level0; by destruct (_ <? _)| |done].
      destruct HI. split; try done; lia.
Qed.

(** C4. The embedded database survives a crash.  Take any history of complete
    puts, flushes and compactions, one after the other, on a new directory and
    with working system calls: every log entry is written in full, every table
    is built and opened.  Then [get] finds for every key the value put last.
    If the process dies while one more [put] has written [w] bytes of its log
    entry, a database that is opened on the directory and recovered answers the
    same, with that [put] if its entry is complete and without it otherwise,
    whatever the order in which the directory is listed and whichever of the
    tables can be opened; [w = 0] is a crash between two operations. *)
Theorem db_recovery ops threshold opens order draws threshold' w k v :
  Forall good_op ops -> 2 * Z.of_nat (length ops) < 2 ^ 40 -> SST.pair_ok (k, v) ->
  exists s r, foldl exec (Some (EmbeddedLsmDatabase threshold true ∅ [])) ops = Some s /\
    recover opens order true draws (EmbeddedLsmDatabase threshold' true (files s) (wal (put_wal w k v s))) = Some r /\
    forall j, get j s = Some (foldl abstract ∅ ops !! j) /\
      get j r = Some ((if (w <? 16)%nat then foldl abstract ∅ ops else <[k := v]> (foldl abstract ∅ ops)) !! j).
Proof using Hbits.
  intros Hg Hn Hkv. destruct (db_run ops threshold Hg Hn) as (s & puts & mm & tms & Hs & HI & <-).
  destruct (crash_get opens order draws threshold' s puts mm tms _ w k v HI Hkv) as (r & Hr & Hget).
  exists s, r. split_and!; [done|done|]. intros j. split; [by eapply db_get_spec|done].
Qed.
End db.

(** ** Examples with the skip list *)

Definition ex_ops : list op :=
  [Put [true; false] Lsm.ex_io 7 70; Put [] Lsm.ex_io 3 30; Compact; Put [true] Lsm.ex_io 9 90; Flush Lsm.ex_io;
   Put [] Lsm.ex_io 7 71].

Lemma ex_db_ops_good : Forall good_op ex_ops.
Proof.
  assert (forall draws k v, 0 <= k < 100 -> 0 <= v < 100 -> good_op (Put draws Lsm.ex_io k v)) as Hp.
  { intros draws k v Hk Hv. split; [apply Lsm.ex_good_io|]. split; unfold SST.is_u64; cbn; lia. }
  repeat apply Forall_cons_2; [apply Hp; lia..|done|apply Hp; lia|apply Lsm.ex_good_io|apply Hp; lia|constructor].
Qed.

Lemma db_recovery_witness :
  exists s r : @t SkipList.t,
    foldl (exec Bloom.ex_m Bloom.ex_k) (Some (EmbeddedLsmDatabase 120 true ∅ [])) ex_ops = Some s /\
    recover (fun _ => true) [1; 0] true (fun _ => []) (EmbeddedLsmDatabase 120 true (files s) (wal (put_wal 11 3 31 s))) = Some r /\
    get 7 r = Some (Some 71) /\ get 3 r = Some (Some 30) /\ get 8 r = Some None.
Proof.
  destruct (db_recovery (T := SkipList.t) Bloom.ex_m Bloom.ex_k Lsm.ex_bits ex_ops 120 (fun _ => true) [1; 0] (fun _ => []) 120 11 3 31)
    as (s & r & Hs & Hr & Hg).
  - exact ex_db_ops_good.
  - reflexivity.
  - split; unfold SST.is_u64; cbn; lia.
  - exists s, r. split_and!; [exact Hs|exact Hr|rewrite (proj2 (Hg _)); vm_compute; reflexivity..].
Defined.

Abbreviation put_mem' := (put_mem (T := SkipList.t) Bloom.ex_m Bloom.ex_k [] Lsm.ex_io).
Definition ex_new : @t SkipList.t := EmbeddedLsmDatabase 1000 true ∅ [].
Definition ex_recover (s : @t SkipList.t) : option t :=
  recover (fun _ => true) [] true (fun _ => []) (EmbeddedLsmDatabase 1000 true (files s) (wal s)).

(** Two threads put the same key: the log is written outside the latch, so the
    second one in the log can be the first one in the memtable, and recovery
    changes the value that readers saw before. *)
Definition ex_raced : option t := put_mem' 5 2 (put_wal 16 5 2 (put_wal 16 5 1 ex_new)) ≫= put_mem' 5 1.

Lemma db_put_reordered :
  (ex_raced ≫= get 5) = Some (Some 1) /\ ((ex_raced ≫= ex_recover) ≫= get 5) = Some (Some 2).
Proof. split; vm_compute; reflexivity. Qed.

(** A put whose log write fails is acknowledged and lost by a crash. *)
Definition ex_unlogged : option t := put (T := SkipList.t) Bloom.ex_m Bloom.ex_k 0 [] Lsm.ex_io 5 1 ex_new.

Lemma db_put_not_logged :
  (ex_unlogged ≫= get 5) = Some (Some 1) /\ ((ex_unlogged ≫= ex_recover) ≫= get 5) = Some None.
Proof. split; vm_compute; reflexivity. Qed.

(** The numbering of the tables is not recovered: the first flush after a
    restart overwrites the file of an existing table. *)
Lemma db_ids_restart opens order wal_opens draws (r : @t SkipList.t) threshold log dir :
  recover opens order wal_opens draws (EmbeddedLsmDatabase threshold true dir log) = Some r -> next_sst_id_ r = 0.
Proof.
  unfold recover. destruct (if wal_opens then _ else _) as [mem|]; cbn; [|done]. by intros [= <-].
Qed.
End Db.
