(* ===== verification/Mpmc.v ===== *)
(** * The bounded multi-producer multi-consumer queue

    Model of [MPMCQueue<T>] (04-hardware-sync, mpmc_queue.hpp).  A call is
    split at its accesses to the two shared positions and to the cells, and
    [step] interleaves any number of threads.  A weak compare-exchange may
    fail although the values agree.  [hist] records the values in the order
    in which their positions were claimed. *)

From S2P Require Import Prelude Ring.

#[local] Open Scope Z_scope.
#[local] Open Scope cpp_scope.

(** [static_cast<intptr_t>] of a 64-bit value. *)
Definition s64 (x : Z) : Z := if x <? 2 ^ 63 then x else x - 2 ^ 64.

Module Mpmc.

(** ** The queue *)

Definition round_up_pow2 (v : Z) : Z :=
  if v <? 2 then 2
  else
    let v := v -64 1 in
    let v := Z.lor v (Z.shiftr v 1) in
    let v := Z.lor v (Z.shiftr v 2) in
    let v := Z.lor v (Z.shiftr v 4) in
    let v := Z.lor v (Z.shiftr v 8) in
    let v := Z.lor v (Z.shiftr v 16) in
    let v := Z.lor v (Z.shiftr v 32) in
    v +64 1.

Section queue.
Context {T : Type}.

Record Cell := mk_cell { sequence : Z; data : T }.

Record t := mk { capacity_ : Z; mask_ : Z; buffer_ : list Cell; enqueue_pos_ : Z; dequeue_pos_ : Z }.

(** [dflt] is the value-initialised [T]. *)
Definition MPMCQueue (dflt : T) (capacity : Z) : t :=
  let cap := round_up_pow2 capacity in
  mk cap (cap -64 1) ((fun i => mk_cell (Z.of_nat i) dflt) <$> seq 0 (Z.to_nat cap)) 0 0.

Definition capacity (s : t) : Z := capacity_ s.

Definition idx (s : t) (pos : Z) : nat := Z.to_nat (Z.land pos (mask_ s)).

Definition set_cell (s : t) (pos : Z) (f : Cell -> Cell) : t :=
  mk (capacity_ s) (mask_ s) (alter f (idx s pos) (buffer_ s)) (enqueue_pos_ s) (dequeue_pos_ s).

Definition set_enqueue (s : t) (p : Z) : t := mk (capacity_ s) (mask_ s) (buffer_ s) p (dequeue_pos_ s).
Definition set_dequeue (s : t) (p : Z) : t := mk (capacity_ s) (mask_ s) (buffer_ s) (enqueue_pos_ s) p.

(** The three outcomes of comparing a cell's sequence number with a position. *)
Inductive verdict := Ready | Refuse | Reload.

Definition classify (diff : Z) : verdict :=
  if diff =? 0 then Ready else if diff <? 0 then Refuse else Reload.

Definition emplace_test (s : t) (pos : Z) : option verdict :=
  (fun c => classify (s64 (sequence c) - s64 pos)) <$> buffer_ s !! idx s pos.

Definition pop_test (s : t) (pos : Z) : option verdict :=
  (fun c => classify (s64 (sequence c) - s64 (pos +64 1))) <$> buffer_ s !! idx s pos.

Definition emplace_write (v : T) (s : t) (pos : Z) : t := set_cell s pos (fun c => mk_cell (sequence c) v).
Definition emplace_publish (s : t) (pos : Z) : t := set_cell s pos (fun c => mk_cell (pos +64 1) (data c)).
Definition pop_read (s : t) (pos : Z) : option T := data <$> buffer_ s !! idx s pos.
Definition pop_release (s : t) (pos : Z) : t := set_cell s pos (fun c => mk_cell (pos +64 mask_ s +64 1) (data c)).

(** ** Interleaving of the threads *)

(** Where a thread stands: before loading the position, holding a position,
    about to compare-exchange it, owning it, and having accessed the data. *)
Inductive pc :=
| Idle
| E_load (v : T) | E_pos (v : T) (pos : Z) | E_cas (v : T) (pos : Z) | E_own (v : T) (pos : Z) | E_written (v : T) (pos : Z)
| D_load | D_pos (pos : Z) | D_cas (pos : Z) | D_own (pos : Z) | D_taken (pos : Z) (out : T).

(** [received] lists the completed calls of [pop] with the position and the
    value of each. *)
Record cfg := mkc { q : t; thr : nat -> pc; hist : list T; received : list (Z * T) }.

Definition upd (f : nat -> pc) (i : nat) (p : pc) : nat -> pc := fun j => if decide (j = i) then p else f j.

Inductive step : cfg -> cfg -> Prop :=
| st_push s f h r i v : f i = Idle -> step (mkc s f h r) (mkc s (upd f i (E_load v)) h r)
| st_eload s f h r i v : f i = E_load v -> step (mkc s f h r) (mkc s (upd f i (E_pos v (enqueue_pos_ s))) h r)
| st_eready s f h r i v pos : f i = E_pos v pos -> emplace_test s pos = Some Ready ->
    step (mkc s f h r) (mkc s (upd f i (E_cas v pos)) h r)
| st_efull s f h r i v pos : f i = E_pos v pos -> emplace_test s pos = Some Refuse ->
    step (mkc s f h r) (mkc s (upd f i Idle) h r)
| st_ereload s f h r i v pos : f i = E_pos v pos -> emplace_test s pos = Some Reload ->
    step (mkc s f h r) (mkc s (upd f i (E_load v)) h r)
| st_ecas_ok s f h r i v pos : f i = E_cas v pos -> enqueue_pos_ s = pos ->
    step (mkc s f h r) (mkc (set_enqueue s (pos +64 1)) (upd f i (E_own v pos)) (h ++ [v]) r)
| st_ecas_fail s f h r i v pos : f i = E_cas v pos ->
    step (mkc s f h r) (mkc s (upd f i (E_pos v (enqueue_pos_ s))) h r)
| st_ewrite s f h r i v pos : f i = E_own v pos ->
    step (mkc s f h r) (mkc (emplace_write v s pos) (upd f i (E_written v pos)) h r)
| st_epublish s f h r i v pos : f i = E_written v pos ->
    step (mkc s f h r) (mkc (emplace_publish s pos) (upd f i Idle) h r)
| st_pop s f h r i : f i = Idle -> step (mkc s f h r) (mkc s (upd f i D_load) h r)
| st_dload s f h r i : f i = D_load -> step (mkc s f h r) (mkc s (upd f i (D_pos (dequeue_pos_ s))) h r)
| st_dready s f h r i pos : f i = D_pos pos -> pop_test s pos = Some Ready ->
    step (mkc s f h r) (mkc s (upd f i (D_cas pos)) h r)
| st_dempty s f h r i pos : f i = D_pos pos -> pop_test s pos = Some Refuse ->
    step (mkc s f h r) (mkc s (upd f i Idle) h r)
| st_dreload s f h r i pos : f i = D_pos pos -> pop_test s pos = Some Reload ->
    step (mkc s f h r) (mkc s (upd f i D_load) h r)
| st_dcas_ok s f h r i pos : f i = D_cas pos -> dequeue_pos_ s = pos ->
    step (mkc s f h r) (mkc (set_dequeue s (pos +64 1)) (upd f i (D_own pos)) h r)
| st_dcas_fail s f h r i pos : f i = D_cas pos ->
    step (mkc s f h r) (mkc s (upd f i (D_pos (dequeue_pos_ s))) h r)
| st_dread s f h r i pos v : f i = D_own pos -> pop_read s pos = Some v ->
    step (mkc s f h r) (mkc s (upd f i (D_taken pos v)) h r)
| st_drelease s f h r i pos v : f i = D_taken pos v ->
    step (mkc s f h r) (mkc (pop_release s pos) (upd f i Idle) h (r ++ [(pos, v)])).

Definition init (dflt : T) (cap : Z) : cfg := mkc (MPMCQueue dflt cap) (fun _ => Idle) [] [].
End queue.
#[global] Arguments t : clear implicits.
#[global] Arguments pc : clear implicits.
#[global] Arguments cfg : clear implicits.
#[global] Arguments Cell : clear implicits.

(** ** Rounding up to a power of two

    [smeared d v0 v]: every bit of [v0] has been copied to the [d - 1]
    positions below it. *)

Definition smeared (d v0 v : Z) : Prop :=
  forall i, 0 <= i -> (Z.testbit v i = true <-> exists j, i <= j < i + d /\ Z.testbit v0 j = true).

Lemma smeared_refl v : smeared 1 v v.
Proof.
  intros i Hi. split; [exists i; split; [lia|done]|]. intros (j & Hj & Hb). by replace i with j by lia.
Qed.

Lemma smeared_step d v0 v : 0 < d -> smeared d v0 v -> smeared (d + d) v0 (Z.lor v (Z.shiftr v d)).
Proof.
  intros Hd Hv i Hi. rewrite Z.lor_spec, Z.shiftr_spec, orb_true_iff, (Hv i Hi), (Hv (i + d) ltac:(lia)) by lia. split.
  - intros [(j & Hj & Hb)|(j & Hj & Hb)]; exists j; (split; [lia|done]).
  - intros (j & Hj & Hb). destruct (Z.lt_ge_cases j (i + d)); [left|right]; exists j; (split; [lia|done]).
Qed.

Lemma smeared_top v0 v : 0 < v0 < 2 ^ 64 -> smeared 64 v0 v -> v = 2 ^ (Z.log2 v0 + 1) - 1.
Proof.
  intros Hv0 Hv. pose proof (Z.log2_nonneg v0). replace (2 ^ (Z.log2 v0 + 1) - 1) with (Z.ones (Z.log2 v0 + 1)) by (rewrite Z.ones_equiv; lia).
  assert (Z.log2 v0 < 64) by (apply Z.log2_lt_pow2; lia).
  apply Z.bits_inj'. intros i Hi. apply eq_bool_prop_intro. rewrite !Is_true_true, (Hv i Hi).
  destruct (Z.lt_ge_cases i (Z.log2 v0 + 1)).
  - rewrite Z.ones_spec_low by lia. split; [done|]. intros _. exists (Z.log2 v0). split; [lia|].
    apply Z.bit_log2. lia.
  - rewrite Z.ones_spec_high by lia. split; [|done]. intros (j & Hj & Hb).
    rewrite Z.bits_above_log2 in Hb; [done|lia|lia].
Qed.

Lemma round_up_log2 v : 2 <= v < 2 ^ 64 -> round_up_pow2 v = u64 (2 ^ (Z.log2 (v - 1) + 1)).
Proof.
  intros Hv. unfold round_up_pow2. rewrite (proj2 (Z.ltb_ge v 2)), (wrap_small 64 (v - 1)) by lia.
  cbv zeta. f_equal. match goal with |- ?w + 1 = _ => enough (smeared 64 (v - 1) w) as Hs by (apply smeared_top in Hs; lia) end.
  do 6 (match goal with |- smeared ?d _ (Z.lor _ (Z.shiftr _ ?e)) => change d with (e + e) end;
        apply smeared_step; [lia|]).
  apply smeared_refl.
Qed.

Lemma round_up_capacity v : 0 <= v <= 2 ^ 63 -> exists k, 1 <= k < 64 /\ round_up_pow2 v = 2 ^ k.
Proof.
  intros Hv. destruct (Z.lt_ge_cases v 2) as [Hlt|Hge].
  - exists 1. split; [lia|]. unfold round_up_pow2. by rewrite (proj2 (Z.ltb_lt v 2)).
  - exists (Z.log2 (v - 1) + 1). pose proof (Z.log2_nonneg (v - 1)).
    assert (Z.log2 (v - 1) < 63) by (apply Z.log2_lt_pow2; lia).
    split; [lia|]. rewrite round_up_log2 by lia. apply wrap_small.
    split; [apply Z.pow_nonneg; lia|apply Z.pow_lt_mono_r; lia].
Qed.

(** ** Invariant *)

Section invariant.
Context {T : Type} (k : Z) (Hk : 1 <= k < 64).
Abbreviation cap := (2 ^ k).

Definition slot (p : Z) : nat := Z.to_nat (p mod cap).

(** The cell of position [p] awaits its producer, or its consumer. *)
Definition vacant_at (s : t T) (p : Z) : Prop := exists c, buffer_ s !! slot p = Some c /\ sequence c = p.
Definition full_at (s : t T) (p : Z) (v : T) : Prop := buffer_ s !! slot p = Some (mk_cell (p + 1) v).

Definition eholds (c : pc T) (p : Z) : Prop :=
  match c with E_own _ p' | E_written _ p' => p' = p | _ => False end.
Definition dholds (c : pc T) (p : Z) : Prop :=
  match c with D_own p' | D_taken p' _ => p' = p | _ => False end.

Definition pc_ok (s : t T) (h : list T) (c : pc T) : Prop :=
  let n := Z.of_nat (length h) in
  let m := dequeue_pos_ s in
  match c with
  | Idle | E_load _ | D_load => True
  | E_pos _ p => 0 <= p <= n
  | E_cas _ p => 0 <= p <= n /\ (p = n -> vacant_at s p)
  | E_own v p => 0 <= p < n /\ h !! Z.to_nat p = Some v /\ vacant_at s p
  | E_written v p => 0 <= p < n /\ h !! Z.to_nat p = Some v /\ buffer_ s !! slot p = Some (mk_cell p v)
  | D_pos p => 0 <= p <= m
  | D_cas p => 0 <= p <= m /\ (p = m -> exists v, full_at s p v)
  | D_own p => 0 <= p < m /\ exists v, full_at s p v /\ h !! Z.to_nat p = Some v
  | D_taken p v => 0 <= p < m /\ full_at s p v /\ h !! Z.to_nat p = Some v
  end.

(** Every cell belongs to one position: the one whose producer it awaits, or
    the one whose value it holds. *)
Definition cell_ok (x : cfg T) (p : Z) : Prop :=
  let n := Z.of_nat (length (hist x)) in
  let m := dequeue_pos_ (q x) in
  (vacant_at (q x) p /\ m <= p < m + cap /\ (p < n -> exists i, eholds (thr x i) p)) \/
  (exists v, full_at (q x) p v /\ 0 <= p /\ p < n <= p + cap /\ hist x !! Z.to_nat p = Some v /\
     (p < m -> exists i, dholds (thr x i) p)).

Record Inv (x : cfg T) : Prop := {
  inv_cap : capacity_ (q x) = cap;
  inv_mask : mask_ (q x) = cap - 1;
  inv_len : length (buffer_ (q x)) = Z.to_nat cap;
  inv_enq : enqueue_pos_ (q x) = Z.of_nat (length (hist x));
  inv_deq : 0 <= dequeue_pos_ (q x) <= Z.of_nat (length (hist x)) /\
    Z.of_nat (length (hist x)) <= dequeue_pos_ (q x) + cap;
  inv_cells : forall j, 0 <= j < cap -> exists p, p mod cap = j /\ cell_ok x p;
  inv_pc : forall i, pc_ok (q x) (hist x) (thr x i);
  inv_eown : forall i j p, eholds (thr x i) p -> eholds (thr x j) p -> i = j;
  inv_down : forall i j p, dholds (thr x i) p -> dholds (thr x j) p -> i = j;
  inv_nodup : NoDup (received x).*1;
  inv_rec : forall p v, (p, v) ∈ received x ->
    0 <= p < dequeue_pos_ (q x) /\ hist x !! Z.to_nat p = Some v /\ forall i, ~ dholds (thr x i) p;
  inv_done : forall p, 0 <= p < dequeue_pos_ (q x) -> (exists i, dholds (thr x i) p) \/ p ∈ (received x).*1 }.

Lemma cap_bounds : 2 <= cap < 2 ^ 64.
Proof. split; [change 2 with (2 ^ 1) at 1; apply Z.pow_le_mono_r; lia|apply Z.pow_lt_mono_r; lia]. Qed.

Lemma slot_inj p p' : slot p = slot p' -> p mod cap = p' mod cap.
Proof.
  pose proof cap_bounds. unfold slot. pose proof (Z.mod_pos_bound p cap ltac:(lia)).
  pose proof (Z.mod_pos_bound p' cap ltac:(lia)). lia.
Qed.

Lemma mod_near p p' : p mod cap = p' mod cap -> Z.abs (p - p') < cap -> p = p'.
Proof. intros Heq Hab. apply (wrap_inj k); [lia|done|done]. Qed.

Lemma idx_slot (s : t T) p : mask_ s = cap - 1 -> idx s p = slot p.
Proof. intros Hm. unfold idx, slot. by rewrite Hm, land_mask by lia. Qed.

(** The sequence number of a cell tells its position. *)
Lemma vacant_vacant s p p' : vacant_at s p -> vacant_at s p' -> slot p = slot p' -> p = p'.
Proof. intros (c & Hc & Hs) (c' & Hc' & Hs') Heq. rewrite Heq, Hc' in Hc. simplify_eq. done. Qed.

Lemma full_full s p v p' v' : full_at s p v -> full_at s p' v' -> slot p = slot p' -> p = p' /\ v = v'.
Proof. unfold full_at. intros Hc Hc' Heq. rewrite Heq, Hc' in Hc. injection Hc as ? ->. split; [lia|done]. Qed.

Lemma vacant_full s p p' v : vacant_at s p -> full_at s p' v -> slot p <> slot p'.
Proof.
  unfold full_at. intros (c & Hc & Hs) Hc' Heq. pose proof (slot_inj _ _ Heq) as Hm. rewrite Heq, Hc' in Hc. simplify_eq. cbn in *.
  apply mod_near in Hm; [lia|]. pose proof cap_bounds. lia.
Qed.

Lemma written_vacant s p v : buffer_ s !! slot p = Some (mk_cell p v) -> vacant_at s p.
Proof. intros Hc. by eexists. Qed.

Lemma cell_at x p : Inv x -> exists p', slot p' = slot p /\ p' mod cap = p mod cap /\ cell_ok x p'.
Proof.
  intros HI. pose proof cap_bounds. destruct (inv_cells _ HI (p mod cap)) as (p' & Hp & Hc).
  { apply Z.mod_pos_bound. lia. }
  exists p'. split_and!; [unfold slot; congruence|done|done].
Qed.

Lemma cell_vacant x p : Inv x -> vacant_at (q x) p -> cell_ok x p.
Proof.
  intros HI Hv. destruct (cell_at x p HI) as (p' & Hs & _ & Hc). destruct Hc as [Hc|Hc].
  - left. by rewrite (vacant_vacant _ _ _ Hv (proj1 Hc)).
  - destruct Hc as (v & Hf & _). by destruct (vacant_full _ _ _ _ Hv Hf).
Qed.

Lemma cell_full x p v : Inv x -> full_at (q x) p v -> cell_ok x p.
Proof.
  intros HI Hf. destruct (cell_at x p HI) as (p' & Hs & _ & Hc). destruct Hc as [Hc|Hc].
  - destruct Hc as (Hv & _). by destruct (vacant_full _ _ _ _ Hv Hf).
  - destruct Hc as (v' & Hf' & ?). destruct (full_full _ _ _ _ _ Hf Hf') as [-> ->]; [done|]. right. by exists v'.
Qed.

Lemma upd_eq (f : nat -> pc T) i c : upd f i c i = c.
Proof. unfold upd. by rewrite decide_True. Qed.
Lemma upd_ne (f : nat -> pc T) i j c : j <> i -> upd f i c j = f j.
Proof. intros Hne. unfold upd. by rewrite decide_False. Qed.

(** A thread that neither gains nor loses a position. *)
Lemma inv_local s f h r i c :
  Inv (mkc s f h r) -> pc_ok s h c -> (forall p, eholds c p <-> eholds (f i) p) ->
  (forall p, dholds c p <-> dholds (f i) p) -> Inv (mkc s (upd f i c) h r).
Proof.
  intros HI Hok He Hd.
  assert (forall j p, eholds (upd f i c j) p <-> eholds (f j) p) as He'.
  { intros j p. unfold upd. case_decide; [subst|]; done. }
  assert (forall j p, dholds (upd f i c j) p <-> dholds (f j) p) as Hd'.
  { intros j p. unfold upd. case_decide; [subst|]; done. }
  destruct HI as [? ? ? ? ? Hcells Hpc Heo Hdo ? Hrec Hdone]. split; cbn in *; try done.
  - intros j Hj. destruct (Hcells j Hj) as (p & Hp & Hc). exists p. split; [done|].
    unfold cell_ok in *. cbn in *. setoid_rewrite He'. setoid_rewrite Hd'. done.
  - intros j. unfold upd. case_decide; [done|apply Hpc].
  - intros j j' p. rewrite !He'. apply Heo.
  - intros j j' p. rewrite !Hd'. apply Hdo.
  - intros p v Hin. setoid_rewrite Hd'. by apply Hrec.
  - intros p Hp. setoid_rewrite Hd'. by apply Hdone.
Qed.

(** The cell whose contents a thread counts on. *)
Definition relies (n m : Z) (c : pc T) (p : Z) : Prop :=
  match c with
  | E_cas _ p' => p' = p /\ p' = n
  | D_cas p' => p' = p /\ p' = m
  | _ => eholds c p \/ dholds c p
  end.

Lemma pc_ok_frame s s' h c :
  pc_ok s h c -> dequeue_pos_ s' = dequeue_pos_ s ->
  (forall p, relies (Z.of_nat (length h)) (dequeue_pos_ s) c p -> buffer_ s' !! slot p = buffer_ s !! slot p) ->
  pc_ok s' h c.
Proof.
  intros Hok Hm Hf. destruct c; cbn in *; rewrite ?Hm; unfold vacant_at, full_at in *; try done.
  - destruct Hok as [Hp Hc]. split; [done|]. intros Heq. rewrite Hf by done. auto.
  - rewrite Hf by (by left). done.
  - rewrite Hf by (by left). done.
  - destruct Hok as [Hp Hc]. split; [done|]. intros Heq. rewrite Hf by done. auto.
  - rewrite Hf by (by right). done.
  - rewrite Hf by (by right). done.
Qed.

(** Two threads never count on the same cell when one of them owns it. *)
Lemma relies_distinct x i j p p' :
  Inv x -> eholds (thr x i) p \/ dholds (thr x i) p -> j <> i ->
  relies (Z.of_nat (length (hist x))) (dequeue_pos_ (q x)) (thr x j) p' -> slot p' <> slot p.
Proof.
  intros HI Hi Hne Hj Heq. pose proof (inv_pc _ HI i) as Hpi. pose proof (inv_pc _ HI j) as Hpj.
  pose proof (inv_eown _ HI i j p) as He. pose proof (inv_down _ HI i j p) as Hd.
  assert ((vacant_at (q x) p /\ p < Z.of_nat (length (hist x)) /\ eholds (thr x i) p) \/
          (exists v, full_at (q x) p v /\ p < dequeue_pos_ (q x) /\ dholds (thr x i) p)) as Hi'.
  { destruct (thr x i); cbn in *; destruct Hi; try done; subst.
    - left. split_and!; [apply Hpi|lia|done].
    - left. split_and!; [eapply written_vacant, Hpi|lia|done].
    - right. destruct Hpi as (? & v & ? & ?). exists v. split_and!; [done|lia|done].
    - right. eexists. split_and!; [apply Hpi|lia|done]. }
  assert ((vacant_at (q x) p' /\ (p' = Z.of_nat (length (hist x)) \/ eholds (thr x j) p')) \/
          (exists v, full_at (q x) p' v /\ (p' = dequeue_pos_ (q x) \/ dholds (thr x j) p'))) as Hj'.
  { destruct (thr x j); cbn in *; destruct Hj; try done; subst.
    - left. split; [by apply Hpj|by left].
    - left. split; [apply Hpj|by right].
    - left. split; [eapply written_vacant, Hpj|by right].
    - right. destruct Hpj as [_ [v Hv]]; [done|]. exists v. split; [done|by left].
    - right. destruct Hpj as (? & v & ? & ?). exists v. split; [done|by right].
    - right. eexists. split; [apply Hpj|by right]. }
  destruct Hi' as [(Hv & Hlt & Hi')|(v & Hv & Hlt & Hi')], Hj' as [(Hv' & Hj')|(v' & Hv' & Hj')].
  - apply (vacant_vacant _ _ _ Hv' Hv) in Heq as ->. destruct Hj' as [->|Hj']; [lia|]. by destruct Hne; rewrite He.
  - by apply (vacant_full _ _ _ _ Hv Hv').
  - by apply (vacant_full _ _ _ _ Hv' Hv).
  - destruct (full_full _ _ _ _ _ Hv' Hv Heq) as [-> _]. destruct Hj' as [->|Hj']; [lia|].
    by destruct Hne; rewrite Hd.
Qed.

Lemma cell_ok_frame s s' f f' h r r' p :
  cell_ok (mkc s f h r) p -> dequeue_pos_ s' = dequeue_pos_ s -> buffer_ s' !! slot p = buffer_ s !! slot p ->
  (forall i, eholds (f i) p -> eholds (f' i) p) -> (forall i, dholds (f i) p -> dholds (f' i) p) ->
  cell_ok (mkc s' f' h r') p.
Proof.
  unfold cell_ok, vacant_at, full_at. cbn. intros Hc Hm Hb He Hd. rewrite Hm, Hb.
  destruct Hc as [(Hv & Hp & Hh)|(v & Hv & ? & Hp & Hl & Hh)]; [left|right].
  - split_and!; [done|lia|lia|]. intros Hn. destruct (Hh Hn) as [i ?]. eauto.
  - exists v. split_and!; try (done || lia). intros Hn. destruct (Hh Hn) as [i ?]. eauto.
Qed.

Lemma set_cell_eq (s : t T) p g :
  mask_ s = cap - 1 -> buffer_ (set_cell s p g) !! slot p = g <$> buffer_ s !! slot p.
Proof. intros Hm. unfold set_cell. cbn. by rewrite idx_slot, list_lookup_alter_eq by done. Qed.

Lemma set_cell_ne (s : t T) p p' g :
  mask_ s = cap - 1 -> slot p' <> slot p -> buffer_ (set_cell s p g) !! slot p' = buffer_ s !! slot p'.
Proof. intros Hm Hne. unfold set_cell. cbn. by rewrite idx_slot, list_lookup_alter_ne by done. Qed.

(** An owner changes its cell: what has to be shown of the owner and of the
    cell; the other threads and cells are not affected. *)
Lemma inv_owner s f h r i p g c r' :
  Inv (mkc s f h r) -> eholds (f i) p \/ dholds (f i) p ->
  (forall p', eholds c p' -> eholds (f i) p') -> (forall p', dholds c p' -> dholds (f i) p') ->
  let s' := set_cell s p g in
  pc_ok s' h c -> (exists p', p' mod cap = p mod cap /\ cell_ok (mkc s' (upd f i c) h r') p') ->
  NoDup r'.*1 -> (forall p v, (p, v) ∈ r' -> 0 <= p < dequeue_pos_ s /\ h !! Z.to_nat p = Some v /\
                    (forall j, ~ dholds (upd f i c j) p)) ->
  (forall p, 0 <= p < dequeue_pos_ s -> (exists j, dholds (upd f i c j) p) \/ p ∈ r'.*1) ->
  Inv (mkc s' (upd f i c) h r').
Proof.
  intros HI Hown He Hd s' Hok (p0 & Hm0 & Hc0) Hnd Hrec Hdone.
  assert (forall j p', eholds (upd f i c j) p' -> eholds (f j) p') as He'.
  { intros j p'. unfold upd. case_decide; [subst; apply He|done]. }
  assert (forall j p', dholds (upd f i c j) p' -> dholds (f j) p') as Hd'.
  { intros j p'. unfold upd. case_decide; [subst; apply Hd|done]. }
  pose proof (inv_mask _ HI) as Hmask. split; cbn; try apply HI; try done.
  - rewrite length_alter. apply HI.
  - intros j Hj. destruct (decide (j = p mod cap)) as [->|Hne]; [by exists p0|].
    destruct (inv_cells _ HI j Hj) as (p' & Hp' & Hc). exists p'. split; [done|].
    assert (slot p' <> slot p) as Hs by (intros ?%slot_inj; lia).
    eapply cell_ok_frame; [done|done|by apply set_cell_ne| |]; intros j'; unfold upd; case_decide; try done; subst j'.
    + intros Hh. destruct Hown as [Ho|Ho]; destruct (f i); cbn in *; subst; done.
    + intros Hh. destruct Hown as [Ho|Ho]; destruct (f i); cbn in *; subst; done.
  - intros j. unfold upd. case_decide as Hji; [done|]. eapply pc_ok_frame; [apply (inv_pc _ HI j)|done|].
    intros p' Hp'. apply set_cell_ne; [done|]. by eapply (relies_distinct _ i j _ _ HI).
  - intros j j' p' Hj Hj'. eapply (inv_eown _ HI); eauto.
  - intros j j' p' Hj Hj'. eapply (inv_down _ HI); eauto.
Qed.

(** ** The steps *)

Definition bounded (x : cfg T) : Prop := Z.of_nat (length (hist x)) + cap < 2 ^ 63.

Lemma cell_seq x p :
  Inv x -> exists c, buffer_ (q x) !! slot p = Some c /\ 0 <= sequence c <= Z.of_nat (length (hist x)) + cap.
Proof.
  intros HI. destruct (cell_at x p HI) as (p' & <- & _ & Hc). destruct (inv_deq _ HI). pose proof cap_bounds.
  destruct Hc as [((c & Hc & <-) & Hp & _)|(v & Hc & Hp & Hn & _)]; eexists; (split; [exact Hc|]); cbn; lia.
Qed.

Lemma s64_small x : x < 2 ^ 63 -> s64 x = x.
Proof. intros Hx. unfold s64. by rewrite (proj2 (Z.ltb_lt _ _) Hx). Qed.

(** The sequence numbers and positions stay below 2^63, so the signed
    differences are exact. *)
Lemma emplace_test_exact x p :
  Inv x -> bounded x -> 0 <= p <= Z.of_nat (length (hist x)) ->
  exists c, buffer_ (q x) !! slot p = Some c /\ emplace_test (q x) p = Some (classify (sequence c - p)).
Proof.
  intros HI Hb Hp. destruct (cell_seq x p HI) as (c & Hc & Hs). exists c. split; [done|].
  pose proof cap_bounds. unfold bounded, emplace_test in *. rewrite idx_slot, Hc by apply HI. cbn.
  by rewrite !s64_small by lia.
Qed.

Lemma pop_test_exact x p :
  Inv x -> bounded x -> 0 <= p <= dequeue_pos_ (q x) ->
  exists c, buffer_ (q x) !! slot p = Some c /\ pop_test (q x) p = Some (classify (sequence c - (p + 1))).
Proof.
  intros HI Hb Hp. destruct (cell_seq x p HI) as (c & Hc & Hs). exists c. split; [done|].
  pose proof cap_bounds. destruct (inv_deq _ HI). unfold bounded, pop_test in *. rewrite idx_slot, Hc by apply HI. cbn.
  rewrite (wrap_small 64) by lia. by rewrite !s64_small by lia.
Qed.

Lemma classify_ready d : classify d = Ready -> d = 0.
Proof. unfold classify. destruct (Z.eqb_spec d 0); [done|]. by destruct (d <? 0). Qed.

Lemma classify_refuse d : classify d = Refuse -> d < 0.
Proof. unfold classify. destruct (d =? 0); [done|]. by destruct (Z.ltb_spec d 0). Qed.

Lemma slot_lap p : slot (p + cap) = slot p.
Proof. unfold slot. f_equal. rewrite <- (Z.mul_1_l cap) at 1. apply Z_mod_plus_full. Qed.

(** Claiming one more position does not disturb the other threads. *)
Lemma pc_ok_snoc s h c v e : pc_ok s h c -> pc_ok (set_enqueue s e) (h ++ [v]) c.
Proof.
  intros Hok. destruct c; cbn in *; rewrite ?length_app; cbn [length]; try done.
  - lia.
  - split; [lia|]. intros ->. lia.
  - destruct Hok as (? & ? & ?). split_and!; [lia|lia|by apply lookup_app_l_Some|done].
  - destruct Hok as (? & ? & ?). split_and!; [lia|lia|by apply lookup_app_l_Some|done].
  - destruct Hok as (? & w & ? & ?). split; [done|]. exists w. split; [done|by apply lookup_app_l_Some].
  - destruct Hok as (? & ? & ?). split_and!; [lia|lia|done|by apply lookup_app_l_Some].
Qed.

Lemma inv_ecas s f h r i v p :
  Inv (mkc s f h r) -> bounded (mkc s f h r) -> f i = E_cas v p -> enqueue_pos_ s = p ->
  Inv (mkc (set_enqueue s (p +64 1)) (upd f i (E_own v p)) (h ++ [v]) r).
Proof.
  intros HI Hb Hi Hp. pose proof (inv_enq _ HI) as He. cbn in He. pose proof (inv_pc _ HI i) as Hok. cbn in Hok.
  rewrite Hi in Hok. cbn in Hok. destruct Hok as [Hrng Hvac]. specialize (Hvac ltac:(lia)).
  destruct (inv_deq _ HI) as [Hd1 Hd2]. pose proof cap_bounds. unfold bounded in Hb. cbn [q hist] in *.
  destruct (cell_vacant _ _ HI Hvac) as [(_ & Hm & _)|(w & Hf & _)]; cbn in *; [|by destruct (vacant_full _ _ _ _ Hvac Hf)].
  assert (forall j p', eholds (upd f i (E_own v p) j) p' -> (j = i /\ p' = p) \/ (eholds (f j) p' /\ p' < p)) as Hold.
  { intros j p'. unfold upd. case_decide; [subst j; by left|]. intros Hj. right. split; [done|].
    pose proof (inv_pc _ HI j) as Hok. cbn in Hok. destruct (f j); cbn in *; try done; lia. }
  assert (forall j p', dholds (upd f i (E_own v p) j) p' <-> dholds (f j) p') as Hdold.
  { intros j p'. unfold upd. case_decide; [subst j; by rewrite Hi|done]. }
  split; cbn; rewrite ?length_app; cbn [length]; try apply HI.
  - rewrite wrap_small; lia.
  - lia.
  - intros j Hj. destruct (inv_cells _ HI j Hj) as (p' & Hp' & Hc). exists p'. split; [done|].
    unfold cell_ok in *. cbn in *. rewrite length_app. cbn [length]. setoid_rewrite Hdold.
    destruct Hc as [(Hv & Hr & Hh)|(w & Hv & ? & Hr & Hl & Hh)]; [left|right].
    + split_and!; [done|lia|lia|]. intros Hn. destruct (decide (p' = p)) as [->|].
      * exists i. by rewrite upd_eq.
      * destruct Hh as [j' Hj']; [lia|]. exists j'. rewrite upd_ne; [done|]. intros ->. by rewrite Hi in Hj'.
    + exists w. assert (p' + cap <> p).
      { intros <-. apply (vacant_full _ _ _ _ Hvac Hv), slot_lap. }
      split_and!; try (done || lia). by apply lookup_app_l_Some.
  - intros j. unfold upd. case_decide; [subst j|].
    + split_and!; [lia|rewrite length_app; cbn; lia| |done]. rewrite lookup_app_r by lia.
      by replace (Z.to_nat p - length h)%nat with 0%nat by lia.
    + apply pc_ok_snoc, (inv_pc _ HI j).
  - intros j j' p' Hj Hj'. destruct (Hold _ _ Hj) as [[-> ->]|[Hj1 ?]], (Hold _ _ Hj') as [[-> ?]|[Hj2 ?]]; try (done || lia).
    by eapply (inv_eown _ HI).
  - intros j j' p'. rewrite !Hdold. apply (inv_down _ HI).
  - intros p' w Hin. destruct (inv_rec _ HI _ _ Hin) as (? & ? & ?). setoid_rewrite Hdold.
    split; [done|]. split; [by apply lookup_app_l_Some|done].
  - intros p' Hr. setoid_rewrite Hdold. by apply (inv_done _ HI).
Qed.

Lemma inv_dcas s f h r i p :
  Inv (mkc s f h r) -> bounded (mkc s f h r) -> f i = D_cas p -> dequeue_pos_ s = p ->
  Inv (mkc (set_dequeue s (p +64 1)) (upd f i (D_own p)) h r).
Proof.
  intros HI Hb Hi Hp. pose proof (inv_pc _ HI i) as Hok. cbn in Hok.
  rewrite Hi in Hok. cbn in Hok. destruct Hok as [Hrng Hful]. destruct (Hful ltac:(lia)) as [v Hv].
  destruct (inv_deq _ HI) as [Hd1 Hd2]. pose proof cap_bounds. unfold bounded in Hb. cbn [q hist] in *.
  destruct (cell_full _ _ _ HI Hv) as [(Hvac & _)|(w & Hw & _ & Hn & Hl & _)]; cbn in *; [by destruct (vacant_full _ _ _ _ Hvac Hv)|].
  rewrite wrap_small by lia.
  assert (forall j p', dholds (upd f i (D_own p) j) p' -> (j = i /\ p' = p) \/ (dholds (f j) p' /\ p' < p)) as Hold.
  { intros j p'. unfold upd. case_decide; [subst j; by left|]. intros Hj. right. split; [done|].
    pose proof (inv_pc _ HI j) as Hok. cbn in Hok. destruct (f j); cbn in *; try done; lia. }
  assert (forall j p', dholds (f j) p' -> dholds (upd f i (D_own p) j) p') as Hnew.
  { intros j p' Hj. rewrite upd_ne; [done|]. intros ->. by rewrite Hi in Hj. }
  assert (forall j p', eholds (upd f i (D_own p) j) p' <-> eholds (f j) p') as Heold.
  { intros j p'. unfold upd. case_decide; [subst j; by rewrite Hi|done]. }
  split; cbn; try apply HI; try lia.
  - intros j Hj. destruct (inv_cells _ HI j Hj) as (p' & Hp' & Hc). exists p'. split; [done|].
    unfold cell_ok in *. cbn in *. setoid_rewrite Heold.
    destruct Hc as [(Hvc & Hr & Hh)|(w' & Hvc & ? & Hr & Hl' & Hh)]; [left|right].
    + assert (p' <> p) by (intros ->; by apply (vacant_full _ _ _ _ Hvc Hv)).
      split_and!; [done|lia|lia|done].
    + exists w'. split_and!; try (done || lia). intros Hlt. destruct (decide (p' = p)) as [->|].
      * exists i. by rewrite upd_eq.
      * destruct Hh as [j' Hj']; [lia|]. exists j'. by apply Hnew.
  - intros j. unfold upd. case_decide; [subst j|].
    + split; cbn; [lia|]. exists w. by split.
    + pose proof (inv_pc _ HI j) as Hok. cbn in Hok. destruct (f j); try exact Hok; cbn in *; try lia.
      * destruct Hok. split; [lia|done].
      * destruct Hok. split; [lia|done].
  - intros j j' p'. rewrite !Heold. apply (inv_eown _ HI).
  - intros j j' p' Hj Hj'. destruct (Hold _ _ Hj) as [[-> ->]|[Hj1 ?]], (Hold _ _ Hj') as [[-> ?]|[Hj2 ?]]; try (done || lia).
    by eapply (inv_down _ HI).
  - intros p' w' Hin. destruct (inv_rec _ HI _ _ Hin) as (Hr & Hl' & Hno). cbn in *. split_and!; [lia|lia|done|].
    intros j Hj. destruct (Hold _ _ Hj) as [[-> ->]|[Hj1 ?]]; [lia|by destruct (Hno j)].
  - intros p' Hr. destruct (decide (p' = p)) as [->|]; [left; exists i; by rewrite upd_eq|].
    destruct (inv_done _ HI p') as [[j Hj]|]; [cbn; lia|left; exists j; by apply Hnew|by right].
Qed.

Lemma inv_ewrite s f h r i v p :
  Inv (mkc s f h r) -> f i = E_own v p -> Inv (mkc (emplace_write v s p) (upd f i (E_written v p)) h r).
Proof.
  intros HI Hi. pose proof (inv_pc _ HI i) as Hok. cbn in Hok. rewrite Hi in Hok. destruct Hok as (Hp & Hl & c & Hc & Hs).
  pose proof (inv_mask _ HI) as Hm.
  assert (buffer_ (emplace_write v s p) !! slot p = Some (mk_cell p v)) as Hc'.
  { unfold emplace_write. rewrite set_cell_eq, Hc by done. cbn. by rewrite Hs. }
  assert (forall j p', dholds (upd f i (E_written v p) j) p' <-> dholds (f j) p') as Hdold.
  { intros j p'. unfold upd. case_decide; [subst j; by rewrite Hi|done]. }
  apply (inv_owner _ _ _ r); [done|left; by rewrite Hi|by rewrite Hi|done|done| |apply HI| |].
  - exists p. split; [done|]. destruct (cell_vacant _ p HI) as [(_ & Hr & _)|(w & Hf & _)]; [by exists c| |].
    + left. split_and!; [by eexists|apply Hr|apply Hr|]. intros _. exists i. cbn. by rewrite upd_eq.
    + exfalso. by eapply (vacant_full s p p w); [exists c|..].
  - intros p' w Hin. setoid_rewrite Hdold. by apply (inv_rec _ HI).
  - intros p' Hr. setoid_rewrite Hdold. by apply (inv_done _ HI).
Qed.

Lemma inv_epublish s f h r i v p :
  Inv (mkc s f h r) -> bounded (mkc s f h r) -> f i = E_written v p ->
  Inv (mkc (emplace_publish s p) (upd f i Idle) h r).
Proof.
  intros HI Hb Hi. pose proof (inv_pc _ HI i) as Hok. cbn in Hok. rewrite Hi in Hok. destruct Hok as (Hp & Hl & Hc).
  pose proof (inv_mask _ HI) as Hm. pose proof cap_bounds. unfold bounded in Hb. cbn in Hb.
  assert (full_at (emplace_publish s p) p v) as Hc'.
  { unfold full_at, emplace_publish. rewrite set_cell_eq, Hc by done. cbn. by rewrite wrap_small by lia. }
  assert (forall j p', dholds (upd f i Idle j) p' <-> dholds (f j) p') as Hdold.
  { intros j p'. unfold upd. case_decide; [subst j; by rewrite Hi|done]. }
  apply (inv_owner _ _ _ r); [done|left; by rewrite Hi|done|done|done| |apply HI| |].
  - exists p. split; [done|]. destruct (cell_vacant _ p HI) as [(_ & Hr & _)|(w & Hf & _)]; [by eapply written_vacant| |].
    + right. destruct (inv_deq _ HI). exists v. cbn in *. split_and!; try (done || lia).
    + exfalso. eapply (vacant_full s p p w); [by eapply written_vacant|done|done].
  - intros p' w Hin. setoid_rewrite Hdold. by apply (inv_rec _ HI).
  - intros p' Hr. setoid_rewrite Hdold. by apply (inv_done _ HI).
Qed.

Lemma inv_drelease s f h r i p v :
  Inv (mkc s f h r) -> bounded (mkc s f h r) -> f i = D_taken p v ->
  Inv (mkc (pop_release s p) (upd f i Idle) h (r ++ [(p, v)])).
Proof.
  intros HI Hb Hi. pose proof (inv_pc _ HI i) as Hok. cbn in Hok. rewrite Hi in Hok. destruct Hok as (Hp & Hc & Hl).
  pose proof (inv_mask _ HI) as Hm. cbn in Hm. pose proof cap_bounds. destruct (inv_deq _ HI) as [Hd1 Hd2].
  unfold bounded in Hb. cbn in Hb, Hd1, Hd2.
  assert (dholds (f i) p) as Hown by by rewrite Hi.
  apply (inv_owner _ _ _ r); [done|by right|done|done|done| | | |].
  - exists (p + cap). split; [rewrite <- (Z.mul_1_l cap) at 1; apply Z_mod_plus_full|].
    destruct (cell_full _ p v HI Hc) as [(Hvac & _)|(w & _ & _ & Hn & _)]; [by destruct (vacant_full s p p v)|].
    left. cbn in *. split_and!; [|lia|lia|lia].
    eexists. unfold pop_release. rewrite slot_lap, set_cell_eq, Hc by done. split; [done|]. cbn.
    rewrite Hm, (wrap_small 64 (p + _)), wrap_small by lia. lia.
  - rewrite fmap_app. apply NoDup_app. split_and!; [apply HI| |apply NoDup_singleton].
    intros p' ([p1 w] & Heq & Hin)%list_elem_of_fmap Hp'%list_elem_of_singleton. cbn in *. subst.
    destruct (inv_rec _ HI _ _ Hin) as (_ & _ & Hno). by apply (Hno i).
  - intros p' w [Hin|Hin%list_elem_of_singleton]%elem_of_app.
    + destruct (inv_rec _ HI _ _ Hin) as (? & ? & Hno). split_and!; [apply H0|apply H0|done|].
      intros j. unfold upd. case_decide; [by intros []|apply Hno].
    + simplify_eq. split_and!; [lia|lia|done|]. intros j Hj. unfold upd in Hj. case_decide as Hji; [done|].
      apply Hji. by eapply (inv_down _ HI j i p).
  - intros p' Hr. destruct (decide (p' = p)) as [->|Hne].
    + right. rewrite fmap_app. apply elem_of_app. right. by apply list_elem_of_singleton.
    + destruct (inv_done _ HI p' Hr) as [[j Hj]|Hin].
      * left. exists j. rewrite upd_ne; [done|]. intros ->. cbn in Hj. rewrite Hi in Hj. by cbn in Hj.
      * right. rewrite fmap_app. apply elem_of_app. by left.
Qed.

Lemma inv_eready s f h r i v p :
  Inv (mkc s f h r) -> bounded (mkc s f h r) -> f i = E_pos v p -> emplace_test s p = Some Ready ->
  Inv (mkc s (upd f i (E_cas v p)) h r).
Proof.
  intros HI Hb Hi Ht. pose proof (inv_pc _ HI i) as Hok. cbn in Hok. rewrite Hi in Hok.
  apply inv_local; [done| |by rewrite Hi..]. split; [done|]. intros _.
  destruct (emplace_test_exact _ p HI Hb Hok) as (c & Hc & Ht'). cbn in *. rewrite Ht in Ht'.
  injection Ht' as Ht'. symmetry in Ht'. apply classify_ready in Ht'. exists c. split; [done|lia].
Qed.

Lemma inv_dready s f h r i p :
  Inv (mkc s f h r) -> bounded (mkc s f h r) -> f i = D_pos p -> pop_test s p = Some Ready ->
  Inv (mkc s (upd f i (D_cas p)) h r).
Proof.
  intros HI Hb Hi Ht. pose proof (inv_pc _ HI i) as Hok. cbn in Hok. rewrite Hi in Hok.
  apply inv_local; [done| |by rewrite Hi..]. split; [done|]. intros _.
  destruct (pop_test_exact _ p HI Hb Hok) as ([c w] & Hc & Ht'). cbn in *. rewrite Ht in Ht'.
  injection Ht' as Ht'. symmetry in Ht'. apply classify_ready in Ht'. exists w. unfold full_at. rewrite Hc.
  f_equal. f_equal. lia.
Qed.

Lemma inv_dread s f h r i p v :
  Inv (mkc s f h r) -> f i = D_own p -> pop_read s p = Some v -> Inv (mkc s (upd f i (D_taken p v)) h r).
Proof.
  intros HI Hi Hv. pose proof (inv_pc _ HI i) as Hok. cbn in Hok. rewrite Hi in Hok. destruct Hok as (Hp & w & Hc & Hl).
  apply inv_local; [done| |by rewrite Hi..]. unfold pop_read in Hv. rewrite idx_slot in Hv by apply (inv_mask _ HI).
  rewrite Hc in Hv. cbn in Hv. simplify_eq. done.
Qed.

Lemma mpmc_step_inv x y : step x y -> bounded x -> Inv x -> Inv y.
Proof.
  intros Hst Hb HI. pose proof (inv_deq _ HI) as Hd. pose proof (inv_enq _ HI) as He.
  destruct Hst; cbn [q hist thr received] in *;
    try match goal with H : ?f ?i = _ |- Inv (mkc ?s (upd ?f ?i ?c) _ _) =>
          by (apply inv_local; [exact HI|cbn; lia|rewrite H; done..]) end.
  - by apply inv_eready.
  - by apply inv_ecas.
  - by apply inv_ewrite.
  - by eapply inv_epublish.
  - by apply inv_dready.
  - by apply inv_dcas.
  - by apply inv_dread.
  - by apply inv_drelease.
Qed.

Lemma mod_below p p' : p' mod cap = p mod cap -> p' < p -> p' <= p - cap.
Proof.
  intros Hm Hlt. destruct (Z.lt_ge_cases (p - cap) p') as [Hn|]; [|done]. apply mod_near in Hm; [lia|lia].
Qed.

Lemma emplace_refusal x p c :
  Inv x -> 0 <= p <= Z.of_nat (length (hist x)) -> buffer_ (q x) !! slot p = Some c -> sequence c < p ->
  p = Z.of_nat (length (hist x)) /\ (p = dequeue_pos_ (q x) + cap \/ exists j, dholds (thr x j) (p - cap)).
Proof.
  intros HI Hp Hc Hlt. destruct (inv_deq _ HI) as [Hd Hd']. pose proof cap_bounds.
  destruct (cell_at x p HI) as (p' & Hs & Hm & [((c' & Hc' & Hs') & Hr & _)|(v & Hf & _ & Hr & _ & Hh)]).
  - rewrite Hs, Hc in Hc'. simplify_eq. apply mod_below in Hm; lia.
  - unfold full_at in Hf. rewrite Hs, Hc in Hf. simplify_eq. cbn in Hlt. apply mod_below in Hm; [|lia].
    split; [lia|]. destruct (Z.lt_ge_cases p' (dequeue_pos_ (q x))) as [Hn|]; [right|left; lia].
    replace (p - cap) with p' by lia. auto.
Qed.

Lemma pop_refusal x p c :
  Inv x -> 0 <= p <= dequeue_pos_ (q x) -> buffer_ (q x) !! slot p = Some c -> sequence c < p + 1 ->
  p = dequeue_pos_ (q x) /\ (p = Z.of_nat (length (hist x)) \/ exists j, eholds (thr x j) p).
Proof.
  intros HI Hp Hc Hlt. destruct (inv_deq _ HI) as [Hd Hd']. pose proof cap_bounds.
  destruct (cell_at x p HI) as (p' & Hs & Hm & [((c' & Hc' & Hs') & Hr & Hh)|(v & Hf & _ & Hr & _ & _)]).
  - rewrite Hs, Hc in Hc'. simplify_eq. assert (p = sequence c') as -> by lia. split; [lia|].
    destruct (Z.lt_ge_cases (sequence c') (Z.of_nat (length (hist x)))); [right; auto|left; lia].
  - unfold full_at in Hf. rewrite Hs, Hc in Hf. simplify_eq. cbn in Hlt. apply mod_below in Hm; lia.
Qed.

Lemma hist_grows x y : step (T := T) x y -> (length (hist x) <= length (hist y))%nat.
Proof. destruct 1; cbn; rewrite ?length_app; lia. Qed.

Lemma mpmc_init_inv dflt c : round_up_pow2 c = cap -> Inv (init dflt c).
Proof.
  intros Hc. pose proof cap_bounds. split; cbn; rewrite ?Hc; try done; try lia.
  - apply wrap_small. lia.
  - by rewrite length_fmap, length_seq.
  - intros j Hj. exists j. split; [by apply Z.mod_small|]. left. cbn. split_and!; [|lia|lia|lia].
    exists (mk_cell j dflt). cbn. unfold slot. rewrite Z.mod_small, list_lookup_fmap, lookup_seq_lt by (rewrite ?Hc; lia).
    cbn. split; [|done]. do 2 f_equal. lia.
  - apply NoDup_nil_2.
  - intros p v Hin. by apply not_elem_of_nil in Hin.
Qed.

Lemma mpmc_reachable_inv dflt c x :
  round_up_pow2 c = cap -> rtc step (init dflt c) x -> bounded x -> Inv x.
Proof.
  intros Hc. revert x. apply (rtc_ind_r (fun x => bounded x -> Inv x)); [intros _; by apply mpmc_init_inv|].
  intros x y Hr Hst IH.  intros Hb. assert (bounded x) by (apply hist_grows in Hst; unfold bounded in *; lia).
  eapply mpmc_step_inv; eauto.
Qed.
End invariant.

(** ** Properties *)

(** The positions a thread owns: claimed and not yet handed over. *)
Definition owns {T} (c : pc T) (p : Z) : Prop := eholds c p \/ dholds c p.

Lemma owns_relies {T} n m (c : pc T) p : owns c p -> relies n m c p.
Proof. unfold owns. destruct c; cbn; tauto. Qed.

Lemma omap_lookup_seq {A} (h : list A) m :
  (m <= length h)%nat -> omap (fun p => h !! Z.to_nat p) (Z.of_nat <$> seq 0 m) = take m h.
Proof.
  induction m as [|m IH]; intros Hm; [done|]. rewrite seq_S, fmap_app, omap_app, IH by lia. cbn.
  rewrite Nat2Z.id. destruct (lookup_lt_is_Some_2 h m Hm) as [v Hv]. rewrite Hv. by rewrite (take_S_r _ _ v).
Qed.

Lemma received_values {A} (r : list (Z * A)) (h : list A) :
  (forall p v, (p, v) ∈ r -> h !! Z.to_nat p = Some v) -> r.*2 = omap (fun p => h !! Z.to_nat p) r.*1.
Proof.
  induction r as [|[p v] r IH]; intros Hr; [done|]. cbn. rewrite (Hr p v) by left.
  f_equal. apply IH. intros p' v' Hin. apply Hr. by right.
Qed.

Section quiescent.
Context {T : Type} (k : Z) (Hk : 1 <= k < 64) (x : cfg T) (HI : Inv k x).
Context (Hq : forall i p, ~ owns (thr x i) p).

Lemma quiescent_received : (received x).*2 ≡ₚ take (Z.to_nat (dequeue_pos_ (q x))) (hist x).
Proof using HI Hq.
  destruct (inv_deq _ _ HI) as [Hd _]. rewrite (received_values _ (hist x)), <- omap_lookup_seq by first
    [lia | intros p v Hin; apply (inv_rec _ _ HI _ _ Hin)].
  apply omap_Permutation, NoDup_Permutation; [apply HI|apply NoDup_fmap; [apply _|apply NoDup_seq]|].
  intros p. split.
  - intros ([p' v] & Heq & Hin)%list_elem_of_fmap. cbn in Heq. subst p'.
    destruct (inv_rec _ _ HI _ _ Hin) as [Hp _]. apply list_elem_of_fmap. exists (Z.to_nat p).
    split; [lia|]. apply elem_of_seq. lia.
  - intros (p' & -> & Hp'%elem_of_seq)%list_elem_of_fmap.
    destruct (inv_done _ _ HI (Z.of_nat p')) as [[i Hi]|]; [lia| |done]. by destruct (Hq i (Z.of_nat p')); right.
Qed.

Lemma quiescent_cells p :
  (Z.to_nat (dequeue_pos_ (q x)) <= p < length (hist x))%nat -> pop_read (q x) (Z.of_nat p) = hist x !! p.
Proof using Hk HI Hq.
  intros Hp. destruct (inv_deq _ _ HI) as [Hd Hd'].
  destruct (cell_at k Hk x (Z.of_nat p) HI) as (p' & Hs & Hm & Hc). unfold pop_read.
  rewrite (idx_slot k Hk) by apply HI. rewrite <- Hs.
  destruct Hc as [(_ & Hr & Hh)|(v & Hf & Hp' & Hn & Hl & Hh)].
  - apply (mod_near k Hk) in Hm; [|lia]. subst p'. destruct Hh as [i Hi]; [lia|].
    by destruct (Hq i (Z.of_nat p)); left.
  - destruct (Z.lt_ge_cases p' (dequeue_pos_ (q x))) as [Hlt|Hge].
    { destruct (Hh Hlt) as [i Hi]. by destruct (Hq i p'); right. }
    apply (mod_near k Hk) in Hm; [|lia]. subst p'. rewrite Hf, Nat2Z.id in *. done.
Qed.
End quiescent.

(** C7. [MPMCQueue] under any interleaving of any number of threads: the
    queue never holds more than [capacity] elements, the [p]-th successful
    [pop] returns the [p]-th value pushed, no position is delivered twice, two
    threads never own the same cell, and when no call is in flight exactly
    the first [m] pushed values have been received while the cells hold the
    others.  The run is assumed to have claimed fewer than [2^63] positions. *)
Theorem mpmc_fifo {T} (dflt : T) c x :
  0 <= c <= 2 ^ 63 -> rtc step (init dflt c) x ->
  Z.of_nat (length (hist x)) + round_up_pow2 c < 2 ^ 63 ->
  let n := length (hist x) in
  let m := Z.to_nat (dequeue_pos_ (q x)) in
  (m <= n)%nat /\ Z.of_nat n <= Z.of_nat m + capacity (q x) /\
  NoDup (received x).*1 /\
  (forall p v, (p, v) ∈ received x -> 0 <= p < Z.of_nat m /\ hist x !! Z.to_nat p = Some v) /\
  (forall i j p p', i <> j -> owns (thr x i) p -> owns (thr x j) p' -> idx (q x) p <> idx (q x) p') /\
  ((forall i p, ~ owns (thr x i) p) ->
     (received x).*2 ≡ₚ take m (hist x) /\
     forall p, (m <= p < n)%nat -> pop_read (q x) (Z.of_nat p) = hist x !! p).
Proof.
  intros Hc Hr Hb n m. destruct (round_up_capacity c Hc) as (k & Hk & Hck).
  assert (Inv k x) as HI. { eapply mpmc_reachable_inv; [done..|]. unfold bounded. by rewrite <- Hck. }
  destruct (inv_deq _ _ HI) as [Hd Hd']. unfold n, m, capacity. rewrite (inv_cap _ _ HI). split_and!.
  - lia.
  - lia.
  - apply HI.
  - intros p v Hin. destruct (inv_rec _ _ HI _ _ Hin) as (? & ? & _). split; [lia|done].
  - intros i j p p' Hne Hi Hj. rewrite !(idx_slot k Hk) by apply HI. apply not_eq_sym.
    eapply (relies_distinct k Hk x i j); [done|done|done|by apply owns_relies].
  - intros Hq. split; [by apply (quiescent_received k)|by apply (quiescent_cells k)].
Qed.

(** [emplace] and [pop] never access a cell outside the buffer, and give
    up only at the current position: [emplace] when the queue is full or the
    consumer of the previous lap has not released the cell, [pop] when the
    queue is empty or the producer of the oldest element has not published
    it. *)
Theorem mpmc_refusals {T} (dflt : T) c x i :
  0 <= c <= 2 ^ 63 -> rtc step (init dflt c) x ->
  Z.of_nat (length (hist x)) + round_up_pow2 c < 2 ^ 63 ->
  let n := Z.of_nat (length (hist x)) in
  let m := dequeue_pos_ (q x) in
  (forall v pos, thr x i = E_pos v pos -> is_Some (emplace_test (q x) pos) /\
     (emplace_test (q x) pos = Some Refuse -> pos = n /\
        (n = m + capacity (q x) \/ exists j, owns (thr x j) (n - capacity (q x))))) /\
  (forall pos, thr x i = D_pos pos -> is_Some (pop_test (q x) pos) /\
     (pop_test (q x) pos = Some Refuse -> pos = m /\ (m = n \/ exists j, owns (thr x j) m))).
Proof.
  intros Hc Hr Hb n m. destruct (round_up_capacity c Hc) as (k & Hk & Hck).
  assert (bounded k x) as Hb' by (unfold bounded; by rewrite <- Hck).
  assert (Inv k x) as HI by by eapply mpmc_reachable_inv.
  destruct (inv_deq _ _ HI) as [Hd Hd']. pose proof (cap_bounds k Hk). unfold n, m, capacity. rewrite (inv_cap _ _ HI).
  pose proof (inv_pc _ _ HI i) as Hok. split; [intros v|]; intros pos Hi; rewrite Hi in Hok; cbn in Hok.
  - destruct (emplace_test_exact k Hk x pos HI Hb' Hok) as (cl & Hcl & ->). split; [done|].
    intros [= Hd0%classify_refuse]. destruct (emplace_refusal k Hk x pos cl HI Hok Hcl ltac:(lia)) as [-> Hor].
    split; [done|]. destruct Hor as [|[j Hj]]; [by left|right; exists j; by right].
  - destruct (pop_test_exact k Hk x pos HI Hb' Hok) as (cl & Hcl & ->). split; [done|].
    intros [= Hd0%classify_refuse]. destruct (pop_refusal k Hk x pos cl HI Hok Hcl ltac:(lia)) as [-> Hor].
    split; [done|]. destruct Hor as [|[j Hj]]; [by left|right; exists j; by left].
Qed.

(** [round_up_pow2] returns the least power of two that is at least its
    argument and at least two; an argument above [2^63] overflows to zero. *)
Theorem round_up_pow2_correct v :
  0 <= v < 2 ^ 64 ->
  round_up_pow2 v = if v <? 2 then 2 else if v <=? 2 ^ 63 then 2 ^ Z.log2_up v else 0.
Proof.
  intros Hv. destruct (Z.ltb_spec v 2) as [Hlt|Hge].
  { unfold round_up_pow2. by rewrite (proj2 (Z.ltb_lt v 2) Hlt). }
  rewrite round_up_log2, Z.log2_up_eqn, <- Z.sub_1_r, <- Z.add_1_r by lia. destruct (Z.leb_spec v (2 ^ 63)) as [Hs|Hb].
  - apply wrap_small. assert (Z.log2 (v - 1) < 63) by (apply Z.log2_lt_pow2; lia).
    pose proof (Z.log2_nonneg (v - 1)). split; [apply Z.pow_nonneg; lia|apply Z.pow_lt_mono_r; lia].
  - by rewrite (Z.log2_unique (v - 1) 63) by lia.
Qed.

(** ** Witnesses *)

Tactic Notation "run" uconstr(c) := eapply rtc_l; [eapply c; (reflexivity || (vm_compute; reflexivity))|].

(** Thread 0 pushes 5 and thread 1 pops it. *)
Lemma ex_run : exists x : cfg Z, rtc step (init 0 2) x /\ received x = [(0, 5)] /\ hist x = [5].
Proof.
  eexists. split.
  - run (st_push _ _ _ _ 0%nat 5). run (st_eload _ _ _ _ 0%nat). run (st_eready _ _ _ _ 0%nat).
    run (st_pop (T := Z) _ _ _ _ 1%nat). run (st_ecas_ok _ _ _ _ 0%nat). run (st_ewrite _ _ _ _ 0%nat).
    run (st_epublish _ _ _ _ 0%nat). run (st_dload (T := Z) _ _ _ _ 1%nat). run (st_dready (T := Z) _ _ _ _ 1%nat).
    run (st_dcas_ok (T := Z) _ _ _ _ 1%nat). run (st_dread (T := Z) _ _ _ _ 1%nat). run (st_drelease (T := Z) _ _ _ _ 1%nat).
    apply rtc_refl.
  - by vm_compute.
Qed.

Lemma mpmc_fifo_witness : exists x : cfg Z, rtc step (init 0 2) x /\ received x = [(0, 5)] /\ NoDup (received x).*1.
Proof.
  destruct ex_run as (x & Hr & Hrec & Hh). exists x. split_and!; [done..|].
  apply (mpmc_fifo 0 2 x); [lia|done|]. by rewrite Hh.
Defined.

Lemma mpmc_refusals_witness :
  exists x : cfg Z, rtc step (init 0 2) x /\ thr x 1%nat = D_pos 0 /\ pop_test (q x) 0 = Some Refuse /\
    (dequeue_pos_ (q x) = Z.of_nat (length (hist x)) \/ exists j, owns (thr x j) (dequeue_pos_ (q x))).
Proof.
  exists (mkc (MPMCQueue 0 2) (upd (upd (fun _ => Idle) 1%nat D_load) 1%nat (D_pos 0)) [] []).
  assert (rtc step (init 0 2) (mkc (MPMCQueue 0 2) (upd (upd (fun _ => Idle) 1%nat D_load) 1%nat (D_pos 0)) [] [])) as Hr.
  { run (st_pop (T := Z) _ _ _ _ 1%nat). run (st_dload (T := Z) _ _ _ _ 1%nat). apply rtc_refl. }
  split_and!; [done|done|done|].
  destruct (mpmc_refusals 0 2 _ 1%nat ltac:(lia) Hr ltac:(done)) as [_ Hp].
  by apply (Hp 0).
Defined.

Lemma round_up_pow2_correct_witness : round_up_pow2 1000 = 1024 /\ round_up_pow2 (2 ^ 63 + 1) = 0.
Proof.
  split; [rewrite (round_up_pow2_correct 1000) by lia; reflexivity
         |rewrite (round_up_pow2_correct (2 ^ 63 + 1)) by lia; reflexivity].
Defined.

End Mpmc.
