(* ===== verification/Futex.v ===== *)
(** * The futex mutex and the counter it protects

    Model of [FutexMutex] and [ScopedFutexLock] (06-systems-ipc,
    futex_mutex.hpp) with their client, the processes of shm_futex_sync.cpp
    that increment a shared counter.  Every atomic access to the lock word,
    every access to the counter and every system call is one step; the wait
    queue of the kernel is the set of processes that are asleep.  FUTEX_WAIT
    compares and enqueues atomically, FUTEX_WAKE wakes one waiter if there is
    one, and a waiter may also return early because of a signal. *)

From S2P Require Import Prelude.

#[local] Open Scope Z_scope.
#[local] Open Scope cpp_scope.

Module Futex.

(** ** Program points and their effect on the lock word *)

Inductive pc :=
| Idle | T_cas | L_cas | L_xchg | L_wait | Asleep
| Held | Loaded (r : Z)
| U_sub | U_store | U_wake.

#[global] Instance pc_eq_dec : EqDecision pc.
Proof. solve_decision. Defined.

Definition lock_cas (st : Z) : Z * pc :=
  if st =? 0 then (1, Held)
  else let expected := st in (st, if negb (expected =? 2) then L_xchg else L_wait).

(** [expected = state_.exchange(2)] followed by the test of the loop. *)
Definition lock_xchg (st : Z) : Z * pc :=
  let expected := st in (2, if negb (expected =? 0) then L_wait else Held).

Definition futex_wait (st val : Z) : pc := if st =? val then Asleep else L_xchg.

Definition try_lock (st : Z) : Z * bool := if st =? 0 then (1, true) else (st, false).

Definition unlock_sub (st : Z) : Z * pc :=
  let old := st in (u32 (st - 1), if negb (old =? 1) then U_store else Idle).

(** ** The processes *)

(** A process has [todo] increments left. *)
Record proc := mkp { at_ : pc; todo : nat }.

Record cfg := mk { state_ : Z; counter : Z; procs : list proc }.

(** The step of a process that is not asleep and not waking others; the
    critical section loads the counter and stores the incremented value. *)
Definition act (s : cfg) (p : proc) : option (Z * Z * proc) :=
  let st := state_ s in
  let c := counter s in
  match at_ p with
  | Idle => match todo p with O => None | S _ => Some (st, c, mkp L_cas (todo p)) end
  | T_cas => let '(st, b) := try_lock st in Some (st, c, mkp (if b then Held else Idle) (todo p))
  | L_cas => let '(st, l) := lock_cas st in Some (st, c, mkp l (todo p))
  | L_xchg => let '(st, l) := lock_xchg st in Some (st, c, mkp l (todo p))
  | L_wait => Some (st, c, mkp (futex_wait st 2) (todo p))
  | Asleep => None
  | Held => Some (st, c, mkp (Loaded c) (todo p))
  | Loaded r => Some (st, r +64 1, mkp U_sub (pred (todo p)))
  | U_sub => let '(st, l) := unlock_sub st in Some (st, c, mkp l (todo p))
  | U_store => Some (0, c, mkp U_wake (todo p))
  | U_wake => None
  end.

Inductive step : cfg -> cfg -> Prop :=
| st_act s i p st c p' : procs s !! i = Some p -> act s p = Some (st, c, p') ->
    step s (mk st c (<[i := p']> (procs s)))
| st_try s i n : procs s !! i = Some (mkp Idle (S n)) ->
    step s (mk (state_ s) (counter s) (<[i := mkp T_cas (S n)]> (procs s)))
| st_wake s i j n m : procs s !! i = Some (mkp U_wake n) -> procs s !! j = Some (mkp Asleep m) ->
    step s (mk (state_ s) (counter s) (<[i := mkp Idle n]> (<[j := mkp L_xchg m]> (procs s))))
| st_wake_none s i n : procs s !! i = Some (mkp U_wake n) -> Forall (fun p => at_ p <> Asleep) (procs s) ->
    step s (mk (state_ s) (counter s) (<[i := mkp Idle n]> (procs s))).

(** A signal interrupts the wait. *)
Inductive interrupt : cfg -> cfg -> Prop :=
| st_interrupt s i n : procs s !! i = Some (mkp Asleep n) ->
    interrupt s (mk (state_ s) (counter s) (<[i := mkp L_xchg n]> (procs s))).

Definition run (s s' : cfg) : Prop := step s s' \/ interrupt s s'.

Definition init (nprocs incs : nat) : cfg := mk 0 0 (replicate nprocs (mkp Idle incs)).

(** ** Invariant *)

Definition in_section (p : proc) : nat :=
  match at_ p with Held | Loaded _ | U_sub | U_store => 1 | _ => 0 end.

(** Somebody will look at the lock word again. *)
Definition pending (p : proc) : Prop :=
  match at_ p with L_xchg | U_store | U_wake => True | _ => False end.

(** Where no increment is outstanding. *)
Definition early (l : pc) : Prop :=
  match l with Idle | U_sub | U_store | U_wake => True | _ => False end.

Definition locked (st : Z) : nat := if st =? 0 then 0 else 1.

Record Inv (total : nat) (s : cfg) : Prop := {
  inv_word : state_ s = 0 \/ state_ s = 1 \/ state_ s = 2;
  inv_count : sum_list_with in_section (procs s) = locked (state_ s);
  inv_counter : counter s = u64 (Z.of_nat total - Z.of_nat (sum_list_with todo (procs s)));
  inv_loaded : forall i r n, procs s !! i = Some (mkp (Loaded r) n) -> r = counter s;
  inv_todo : forall i p, procs s !! i = Some p -> early (at_ p) \/ (0 < todo p)%nat;
  inv_wake : forall i n, procs s !! i = Some (mkp Asleep n) -> state_ s = 2 \/ exists j p, procs s !! j = Some p /\ pending p }.

(** One process moves. *)
Lemma inv_move total s i p st c p' :
  Inv total s -> procs s !! i = Some p ->
  (st = 0 \/ st = 1 \/ st = 2) ->
  (locked st + in_section p = locked (state_ s) + in_section p')%nat ->
  (c = counter s /\ todo p' = todo p \/ in_section p = 1%nat /\ c = counter s +64 1 /\ todo p = S (todo p')) ->
  (forall r, at_ p' = Loaded r -> r = c) ->
  early (at_ p') \/ (0 < todo p')%nat ->
  (st = 2 \/ pending p' \/ (exists j q, j <> i /\ procs s !! j = Some q /\ pending q) \/
   at_ p' <> Asleep /\ (state_ s <> 2 /\ ~ pending p \/ Forall (fun p => at_ p <> Asleep) (procs s))) ->
  Inv total (mk st c (<[i := p']> (procs s))).
Proof.
  intros HI Hi Hst Hcount Hc Hl Ht Hw. destruct HI as [_ Hcnt Hctr Hld Htd Hwk].
  pose proof (sum_list_insert in_section _ _ _ p' Hi) as Hs1. pose proof (sum_list_insert todo _ _ _ p' Hi) as Hs2.
  pose proof (lookup_lt_Some _ _ _ Hi) as Hlen.
  split; cbn; [done| | | | |].
  - lia.
  - destruct Hc as [[-> Heq]|(_ & -> & Heq)]; rewrite Hctr, ?wrap_add_l; f_equal; lia.
  - intros j r n Hj. destruct (decide (i = j)) as [<-|Hne].
    { rewrite list_lookup_insert_eq in Hj by done. simplify_eq. by apply Hl. }
    rewrite list_lookup_insert_ne in Hj by done. destruct Hc as [[-> _]|(Hin & _)]; [by eapply Hld|].
    pose proof (sum_list_two in_section _ _ _ _ _ Hne Hi Hj) as H2. cbn in H2. unfold locked in *. destruct (state_ s =? 0); lia.
  - intros j p0 Hj. destruct (decide (i = j)) as [<-|Hne].
    + rewrite list_lookup_insert_eq in Hj by done. by simplify_eq.
    + rewrite list_lookup_insert_ne in Hj by done. by eapply Htd.
  - intros j n Hj. destruct Hw as [->|[Hp|[(j' & p0 & Hne & Hj' & Hp)|[Hna Hw]]]]; [by left|right; exists i, p'|right; exists j', p0|].
    { by rewrite list_lookup_insert_eq. }
    { by rewrite list_lookup_insert_ne. }
    destruct (decide (i = j)) as [<-|Hne].
    { rewrite list_lookup_insert_eq in Hj by done. by simplify_eq. }
    rewrite list_lookup_insert_ne in Hj by done. destruct Hw as [[Hn2 Hnp]|Hall].
    + destruct (Hwk _ _ Hj) as [|(j' & p0 & Hj' & Hp0)]; [done|]. right. exists j', p0. split; [|done].
      rewrite list_lookup_insert_ne; [done|]. intros <-. by simplify_eq.
    + rewrite Forall_lookup in Hall. by destruct (Hall _ _ Hj).
Qed.

Lemma inv_act total s i p st c p' :
  Inv total s -> procs s !! i = Some p -> act s p = Some (st, c, p') ->
  Inv total (mk st c (<[i := p']> (procs s))).
Proof.
  intros HI Hi Ha. pose proof (inv_todo _ _ HI _ _ Hi) as Ht. pose proof (inv_word _ _ HI) as Hw.
  pose proof (inv_count _ _ HI) as Hcnt. pose proof (sum_list_lookup in_section _ _ _ Hi) as Hin.
  pose proof (inv_loaded _ _ HI i) as Hld.
  destruct p as [l n]. unfold act, try_lock, lock_cas, lock_xchg, futex_wait, unlock_sub in Ha.
  apply (inv_move _ _ _ (mkp l n)); [done|done|..]; destruct l, Hw as [Hw|[Hw|Hw]]; rewrite Hw in *; cbn in *;
    try lia; repeat case_match; simplify_eq/=; auto 8; try lia.
  all: try (intros ? ?; by simplify_eq). all: try (by destruct Ht; [|right]).
  all: try (right; by left).
  all: right; rewrite (Hld _ _ Hi); destruct Ht; [done|]; split_and!; [done|done|lia].
Qed.

Lemma inv_awake total s i n :
  Inv total s -> procs s !! i = Some (mkp Asleep n) ->
  Inv total (mk (state_ s) (counter s) (<[i := mkp L_xchg n]> (procs s))).
Proof.
  intros HI Hi. pose proof (inv_todo _ _ HI _ _ Hi) as Ht.
  eapply inv_move; [done|done|..]; cbn; auto; [apply (inv_word _ _ HI)|done].
Qed.

Lemma futex_step_inv total s s' : run s s' -> Inv total s -> Inv total s'.
Proof.
  intros [Hst|Hst] HI; destruct Hst as [? i p st c p' Hi Ha|? i n Hi|s i j n m Hi Hj|? i n Hi Hall] || destruct Hst as [s i n Hi].
  - by eapply inv_act.
  - eapply inv_move; [done|done|..]; cbn; auto; [apply (inv_word _ _ HI)|done|right; lia|].
    destruct (decide (state_ s = 2)); [by left|]. do 3 right. split; [done|]. left. split; [done|auto].
  - assert (i <> j) by (intros ->; simplify_eq).
    apply (inv_move total (mk (state_ s) (counter s) (<[j := mkp L_xchg m]> (procs s))) i (mkp U_wake n));
      [by apply inv_awake|cbn [procs]; etrans; [by apply list_lookup_insert_ne|done]|apply (inv_word _ _ HI)|done|by left|done|by left|].
    right; right; left. exists j. eexists. split_and!; [done|apply list_lookup_insert_eq; by eapply lookup_lt_Some|done].
  - eapply inv_move; [done|done|..]; cbn; auto; [apply (inv_word _ _ HI)|done|].
    do 3 right. split; [done|by right].
  - by apply inv_awake.
Qed.

Lemma futex_reachable_inv P N s : rtc run (init P N) s -> Inv (P * N) s.
Proof.
  apply (rtc_ind_r (Inv (P * N))); [|intros; by eapply futex_step_inv].
  split; cbn; rewrite ?sum_list_const; cbn; auto.
  - by rewrite Z.sub_diag.
  - intros i r n [? _]%lookup_replicate. done.
  - intros i p [-> _]%lookup_replicate. by left.
  - intros i n [? _]%lookup_replicate. done.
Qed.

(** ** Properties *)

Definition finished (p : proc) : Prop := at_ p = Idle /\ todo p = 0%nat.

#[global] Instance finished_dec p : Decision (finished p).
Proof. unfold finished. apply _. Defined.

(** When every process has finished, no increment is outstanding. *)
Lemma finished_counter P N s :
  rtc run (init P N) s -> Forall finished (procs s) -> counter s = u64 (Z.of_nat (P * N)).
Proof.
  intros HI%futex_reachable_inv Hf. rewrite (inv_counter _ _ HI). f_equal.
  enough (sum_list_with todo (procs s) = 0%nat) by lia. clear -Hf. induction Hf as [|p l [_ Hp] _ IH]; cbn; lia.
Qed.

(** C15. [FutexMutex] with any number of processes that lock through [lock] or
    [try_lock]: at most one of them is between a successful lock and its
    unlock, the word is zero exactly when there is none, and no increment of
    the protected counter is lost, so that its final value is the number of
    processes times the number of iterations. *)
Theorem futex_mutex P N s :
  rtc run (init P N) s ->
  (forall i j p p', procs s !! i = Some p -> procs s !! j = Some p' ->
     in_section p = 1%nat -> in_section p' = 1%nat -> i = j) /\
  (state_ s = 0 <-> forall i p, procs s !! i = Some p -> in_section p = 0%nat) /\
  (Forall finished (procs s) -> counter s = u64 (Z.of_nat (P * N))).
Proof.
  intros Hr. pose proof (futex_reachable_inv _ _ _ Hr) as HI. pose proof (inv_count _ _ HI) as Hc. unfold locked in Hc.
  split_and!; [| |by apply finished_counter].
  - intros i j p p' Hi Hj Hp Hp'. destruct (decide (i = j)) as [|Hne]; [done|exfalso].
    pose proof (sum_list_two in_section _ _ _ _ _ Hne Hi Hj). case_match; lia.
  - destruct (Z.eqb_spec (state_ s) 0) as [Heq|Hne]; split; try done.
    + intros _ i p Hi. pose proof (sum_list_lookup in_section _ _ _ Hi). lia.
    + intros Hall. destruct (sum_list_pos in_section (procs s)) as (i & p & Hi & Hp); [lia|]. specialize (Hall _ _ Hi). lia.
Qed.

(** A process that is awake and has work can move. *)
Lemma awake_steps total s i p :
  Inv total s -> procs s !! i = Some p -> at_ p <> Asleep -> ~ finished p -> exists s', step s s'.
Proof.
  intros HI Hi Hna Hnf. destruct (act s p) as [[[st c] p']|] eqn:Ha; [eexists; by eapply st_act|].
  destruct p as [l n]. unfold act in Ha. cbn in Ha, Hna. destruct l; try done; repeat case_match; simplify_eq/=.
  - by destruct Hnf.
  - destruct (decide (Forall (fun p => at_ p <> Asleep) (procs s))) as [Hall|Hex]; [eexists; by eapply st_wake_none|].
    apply not_Forall_Exists, Exists_exists in Hex as ([l m] & [j Hj]%list_elem_of_lookup & Hl); [|apply _].
    destruct (decide (l = Asleep)) as [->|]; [|by destruct Hl]. eexists. by eapply st_wake.
Qed.

(** C33. No wake-up of [FutexMutex] is lost: as long as some process has not
    finished its iterations, a process can take a step without the help of
    signals, so a waiter never sleeps while the lock is free and nobody is
    about to wake it. *)
Theorem futex_progress P N s :
  rtc run (init P N) s -> ~ Forall finished (procs s) -> exists s', step s s'.
Proof.
  intros HI%futex_reachable_inv Hnf.
  destruct (decide (Exists (fun p => at_ p <> Asleep /\ ~ finished p) (procs s))) as [Hex|Hno].
  { apply Exists_exists in Hex as (p & [i Hi]%list_elem_of_lookup & Hna & Hp). by eapply awake_steps. }
  apply not_Forall_Exists, Exists_exists in Hnf as ([l n] & [i Hi]%list_elem_of_lookup & Hl); [|apply _].
  assert (forall j p, procs s !! j = Some p -> at_ p <> Asleep -> finished p) as Hall.
  { intros j p Hj Hna. destruct (decide (finished p)) as [|Hp]; [done|]. destruct Hno. apply Exists_exists.
    exists p. split; [by eapply list_elem_of_lookup_2|done]. }
  destruct (decide (l = Asleep)) as [->|Hne]; [|by destruct Hl; apply (Hall i)]. exfalso.
  destruct (inv_wake _ _ HI _ _ Hi) as [H2|(j & p & Hj & Hp)].
  - pose proof (inv_count _ _ HI) as Hc. rewrite H2 in Hc. cbn in Hc.
    destruct (sum_list_pos in_section (procs s)) as (j & p & Hj & Hp); [lia|].
    specialize (Hall j p Hj). unfold in_section, finished in *. destruct (at_ p); try lia; by destruct Hall.
  - specialize (Hall j p Hj). unfold pending, finished in *. destruct (at_ p); try done; by destruct Hall.
Qed.

(** ** Witnesses *)

Ltac proc_step i := eapply rtc_l; [left; eapply (st_act _ i); reflexivity|]; cbn.

(** Process 1 runs into the lock held by process 0, sleeps, is woken and
    increments in turn. *)
Lemma ex_contended : rtc run (init 2 1) (mk 0 2 [mkp Idle 0; mkp Idle 0]).
Proof.
  unfold init. cbn. proc_step 0%nat. proc_step 0%nat. proc_step 1%nat. proc_step 1%nat. proc_step 1%nat. proc_step 1%nat.
  proc_step 0%nat. proc_step 0%nat. proc_step 0%nat. proc_step 0%nat.
  eapply rtc_l; [left; apply (st_wake _ 0 1 0 1); reflexivity|]; cbn.
  proc_step 1%nat. proc_step 1%nat. proc_step 1%nat. proc_step 1%nat. proc_step 1%nat.
  eapply rtc_l; [left; apply (st_wake_none _ 1 0); [reflexivity|]|apply rtc_refl].
  repeat constructor; done.
Qed.

Lemma futex_mutex_witness : counter (mk 0 2 [mkp Idle 0; mkp Idle 0]) = u64 (Z.of_nat (2 * 1)).
Proof. apply (futex_mutex 2 1 (mk 0 2 [mkp Idle 0; mkp Idle 0]) ex_contended). repeat constructor. Defined.

Lemma futex_progress_witness : exists s', step (init 2 1) s'.
Proof. apply (futex_progress 2 1); [apply rtc_refl|]. intros Hf. inversion Hf as [|? ? [_ H0]]. discriminate H0. Defined.

End Futex.
