(* ===== verification/Channel.v ===== *)
(** * The one-place acquire/release channel

    Model of [AcquireReleaseChannel] (04-hardware-sync,
    memory_order_drills.hpp).  The payload is written and copied field by
    field, so that a step relation of one sender and one receiver shows
    whether a message can be torn. *)

From S2P Require Import Prelude.

#[local] Open Scope Z_scope.

Module Channel.

(** [price] is the image of the double, which is only copied. *)
Record OrderData := mk_data { order_id : Z; price : Z; qty : Z; valid : bool }.

Record t := mk { data_ : OrderData; has_data_ : bool }.

Definition AcquireReleaseChannel : t := mk (mk_data 0 0 0 false) false.

(** Field [n] of [m], in the order of the assignments. *)
Definition copy_field (m : OrderData) (n : nat) (d : OrderData) : OrderData :=
  match n with
  | 0 => mk_data (order_id m) (price d) (qty d) (valid d)
  | 1 => mk_data (order_id d) (price m) (qty d) (valid d)
  | 2 => mk_data (order_id d) (price d) (qty m) (valid d)
  | _ => mk_data (order_id d) (price d) (qty d) (valid m)
  end%nat.

Definition message (id p q : Z) : OrderData := mk_data id p q true.

Inductive spc := S_idle | S_write (m : OrderData) (n : nat).
Inductive rpc := R_idle | R_copy (out : OrderData) (n : nat).

Record cfg := mkc { ch : t; snd_ : spc; rcv : rpc; sent : list OrderData; received : list OrderData }.

Definition try_send (id p q : Z) (c : t) : spc := if has_data_ c then S_idle else S_write (message id p q) 0.

Definition send_step (c : t) (m : OrderData) (n : nat) : t * spc :=
  if decide (n < 4)%nat then (mk (copy_field m n (data_ c)) (has_data_ c), S_write m (S n))
  else (mk (data_ c) true, S_idle).

Definition try_receive (out : OrderData) (c : t) : rpc := if has_data_ c then R_copy out 0 else R_idle.

Definition receive_step (c : t) (out : OrderData) (n : nat) : t * rpc :=
  if decide (n < 4)%nat then (c, R_copy (copy_field (data_ c) n out) (S n))
  else (mk (data_ c) false, R_idle).

(** [sent] and [received] grow when a call completes. *)
Definition completed {A} (n : nat) (l : list A) (x : A) : list A := if decide (n < 4)%nat then l else l ++ [x].

Inductive step : cfg -> cfg -> Prop :=
| st_send c r ss rs id p q : step (mkc c S_idle r ss rs) (mkc c (try_send id p q c) r ss rs)
| st_write c c' s' r ss rs m n : send_step c m n = (c', s') ->
    step (mkc c (S_write m n) r ss rs) (mkc c' s' r (completed n ss m) rs)
| st_receive c s ss rs out : step (mkc c s R_idle ss rs) (mkc c s (try_receive out c) ss rs)
| st_copy c c' s r' ss rs out n : receive_step c out n = (c', r') ->
    step (mkc c s (R_copy out n) ss rs) (mkc c' s r' ss (completed n rs out)).

Definition init : cfg := mkc AcquireReleaseChannel S_idle R_idle [] [].

(** The first [n] fields of [d] are those of [m]. *)
Definition agree (m d : OrderData) (n : nat) : Prop :=
  ((0 < n)%nat -> order_id d = order_id m) /\ ((1 < n)%nat -> price d = price m) /\
  ((2 < n)%nat -> qty d = qty m) /\ ((3 < n)%nat -> valid d = valid m).

Lemma agree_copy m d n : (n < 4)%nat -> agree m d n -> agree m (copy_field m n d) (S n).
Proof.
  intros Hn (H0 & H1 & H2 & H3). destruct n as [|[|[|[|n]]]]; [..|lia]; split_and!; cbn; intros; auto; lia.
Qed.

Lemma agree_full m d : agree m d 4 -> d = m.
Proof.
  intros (H0 & H1 & H2 & H3). destruct m, d. cbn in *. rewrite H0, H1, H2, H3 by lia. done.
Qed.

(** While the flag is down only the sender touches the payload, and while it
    is up only the receiver. *)
Record Inv (x : cfg) : Prop := {
  inv_queue : if has_data_ (ch x) then sent x = received x ++ [data_ (ch x)] else sent x = received x;
  inv_snd : match snd_ x with S_idle => True | S_write m n => has_data_ (ch x) = false /\ (n <= 4)%nat /\ agree m (data_ (ch x)) n end;
  inv_rcv : match rcv x with R_idle => True | R_copy out n => has_data_ (ch x) = true /\ (n <= 4)%nat /\ agree (data_ (ch x)) out n end }.

Lemma channel_step_inv x y : step x y -> Inv x -> Inv y.
Proof.
  intros Hst [Hq Hs Hr]. destruct Hst as [c ? ? ? id p q0|? ? ? ? ? ? m n Hw|c ? ? ? out|? ? ? ? ? ? out n Hc]; cbn in *.
  - split; cbn; [done| |done]. unfold try_send. destruct (has_data_ c); [done|]. split_and!; [done|lia|]. split_and!; lia.
  - destruct Hs as (Hf & Hn & Ha). rewrite Hf in Hq. unfold send_step, completed in *. case_decide; simplify_eq.
    + split; cbn; [by rewrite Hf| |destruct r; [done|by destruct Hr; congruence]].
      split_and!; [done|lia|by apply agree_copy].
    + replace n with 4%nat in Ha by lia. apply agree_full in Ha. subst m.
      split; cbn; [done|done|]. destruct r; [done|by destruct Hr; congruence].
  - split; cbn; [done|done|]. unfold try_receive. destruct (has_data_ c); [|done]. split_and!; [done|lia|]. split_and!; lia.
  - destruct Hr as (Hf & Hn & Ha). rewrite Hf in Hq. unfold receive_step, completed in *. case_decide; simplify_eq.
    + split; cbn; [by rewrite Hf|done|]. split_and!; [done|lia|by apply agree_copy].
    + replace n with 4%nat in Ha by lia. apply agree_full in Ha. subst out.
      split; cbn; [done| |done]. destruct s; [done|by destruct Hs; congruence].
Qed.

(** Messages arrive complete, in order and exactly once, and at most one is
    in flight. *)
Theorem channel_delivery x :
  rtc step init x -> exists pending, sent x = received x ++ pending /\ (length pending <= 1)%nat.
Proof.
  intros Hr. assert (Inv x) as [Hq _ _].
  { revert x Hr. apply rtc_ind_r; [by split|]. intros; by eapply channel_step_inv. }
  destruct (has_data_ (ch x)); [exists [data_ (ch x)]|exists []]; (split; [|cbn; lia]); [done|].
  by rewrite app_nil_r.
Qed.
End Channel.
