(* ===== verification/Fiber.v ===== *)
(** * The cooperative fiber scheduler

    Model of [Fiber], [Scheduler], [FiberMutex] and [FiberChannel]
    (12-capstone, fiber_scheduler.hpp).  A fiber is the code it still has to
    run, a list of calls of the library; a context switch saves and restores
    exactly that.  Shared pointers to fibers are their positions in the list
    of all fibers, mutexes and channels are named by numbers.  [step] is one
    library call of the running fiber or one round of [Scheduler::run]; a call
    that blocks leaves the code in place, because the loops of [lock], [send]
    and [receive] test their condition again after the switch. *)

From S2P Require Import Prelude.

#[local] Open Scope Z_scope.
#[local] Open Scope cpp_scope.

Module Fib.

Inductive FiberState := READY | RUNNING | SUSPENDED | DEAD.

#[global] Instance FiberState_eq_dec : EqDecision FiberState.
Proof. solve_decision. Defined.

(** The calls a fiber makes. *)
Inductive instr :=
| Yield | Lock (m : nat) | Unlock (m : nat) | Send (c : nat) (v : Z) | Receive (c : nat) | Spawn (body : list instr).

Record Fiber := mk_fiber { id_ : Z; state_ : FiberState; code : list instr }.

Record FiberMutex := mk_mutex { locked_ : bool; waiters_ : list nat }.

(** [sent] and [received] record the history of the channel. *)
Record FiberChannel := mk_channel {
  capacity_ : nat; queue_ : list Z; send_waiters_ : list nat; recv_waiters_ : list nat;
  sent : list Z; received : list Z }.

Record t := mk {
  next_id_ : Z;
  fibers : list Fiber;
  ready_queue_ : list nat;
  current_fiber_ : option nat;
  mutexes : nat -> FiberMutex;
  channels : nat -> FiberChannel }.

Definition upd {A} (f : nat -> A) (i : nat) (x : A) : nat -> A := fun j => if decide (j = i) then x else f j.

Definition set_fiber (i : nat) (f : Fiber) (s : t) : t :=
  mk (next_id_ s) (<[i := f]> (fibers s)) (ready_queue_ s) (current_fiber_ s) (mutexes s) (channels s).
Definition set_ready (q : list nat) (s : t) : t :=
  mk (next_id_ s) (fibers s) q (current_fiber_ s) (mutexes s) (channels s).
Definition set_current (c : option nat) (s : t) : t :=
  mk (next_id_ s) (fibers s) (ready_queue_ s) c (mutexes s) (channels s).
Definition set_mutex (m : nat) (x : FiberMutex) (s : t) : t :=
  mk (next_id_ s) (fibers s) (ready_queue_ s) (current_fiber_ s) (upd (mutexes s) m x) (channels s).
Definition set_channel (c : nat) (x : FiberChannel) (s : t) : t :=
  mk (next_id_ s) (fibers s) (ready_queue_ s) (current_fiber_ s) (mutexes s) (upd (channels s) c x).

Definition set_state (i : nat) (st : FiberState) (s : t) : t :=
  match fibers s !! i with Some f => set_fiber i (mk_fiber (id_ f) st (code f)) s | None => s end.
Definition set_code (i : nat) (k : list instr) (s : t) : t :=
  match fibers s !! i with Some f => set_fiber i (mk_fiber (id_ f) (state_ f) k) s | None => s end.

(** ** The scheduler *)

Definition spawn (body : list instr) (s : t) : t :=
  let id := next_id_ s +64 1 in
  mk id (fibers s ++ [mk_fiber id READY body]) (ready_queue_ s ++ [length (fibers s)]) (current_fiber_ s)
     (mutexes s) (channels s).

Definition resume (i : nat) (s : t) : t :=
  match fibers s !! i with
  | Some f => if decide (state_ f = DEAD) then s
              else let s := set_state i READY s in set_ready (ready_queue_ s ++ [i]) s
  | None => s
  end.

(** [Scheduler::yield] up to and including the switch back to [run], which
    clears the current fiber. *)
Definition yield (i : nat) (s : t) : t :=
  let s := match fibers s !! i with
           | Some f => if decide (state_ f = RUNNING)
                       then let s := set_state i READY s in set_ready (ready_queue_ s ++ [i]) s
                       else s
           | None => s
           end in
  set_current None s.

(** ** The mutex and the channel

    The operations of fiber [i] with the code [k] behind the call. *)

Definition wake (ws : list nat) (s : t) : t := match ws with [] => s | w :: _ => resume w s end.

Definition lock (i m : nat) (k : list instr) (s : t) : t :=
  let x := mutexes s m in
  if locked_ x then yield i (set_mutex m (mk_mutex (locked_ x) (waiters_ x ++ [i])) (set_state i SUSPENDED s))
  else set_mutex m (mk_mutex true (waiters_ x)) (set_code i k s).

Definition unlock (i m : nat) (k : list instr) (s : t) : t :=
  let x := mutexes s m in
  wake (waiters_ x) (set_mutex m (mk_mutex false (tail (waiters_ x))) (set_code i k s)).

Definition send (i c : nat) (v : Z) (k : list instr) (s : t) : t :=
  let x := channels s c in
  if (capacity_ x <=? length (queue_ x))%nat
  then yield i (set_channel c (mk_channel (capacity_ x) (queue_ x) (send_waiters_ x ++ [i]) (recv_waiters_ x) (sent x) (received x))
                 (set_state i SUSPENDED s))
  else wake (recv_waiters_ x)
         (set_channel c (mk_channel (capacity_ x) (queue_ x ++ [v]) (send_waiters_ x) (tail (recv_waiters_ x)) (sent x ++ [v]) (received x))
            (set_code i k s)).

Definition receive (i c : nat) (k : list instr) (s : t) : t :=
  let x := channels s c in
  match queue_ x with
  | [] => yield i (set_channel c (mk_channel (capacity_ x) [] (send_waiters_ x) (recv_waiters_ x ++ [i]) (sent x) (received x))
                    (set_state i SUSPENDED s))
  | v :: q => wake (send_waiters_ x)
                (set_channel c (mk_channel (capacity_ x) q (tail (send_waiters_ x)) (recv_waiters_ x) (sent x) (received x ++ [v]))
                   (set_code i k s))
  end.

(** ** Running *)

(** One round of [run], or one call of the current fiber. *)
Definition step (s : t) : option t :=
  match current_fiber_ s with
  | None =>
      match ready_queue_ s with
      | [] => None
      | i :: q =>
          let s := set_ready q s in
          match fibers s !! i with
          | Some f => Some (if decide (state_ f = DEAD) then s else set_current (Some i) (set_state i RUNNING s))
          | None => None
          end
      end
  | Some i =>
      f ← fibers s !! i;
      Some (match code f with
            | [] => yield i (set_state i DEAD s)
            | Yield :: k => yield i (set_code i k s)
            | Lock m :: k => lock i m k s
            | Unlock m :: k => unlock i m k s
            | Send c v :: k => send i c v k s
            | Receive c :: k => receive i c k s
            | Spawn body :: k => spawn body (set_code i k s)
            end)
  end.

Fixpoint run (fuel : nat) (s : t) : option t :=
  match step s with
  | None => Some s
  | Some s' => match fuel with O => None | S fuel => run fuel s' end
  end.

(** A scheduler with its mutexes and channels, and the fibers spawned on it. *)
Definition Scheduler (caps : nat -> nat) : t :=
  mk 0 [] [] None (fun _ => mk_mutex false []) (fun c => mk_channel (caps c) [] [] [] [] []).

Definition start (caps : nat -> nat) (bodies : list (list instr)) : t :=
  foldl (fun s body => spawn body s) (Scheduler caps) bodies.

(** ** Waiting

    The three kinds of waiting queues, seen uniformly: [waits_for] is the
    queue a blocked call waits in, and [opening] how many calls of that kind
    can go through. *)

Inductive wq := WM (m : nat) | WS (c : nat) | WR (c : nat).

#[global] Instance wq_eq_dec : EqDecision wq.
Proof. solve_decision. Defined.

Definition waits_for (k : list instr) : option wq :=
  match k with
  | Lock m :: _ => Some (WM m)
  | Send c _ :: _ => Some (WS c)
  | Receive c :: _ => Some (WR c)
  | _ => None
  end.

Definition waiting (s : t) (u : wq) : list nat :=
  match u with
  | WM m => waiters_ (mutexes s m)
  | WS c => send_waiters_ (channels s c)
  | WR c => recv_waiters_ (channels s c)
  end.

Definition opening (s : t) (u : wq) : nat :=
  match u with
  | WM m => if locked_ (mutexes s m) then 0 else 1
  | WS c => capacity_ (channels s c) - length (queue_ (channels s c))
  | WR c => length (queue_ (channels s c))
  end.

Definition view (f : Fiber) : FiberState * list instr := (state_ f, code f).

(** A fiber that will perform its call on [u] when it is scheduled. *)
Definition candidate (u : wq) (p : FiberState * list instr) : nat :=
  if decide ((p.1 = READY \/ p.1 = RUNNING) /\ waits_for p.2 = Some u) then 1 else 0.

(** Every fiber is where its state says, and nobody waits for something that
    more calls could use than are about to be made. *)
Record Inv (fs : list (FiberState * list instr)) (rq : list nat) (cur : option nat) (que : wq -> list nat) (opn : wq -> nat) : Prop := {
  i_nodup : NoDup rq;
  i_ready : forall i, i ∈ rq <-> fst <$> fs !! i = Some READY;
  i_cur : forall i, cur = Some i <-> fst <$> fs !! i = Some RUNNING;
  i_que : forall u, NoDup (que u);
  i_wait : forall u i, i ∈ que u <-> exists k, fs !! i = Some (SUSPENDED, k) /\ waits_for k = Some u;
  i_susp : forall i k, fs !! i = Some (SUSPENDED, k) -> is_Some (waits_for k);
  i_dead : forall i k, fs !! i = Some (DEAD, k) -> k = [];
  i_open : forall u, que u <> [] -> (opn u <= sum_list_with (candidate u) fs)%nat }.

(** One fiber changes its state or its code. *)
Lemma inv_fiber fs rq cur que opn i p p' rq' cur' que' opn' :
  Inv fs rq cur que opn -> fs !! i = Some p ->
  NoDup rq' -> (forall j, j ∈ rq' <-> (j = i /\ p'.1 = READY) \/ (j <> i /\ j ∈ rq)) ->
  (forall j, cur' = Some j <-> (j = i /\ p'.1 = RUNNING) \/ (j <> i /\ cur = Some j)) ->
  (forall u, NoDup (que' u)) ->
  (forall u j, j ∈ que' u <-> (j = i /\ p'.1 = SUSPENDED /\ waits_for p'.2 = Some u) \/ (j <> i /\ j ∈ que u)) ->
  (p'.1 = SUSPENDED -> is_Some (waits_for p'.2)) -> (p'.1 = DEAD -> p'.2 = []) ->
  (forall u, que' u <> [] -> opn' u = 0%nat \/ (que u <> [] /\ (opn' u + candidate u p <= opn u + candidate u p')%nat)) ->
  Inv (<[i := p']> fs) rq' cur' que' opn'.
Proof.
  intros HI Hi Hnd Hrq Hcur Hqnd Hque Hs Hd Ho. pose proof (lookup_lt_Some _ _ _ Hi) as Hlen.
  assert (forall j, <[i := p']> fs !! j = if decide (j = i) then Some p' else fs !! j) as Hl.
  { intros j. case_decide; [subst; by apply list_lookup_insert_eq|]. by apply list_lookup_insert_ne. }
  split; try done; intros.
  - rewrite Hrq, Hl. case_decide; [subst; destruct p'; cbn; naive_solver|]. rewrite (i_ready _ _ _ _ _ HI). naive_solver.
  - rewrite Hcur, Hl. case_decide; [subst; destruct p'; cbn; naive_solver|]. rewrite (i_cur _ _ _ _ _ HI). naive_solver.
  - rewrite Hque, Hl. case_decide; [subst; destruct p'; cbn; naive_solver|]. rewrite (i_wait _ _ _ _ _ HI). naive_solver.
  - rewrite Hl in *. case_decide; [simplify_eq; by apply Hs|by eapply (i_susp _ _ _ _ _ HI)].
  - rewrite Hl in *. case_decide; [simplify_eq; by apply Hd|by eapply (i_dead _ _ _ _ _ HI)].
  - pose proof (sum_list_insert (candidate u) _ _ _ p' Hi). destruct (Ho u ltac:(done)) as [->|[Hq Hle]]; [lia|].
    pose proof (i_open _ _ _ _ _ HI u Hq). lia.
Qed.

Section transitions.
Context {fs : list (FiberState * list instr)} {rq : list nat} {cur : option nat} {que : wq -> list nat} {opn : wq -> nat}.
Context (HI : Inv fs rq cur que opn).

Lemma not_waiting i p u : fs !! i = Some p -> p.1 <> SUSPENDED -> i ∉ que u.
Proof using HI. intros Hi Hp. rewrite (i_wait _ _ _ _ _ HI). intros (k & Hk & _). by simplify_eq. Qed.

Lemma not_ready i p : fs !! i = Some p -> p.1 <> READY -> i ∉ rq.
Proof using HI. intros Hi Hp. rewrite (i_ready _ _ _ _ _ HI), Hi. cbn. naive_solver. Qed.

Lemma not_current i p : fs !! i = Some p -> p.1 <> RUNNING -> cur <> Some i.
Proof using HI. intros Hi Hp. rewrite (i_cur _ _ _ _ _ HI), Hi. cbn. naive_solver. Qed.

Lemma cur_state i k : cur = Some i -> fs !! i = Some k -> k.1 = RUNNING.
Proof using HI. rewrite (i_cur _ _ _ _ _ HI). intros Hc Hi. rewrite Hi in Hc. cbn in Hc. congruence. Qed.

Lemma inv_ext que' opn' :
  (forall u, que' u = que u) -> (forall u, que u <> [] -> opn' u <= opn u)%nat -> Inv fs rq cur que' opn'.
Proof using HI.
  intros Hq Ho. destruct HI as [H1 H2 H3 H4 H5 H6 H7 H8]. split; try done; intros; rewrite ?Hq in *; auto.
  etrans; [by apply Ho|by apply H8].
Qed.

Lemma inv_dispatch i q k : cur = None -> rq = i :: q -> fs !! i = Some (READY, k) -> Inv (<[i := (RUNNING, k)]> fs) q (Some i) que opn.
Proof using HI.
  intros Hc Hq Hi. pose proof (i_nodup _ _ _ _ _ HI) as Hnd. rewrite Hq in Hnd. apply NoDup_cons in Hnd as [Hni Hnd].
  eapply inv_fiber; [done|done|done|..]; cbn; try done.
  - intros j. rewrite Hq, elem_of_cons. destruct (decide (j = i)) as [->|]; naive_solver.
  - intros j. rewrite Hc. destruct (decide (j = i)) as [->|]; naive_solver.
  - apply HI.
  - intros u j. pose proof (not_waiting i _ u Hi ltac:(done)). destruct (decide (j = i)) as [->|]; naive_solver.
  - intros u Hu. right. split; [done|]. unfold candidate. cbn. repeat case_decide; try lia; naive_solver.
Qed.

(** The running fiber ends. *)
Lemma inv_finish i : cur = Some i -> fs !! i = Some (RUNNING, []) -> Inv (<[i := (DEAD, [])]> fs) rq None que opn.
Proof using HI.
  intros Hc Hi. pose proof (not_ready i _ Hi ltac:(done)) as Hnr.
  eapply inv_fiber; [done|done|apply HI|..]; cbn; try done.
  - intros j. destruct (decide (j = i)) as [->|]; naive_solver.
  - intros j. rewrite Hc. naive_solver.
  - apply HI.
  - intros u j. pose proof (not_waiting i _ u Hi ltac:(done)). destruct (decide (j = i)) as [->|]; naive_solver.
  - intros u Hu. right. split; [done|]. unfold candidate. cbn. case_decide; [naive_solver|lia].
Qed.

(** The running fiber yields. *)
Lemma inv_yield i k k' :
  cur = Some i -> fs !! i = Some (RUNNING, k) -> waits_for k = None -> Inv (<[i := (READY, k')]> fs) (rq ++ [i]) None que opn.
Proof using HI.
  intros Hc Hi Hk. pose proof (not_ready i _ Hi ltac:(done)) as Hnr.
  eapply inv_fiber; [done|done|..]; cbn; try done.
  - apply NoDup_app. split_and!; [apply HI| |apply NoDup_singleton]. by intros j Hj ->%list_elem_of_singleton.
  - intros j. rewrite elem_of_app, list_elem_of_singleton. destruct (decide (j = i)) as [->|]; naive_solver.
  - intros j. rewrite Hc. naive_solver.
  - apply HI.
  - intros u j. pose proof (not_waiting i _ u Hi ltac:(done)). destruct (decide (j = i)) as [->|]; naive_solver.
  - intros u Hu. right. split; [done|]. assert (candidate u (RUNNING, k) = 0%nat) as ->; [|lia].
    unfold candidate. cbn. case_decide; [naive_solver|done].
Qed.

(** The running fiber joins the queue of its call. *)
Lemma inv_block i k w que' :
  cur = Some i -> fs !! i = Some (RUNNING, k) -> waits_for k = Some w -> opn w = 0%nat ->
  (forall u, que' u = if decide (u = w) then que w ++ [i] else que u) ->
  Inv (<[i := (SUSPENDED, k)]> fs) rq None que' opn.
Proof using HI.
  intros Hc Hi Hk Ho Hq. pose proof (not_ready i _ Hi ltac:(done)) as Hnr.
  pose proof (fun u => not_waiting i _ u Hi ltac:(done)) as Hnw.
  eapply inv_fiber; [done|done|apply HI|..]; cbn; try done.
  - intros j. destruct (decide (j = i)) as [->|]; naive_solver.
  - intros j. rewrite Hc. naive_solver.
  - intros u. rewrite Hq. case_decide; [|apply HI]. apply NoDup_app.
    split_and!; [apply HI| |apply NoDup_singleton]. intros j Hj ->%list_elem_of_singleton. by destruct (Hnw w).
  - intros u j. rewrite Hq. case_decide; [subst u; rewrite elem_of_app, list_elem_of_singleton|];
      destruct (decide (j = i)) as [->|]; naive_solver.
  - intros u. rewrite Hq. case_decide; [subst u; by left|]. intros Hu. right. split; [done|].
    unfold candidate. cbn. repeat case_decide; try lia; naive_solver.
Qed.

(** The running fiber performs a call that uses up one opening. *)
Lemma inv_consume i k k' opn' :
  fs !! i = Some (RUNNING, k) -> (forall u, que u <> [] -> opn' u + candidate u (RUNNING, k) <= opn u)%nat ->
  Inv (<[i := (RUNNING, k')]> fs) rq cur que opn'.
Proof using HI.
  intros Hi Ho. pose proof (not_ready i _ Hi ltac:(done)) as Hnr.
  assert (cur = Some i) as Hc by (apply (i_cur _ _ _ _ _ HI); by rewrite Hi).
  eapply inv_fiber; [done|done|apply HI|..]; cbn; try done.
  - intros j. destruct (decide (j = i)) as [->|]; naive_solver.
  - intros j. rewrite Hc. naive_solver.
  - apply HI.
  - intros u j. pose proof (not_waiting i _ u Hi ltac:(done)). destruct (decide (j = i)) as [->|]; naive_solver.
  - intros u Hu. right. split; [done|]. specialize (Ho u Hu). lia.
Qed.

(** The first fiber in a queue becomes ready, for one more opening. *)
Lemma inv_wake w i rest que' opn' :
  que w = i :: rest -> (forall u, que' u = if decide (u = w) then rest else que u) ->
  (forall u, opn' u <= opn u + if decide (u = w) then 1 else 0)%nat ->
  exists k, fs !! i = Some (SUSPENDED, k) /\ Inv (<[i := (READY, k)]> fs) (rq ++ [i]) cur que' opn'.
Proof using HI.
  intros Hw Hq Ho. assert (i ∈ que w) as Hi by (rewrite Hw; left).
  apply (i_wait _ _ _ _ _ HI) in Hi as (k & Hi & Hk). exists k. split; [done|].
  pose proof (not_ready i _ Hi ltac:(done)) as Hnr. pose proof (not_current i _ Hi ltac:(done)) as Hnc.
  pose proof (i_que _ _ _ _ _ HI w) as Hnd. rewrite Hw in Hnd. apply NoDup_cons in Hnd as [Hni Hnd].
  eapply inv_fiber; [done|done|..]; cbn; try done.
  - apply NoDup_app. split_and!; [apply HI| |apply NoDup_singleton]. by intros j Hj ->%list_elem_of_singleton.
  - intros j. rewrite elem_of_app, list_elem_of_singleton. destruct (decide (j = i)) as [->|]; naive_solver.
  - intros j. destruct (decide (j = i)) as [->|]; naive_solver.
  - intros u. rewrite Hq. case_decide; [done|apply HI].
  - intros u j. rewrite Hq. case_decide as Hu.
    + subst u. rewrite Hw, elem_of_cons. destruct (decide (j = i)) as [->|]; naive_solver.
    + assert (i ∉ que u). { rewrite (i_wait _ _ _ _ _ HI). intros (k2 & Hk2 & ?). simplify_eq. }
      destruct (decide (j = i)) as [->|]; naive_solver.
  - intros u Hu. right. rewrite Hq in Hu. split; [case_decide; [subst u; by rewrite Hw|done]|].
    specialize (Ho u). unfold candidate. cbn. repeat case_decide; subst; try lia; naive_solver.
Qed.

Lemma inv_spawn k : Inv (fs ++ [(READY, k)]) (rq ++ [length fs]) cur que opn.
Proof using HI.
  assert (forall j, (fs ++ [(READY, k)]) !! j = if decide (j = length fs) then Some (READY, k) else fs !! j) as Hl.
  { intros j. case_decide; [subst; by rewrite list_lookup_middle|]. destruct (decide (j < length fs)%nat).
    - by rewrite lookup_app_l.
    - rewrite !lookup_ge_None_2; [done|lia|rewrite length_app; cbn; lia]. }
  assert (fs !! length fs = None) as Hn by by apply lookup_ge_None_2.
  destruct HI as [H1 H2 H3 H4 H5 H6 H7 H8]. split; try done; intros.
  - apply NoDup_app. split_and!; [done| |apply NoDup_singleton]. intros j Hj%H2 ->%list_elem_of_singleton. by rewrite Hn in Hj.
  - rewrite elem_of_app, list_elem_of_singleton, Hl, H2. case_decide; [subst; rewrite Hn; naive_solver|naive_solver].
  - rewrite Hl, H3. case_decide; [subst; rewrite Hn; naive_solver|naive_solver].
  - rewrite H5, Hl. case_decide; [subst; rewrite Hn; naive_solver|naive_solver].
  - rewrite Hl in *. case_decide; [naive_solver|eauto].
  - rewrite Hl in *. case_decide; [naive_solver|eauto].
  - rewrite sum_list_with_app. specialize (H8 u ltac:(done)). lia.
Qed.
End transitions.

(** ** The steps keep the invariant *)

Definition SInv (s : t) : Prop := Inv (view <$> fibers s) (ready_queue_ s) (current_fiber_ s) (waiting s) (opening s).

Lemma view_set_state i st s k st0 :
  (view <$> fibers s) !! i = Some (st0, k) -> view <$> fibers (set_state i st s) = <[i := (st, k)]> (view <$> fibers s).
Proof.
  rewrite list_lookup_fmap. unfold set_state. destruct (fibers s !! i) as [f|] eqn:Hf; cbn; [|done].
  intros [= <- <-]. by rewrite list_fmap_insert.
Qed.

Lemma view_set_code i k s k0 st0 :
  (view <$> fibers s) !! i = Some (st0, k0) -> view <$> fibers (set_code i k s) = <[i := (st0, k)]> (view <$> fibers s).
Proof.
  rewrite list_lookup_fmap. unfold set_code. destruct (fibers s !! i) as [f|] eqn:Hf; cbn; [|done].
  intros [= <- <-]. by rewrite list_fmap_insert.
Qed.

(** The parts of the state besides the fibers. *)
Definition parts (s : t) (rq : list nat) (cur : option nat) (ms : nat -> FiberMutex) (cs : nat -> FiberChannel) : Prop :=
  ready_queue_ s = rq /\ current_fiber_ s = cur /\ mutexes s = ms /\ channels s = cs.

Lemma parts_set_state i st s : parts (set_state i st s) (ready_queue_ s) (current_fiber_ s) (mutexes s) (channels s).
Proof. unfold set_state. by destruct (_ !! _). Qed.
Lemma parts_set_code i k s : parts (set_code i k s) (ready_queue_ s) (current_fiber_ s) (mutexes s) (channels s).
Proof. unfold set_code. by destruct (_ !! _). Qed.

Lemma resume_view i s k :
  (view <$> fibers s) !! i = Some (SUSPENDED, k) ->
  view <$> fibers (resume i s) = <[i := (READY, k)]> (view <$> fibers s) /\
  parts (resume i s) (ready_queue_ s ++ [i]) (current_fiber_ s) (mutexes s) (channels s).
Proof.
  intros Hi. pose proof (view_set_state i READY s k _ Hi) as Hv. destruct (parts_set_state i READY s) as (Hr & Hcu & Hm & Hch).
  rewrite list_lookup_fmap in Hi. unfold resume. destruct (fibers s !! i) as [f|] eqn:Hf; cbn in Hi; [|done].
  unfold view in Hi. injection Hi as Hst _. rewrite decide_False by congruence. split; [done|].
  split_and!; cbn [ready_queue_ current_fiber_ mutexes channels set_ready]; congruence.
Qed.

Lemma yield_running i s k :
  (view <$> fibers s) !! i = Some (RUNNING, k) ->
  view <$> fibers (yield i s) = <[i := (READY, k)]> (view <$> fibers s) /\
  parts (yield i s) (ready_queue_ s ++ [i]) None (mutexes s) (channels s).
Proof.
  intros Hi. pose proof (view_set_state i READY s k _ Hi) as Hv. destruct (parts_set_state i READY s) as (Hr & Hcu & Hm & Hch).
  rewrite list_lookup_fmap in Hi. unfold yield. destruct (fibers s !! i) as [f|] eqn:Hf; cbn in Hi; [|done].
  unfold view in Hi. injection Hi as Hst _. rewrite decide_True by done. split; [done|].
  split_and!; cbn [ready_queue_ current_fiber_ mutexes channels set_ready set_current]; congruence.
Qed.

Lemma yield_stopped i s st k :
  (view <$> fibers s) !! i = Some (st, k) -> st <> RUNNING ->
  fibers (yield i s) = fibers s /\ parts (yield i s) (ready_queue_ s) None (mutexes s) (channels s).
Proof.
  rewrite list_lookup_fmap. intros Hi Hst. unfold yield. destruct (fibers s !! i) as [f|] eqn:Hf; cbn in Hi; [|done].
  unfold view in Hi. injection Hi as Hst' _. by rewrite decide_False by congruence.
Qed.

Lemma objects_eq s s' :
  mutexes s = mutexes s' -> channels s = channels s' -> waiting s = waiting s' /\ opening s = opening s'.
Proof. unfold waiting, opening. by intros -> ->. Qed.

(** The running fiber performs a call and lets a waiting fiber go on. *)
Lemma op_wake s i k k' w s1 :
  SInv s -> (view <$> fibers s) !! i = Some (RUNNING, k) -> waits_for k <> Some w ->
  view <$> fibers s1 = <[i := (RUNNING, k')]> (view <$> fibers s) ->
  ready_queue_ s1 = ready_queue_ s -> current_fiber_ s1 = current_fiber_ s ->
  (forall u, waiting s1 u = if decide (u = w) then tail (waiting s w) else waiting s u) ->
  (forall u, opening s1 u + candidate u (RUNNING, k) <= opening s u + if decide (u = w) then 1 else 0)%nat ->
  SInv (wake (waiting s w) s1).
Proof.
  intros HI Hi Hk Hv Hr Hc Hq Ho.
  assert (candidate w (RUNNING, k) = 0%nat) as H0 by (unfold candidate; cbn; case_decide; [naive_solver|done]).
  pose proof (inv_consume HI i k k' (fun u => opening s1 u - if decide (u = w) then 1 else 0)%nat Hi) as HI1.
  assert (Inv (<[i:=(RUNNING, k')]> (view <$> fibers s)) (ready_queue_ s) (current_fiber_ s) (waiting s)
            (fun u => opening s1 u - if decide (u = w) then 1 else 0)%nat) as HI2.
  { apply HI1. intros u _. specialize (Ho u). case_decide; [subst u|]; lia. }
  clear HI1. destruct (waiting s w) as [|j ws] eqn:Hw; cbn [wake].
  - unfold SInv. rewrite Hv, Hr, Hc. apply (inv_ext HI2).
    + intros u. rewrite Hq. case_decide; [by subst|done].
    + intros u Hu. case_decide; [by subst|lia].
  - destruct (inv_wake HI2 w j ws (waiting s1) (opening s1) Hw Hq) as (kj & Hj & HI3).
    { intros u. case_decide; lia. }
    rewrite <- Hv in Hj. destruct (resume_view j s1 kj Hj) as (Hv' & Hrq & Hcu & Hmu & Hch).
    unfold SInv. rewrite Hv'. rewrite <- Hv, <- Hr, <- Hc in HI3.
    destruct (objects_eq (resume j s1) s1 Hmu Hch) as [-> ->]. congruence.
Qed.

(** The running fiber performs a call that wakes nobody. *)
Lemma op_plain s i k k' s1 :
  SInv s -> (view <$> fibers s) !! i = Some (RUNNING, k) ->
  view <$> fibers s1 = <[i := (RUNNING, k')]> (view <$> fibers s) ->
  ready_queue_ s1 = ready_queue_ s -> current_fiber_ s1 = current_fiber_ s ->
  (forall u, waiting s1 u = waiting s u) ->
  (forall u, opening s1 u + candidate u (RUNNING, k) <= opening s u)%nat -> SInv s1.
Proof.
  intros HI Hi Hv Hr Hc Hq Ho. unfold SInv. rewrite Hv, Hr, Hc.
  apply (inv_ext (inv_consume HI i k k' (opening s1) Hi (fun u _ => Ho u))); [done|]. by intros u _.
Qed.

(** The running fiber blocks. *)
Lemma op_block s i k w s1 :
  SInv s -> current_fiber_ s = Some i -> (view <$> fibers s) !! i = Some (RUNNING, k) ->
  waits_for k = Some w -> opening s w = 0%nat ->
  view <$> fibers s1 = <[i := (SUSPENDED, k)]> (view <$> fibers s) -> ready_queue_ s1 = ready_queue_ s ->
  (forall u, waiting s1 u = if decide (u = w) then waiting s w ++ [i] else waiting s u) ->
  (forall u, opening s1 u = opening s u) -> SInv (yield i s1).
Proof.
  intros HI Hc Hi Hk Ho Hv Hr Hq Hop. pose proof (inv_block HI i k w (waiting s1) Hc Hi Hk Ho Hq) as HI1.
  assert ((view <$> fibers s1) !! i = Some (SUSPENDED, k)) as Hi1.
  { rewrite Hv. apply list_lookup_insert_eq. by eapply lookup_lt_Some. }
  destruct (yield_stopped i s1 _ _ Hi1 ltac:(done)) as (Hf & Hrq & Hcu & Hmu & Hch).
  destruct (objects_eq _ _ Hmu Hch) as [Hw1 Hw2]. unfold SInv. rewrite Hf, Hrq, Hcu, Hw1, Hw2, Hv, Hr.
  apply (inv_ext HI1); [done|]. intros u _. by rewrite Hop.
Qed.

(** Setting one mutex or channel, pointwise. *)
Ltac objects :=
  unfold upd; repeat (case_decide; simplify_eq/=); try done; try congruence; try lia.

Section steps.
Context (s : t) (i : nat) (HI : SInv s) (Hc : current_fiber_ s = Some i).

Lemma lock_SInv m k : (view <$> fibers s) !! i = Some (RUNNING, Lock m :: k) -> SInv (lock i m k s).
Proof using HI Hc.
  intros Hi. unfold lock. destruct (parts_set_code i k s) as (R1 & R2 & R3 & R4).
  destruct (parts_set_state i SUSPENDED s) as (Q1 & Q2 & Q3 & Q4).
  destruct (locked_ (mutexes s m)) eqn:Hl.
  - eapply (op_block s i _ (WM m)); [done|done|done|done|by cbn; rewrite Hl|..].
    + cbn [fibers set_mutex]. by eapply view_set_state.
    + done.
    + intros u. unfold waiting. cbn [mutexes channels set_mutex]. rewrite Q3, Q4. destruct u; objects.
    + intros u. unfold opening. cbn [mutexes channels set_mutex]. rewrite Q3, Q4. destruct u; objects. by rewrite Hl.
  - eapply (op_plain s i _ k); [done|done|by eapply view_set_code|done|done|..].
    + intros u. unfold waiting. cbn [mutexes channels set_mutex]. rewrite R3, R4. destruct u; objects.
    + intros u. unfold opening, candidate. cbn [mutexes channels set_mutex fst snd waits_for]. rewrite R3, R4.
      destruct u; objects; rewrite ?Hl; naive_solver lia.
Qed.

Lemma unlock_SInv m k : (view <$> fibers s) !! i = Some (RUNNING, Unlock m :: k) -> SInv (unlock i m k s).
Proof using HI Hc.
  intros Hi. unfold unlock. destruct (parts_set_code i k s) as (R1 & R2 & R3 & R4).
  eapply (op_wake s i _ k (WM m)); [done|done|done|by eapply view_set_code|done|done|..].
  - intros u. unfold waiting. cbn [mutexes channels set_mutex]. rewrite R3, R4. destruct u; objects.
  - intros u. unfold opening, candidate. cbn [mutexes channels set_mutex fst snd waits_for]. rewrite R3, R4.
    destruct u; objects; naive_solver lia.
Qed.

Lemma send_SInv c v k : (view <$> fibers s) !! i = Some (RUNNING, Send c v :: k) -> SInv (send i c v k s).
Proof using HI Hc.
  intros Hi. unfold send. destruct (parts_set_code i k s) as (R1 & R2 & R3 & R4).
  destruct (parts_set_state i SUSPENDED s) as (Q1 & Q2 & Q3 & Q4).
  destruct (Nat.leb_spec (capacity_ (channels s c)) (length (queue_ (channels s c)))) as [Hf|Hf].
  - eapply (op_block s i _ (WS c)); [done|done|done|done|cbn; lia|by eapply view_set_state|done|..].
    + intros u. unfold waiting. cbn [mutexes channels set_channel]. rewrite Q3, Q4. destruct u; objects.
    + intros u. unfold opening. cbn [mutexes channels set_channel]. rewrite Q3, Q4. destruct u; objects.
  - eapply (op_wake s i _ k (WR c)); [done|done|done|by eapply view_set_code|done|done|..].
    + intros u. unfold waiting. cbn [mutexes channels set_channel]. rewrite R3, R4. destruct u; objects.
    + intros u. unfold opening, candidate. cbn [mutexes channels set_channel fst snd waits_for]. rewrite R3, R4.
      destruct u; objects; rewrite ?length_app; cbn [length]; try lia; naive_solver lia.
Qed.

Lemma receive_SInv c k : (view <$> fibers s) !! i = Some (RUNNING, Receive c :: k) -> SInv (receive i c k s).
Proof using HI Hc.
  intros Hi. unfold receive. destruct (parts_set_code i k s) as (R1 & R2 & R3 & R4).
  destruct (parts_set_state i SUSPENDED s) as (Q1 & Q2 & Q3 & Q4). destruct (queue_ (channels s c)) as [|v q] eqn:Hq.
  - eapply (op_block s i _ (WR c)); [done|done|done|done|cbn; by rewrite Hq|by eapply view_set_state|done|..].
    + intros u. unfold waiting. cbn [mutexes channels set_channel]. rewrite Q3, Q4. destruct u; objects.
    + intros u. unfold opening. cbn [mutexes channels set_channel]. rewrite Q3, Q4. destruct u; objects; by rewrite Hq.
  - eapply (op_wake s i _ k (WS c)); [done|done|done|by eapply view_set_code|done|done|..].
    + intros u. unfold waiting. cbn [mutexes channels set_channel]. rewrite R3, R4. destruct u; objects.
    + intros u. unfold opening, candidate. cbn [mutexes channels set_channel fst snd waits_for]. rewrite R3, R4.
      destruct u; objects; rewrite ?Hq; cbn [length]; try lia; naive_solver lia.
Qed.
End steps.

Lemma finish_SInv s i :
  SInv s -> current_fiber_ s = Some i -> (view <$> fibers s) !! i = Some (RUNNING, []) -> SInv (yield i (set_state i DEAD s)).
Proof.
  intros HI Hc Hi. pose proof (view_set_state i DEAD s _ _ Hi) as Hv. destruct (parts_set_state i DEAD s) as (Q1 & Q2 & Q3 & Q4).
  assert ((view <$> fibers (set_state i DEAD s)) !! i = Some (DEAD, [])) as Hi1.
  { rewrite Hv. apply list_lookup_insert_eq. by eapply lookup_lt_Some. }
  destruct (yield_stopped i _ _ _ Hi1 ltac:(done)) as (Hf & Hrq & Hcu & Hmu & Hch).
  destruct (objects_eq (yield i (set_state i DEAD s)) s) as [Hw1 Hw2]; [congruence..|].
  unfold SInv. rewrite Hf, Hv, Hrq, Hcu, Hw1, Hw2, Q1. by apply (inv_finish HI).
Qed.

Lemma yield_SInv s i k :
  SInv s -> current_fiber_ s = Some i -> (view <$> fibers s) !! i = Some (RUNNING, Yield :: k) -> SInv (yield i (set_code i k s)).
Proof.
  intros HI Hc Hi. pose proof (view_set_code i k s _ _ Hi) as Hv. destruct (parts_set_code i k s) as (Q1 & Q2 & Q3 & Q4).
  assert ((view <$> fibers (set_code i k s)) !! i = Some (RUNNING, k)) as Hi1.
  { rewrite Hv. apply list_lookup_insert_eq. by eapply lookup_lt_Some. }
  destruct (yield_running i _ _ Hi1) as (Hv2 & Hrq & Hcu & Hmu & Hch).
  destruct (objects_eq (yield i (set_code i k s)) s) as [Hw1 Hw2]; [congruence..|].
  unfold SInv. rewrite Hv2, Hv, Hrq, Hcu, Hw1, Hw2, Q1, list_insert_insert_eq. by apply (inv_yield HI i (Yield :: k)).
Qed.

Lemma spawn_SInv s i body k :
  SInv s -> (view <$> fibers s) !! i = Some (RUNNING, Spawn body :: k) -> SInv (spawn body (set_code i k s)).
Proof.
  intros HI Hi. pose proof (view_set_code i k s _ _ Hi) as Hv. destruct (parts_set_code i k s) as (Q1 & Q2 & Q3 & Q4).
  assert (SInv (set_code i k s)) as HI1.
  { destruct (objects_eq (set_code i k s) s Q3 Q4) as [Hw1 Hw2].
    eapply (op_plain s i _ k); [done|done|done|done|done|by rewrite Hw1|]. rewrite Hw2.
    intros u. unfold candidate. cbn. case_decide; [naive_solver|lia]. }
  unfold SInv, spawn. cbn [fibers ready_queue_ current_fiber_]. rewrite fmap_app. cbn [fmap list_fmap view state_ code].
  pose proof (inv_spawn HI1 body) as HI2. by rewrite length_fmap in HI2.
Qed.

Lemma dispatch_SInv s i q f :
  SInv s -> current_fiber_ s = None -> ready_queue_ s = i :: q -> fibers s !! i = Some f ->
  state_ f = READY /\ SInv (set_current (Some i) (set_state i RUNNING (set_ready q s))).
Proof.
  intros HI Hc Hq Hf. assert (state_ f = READY) as Hst.
  { assert (i ∈ ready_queue_ s) as Hin by (rewrite Hq; left). apply (i_ready _ _ _ _ _ HI) in Hin.
    rewrite list_lookup_fmap, Hf in Hin. cbn in Hin. congruence. }
  split; [done|].
  assert ((view <$> fibers s) !! i = Some (READY, code f)) as Hi by (rewrite list_lookup_fmap, Hf; cbn; unfold view; by rewrite Hst).
  pose proof (view_set_state i RUNNING (set_ready q s) _ _ Hi) as Hv.
  destruct (parts_set_state i RUNNING (set_ready q s)) as (Q1 & Q2 & Q3 & Q4).
  destruct (objects_eq (set_state i RUNNING (set_ready q s)) s Q3 Q4) as [Hw1 Hw2].
  unfold SInv. cbn [fibers ready_queue_ current_fiber_ set_current]. rewrite Hv, Q1.
  apply (inv_ext (inv_dispatch HI i q (code f) Hc Hq Hi)); [intros u; apply (f_equal (fun g => g u) Hw1)|].
  intros u _. apply Nat.eq_le_incl, (f_equal (fun g => g u) Hw2).
Qed.

Lemma current_view s i f : SInv s -> current_fiber_ s = Some i -> fibers s !! i = Some f -> (view <$> fibers s) !! i = Some (RUNNING, code f).
Proof.
  intros HI Hc Hf. apply (i_cur _ _ _ _ _ HI) in Hc. rewrite list_lookup_fmap, Hf in *. cbn in *. unfold view. congruence.
Qed.

Lemma step_SInv s s' : step s = Some s' -> SInv s -> SInv s'.
Proof.
  intros Hst HI. unfold step in Hst. destruct (current_fiber_ s) as [i|] eqn:Hc.
  - destruct (fibers s !! i) as [f|] eqn:Hf; cbn in Hst; [|done]. injection Hst as <-.
    pose proof (current_view s i f HI Hc Hf) as Hv. destruct (code f) as [|[| | | | |] k] eqn:Hk.
    + by apply finish_SInv.
    + by apply yield_SInv.
    + by apply lock_SInv.
    + by apply unlock_SInv.
    + by apply send_SInv.
    + by apply receive_SInv.
    + by apply spawn_SInv.
  - destruct (ready_queue_ s) as [|i q] eqn:Hq; [done|]. cbn [fibers set_ready] in Hst.
    destruct (fibers s !! i) as [f|] eqn:Hf; [|done]. injection Hst as <-.
    destruct (dispatch_SInv s i q f HI Hc Hq Hf) as [Hr HI']. by rewrite decide_False by congruence.
Qed.

Lemma start_SInv caps bodies : SInv (start caps bodies).
Proof.
  unfold start. induction bodies as [|b bs IH] using rev_ind.
  - assert (forall u, waiting (Scheduler caps) u = []) as Hw by by intros [].
    split; cbn [Scheduler foldl fibers ready_queue_ current_fiber_ fmap list_fmap]; try done.
    + apply NoDup_nil_2.
    + intros i. split; [by intros ?%not_elem_of_nil|done].
    + intros u. rewrite Hw. apply NoDup_nil_2.
    + intros u i. rewrite Hw. split; [by intros ?%not_elem_of_nil|by intros (k & ? & _)].
    + intros u. by rewrite Hw.
  - rewrite foldl_app. cbn [foldl]. unfold SInv, spawn at 1. cbn [fibers ready_queue_ current_fiber_].
    rewrite fmap_app. cbn [fmap list_fmap view state_ code]. pose proof (inv_spawn IH b) as HI2. by rewrite length_fmap in HI2.
Qed.

(** ** Termination *)

(** The number of calls in a body, with those of the fibers it spawns. *)
Fixpoint isize (x : instr) : nat :=
  match x with Spawn body => S (S (sum_list_with isize body)) | _ => 1 end.

Definition vsize (p : FiberState * list instr) : nat :=
  match p.1 with DEAD => 0 | _ => S (sum_list_with isize p.2) end.

Definition busy (cur : option nat) : nat := match cur with Some _ => 1 | None => 0 end.

(** Decreases with every step. *)
Definition cost (s : t) : nat :=
  3 * sum_list_with vsize (view <$> fibers s) + 2 * length (ready_queue_ s) + busy (current_fiber_ s).

Lemma cost_wake ws s : (cost (wake ws s) <= cost s + 2)%nat.
Proof.
  destruct ws as [|i ws]; cbn [wake]; [lia|]. unfold resume. destruct (fibers s !! i) as [f|] eqn:Hf; [|lia].
  case_decide as Hd; [lia|]. unfold cost, set_state. rewrite Hf. cbn [fibers ready_queue_ current_fiber_ set_ready set_fiber].
  rewrite length_app, list_fmap_insert. cbn [length].
  pose proof (sum_list_insert vsize (view <$> fibers s) i (view f) (view (mk_fiber (id_ f) READY (code f)))) as Hs.
  rewrite list_lookup_fmap, Hf in Hs. specialize (Hs eq_refl).
  assert (vsize (view (mk_fiber (id_ f) READY (code f))) = vsize (view f)) as Hv.
  { unfold vsize, view. cbn. by destruct (state_ f). }
  lia.
Qed.

Lemma cost_view s s' i p p' :
  (view <$> fibers s) !! i = Some p -> view <$> fibers s' = <[i := p']> (view <$> fibers s) ->
  (cost s' + 3 * vsize p + 2 * length (ready_queue_ s) + busy (current_fiber_ s) =
   cost s + 3 * vsize p' + 2 * length (ready_queue_ s') + busy (current_fiber_ s'))%nat.
Proof. intros Hi Hv. pose proof (sum_list_insert vsize _ _ _ p' Hi). unfold cost. rewrite Hv. lia. Qed.

(** A call that goes through costs at least three. *)
Lemma cost_op s i x k s1 :
  (view <$> fibers s) !! i = Some (RUNNING, x :: k) -> view <$> fibers s1 = <[i := (RUNNING, k)]> (view <$> fibers s) ->
  ready_queue_ s1 = ready_queue_ s -> current_fiber_ s1 = current_fiber_ s -> (cost s1 + 3 <= cost s)%nat.
Proof.
  intros Hi Hv Hr Hc. pose proof (cost_view s s1 i _ _ Hi Hv) as H. rewrite Hr, Hc in H. unfold vsize in H. cbn [fst snd sum_list_with] in H.
  assert (1 <= isize x)%nat by (destruct x; cbn; lia). lia.
Qed.

(** A call that blocks, or the end of a fiber, gives up the processor. *)
Lemma cost_stop s i k st k' s1 :
  (view <$> fibers s) !! i = Some (RUNNING, k) -> current_fiber_ s = Some i -> st <> RUNNING ->
  view <$> fibers s1 = <[i := (st, k')]> (view <$> fibers s) -> (vsize (st, k') <= vsize (RUNNING, k))%nat ->
  ready_queue_ s1 = ready_queue_ s -> (cost (yield i s1) < cost s)%nat.
Proof.
  intros Hi Hc Hst Hv Hs Hr. assert ((view <$> fibers s1) !! i = Some (st, k')) as Hi1.
  { rewrite Hv. apply list_lookup_insert_eq. by eapply lookup_lt_Some. }
  destruct (yield_stopped i s1 _ _ Hi1 Hst) as (Hf & Hrq & Hcu & _).
  pose proof (cost_view s (yield i s1) i _ (st, k') Hi ltac:(by rewrite Hf)) as H. rewrite Hrq, Hcu, Hc, Hr in H. cbn [busy] in H. lia.
Qed.

Lemma step_cost s s' : step s = Some s' -> SInv s -> (cost s' < cost s)%nat.
Proof.
  intros Hst HI. unfold step in Hst. destruct (current_fiber_ s) as [i|] eqn:Hc.
  - destruct (fibers s !! i) as [f|] eqn:Hf; cbn in Hst; [|done]. injection Hst as <-.
    pose proof (current_view s i f HI Hc Hf) as Hv.
    destruct (code f) as [|x k] eqn:Hk.
    { eapply cost_stop; [done|done|..|apply parts_set_state]; [|by eapply view_set_state|cbn; lia]. done. }
    pose proof (view_set_code i k s _ _ Hv) as Hvc. destruct (parts_set_code i k s) as (R1 & R2 & R3 & R4).
    pose proof (view_set_state i SUSPENDED s _ _ Hv) as Hvs. destruct (parts_set_state i SUSPENDED s) as (Q1 & Q2 & Q3 & Q4).
    pose proof (cost_op s i x k (set_code i k s) Hv Hvc R1 R2) as Hop.
    destruct x as [|m|m|c v|c|body].
    + assert ((view <$> fibers (set_code i k s)) !! i = Some (RUNNING, k)) as Hi1.
      { rewrite Hvc. apply list_lookup_insert_eq. by eapply lookup_lt_Some. }
      destruct (yield_running i _ _ Hi1) as (Hv2 & Hrq & Hcu & _).
      pose proof (cost_view _ _ i _ _ Hi1 Hv2) as H. rewrite Hrq, Hcu, R2, Hc, length_app in H. cbn [busy length] in H.
      unfold vsize in H. cbn [fst snd] in H. lia.
    + unfold lock. destruct (locked_ _); [|change (cost (set_mutex _ _ ?s0)) with (cost s0); lia].
      eapply (cost_stop s i (Lock m :: k)); [done|done|..]; [|exact Hvs|by cbn|done]. done.
    + unfold unlock. match goal with |- (cost (wake ?ws ?s1) < _)%nat => pose proof (cost_wake ws s1) as Hw end.
      change (cost (set_mutex _ _ ?s0)) with (cost s0) in Hw. lia.
    + unfold send. destruct (_ <=? _)%nat.
      * eapply (cost_stop s i (Send c v :: k)); [done|done|..]; [|exact Hvs|by cbn|done]. done.
      * match goal with |- (cost (wake ?ws ?s1) < _)%nat => pose proof (cost_wake ws s1) as Hw end.
        change (cost (set_channel _ _ ?s0)) with (cost s0) in Hw. lia.
    + unfold receive. destruct (queue_ _).
      * eapply (cost_stop s i (Receive c :: k)); [done|done|..]; [|exact Hvs|by cbn|done]. done.
      * match goal with |- (cost (wake ?ws ?s1) < _)%nat => pose proof (cost_wake ws s1) as Hw end.
        change (cost (set_channel _ _ ?s0)) with (cost s0) in Hw. lia.
    + pose proof (cost_view s _ i _ _ Hv Hvc) as H. rewrite R1, R2 in H. unfold vsize in H. cbn [fst snd sum_list_with isize] in H.
      unfold spawn, cost at 1. cbn [fibers ready_queue_ current_fiber_]. rewrite fmap_app, sum_list_with_app, length_app.
      cbn [fmap list_fmap sum_list_with length view vsize state_ code fst snd]. unfold cost in *. lia.
  - destruct (ready_queue_ s) as [|i q] eqn:Hq; [done|]. cbn [fibers set_ready] in Hst.
    destruct (fibers s !! i) as [f|] eqn:Hf; [|done]. injection Hst as <-.
    destruct (dispatch_SInv s i q f HI Hc Hq Hf) as [Hr _]. rewrite decide_False by congruence.
    assert ((view <$> fibers s) !! i = Some (READY, code f)) as Hi by (rewrite list_lookup_fmap, Hf; cbn; unfold view; by rewrite Hr).
    pose proof (view_set_state i RUNNING (set_ready q s) _ _ Hi) as Hv.
    destruct (parts_set_state i RUNNING (set_ready q s)) as (Q1 & _).
    pose proof (cost_view s (set_current (Some i) (set_state i RUNNING (set_ready q s))) i _ _ Hi Hv) as H.
    cbn [ready_queue_ current_fiber_ set_current] in H. rewrite Q1, Hq, Hc in H. unfold vsize in H. cbn [fst snd busy length set_ready ready_queue_] in H. lia.
Qed.

(** ** What the fibers observe

    A step either leaves the code of all fibers and the state of all mutexes
    and channels alone, or performs the next call of one fiber. *)

Definition codes (s : t) : list (list instr) := code <$> fibers s.

Lemma codes_set_state i st s : codes (set_state i st s) = codes s.
Proof.
  unfold codes, set_state. destruct (fibers s !! i) as [f|] eqn:Hf; [|done]. cbn. rewrite list_fmap_insert. cbn.
  apply list_insert_id. by rewrite list_lookup_fmap, Hf.
Qed.

Lemma codes_set_code i k s f : fibers s !! i = Some f -> codes (set_code i k s) = <[i := k]> (codes s).
Proof. intros Hf. unfold codes, set_code. rewrite Hf. cbn. by rewrite list_fmap_insert. Qed.

(** [s'] differs from [s] in the scheduling only. *)
Definition quiet (s s' : t) : Prop := codes s' = codes s /\ mutexes s' = mutexes s /\ channels s' = channels s.

Lemma quiet_set_state i st s : quiet s (set_state i st s).
Proof. split; [apply codes_set_state|]. split; apply parts_set_state. Qed.

Lemma quiet_yield i s : quiet s (yield i s).
Proof.
  unfold yield. destruct (fibers s !! i); [|done]. case_decide; [|done].
  destruct (quiet_set_state i READY s) as (H1 & H2 & H3). by split_and!.
Qed.

Lemma quiet_wake ws s : quiet s (wake ws s).
Proof.
  destruct ws as [|i ws]; [done|]. cbn. unfold resume. destruct (fibers s !! i); [|done]. case_decide; [done|].
  destruct (quiet_set_state i READY s) as (H1 & H2 & H3). by split_and!.
Qed.

Definition contents (s : t) (c : nat) : nat * list Z * list Z * list Z :=
  let x := channels s c in (capacity_ x, queue_ x, sent x, received x).

Definition idle_step (s s' : t) : Prop :=
  codes s' = codes s /\ (forall m, locked_ (mutexes s' m) = locked_ (mutexes s m)) /\ (forall c, contents s' c = contents s c).

(** The effect of a call on the mutexes and channels, and its condition. *)
Definition lock_effect (x : instr) (m : nat) (b b' : bool) : Prop :=
  match x with
  | Lock m' => if decide (m' = m) then b = false /\ b' = true else b' = b
  | Unlock m' => if decide (m' = m) then b' = false else b' = b
  | _ => b' = b
  end.

Definition channel_effect (x : instr) (c : nat) (a b : nat * list Z * list Z * list Z) : Prop :=
  let '(cap, q, ss, rs) := a in
  match x with
  | Send c' v => if decide (c' = c) then (length q < cap)%nat /\ b = (cap, q ++ [v], ss ++ [v], rs) else b = a
  | Receive c' => if decide (c' = c) then exists v q', q = v :: q' /\ b = (cap, q', ss, rs ++ [v]) else b = a
  | _ => b = a
  end.

Definition performs (s s' : t) : Prop :=
  exists i x k, codes s !! i = Some (x :: k) /\
    codes s' = <[i := k]> (codes s) ++ (match x with Spawn body => [body] | _ => [] end) /\
    (forall m, lock_effect x m (locked_ (mutexes s m)) (locked_ (mutexes s' m))) /\
    (forall c, channel_effect x c (contents s c) (contents s' c)).

Lemma quiet_idle s s1 s2 : quiet s1 s2 -> idle_step s s1 -> idle_step s s2.
Proof. intros (H1 & H2 & H3). unfold idle_step, contents. by rewrite H1, H2, H3. Qed.

Lemma quiet_performs s s1 s2 : quiet s1 s2 -> performs s s1 -> performs s s2.
Proof. intros (H1 & H2 & H3). unfold performs, contents. by rewrite H1, H2, H3. Qed.

(** A call leads to a state in which only the given mutexes and channels have
    changed. *)
Lemma performs_intro s s1 i x k ms cs :
  codes s !! i = Some (x :: k) -> codes s1 = <[i := k]> (codes s) ++ (match x with Spawn body => [body] | _ => [] end) ->
  mutexes s1 = ms -> channels s1 = cs ->
  (forall m, lock_effect x m (locked_ (mutexes s m)) (locked_ (ms m))) ->
  (forall c, channel_effect x c (contents s c) (let y := cs c in (capacity_ y, queue_ y, sent y, received y))) ->
  performs s s1.
Proof. intros Hi Hc <- <- Hm Hch. exists i, x, k. by split_and!. Qed.

Lemma step_effect s s' : step s = Some s' -> idle_step s s' \/ performs s s'.
Proof.
  intros Hst. unfold step in Hst. destruct (current_fiber_ s) as [i|] eqn:Hc.
  - destruct (fibers s !! i) as [f|] eqn:Hf; cbn in Hst; [|done]. injection Hst as <-.
    assert (codes s !! i = Some (code f)) as Hi by (unfold codes; by rewrite list_lookup_fmap, Hf).
    destruct (quiet_set_state i SUSPENDED s) as (S1 & S2 & S3).
    destruct (code f) as [|x k] eqn:Hk.
    { left. apply (quiet_idle _ _ _ (quiet_yield _ _)), (quiet_idle _ _ _ (quiet_set_state _ _ _)). done. }
    pose proof (codes_set_code i k s f Hf) as K1. destruct (parts_set_code i k s) as (_ & _ & K2 & K3).
    destruct x as [|m|m|c v|c|body].
    + right. apply (quiet_performs _ _ _ (quiet_yield _ _)).
      by eapply (performs_intro s _ i Yield k); [done|rewrite app_nil_r|..].
    + unfold lock. destruct (locked_ (mutexes s m)) eqn:Hl.
      * left. apply (quiet_idle _ _ _ (quiet_yield _ _)). split; [done|]. unfold contents. cbn [mutexes channels set_mutex].
        rewrite S2, S3. split; [|done]. intros m'. objects.
      * right. eapply (performs_intro s _ i (Lock m) k); [done|by rewrite app_nil_r|cbn [mutexes set_mutex]; by rewrite K2|done|..|done].
        intros m'. cbn. objects.
    + unfold unlock. right. apply (quiet_performs _ _ _ (quiet_wake _ _)).
      eapply (performs_intro s _ i (Unlock m) k); [done|by rewrite app_nil_r|cbn [mutexes set_mutex]; by rewrite K2|done|..|done].
      intros m'. cbn. objects.
    + unfold send. destruct (Nat.leb_spec (capacity_ (channels s c)) (length (queue_ (channels s c)))) as [Hle|Hlt].
      * left. apply (quiet_idle _ _ _ (quiet_yield _ _)). split; [done|]. unfold contents. cbn [mutexes channels set_channel].
        rewrite S2, S3. split; [done|]. intros c'. objects.
      * right. apply (quiet_performs _ _ _ (quiet_wake _ _)).
        eapply (performs_intro s _ i (Send c v) k); [done|by rewrite app_nil_r|done|cbn [channels set_channel]; by rewrite K3|done|].
        intros c'. cbn. objects.
    + unfold receive. destruct (queue_ (channels s c)) as [|v q] eqn:Hq.
      * left. apply (quiet_idle _ _ _ (quiet_yield _ _)). split; [done|]. unfold contents. cbn [mutexes channels set_channel].
        rewrite S2, S3. split; [done|]. intros c'. objects.
      * right. apply (quiet_performs _ _ _ (quiet_wake _ _)).
        eapply (performs_intro s _ i (Receive c) k); [done|by rewrite app_nil_r|done|cbn [channels set_channel]; by rewrite K3|done|].
        intros c'. cbn. objects. by exists v, q.
    + right. eapply (performs_intro s _ i (Spawn body) k); [done| |done|done|..]; try done.
      unfold codes, spawn in *. cbn [fibers]. rewrite fmap_app. by rewrite K1.
  - left. destruct (ready_queue_ s) as [|i q] eqn:Hq; [done|]. cbn [fibers set_ready] in Hst.
    destruct (fibers s !! i) as [f|] eqn:Hf; [|done]. injection Hst as <-. case_decide; [done|].
    apply (quiet_idle s (set_state i RUNNING (set_ready q s))); [done|].
    apply (quiet_idle _ _ _ (quiet_set_state _ _ _)). done.
Qed.

(** ** Locking discipline *)

(** The fiber is between locking and unlocking [m]: its next call on [m] is
    [Unlock]. *)
Fixpoint holds (m : nat) (k : list instr) : bool :=
  match k with
  | [] => false
  | Lock m' :: k => if decide (m' = m) then false else holds m k
  | Unlock m' :: k => if decide (m' = m) then true else holds m k
  | _ :: k => holds m k
  end.

(** [m] is not unlocked twice in a row, and spawned fibers do not begin with
    an unlock. *)
Inductive disciplined (m : nat) : list instr -> Prop :=
| d_nil : disciplined m []
| d_spawn body k : holds m body = false -> disciplined m body -> disciplined m k -> disciplined m (Spawn body :: k)
| d_unlock k : holds m k = false -> disciplined m k -> disciplined m (Unlock m :: k)
| d_other x k : (forall body, x <> Spawn body) -> x <> Unlock m -> disciplined m k -> disciplined m (x :: k).

Definition holder (m : nat) (k : list instr) : nat := if holds m k then 1 else 0.

Definition MInv (s : t) : Prop := forall m,
  Forall (disciplined m) (codes s) /\
  (sum_list_with (holder m) (codes s) <= if locked_ (mutexes s m) then 1 else 0)%nat.

Lemma disciplined_inv m x k :
  disciplined m (x :: k) -> disciplined m k /\ (x = Unlock m -> holds m k = false) /\
  (forall body, x = Spawn body -> holds m body = false /\ disciplined m body).
Proof. intros Hd. inversion Hd; subst; split_and!; naive_solver. Qed.

Lemma performs_MInv s s' : performs s s' -> MInv s -> MInv s'.
Proof.
  intros (i & x & k & Hi & Hcd & Hm & _) HM m. destruct (HM m) as [Hd Hs]. specialize (Hm m).
  destruct (disciplined_inv m x k) as (Hdk & Hun & Hsp); [by eapply (Forall_lookup_1 _ _ _ _ Hd)|].
  pose proof (sum_list_insert (holder m) _ _ _ k Hi) as Hsum. pose proof (sum_list_lookup (holder m) _ _ _ Hi) as Hle.
  rewrite Hcd. split.
  - apply Forall_app. split; [by apply Forall_insert|]. destruct x; try constructor; [|constructor]. by apply (Hsp body).
  - rewrite sum_list_with_app.
    assert (sum_list_with (holder m) (match x with Spawn body => [body] | _ => [] end) = 0%nat) as ->.
    { destruct x as [| | | | |body]; try done. cbn. destruct (Hsp body) as [H0 _]; [done|]. unfold holder. by rewrite H0. }
    unfold holder in *. destruct x as [|m'|m'|c v|c|body]; cbn in Hm, Hsum, Hle; try (rewrite Hm; lia).
    + case_decide; [subst m'; destruct Hm as [Hb ->]; rewrite Hb in Hs; case_match; lia|rewrite Hm; lia].
    + case_decide; [subst m'; rewrite (Hun eq_refl) in Hsum; rewrite Hm; destruct (locked_ (mutexes s m)); lia|rewrite Hm; lia].
Qed.

Lemma step_MInv s s' : step s = Some s' -> MInv s -> MInv s'.
Proof.
  intros [(H1 & H2 & _)|Hp]%step_effect HM; [|by eapply performs_MInv]. intros m. rewrite H1, H2. apply HM.
Qed.

(** ** Channels are bounded queues *)

Definition FInv (caps : nat -> nat) (s : t) : Prop := forall c,
  let '(cap, q, ss, rs) := contents s c in ss = rs ++ q /\ (length q <= cap)%nat /\ cap = caps c.

Lemma step_FInv caps s s' : step s = Some s' -> FInv caps s -> FInv caps s'.
Proof.
  intros [(_ & _ & H3)|(i & x & k & _ & _ & _ & Hc)]%step_effect HF c; [rewrite H3; apply HF|].
  specialize (HF c). specialize (Hc c). destruct (contents s c) as [[[cap q] ss] rs]. destruct HF as (-> & Hle & ->).
  destruct x as [| | |c' v|c'|]; cbn in Hc; try (by rewrite Hc).
  - case_decide; [destruct Hc as [Hlt ->]|by rewrite Hc]. rewrite length_app. cbn [length]. split_and!; [by rewrite app_assoc|lia|done].
  - case_decide; [destruct Hc as (v & q' & -> & ->)|by rewrite Hc]. cbn [length] in Hle. split_and!; [by rewrite <- app_assoc|lia|done].
Qed.

(** ** Properties *)

Definition steps : t -> t -> Prop := rtc (fun s s' => step s = Some s').

Lemma steps_inv (I : t -> Prop) s s' : (forall s s', step s = Some s' -> I s -> I s') -> steps s s' -> I s -> I s'.
Proof. intros Hstep Hr. induction Hr as [|s1 s2 s3 H12 _ IH]; [done|]. intros HI. by apply IH, (Hstep s1). Qed.

Lemma start_state caps bodies :
  codes (start caps bodies) = bodies /\ mutexes (start caps bodies) = mutexes (Scheduler caps) /\
  channels (start caps bodies) = channels (Scheduler caps).
Proof.
  unfold start. induction bodies as [|b bs (H1 & H2 & H3)] using rev_ind; [done|]. rewrite foldl_app. cbn [foldl].
  unfold codes, spawn in *. cbn [fibers mutexes channels]. rewrite fmap_app, H1. done.
Qed.

(** C18. For fibers that follow the locking discipline, at every point of the run
    at most one fiber is between [lock] and [unlock] of a [FiberMutex], which
    is then locked; and every [FiberChannel] delivers the values sent to it
    in order, each once, never holding more than its capacity. *)
Theorem fiber_safety caps bodies s :
  (forall m, Forall (fun body => holds m body = false /\ disciplined m body) bodies) ->
  steps (start caps bodies) s ->
  (forall m i j k k', codes s !! i = Some k -> codes s !! j = Some k' -> holds m k = true -> holds m k' = true ->
     i = j /\ locked_ (mutexes s m) = true) /\
  (forall c, sent (channels s c) = received (channels s c) ++ queue_ (channels s c) /\
     (length (queue_ (channels s c)) <= caps c)%nat).
Proof.
  intros Hb Hr. destruct (start_state caps bodies) as (H1 & H2 & H3).
  assert (MInv s) as HM.
  { eapply (steps_inv MInv); [apply step_MInv|done|]. intros m. rewrite H1, H2. specialize (Hb m). split.
    - eapply Forall_impl; [done|]. by intros ? [].
    - clear -Hb. induction Hb as [|b bs [H0 _] _ IH]; [done|]. cbn in *. unfold holder at 1. rewrite H0. lia. }
  assert (FInv caps s) as HF.
  { eapply (steps_inv (FInv caps)); [apply step_FInv|done|]. intros c. unfold contents. rewrite H3. cbn. split_and!; [done|lia|done]. }
  split.
  - intros m i j k k' Hi Hj Hk Hk'. destruct (HM m) as [_ Hs].
    pose proof (sum_list_lookup (holder m) _ _ _ Hi) as Hle. unfold holder at 1 in Hle. rewrite Hk in Hle.
    destruct (locked_ (mutexes s m)); [|lia]. split; [|done]. destruct (decide (i = j)) as [|Hne]; [done|].
    pose proof (sum_list_two (holder m) _ _ _ _ _ Hne Hi Hj) as H2'. unfold holder at 1 2 in H2'. rewrite Hk, Hk' in H2'. lia.
  - intros c. destruct (HF c) as (? & ? & <-). done.
Qed.

(** What a fiber that has not ended waits for when [run] returns. *)
Definition stuck (s : t) (k : list instr) : Prop :=
  match k with
  | Lock m :: _ => locked_ (mutexes s m) = true
  | Send c _ :: _ => (capacity_ (channels s c) <= length (queue_ (channels s c)))%nat
  | Receive c :: _ => queue_ (channels s c) = []
  | _ => False
  end.

Lemma run_terminates fuel s : SInv s -> (cost s <= fuel)%nat -> exists s', run fuel s = Some s' /\ SInv s' /\ step s' = None.
Proof.
  revert s. induction fuel as [|fuel IH]; intros s HI Hf; cbn [run];
    (destruct (step s) as [s'|] eqn:Hst; [|by exists s]); pose proof (step_cost s s' Hst HI); [lia|].
  apply IH; [by eapply step_SInv|lia].
Qed.

Lemma stopped_idle s : SInv s -> step s = None -> current_fiber_ s = None /\ ready_queue_ s = [].
Proof.
  intros HI Hst. unfold step in Hst. destruct (current_fiber_ s) as [i|] eqn:Hc.
  - apply (i_cur _ _ _ _ _ HI) in Hc. rewrite list_lookup_fmap in Hc. by destruct (fibers s !! i).
  - destruct (ready_queue_ s) as [|i q] eqn:Hq; [done|]. exfalso. assert (i ∈ ready_queue_ s) as Hin by (rewrite Hq; left).
    apply (i_ready _ _ _ _ _ HI) in Hin. rewrite list_lookup_fmap in Hin. cbn [fibers set_ready] in Hst.
    by destruct (fibers s !! i).
Qed.

(** C19. [Scheduler::run] returns for every set of fibers, and loses no fiber and
    no wake-up: each fiber has then run to its end, or is suspended in a call
    that still cannot go through (the mutex locked, the channel full, the
    channel empty). *)
Theorem fiber_run caps bodies :
  exists s, run (cost (start caps bodies)) (start caps bodies) = Some s /\
    forall i f, fibers s !! i = Some f ->
      (state_ f = DEAD /\ code f = []) \/ (state_ f = SUSPENDED /\ stuck s (code f)).
Proof.
  destruct (run_terminates (cost (start caps bodies)) _ (start_SInv caps bodies) ltac:(done)) as (s & Hs & HI & Hst).
  exists s. split; [done|]. intros i f Hf. destruct (stopped_idle s HI Hst) as [Hc Hq].
  assert (forall j p, (view <$> fibers s) !! j = Some p -> p.1 = DEAD \/ p.1 = SUSPENDED) as Hstop.
  { intros j [st k] Hj. pose proof (i_ready _ _ _ _ _ HI j) as Hr. pose proof (i_cur _ _ _ _ _ HI j) as Hcu.
    rewrite Hj, Hq, Hc in *. cbn in *. destruct st; [|naive_solver|by right|by left].
    exfalso. by eapply not_elem_of_nil, Hr. }
  assert ((view <$> fibers s) !! i = Some (view f)) as Hi by by rewrite list_lookup_fmap, Hf.
  destruct (Hstop _ _ Hi) as [Hd|Hsu]; unfold view in *; cbn in *; [rewrite Hd in Hi|rewrite Hsu in Hi].
  { left. split; [done|]. by apply (i_dead _ _ _ _ _ HI) in Hi. }
  right. split; [done|]. destruct (i_susp _ _ _ _ _ HI _ _ Hi) as [u Hu].
  assert (waiting s u <> []) as Hw.
  { intros H0. assert (i ∈ waiting s u) as Hin by (apply (i_wait _ _ _ _ _ HI); eauto). rewrite H0 in Hin. by apply not_elem_of_nil in Hin. }
  pose proof (i_open _ _ _ _ _ HI u Hw) as Ho.
  assert (sum_list_with (candidate u) (view <$> fibers s) = 0%nat) as H0.
  { destruct (Nat.eq_0_gt_0_cases (sum_list_with (candidate u) (view <$> fibers s))) as [|Hp]; [done|exfalso].
    apply sum_list_pos in Hp as (j & p & Hj & Hp). apply Hstop in Hj. unfold candidate in Hp.
    case_decide as Hd; [|lia]. destruct Hd as [[|] _], Hj; congruence. }
  rewrite H0 in Ho. destruct (code f) as [|[|m|m|c v|c|body] k]; simplify_eq/=.
  - by destruct (locked_ _); [|lia].
  - lia.
  - by destruct (queue_ _); [|cbn in Ho; lia].
Qed.

(** ** Witness *)

(** Two fibers contend for mutex 0 while a third waits for their values. *)
Definition ex_bodies : list (list instr) :=
  [[Lock 0; Yield; Send 0 1; Unlock 0]; [Lock 0; Send 0 2; Unlock 0]; [Receive 0; Receive 0]].

Lemma ex_disciplined m : Forall (fun body => holds m body = false /\ disciplined m body) ex_bodies.
Proof.
  destruct m as [|m]; repeat apply Forall_cons_2; try apply Forall_nil_2; (split; [reflexivity|]);
    repeat (first [apply d_nil | apply d_unlock; [reflexivity|] | apply d_other; [done|done|]]).
Qed.

Definition ex_end : t := default (Scheduler (fun _ => 1%nat)) (run 40 (start (fun _ => 1%nat) ex_bodies)).

Lemma run_steps fuel s s' : run fuel s = Some s' -> steps s s'.
Proof.
  revert s. induction fuel as [|fuel IH]; intros s; cbn; destruct (step s) as [s1|] eqn:Hs; try done; intros H; simplify_eq; try apply rtc_refl.
  eapply rtc_l; [exact Hs|by apply IH].
Qed.

Lemma fiber_safety_witness :
  received (channels ex_end 0%nat) = [1; 2] /\
  sent (channels ex_end 0%nat) = received (channels ex_end 0%nat) ++ queue_ (channels ex_end 0%nat).
Proof.
  split; [vm_compute; reflexivity|].
  assert (steps (start (fun _ => 1%nat) ex_bodies) ex_end) as Hr by (apply (run_steps 40); vm_compute; reflexivity).
  apply (fiber_safety (fun _ => 1%nat) ex_bodies ex_end ex_disciplined Hr).
Defined.
End Fib.
