(* ===== verification/FiberStack.v ===== *)
(** * Stacks and references of fibers

    The memory side of fiber_scheduler.hpp: the constructor of [Fiber] maps a
    stack, the destructor unmaps it, and the destructor runs when the last
    [std::shared_ptr] to the fiber goes away.  References are held by the ready
    queue, by [run] and the thread-local pointer while the fiber runs, by the
    queues of waiters, and by the local variable [current_fib] of a blocked
    [lock], [send] or [receive], which lives on the stack of the fiber itself.
    The thread-local pointer to the current scheduler, which the constructor
    and the destructor of [Scheduler] change, is here as well. *)

From S2P Require Import Prelude Fiber.

#[local] Open Scope Z_scope.
#[local] Open Scope cpp_scope.

Module Stacks.

Import Fib.

Definition STACK_SIZE : Z := 64 * 1024.

(** ** Construction *)

Inductive alloc_error := bad_alloc.

(** [stack_mem_] is the address [mmap] returned. *)
Definition new_Fiber (mmap : option Z) (id : Z) (fn : list instr) : alloc_error + (Fiber * Z) :=
  match mmap with None => inl bad_alloc | Some stack_mem => inr (mk_fiber id READY fn, stack_mem) end.

Definition id (f : Fiber) : Z := id_ f.
Definition state (f : Fiber) : FiberState := state_ f.

(** [spawn] with the outcome of the mapping; the counter is incremented before
    the constructor can throw. *)
Definition spawn_fiber (mmap : option Z) (fn : list instr) (s : t) : (alloc_error + Z) * t :=
  let id := next_id_ s +64 1 in
  let s1 := mk id (fibers s) (ready_queue_ s) (current_fiber_ s) (mutexes s) (channels s) in
  match new_Fiber mmap id fn with
  | inl e => (inl e, s1)
  | inr (fiber, _) =>
      (inr id, mk id (fibers s1 ++ [fiber]) (ready_queue_ s1 ++ [length (fibers s1)]) (current_fiber_ s1) (mutexes s1) (channels s1))
  end.

(** [munmap] is called for a stack that was mapped. *)
Definition destroy_Fiber (stack_mem_ : option Z) : option (Z * Z) :=
  match stack_mem_ with Some a => Some (a, STACK_SIZE) | None => None end.

(** ** References *)

Inductive holder := H_ready | H_run | H_current_shared | H_waiters (u : wq) | H_frame.

Definition refers (s : t) (h : holder) (i : nat) : Prop :=
  match h with
  | H_ready => i ∈ ready_queue_ s
  | H_run | H_current_shared => current_fiber_ s = Some i
  | H_waiters u => i ∈ waiting s u
  | H_frame => exists f, fibers s !! i = Some f /\ state_ f = SUSPENDED
  end.

(** The stack of a fiber is mapped while somebody refers to it. *)
Definition mapped (s : t) (i : nat) : Prop := exists h, refers s h i.

(** ** Destruction of the scheduler and its objects

    The queues are destroyed with the scheduler, the mutexes and the
    channels; what is left are the references on the stacks. *)

Definition mapped_after (s : t) (i : nat) : Prop := refers s H_frame i.

Definition suspended (f : Fiber) : bool := bool_decide (state_ f = SUSPENDED).

Definition leaked_bytes (s : t) : Z := STACK_SIZE * Z.of_nat (length (List.filter suspended (fibers s))).

(** ** The current scheduler of a thread

    Schedulers are named by numbers; [sched_op] is one construction or
    destruction. *)

Definition construct_Scheduler (this : nat) (current_scheduler_ : option nat) : option nat := Some this.

Definition destroy_Scheduler (this : nat) (current_scheduler_ : option nat) : option nat :=
  if decide (current_scheduler_ = Some this) then None else current_scheduler_.

Definition current (current_scheduler_ : option nat) : option nat := current_scheduler_.
Definition current_fiber (s : t) : option nat := current_fiber_ s.
Definition current_fiber_shared (s : t) : option nat := current_fiber_ s.

(** Where a fiber of scheduler [this] continues when its function has
    returned: [yield] switches to the context of the current scheduler, or
    returns at once, and then [fiber_entry] returns with no successor, which
    ends the thread. *)
Inductive after_entry := Switch_to (sched : nat) | Thread_exit.

Definition leave_fiber (current_scheduler_ : option nat) : after_entry :=
  match current_scheduler_ with Some a => Switch_to a | None => Thread_exit end.

Inductive sched_op := New (a : nat) | Delete (a : nat).

Definition do_op (cur : option nat) (o : sched_op) : option nat :=
  match o with New a => construct_Scheduler a cur | Delete a => destroy_Scheduler a cur end.

(** One scheduler at a time. *)
Fixpoint one_at_a_time (live : option nat) (l : list sched_op) : bool :=
  match l, live with
  | [], _ => true
  | New a :: l, None => one_at_a_time (Some a) l
  | Delete a :: l, Some b => bool_decide (a = b) && one_at_a_time None l
  | _, _ => false
  end.

Definition live_after (live : option nat) (l : list sched_op) : option nat :=
  foldl (fun _ o => match o with New a => Some a | Delete _ => None end) live l.

(** ** Lemmas *)

Lemma spawn_fiber_ok a fn s : spawn_fiber (Some a) fn s = (inr (next_id_ s +64 1), spawn fn s).
Proof. done. Qed.

(** A failed mapping costs an identifier and nothing else. *)
Lemma spawn_fiber_fails fn s :
  exists s', spawn_fiber None fn s = (inl bad_alloc, s') /\ next_id_ s' = next_id_ s +64 1 /\
    fibers s' = fibers s /\ ready_queue_ s' = ready_queue_ s /\ (SInv s -> SInv s').
Proof. by eexists. Qed.

Lemma mapped_iff s i f : SInv s -> fibers s !! i = Some f -> mapped s i <-> state_ f <> DEAD.
Proof.
  intros HI Hf. assert ((view <$> fibers s) !! i = Some (view f)) as Hv by by rewrite list_lookup_fmap, Hf.
  pose proof (i_ready _ _ _ _ _ HI i) as Hr. pose proof (i_cur _ _ _ _ _ HI i) as Hc. rewrite Hv in Hr, Hc. cbn in Hr, Hc.
  split.
  - intros [h Hh] Hd. rewrite Hd in *. destruct h as [| | |u|]; cbn in Hh.
    + by apply Hr in Hh.
    + by apply Hc in Hh.
    + by apply Hc in Hh.
    + apply (i_wait _ _ _ _ _ HI) in Hh as (k & Hk & _). rewrite Hv in Hk. unfold view in Hk. congruence.
    + destruct Hh as (g & Hg & Hs). congruence.
  - intros Hn. destruct (state_ f) eqn:Hs; [exists H_ready; by apply Hr|exists H_run; by apply Hc|exists H_frame; by exists f|done].
Qed.

Lemma one_at_a_time_current l : forall live, one_at_a_time live l = true -> foldl do_op live l = live_after live l.
Proof.
  induction l as [|[a|a] l IH]; intros live Hl; [done|..]; destruct live as [b|]; try done.
  - by apply IH.
  - cbn in Hl. apply andb_prop in Hl as [->%bool_decide_eq_true Hl]. cbn. unfold destroy_Scheduler. rewrite decide_True by done. by apply IH.
Qed.

(** ** Theorems *)

(** C20. At every point of a run the stack of a fiber is mapped exactly while
    the fiber has not ended, so a fiber that can still be switched to keeps its
    stack and a fiber that ended gives it back at once.  When [run] has
    returned and the scheduler, its mutexes and its channels are destroyed, the
    fibers that still wait refer to themselves from their own stacks: those
    stacks are never unmapped. *)
Theorem fiber_stacks caps bodies s :
  steps (start caps bodies) s ->
  (forall i f, fibers s !! i = Some f -> mapped s i <-> state_ f <> DEAD) /\
  (step s = None -> forall i f, fibers s !! i = Some f -> mapped_after s i <-> code f <> []) /\
  (step s = None -> leaked_bytes s = 0 <-> Forall (fun f => code f = []) (fibers s)).
Proof.
  intros Hr. assert (SInv s) as HI by (eapply (steps_inv SInv); [apply step_SInv|done|apply start_SInv]).
  assert (E : step s = None -> forall i f, fibers s !! i = Some f -> state_ f = SUSPENDED <-> code f <> []).
  { intros Hst i f Hf. destruct (stopped_idle s HI Hst) as [Hc Hq].
    assert ((view <$> fibers s) !! i = Some (view f)) as Hv by by rewrite list_lookup_fmap, Hf.
    pose proof (i_ready _ _ _ _ _ HI i) as H1. pose proof (i_cur _ _ _ _ _ HI i) as H2. rewrite Hv, Hq in H1. rewrite Hv, Hc in H2. cbn in H1, H2.
    unfold view in *. destruct (state_ f) eqn:Hs.
    - exfalso. by eapply not_elem_of_nil, H1.
    - by assert (None = Some i) by by apply H2.
    - destruct (i_susp _ _ _ _ _ HI _ _ Hv) as [u Hu]. split; [|done]. intros _ H0. by rewrite H0 in Hu.
    - rewrite (i_dead _ _ _ _ _ HI _ _ Hv). split; done. }
  split_and!; [intros i f; by apply mapped_iff| |].
  - intros Hst i f Hf. rewrite <- (E Hst i f Hf). unfold mapped_after. cbn. split; [intros (g & Hg & Hs); congruence|by exists f].
  - intros Hst. unfold leaked_bytes, STACK_SIZE. rewrite Forall_lookup. split.
    + intros H0 i f Hf. destruct (code f) eqn:Hk; [done|]. exfalso.
      assert (f ∈ List.filter suspended (fibers s)) as Hin.
      { apply base.list_elem_of_In, filter_In. split; [by apply base.list_elem_of_In, list_elem_of_lookup; exists i|].
        apply bool_decide_eq_true, (E Hst i f Hf). congruence. }
      destruct (List.filter _ _); [by apply not_elem_of_nil in Hin|cbn in H0; lia].
    + intros Ha. destruct (List.filter suspended (fibers s)) as [|f l] eqn:Hl; [done|]. exfalso.
      assert (In f (List.filter suspended (fibers s))) as [Hin Hs]%filter_In by (rewrite Hl; by left).
      apply base.list_elem_of_In, list_elem_of_lookup in Hin as [i Hi]. apply bool_decide_eq_true in Hs.
      apply (E Hst i f Hi) in Hs. by rewrite (Ha i f Hi) in Hs.
Qed.

(** One fiber ends, one waits for a value that never comes. *)
Definition ex_end_stuck : t :=
  default (Scheduler (fun _ => 1%nat)) (run 20 (start (fun _ => 1%nat) [[Yield]; [Receive 0]])).

Lemma fiber_stacks_witness :
  (mapped ex_end_stuck 1 <-> SUSPENDED <> DEAD) /\ (leaked_bytes ex_end_stuck = 0 <-> Forall (fun f => code f = []) (fibers ex_end_stuck)) /\
  leaked_bytes ex_end_stuck = 65536.
Proof.
  assert (steps (start (fun _ => 1%nat) [[Yield]; [Receive 0]]) ex_end_stuck) as Hr by (apply (run_steps 20); vm_compute; reflexivity).
  destruct (fiber_stacks _ _ _ Hr) as (H1 & _ & H3). split; [|split; [apply H3; vm_compute; reflexivity|vm_compute; reflexivity]].
  apply (H1 1%nat (mk_fiber 2 SUSPENDED [Receive 0])). vm_compute. reflexivity.
Defined.

(** With one scheduler at a time the thread-local pointer is the live one, and
    a fiber that ends switches to it. *)
Lemma leave_fiber_live l a :
  one_at_a_time None l = true -> live_after None l = Some a -> leave_fiber (foldl do_op None l) = Switch_to a.
Proof. intros Hl Ha. by rewrite (one_at_a_time_current l None Hl), Ha. Qed.

(** A second scheduler, constructed and destroyed while the first one lives,
    takes the pointer with it: the first fiber that ends then ends the thread. *)
Lemma nested_scheduler_exits a b : leave_fiber (foldl do_op None [New a; New b; Delete b]) = Thread_exit.
Proof. cbn. unfold destroy_Scheduler. by rewrite decide_True. Qed.
End Stacks.
