(* ===== verification/Logger.v ===== *)
(** * The logger

    Model of common/logger.hpp: the number formatting of [detail], the
    [SignalSafeLogger] on a descriptor whose [write] may be partial, and the
    ring-buffer logger [FastLogger] with one logging and one flushing thread,
    in which a failed [write] and a message that leaves its payload are steps.
    Characters are their codes; buffers are lists of them. *)

From Stdlib Require Import String Ascii.
From S2P Require Import Prelude Ring.

#[local] Open Scope Z_scope.
#[local] Open Scope cpp_scope.

Module Logger.

(** The characters of a literal. *)
Definition chars (s : string) : list Z := (fun a => Z.of_N (N_of_ascii a)) <$> list_ascii_of_string s.

(** ** Number formatting *)

Definition DIGITS : list Z := chars
  "00010203040506070809101112131415161718192021222324252627282930313233343536373839404142434445464748495051525354555657585960616263646566676869707172737475767778798081828384858687888990919293949596979899".

Definition HEX_DIGITS : list Z := chars "0123456789ABCDEF".

(** [memcpy(p, &DIGITS[i * 2], 2)] *)
Definition two_digits (i : Z) : list Z := take 2 (drop (Z.to_nat (i * 2)) DIGITS).

(** The loop fills [temp] from its end; [p] is the filled part. *)
Fixpoint uint_loop (fuel : nat) (val : Z) (p : list Z) : Z * list Z :=
  match fuel with
  | O => (val, p)
  | S fuel' =>
      if 100 <=? val then uint_loop fuel' (val / 100) (two_digits (val mod 100) ++ p) else (val, p)
  end.

(** The bytes written to [dst]; an 64-bit value needs at most ten rounds. *)
Definition write_uint64 (val : Z) : list Z :=
  if val =? 0 then [48]
  else
    let '(val, p) := uint_loop 10 val [] in
    if val <? 10 then (48 + val) :: p else two_digits val ++ p.

(** Negating the least [int64_t] overflows, which is undefined. *)
Definition write_int64 (val : Z) : option (list Z) :=
  if val <? 0 then
    if val =? - 2 ^ 63 then None else Some (45 :: write_uint64 (- val))
  else Some (write_uint64 val).

Fixpoint hex_loop (shifts : list Z) (leading_zero : bool) (val : Z) : list Z :=
  match shifts with
  | [] => []
  | shift :: shifts =>
      let nibble := Z.land (Z.shiftr val shift) 15 in
      if negb (nibble =? 0) || negb leading_zero || (shift =? 0)
      then default 0 (HEX_DIGITS !! Z.to_nat nibble) :: hex_loop shifts false val
      else hex_loop shifts leading_zero val
  end.

Definition write_hex64 (val : Z) : list Z :=
  48 :: 120 :: hex_loop [60; 56; 52; 48; 44; 40; 36; 32; 28; 24; 20; 16; 12; 8; 4; 0] true val.

(** ** [SignalSafeLogger] *)

(** A descriptor: what [write] returns for its [n]-th call, the number of
    calls so far and the bytes it has received. *)
Record fd := mk_fd { calls : nat; out : list Z }.

Section descriptor.
Context (wr : nat -> list Z -> Z).

(** Every round that does not stop transfers at least one byte, so the length
    bounds their number. *)
Fixpoint raw_loop (fuel : nat) (str : list Z) (d : fd) : fd :=
  match fuel with
  | O => d
  | S fuel' =>
      if (0 <? length str)%nat then
        let written := wr (calls d) str in
        if written <=? 0 then mk_fd (S (calls d)) (out d)
        else raw_loop fuel' (drop (Z.to_nat written) str) (mk_fd (S (calls d)) (out d ++ take (Z.to_nat written) str))
      else d
  end.

Definition write_raw (str : list Z) (d : fd) : fd := raw_loop (length str) str d.

(** A string argument; [None] is the null pointer. *)
Definition write_str (str : option (list Z)) (d : fd) : fd :=
  match str with Some str => write_raw str d | None => d end.

Definition write_uint (val : Z) (d : fd) : fd := write_raw (write_uint64 val) d.
Definition write_hex (val : Z) (d : fd) : fd := write_raw (write_hex64 val) d.

Definition newline : list Z := [10].
Definition rule : list Z := newline ++ chars "=======================================================" ++ newline.

Definition log_crash (sig : Z) (signame : option (list Z)) (fault_addr : Z) (d : fd) : fd :=
  let d := write_str (Some rule) d in
  let d := write_str (Some (chars " [FATAL SIGNAL] Caught signal: ")) d in
  let d := write_uint (u64 sig) d in
  let d := write_str (Some (chars " (")) d in
  let d := write_str (Some (default (chars "UNKNOWN") signame)) d in
  let d := write_str (Some (chars ")" ++ newline ++ chars " Faulting Memory Address: ")) d in
  let d := write_hex fault_addr d in
  write_str (Some rule) d.
End descriptor.

(** ** Log messages *)

Inductive Level := TRACE | DEBUG | INFO | WARN | ERROR | FATAL.

Definition Level_val (l : Level) : Z :=
  match l with TRACE => 0 | DEBUG => 1 | INFO => 2 | WARN => 3 | ERROR => 4 | FATAL => 5 end.

Definition to_string (l : Level) : list Z :=
  match l with
  | TRACE => chars "[TRACE]" | DEBUG => chars "[DEBUG]" | INFO => chars "[INFO ]"
  | WARN => chars "[WARN ]" | ERROR => chars "[ERROR]" | FATAL => chars "[FATAL]"
  end.

Definition MAX_PAYLOAD_SIZE : nat := 256.

Record LogMessage := mk_msg { timestamp_ns : Z; level : Level; len : Z; payload : list Z }.

Definition empty_message : LogMessage := mk_msg 0 INFO 0 (replicate MAX_PAYLOAD_SIZE 0).

(** The argument types of [log].  For a floating-point value the two integers
    the conversions yield are given. *)
Inductive Arg :=
| A_cstr (s : list Z) | A_sv (s : list Z) | A_int (v : Z) | A_uint (v : Z) | A_ptr (v : Z)
| A_float (integer_part frac_part : Z).

(** Writing at [ptr] inside the payload; outside of it the behaviour is
    undefined. *)
Definition put_bytes (cs : list Z) (st : list Z * nat) : option (list Z * nat) :=
  let '(pl, ptr) := st in
  if (ptr + length cs <=? MAX_PAYLOAD_SIZE)%nat
  then Some (take ptr pl ++ cs ++ drop (ptr + length cs) pl, (ptr + length cs)%nat) else None.

Definition end_ptr : nat := MAX_PAYLOAD_SIZE - 2.

Definition format_arg (st : option (list Z * nat)) (a : Arg) : option (list Z * nat) :=
  st ← st;
  if (end_ptr <=? st.2)%nat then Some st else
  match a with
  | A_cstr s | A_sv s => put_bytes (take (Nat.min (length s) (end_ptr - st.2)) s) st
  | A_int v => cs ← write_int64 v; put_bytes cs st
  | A_uint v => put_bytes (write_uint64 v) st
  | A_ptr v => put_bytes (write_hex64 v) st
  | A_float integer_part frac_part =>
      cs ← write_int64 integer_part;
      st ← put_bytes cs st;
      st ← put_bytes [46] st;
      st ← (if frac_part <? 100 then put_bytes [48] st else Some st);
      st ← (if frac_part <? 10 then put_bytes [48] st else Some st);
      cs ← write_int64 frac_part;
      put_bytes cs st
  end.

(** The entry that [log] writes over [old]. *)
Definition format_message (ts : Z) (lvl : Level) (args : list Arg) (old : LogMessage) : option LogMessage :=
  st ← foldl format_arg (Some (payload old, 0%nat)) args;
  st ← put_bytes newline st;
  Some (mk_msg ts lvl (u16 (Z.of_nat st.2)) st.1).

(** What [flush] writes for an entry: the header and the payload. *)
Definition header (e : LogMessage) : list Z :=
  [91] ++ write_uint64 (timestamp_ns e) ++ [93; 32] ++ to_string (level e) ++ [32].
Definition body (e : LogMessage) : list Z := take (Z.to_nat (len e)) (payload e).

(** ** [FastLogger] *)

Section logger.
Context (Capacity : Z).

Record t := mk {
  head_ : Z; tail_ : Z; dropped_count_ : Z; min_level_ : Level; ring_ : list LogMessage }.

Definition FastLogger : t := mk 0 0 0 INFO (replicate (Z.to_nat Capacity) empty_message).

Definition get_log_level (s : t) : Level := min_level_ s.

Definition get_timestamp_ns (tv_sec tv_nsec : Z) : Z := u64 tv_sec *64 1000000000 +64 u64 tv_nsec.

Definition filtered (lvl : Level) (s : t) : bool := Level_val lvl <? Level_val (min_level_ s).

(** The outcome of the test for room. *)
Definition log_full (s : t) : bool := Capacity <=? tail_ s -64 head_ s.

Definition log_drop (s : t) : t := mk (head_ s) (tail_ s) (dropped_count_ s +64 1) (min_level_ s) (ring_ s).

Definition log_fill (current_tail ts : Z) (lvl : Level) (args : list Arg) (s : t) : option t :=
  old ← ring_ s !! slot_of Capacity current_tail;
  e ← format_message ts lvl args old;
  Some (mk (head_ s) (tail_ s) (dropped_count_ s) (min_level_ s) (<[slot_of Capacity current_tail := e]> (ring_ s))).

Definition log_publish (current_tail : Z) (s : t) : t :=
  mk (head_ s) (current_tail +64 1) (dropped_count_ s) (min_level_ s) (ring_ s).

Definition log (ts : Z) (lvl : Level) (args : list Arg) (s : t) : option (bool * t) :=
  if filtered lvl s then Some (false, s) else
  let current_tail := tail_ s in
  if log_full s then Some (false, log_drop s) else
  s ← log_fill current_tail ts lvl args s;
  Some (true, log_publish current_tail s).

Section flushing.
Context (wr : nat -> list Z -> Z).

Definition flush_entry (e : LogMessage) (d : fd) : fd := write_raw wr (body e) (write_raw wr (header e) d).

Fixpoint flush_loop (fuel : nat) (current_head current_tail : Z) (s : t) (d : fd) : option (Z * fd) :=
  match fuel with
  | O => None
  | S fuel' =>
      if current_head <? current_tail then
        e ← ring_ s !! slot_of Capacity current_head;
        flush_loop fuel' (current_head +64 1) current_tail s (flush_entry e d)
      else Some (current_head, d)
  end.

Definition flush_store (current_head : Z) (s : t) : t :=
  mk current_head (tail_ s) (dropped_count_ s) (min_level_ s) (ring_ s).

Definition flush (s : t) (d : fd) : option (Z * t * fd) :=
  '(h, d) ← flush_loop (S (Z.to_nat (tail_ s - head_ s))) (head_ s) (tail_ s) s d;
  Some (h - head_ s, flush_store h s, d).

(** *** One logging and one flushing thread *)




End flushing.
End logger.

(** ** Parsers, the specification of the formats *)

Definition digit_value (c : Z) : option Z :=
  if (48 <=? c) && (c <=? 57) then Some (c - 48)
  else if (65 <=? c) && (c <=? 70) then Some (c - 55) else None.

(** The value of a numeral in the given base; [None] at a foreign character. *)
Fixpoint parse_digits (base acc : Z) (cs : list Z) : option Z :=
  match cs with
  | [] => Some acc
  | c :: cs => d ← digit_value c; if d <? base then parse_digits base (base * acc + d) cs else None
  end.

(** A numeral without superfluous leading zeros. *)
Definition numeral (base : Z) (cs : list Z) : option Z :=
  match cs with
  | [] => None
  | c :: _ => if (c =? 48) && negb (length cs =? 1)%nat then None else parse_digits base 0 cs
  end.

Definition parse_uint (cs : list Z) : option Z := numeral 10 cs.

Definition parse_int (cs : list Z) : option Z :=
  match cs with
  | c :: cs' => if c =? 45 then Z.opp <$> numeral 10 cs' else numeral 10 cs
  | [] => None
  end.

Definition parse_hex (cs : list Z) : option Z :=
  match cs with
  | c :: d :: cs => if (c =? 48) && (d =? 120) then numeral 16 cs else None
  | _ => None
  end.

(** ** The number formats *)

Lemma digit_value_dec d : 0 <= d < 10 -> digit_value (48 + d) = Some d.
Proof.
  intros Hd. unfold digit_value. rewrite (proj2 (Z.leb_le 48 _)), (proj2 (Z.leb_le _ 57)) by lia. cbn. f_equal. lia.
Qed.

Lemma two_digits_eq i : 0 <= i < 100 -> two_digits i = [48 + i / 10; 48 + i mod 10].
Proof.
  intros Hi. assert (Forall (fun n => two_digits (Z.of_nat n) = [48 + Z.of_nat n / 10; 48 + Z.of_nat n mod 10]) (seq 0 100)) as Ha.
  { apply (bool_decide_unpack _). by vm_compute. }
  rewrite Forall_forall in Ha. specialize (Ha (Z.to_nat i)). rewrite Z2Nat.id in Ha by lia. apply Ha, elem_of_seq. lia.
Qed.

Lemma parse_two i acc rest : 0 <= i < 100 -> parse_digits 10 acc (two_digits i ++ rest) = parse_digits 10 (100 * acc + i) rest.
Proof.
  intros Hi. rewrite two_digits_eq by done. cbn [app parse_digits].
  assert (0 <= i / 10 < 10) by (split; [apply Z.div_pos|apply Z.div_lt_upper_bound]; lia).
  pose proof (Z.mod_pos_bound i 10 ltac:(lia)). rewrite !digit_value_dec by done. cbn [mbind option_bind].
  rewrite !(proj2 (Z.ltb_lt _ 10)) by lia. f_equal. pose proof (Z.div_mod i 10 ltac:(lia)). lia.
Qed.

(** The loop leaves the leading one or two digits, and what it has written
    continues them to the numeral of the value. *)
Lemma uint_loop_spec fuel val p :
  0 < val < 100 ^ (Z.of_nat fuel + 1) ->
  exists v q, uint_loop fuel val p = (v, q ++ p) /\ 1 <= v < 100 /\
    (forall rest, parse_digits 10 v (q ++ rest) = parse_digits 10 val rest) /\
    v * 10 ^ Z.of_nat (length q) <= val.
Proof.
  revert val p. induction fuel as [|fuel IH]; intros val p Hv; cbn [uint_loop].
  { exists val, []. split_and!; [done|lia|cbn in Hv; lia|done|cbn; lia]. }
  destruct (Z.leb_spec 100 val) as [Hge|Hlt].
  2: { exists val, []. split_and!; [done|lia|lia|done|cbn; lia]. }
  pose proof (Z.div_mod val 100 ltac:(lia)) as Hdm. pose proof (Z.mod_pos_bound val 100 ltac:(lia)) as Hr.
  destruct (IH (val / 100) (two_digits (val mod 100) ++ p)) as (v & q & -> & Hv' & Hp & Hl).
  { split; [apply Z.div_str_pos; lia|]. apply Z.div_lt_upper_bound; [lia|].
    replace (Z.of_nat (S fuel) + 1) with (Z.succ (Z.of_nat fuel + 1)) in Hv by lia. rewrite Z.pow_succ_r in Hv by lia. lia. }
  exists v, (q ++ two_digits (val mod 100)). rewrite <- app_assoc. split_and!; [done|lia|lia| |].
  - intros rest. rewrite <- app_assoc, Hp, parse_two by done. f_equal. lia.
  - rewrite length_app, two_digits_eq, Nat2Z.inj_add, Z.pow_add_r by lia. cbn [length]. change (10 ^ Z.of_nat 2) with 100. nia.
Qed.

Lemma numeral_cons base c cs : c <> 48 -> numeral base (c :: cs) = parse_digits base 0 (c :: cs).
Proof. intros Hc. unfold numeral. by rewrite (proj2 (Z.eqb_neq _ _) Hc). Qed.

Lemma write_uint64_spec v :
  0 <= v < 2 ^ 64 -> parse_uint (write_uint64 v) = Some v /\
  forall n, (0 < n)%nat -> v < 10 ^ Z.of_nat n -> (length (write_uint64 v) <= n)%nat.
Proof.
  intros Hv. unfold write_uint64. destruct (Z.eqb_spec v 0) as [->|Hne]; [split; [done|cbn; lia]|].
  destruct (uint_loop_spec 10 v [] ltac:(lia)) as (u & q & -> & Hu & Hp & Hl). rewrite app_nil_r.
  specialize (Hp []). rewrite app_nil_r in Hp.
  assert (forall k n, 10 ^ Z.of_nat k <= v -> v < 10 ^ Z.of_nat n -> (k < n)%nat) as Hlen.
  { intros k n Hk Hn. enough (Z.of_nat k < Z.of_nat n) by lia. apply (Z.pow_lt_mono_r_iff 10); lia. }
  destruct (Z.ltb_spec u 10) as [Hlt|Hge].
  - split; [|intros n _ Hn; cbn [length]; apply (Hlen (length q)); [nia|done]].
    unfold parse_uint. rewrite numeral_cons by lia. cbn [parse_digits]. rewrite digit_value_dec by lia. cbn [mbind option_bind].
    rewrite (proj2 (Z.ltb_lt _ 10)) by lia. replace (10 * 0 + u) with u by lia. done.
  - split.
    + unfold parse_uint. pose proof (parse_two u 0 q ltac:(lia)) as H2. rewrite two_digits_eq in * by lia. cbn [app] in *.
      assert (1 <= u / 10) by (apply Z.div_le_lower_bound; lia). rewrite numeral_cons, H2 by lia.
      replace (100 * 0 + u) with u by lia. done.
    + intros n _ Hn. rewrite length_app, two_digits_eq by lia. cbn [length]. apply (Hlen (S (length q))); [|done].
      rewrite Nat2Z.inj_succ, Z.pow_succ_r by lia. nia.
Qed.

Lemma length_write_uint64 v : 0 <= v < 2 ^ 64 -> (length (write_uint64 v) <= 20)%nat.
Proof. intros Hv. apply (write_uint64_spec v Hv); cbn; lia. Qed.

Lemma write_int64_spec v :
  - 2 ^ 63 < v < 2 ^ 63 -> exists cs, write_int64 v = Some cs /\ parse_int cs = Some v /\ (length cs <= 20)%nat.
Proof.
  intros Hv. unfold write_int64. destruct (Z.ltb_spec v 0) as [Hlt|Hge].
  - rewrite (proj2 (Z.eqb_neq _ _)) by lia. eexists. split; [done|]. cbn [parse_int].
    destruct (write_uint64_spec (- v) ltac:(lia)) as [Hp Hl]. change (45 =? 45) with true. cbv iota.
    unfold parse_uint in Hp. rewrite Hp. split; [cbn; f_equal; lia|]. cbn [length]. apply le_n_S, Hl; cbn; lia.
  - eexists. split; [done|]. destruct (write_uint64_spec v ltac:(lia)) as [Hp Hl].
    split; [|apply length_write_uint64; lia].
    unfold parse_int, parse_uint, numeral in *. destruct (write_uint64 v) as [|c cs]; [done|].
    destruct (Z.eqb_spec c 45) as [->|]; [|done]. by cbn in Hp.
Qed.

(** *** Hexadecimal *)

Definition shifts (n : nat) : list Z := (fun i => 4 * Z.of_nat i) <$> reverse (seq 0 n).

Lemma shifts_S n : shifts (S n) = 4 * Z.of_nat n :: shifts n.
Proof. unfold shifts. by rewrite seq_S, reverse_app. Qed.

Lemma hex_digit d : 0 <= d < 16 -> exists c, HEX_DIGITS !! Z.to_nat d = Some c /\ digit_value c = Some d /\ (c = 48 <-> d = 0).
Proof.
  intros Hd. assert (Forall (fun n => (HEX_DIGITS !! n ≫= digit_value) = Some (Z.of_nat n) /\
    (default 0 (HEX_DIGITS !! n) =? 48) = (n =? 0)%nat) (seq 0 16)) as Ha.
  { apply (bool_decide_unpack _). by vm_compute. }
  rewrite Forall_forall in Ha. specialize (Ha (Z.to_nat d) ltac:(apply elem_of_seq; lia)).
  destruct (HEX_DIGITS !! Z.to_nat d) as [c|]; [|by destruct Ha]. exists c. rewrite Z2Nat.id in Ha by lia. destruct Ha as [? Hb]. cbn in *.
  split_and!; [done|done|]. rewrite <- Z.eqb_eq, Hb, Nat.eqb_eq. lia.
Qed.

Lemma nibble_mod val n :
  0 <= val -> let d := Z.land (Z.shiftr val (4 * Z.of_nat n)) 15 in
  0 <= d < 16 /\ val mod 16 ^ Z.of_nat (S n) = val mod 16 ^ Z.of_nat n + 16 ^ Z.of_nat n * d.
Proof.
  intros Hv d. assert (d = val / 16 ^ Z.of_nat n mod 16) as ->.
  { unfold d. change 15 with (2 ^ 4 - 1). rewrite land_mask, Z.shiftr_div_pow2, Z.pow_mul_r by lia. done. }
  split; [apply Z.mod_pos_bound; lia|]. rewrite Nat2Z.inj_succ, Z.pow_succ_r, Z.mul_comm by lia.
  apply Z.rem_mul_r; [|lia]. pose proof (Z.pow_pos_nonneg 16 (Z.of_nat n)). lia.
Qed.

Lemma hex_loop_digits n val acc :
  0 <= val -> parse_digits 16 acc (hex_loop (shifts n) false val) = Some (acc * 16 ^ Z.of_nat n + val mod 16 ^ Z.of_nat n).
Proof.
  intros Hv. revert acc. induction n as [|n IH]; intros acc.
  { cbn. rewrite Z.mod_1_r. f_equal. lia. }
  rewrite shifts_S. cbn [hex_loop]. destruct (nibble_mod val n Hv) as [Hd Hm]. set (d := Z.land _ _) in *.
  destruct (hex_digit d Hd) as (c & Hc & Hdv & _). rewrite orb_true_r. cbn [orb]. rewrite Hc. cbn [default].
  cbn [parse_digits from_option id]. rewrite Hdv. cbn [mbind option_bind]. rewrite (proj2 (Z.ltb_lt _ _)) by lia.
  rewrite IH, Hm, Nat2Z.inj_succ, Z.pow_succ_r by lia. f_equal. lia.
Qed.

Lemma hex_loop_numeral n val :
  0 <= val -> numeral 16 (hex_loop (shifts (S n)) true val) = Some (val mod 16 ^ Z.of_nat (S n)).
Proof.
  intros Hv. induction n as [|n IH]; rewrite shifts_S; cbn [hex_loop];
    (match goal with |- context [Z.shiftr val (4 * Z.of_nat ?m)] => destruct (nibble_mod val m Hv) as [Hd Hm] end);
    set (d := Z.land _ _) in *; destruct (hex_digit d Hd) as (c & Hc & Hdv & H48); rewrite Hc; cbn [default from_option id].
  - change (4 * Z.of_nat 0 =? 0) with true. rewrite orb_true_r. rewrite Hm. cbn. rewrite andb_false_r, Hdv. cbn.
    rewrite (proj2 (Z.ltb_lt _ _)), Z.mod_1_r by lia. f_equal. destruct d; lia.
  - replace (4 * Z.of_nat (S n) =? 0) with false by (symmetry; apply Z.eqb_neq; lia). rewrite !orb_false_r.
    destruct (Z.eqb_spec d 0) as [H0|H0]; cbn [negb].
    + rewrite IH, Hm, H0. f_equal. lia.
    + rewrite numeral_cons by tauto. cbn [parse_digits]. rewrite Hdv. cbn [mbind option_bind].
      rewrite (proj2 (Z.ltb_lt _ _)), hex_loop_digits, Hm by lia. f_equal. lia.
Qed.

Lemma length_hex_loop ss b val : (length (hex_loop ss b val) <= length ss)%nat.
Proof. revert b. induction ss as [|s ss IH]; intros b; cbn; [done|]. destruct (_ || _); cbn; [specialize (IH false)|specialize (IH b)]; lia. Qed.

Lemma write_hex64_spec v : 0 <= v < 2 ^ 64 -> parse_hex (write_hex64 v) = Some v /\ (length (write_hex64 v) <= 18)%nat.
Proof.
  intros Hv. unfold write_hex64. change [60; _; _; _; _; _; _; _; _; _; _; _; _; _; _; _] with (shifts 16). split.
  - unfold parse_hex. change ((48 =? 48) && (120 =? 120)) with true. cbv iota.
    rewrite (hex_loop_numeral 15) by lia. f_equal. apply Z.mod_small. cbn. lia.
  - cbn [length]. pose proof (length_hex_loop (shifts 16) true v) as Hl. change (length (shifts 16)) with 16%nat in Hl. lia.
Qed.

(** ** Writing to a descriptor *)

(** [write] transfers at least one byte and no more than it is given. *)
Definition writable (wr : nat -> list Z -> Z) : Prop :=
  forall n bs, bs <> [] -> 0 < wr n bs <= Z.of_nat (length bs).

Lemma raw_loop_spec wr fuel str d :
  writable wr -> (length str <= fuel)%nat -> out (raw_loop wr fuel str d) = out d ++ str.
Proof.
  intros Hw. revert str d. induction fuel as [|fuel IH]; intros str d Hl; cbn [raw_loop].
  { destruct str; [by rewrite app_nil_r|cbn in Hl; lia]. }
  destruct str as [|c str]; [by rewrite app_nil_r|]. cbn [length Nat.ltb Nat.leb].
  specialize (Hw (calls d) (c :: str) ltac:(done)). set (w := wr _ _) in *. rewrite (proj2 (Z.leb_gt _ _)) by lia.
  rewrite IH by (rewrite length_drop; cbn [length] in *; lia). cbn [out]. by rewrite <- app_assoc, take_drop.
Qed.

Lemma write_raw_out wr str d : writable wr -> out (write_raw wr str d) = out d ++ str.
Proof. intros Hw. by apply raw_loop_spec. Qed.





(** The crash report is complete, and the signal number and the address can be
    read back from it. *)
Lemma log_crash_text wr sig name addr d :
  writable wr -> out (log_crash wr sig name addr d) =
    out d ++ rule ++ chars " [FATAL SIGNAL] Caught signal: " ++ write_uint64 (u64 sig) ++ chars " (" ++
    default (chars "UNKNOWN") name ++ (chars ")" ++ newline ++ chars " Faulting Memory Address: ") ++ write_hex64 addr ++ rule.
Proof.
  intros Hw. unfold log_crash, write_str, write_uint, write_hex. rewrite !write_raw_out by done. by rewrite <- !app_assoc.
Qed.

(** ** The payload *)

(** The values of the arguments are in the range of their types, and no
    [int64_t] is the least one. *)
Definition arg_ok (a : Arg) : Prop :=
  match a with
  | A_cstr _ | A_sv _ => True
  | A_int v => - 2 ^ 63 < v < 2 ^ 63
  | A_uint v | A_ptr v => 0 <= v < 2 ^ 64
  | A_float i f => - 2 ^ 63 < i < 2 ^ 63 /\ 0 <= f < 1000
  end.

Definition render_int (v : Z) : list Z := default [] (write_int64 v).

(** The text of an argument. *)
Definition render (a : Arg) : list Z :=
  match a with
  | A_cstr s | A_sv s => s
  | A_int v => render_int v
  | A_uint v => write_uint64 v
  | A_ptr v => write_hex64 v
  | A_float i f => render_int i ++ [46] ++ (if f <? 100 then [48] else []) ++ (if f <? 10 then [48] else []) ++ render_int f
  end.

(** Strings are cut at 254 characters, numbers are not, and nothing is added
    once 254 characters are there. *)
Definition append_arg (text : list Z) (a : Arg) : list Z :=
  if (end_ptr <=? length text)%nat then text
  else text ++ match a with A_cstr s | A_sv s => take (end_ptr - length text) s | _ => render a end.

Lemma render_int_ok v : - 2 ^ 63 < v < 2 ^ 63 -> write_int64 v = Some (render_int v).
Proof. intros Hv. unfold render_int. destruct (write_int64_spec v Hv) as (cs & -> & _). done. Qed.

(** [st] holds [text] in front of what was there before. *)
Definition holds (st : list Z * nat) (text : list Z) : Prop :=
  st.2 = length text /\ take (length text) st.1 = text /\ length st.1 = MAX_PAYLOAD_SIZE.

Lemma put_bytes_ok cs st text :
  holds st text -> (length text + length cs <= MAX_PAYLOAD_SIZE)%nat ->
  exists st', put_bytes cs st = Some st' /\ holds st' (text ++ cs).
Proof.
  destruct st as [pl ptr]. intros (Hp & Ht & Hl) Hle. cbn [fst snd] in *. subst ptr. unfold put_bytes. rewrite (proj2 (Nat.leb_le _ _) Hle).
  eexists. split; [done|]. unfold holds. cbn [fst snd]. rewrite Ht. split_and!.
  - by rewrite length_app.
  - rewrite app_assoc. by apply take_app_length.
  - rewrite !length_app, length_drop, Hl. lia.
Qed.

Lemma put_bytes_over cs st text :
  holds st text -> (MAX_PAYLOAD_SIZE < length text + length cs)%nat -> put_bytes cs st = None.
Proof. destruct st as [pl ptr]. intros (Hp & _ & _) Hgt. cbn in *. subst ptr. by rewrite (proj2 (Nat.leb_gt _ _) Hgt). Qed.

(** Writing several pieces is writing their concatenation. *)
Lemma put_bytes_app cs ds st text :
  holds st text -> (put_bytes cs st ≫= put_bytes ds) = put_bytes (cs ++ ds) st.
Proof.
  intros Hh. destruct st as [pl ptr]. pose proof Hh as (Hp & Ht & Hl). cbn [fst snd] in *. subst ptr. unfold put_bytes. rewrite length_app.
  destruct (Nat.leb_spec (length text + length cs) MAX_PAYLOAD_SIZE) as [Hle|Hgt]; cbn [mbind option_bind].
  2: { rewrite (proj2 (Nat.leb_gt _ _)); [done|lia]. }
  rewrite Nat.add_assoc. destruct (_ <=? _)%nat; [|done]. rewrite Ht. f_equal. f_equal.
  rewrite (app_assoc text cs), take_app_length' by (by rewrite length_app).
  assert (drop (length text + length cs + length ds) ((text ++ cs) ++ drop (length text + length cs) pl) =
          drop (length text + length cs + length ds) pl) as ->.
  { rewrite drop_app_ge, drop_drop by (rewrite length_app; lia). f_equal. rewrite length_app. lia. }
  by rewrite <- !app_assoc.
Qed.

Lemma holds_put cs st text st' : holds st text -> put_bytes cs st = Some st' -> holds st' (text ++ cs).
Proof.
  intros Hh Hp. destruct (Nat.le_gt_cases (length text + length cs) MAX_PAYLOAD_SIZE) as [Hle|Hgt].
  - destruct (put_bytes_ok cs st text Hh Hle) as (st1 & Hst1 & ?). congruence.
  - by rewrite (put_bytes_over _ _ _ Hh Hgt) in Hp.
Qed.

Lemma put_bind {A} cs ds st text (f : list Z * nat -> option A) :
  holds st text -> (put_bytes cs st ≫= fun st => put_bytes ds st ≫= f) = put_bytes (cs ++ ds) st ≫= f.
Proof. intros Hh. rewrite <- (put_bytes_app cs ds st text Hh). by destruct (put_bytes cs st). Qed.

Lemma take_min {A} n (l : list A) : take (Nat.min (length l) n) l = take n l.
Proof. rewrite Nat.min_comm, <- take_take. f_equal. by apply take_ge. Qed.

Lemma format_arg_put a st text :
  arg_ok a -> holds st text -> (length text < end_ptr)%nat ->
  exists piece, append_arg text a = text ++ piece /\ format_arg (Some st) a = put_bytes piece st.
Proof.
  intros Ha Hh Hlt. pose proof Hh as (Hp & _ & _). unfold append_arg, format_arg. cbn [mbind option_bind].
  rewrite Hp, (proj2 (Nat.leb_gt _ _) Hlt). destruct a as [cs|cs|v|v|v|i f]; eexists; (split; [done|]).
  - by rewrite take_min.
  - by rewrite take_min.
  - by rewrite render_int_ok.
  - done.
  - done.
  - destruct Ha as [Hi Hf]. cbn [render]. rewrite !render_int_ok by lia. cbn [mbind option_bind].
    change (option_bind _ _ ?f ?m) with (m ≫= f). rewrite (put_bind _ _ _ text) by done.
    destruct (Z.ltb_spec f 100) as [H1|H1]; [rewrite (put_bind _ _ _ text) by done|].
    + destruct (f <? 10); [rewrite (put_bind _ _ _ text) by done|]; cbn [mbind option_bind app];
        change (option_bind _ _ ?f ?m) with (m ≫= f); rewrite (put_bytes_app _ _ _ text) by done; by rewrite <- !app_assoc.
    + rewrite (proj2 (Z.ltb_ge _ _)) by lia. cbn [mbind option_bind app].
      change (option_bind _ _ ?f ?m) with (m ≫= f). rewrite (put_bytes_app _ _ _ text) by done. by rewrite <- !app_assoc.
Qed.

Lemma holds_le st text : holds st text -> (length text <= MAX_PAYLOAD_SIZE)%nat.
Proof. intros (_ & Ht & Hl). rewrite <- Hl, <- Ht at 1. rewrite length_take. lia. Qed.

Lemma format_arg_spec a st text :
  arg_ok a -> holds st text ->
  if (length (append_arg text a) <=? MAX_PAYLOAD_SIZE)%nat
  then exists st', format_arg (Some st) a = Some st' /\ holds st' (append_arg text a)
  else format_arg (Some st) a = None.
Proof.
  intros Ha Hh. destruct (Nat.le_gt_cases end_ptr (length text)) as [Hge|Hlt].
  - pose proof Hh as (Hp & Ht & Hl). assert (append_arg text a = text) as ->.
    { unfold append_arg. by rewrite (proj2 (Nat.leb_le _ _) Hge). }
    pose proof (holds_le _ _ Hh) as Hle. rewrite (proj2 (Nat.leb_le _ _) Hle). exists st. split; [|done]. unfold format_arg. cbn [mbind option_bind].
    by rewrite Hp, (proj2 (Nat.leb_le _ _) Hge).
  - destruct (format_arg_put a st text Ha Hh Hlt) as (piece & -> & ->). rewrite length_app.
    destruct (Nat.leb_spec (length text + length piece) MAX_PAYLOAD_SIZE) as [Hle|Hgt].
    + by apply put_bytes_ok.
    + by eapply put_bytes_over.
Qed.

Lemma append_grows text args : (length text <= length (foldl append_arg text args))%nat.
Proof.
  revert text. induction args as [|a args IH]; intros text; [done|]. cbn. etrans; [|apply IH].
  unfold append_arg. destruct (_ <=? _)%nat; [done|]. rewrite length_app. lia.
Qed.

Lemma foldl_format_None args : foldl format_arg None args = None.
Proof. by induction args. Qed.

Lemma format_args_spec args st text :
  Forall arg_ok args -> holds st text ->
  if (length (foldl append_arg text args) <=? MAX_PAYLOAD_SIZE)%nat
  then exists st', foldl format_arg (Some st) args = Some st' /\ holds st' (foldl append_arg text args)
  else foldl format_arg (Some st) args = None.
Proof.
  intros Ha. revert st text. induction Ha as [|a args Ha _ IH]; intros st text Hh; cbn [foldl].
  - rewrite (proj2 (Nat.leb_le _ _) (holds_le _ _ Hh)). by exists st.
  - pose proof (format_arg_spec a st text Ha Hh) as Hf. pose proof (append_grows (append_arg text a) args) as Hg.
    destruct (Nat.leb_spec (length (append_arg text a)) MAX_PAYLOAD_SIZE) as [Hle|Hgt].
    + destruct Hf as (st' & -> & Hh'). by apply IH.
    + rewrite Hf, foldl_format_None, (proj2 (Nat.leb_gt _ _)); [done|lia].
Qed.

Lemma format_message_spec ts lvl args old :
  Forall arg_ok args -> length (payload old) = MAX_PAYLOAD_SIZE ->
  let text := foldl append_arg [] args in
  if (length text <? MAX_PAYLOAD_SIZE)%nat
  then exists e, format_message ts lvl args old = Some e /\ timestamp_ns e = ts /\ level e = lvl /\
         body e = text ++ newline /\ length (payload e) = MAX_PAYLOAD_SIZE
  else format_message ts lvl args old = None.
Proof.
  intros Ha Hl text. unfold format_message. assert (holds (payload old, 0%nat) []) as Hh by done.
  pose proof (format_args_spec args _ _ Ha Hh) as Hf. fold text in Hf. unfold Nat.ltb.
  destruct (Nat.leb_spec (length text) MAX_PAYLOAD_SIZE) as [Hle|Hgt].
  2: { rewrite Hf, (proj2 (Nat.leb_gt _ _)); [done|lia]. }
  destruct Hf as (st & -> & Hst). cbn [mbind option_bind]. destruct (Nat.leb_spec (S (length text)) MAX_PAYLOAD_SIZE) as [H1|H1].
  - destruct (put_bytes_ok newline st text Hst) as (st' & -> & Hp & Ht & Hl'); [cbn [newline length]; lia|]. cbn [mbind option_bind].
    eexists. split; [done|]. split_and!; [done|done| |done]. unfold body. cbn [len payload].
    rewrite Hp, wrap_small, Nat2Z.id; [done|]. rewrite length_app. cbn [newline length]. unfold MAX_PAYLOAD_SIZE in *. lia.
  - rewrite (put_bytes_over newline st text Hst); [done|]. cbn [newline length]. lia.
Qed.





(** The payload of a log message.  For arguments in the range of their
    types, [log] formats inside the 256 bytes of the payload exactly when the
    text (strings cut at 254 characters, numbers not cut) has at most 255
    characters, and then the message is that text and a newline; otherwise it
    writes behind the payload.  String arguments alone always fit. *)
Theorem logger_payload_bounds ts lvl args old :
  Forall arg_ok args -> length (payload old) = MAX_PAYLOAD_SIZE ->
  let text := foldl append_arg [] args in
  ((length text <= 255)%nat -> exists e, format_message ts lvl args old = Some e /\ body e = text ++ newline) /\
  ((255 < length text)%nat -> format_message ts lvl args old = None) /\
  (Forall (fun a => match a with A_cstr _ | A_sv _ => True | _ => False end) args -> (length text <= 254)%nat).
Proof.
  intros Ha Hl text. pose proof (format_message_spec ts lvl args old Ha Hl) as Hf. cbv zeta in Hf. fold text in Hf.
  unfold MAX_PAYLOAD_SIZE in Hf. split_and!.
  - intros Hle. rewrite (proj2 (Nat.ltb_lt _ _)) in Hf by lia. destruct Hf as (e & ? & _ & _ & ? & _). by exists e.
  - intros Hgt. rewrite (proj2 (Nat.ltb_ge _ _)) in Hf by lia. done.
  - intros Hs. unfold text. clear -Hs. assert (length (@nil Z) <= 254)%nat as H0 by (cbn; lia).
    revert H0. generalize (@nil Z). induction Hs as [|a args Hs _ IH]; intros t0 H0; [done|]. cbn [foldl]. apply IH.
    unfold append_arg, end_ptr, MAX_PAYLOAD_SIZE. destruct (Nat.leb_spec (256 - 2) (length t0)); [done|].
    rewrite length_app. destruct a; try done; rewrite length_take; lia.
Qed.

(** The number formats are canonical and can be read back: decimal and
    hexadecimal numerals without superfluous zeros whose value is the
    argument, short enough for every buffer they are written to ([temp] of 24,
    [buf] of 32 characters); the least [int64_t] is not supported. *)
Theorem logger_number_roundtrip :
  (forall v, 0 <= v < 2 ^ 64 -> parse_uint (write_uint64 v) = Some v /\ (length (write_uint64 v) <= 20)%nat) /\
  (forall v, 0 <= v < 2 ^ 64 -> parse_hex (write_hex64 v) = Some v /\ (length (write_hex64 v) <= 18)%nat) /\
  (forall v, - 2 ^ 63 < v < 2 ^ 63 ->
     exists cs, write_int64 v = Some cs /\ parse_int cs = Some v /\ (length cs <= 20)%nat) /\
  write_int64 (- 2 ^ 63) = None.
Proof.
  split_and!; [|exact write_hex64_spec|exact write_int64_spec|done].
  intros v Hv. split; [apply (write_uint64_spec v Hv)|by apply length_write_uint64].
Qed.

(** ** The ring *)

Definition entry_text (e : LogMessage) : list Z := header e ++ body e.
Definition text_of (es : list LogMessage) : list Z := concat (entry_text <$> es).

(** The header fits the buffer of 64 characters. *)
Lemma header_fits e : 0 <= timestamp_ns e < 2 ^ 64 -> (length (header e) <= 64)%nat.
Proof.
  intros Ht. unfold header. rewrite !length_app. pose proof (length_write_uint64 _ Ht).
  assert (length (to_string (level e)) = 7%nat) by (by destruct (level e)). cbn [length]. lia.
Qed.


Section fifo.
Context (k : Z) (Hk : 0 <= k < 64) (wr : nat -> list Z -> Z).
Abbreviation cap := (2 ^ k).














Context (Hwr : writable wr).

Lemma flush_entry_out e d : out (flush_entry wr e d) = out d ++ entry_text e.
Proof using Hwr. unfold flush_entry, entry_text. by rewrite !write_raw_out, <- app_assoc. Qed.

(** A flush that runs alone writes all waiting messages and terminates. *)
Lemma flush_loop_spec s hist nr i n d fuel :
  ring_inv k (tail_ s) (head_ s) (ring_ s) hist nr nr -> Z.of_nat (length hist) < 2 ^ 64 ->
  (nr <= i)%nat -> (i + n = length hist)%nat -> (n < fuel)%nat ->
  exists d', flush_loop cap wr fuel (u64 (Z.of_nat i)) (tail_ s) s d = Some (u64 (Z.of_nat (length hist)), d') /\
    out d' = out d ++ text_of (drop i hist).
Proof using Hk Hwr.
  intros HR Hb Hi Hn Hf. revert i d fuel Hi Hn Hf. induction n as [|n IH]; intros i d fuel Hi Hn Hf;
    (destruct fuel as [|fuel]; [lia|]); cbn [flush_loop]; rewrite (ring_w _ _ _ _ _ _ _ HR), !wrap_small by lia.
  - rewrite (proj2 (Z.ltb_ge _ _)) by lia. exists d. rewrite drop_ge by lia. split; [do 2 f_equal; lia|].
    by rewrite app_nil_r.
  - rewrite (proj2 (Z.ltb_lt _ _)) by lia. destruct (lookup_lt_is_Some_2 hist i ltac:(lia)) as [e He].
    rewrite <- (wrap_small 64 (Z.of_nat i)), slot_of_counter, (ring_slots _ _ _ _ _ _ _ HR i), He by lia. cbn [mbind option_bind].
    destruct (IH (S i) (flush_entry wr e d) fuel ltac:(lia) ltac:(lia) ltac:(lia)) as (d' & Hd & Ho).
    exists d'. split.
    + rewrite (ring_w _ _ _ _ _ _ _ HR), !wrap_small in Hd by lia. rewrite !wrap_small by lia.
      by replace (Z.of_nat i + 1) with (Z.of_nat (S i)) by lia.
    + rewrite Ho, flush_entry_out, (drop_S hist e i) by done. unfold text_of. cbn. by rewrite <- app_assoc.
Qed.

Lemma flush_spec s hist nr d :
  ring_inv k (tail_ s) (head_ s) (ring_ s) hist nr nr -> Z.of_nat (length hist) < 2 ^ 64 ->
  exists d', flush cap wr s d = Some (Z.of_nat (length hist - nr), flush_store (tail_ s) s, d') /\
    out d' = out d ++ text_of (drop nr hist).
Proof using Hk Hwr.
  intros HR Hb. pose proof (ring_lo _ _ _ _ _ _ _ HR) as Hlo. pose proof (ring_w _ _ _ _ _ _ _ HR) as Hw.
  pose proof (ring_r _ _ _ _ _ _ _ HR) as Hr. unfold flush.
  destruct (flush_loop_spec s hist nr nr (length hist - nr) d (S (Z.to_nat (tail_ s - head_ s))) HR Hb) as (d' & Hd & Ho);
    [lia|lia|rewrite Hw, Hr, !wrap_small by lia; lia|].
  exists d'. rewrite Hr at 2. rewrite Hd. cbn. rewrite <- Hw. split; [|done]. do 3 f_equal. rewrite Hw, Hr, !wrap_small by lia. lia.
Qed.
End fifo.

(** ** Witnesses *)

Lemma logger_number_roundtrip_witness :
  write_uint64 18446744073709551615 = chars "18446744073709551615" /\ write_hex64 48879 = chars "0xBEEF" /\
  exists cs, write_int64 (- 1024) = Some cs /\ parse_int cs = Some (- 1024) /\ (length cs <= 20)%nat.
Proof.
  split_and!; [vm_compute; reflexivity..|]. apply logger_number_roundtrip. lia.
Defined.

(** A string of 253 characters and a number of 20: the number is written over
    the end of the payload. *)
Lemma logger_payload_bounds_witness :
  format_message 0 INFO [A_cstr (replicate 253 97); A_uint (2 ^ 64 - 1)] empty_message = None /\
  exists e, format_message 0 INFO [A_cstr (chars "qty "); A_int (- 7)] empty_message = Some e /\
    body e = chars "qty -7" ++ newline.
Proof.
  split.
  - apply (logger_payload_bounds 0 INFO [A_cstr (replicate 253 97); A_uint (2 ^ 64 - 1)] empty_message).
    + repeat apply Forall_cons_2; [exact I|cbn; lia|constructor].
    + reflexivity.
    + vm_compute. lia.
  - destruct (logger_payload_bounds 0 INFO [A_cstr (chars "qty "); A_int (- 7)] empty_message) as (He & _).
    + repeat apply Forall_cons_2; [exact I|cbn; lia|constructor].
    + reflexivity.
    + apply He. vm_compute. lia.
Defined.

(** A descriptor that takes one byte per call. *)
Definition ex_wr (n : nat) (bs : list Z) : Z := 1.

Lemma ex_wr_ok : writable ex_wr.
Proof. intros n bs Hne. unfold ex_wr. destruct bs; [done|cbn [length]; lia]. Qed.

Definition ex_entry : LogMessage :=
  default empty_message (format_message 5 WARN [A_cstr (chars "hot")] empty_message).
Definition ex_published : t := mk 0 1 0 INFO [ex_entry; empty_message].



(** When [write] fails, [flush] counts the message as written all the same and
    goes on behind it: the rest of the message is lost. *)
Lemma logger_write_error_cuts :
  ('(n, s, d) ← flush 2 (fun j _ => if (j =? 0)%nat then 3 else -1) ex_published (mk_fd 0 []);
   Some (n, head_ s, tail_ s, out d)) = Some (1, 1, 1, chars "[5]").
Proof. vm_compute. reflexivity. Qed.

(** Two logging threads that load the same tail: one of the messages is lost,
    although both calls report success. *)
Lemma logger_two_producers_lose :
  (s ← log_fill 2 0 1 INFO [A_cstr (chars "a")] (FastLogger 2);
   s ← log_fill 2 0 2 INFO [A_cstr (chars "b")] s;
   let s := log_publish 0 (log_publish 0 s) in
   Some (tail_ s, body <$> ring_ s !! 0%nat)) = Some (1, Some (chars "b" ++ newline)).
Proof. vm_compute. reflexivity. Qed.
End Logger.
