(* ===== verification/WalEngine.v ===== *)
(** * The write-ahead-log storage engine

    Model of [WalStorageEngine] and [WalBlock] (12-capstone-systems,
    02-embedded-lsm-kv-database, wal_storage_engine.hpp): every mutation is
    appended to the log as one checksummed 4096-byte block before the
    in-memory index is changed, and [recover] rebuilds the index by scanning
    the log.  The state holds the durable content of the log file beside the
    members of the class; a crash keeps only the former. *)

From S2P Require Import Prelude Bytes.

#[local] Open Scope Z_scope.
#[local] Open Scope cpp_scope.

Module Wal.

Inductive WalOp := PUT | DEL.

Definition WalOp_val (o : WalOp) : Z := match o with PUT => 1 | DEL => 2 end.

Definition BLOCK_SIZE : nat := Z.to_nat 4096.
Definition RESERVED_SIZE : nat := Z.to_nat (4096 - 48).
Definition MAGIC : Z := 0x57414C31.

Record WalBlock := mk_block {
  magic : Z; checksum : Z; seq_num : Z; timestamp_ns : Z; op : Z; padding : Z;
  key : Z; value : Z; reserved : list Z }.

(** The memory image of a block; the payload is everything after the magic
    number and the checksum. *)
Definition payload_bytes (b : WalBlock) : list Z :=
  le_encode 8 (seq_num b) ++ le_encode 8 (timestamp_ns b) ++ le_encode 4 (op b) ++
  le_encode 4 (padding b) ++ le_encode 8 (key b) ++ le_encode 8 (value b) ++ reserved b.

Definition block_bytes (b : WalBlock) : list Z :=
  le_encode 4 (magic b) ++ le_encode 4 (checksum b) ++ payload_bytes b.

Definition parse_block (bs : list Z) : WalBlock :=
  mk_block (load_le 4 0 bs) (load_le 4 4 bs) (load_le 8 8 bs) (load_le 8 16 bs)
           (load_le 4 24 bs) (load_le 4 28 bs) (load_le 8 32 bs) (load_le 8 40 bs)
           (sub_bytes 48 RESERVED_SIZE bs).

Definition fnv_step (crc b : Z) : Z := u32 (Z.lxor crc b * 0x01000193).

Definition fnv (bs : list Z) : Z := foldl fnv_step 0x811C9DC5 bs.

Definition compute_checksum (b : WalBlock) : Z := fnv (payload_bytes b).

(** [WalBlock block{}] with its fields assigned as [put] and [del] do. *)
Definition make_block (o : WalOp) (seq k v : Z) : WalBlock :=
  let b := mk_block MAGIC 0 seq 0 (WalOp_val o) 0 k v (replicate RESERVED_SIZE 0) in
  mk_block MAGIC (compute_checksum b) seq 0 (WalOp_val o) 0 k v (replicate RESERVED_SIZE 0).

Record t := mk {
  disk : list Z;
  fd_ : option nat;
  current_seq_ : Z;
  index_ : gmap Z Z }.

(** [::write(fd_, &block, sizeof(WalBlock))] returning [written]; on a closed
    descriptor it fails. *)
Definition write_block (written : Z) (b : WalBlock) (s : t) : Z * t :=
  match fd_ s with
  | None => (-1, s)
  | Some off =>
      let f := file_write written (block_bytes b) (mk_file (disk s) off) in
      (written, mk (content f) (Some (offset f)) (current_seq_ s) (index_ s))
  end.

Definition put (written k v : Z) (s : t) : bool * t :=
  let seq := current_seq_ s +64 1 in
  let s := mk (disk s) (fd_ s) seq (index_ s) in
  let '(w, s) := write_block written (make_block PUT seq k v) s in
  if negb (w =? Z.of_nat BLOCK_SIZE) then (false, s)
  else (true, mk (disk s) (fd_ s) (current_seq_ s) (<[k := v]> (index_ s))).

Definition get (k : Z) (s : t) : option Z := index_ s !! k.

Definition del (written k : Z) (s : t) : bool * t :=
  let seq := current_seq_ s +64 1 in
  let s := mk (disk s) (fd_ s) seq (index_ s) in
  let '(w, s) := write_block written (make_block DEL seq k 0) s in
  if negb (w =? Z.of_nat BLOCK_SIZE) then (false, s)
  else (true, mk (disk s) (fd_ s) (current_seq_ s) (delete k (index_ s))).

Definition size (s : t) : nat := base.size (index_ s).

(** The scan of [recover].  Every iteration that continues consumes 4096
    bytes, so one more iteration than there are whole blocks is enough. *)
Fixpoint recover_loop (fuel : nat) (f : file) (seq : Z) (idx : gmap Z Z) : Z * gmap Z Z :=
  match fuel with
  | O => (seq, idx)
  | S fuel' =>
      let '(bs, f) := file_read BLOCK_SIZE f in
      if (length bs =? 0)%nat then (seq, idx) else
      if negb (length bs =? BLOCK_SIZE)%nat then (seq, idx) else
      let b := parse_block bs in
      if negb (magic b =? MAGIC) then (seq, idx) else
      if negb (checksum b =? compute_checksum b) then (seq, idx) else
      let seq := Z.max seq (seq_num b) in
      if op b =? WalOp_val PUT then recover_loop fuel' f seq (<[key b := value b]> idx)
      else if op b =? WalOp_val DEL then recover_loop fuel' f seq (delete (key b) idx)
      else recover_loop fuel' f seq idx
  end.

Definition recover (s : t) : bool * t :=
  match fd_ s with
  | None => (false, mk (disk s) None 0 ∅)
  | Some _ =>
      let fuel := S (length (disk s) / BLOCK_SIZE) in
      let '(seq, idx) := recover_loop fuel (mk_file (disk s) 0) 0 ∅ in
      (true, mk (disk s) (Some (length (disk s))) seq idx)
  end.

(** [opened] tells whether [::open] returned a descriptor. *)
Definition open (opened : bool) (s : t) : bool * t :=
  if opened then recover (mk (disk s) (Some 0%nat) (current_seq_ s) (index_ s))
  else (false, mk (disk s) None (current_seq_ s) (index_ s)).

Definition close (s : t) : t := mk (disk s) None (current_seq_ s) ∅.

(** A new process on the same file: the constructor's state. *)
Definition WalStorageEngine (d : list Z) : t := mk d None 0 ∅.
Definition crash (s : t) : t := WalStorageEngine (disk s).

(** ** Specification: a map and a list of operations *)

Inductive wal_op := OpPut (k v : Z) | OpDel (k : Z).

Definition valid_op (o : wal_op) : Prop :=
  match o with
  | OpPut k v => 0 <= k < 2 ^ 64 /\ 0 <= v < 2 ^ 64
  | OpDel k => 0 <= k < 2 ^ 64
  end.

Definition spec_apply (m : gmap Z Z) (o : wal_op) : gmap Z Z :=
  match o with OpPut k v => <[k := v]> m | OpDel k => delete k m end.

Definition exec (o : wal_op) (written : Z) (s : t) : bool * t :=
  match o with OpPut k v => put written k v s | OpDel k => del written k s end.

(** All operations executed, each [write] complete. *)
Definition run (ops : list wal_op) (s : t) : t :=
  foldl (fun s o => (exec o (Z.of_nat BLOCK_SIZE) s).2) s ops.

(** The engine just opened on a new, empty log. *)
Definition fresh : t := mk [] (Some 0%nat) 0 ∅.

Definition op_block (seq : Z) (o : wal_op) : WalBlock :=
  match o with OpPut k v => make_block PUT seq k v | OpDel k => make_block DEL seq k 0 end.

Fixpoint log_bytes (seq : Z) (ops : list wal_op) : list Z :=
  match ops with
  | [] => []
  | o :: ops' => block_bytes (op_block (seq + 1) o) ++ log_bytes (seq + 1) ops'
  end.

(** ** Blocks: length and round trip *)

Definition block_range (b : WalBlock) : Prop :=
  0 <= magic b < 2 ^ 32 /\ 0 <= checksum b < 2 ^ 32 /\ 0 <= seq_num b < 2 ^ 64 /\
  0 <= timestamp_ns b < 2 ^ 64 /\ 0 <= op b < 2 ^ 32 /\ 0 <= padding b < 2 ^ 32 /\
  0 <= key b < 2 ^ 64 /\ 0 <= value b < 2 ^ 64 /\ length (reserved b) = RESERVED_SIZE.

Lemma length_block_bytes b : length (reserved b) = RESERVED_SIZE -> length (block_bytes b) = BLOCK_SIZE.
Proof.
  intros Hr. unfold block_bytes, payload_bytes. rewrite !length_app, !length_le_encode, Hr. reflexivity.
Qed.

Lemma parse_block_bytes b : block_range b -> parse_block (block_bytes b) = b.
Proof.
  intros (H1 & H2 & H3 & H4 & H5 & H6 & H7 & H8 & H9).
  unfold parse_block, block_bytes, payload_bytes.
  destruct b as [m c s ts o p k v r].
  cbn [magic checksum seq_num timestamp_ns op padding key value reserved] in *.
  f_equal; repeat (rewrite load_le_app_skip by lia; cbn [Nat.sub]); try by apply load_le_app_here.
  rewrite !app_assoc. unfold sub_bytes. rewrite drop_app_length'.
  - apply take_ge. lia.
  - rewrite !length_app, !length_le_encode. reflexivity.
Qed.

Lemma fnv_range bs : 0 <= fnv bs < 2 ^ 32.
Proof.
  unfold fnv. assert (0 <= 0x811C9DC5 < 2 ^ 32) as H0 by lia. revert H0.
  generalize 0x811C9DC5. induction bs as [|b bs IH]; intros c Hc; simpl; [done|].
  apply IH. by apply wrap_range.
Qed.

Lemma make_block_range o seq k v :
  0 <= seq < 2 ^ 64 -> 0 <= k < 2 ^ 64 -> 0 <= v < 2 ^ 64 -> block_range (make_block o seq k v).
Proof.
  intros Hs Hk Hv. unfold block_range, make_block, MAGIC.
  cbn [magic checksum seq_num timestamp_ns op padding key value reserved].
  pose proof (fnv_range (payload_bytes (mk_block 0x57414C31 0 seq 0 (WalOp_val o) 0 k v (replicate RESERVED_SIZE 0)))).
  split_and!; try lia; try apply H; [destruct o; simpl; lia..|apply length_replicate].
Qed.

Lemma make_block_checksum o seq k v :
  checksum (make_block o seq k v) = compute_checksum (make_block o seq k v).
Proof.
  unfold make_block, compute_checksum, payload_bytes.
  by cbn [magic checksum seq_num timestamp_ns op padding key value reserved].
Qed.

Lemma make_block_fields o seq k v :
  let b := make_block o seq k v in
  magic b = MAGIC /\ seq_num b = seq /\ op b = WalOp_val o /\ key b = k /\ value b = v.
Proof. by unfold make_block. Qed.

Lemma op_block_range seq o : 0 <= seq < 2 ^ 64 -> valid_op o -> block_range (op_block seq o).
Proof. intros Hs Ho. destruct o as [k v|k]; simpl in Ho; apply make_block_range; try lia. Qed.

Lemma length_op_block seq o : length (block_bytes (op_block seq o)) = BLOCK_SIZE.
Proof. apply length_block_bytes. destruct o; apply length_replicate. Qed.

Lemma log_bytes_app seq ops1 ops2 :
  log_bytes seq (ops1 ++ ops2) = log_bytes seq ops1 ++ log_bytes (seq + Z.of_nat (length ops1)) ops2.
Proof.
  revert seq. induction ops1 as [|o ops1 IH]; intros seq; cbn [app log_bytes length].
  - by rewrite Z.add_0_r.
  - rewrite IH, <- app_assoc. do 3 f_equal. lia.
Qed.

Lemma length_log_bytes seq ops : length (log_bytes seq ops) = (length ops * BLOCK_SIZE)%nat.
Proof.
  revert seq. induction ops as [|o ops IH]; intros seq; cbn [log_bytes length]; [done|].
  rewrite length_app, length_op_block, IH. lia.
Qed.

(** ** The scan *)

(** What makes the scan stop at [tail]: a short read, a wrong magic number or
    a wrong checksum. *)
Definition stops (tail : list Z) : Prop :=
  let bs := take BLOCK_SIZE tail in
  length bs <> BLOCK_SIZE \/ magic (parse_block bs) <> MAGIC \/
  checksum (parse_block bs) <> compute_checksum (parse_block bs).

Lemma recover_loop_stop fuel pre tail seq idx :
  stops tail -> recover_loop fuel (mk_file (pre ++ tail) (length pre)) seq idx = (seq, idx).
Proof.
  intros Hs. destruct fuel as [|fuel]; cbn [recover_loop]; [done|].
  unfold file_read, pread, sub_bytes. cbn [content offset]. rewrite drop_app_length.
  destruct (Nat.eqb_spec (length (take BLOCK_SIZE tail)) 0); [done|].
  destruct (Nat.eqb_spec (length (take BLOCK_SIZE tail)) BLOCK_SIZE) as [Hl|]; cbn [negb]; [|done].
  destruct Hs as [?|[Hm|Hc]]; [done| |].
  - by rewrite (proj2 (Z.eqb_neq _ _) Hm).
  - destruct (_ =? MAGIC); cbn [negb]; [|done]. by rewrite (proj2 (Z.eqb_neq _ _) Hc).
Qed.

Lemma recover_loop_block fuel pre o rest n idx :
  0 <= n -> n + 1 < 2 ^ 64 -> valid_op o ->
  recover_loop (S fuel) (mk_file (pre ++ block_bytes (op_block (n + 1) o) ++ rest) (length pre)) n idx =
  recover_loop fuel (mk_file ((pre ++ block_bytes (op_block (n + 1) o)) ++ rest)
                       (length (pre ++ block_bytes (op_block (n + 1) o)))) (n + 1) (spec_apply idx o).
Proof.
  intros Hn Hn1 Ho. cbn [recover_loop]. unfold file_read, pread. cbn [content offset].
  pose proof (length_op_block (n + 1) o) as Hl.
  rewrite (sub_bytes_app_exact pre _ rest _ _ eq_refl Hl), Hl, parse_block_bytes
    by (apply op_block_range; [lia|done]).
  rewrite length_app, Hl, <- app_assoc.
  change (BLOCK_SIZE =? 0)%nat with false. rewrite Nat.eqb_refl. cbn [negb].
  destruct o as [k v|k]; cbn [op_block spec_apply] in *; rewrite <- make_block_checksum.
  - destruct (make_block_fields PUT (n + 1) k v) as (-> & -> & -> & -> & ->).
    rewrite !Z.eqb_refl, Z.max_r by lia. reflexivity.
  - destruct (make_block_fields DEL (n + 1) k 0) as (-> & -> & -> & -> & _).
    rewrite !Z.eqb_refl, Z.max_r by lia. reflexivity.
Qed.

Lemma recover_loop_log ops fuel pre tail n idx :
  0 <= n -> n + Z.of_nat (length ops) < 2 ^ 64 -> Forall valid_op ops -> stops tail ->
  (length ops <= fuel)%nat ->
  recover_loop fuel (mk_file (pre ++ log_bytes n ops ++ tail) (length pre)) n idx =
  (n + Z.of_nat (length ops), foldl spec_apply idx ops).
Proof.
  intros Hn Hlen Hv Hs. revert fuel pre n idx Hn Hlen.
  induction Hv as [|o ops Ho _ IH]; intros fuel pre n idx Hn Hlen Hf; cbn [log_bytes length foldl] in *.
  { rewrite Z.add_0_r. by apply recover_loop_stop. }
  destruct fuel as [|fuel]; [lia|]. rewrite <- app_assoc, recover_loop_block by (lia || done).
  rewrite IH by lia. f_equal. lia.
Qed.

(** ** Running operations *)

Definition state_of (ops : list wal_op) : t :=
  mk (log_bytes 0 ops) (Some (length (log_bytes 0 ops))) (Z.of_nat (length ops)) (foldl spec_apply ∅ ops).

(** One operation at the end of the log, with [written] bytes transferred. *)
Lemma exec_at_end o written d seq idx :
  exec o written (mk d (Some (length d)) seq idx) =
  (written =? Z.of_nat BLOCK_SIZE,
   mk (d ++ take (Z.to_nat written) (block_bytes (op_block (seq +64 1) o)))
      (Some (length d + Z.to_nat written)%nat) (seq +64 1)
      (if written =? Z.of_nat BLOCK_SIZE then spec_apply idx o else idx)).
Proof.
  destruct o as [k v|k]; unfold exec, put, del, write_block, file_write;
    cbn [fd_ disk offset content current_seq_ index_]; rewrite pwrite_end;
    destruct (written =? Z.of_nat BLOCK_SIZE); done.
Qed.

Lemma exec_state_of ops o :
  Z.of_nat (length ops) + 1 < 2 ^ 64 ->
  exec o (Z.of_nat BLOCK_SIZE) (state_of ops) = (true, state_of (ops ++ [o])).
Proof.
  intros Hl. unfold state_of. rewrite exec_at_end, Z.eqb_refl, Nat2Z.id, wrap_small by lia.
  rewrite log_bytes_app, foldl_snoc, !length_app. cbn [log_bytes length].
  rewrite Z.add_0_l, app_nil_r, take_ge, length_op_block by (by rewrite length_op_block).
  do 2 f_equal. lia.
Qed.

Lemma run_state_of ops ops' :
  Z.of_nat (length ops + length ops') < 2 ^ 64 -> run ops' (state_of ops) = state_of (ops ++ ops').
Proof.
  revert ops. induction ops' as [|o ops' IH]; intros ops Hl; cbn [run foldl length] in *.
  { by rewrite app_nil_r. }
  rewrite exec_state_of by lia. cbn [snd]. unfold run in IH. rewrite IH.
  - by rewrite <- app_assoc.
  - rewrite length_app. simpl. lia.
Qed.

Lemma run_fresh ops : Z.of_nat (length ops) < 2 ^ 64 -> run ops fresh = state_of ops.
Proof. apply (run_state_of []). Qed.

(** Opening the file that holds the log of [ops] followed by [tail]. *)
Lemma open_log ops tail :
  Z.of_nat (length ops) < 2 ^ 64 -> Forall valid_op ops -> stops tail ->
  open true (WalStorageEngine (log_bytes 0 ops ++ tail)) =
  (true, mk (log_bytes 0 ops ++ tail) (Some (length (log_bytes 0 ops ++ tail)))
            (Z.of_nat (length ops)) (foldl spec_apply ∅ ops)).
Proof.
  intros Hl Hv Hs. unfold open, recover, WalStorageEngine. cbn [fd_ disk current_seq_ index_].
  rewrite (recover_loop_log ops _ [] tail 0 ∅); [done|lia|lia|done|done|].
  rewrite length_app, length_log_bytes, Nat.div_add_l by done. lia.
Qed.

Lemma stops_short tail : (length tail < BLOCK_SIZE)%nat -> stops tail.
Proof. intros Hl. left. rewrite length_take. lia. Qed.

(** ** The checksum detects single-byte corruption *)

Lemma lxor_range32 a b : 0 <= a < 2 ^ 32 -> is_byte b -> 0 <= Z.lxor a b < 2 ^ 32.
Proof.
  intros Ha Hb. unfold is_byte in Hb. split; [apply Z.lxor_nonneg; lia|].
  destruct (decide (Z.lxor a b = 0)) as [->|Hne]; [lia|].
  assert (0 <= Z.lxor a b) by (apply Z.lxor_nonneg; lia).
  apply Z.log2_lt_pow2; [lia|].
  eapply Z.le_lt_trans; [apply Z.log2_lxor; lia|].
  assert (forall x, 0 <= x < 2 ^ 32 -> Z.log2 x < 32) as Hlog.
  { intros x Hx. destruct (decide (x = 0)) as [->|]; [done|]. apply Z.log2_lt_pow2; lia. }
  apply Z.max_lub_lt; apply Hlog; lia.
Qed.

(** One FNV step is injective: the prime is odd, hence invertible modulo
    [2^32]. *)
Lemma fnv_step_inj x y :
  0 <= x < 2 ^ 32 -> 0 <= y < 2 ^ 32 -> u32 (x * 0x01000193) = u32 (y * 0x01000193) -> x = y.
Proof.
  intros Hx Hy Heq.
  assert (forall z, 0 <= z < 2 ^ 32 -> u32 (u32 (z * 0x01000193) * 0x359c449b) = z) as Hinv.
  { intros z Hz. unfold wrap. rewrite Zmult_mod_idemp_l, <- Z.mul_assoc, <- Zmult_mod_idemp_r.
    change ((0x01000193 * 0x359c449b) mod 2 ^ 32) with 1. rewrite Z.mul_1_r. by apply Z.mod_small. }
  rewrite <- (Hinv x Hx), <- (Hinv y Hy). by rewrite Heq.
Qed.

Lemma fnv_fold_inj bs c c' :
  Forall is_byte bs -> 0 <= c < 2 ^ 32 -> 0 <= c' < 2 ^ 32 ->
  foldl fnv_step c bs = foldl fnv_step c' bs -> c = c'.
Proof.
  intros Hbs. revert c c'. induction Hbs as [|b bs Hb _ IH]; intros c c' Hc Hc' Heq; simpl in Heq; [done|].
  apply IH in Heq; [|by apply wrap_range..]. unfold fnv_step in Heq.
  apply fnv_step_inj in Heq; [|by apply lxor_range32..].
  apply (f_equal (fun z => Z.lxor z b)) in Heq.
  by rewrite !Z.lxor_assoc, Z.lxor_nilpotent, !Z.lxor_0_r in Heq.
Qed.

Lemma fnv_single_byte bs i b b' :
  Forall is_byte bs -> is_byte b' -> bs !! i = Some b -> b <> b' -> fnv (<[i := b']> bs) <> fnv bs.
Proof.
  intros Hbs Hb' Hi Hne Heq.
  assert (i < length bs)%nat as Hlt by (by apply lookup_lt_Some in Hi).
  rewrite insert_take_drop in Heq by done. rewrite <- (take_drop_middle bs i b Hi) in Heq at 3.
  unfold fnv in Heq. rewrite !foldl_app in Heq. cbn [foldl] in Heq.
  set (c := foldl fnv_step _ (take i bs)) in Heq.
  assert (0 <= c < 2 ^ 32) as Hc by (exact (fnv_range (take i bs))).
  assert (is_byte b) as Hb by (by eapply Forall_lookup_1).
  apply fnv_fold_inj in Heq; [|by apply Forall_drop|by apply wrap_range..]. unfold fnv_step in Heq.
  apply fnv_step_inj in Heq; [|by apply lxor_range32..].
  apply Hne. symmetry. apply (f_equal (Z.lxor c)) in Heq.
  by rewrite <- !Z.lxor_assoc, Z.lxor_nilpotent, !Z.lxor_0_l in Heq.
Qed.

Lemma print_parse_block bs :
  Forall is_byte bs -> length bs = BLOCK_SIZE -> block_bytes (parse_block bs) = bs.
Proof.
  intros Hb Hl. unfold block_bytes, payload_bytes, parse_block.
  cbn [magic checksum seq_num timestamp_ns op padding key value reserved].
  assert (48 + RESERVED_SIZE = BLOCK_SIZE)%nat as H48 by reflexivity.
  rewrite !encode_load by (lia || done).
  transitivity (drop 0 bs); [|apply drop_0].
  rewrite (drop_sub_bytes 0 4), (drop_sub_bytes 4 4), (drop_sub_bytes 8 8), (drop_sub_bytes 16 8),
    (drop_sub_bytes 24 4), (drop_sub_bytes 28 4), (drop_sub_bytes 32 8), (drop_sub_bytes 40 8).
  cbn [Nat.add]. do 8 f_equal. unfold sub_bytes. apply take_ge. rewrite length_drop. lia.
Qed.

Lemma block_bytes_bytes b : Forall is_byte (reserved b) -> Forall is_byte (block_bytes b).
Proof. intros Hr. unfold block_bytes, payload_bytes. repeat (apply Forall_app_2; [apply le_encode_bytes|]). done. Qed.

(** A field of a byte sequence that still decodes to the same word has not
    changed. *)
Lemma load_le_insert_ne n off m i b b' :
  Forall is_byte m -> is_byte b' -> (off + n <= length m)%nat -> (off <= i < off + n)%nat ->
  m !! i = Some b -> b <> b' -> load_le n off (<[i := b']> m) <> load_le n off m.
Proof.
  intros Hm Hb' Hl Hi Hb Hne Heq.
  assert (Forall is_byte (<[i := b']> m)) as Hm' by (by apply Forall_insert).
  apply (f_equal (le_encode n)) in Heq. rewrite !encode_load in Heq by (by rewrite ?length_insert).
  apply (f_equal (fun l => l !! (i - off)%nat)) in Heq.
  rewrite !lookup_sub_bytes in Heq by lia. replace (off + (i - off))%nat with i in Heq by lia.
  rewrite list_lookup_insert_eq, Hb in Heq by lia. congruence.
Qed.

Lemma load_le_insert_out n off m i (b' : Z) :
  (i < off \/ off + n <= i)%nat -> load_le n off (<[i := b']> m) = load_le n off m.
Proof.
  intros Hi. unfold load_le. f_equal. apply list_eq. intros j.
  destruct (decide (j < n)%nat).
  - rewrite !lookup_sub_bytes by done. by rewrite list_lookup_insert_ne by lia.
  - unfold sub_bytes. by rewrite !lookup_take_ge by lia.
Qed.

Lemma payload_parse bs :
  Forall is_byte bs -> length bs = BLOCK_SIZE -> payload_bytes (parse_block bs) = drop 8 bs.
Proof.
  intros Hb Hl. rewrite <- (print_parse_block bs Hb Hl) at 2. unfold block_bytes.
  rewrite app_assoc, drop_app_length'; [done|]. by rewrite length_app, !length_le_encode.
Qed.

Lemma op_block_reserved seq o : Forall is_byte (reserved (op_block seq o)).
Proof. destruct o; apply Forall_replicate; unfold is_byte; lia. Qed.

Lemma corrupt_block_stops seq o i b b' rest :
  0 <= seq < 2 ^ 64 -> valid_op o -> is_byte b' ->
  block_bytes (op_block seq o) !! i = Some b -> b <> b' ->
  stops (<[i := b']> (block_bytes (op_block seq o)) ++ rest).
Proof.
  intros Hs Ho Hb' Hi Hne. right.
  set (bs := block_bytes (op_block seq o)) in *.
  assert (Forall is_byte bs) as Hbs by (apply block_bytes_bytes, op_block_reserved).
  assert (length bs = BLOCK_SIZE) as Hl by apply length_op_block.
  assert (Forall is_byte (<[i := b']> bs)) as Hbs' by (by apply Forall_insert).
  assert (i < BLOCK_SIZE)%nat as Hlt by (rewrite <- Hl; by apply lookup_lt_Some in Hi).
  rewrite take_app_length' by (by rewrite length_insert).
  assert (8 < BLOCK_SIZE)%nat as H8 by (unfold BLOCK_SIZE; lia).
  assert (parse_block bs = op_block seq o) as Hp by (by apply parse_block_bytes, op_block_range).
  assert (load_le 4 0 bs = MAGIC) as Hmg.
  { change (magic (parse_block bs) = MAGIC). rewrite Hp. destruct o; apply make_block_fields. }
  assert (load_le 4 4 bs = fnv (drop 8 bs)) as Hck.
  { change (checksum (parse_block bs) = fnv (drop 8 bs)).
    rewrite <- payload_parse, Hp by done. fold (compute_checksum (op_block seq o)).
    destruct o; cbn [op_block]; apply make_block_checksum. }
  destruct (decide (i < 4)%nat) as [H4|H4].
  { left. change (load_le 4 0 (<[i := b']> bs) <> MAGIC). rewrite <- Hmg.
    eapply load_le_insert_ne; eauto; lia. }
  right. unfold compute_checksum. rewrite payload_parse by (done || by rewrite length_insert).
  change (load_le 4 4 (<[i := b']> bs) <> fnv (drop 8 (<[i := b']> bs))).
  destruct (decide (i < 8)%nat) as [H8'|H8'].
  - rewrite drop_insert_lt by lia. rewrite <- Hck. eapply load_le_insert_ne; eauto; lia.
  - rewrite load_le_insert_out, Hck, drop_insert_ge by lia. intros Heq. symmetry in Heq. revert Heq.
    eapply fnv_single_byte; [by apply Forall_drop|done| |done].
    rewrite lookup_drop. by replace (8 + (i - 8))%nat with i by lia.
Qed.

(** ** The properties *)

(** C5. Crash recovery is exact: after any sequence of acknowledged [put] and
    [del] operations on a new log, the engine answers like the abstract map,
    and a new process that opens the same file reaches exactly the state the
    crashed one had (index, sequence number and append position). *)
Theorem wal_recovery ops :
  Forall valid_op ops -> Z.of_nat (length ops) < 2 ^ 64 ->
  (forall k, get k (run ops fresh) = foldl spec_apply ∅ ops !! k) /\
  open true (crash (run ops fresh)) = (true, run ops fresh).
Proof.
  intros Hv Hl. rewrite run_fresh by done. split; [done|].
  unfold crash, state_of. cbn [disk]. rewrite <- (app_nil_r (log_bytes 0 ops)) at 1.
  rewrite open_log; [by rewrite app_nil_r|done|done|]. apply stops_short. simpl. unfold BLOCK_SIZE. lia.
Qed.

(** C13. A failed or torn block write is atomic: when fewer than 4096 bytes
    reach the file (or the write fails), the operation reports failure, the
    index is unchanged, and recovery after a crash rebuilds the index and the
    sequence number of the operations acknowledged before. *)
Theorem wal_torn_write ops o written :
  Forall valid_op ops -> Z.of_nat (length ops) + 1 < 2 ^ 64 -> written < Z.of_nat BLOCK_SIZE ->
  let s := run ops fresh in
  let '(ok, s1) := exec o written s in
  let '(ok', s2) := open true (crash s1) in
  ok = false /\ index_ s1 = index_ s /\
  ok' = true /\ index_ s2 = index_ s /\ current_seq_ s2 = current_seq_ s.
Proof.
  intros Hv Hl Hw s. unfold s. rewrite run_fresh by lia. unfold state_of. rewrite exec_at_end.
  destruct (Z.eqb_spec written (Z.of_nat BLOCK_SIZE)); [lia|].
  unfold crash. cbn [disk]. rewrite open_log; [done|lia|done|].
  apply stops_short. rewrite length_take. unfold BLOCK_SIZE in *. lia.
Qed.

Lemma torn_magic_stops j seq o seq' o' :
  (0 < j < 4)%nat -> stops (take j (block_bytes (op_block seq o)) ++ block_bytes (op_block seq' o')).
Proof.
  intros Hj. right; left.
  assert (forall q r, exists rest, block_bytes (op_block q r) = [0x31; 0x4C; 0x41; 0x57] ++ rest) as Hb.
  { intros q r. eexists. unfold block_bytes.
    replace (magic (op_block q r)) with MAGIC by (by destruct r). reflexivity. }
  destruct (Hb seq o) as [r1 ->], (Hb seq' o') as [r2 ->].
  assert (4 <= BLOCK_SIZE)%nat as H4 by (unfold BLOCK_SIZE; lia).
  unfold parse_block, load_le, sub_bytes. cbn [magic]. rewrite drop_0, take_take, Nat.min_l by done.
  destruct j as [|[|[|[|j]]]]; [lia|done|done|done|lia].
Qed.

(** The recovery scan does not repair the log: when a block write is torn
    after one to three bytes, the restarted engine appends the next blocks
    behind the fragment, so a later [put] or [del] is acknowledged and
    visible, but the following recovery stops at the fragment and the
    acknowledged operation is lost. *)
Theorem wal_lost_after_torn_write ops o o' j :
  Forall valid_op ops -> Z.of_nat (length ops) + 1 < 2 ^ 64 -> 0 < j < 4 ->
  let s := run ops fresh in
  let s2 := (open true (crash (exec o j s).2)).2 in
  let '(ok, s3) := exec o' (Z.of_nat BLOCK_SIZE) s2 in
  let '(ok', s4) := open true (crash s3) in
  ok = true /\ index_ s3 = spec_apply (index_ s) o' /\
  ok' = true /\ index_ s4 = index_ s.
Proof.
  intros Hv Hl Hj s s2. unfold s2, s. rewrite run_fresh by lia. unfold state_of. rewrite exec_at_end.
  assert (Z.to_nat j < BLOCK_SIZE)%nat as Hjb by (unfold BLOCK_SIZE; lia).
  destruct (Z.eqb_spec j (Z.of_nat BLOCK_SIZE)); [lia|]. unfold crash. cbn [disk snd].
  rewrite open_log; [|lia|done|apply stops_short; rewrite length_take; lia]. cbn [snd].
  rewrite exec_at_end, Z.eqb_refl. cbn [disk]. rewrite <- app_assoc, open_log; [done|lia|done|].
  rewrite Nat2Z.id, (take_ge (block_bytes (op_block _ o'))) by (rewrite length_op_block; lia).
  apply torn_magic_stops. lia.
Qed.

(** C34. Any single corrupted byte of a logged block is detected: recovery
    stops in front of the corrupted block and rebuilds exactly the index of
    the operations before it. *)
Theorem wal_single_byte_corruption ops o ops' i b b' :
  Forall valid_op ops -> valid_op o -> Z.of_nat (length ops) + 1 < 2 ^ 64 ->
  is_byte b' -> b <> b' -> (i < BLOCK_SIZE)%nat ->
  let d := disk (run (ops ++ o :: ops') fresh) in
  Z.of_nat (length (ops ++ o :: ops')) < 2 ^ 64 ->
  d !! (length ops * BLOCK_SIZE + i)%nat = Some b ->
  let '(ok, s) := open true (WalStorageEngine (<[(length ops * BLOCK_SIZE + i)%nat := b']> d)) in
  ok = true /\ index_ s = foldl spec_apply ∅ ops.
Proof.
  intros Hv Ho Hl Hb' Hne Hi d Hl2 Hd. unfold d in *. rewrite run_fresh in * by done.
  unfold state_of in *. cbn [disk] in *. rewrite log_bytes_app in *. cbn [log_bytes] in *.
  rewrite Z.add_0_l in *. rewrite <- (length_log_bytes 0 ops) in *.
  rewrite lookup_app_r, Nat.add_comm, Nat.add_sub in Hd by lia.
  rewrite lookup_app_l in Hd by (rewrite length_op_block; lia).
  rewrite insert_app_r, insert_app_l by (rewrite length_op_block; lia).
  rewrite open_log; [done|lia|done|].
  eapply corrupt_block_stops; [lia|done|done|exact Hd|done].
Qed.

(** ** Witnesses *)

Definition ex_ops : list wal_op := [OpPut 7 70; OpPut 8 80; OpDel 7].

Lemma ex_ops_valid : Forall valid_op ex_ops.
Proof. repeat constructor; simpl; lia. Qed.

Lemma wal_recovery_witness :
  get 8 (open true (crash (run ex_ops fresh))).2 = Some 80 /\
  get 7 (open true (crash (run ex_ops fresh))).2 = None.
Proof.
  destruct (wal_recovery ex_ops ex_ops_valid ltac:(simpl; lia)) as [Hget ->]. cbn [snd].
  rewrite !Hget. split; vm_compute; reflexivity.
Defined.

Lemma wal_torn_write_witness :
  get 8 (open true (crash (exec (OpPut 8 99) 2000 (run ex_ops fresh)).2)).2 = Some 80.
Proof.
  pose proof (wal_torn_write ex_ops (OpPut 8 99) 2000 ex_ops_valid ltac:(simpl; lia)
                ltac:(unfold BLOCK_SIZE; lia)) as H.
  cbv zeta in H. destruct (exec _ _ _) as [ok s1]. cbn [snd]. destruct (open _ _) as [ok' s2].
  unfold get. cbn [snd]. destruct H as (_ & _ & _ & -> & _). vm_compute. reflexivity.
Defined.

Lemma wal_lost_after_torn_write_witness :
  let s2 := (open true (crash (exec (OpPut 9 90) 3 (run ex_ops fresh)).2)).2 in
  let s3 := (exec (OpPut 5 50) (Z.of_nat BLOCK_SIZE) s2).2 in
  get 5 s3 = Some 50 /\ get 5 (open true (crash s3)).2 = None.
Proof.
  pose proof (wal_lost_after_torn_write ex_ops (OpPut 9 90) (OpPut 5 50) 3 ex_ops_valid
                ltac:(simpl; lia) ltac:(lia)) as H.
  cbv zeta in *. unfold get.
  destruct (exec (OpPut 5 50) _ _) as [ok s3]. cbn [snd]. destruct (open true (crash s3)) as [ok' s4].
  cbn [snd]. destruct H as (_ & -> & _ & ->). split; vm_compute; reflexivity.
Defined.

Lemma wal_single_byte_corruption_witness :
  get 7 (open true (WalStorageEngine
    (<[(2 * BLOCK_SIZE + 40)%nat := 1]> (disk (run ex_ops fresh))))).2 = Some 70.
Proof.
  pose proof (wal_single_byte_corruption [OpPut 7 70; OpPut 8 80] (OpDel 7) [] 40 0 1
    ltac:(repeat constructor; simpl; lia) ltac:(simpl; lia) ltac:(simpl; lia) ltac:(unfold is_byte; lia)
    ltac:(lia) ltac:(unfold BLOCK_SIZE; lia) ltac:(simpl; lia) ltac:(vm_compute; reflexivity)) as H.
  cbv zeta in H. change ([OpPut 7 70; OpPut 8 80] ++ [OpDel 7]) with ex_ops in H.
  change (length [OpPut 7 70; OpPut 8 80]) with 2%nat in H.
  unfold get. destruct (open _ _) as [ok s]. cbn [snd]. destruct H as [_ ->]. reflexivity.
Defined.
End Wal.
