(* ===== verification/Ostream.v ===== *)
(** * Formatted output

    The part of [std::ostream] the printing functions use: base, width, fill
    character and adjustment, which persist between insertions except for the
    width, and the text written so far.  Characters are their codes; doubles are
    printed in fixed notation. *)

From Stdlib Require Import String Ascii Floats.SpecFloat.
From S2P Require Import Prelude Logger.

#[local] Open Scope Z_scope.
#[local] Open Scope cpp_scope.

Module Fmt.

Abbreviation chars := Logger.chars.

(** ** Numbers as text *)

Definition hex_digit (d : Z) : Z := if d <? 10 then 48 + d else 87 + d.

Fixpoint digits (fuel : nat) (b v : Z) (acc : list Z) : list Z :=
  match fuel with
  | O => acc
  | S fuel => let acc := hex_digit (v mod b) :: acc in if v / b =? 0 then acc else digits fuel b (v / b) acc
  end.

(** An unsigned 64-bit number has at most 20 digits in base 10 or 16. *)
Definition show (b v : Z) : list Z := digits 20 b v [].

(** The quotient rounded to the nearest integer, halves to the even one. *)
Definition div_nearest (a b : Z) : Z :=
  let q := a / b in
  match 2 * (a mod b) ?= b with Lt => q | Gt => q + 1 | Eq => if Z.even q then q else q + 1 end.

(** [v / 10^p] with [p] decimals; the integer part of a double has at most 309 digits. *)
Definition decimals (p : nat) (v : Z) : list Z :=
  let frac := digits 330 10 (v mod 10 ^ Z.of_nat p) [] in
  digits 330 10 (v / 10 ^ Z.of_nat p) [] ++
  match p with O => [] | _ => [46] ++ replicate (p - length frac) 48 ++ frac end.

(** A double with [std::fixed] and [p] decimals. *)
Definition show_fixed (p : nat) (x : spec_float) : list Z :=
  let sign (s : bool) := if s then [45] else [] in
  match x with
  | S754_nan => chars "nan"
  | S754_infinity s => sign s ++ chars "inf"
  | S754_zero s => sign s ++ decimals p 0
  | S754_finite s m e =>
      sign s ++ decimals p (if 0 <=? e then Z.pos m * 2 ^ e * 10 ^ Z.of_nat p else div_nearest (Z.pos m * 10 ^ Z.of_nat p) (2 ^ (- e)))
  end.

(** ** Streams *)

(** The formatting state of a stream and the text written so far. *)
Record ostream := mk_os { base : Z; width : nat; fill : Z; left_adj : bool; text : list Z }.

Inductive item :=
| I_str (s : list Z) | I_num (v : Z) | I_fixed (p : nat) (x : spec_float)
| I_hex | I_dec | I_left | I_right | I_setw (n : nat) | I_setfill (c : Z).

(** Text is padded to the width, which is then reset. *)
Definition put (s : list Z) (os : ostream) : ostream :=
  let pad := replicate (width os - length s) (fill os) in
  mk_os (base os) 0 (fill os) (left_adj os) (text os ++ (if left_adj os then s ++ pad else pad ++ s)).

Definition out (os : ostream) (i : item) : ostream :=
  match i with
  | I_str s => put s os
  | I_num v => put (show (base os) v) os
  | I_fixed p x => put (show_fixed p x) os
  | I_hex => mk_os 16 (width os) (fill os) (left_adj os) (text os)
  | I_dec => mk_os 10 (width os) (fill os) (left_adj os) (text os)
  | I_left => mk_os (base os) (width os) (fill os) true (text os)
  | I_right => mk_os (base os) (width os) (fill os) false (text os)
  | I_setw n => mk_os (base os) n (fill os) (left_adj os) (text os)
  | I_setfill c => mk_os (base os) (width os) c (left_adj os) (text os)
  end.

Definition outs (os : ostream) (l : list item) : ostream := foldl out os l.

Definition nl : list Z := [10].
Definition I_lit (s : string) : item := I_str (chars s).
End Fmt.
