(* ===== verification/FutexDemo.v ===== *)
(** * The demonstration of the futex mutex

    [main] of shm_futex_sync.cpp: it maps the shared counter, forks four
    processes that increment it under [FutexMutex], waits for them and reports.
    The outcomes of the system calls are arguments; [NDEBUG] says whether the
    assertion is compiled. *)

From Stdlib Require Import String Ascii.
From S2P Require Import Prelude Futex Logger Ostream.

#[local] Open Scope Z_scope.
#[local] Open Scope cpp_scope.

Module FutexDemo.

Import Fmt.

Definition NUM_PROCESSES : nat := 4.
Definition INCREMENTS_PER_PROCESS : nat := Z.to_nat 250000.
Definition expected_total : Z := Z.of_nat NUM_PROCESSES *64 Z.of_nat INCREMENTS_PER_PROCESS.

Definition rule : list Z := replicate 72 61 ++ nl.

Definition title (os : ostream) : ostream :=
  outs os [I_str rule; I_str (chars " Multi-Process Shared Memory Synchronization with Linux Futex (C++20)" ++ nl); I_str (rule ++ nl)].

(** How the program ends, with the text on the standard output. *)
Inductive ending := Return (code : Z) (stdout : ostream) (stderr : list Z) | Assertion_failed (stdout : ostream).

(** Mapping the counter: the first call that fails ends the program. *)
Definition map_counter (shm_open ftruncate mmap : bool) (os : ostream) : ending + ostream :=
  if negb shm_open then inl (Return 1 os (chars "shm_open failed!" ++ nl)) else
  if negb ftruncate then inl (Return 1 os (chars "ftruncate failed!" ++ nl)) else
  if negb mmap then inl (Return 1 os (chars "mmap failed!" ++ nl)) else inr os.

Definition announce (os : ostream) : ostream :=
  outs os [I_lit "Forking "; I_num (Z.of_nat NUM_PROCESSES); I_lit " processes (each incrementing "; I_num 250000;
           I_str (chars " times under FutexMutex)..." ++ nl)].

(** The loop of forks: a failed one is taken for the parent's side of a
    successful one.  The children start on the shared counter. *)
Fixpoint fork_loop (forks : list bool) (children : nat) : nat :=
  match forks with [] => children | ok :: forks => fork_loop forks (if ok then S children else children) end.

Definition start (forks : list bool) : Futex.cfg := Futex.init (fork_loop forks 0) INCREMENTS_PER_PROCESS.

(** After the waits. *)
Definition report (NDEBUG : bool) (counter : Z) (os : ostream) : ending :=
  let os := outs os [I_str (chars "All child processes finished." ++ nl); I_lit "Final Shared Counter Value: "; I_num counter;
                     I_lit " (Expected: "; I_num expected_total; I_str (chars ")" ++ nl)] in
  if negb NDEBUG && negb (counter =? expected_total) then Assertion_failed os else
  Return 0 (outs os [I_str (chars ">>> Multi-Process Futex Synchronization Succeeded with Zero Data Races! <<<" ++ nl)]) [].

(** [main], given the state [s] in which the children left the shared memory. *)
Definition main (shm_open ftruncate mmap NDEBUG : bool) (s : Futex.cfg) (os : ostream) : ending :=
  match map_counter shm_open ftruncate mmap (title os) with
  | inl e => e
  | inr os => report NDEBUG (Futex.counter s) (announce os)
  end.

Definition cout : ostream := mk_os 10 0 32 false [].

Lemma fork_loop_count forks : forall n, fork_loop forks n = (n + length (List.filter Datatypes.id forks))%nat.
Proof. induction forks as [|[] l IH]; intros n; cbn; rewrite ?IH; cbn; lia. Qed.

(** The children that were forked left their increments behind. *)
Lemma children_counter forks s :
  rtc Futex.run (start forks) s -> Forall Futex.finished (Futex.procs s) -> (length forks <= NUM_PROCESSES)%nat ->
  Futex.counter s = 250000 * Z.of_nat (length (List.filter Datatypes.id forks)).
Proof.
  intros Hr Hf Hl. rewrite (Futex.finished_counter _ _ _ Hr Hf), fork_loop_count. unfold INCREMENTS_PER_PROCESS, NUM_PROCESSES in *.
  assert (length (List.filter Datatypes.id forks) <= length forks)%nat by (clear; induction forks as [|[] l IH]; cbn; lia).
  rewrite Nat2Z.inj_mul, Z2Nat.id by lia. rewrite wrap_small; lia.
Qed.

(** When all children have exited, the program ends as follows: with four
    successful forks it prints the expected value and the message of success
    and returns 0, however the children interleaved; if a fork failed, the
    increments of the missing child are missing, the assertion fails, and a
    build without assertions reports success all the same. *)
Theorem futex_demo forks NDEBUG s :
  length forks = NUM_PROCESSES -> rtc Futex.run (start forks) s -> Forall Futex.finished (Futex.procs s) ->
  Futex.counter s = 250000 * Z.of_nat (length (List.filter Datatypes.id forks)) /\
  (Forall (fun ok => ok = true) forks -> exists os, main true true true NDEBUG s cout = Return 0 os []) /\
  (Exists (fun ok => ok = false) forks ->
     Futex.counter s <> expected_total /\
     (exists os, main true true true false s cout = Assertion_failed os) /\
     (exists os, main true true true true s cout = Return 0 os [])).
Proof.
  intros Hn Hr Hf. pose proof (children_counter forks s Hr Hf ltac:(lia)) as Hc. split; [done|].
  assert (E : expected_total = 1000000) by reflexivity. split.
  - intros Hall. assert (length (List.filter Datatypes.id forks) = 4%nat) as E4.
    { replace (List.filter Datatypes.id forks) with forks; [done|]. clear -Hall. induction Hall as [|b l -> _ IH]; cbn; [done|by rewrite <- IH]. }
    rewrite E4 in Hc. unfold main, report. cbn [map_counter negb]. rewrite Hc, E, andb_false_r. by eexists.
  - intros Hex. assert (length (List.filter Datatypes.id forks) < length forks)%nat as Hlt.
    { clear -Hex. induction Hex as [b l ->|[] l _ IH]; cbn; try lia. clear. induction l as [|[] l IH]; cbn; lia. }
    assert (Futex.counter s <> 1000000) as Hne by (rewrite Hc; unfold NUM_PROCESSES in *; lia). rewrite E. split; [done|].
    unfold main, report. cbn [map_counter negb andb]. rewrite E, (proj2 (Z.eqb_neq _ _) Hne). split; by eexists.
Qed.

(** ** One schedule: the children run one after the other *)

Section sequential.
Import Futex.

Lemma one_increment s i n :
  state_ s = 0 -> procs s !! i = Some (mkp Idle (S n)) ->
  rtc run s (mk 0 (counter s +64 1) (<[i := mkp Idle n]> (procs s))).
Proof.
  intros H0 Hi. pose proof (lookup_lt_Some _ _ _ Hi) as Hlt.
  assert (A : forall st c l p st' c' p', (i < length l)%nat -> l !! i = Some p -> act (mk st c l) p = Some (st', c', p') -> run (mk st c l) (mk st' c' (<[i := p']> l))).
  { intros. left. by eapply (st_act (mk _ _ _)). }
  destruct s as [st c l]. cbn in *. subst st.
  eapply rtc_l; [eapply A; [done|exact Hi|reflexivity]|]. cbn [todo state_ counter].
  eapply rtc_l; [eapply A; [by rewrite length_insert|by apply list_lookup_insert_eq|reflexivity]|]. rewrite list_insert_insert_eq.
  eapply rtc_l; [eapply A; [by rewrite length_insert|by apply list_lookup_insert_eq|reflexivity]|]. rewrite list_insert_insert_eq.
  eapply rtc_l; [eapply A; [by rewrite length_insert|by apply list_lookup_insert_eq|reflexivity]|]. rewrite list_insert_insert_eq.
  eapply rtc_l; [eapply A; [by rewrite length_insert|by apply list_lookup_insert_eq|reflexivity]|]. rewrite list_insert_insert_eq.
  apply rtc_refl.
Qed.

Lemma one_child i n : forall s, state_ s = 0 -> procs s !! i = Some (mkp Idle n) ->
  exists c, rtc run s (mk 0 c (<[i := mkp Idle 0]> (procs s))).
Proof.
  induction n as [|n IH]; intros s H0 Hi.
  - exists (counter s). rewrite list_insert_id by done. destruct s as [st c l]. cbn in *. subst st. apply rtc_refl.
  - pose proof (lookup_lt_Some _ _ _ Hi) as Hlt. pose proof (one_increment s i n H0 Hi) as H1.
    destruct (IH (mk 0 (counter s +64 1) (<[i := mkp Idle n]> (procs s)))) as [c H2]; [done|by apply list_lookup_insert_eq|].
    exists c. cbn [procs] in H2. rewrite list_insert_insert_eq in H2. by etrans.
Qed.

Lemma all_children n k : forall done c, exists c',
  rtc run (mk 0 c (replicate done (mkp Idle 0) ++ replicate k (mkp Idle n))) (mk 0 c' (replicate (done + k) (mkp Idle 0))).
Proof.
  induction k as [|k IH]; intros d c; [rewrite Nat.add_0_r, app_nil_r; eauto using rtc_refl|].
  destruct (one_child d n (mk 0 c (replicate d (mkp Idle 0) ++ replicate (S k) (mkp Idle n)))) as [c1 H1]; [done|cbn; by rewrite list_lookup_middle by (by rewrite length_replicate)|].
  cbn [procs replicate] in H1. rewrite insert_app_r_alt, length_replicate, Nat.sub_diag in H1 by (rewrite length_replicate; lia). cbn in H1.
  destruct (IH (S d) c1) as [c' H2]. exists c'. etrans; [exact H1|]. rewrite cons_middle, app_assoc, <- (replicate_cons_app d).
  by replace (d + S k)%nat with (S d + k)%nat by lia.
Qed.
End sequential.

Lemma children_can_finish forks : exists s, rtc Futex.run (start forks) s /\ Forall Futex.finished (Futex.procs s).
Proof.
  destruct (all_children INCREMENTS_PER_PROCESS (fork_loop forks 0) 0 0) as [c H]. eexists. split; [exact H|].
  apply Forall_replicate. done.
Qed.

Lemma futex_demo_witness :
  exists s, rtc Futex.run (start [true; false; true; true]) s /\ Futex.counter s = 750000 /\
    exists os, main true true true true s cout = Return 0 os [].
Proof.
  destruct (children_can_finish [true; false; true; true]) as (s & Hr & Hf).
  destruct (futex_demo [true; false; true; true] true s eq_refl Hr Hf) as (Hc & _ & Hx).
  exists s. split; [exact Hr|]. split; [exact Hc|]. apply Hx. right. left. reflexivity.
Defined.
End FutexDemo.
