(* ===== verification/Elf.v ===== *)
(** * The ELF inspector

    Model of [Elf64Inspector] (01-os-abi, elf_inspector.hpp): the parser of
    the ELF64 header, the program headers and the section headers, on the
    bytes of the file.  Reading outside the buffer has no result, so that
    [parse] is partial where the code would run out of bounds.  The report of
    [print_summary] is written to a stream with the formatting state of
    [std::ostream]. *)

From Stdlib Require Import String Ascii.
From S2P Require Import Prelude Bytes SSTable Logger Ostream.

#[local] Open Scope Z_scope.
#[local] Open Scope cpp_scope.

Module Elf.

Import Fmt.

Abbreviation chars := Logger.chars.

(** ** The structures of the file *)

Record Elf64_Ehdr := mk_ehdr {
  e_ident : list Z; e_type : Z; e_machine : Z; e_version : Z; e_entry : Z; e_phoff : Z; e_shoff : Z; e_flags : Z;
  e_ehsize : Z; e_phentsize : Z; e_phnum : Z; e_shentsize : Z; e_shnum : Z; e_shstrndx : Z }.

Record Elf64_Phdr := mk_phdr {
  p_type : Z; p_flags : Z; p_offset : Z; p_vaddr : Z; p_paddr : Z; p_filesz : Z; p_memsz : Z; p_align : Z }.

Record Elf64_Shdr := mk_shdr {
  sh_name : Z; sh_type : Z; sh_flags : Z; sh_addr : Z; sh_offset : Z; sh_size : Z; sh_link : Z; sh_info : Z;
  sh_addralign : Z; sh_entsize : Z }.

Definition sizeof_Ehdr : nat := 64.
Definition sizeof_Phdr : nat := 56.
Definition sizeof_Shdr : nat := 64.

Definition decode_ehdr (b : list Z) : Elf64_Ehdr :=
  mk_ehdr (sub_bytes 0 16 b) (load_le 2 16 b) (load_le 2 18 b) (load_le 4 20 b) (load_le 8 24 b) (load_le 8 32 b)
    (load_le 8 40 b) (load_le 4 48 b) (load_le 2 52 b) (load_le 2 54 b) (load_le 2 56 b) (load_le 2 58 b)
    (load_le 2 60 b) (load_le 2 62 b).

Definition decode_phdr (b : list Z) : Elf64_Phdr :=
  mk_phdr (load_le 4 0 b) (load_le 4 4 b) (load_le 8 8 b) (load_le 8 16 b) (load_le 8 24 b) (load_le 8 32 b)
    (load_le 8 40 b) (load_le 8 48 b).

Definition decode_shdr (b : list Z) : Elf64_Shdr :=
  mk_shdr (load_le 4 0 b) (load_le 4 4 b) (load_le 8 8 b) (load_le 8 16 b) (load_le 8 24 b) (load_le 8 32 b)
    (load_le 4 40 b) (load_le 4 44 b) (load_le 8 48 b) (load_le 8 56 b).

(** ** The results *)

Record SegmentFlags := mk_flags { read : bool; write : bool; execute : bool }.

Definition to_string (f : SegmentFlags) : list Z :=
  (if read f then chars "R" else chars "-") ++ (if write f then chars "W" else chars "-") ++
  (if execute f then chars "X" else chars "-").

Record ProgramSegment := mk_seg {
  seg_type : Z; type_name : list Z; flags : SegmentFlags; file_offset : Z; vaddr : Z; paddr : Z; file_size : Z;
  mem_size : Z; align : Z }.

Record SectionInfo := mk_sec {
  name : list Z; sec_type : Z; sec_type_name : list Z; sec_flags : Z; flags_str : list Z; sec_vaddr : Z;
  sec_file_offset : Z; sec_size : Z; sec_align : Z }.

Definition get_segment_type_name (type : Z) : list Z :=
  match type with
  | 0 => chars "PT_NULL" | 1 => chars "PT_LOAD" | 2 => chars "PT_DYNAMIC" | 3 => chars "PT_INTERP"
  | 4 => chars "PT_NOTE" | 5 => chars "PT_SHLIB" | 6 => chars "PT_PHDR" | 7 => chars "PT_TLS"
  | 0x6474e550 => chars "PT_GNU_EH_FRAME" | 0x6474e551 => chars "PT_GNU_STACK"
  | 0x6474e552 => chars "PT_GNU_RELRO" | 0x6474e553 => chars "PT_GNU_PROPERTY"
  | _ => chars "PT_OTHER (0x" ++ show 10 type ++ chars ")"
  end.

Definition get_section_type_name (type : Z) : list Z :=
  match type with
  | 0 => chars "SHT_NULL" | 1 => chars "SHT_PROGBITS" | 2 => chars "SHT_SYMTAB" | 3 => chars "SHT_STRTAB"
  | 4 => chars "SHT_RELA" | 5 => chars "SHT_HASH" | 6 => chars "SHT_DYNAMIC" | 7 => chars "SHT_NOTE"
  | 8 => chars "SHT_NOBITS" | 9 => chars "SHT_REL" | 11 => chars "SHT_DYNSYM" | 14 => chars "SHT_INIT_ARRAY"
  | 15 => chars "SHT_FINI_ARRAY" | 0x6ffffff6 => chars "SHT_GNU_HASH" | 0x6ffffffd => chars "SHT_GNU_verdef"
  | 0x6ffffffe => chars "SHT_GNU_verneed" | 0x6fffffff => chars "SHT_GNU_versym"
  | _ => chars "SHT_OTHER"
  end.

Definition has (fl mask : Z) : bool := negb (Z.land fl mask =? 0).

Definition get_section_flags_str (fl : Z) : list Z :=
  chars "[" ++
  (if has fl 1 then chars "W" else []) ++ (if has fl 2 then chars "A" else []) ++ (if has fl 4 then chars "X" else []) ++
  (if has fl 16 then chars "M" else []) ++ (if has fl 32 then chars "S" else []) ++ (if has fl 64 then chars "I" else []) ++
  (if has fl 128 then chars "L" else []) ++ (if has fl 256 then chars "O" else []) ++ (if has fl 512 then chars "G" else []) ++
  (if has fl 1024 then chars "T" else []) ++ chars "]".

Definition get_elf_type_name (type : Z) : list Z :=
  match type with
  | 0 => chars "NONE (Unknown)" | 1 => chars "REL (Relocatable object)" | 2 => chars "EXEC (Executable)"
  | 3 => chars "DYN (Position-Independent Executable / Shared Object)" | 4 => chars "CORE (Core dump)"
  | _ => chars "OTHER"
  end.

Definition get_machine_name (machine : Z) : list Z :=
  match machine with
  | 62 => chars "Advanced Micro Devices X86-64" | 3 => chars "Intel 80386" | 183 => chars "ARM AArch64"
  | _ => chars "Unknown Machine"
  end.

(** ** Parsing *)

(** [memcpy] of [n] bytes from the buffer at [off]. *)
Definition fetch (n : nat) (off : Z) (buf : list Z) : option (list Z) :=
  if off + Z.of_nat n <=? Z.of_nat (length buf) then Some (sub_bytes (Z.to_nat off) n buf) else None.

(** A C string in the buffer: up to the first zero byte. *)
Fixpoint cstr (bs : list Z) : option (list Z) :=
  match bs with
  | [] => None
  | b :: bs => if b =? 0 then Some [] else cons b <$> cstr bs
  end.

Definition cstr_at (off : Z) (buf : list Z) : option (list Z) :=
  if off <? Z.of_nat (length buf) then cstr (drop (Z.to_nat off) buf) else None.

Definition segment_of (p : Elf64_Phdr) : ProgramSegment :=
  mk_seg (p_type p) (get_segment_type_name (p_type p))
    (mk_flags (has (p_flags p) 4) (has (p_flags p) 2) (has (p_flags p) 1))
    (p_offset p) (p_vaddr p) (p_paddr p) (p_filesz p) (p_memsz p) (p_align p).

Definition section_of (nm : list Z) (s : Elf64_Shdr) : SectionInfo :=
  mk_sec nm (sh_type s) (get_section_type_name (sh_type s)) (sh_flags s) (get_section_flags_str (sh_flags s)) (sh_addr s)
    (sh_offset s) (sh_size s) (sh_addralign s).

Definition table_end (off num : Z) (sz : nat) : Z := off +64 (num *64 Z.of_nat sz).

(** Entry [i] of a table at [off]. *)
Definition fetch_entry (sz : nat) (off : Z) (buf : list Z) (i : nat) : option (list Z) :=
  fetch sz (off +64 (Z.of_nat i *64 Z.of_nat sz)) buf.

Definition parse_program_headers (buf : list Z) (h : Elf64_Ehdr) : option (list ProgramSegment) :=
  if (e_phoff h =? 0) || (e_phnum h =? 0) then Some [] else
  if Z.of_nat (length buf) <? table_end (e_phoff h) (e_phnum h) sizeof_Phdr then Some [] else
  mapM (fun i => b ← fetch_entry sizeof_Phdr (e_phoff h) buf i; Some (segment_of (decode_phdr b)))
    (seq 0 (Z.to_nat (e_phnum h))).

(** The offset of the section names, if there is a string table. *)
Definition find_strtab (buf : list Z) (h : Elf64_Ehdr) : option (option Z) :=
  if e_shstrndx h <? e_shnum h then
    b ← fetch_entry sizeof_Shdr (e_shoff h) buf (Z.to_nat (e_shstrndx h));
    let strtab_hdr := decode_shdr b in
    Some (if sh_offset strtab_hdr +64 sh_size strtab_hdr <=? Z.of_nat (length buf) then Some (sh_offset strtab_hdr) else None)
  else Some None.

(** The name starts at the address of the buffer plus two offsets, modulo 2^64
    as the machine adds them: [sh_offset] is only checked by a sum that wraps
    around. *)
Definition parse_section (buf : list Z) (strtab : option Z) (s : Elf64_Shdr) : option SectionInfo :=
  nm ← match strtab with
       | Some o => if sh_name s =? 0 then Some [] else cstr_at (o +64 sh_name s) buf
       | None => Some []
       end;
  Some (section_of nm s).

Definition parse_section_headers (buf : list Z) (h : Elf64_Ehdr) : option (list SectionInfo) :=
  if (e_shoff h =? 0) || (e_shnum h =? 0) then Some [] else
  if Z.of_nat (length buf) <? table_end (e_shoff h) (e_shnum h) sizeof_Shdr then Some [] else
  strtab ← find_strtab buf h;
  mapM (fun i => b ← fetch_entry sizeof_Shdr (e_shoff h) buf i; parse_section buf strtab (decode_shdr b))
    (seq 0 (Z.to_nat (e_shnum h))).

Record t := mk {
  buffer_ : list Z; header_ : Elf64_Ehdr; segments_ : list ProgramSegment; sections_ : list SectionInfo; is_valid_ : bool }.

Definition zero_ehdr : Elf64_Ehdr := decode_ehdr (replicate 64 0).

Definition magic_ok (h : Elf64_Ehdr) : bool := bool_decide (take 4 (e_ident h) = [127; 69; 76; 70]).
Definition class64 (h : Elf64_Ehdr) : bool := bool_decide (e_ident h !! 4%nat = Some 2).

Definition parse (buf : list Z) : option t :=
  if (length buf <? sizeof_Ehdr)%nat then Some (mk buf zero_ehdr [] [] false) else
  b ← fetch sizeof_Ehdr 0 buf;
  let h := decode_ehdr b in
  if negb (magic_ok h) then Some (mk buf h [] [] false) else
  if negb (class64 h) then Some (mk buf h [] [] false) else
  segs ← parse_program_headers buf h;
  secs ← parse_section_headers buf h;
  Some (mk buf h segs secs true).

Definition Elf64Inspector (buf : list Z) : option t := parse buf.

Inductive file_error := open_failed (path : list Z) | too_long | read_failed (path : list Z).

(** [opened] tells whether the file opened, [pos] is the result of [tellg]
    (negative on failure) and [data] what [read] delivers; a [vector] holds at
    most [2^63 - 1] bytes. *)
Definition from_file (path : list Z) (opened : bool) (pos : Z) (data : list Z) : file_error + option t :=
  if negb opened then inl (open_failed path) else
  let size := u64 pos in
  if 2 ^ 63 - 1 <? size then inl too_long else
  if negb (Z.of_nat (length data) =? size) then inl (read_failed path) else inr (Elf64Inspector data).

Definition is_valid (x : t) : bool := is_valid_ x.
Definition entry_point (x : t) : Z := e_entry (header_ x).
Definition type (x : t) : Z := e_type (header_ x).
Definition machine (x : t) : Z := e_machine (header_ x).
Definition segments (x : t) : list ProgramSegment := segments_ x.
Definition sections (x : t) : list SectionInfo := sections_ x.
(** ** The report *)

Definition double_rule : item := I_str (replicate 72 61 ++ nl).
Definition single_rule : item := I_str (replicate 72 45 ++ nl).

Definition summary_head (h : Elf64_Ehdr) : list item :=
  [double_rule; I_str (chars " ELF64 Binary Inspection Report" ++ nl); double_rule;
   I_lit " Type:             "; I_str (get_elf_type_name (e_type h)); I_lit " (0x"; I_hex; I_num (e_type h); I_str (chars ")" ++ nl);
   I_lit " Machine:          "; I_str (get_machine_name (e_machine h)); I_lit " (0x"; I_num (e_machine h); I_str (chars ")" ++ nl);
   I_lit " Entry Point:      0x"; I_setw 16; I_setfill 48; I_num (e_entry h); I_dec; I_str nl;
   I_lit " Program Headers:  "; I_num (e_phnum h); I_lit " entries (Offset: 0x"; I_hex; I_num (e_phoff h); I_str (chars ")" ++ nl);
   I_lit " Section Headers:  "; I_num (e_shnum h); I_lit " entries (Offset: 0x"; I_num (e_shoff h); I_str (chars ")" ++ nl);
   I_dec; I_str nl].

Definition segment_line (seg : ProgramSegment) : list item :=
  [I_left; I_setw 16; I_setfill 32; I_str (type_name seg); I_lit " "; I_str (to_string (flags seg)); I_lit "  ";
   I_lit "0x"; I_right; I_hex; I_setw 16; I_setfill 48; I_num (file_offset seg); I_lit " ";
   I_lit "0x"; I_setw 16; I_num (vaddr seg); I_lit " ";
   I_dec; I_setw 9; I_setfill 32; I_num (mem_size seg); I_lit " ";
   I_lit "0x"; I_hex; I_num (align seg); I_dec; I_str nl].

Definition section_line (sec : SectionInfo) : list item :=
  [I_left; I_setw 21; I_setfill 32; I_str (if (length (name sec) =? 0)%nat then chars "[NULL]" else name sec); I_lit " ";
   I_setw 16; I_str (sec_type_name sec); I_lit " ";
   I_lit "0x"; I_right; I_hex; I_setw 16; I_setfill 48; I_num (sec_vaddr sec); I_lit " ";
   I_dec; I_setw 10; I_setfill 32; I_num (sec_size sec); I_lit " ";
   I_str (flags_str sec); I_str nl].

Definition print_summary (x : t) (os : ostream) : ostream :=
  if negb (is_valid_ x) then put (chars "[ERROR] Invalid ELF64 binary image." ++ nl) os else
  let os := outs os (summary_head (header_ x)) in
  let os := outs os
    [single_rule; I_str (chars " Program Headers (Runtime Memory Segments)" ++ nl); single_rule;
     I_str (chars " Type           Perm  Offset             VirtAddr           MemSize    Align" ++ nl); single_rule] in
  let os := foldl (fun os seg => outs os (segment_line seg)) os (segments_ x) in
  let os := outs os
    [I_str (nl ++ replicate 72 45 ++ nl); I_str (chars " Section Headers (Linking & Symbol Anatomy)" ++ nl); single_rule;
     I_str (chars " Name                 Type             VirtAddr           Size       Flags" ++ nl); single_rule] in
  let os := foldl (fun os sec => outs os (section_line sec)) os (sections_ x) in
  put (replicate 72 61 ++ nl ++ nl) os.

(** ** Images of the structures *)

Definition ehdr_bytes (h : Elf64_Ehdr) : list Z :=
  e_ident h ++ le_encode 2 (e_type h) ++ le_encode 2 (e_machine h) ++ le_encode 4 (e_version h) ++ le_encode 8 (e_entry h) ++
  le_encode 8 (e_phoff h) ++ le_encode 8 (e_shoff h) ++ le_encode 4 (e_flags h) ++ le_encode 2 (e_ehsize h) ++
  le_encode 2 (e_phentsize h) ++ le_encode 2 (e_phnum h) ++ le_encode 2 (e_shentsize h) ++ le_encode 2 (e_shnum h) ++
  le_encode 2 (e_shstrndx h).

Definition phdr_bytes (p : Elf64_Phdr) : list Z :=
  le_encode 4 (p_type p) ++ le_encode 4 (p_flags p) ++ le_encode 8 (p_offset p) ++ le_encode 8 (p_vaddr p) ++
  le_encode 8 (p_paddr p) ++ le_encode 8 (p_filesz p) ++ le_encode 8 (p_memsz p) ++ le_encode 8 (p_align p).

Definition shdr_bytes (s : Elf64_Shdr) : list Z :=
  le_encode 4 (sh_name s) ++ le_encode 4 (sh_type s) ++ le_encode 8 (sh_flags s) ++ le_encode 8 (sh_addr s) ++
  le_encode 8 (sh_offset s) ++ le_encode 8 (sh_size s) ++ le_encode 4 (sh_link s) ++ le_encode 4 (sh_info s) ++
  le_encode 8 (sh_addralign s) ++ le_encode 8 (sh_entsize s).

Definition word (n : nat) (v : Z) : Prop := 0 <= v < 2 ^ (8 * Z.of_nat n).

Definition ehdr_ok (h : Elf64_Ehdr) : Prop :=
  length (e_ident h) = 16%nat /\
  Forall (word 2) [e_type h; e_machine h; e_ehsize h; e_phentsize h; e_phnum h; e_shentsize h; e_shnum h; e_shstrndx h] /\
  Forall (word 4) [e_version h; e_flags h] /\ Forall (word 8) [e_entry h; e_phoff h; e_shoff h].

Definition phdr_ok (p : Elf64_Phdr) : Prop :=
  Forall (word 4) [p_type p; p_flags p] /\
  Forall (word 8) [p_offset p; p_vaddr p; p_paddr p; p_filesz p; p_memsz p; p_align p].

Definition shdr_ok (s : Elf64_Shdr) : Prop :=
  Forall (word 4) [sh_name s; sh_type s; sh_link s; sh_info s] /\
  Forall (word 8) [sh_flags s; sh_addr s; sh_offset s; sh_size s; sh_addralign s; sh_entsize s].

(** [bs] are the bytes of the buffer at [off]. *)
Definition at_off (off : Z) (bs buf : list Z) : Prop :=
  exists pre post, buf = pre ++ bs ++ post /\ Z.of_nat (length pre) = off.

Ltac words := rewrite ?Forall_cons in *; destruct_and?; unfold word in *.

Lemma length_ehdr_bytes h : length (e_ident h) = 16%nat -> length (ehdr_bytes h) = sizeof_Ehdr.
Proof. intros Hi. unfold ehdr_bytes. rewrite !length_app, !length_le_encode, Hi. done. Qed.

Lemma length_phdr_bytes p : length (phdr_bytes p) = sizeof_Phdr.
Proof. unfold phdr_bytes. by rewrite !length_app, !length_le_encode. Qed.

Lemma length_shdr_bytes s : length (shdr_bytes s) = sizeof_Shdr.
Proof. unfold shdr_bytes. by rewrite !length_app, !length_le_encode. Qed.

Lemma decode_phdr_bytes p : phdr_ok p -> decode_phdr (phdr_bytes p) = p.
Proof.
  intros [H4 H8]. words. unfold decode_phdr, phdr_bytes. rewrite <- (app_nil_r (le_encode 8 (p_align p))).
  SST.load_fields. by destruct p.
Qed.

Lemma decode_shdr_bytes s : shdr_ok s -> decode_shdr (shdr_bytes s) = s.
Proof.
  intros [H4 H8]. words. unfold decode_shdr, shdr_bytes. rewrite <- (app_nil_r (le_encode 8 (sh_entsize s))).
  SST.load_fields. by destruct s.
Qed.

Lemma decode_ehdr_bytes h : ehdr_ok h -> decode_ehdr (ehdr_bytes h) = h.
Proof.
  intros (Hi & H2 & H4 & H8). words. unfold decode_ehdr, ehdr_bytes. rewrite <- (app_nil_r (le_encode 2 (e_shstrndx h))).
  assert (sub_bytes 0 16 (e_ident h ++ (drop 16 (ehdr_bytes h))) = e_ident h) as Hid.
  { unfold sub_bytes. rewrite drop_0. by rewrite take_app_length'. }
  unfold ehdr_bytes in Hid. rewrite drop_app_length' in Hid by done.
  rewrite <- (app_nil_r (le_encode 2 (e_shstrndx h))) in Hid. rewrite Hid. clear Hid.
  assert (forall n off m, (16 <= off)%nat -> load_le n off (e_ident h ++ m) = load_le n (off - 16) m) as Hskip.
  { intros n off m Hoff. rewrite <- (SST.load_le_skip n (off - 16) (e_ident h) m 16 Hi). f_equal. lia. }
  rewrite !Hskip by lia. cbn [Nat.sub]. SST.load_fields. by destruct h.
Qed.

(** ** Reading the buffer *)

Lemma at_off_fits off bs buf : at_off off bs buf -> 0 <= off /\ off + Z.of_nat (length bs) <= Z.of_nat (length buf).
Proof. intros (pre & post & -> & <-). rewrite !length_app. lia. Qed.

Lemma fetch_at off bs buf n : at_off off bs buf -> length bs = n -> fetch n off buf = Some bs.
Proof.
  intros Hat <-. pose proof (at_off_fits _ _ _ Hat). unfold fetch. rewrite (proj2 (Z.leb_le _ _)) by lia.
  destruct Hat as (pre & post & -> & <-). unfold sub_bytes. rewrite Nat2Z.id, drop_app_length. by rewrite take_app_length.
Qed.

Lemma fetch_None n off buf : fetch n off buf = None <-> Z.of_nat (length buf) < off + Z.of_nat n.
Proof. unfold fetch. case_match eqn:E; [apply Z.leb_le in E|apply Z.leb_gt in E]; split; [done|lia|done|done]. Qed.

Lemma fetch_entry_at {A} (f : A -> list Z) (sz : nat) (l : list A) off buf i x :
  (forall y, length (f y) = sz) -> Z.of_nat (length buf) < 2 ^ 63 ->
  at_off off (concat (f <$> l)) buf -> l !! i = Some x -> fetch_entry sz off buf i = Some (f x).
Proof.
  intros Hsz Hlen Hat Hi. pose proof (at_off_fits _ _ _ Hat) as [H0 Hfit].
  rewrite (SST.length_concat_record f sz) in Hfit by done. pose proof (lookup_lt_Some _ _ _ Hi) as Hlt.
  destruct (SST.concat_record f sz l i x Hsz Hi) as (p1 & q1 & Heq & Hp1). unfold fetch_entry.
  rewrite (wrap_small 64 (Z.of_nat i * _)) by nia. rewrite wrap_small by nia.
  apply fetch_at; [|apply Hsz]. destruct Hat as (pre & post & -> & <-). rewrite Heq.
  exists (pre ++ p1), (q1 ++ post). rewrite <- !app_assoc. split; [done|]. rewrite length_app, Hp1. lia.
Qed.

Lemma mapM_seq_lookup {B} (g : nat -> option B) (ys : list B) n :
  length ys = n -> (forall i y, ys !! i = Some y -> g i = Some y) -> mapM g (seq 0 n) = Some ys.
Proof.
  intros <- H. apply mapM_Some, Forall2_same_length_lookup. rewrite length_seq. split; [done|].
  intros i n y Hn Hy. apply lookup_seq in Hn as [-> Hlt]. by apply H.
Qed.

(** A table whose end passes the check of the code lies in the buffer, unless
    the computation of the end wrapped; then no entry at its start does. *)
Lemma table_inside off num (sz : nat) buf :
  word 8 off -> word 2 num -> (0 < sz <= 64)%nat -> table_end off num sz <= Z.of_nat (length buf) < 2 ^ 63 ->
  (off + num * Z.of_nat sz < 2 ^ 64 -> forall i, (i < Z.to_nat num)%nat -> is_Some (fetch_entry sz off buf i)) /\
  (2 ^ 64 <= off + num * Z.of_nat sz -> fetch_entry sz off buf 0 = None).
Proof.
  unfold word, table_end. cbn [Z.of_nat Pos.of_succ_nat Z.mul Pos.mul]. intros Ho Hn Hsz Hend.
  rewrite (wrap_small 64 (num * _)) in Hend by nia. split.
  - intros Hno i Hi. rewrite wrap_small in Hend by nia. unfold fetch_entry.
    rewrite (wrap_small 64 (Z.of_nat i * _)) by nia. rewrite wrap_small by nia.
    apply not_eq_None_Some. rewrite fetch_None. nia.
  - intros Hov. unfold fetch_entry. apply fetch_None. change (Z.of_nat 0) with 0. rewrite Z.mul_0_l, (wrap_small 64 0) by lia.
    rewrite wrap_small by lia. nia.
Qed.

Lemma cstr_defined bs : cstr bs = None <-> (0 ∉ bs).
Proof.
  induction bs as [|b bs IH]; cbn [cstr]; [set_solver|]. rewrite not_elem_of_cons, <- IH.
  destruct (Z.eqb_spec b 0) as [->|Hb]; [naive_solver|]. destruct (cstr bs); cbn; naive_solver.
Qed.

Lemma cstr_terminated nm rest : 0 ∉ nm -> cstr (nm ++ 0 :: rest) = Some nm.
Proof.
  induction nm as [|b nm IH]; [done|]. rewrite not_elem_of_cons. intros [Hb Hnm]. cbn [cstr app].
  rewrite (proj2 (Z.eqb_neq _ _)) by done. by rewrite IH.
Qed.

Lemma cstr_at_off off nm buf : at_off off (nm ++ [0]) buf -> 0 ∉ nm -> cstr_at off buf = Some nm.
Proof.
  intros Hat Hnm. pose proof (at_off_fits _ _ _ Hat) as [_ Hfit]. rewrite length_app in Hfit. cbn [length] in Hfit.
  unfold cstr_at. rewrite (proj2 (Z.ltb_lt _ _)) by lia. destruct Hat as (pre & post & -> & <-).
  rewrite Nat2Z.id, drop_app_length, <- app_assoc. by apply cstr_terminated.
Qed.

(** No zero byte from [off] to the end of the buffer. *)
Definition unterminated (off : Z) (buf : list Z) : Prop := 0 ∉ drop (Z.to_nat off) buf.

Lemma cstr_at_None off buf : 0 <= off -> (cstr_at off buf = None <-> unterminated off buf).
Proof.
  intros H0. unfold cstr_at, unterminated. destruct (Z.ltb_spec off (Z.of_nat (length buf))); [apply cstr_defined|].
  rewrite drop_ge by lia. set_solver.
Qed.

(** ** Well-formed files *)

(** The name of a section, as the string table at [o] has it. *)
Definition named (buf : list Z) (o : Z) (s : Elf64_Shdr) (nm : list Z) : Prop :=
  if sh_name s =? 0 then nm = [] else (0 ∉ nm) /\ at_off (o + sh_name s) (nm ++ [0]) buf.

Record elf_file (buf : list Z) (h : Elf64_Ehdr) (ps : list Elf64_Phdr) (ss : list Elf64_Shdr) (names : list (list Z)) : Prop := {
  ef_len : Z.of_nat (length buf) < 2 ^ 63;
  ef_ehdr : ehdr_ok h /\ at_off 0 (ehdr_bytes h) buf;
  ef_ident : magic_ok h && class64 h = true;
  ef_phnum : e_phnum h = Z.of_nat (length ps);
  ef_phdrs : Forall phdr_ok ps /\ at_off (e_phoff h) (concat (phdr_bytes <$> ps)) buf;
  ef_shnum : e_shnum h = Z.of_nat (length ss);
  ef_shdrs : Forall shdr_ok ss /\ at_off (e_shoff h) (concat (shdr_bytes <$> ss)) buf;
  ef_tables : (0 < e_phoff h \/ ps = []) /\ (0 < e_shoff h \/ ss = []);
  ef_names : ss <> [] -> exists str, ss !! Z.to_nat (e_shstrndx h) = Some str /\
               sh_offset str + sh_size str <= Z.of_nat (length buf) /\ Forall2 (named buf (sh_offset str)) ss names }.

Section parsing.
Context (buf : list Z) (h : Elf64_Ehdr) (ps : list Elf64_Phdr) (ss : list Elf64_Shdr) (names : list (list Z)).
Hypothesis Hf : elf_file buf h ps ss names.

Lemma table_end_at {A} (f : A -> list Z) (sz : nat) (l : list A) off :
  (forall y, length (f y) = sz) -> at_off off (concat (f <$> l)) buf ->
  (Z.of_nat (length buf) <? table_end off (Z.of_nat (length l)) sz) = false.
Proof using Hf.
  intros Hsz Hat. pose proof (ef_len _ _ _ _ _ Hf). apply at_off_fits in Hat as [H0 Hfit].
  rewrite (SST.length_concat_record f sz) in Hfit by done. apply Z.ltb_ge. unfold table_end.
  rewrite (wrap_small 64 (_ * _)) by nia. rewrite wrap_small by nia. nia.
Qed.

Lemma parse_segments : parse_program_headers buf h = Some (segment_of <$> ps).
Proof using Hf.
  destruct Hf as [Hlen _ _ Hn [Hok Hat] _ _ [Htab _] _]. unfold parse_program_headers.
  destruct ((_ =? 0) || _) eqn:E0.
  { assert (ps = []) as ->; [|done]. destruct Htab as [Hoff|]; [|done].
    apply length_zero_iff_nil. apply orb_true_iff in E0 as [?%Z.eqb_eq|?%Z.eqb_eq]; lia. }
  rewrite Hn, (table_end_at phdr_bytes) by (done || apply length_phdr_bytes). rewrite Nat2Z.id.
  apply mapM_seq_lookup; [apply length_fmap|]. intros i y. rewrite list_lookup_fmap, fmap_Some. intros (p & Hp & ->).
  rewrite (fetch_entry_at phdr_bytes _ ps _ _ _ p) by (done || apply length_phdr_bytes). cbn [mbind option_bind].
  by rewrite decode_phdr_bytes by (by eapply Forall_lookup_1).
Qed.

Lemma find_strtab_at str :
  ss !! Z.to_nat (e_shstrndx h) = Some str -> sh_offset str + sh_size str <= Z.of_nat (length buf) ->
  find_strtab buf h = Some (Some (sh_offset str)).
Proof using Hf.
  intros Hstr Hfit. destruct Hf as [Hlen [Hh _] _ _ _ Hn [Hok Hat] _ _]. pose proof (Forall_lookup_1 _ _ _ _ Hok Hstr) as Hs.
  unfold find_strtab. destruct Hh as (_ & Hh2 & _). pose proof (lookup_lt_Some _ _ _ Hstr).
  rewrite (proj2 (Z.ltb_lt _ _)) by (words; lia).
  rewrite (fetch_entry_at shdr_bytes _ ss _ _ _ str) by (done || apply length_shdr_bytes). cbn [mbind option_bind].
  rewrite decode_shdr_bytes by done. destruct Hs as [_ Hs8]. words. rewrite wrap_small by lia.
  by rewrite (proj2 (Z.leb_le _ _)).
Qed.

Lemma parse_section_named o s nm : 0 <= o -> 0 <= sh_name s -> Z.of_nat (length buf) < 2 ^ 63 -> named buf o s nm -> parse_section buf (Some o) s = Some (section_of nm s).
Proof using.
  clear Hf. intros Ho Hs Hlen. unfold named, parse_section. destruct (sh_name s =? 0); [by intros ->|]. intros [Hnm Hat].
  assert (o + sh_name s <= Z.of_nat (length buf)) as Hle.
  { destruct Hat as (pre & post & -> & <-). rewrite !length_app. lia. }
  rewrite wrap_small by lia. by rewrite (cstr_at_off _ nm).
Qed.

Lemma parse_sections : parse_section_headers buf h = Some (zip_with section_of names ss).
Proof using Hf.
  destruct Hf as [Hlen _ _ _ _ Hn [Hok Hat] [_ Htab] Hnames]. unfold parse_section_headers.
  destruct ((_ =? 0) || _) eqn:E0.
  { assert (ss = []) as ->; [|by rewrite zip_with_nil_r]. destruct Htab as [Hoff|]; [|done].
    apply length_zero_iff_nil. apply orb_true_iff in E0 as [?%Z.eqb_eq|?%Z.eqb_eq]; lia. }
  destruct Hnames as (str & Hstr & Hfit & Hnm).
  { intros ->. cbn in Hn. rewrite Hn, Z.eqb_refl, orb_true_r in E0. done. }
  rewrite (find_strtab_at str) by done. cbn [mbind option_bind].
  rewrite Hn, (table_end_at shdr_bytes) by (done || apply length_shdr_bytes). rewrite Nat2Z.id.
  apply mapM_seq_lookup; [rewrite length_zip_with, (Forall2_length _ _ _ Hnm); lia|].
  intros i y. rewrite lookup_zip_with_Some. intros (nm & s & -> & Hni & Hsi).
  rewrite (fetch_entry_at shdr_bytes _ ss _ _ _ s) by (done || apply length_shdr_bytes). cbn [mbind option_bind].
  rewrite decode_shdr_bytes by (by eapply Forall_lookup_1).
  pose proof (Forall_lookup_1 _ _ _ _ Hok Hstr) as [_ Hs8]. pose proof (Forall_lookup_1 _ _ _ _ Hok Hsi) as [Hs4 _]. words.
  apply parse_section_named; [lia|lia|done|]. by eapply Forall2_lookup_lr.
Qed.
End parsing.

(** C27. On a file with an ELF64 header, tables of program and section headers
    anywhere in the file and a string table that holds the name of every
    section, the inspector reads no byte outside the buffer and returns
    exactly the header, the segments and the named sections of the file, in
    order. *)
Theorem elf_roundtrip buf h ps ss names :
  elf_file buf h ps ss names ->
  Elf64Inspector buf = Some (mk buf h (segment_of <$> ps) (zip_with section_of names ss) true).
Proof.
  intros Hf. pose proof (ef_ehdr _ _ _ _ _ Hf) as [Hok Hat]. pose proof (length_ehdr_bytes h (proj1 Hok)) as Hl.
  pose proof (at_off_fits _ _ _ Hat) as [_ Hfit]. rewrite Hl in Hfit. unfold Elf64Inspector, parse.
  rewrite (proj2 (Nat.ltb_ge _ _)) by lia. rewrite (fetch_at _ _ _ _ Hat Hl). cbn [mbind option_bind].
  rewrite decode_ehdr_bytes by done. pose proof (ef_ident _ _ _ _ _ Hf) as [-> ->]%andb_true_iff. cbn [negb].
  rewrite (parse_segments _ _ _ _ _ Hf). cbn [mbind option_bind].
  by rewrite (parse_sections _ _ _ _ _ Hf).
Qed.

(** ** Reads outside the buffer *)

Definition header_of (buf : list Z) : Elf64_Ehdr := decode_ehdr (sub_bytes 0 sizeof_Ehdr buf).

(** The end of the table wraps around to an offset inside the file. *)
Definition table_wraps (off num : Z) (sz : nat) (buf : list Z) : Prop :=
  2 ^ 64 <= off + num * Z.of_nat sz <= 2 ^ 64 + Z.of_nat (length buf).

(** The name of a section runs past the end of the file. *)
Definition unterminated_name (buf : list Z) (h : Elf64_Ehdr) : Prop :=
  e_shoff h <> 0 /\ e_shoff h + e_shnum h * Z.of_nat sizeof_Shdr <= Z.of_nat (length buf) /\
  exists o i b, (i < Z.to_nat (e_shnum h))%nat /\ find_strtab buf h = Some (Some o) /\
    fetch_entry sizeof_Shdr (e_shoff h) buf i = Some b /\ sh_name (decode_shdr b) <> 0 /\
    unterminated (o +64 sh_name (decode_shdr b)) buf.

Lemma load_le_word n off b : Forall is_byte b -> word n (load_le n off b).
Proof.
  intros Hb. unfold load_le, word. pose proof (le_decode_range (sub_bytes off n b)) as H.
  destruct H as [H0 H1]; [by apply Forall_take, Forall_drop|]. split; [done|].
  eapply Z.lt_le_trans; [apply H1|]. apply Z.pow_le_mono_r; [lia|]. unfold sub_bytes. rewrite length_take. lia.
Qed.

Lemma fetch_bytes n off buf b : Forall is_byte buf -> fetch n off buf = Some b -> Forall is_byte b.
Proof. unfold fetch. intros Hb. case_match; [|done]. intros [= <-]. by apply Forall_take, Forall_drop. Qed.

Lemma mapM_seq_None {B} (g : nat -> option B) n : mapM g (seq 0 n) = None <-> exists i, (i < n)%nat /\ g i = None.
Proof.
  rewrite mapM_None, Exists_exists. split.
  - intros (i & Hi & Hg). apply elem_of_seq in Hi. exists i. split; [lia|done].
  - intros (i & Hi & Hg). exists i. rewrite elem_of_seq. split; [lia|done].
Qed.

Section out_of_bounds.
Context (buf : list Z) (h : Elf64_Ehdr).
Hypothesis Hbytes : Forall is_byte buf.
Hypothesis Hlen : Z.of_nat (length buf) < 2 ^ 63.
Hypothesis Hph : word 8 (e_phoff h) /\ word 2 (e_phnum h).
Hypothesis Hsh : word 8 (e_shoff h) /\ word 2 (e_shnum h).

(** The guards of a table either skip it, and then it does not wrap into the
    file, or let the reads happen. *)
Lemma table_guards off num (sz : nat) :
  word 8 off -> word 2 num -> (0 < sz <= 64)%nat ->
  ((off =? 0) || (num =? 0) = true \/ (Z.of_nat (length buf) <? table_end off num sz) = true) ->
  ~ table_wraps off num sz buf.
Proof using Hlen.
  unfold word, table_wraps, table_end. cbn [Z.of_nat Pos.of_succ_nat Z.mul Pos.mul]. intros Ho Hn Hsz Hg Hw.
  rewrite orb_true_iff, !Z.eqb_eq, Z.ltb_lt, (wrap_small 64 (num * _)) in Hg by nia.
  destruct Hg as [[-> | ->]|Hg]; [nia|lia|]. revert Hg. unfold wrap.
  rewrite <- (Z.mod_unique _ _ 1 (off + num * Z.of_nat sz - 2 ^ 64)); nia.
Qed.

Lemma table_no_wrap off num (sz : nat) :
  word 8 off -> word 2 num -> (0 < sz <= 64)%nat -> table_end off num sz <= Z.of_nat (length buf) ->
  ~ table_wraps off num sz buf -> off + num * Z.of_nat sz <= Z.of_nat (length buf).
Proof using Hlen.
  unfold word, table_wraps, table_end. cbn [Z.of_nat Pos.of_succ_nat Z.mul Pos.mul]. intros Ho Hn Hsz Hend Hw.
  rewrite (wrap_small 64 (num * _)) in Hend by nia.
  destruct (decide (off + num * Z.of_nat sz < 2 ^ 64)); [by rewrite wrap_small in Hend by nia|].
  exfalso. apply Hw. revert Hend. unfold wrap.
  rewrite <- (Z.mod_unique _ _ 1 (off + num * Z.of_nat sz - 2 ^ 64)) by nia. nia.
Qed.

Lemma segments_out : parse_program_headers buf h = None <-> table_wraps (e_phoff h) (e_phnum h) sizeof_Phdr buf.
Proof using Hlen Hph.
  clear Hsh. destruct Hph as [Ho Hn]. pose proof (table_guards _ _ sizeof_Phdr Ho Hn ltac:(cbv; lia)) as Hg.
  unfold parse_program_headers. destruct ((_ =? 0) || _) eqn:E0; [split; [done|intros []%Hg; by left]|].
  destruct (_ <? _) eqn:E1; [split; [done|intros []%Hg; by right]|]. clear Hg. apply Z.ltb_ge in E1.
  pose proof (table_inside _ _ sizeof_Phdr buf Ho Hn ltac:(cbv; lia) (conj E1 Hlen)) as [Hin Hout].
  pose proof (table_no_wrap _ _ sizeof_Phdr Ho Hn ltac:(cbv; lia) E1) as Hnw. rewrite mapM_seq_None. split.
  - intros (i & Hi & Hg). destruct (decide (table_wraps (e_phoff h) (e_phnum h) sizeof_Phdr buf)) as [|Hw]; [done|].
    destruct (Hin ltac:(specialize (Hnw Hw); lia) i Hi) as [b Hb]. by rewrite Hb in Hg.
  - intros Hw. exists 0%nat. rewrite Hout by apply Hw. split; [|done]. unfold table_wraps, word in *. cbn in Ho. lia.
Qed.

Lemma parse_section_None st s :
  0 <= sh_name s -> (forall o, st = Some o -> 0 <= o) ->
  (parse_section buf st s = None <-> exists o, st = Some o /\ sh_name s <> 0 /\ unterminated (o +64 sh_name s) buf).
Proof using.
  clear Hph Hsh. intros Hs Ho. unfold parse_section. destruct st as [o|]; [|cbn; naive_solver]. specialize (Ho o eq_refl).
  destruct (Z.eqb_spec (sh_name s) 0); [cbn; naive_solver|].
  pose proof (cstr_at_None (o +64 sh_name s) buf ltac:(apply wrap_range; lia)) as Hc. destruct (cstr_at _ buf); cbn; naive_solver.
Qed.

Lemma find_strtab_nonneg o : find_strtab buf h = Some (Some o) -> 0 <= o.
Proof using Hbytes.
  unfold find_strtab. case_match; [|done]. destruct (fetch_entry _ _ _ _) as [b|] eqn:Hb; [|done].
  cbn [mbind option_bind]. case_match; [|done]. intros [= <-]. apply fetch_bytes in Hb; [|done].
  apply (load_le_word 8 24 b Hb).
Qed.

Lemma sections_out :
  parse_section_headers buf h = None <->
  table_wraps (e_shoff h) (e_shnum h) sizeof_Shdr buf \/ unterminated_name buf h.
Proof using Hbytes Hlen Hsh.
  clear Hph. destruct Hsh as [Ho Hn]. pose proof (table_guards _ _ sizeof_Shdr Ho Hn ltac:(cbv; lia)) as Hg.
  unfold parse_section_headers, unterminated_name. destruct ((_ =? 0) || _) eqn:E0.
  { split; [done|]. intros [[]%Hg|(Hz & _ & o & i & b & Hi & _)]; [by left|].
    apply orb_true_iff in E0 as [?%Z.eqb_eq|?%Z.eqb_eq]; lia. }
  apply orb_false_iff in E0 as [Hoff%Z.eqb_neq Hnum%Z.eqb_neq]. destruct (_ <? _) eqn:E1.
  { split; [done|]. intros [[]%Hg|(_ & Hend & _)]; [by right|]. exfalso. apply Z.ltb_lt in E1. revert E1. unfold table_end, word in *.
    cbn [Z.of_nat Pos.of_succ_nat Z.mul Pos.mul] in Ho, Hn. unfold sizeof_Shdr in *.
    rewrite (wrap_small 64 (_ * _)) by lia. rewrite wrap_small by lia. lia. }
  clear Hg. apply Z.ltb_ge in E1.
  pose proof (table_inside _ _ sizeof_Shdr buf Ho Hn ltac:(cbv; lia) (conj E1 Hlen)) as [Hin Hout].
  pose proof (table_no_wrap _ _ sizeof_Shdr Ho Hn ltac:(cbv; lia) E1) as Hnw.
  destruct (decide (table_wraps (e_shoff h) (e_shnum h) sizeof_Shdr buf)) as [Hw|Hw].
  { split; [by left|]. intros _. destruct (find_strtab buf h) as [st|]; [|done]. cbn [mbind option_bind].
    apply mapM_seq_None. exists 0%nat. rewrite Hout by apply Hw. split; [|done]. unfold word in Hn. lia. }
  specialize (Hnw Hw). specialize (Hin ltac:(lia)). destruct (find_strtab buf h) as [st|] eqn:Hst.
  2: { exfalso. revert Hst. unfold find_strtab. destruct (Z.ltb_spec (e_shstrndx h) (e_shnum h)); [|done].
       destruct (Hin (Z.to_nat (e_shstrndx h))) as [b Hb]; [unfold word in Hn; lia|]. by rewrite Hb. }
  cbn [mbind option_bind]. rewrite mapM_seq_None. split.
  - intros (i & Hi & Hg). right. destruct (Hin i Hi) as [b Hb]. rewrite Hb in Hg. cbn [mbind option_bind] in Hg.
    apply parse_section_None in Hg as (o & -> & Hname & Hu); [by eauto 12|apply load_le_word; by eapply fetch_bytes|].
    intros o ->. by apply find_strtab_nonneg.
  - intros [?|(_ & _ & o & i & b & Hi & [= ->] & Hb & Hname & Hu)]; [done|]. exists i. split; [done|]. rewrite Hb.
    apply parse_section_None; [apply load_le_word; by eapply fetch_bytes| |by eauto].
    intros o' [= <-]. by apply find_strtab_nonneg.
Qed.
End out_of_bounds.

(** C28. On a file with the ELF64 identification, the inspector reads outside
    its buffer exactly when the end of a header table wraps around 64 bits
    back into the file, or when the name of a section, which starts at a sum
    modulo 2^64, has no zero byte between its start and the end of the file. *)
Theorem elf_out_of_bounds buf :
  Forall is_byte buf -> (sizeof_Ehdr <= length buf)%nat -> Z.of_nat (length buf) < 2 ^ 63 ->
  magic_ok (header_of buf) && class64 (header_of buf) = true ->
  (Elf64Inspector buf = None <->
   table_wraps (e_phoff (header_of buf)) (e_phnum (header_of buf)) sizeof_Phdr buf \/
   table_wraps (e_shoff (header_of buf)) (e_shnum (header_of buf)) sizeof_Shdr buf \/
   unterminated_name buf (header_of buf)).
Proof.
  intros Hb H64 Hlen [Hm Hc]%andb_true_iff. unfold Elf64Inspector, parse. rewrite (proj2 (Nat.ltb_ge _ _)) by done.
  unfold fetch. rewrite (proj2 (Z.leb_le _ _)) by lia. cbn [mbind option_bind]. change (Z.to_nat 0) with 0%nat.
  fold (header_of buf). rewrite Hm, Hc. cbn [negb].
  assert (Forall is_byte (sub_bytes 0 sizeof_Ehdr buf)) as Hhb by (by apply Forall_take, Forall_drop).
  rewrite <- segments_out, <- sections_out by (done || (split; by apply load_le_word)).
  destruct (parse_program_headers buf (header_of buf)); cbn [mbind option_bind]; [|naive_solver].
  destruct (parse_section_headers buf (header_of buf)); cbn [mbind option_bind]; naive_solver.
Qed.

(** ** Examples *)

Lemma at_off_intro off bs buf :
  (off + length bs <= length buf)%nat -> sub_bytes off (length bs) buf = bs -> at_off (Z.of_nat off) bs buf.
Proof.
  intros Hl Hs. exists (take off buf), (drop (off + length bs) buf). split.
  - rewrite <- Hs at 1. unfold sub_bytes. rewrite <- drop_drop, take_drop. by rewrite take_drop.
  - rewrite length_take. lia.
Qed.

Definition ex_ident : list Z := [127; 69; 76; 70; 2; 1; 1; 0; 0; 0; 0; 0; 0; 0; 0; 0].
Definition ex_ehdr : Elf64_Ehdr := mk_ehdr ex_ident 2 62 1 4198400 64 137 0 64 56 1 64 3 2.
Definition ex_phdr : Elf64_Phdr := mk_phdr 1 5 0 4194304 4194304 329 329 4096.
Definition ex_strings : list Z := [0] ++ chars ".text" ++ [0] ++ chars ".shstrtab" ++ [0].
Definition ex_shdrs : list Elf64_Shdr :=
  [mk_shdr 0 0 0 0 0 0 0 0 0 0; mk_shdr 1 1 6 4198400 0 16 0 0 16 0; mk_shdr 7 3 0 0 120 17 0 0 1 0].
Definition ex_names : list (list Z) := [[]; chars ".text"; chars ".shstrtab"].
Definition ex_buf : list Z := ehdr_bytes ex_ehdr ++ phdr_bytes ex_phdr ++ ex_strings ++ concat (shdr_bytes <$> ex_shdrs).

Ltac at_offset := apply at_off_intro; [vm_compute; lia|vm_compute; reflexivity].
Ltac words_ok := repeat first [apply Forall_cons; split | apply Forall_nil; exact I | split]; try (vm_compute; first [done | split; done]).

Lemma ex_file : elf_file ex_buf ex_ehdr [ex_phdr] ex_shdrs ex_names.
Proof.
  constructor; [vm_compute; done|split|done|done|split|done|split|split; left; done|].
  - words_ok.
  - apply (at_off_intro 0); vm_compute; [lia|done].
  - words_ok.
  - apply (at_off_intro 64); vm_compute; [lia|done].
  - words_ok.
  - apply (at_off_intro 137); vm_compute; [lia|done].
  - intros _. exists (mk_shdr 7 3 0 0 120 17 0 0 1 0). split; [done|]. split; [vm_compute; done|].
    repeat apply List.Forall2_cons; [done|split; [vm_compute; set_solver|]..|constructor].
    + apply (at_off_intro 121); vm_compute; [lia|done].
    + apply (at_off_intro 127); vm_compute; [lia|done].
Qed.

Lemma elf_roundtrip_witness :
  Elf64Inspector ex_buf = Some (mk ex_buf ex_ehdr [segment_of ex_phdr] (zip_with section_of ex_names ex_shdrs) true).
Proof. apply (elf_roundtrip ex_buf ex_ehdr [ex_phdr] ex_shdrs ex_names). exact ex_file. Defined.

(** A header whose program headers start 56 bytes below [2^64]. *)
Definition ex_wrap : list Z := ehdr_bytes (mk_ehdr ex_ident 2 62 1 0 (2 ^ 64 - 56) 0 0 64 56 1 64 0 0).

Lemma elf_out_of_bounds_witness : Elf64Inspector ex_wrap = None.
Proof.
  apply (elf_out_of_bounds ex_wrap).
  - apply (List.Forall_impl (P := fun b => (0 <=? b) && (b <? 256) = true)); [unfold is_byte; intros; lia|].
    apply List.Forall_forall, List.forallb_forall. vm_compute. reflexivity.
  - vm_compute. lia.
  - vm_compute. reflexivity.
  - vm_compute. reflexivity.
  - left. vm_compute. split; discriminate.
Defined.

(** The number of sections is printed in base 16 and the number of program
    headers in base 10; an unknown segment type is printed in base 10 after a
    [0x] prefix. *)
Lemma report_bases :
  let h := mk_ehdr ex_ident 2 62 1 0 64 64 0 64 56 16 64 16 0 in
  sub_bytes 315 89 (text (print_summary (mk [] h [] [] true) (mk_os 10 0 32 false []))) =
    chars " Program Headers:  16 entries (Offset: 0x40)" ++ nl ++ chars " Section Headers:  10 entries (Offset: 0x40)" /\
  get_segment_type_name 0x70000001 = chars "PT_OTHER (0x1879048193)".
Proof. split; vm_compute; reflexivity. Qed.
End Elf.
