(* ===== verification/Uring.v ===== *)
(** * The io_uring echo reactor

    Model of [IoUringReactor] (05-advanced-io, iouring_reactor.hpp): the
    submission and completion rings with their 32-bit counters, masks and the
    index array, the contexts allocated per connection, the completion handler
    and the event loop.  The kernel side of io_uring is the environment: it
    takes entries from the submission ring inside [io_uring_enter], executes
    them in any order and posts one completion for each.  A context that has
    been deleted is absent from the heap, and using it has no result. *)

From S2P Require Import Prelude.

#[local] Open Scope Z_scope.
#[local] Open Scope cpp_scope.

Module Uring.

(** ** Data *)

Inductive EventType := ACCEPT | READ | WRITE.

#[export] Instance EventType_eq_dec : EqDecision EventType.
Proof. solve_decision. Defined.

Definition BUFFER : nat := 2048.

(** The client address, which only the kernel writes, is left out. *)
Record ConnectionContext := mk_ctx { fd : Z; type : EventType; bytes_transferred : Z; buffer : list Z }.

Definition new_ctx (f : Z) : ConnectionContext := mk_ctx f ACCEPT 0 (replicate BUFFER 0).

Inductive opcode := OP_NOP | OP_ACCEPT | OP_READ | OP_WRITE.

(** [addr] is a field of the context at the given address: the client
    address for an accept, the buffer otherwise. *)
Record sqe := mk_sqe { op : opcode; sqe_fd : Z; addr : Z; len : Z; user_data : Z }.
Record cqe := mk_cqe { cqe_data : Z; res : Z }.

Definition zero_sqe : sqe := mk_sqe OP_NOP 0 0 0 0.

Record SQ := mk_sq { sq_entries : Z; sq_mask_ : Z; sqes_ : list sqe; sq_array_ : list Z; sq_head_ : Z; sq_tail_ : Z }.
Record CQ := mk_cq { cq_entries : Z; cq_mask_ : Z; cqes_ : list cqe; cq_head_ : Z; cq_tail_ : Z }.

(** The reactor, the allocated contexts, the bytes received from and sent to
    each open connection, and the descriptors closed so far. *)
Record t := mk {
  port_ : Z; listen_fd_ : Z; ring_fd_ : Z; running_ : bool; pending_sqes_ : Z; sq : SQ; cq : CQ; total_bytes_echoed_ : Z;
  heap : gmap Z ConnectionContext; socks : gmap Z (list Z * list Z); closed : list Z }.

Definition QUEUE_DEPTH : Z := 512.

(** ** Updates of single fields *)

Definition set_pending (n : Z) (s : t) : t :=
  mk (port_ s) (listen_fd_ s) (ring_fd_ s) (running_ s) n (sq s) (cq s) (total_bytes_echoed_ s) (heap s) (socks s) (closed s).
Definition set_sq (q : SQ) (s : t) : t :=
  mk (port_ s) (listen_fd_ s) (ring_fd_ s) (running_ s) (pending_sqes_ s) q (cq s) (total_bytes_echoed_ s) (heap s) (socks s) (closed s).
Definition set_cq (q : CQ) (s : t) : t :=
  mk (port_ s) (listen_fd_ s) (ring_fd_ s) (running_ s) (pending_sqes_ s) (sq s) q (total_bytes_echoed_ s) (heap s) (socks s) (closed s).
Definition set_heap (h : gmap Z ConnectionContext) (s : t) : t :=
  mk (port_ s) (listen_fd_ s) (ring_fd_ s) (running_ s) (pending_sqes_ s) (sq s) (cq s) (total_bytes_echoed_ s) h (socks s) (closed s).
Definition set_socks (m : gmap Z (list Z * list Z)) (s : t) : t :=
  mk (port_ s) (listen_fd_ s) (ring_fd_ s) (running_ s) (pending_sqes_ s) (sq s) (cq s) (total_bytes_echoed_ s) (heap s) m (closed s).
Definition set_fds (l r : Z) (s : t) : t :=
  mk (port_ s) l r (running_ s) (pending_sqes_ s) (sq s) (cq s) (total_bytes_echoed_ s) (heap s) (socks s) (closed s).
Definition set_running (b : bool) (s : t) : t :=
  mk (port_ s) (listen_fd_ s) (ring_fd_ s) b (pending_sqes_ s) (sq s) (cq s) (total_bytes_echoed_ s) (heap s) (socks s) (closed s).
Definition add_total (n : Z) (s : t) : t :=
  mk (port_ s) (listen_fd_ s) (ring_fd_ s) (running_ s) (pending_sqes_ s) (sq s) (cq s) (total_bytes_echoed_ s +64 n) (heap s) (socks s) (closed s).

Definition close (f : Z) (s : t) : t :=
  mk (port_ s) (listen_fd_ s) (ring_fd_ s) (running_ s) (pending_sqes_ s) (sq s) (cq s) (total_bytes_echoed_ s) (heap s)
    (delete f (socks s)) (closed s ++ [f]).

(** ** Submissions *)

Definition slot (idx mask : Z) : nat := Z.to_nat (Z.land idx mask).

Definition get_sqe (s : t) : option (nat * t) :=
  let q := sq s in
  let tail := sq_tail_ q in
  let head := sq_head_ q in
  if sq_entries q <=? u32 (tail - head) then None else
  let index := slot tail (sq_mask_ q) in
  let q := mk_sq (sq_entries q) (sq_mask_ q) (<[index := zero_sqe]> (sqes_ q)) (<[index := Z.of_nat index]> (sq_array_ q)) head
             (u32 (tail + 1)) in
  Some (index, set_pending (u32 (pending_sqes_ s + 1)) (set_sq q s)).

Definition fill_sqe (i : nat) (e : sqe) (s : t) : t :=
  let q := sq s in set_sq (mk_sq (sq_entries q) (sq_mask_ q) (<[i := e]> (sqes_ q)) (sq_array_ q) (sq_head_ q) (sq_tail_ q)) s.

(** [a] is the address of the new context. *)
Definition submit_accept (a : Z) (s : t) : t :=
  match get_sqe s with
  | None => s
  | Some (i, s) =>
      let s := set_heap (<[a := new_ctx (listen_fd_ s)]> (heap s)) s in
      fill_sqe i (mk_sqe OP_ACCEPT (listen_fd_ s) a 0 a) s
  end.

Definition submit_read (p : Z) (s : t) : option t :=
  match get_sqe s with
  | None => Some s
  | Some (i, s) =>
      c ← heap s !! p;
      let s := set_heap (<[p := mk_ctx (fd c) READ (bytes_transferred c) (buffer c)]> (heap s)) s in
      Some (fill_sqe i (mk_sqe OP_READ (fd c) p (Z.of_nat BUFFER) p) s)
  end.

Definition submit_write (p n : Z) (s : t) : option t :=
  match get_sqe s with
  | None => Some s
  | Some (i, s) =>
      c ← heap s !! p;
      let s := set_heap (<[p := mk_ctx (fd c) WRITE n (buffer c)]> (heap s)) s in
      Some (fill_sqe i (mk_sqe OP_WRITE (fd c) p n p) s)
  end.

(** ** Completions *)

Definition drop_client (p : Z) (c : ConnectionContext) (s : t) : t :=
  let s := close (fd c) s in set_heap (delete p (heap s)) s.

(** [a1] and [a2] are the addresses of the contexts it may allocate. *)
Definition handle_completion (p r a1 a2 : Z) (s : t) : option t :=
  c ← heap s !! p;
  match type c with
  | ACCEPT =>
      s ← (if 0 <=? r then submit_read a1 (set_heap (<[a1 := new_ctx r]> (heap s)) s) else Some s);
      let s := submit_accept a2 s in
      Some (set_heap (delete p (heap s)) s)
  | READ => if 0 <? r then submit_write p (u32 r) (add_total r s) else Some (drop_client p c s)
  | WRITE => if 0 <? r then submit_read p s else Some (drop_client p c s)
  end.

(** One round of the inner loop of [run], on the entry at [head]. *)
Definition handle_cqe (head a1 a2 : Z) (s : t) : option t :=
  e ← cqes_ (cq s) !! slot head (cq_mask_ (cq s));
  if cqe_data e =? 0 then Some s else handle_completion (cqe_data e) (res e) a1 a2 s.

Definition set_cq_head (h : Z) (s : t) : t :=
  let q := cq s in set_cq (mk_cq (cq_entries q) (cq_mask_ q) (cqes_ q) h (cq_tail_ q)) s.

(** ** Start and stop *)

Definition stop (s : t) : t :=
  let s := set_running false s in
  let s := if 0 <=? ring_fd_ s then set_fds (listen_fd_ s) (-1) (close (ring_fd_ s) s) else s in
  if 0 <=? listen_fd_ s then set_fds (-1) (ring_fd_ s) (close (listen_fd_ s) s) else s.

(** The results of the system calls of [init]; [e_rings] is [None] if one of
    the three mappings fails. *)
Record env := mk_env { e_socket : Z; e_bind : Z; e_listen : Z; e_setup : Z; e_rings : option (SQ * CQ) }.

Definition init (e : env) (a : Z) (s : t) : bool * t :=
  let s := set_fds (e_socket e) (ring_fd_ s) s in
  if listen_fd_ s <? 0 then (false, s) else
  if e_bind e <? 0 then (false, let s := close (listen_fd_ s) s in set_fds (-1) (ring_fd_ s) s) else
  if e_listen e <? 0 then (false, let s := close (listen_fd_ s) s in set_fds (-1) (ring_fd_ s) s) else
  let s := set_fds (listen_fd_ s) (e_setup e) s in
  if ring_fd_ s <? 0 then (false, let s := close (listen_fd_ s) s in set_fds (-1) (ring_fd_ s) s) else
  match e_rings e with
  | None => (false, s)
  | Some (q, c) => (true, submit_accept a (set_cq c (set_sq q s)))
  end.

Definition empty_sq : SQ := mk_sq 0 0 [] [] 0 0.
Definition empty_cq : CQ := mk_cq 0 0 [] 0 0.

Definition IoUringReactor (port : Z) : t := mk port (-1) (-1) false 0 empty_sq empty_cq 0 ∅ ∅ [].

(** The rings as the kernel sets them up, with [2^k] and [2^kc] entries. *)
Definition fresh_sq (k : Z) : SQ :=
  mk_sq (2 ^ k) (2 ^ k - 1) (replicate (Z.to_nat (2 ^ k)) zero_sqe) (replicate (Z.to_nat (2 ^ k)) 0) 0 0.
Definition fresh_cq (kc : Z) : CQ := mk_cq (2 ^ kc) (2 ^ kc - 1) (replicate (Z.to_nat (2 ^ kc)) (mk_cqe 0 0)) 0 0.

(** ** The kernel *)

(** Taking the oldest entry of the submission ring. *)
Definition consume (s : t) : option (sqe * t) :=
  let q := sq s in
  if sq_head_ q =? sq_tail_ q then None else
  i ← sq_array_ q !! slot (sq_head_ q) (sq_mask_ q);
  e ← sqes_ q !! Z.to_nat i;
  Some (e, set_sq (mk_sq (sq_entries q) (sq_mask_ q) (sqes_ q) (sq_array_ q) (u32 (sq_head_ q + 1)) (sq_tail_ q)) s).

(** [io_uring_enter] takes up to [to_submit] entries. *)
Fixpoint enter (n : nat) (s : t) : option (list sqe * t) :=
  match n with
  | O => Some ([], s)
  | S n => '(e, s) ← consume s; '(es, s) ← enter n s; Some (e :: es, s)
  end.

(** Posting a completion; with a full ring the kernel holds it back. *)
Definition post (c : cqe) (s : t) : option t :=
  let q := cq s in
  if cq_entries q <=? u32 (cq_tail_ q - cq_head_ q) then None else
  Some (set_cq (mk_cq (cq_entries q) (cq_mask_ q) (<[slot (cq_tail_ q) (cq_mask_ q) := c]> (cqes_ q)) (cq_head_ q)
                  (u32 (cq_tail_ q + 1))) s).

(** The effect of an operation with result [r]; [full] restricts writes to
    those that fail or transfer everything. *)
Inductive execute (full : bool) (e : sqe) (r : Z) (s : t) : t -> Prop :=
| X_failed : r <= 0 -> op e <> OP_ACCEPT \/ r < 0 -> execute full e r s s
| X_accept : op e = OP_ACCEPT -> 0 <= r -> r <> listen_fd_ s -> socks s !! r = None ->
    execute full e r s (set_socks (<[r := ([], [])]> (socks s)) s)
| X_read c data got sent : op e = OP_READ -> 0 < r <= len e -> Z.of_nat (length data) = r ->
    heap s !! addr e = Some c -> socks s !! sqe_fd e = Some (got, sent) ->
    execute full e r s
      (set_socks (<[sqe_fd e := (got ++ data, sent)]> (socks s))
        (set_heap (<[addr e := mk_ctx (fd c) (type c) (bytes_transferred c) (data ++ drop (length data) (buffer c))]> (heap s)) s))
| X_write c got sent : op e = OP_WRITE -> 0 < r <= len e -> (full = true -> r = len e) ->
    heap s !! addr e = Some c -> socks s !! sqe_fd e = Some (got, sent) ->
    execute full e r s (set_socks (<[sqe_fd e := (got, sent ++ take (Z.to_nat r) (buffer c))]> (socks s)) s).

(** ** The event loop *)

(** Where the thread in [run] is: at the top of the loop, before it loads the
    counters of the completion ring, or in the inner loop with its copies of
    them. *)
Inductive pc := Top | Check | Loop (head tail : Z).

(** The kernel executes the entries in [inflight]. *)
Record cfg := mk_cfg { st : t; at_ : pc; inflight : list sqe }.

Definition fresh (s : t) (a : Z) : Prop := a <> 0 /\ heap s !! a = None.

Inductive step (full : bool) : cfg -> cfg -> Prop :=
| S_submit s es s' n fl : 0 < pending_sqes_ s -> Z.of_nat n <= pending_sqes_ s -> enter n s = Some (es, s') ->
    step full (mk_cfg s Top fl) (mk_cfg (set_pending 0 s') Check (fl ++ es))
| S_skip s fl : pending_sqes_ s = 0 -> step full (mk_cfg s Top fl) (mk_cfg s Check fl)
| S_idle s fl : cq_head_ (cq s) = cq_tail_ (cq s) -> step full (mk_cfg s Check fl) (mk_cfg s Top fl)
| S_batch s fl : cq_head_ (cq s) <> cq_tail_ (cq s) ->
    step full (mk_cfg s Check fl) (mk_cfg s (Loop (cq_head_ (cq s)) (cq_tail_ (cq s))) fl)
| S_handle s fl head tail a1 a2 s' : head <> tail -> fresh s a1 -> fresh s a2 -> a1 <> a2 ->
    handle_cqe head a1 a2 s = Some s' ->
    step full (mk_cfg s (Loop head tail) fl) (mk_cfg s' (Loop (u32 (head + 1)) tail) fl)
| S_done s fl head : step full (mk_cfg s (Loop head head) fl) (mk_cfg (set_cq_head head s) Top fl)
| S_complete s l fl1 e fl2 r s1 s2 : execute full e r s s1 -> post (mk_cqe (user_data e) r) s1 = Some s2 ->
    step full (mk_cfg s l (fl1 ++ e :: fl2)) (mk_cfg s2 l (fl1 ++ fl2)).

(** A reactor after a successful [init]. *)
Definition started (k kc sock ring a port : Z) : cfg :=
  mk_cfg (init (mk_env sock 0 0 ring (Some (fresh_sq k, fresh_cq kc))) a (IoUringReactor port)).2 Top [].

(** ** Rings *)

(** The entries from [head] to [tail] of a ring of [2^k] slots. *)
Record ring {S : Type} (k head tail : Z) (get : nat -> option S) (q : list S) : Prop := {
  r_head : 0 <= head < 2 ^ 32;
  r_tail : tail = u32 (head + Z.of_nat (length q));
  r_len : Z.of_nat (length q) <= 2 ^ k;
  r_get : forall i x, q !! i = Some x -> get (slot (u32 (head + Z.of_nat i)) (2 ^ k - 1)) = Some x }.

Section rings.
Context {S : Type} (k : Z) (Hk : 0 <= k < 32).

Lemma size_pos : 0 < 2 ^ k < 2 ^ 32.
Proof. split; [apply Z.pow_pos_nonneg; lia|apply Z.pow_lt_mono_r; lia]. Qed.

Lemma slot_mod x : slot (u32 x) (2 ^ k - 1) = Z.to_nat (x mod 2 ^ k).
Proof. unfold slot. by rewrite land_mask_wrap by lia. Qed.

Lemma slot_lt x : (slot (u32 x) (2 ^ k - 1) < Z.to_nat (2 ^ k))%nat.
Proof. rewrite slot_mod. pose proof size_pos. pose proof (Z.mod_pos_bound x (2 ^ k)). lia. Qed.

Lemma ring_slot_inj x y : Z.abs (x - y) < 2 ^ k -> slot (u32 x) (2 ^ k - 1) = slot (u32 y) (2 ^ k - 1) -> x = y.
Proof.
  intros Hd. rewrite !slot_mod. pose proof size_pos.
  intros Heq%Z2Nat.inj; try (apply Z.mod_pos_bound; lia). apply (wrap_inj k); [lia|done|done].
Qed.

Lemma ring_count head tail (get : nat -> option S) q :
  ring k head tail get q -> u32 (tail - head) = Z.of_nat (length q).
Proof.
  intros [Hh -> Hl _]. pose proof size_pos. rewrite wrap_sub_l, wrap_small; lia.
Qed.

Lemma ring_push head tail (get get' : nat -> option S) q x :
  ring k head tail get q -> Z.of_nat (length q) < 2 ^ k ->
  get' (slot tail (2 ^ k - 1)) = Some x ->
  (forall j y, j <> slot tail (2 ^ k - 1) -> get j = Some y -> get' j = Some y) ->
  ring k head (u32 (tail + 1)) get' (q ++ [x]).
Proof.
  intros [Hh -> Hl Hg] Hlt Hx Hkeep. split; [done| | |].
  - rewrite wrap_add_l, length_app. cbn [length]. f_equal. lia.
  - rewrite length_app. cbn [length]. lia.
  - intros i y [Hi|[Hi Hy]]%lookup_app_Some.
    + apply Hkeep; [|by apply Hg]. intros Heq%ring_slot_inj; apply lookup_lt_Some in Hi; lia.
    + apply list_lookup_singleton_Some in Hy as [? <-]. by replace i with (length q) by lia.
Qed.

Lemma ring_pop head tail (get : nat -> option S) x q :
  ring k head tail get (x :: q) ->
  get (slot head (2 ^ k - 1)) = Some x /\ head <> tail /\ ring k (u32 (head + 1)) tail get q.
Proof.
  intros [Hh -> Hl Hg]. cbn [length] in *. pose proof size_pos. split_and!.
  - specialize (Hg 0%nat x eq_refl). by rewrite Z.add_0_r, wrap_small in Hg by lia.
  - intros Heq. rewrite <- (wrap_small 32 head) in Heq at 1 by lia. apply (wrap_inj 32) in Heq; lia.
  - split.
    + apply wrap_range. lia.
    + rewrite wrap_add_l. f_equal. lia.
    + lia.
    + intros i y Hi. rewrite wrap_add_l. replace (head + 1 + Z.of_nat i) with (head + Z.of_nat (Datatypes.S i)) by lia. by apply Hg.
Qed.

Lemma ring_nil head tail (get : nat -> option S) q : ring k head tail get q -> (head = tail <-> q = []).
Proof.
  intros Hr. split; [|intros ->; destruct Hr as [? -> _ _]; cbn; rewrite Z.add_0_r, wrap_small; lia].
  intros ->. destruct q as [|x q]; [done|]. by apply ring_pop in Hr as (_ & ? & _).
Qed.

Lemma ring_mono head tail (get get' : nat -> option S) q :
  ring k head tail get q -> (forall j y, get j = Some y -> get' j = Some y) -> ring k head tail get' q.
Proof. intros [Hh Ht Hl Hg] Hm. split; auto. Qed.
End rings.

(** ** The outstanding operations *)

(** An operation is submitted (in the ring or executed by the kernel), or
    completed with a result that has not been handled. *)
Inductive phase := Submitted (e : sqe) | Completed (r : Z).

Definition op_item (e : sqe) : Z * phase := (user_data e, Submitted e).
Definition done_item (c : cqe) : Z * phase := (cqe_data c, Completed (res c)).

(** The connection an outstanding operation works on. *)
Definition own_of (c : ConnectionContext) (ph : phase) : option Z :=
  match type c, ph with
  | ACCEPT, Submitted _ => None
  | ACCEPT, Completed r => if 0 <=? r then Some r else None
  | _, _ => Some (fd c)
  end.

Definition own (h : gmap Z ConnectionContext) (it : Z * phase) : option Z := c ← h !! it.1; own_of c it.2.

Definition op_of (ty : EventType) : opcode := match ty with ACCEPT => OP_ACCEPT | READ => OP_READ | WRITE => OP_WRITE end.

(** The received bytes [got] are those sent back followed by [pend], or with
    short writes contain them in order. *)
Definition echo (full : bool) (got sent pend : list Z) : Prop :=
  if full then got = sent ++ pend else sent ++ pend `sublist_of` got.

(** What an outstanding operation still has to send back. *)
Definition pending_bytes (c : ConnectionContext) (ph : phase) : list Z :=
  match type c, ph with
  | READ, Completed r => take (Z.to_nat r) (buffer c)
  | WRITE, Submitted e => take (Z.to_nat (len e)) (buffer c)
  | _, _ => []
  end.

(** A write that failed leaves its bytes unsent; the connection is closed next. *)
Definition failed_write (c : ConnectionContext) (ph : phase) : Prop :=
  match type c, ph with WRITE, Completed r => r <= 0 | _, _ => False end.

Definition phase_ok (listen p : Z) (c : ConnectionContext) (ph : phase) : Prop :=
  match ph with
  | Submitted e =>
      op e = op_of (type c) /\ sqe_fd e = fd c /\ addr e = p /\ user_data e = p /\
      (type c = READ -> len e = Z.of_nat BUFFER) /\ (type c = WRITE -> 0 < len e <= Z.of_nat BUFFER)
  | Completed r => type c <> ACCEPT -> r <= Z.of_nat BUFFER
  end /\ (type c = ACCEPT -> fd c = listen) /\ length (buffer c) = BUFFER.

Section invariant.
Context (full : bool).

Definition item_ok (listen : Z) (h : gmap Z ConnectionContext) (m : gmap Z (list Z * list Z)) (it : Z * phase) : Prop :=
  exists c, h !! it.1 = Some c /\ it.1 <> 0 /\ phase_ok listen it.1 c it.2 /\
    (forall f, own_of c it.2 = Some f -> exists got sent, m !! f = Some (got, sent) /\
       (failed_write c it.2 \/ echo full got sent (pending_bytes c it.2))).

Definition sock_ok (x : list Z * list Z) : Prop := if full then x.2 `prefix_of` x.1 else x.2 `sublist_of` x.1.

Record core (listen : Z) (h : gmap Z ConnectionContext) (m : gmap Z (list Z * list Z)) (items : list (Z * phase)) : Prop := {
  c_items : Forall (item_ok listen h m) items;
  c_nodup : NoDup items.*1;
  c_own : NoDup (omap (own h) items);
  c_socks : map_Forall (fun _ => sock_ok) m }.

#[export] Instance core_perm listen h m : Proper (Permutation ==> iff) (core listen h m).
Proof.
  assert (forall l1 l2, l1 ≡ₚ l2 -> core listen h m l1 -> core listen h m l2) as H.
  { intros l1 l2 Hp [H1 H2 H3 H4]. split; [by rewrite <- Hp..|done]. }
  intros l1 l2 Hp. split; apply H; by rewrite Hp.
Qed.

Lemma echo_sock got sent pend : echo full got sent pend -> sock_ok (got, sent).
Proof.
  unfold echo, sock_ok. cbn. destruct full; [intros ->; by eexists|].
  intros H. etrans; [|exact H]. by apply sublist_inserts_r.
Qed.

Lemma own_other h p c' it : it.1 <> p -> own (<[p := c']> h) it = own h it.
Proof. intros Hne. unfold own. by rewrite lookup_insert_ne. Qed.

Lemma own_delete h p it : it.1 <> p -> own (delete p h) it = own h it.
Proof. intros Hne. unfold own. by rewrite lookup_delete_ne. Qed.

(** An item depends on its own context and connection only. *)
Lemma item_frame listen h m h' m' it :
  item_ok listen h m it -> h' !! it.1 = h !! it.1 -> (forall f, own h it = Some f -> m' !! f = m !! f) ->
  item_ok listen h' m' it.
Proof.
  intros (c & Hc & H0 & Hp & Ho) Hh Hm. exists c. rewrite Hh. split_and!; try done.
  intros f Hf. rewrite Hm; [by apply Ho|]. unfold own. by rewrite Hc.
Qed.

Lemma omap_own_ext h h' items :
  Forall (fun it => h' !! it.1 = h !! it.1) items -> omap (own h') items = omap (own h) items.
Proof.
  induction 1 as [|it items Hit _ IH]; [done|]. cbn.
  replace (own h' it) with (own h it) by (unfold own; by rewrite Hit). by rewrite IH.
Qed.

Lemma owned_open listen h m it f : item_ok listen h m it -> own h it = Some f -> is_Some (m !! f).
Proof.
  intros (c & Hc & _ & _ & Ho) Hf. unfold own in Hf. rewrite Hc in Hf. destruct (Ho f Hf) as (? & ? & -> & _). done.
Qed.

Lemma core_cons listen h m it items :
  core listen h m (it :: items) <->
  core listen h m items /\ item_ok listen h m it /\ (it.1 ∉ items.*1) /\
  (forall f, own h it = Some f -> f ∉ omap (own h) items).
Proof.
  split.
  - intros [[Hit Hi]%Forall_cons Hn Ho Hs]. cbn in Hn, Ho. apply NoDup_cons in Hn as [Hnin Hn].
    destruct (own h it) as [g|]; [apply NoDup_cons in Ho as [Hg Ho]|]; split_and!; try done; naive_solver.
  - intros ([Hi Hn Ho Hs] & Hit & Hnin & Hf). split; [by constructor|by constructor| |done]. cbn.
    destruct (own h it) as [g|]; [|done]. constructor; [by apply Hf|done].
Qed.

(** Operations whose contexts and connections stay the same. *)
Lemma core_frame listen h m h' m' items :
  core listen h m items -> (forall it, it ∈ items -> h' !! it.1 = h !! it.1) ->
  (forall f, f ∈ omap (own h) items -> m' !! f = m !! f) -> map_Forall (fun _ => sock_ok) m' -> core listen h' m' items.
Proof.
  intros [Hi Hn Ho Hs] Hh Hm Hs'. rewrite Forall_forall in Hi. split; [|done| |done].
  - apply Forall_forall. intros it Hin. apply (item_frame _ h m); [by apply Hi|by apply Hh|].
    intros f Hf. apply Hm, list_elem_of_omap. eauto.
  - rewrite (omap_own_ext h h'); [done|]. by apply Forall_forall.
Qed.

Lemma not_key {A B} (l : list (A * B)) (p : A) it : p ∉ l.*1 -> it ∈ l -> it.1 <> p.
Proof. intros Hp Hin <-. apply Hp. apply list_elem_of_fmap. by exists it. Qed.

Lemma owned_all_open listen h m items f : core listen h m items -> f ∈ omap (own h) items -> is_Some (m !! f).
Proof.
  intros [Hi _ _ _] (it & Hin & Hf)%list_elem_of_omap. rewrite Forall_forall in Hi. by eapply owned_open; [apply Hi|].
Qed.

(** Replacing an operation by the next one on the same context. *)
Lemma core_replace listen h m p ph c' ph' m' items :
  core listen h m ((p, ph) :: items) ->
  (forall f, f ∈ omap (own h) items -> m' !! f = m !! f) ->
  (forall f, own_of c' ph' = Some f -> own h (p, ph) = Some f \/ m !! f = None) ->
  item_ok listen (<[p := c']> h) m' (p, ph') -> map_Forall (fun _ => sock_ok) m' ->
  core listen (<[p := c']> h) m' ((p, ph') :: items).
Proof.
  intros (Hc & Hit & Hnin & Hown)%core_cons Hm Hfr Hok Hs. cbn in Hnin.
  assert (forall it, it ∈ items -> <[p := c']> h !! it.1 = h !! it.1) as Hh.
  { intros it Hin. apply lookup_insert_ne. by apply not_eq_sym, (not_key items). }
  assert (omap (own (<[p := c']> h)) items = omap (own h) items) as Heq by (by apply omap_own_ext, Forall_forall).
  apply core_cons. split_and!; [by eapply core_frame|done|done|]. intros f. unfold own at 1. cbn.
  rewrite lookup_insert_eq, Heq. cbn. intros Hf Hin. destruct (Hfr f Hf) as [Hf'|Hno]; [by eapply Hown|].
  destruct (owned_all_open _ _ _ _ _ Hc Hin). congruence.
Qed.

(** Removing an operation whose context is deleted. *)
Lemma core_delete listen h m it items m' :
  core listen h m (it :: items) -> (forall f, f ∈ omap (own h) items -> m' !! f = m !! f) ->
  map_Forall (fun _ => sock_ok) m' -> core listen (delete it.1 h) m' items.
Proof.
  intros (Hc & _ & Hnin & _)%core_cons Hm Hs. eapply core_frame; [done| |done|done].
  intros i Hin. apply lookup_delete_ne. by apply not_eq_sym, (not_key items).
Qed.

(** Adding an operation on a new context. *)
Lemma core_new listen h m p c ph items :
  core listen h m items -> h !! p = None -> (forall f, own_of c ph = Some f -> f ∉ omap (own h) items) ->
  item_ok listen (<[p := c]> h) m (p, ph) -> core listen (<[p := c]> h) m ((p, ph) :: items).
Proof.
  intros Hc Hp Hown Hok.
  assert (forall it, it ∈ items -> it.1 <> p) as Hne.
  { intros it Hin Heq. destruct Hc as [Hi _ _ _]. rewrite Forall_forall in Hi.
    destruct (Hi it Hin) as (c0 & Hc0 & _). rewrite Heq in Hc0. congruence. }
  assert (forall it, it ∈ items -> <[p := c]> h !! it.1 = h !! it.1) as Hh.
  { intros it Hin. apply lookup_insert_ne. by apply not_eq_sym, Hne. }
  assert (omap (own (<[p := c]> h)) items = omap (own h) items) as Heq by (by apply omap_own_ext, Forall_forall).
  apply core_cons. split_and!; [eapply core_frame; [done|done|done|apply Hc]|done| |].
  - cbn. intros (it & -> & Hin)%list_elem_of_fmap. by eapply Hne.
  - intros f. unfold own at 1. cbn. rewrite lookup_insert_eq, Heq. apply Hown.
Qed.

(** ** Submitting *)

(** The entry the kernel finds through slot [j] of the index array. *)
Definition sq_get (q : SQ) (j : nat) : option sqe :=
  i ← sq_array_ q !! j; if decide (Z.to_nat i = j) then sqes_ q !! j else None.

Record sq_ok (k : Z) (q : SQ) (l : list sqe) : Prop := {
  so_entries : sq_entries q = 2 ^ k;
  so_mask : sq_mask_ q = 2 ^ k - 1;
  so_sqes : Z.of_nat (length (sqes_ q)) = 2 ^ k;
  so_array : Z.of_nat (length (sq_array_ q)) = 2 ^ k;
  so_ring : ring k (sq_head_ q) (sq_tail_ q) (sq_get q) l }.

Definition accept_op (L a : Z) : sqe := mk_sqe OP_ACCEPT L a 0 a.
Definition read_op (f p : Z) : sqe := mk_sqe OP_READ f p (Z.of_nat BUFFER) p.
Definition write_op (f p n : Z) : sqe := mk_sqe OP_WRITE f p n p.
Definition read_ctx (c : ConnectionContext) : ConnectionContext := mk_ctx (fd c) READ (bytes_transferred c) (buffer c).
Definition write_ctx (c : ConnectionContext) (n : Z) : ConnectionContext := mk_ctx (fd c) WRITE n (buffer c).

(** What a submission leaves alone. *)
Definition frame (s s' : t) : Prop :=
  cq s' = cq s /\ socks s' = socks s /\ listen_fd_ s' = listen_fd_ s /\ closed s' = closed s.

Lemma get_sqe_spec k s l :
  0 <= k < 32 -> sq_ok k (sq s) l ->
  (Z.of_nat (length l) = 2 ^ k /\ get_sqe s = None) \/
  (Z.of_nat (length l) < 2 ^ k /\ exists i s', get_sqe s = Some (i, s') /\ heap s' = heap s /\ frame s s' /\
     forall e h, let s2 := fill_sqe i e (set_heap h s') in sq_ok k (sq s2) (l ++ [e]) /\ heap s2 = h /\ frame s s2).
Proof.
  intros Hk [He Hm Hs Ha Hr]. unfold get_sqe. rewrite He, (ring_count k Hk _ _ _ _ Hr). pose proof (r_len _ _ _ _ _ Hr).
  destruct (Z.leb_spec (2 ^ k) (Z.of_nat (length l))); [left; split; [lia|done]|right]. split; [done|].
  do 2 eexists. split; [done|]. split; [done|]. split; [done|]. intros e h. cbv zeta. split; [|done].
  assert (slot (sq_tail_ (sq s)) (2 ^ k - 1) < Z.to_nat (2 ^ k))%nat as Hlt.
  { rewrite (r_tail _ _ _ _ _ Hr). by apply slot_lt. }
  split; cbn; try done; [by rewrite !length_insert|by rewrite length_insert|]. rewrite Hm, list_insert_insert_eq.
  apply (ring_push k Hk _ _ (sq_get (sq s))); [done|done| |].
  - unfold sq_get. cbn [sq_array_ sqes_]. rewrite !list_lookup_insert_eq by lia. cbn [mbind option_bind].
    by rewrite Nat2Z.id, decide_True by done.
  - intros j y Hne Hj. unfold sq_get in *. cbn [sq_array_ sqes_]. by rewrite !list_lookup_insert_ne by done.
Qed.

Lemma submit_accept_spec k a s l :
  0 <= k < 32 -> sq_ok k (sq s) l ->
  (Z.of_nat (length l) = 2 ^ k /\ submit_accept a s = s) \/
  (Z.of_nat (length l) < 2 ^ k /\ sq_ok k (sq (submit_accept a s)) (l ++ [accept_op (listen_fd_ s) a]) /\
   heap (submit_accept a s) = <[a := new_ctx (listen_fd_ s)]> (heap s) /\ frame s (submit_accept a s)).
Proof.
  intros Hk Hq. unfold submit_accept. destruct (get_sqe_spec k s l Hk Hq) as [[Hl ->]|(Hl & i & s' & -> & Hh & Hf & Hfill)];
    [by left|right]. split; [done|]. cbn [listen_fd_ set_heap]. destruct Hf as (_ & _ & Hfd & _). rewrite Hfd, Hh. apply Hfill.
Qed.

Definition submitted (k p : Z) (s : t) (l : list sqe) (c' : ConnectionContext) (e : sqe) (o : option t) : Prop :=
  (Z.of_nat (length l) = 2 ^ k /\ o = Some s) \/
  (Z.of_nat (length l) < 2 ^ k /\ exists s', o = Some s' /\ sq_ok k (sq s') (l ++ [e]) /\
   heap s' = <[p := c']> (heap s) /\ frame s s').

Lemma submit_read_spec k p s l c :
  0 <= k < 32 -> sq_ok k (sq s) l -> heap s !! p = Some c ->
  submitted k p s l (read_ctx c) (read_op (fd c) p) (submit_read p s).
Proof.
  intros Hk Hq Hc. unfold submit_read, submitted.
  destruct (get_sqe_spec k s l Hk Hq) as [[Hl ->]|(Hl & i & s' & -> & Hh & Hf & Hfill)]; [by left|right].
  split; [done|]. rewrite Hh, Hc. cbn [mbind option_bind]. eexists. split; [done|apply Hfill].
Qed.

Lemma submit_write_spec k p n s l c :
  0 <= k < 32 -> sq_ok k (sq s) l -> heap s !! p = Some c ->
  submitted k p s l (write_ctx c n) (write_op (fd c) p n) (submit_write p n s).
Proof.
  intros Hk Hq Hc. unfold submit_write, submitted.
  destruct (get_sqe_spec k s l Hk Hq) as [[Hl ->]|(Hl & i & s' & -> & Hh & Hf & Hfill)]; [by left|right].
  split; [done|]. rewrite Hh, Hc. cbn [mbind option_bind]. eexists. split; [done|apply Hfill].
Qed.

(** ** Handling a completion *)

(** The handler has submitted [new] and keeps the operations [its]. *)
Record handled (k : Z) (s : t) (l : list sqe) (its : list (Z * phase)) (new : list sqe) (s' : t) : Prop := {
  h_sq : sq_ok k (sq s') (l ++ new);
  h_core : core (listen_fd_ s') (heap s') (socks s') ((op_item <$> new) ++ its);
  h_cq : cq s' = cq s;
  h_listen : listen_fd_ s' = listen_fd_ s }.

Lemma new_ctx_item L h m a f ph :
  a <> 0 -> phase_ok L a (new_ctx f) ph -> own_of (new_ctx f) ph = None -> item_ok L (<[a := new_ctx f]> h) m (a, ph).
Proof. intros Ha Hp Ho. exists (new_ctx f). cbn [fst snd]. rewrite lookup_insert_eq, Ho. done. Qed.

Lemma handle_next_accept k s l its a :
  0 <= k < 32 -> sq_ok k (sq s) l -> core (listen_fd_ s) (heap s) (socks s) its -> fresh s a ->
  exists new, handled k s l its new (submit_accept a s) /\
    (Z.of_nat (length l) < 2 ^ k ->
     new = [accept_op (listen_fd_ s) a] /\ heap (submit_accept a s) = <[a := new_ctx (listen_fd_ s)]> (heap s)).
Proof.
  intros Hk Hq Hc [Ha Hn]. destruct (submit_accept_spec k a s l Hk Hq) as [[Hl ->]|(_ & Hq' & Hh & Hcq & Hm & HL & _)].
  { exists []. split; [split; [by rewrite app_nil_r|done..]|lia]. }
  eexists [_]. split; [|done]. split; [done| |done|done]. rewrite HL, Hh, Hm. cbn.
  apply core_new; [done|done|done|]. apply new_ctx_item; [done| |done]. split; [|done]. by split_and!.
Qed.

Lemma submitted_next k s l its p c' e o :
  submitted k p s l c' e o -> user_data e = p -> sq_ok k (sq s) l -> core (listen_fd_ s) (heap s) (socks s) its ->
  core (listen_fd_ s) (<[p := c']> (heap s)) (socks s) ((p, Submitted e) :: its) ->
  exists s' new, o = Some s' /\ handled k s l its new s' /\ (forall q, q <> p -> heap s' !! q = heap s !! q) /\
    (Z.of_nat (length l) < 2 ^ k -> new = [e] /\ heap s' = <[p := c']> (heap s)).
Proof.
  intros [[Hl ->]|(_ & s' & -> & Hq' & Hh & Hcq & Hm & HL & _)] He Hq Hc Hc'.
  - exists s, []. split; [done|]. split; [split; [by rewrite app_nil_r|done..]|]. split; [done|lia].
  - exists s', [e]. split; [done|]. split; [|split; [|done]; intros q Hne; by rewrite Hh, lookup_insert_ne].
    split; [done| |done|done]. rewrite HL, Hh, Hm. cbn. unfold op_item. by rewrite He.
Qed.

(** The next operation on the connection of [p]. *)
Lemma core_next L h m p r c its c' e :
  core L h m ((p, Completed r) :: its) -> h !! p = Some c -> type c <> ACCEPT -> 0 < r ->
  fd c' = fd c -> buffer c' = buffer c -> type c' <> ACCEPT -> phase_ok L p c' (Submitted e) ->
  pending_bytes c' (Submitted e) = pending_bytes c (Completed r) ->
  core L (<[p := c']> h) m ((p, Submitted e) :: its).
Proof.
  intros Hc Hp Hty Hr Hfd Hbuf Hty' Hok Hpend. pose proof Hc as ([_ _ _ Hs] & (c0 & Hc0 & H0 & _ & Ho) & _ & _)%core_cons.
  cbn in Hc0. simplify_eq. assert (own_of c (Completed r) = Some (fd c)) as Hown by (unfold own_of; by destruct (type c)).
  assert (own_of c' (Submitted e) = Some (fd c)) as Hown' by (unfold own_of; rewrite Hfd; by destruct (type c')).
  eapply core_replace; [done|done| | |done].
  - intros f Hf. left. unfold own. cbn. rewrite Hp. cbn. congruence.
  - exists c'. cbn. rewrite lookup_insert_eq. split_and!; [done|done|done|]. rewrite Hown'. intros f [= <-].
    destruct (Ho (fd c) Hown) as (got & sent & Hm & He). exists got, sent. split; [done|]. right. rewrite Hpend.
    destruct He as [Hfw|]; [|done]. unfold failed_write in Hfw. cbn in Hfw. destruct (type c); lia.
Qed.

(** Closing the connection of a completed operation. *)
Lemma core_close L s p r c its :
  core L (heap s) (socks s) ((p, Completed r) :: its) -> heap s !! p = Some c -> type c <> ACCEPT ->
  core L (heap (drop_client p c s)) (socks (drop_client p c s)) its.
Proof.
  intros Hc Hp Hty. pose proof Hc as ([_ _ _ Hs] & _ & _ & Hown)%core_cons. cbn.
  apply (core_delete _ _ (socks s) (p, Completed r)); [done| |by apply map_Forall_delete].
  intros f Hf. apply lookup_delete_ne. intros <-. apply (Hown (fd c)); [|done]. unfold own. cbn. rewrite Hp. cbn.
  unfold own_of. by destruct (type c).
Qed.

(** The operations and contexts that a completion leads to while the
    submission ring has room. *)
Definition next_ops (L p r a1 a2 : Z) (c : ConnectionContext) (h : gmap Z ConnectionContext) : list sqe * gmap Z ConnectionContext :=
  match type c with
  | ACCEPT =>
      if 0 <=? r then
        ([read_op r a1; accept_op L a2], delete p (<[a2 := new_ctx L]> (<[a1 := read_ctx (new_ctx r)]> h)))
      else ([accept_op L a2], delete p (<[a2 := new_ctx L]> h))
  | READ => if 0 <? r then ([write_op (fd c) p r], <[p := write_ctx c r]> h) else ([], delete p h)
  | WRITE => if 0 <? r then ([read_op (fd c) p], <[p := read_ctx c]> h) else ([], delete p h)
  end.

Definition handler_ok (k p r a1 a2 : Z) (c : ConnectionContext) (s : t) (l : list sqe) (its : list (Z * phase)) : Prop :=
  exists s' new, handle_completion p r a1 a2 s = Some s' /\ handled k s l its new s' /\
    (Z.of_nat (length l) + 1 < 2 ^ k -> (new, heap s') = next_ops (listen_fd_ s) p r a1 a2 c (heap s)).

Section handler.
Context (k p r a1 a2 : Z) (c : ConnectionContext) (s : t) (l : list sqe) (its : list (Z * phase)).
Hypothesis Hk : 0 <= k < 32.
Hypothesis Hq : sq_ok k (sq s) l.
Hypothesis Hc : core (listen_fd_ s) (heap s) (socks s) ((p, Completed r) :: its).
Hypothesis Hp : heap s !! p = Some c.

Lemma handler_client_ok : type c <> ACCEPT -> handler_ok k p r a1 a2 c s l its.
Proof using Hk Hq Hc Hp.
  intros Hty. pose proof Hc as (Hits & (c0 & Hc0 & H0 & Hph & _) & _ & _)%core_cons. cbn in Hc0, H0, Hph. simplify_eq.
  destruct Hph as (Hr & _ & Hbl). specialize (Hr Hty). unfold handler_ok, handle_completion, next_ops.
  rewrite Hp. cbn [mbind option_bind]. pose proof (core_close _ _ _ _ _ _ Hc Hp Hty) as Hclose.
  destruct (type c) eqn:Ety; [done|..]; (destruct (Z.ltb_spec 0 r) as [H0r|];
    [|exists (drop_client p c s), []; split; [done|]; split; [split; [by rewrite app_nil_r|done..]|done]]).
  - assert (u32 r = r) as Hur by (apply wrap_small; unfold BUFFER in Hr; lia). rewrite Hur.
    pose proof (submit_write_spec k p r (add_total r s) l c Hk Hq Hp) as Hsub.
    destruct (submitted_next _ _ _ its _ _ _ _ Hsub) as (s' & new & Hs' & [H1 H2 H3 H4] & _ & Hroom); [done..| |].
    + cbn. eapply core_next; [done|done|congruence|done|done|done|done| |].
      * split; [|done]. cbn. by split_and!.
      * unfold pending_bytes. by rewrite Ety.
    + exists s', new. split; [done|]. split; [done|]. intros Hl. by destruct Hroom as [-> ->]; [lia|].
  - pose proof (submit_read_spec k p s l c Hk Hq Hp) as Hsub.
    destruct (submitted_next _ _ _ its _ _ _ _ Hsub) as (s' & new & Hs' & Hh & _ & Hroom); [done..| |].
    + eapply core_next; [done|done|congruence|done|done|done|done| |].
      * split; [|done]. cbn. by split_and!.
      * unfold pending_bytes. by rewrite Ety.
    + exists s', new. split; [done|]. split; [done|]. intros Hl. by destruct Hroom as [-> ->]; [lia|].
Qed.

(** The completed accept gives up its connection to the new context. *)
Lemma accept_gives_up :
  type c = ACCEPT -> core (listen_fd_ s) (heap s) (socks s) ((p, Completed (-1)) :: its) /\
  (0 <= r -> (r ∉ omap (own (heap s)) ((p, Completed (-1)) :: its)) /\
     exists got sent, socks s !! r = Some (got, sent) /\ echo full got sent []).
Proof using Hc Hp.
  intros Hty. pose proof Hc as (Hits & (c0 & Hc0 & H0 & Hph & Hm) & Hnin & Hown)%core_cons. cbn in Hc0, H0, Hph, Hm. simplify_eq.
  destruct Hph as (_ & HL & Hbl).
  assert (own (heap s) (p, Completed (-1)) = None) as Hno by (unfold own, own_of; cbn; rewrite Hp; cbn; by rewrite Hty).
  split.
  - apply core_cons. rewrite Hno. split_and!; try done. exists c. cbn. split_and!; try done.
    unfold own_of. by rewrite Hty.
  - intros H0r. assert (own_of c (Completed r) = Some r) as Ho by (unfold own_of; by rewrite Hty, (proj2 (Z.leb_le _ _))).
    split.
    + cbn. rewrite Hno. apply Hown. unfold own. cbn. by rewrite Hp.
    + destruct (Hm r Ho) as (got & sent & Hs & He). exists got, sent. split; [done|].
      unfold failed_write, pending_bytes in He. rewrite Hty in He. by destruct He.
Qed.

(** Deleting the context of the accept at the end. *)
Lemma handled_delete s1 new :
  handled k s l ((p, Completed (-1)) :: its) new s1 -> handled k s l its new (set_heap (delete p (heap s1)) s1).
Proof using.
  intros [H1 H2 H3 H4]. split; try done. cbn. rewrite (Permutation_sym (Permutation_middle _ _ _)) in H2.
  apply (core_delete _ _ (socks s1) (p, Completed (-1))); [done|done|apply H2].
Qed.

Lemma handler_accept_ok :
  type c = ACCEPT -> fresh s a1 -> fresh s a2 -> a1 <> a2 -> handler_ok k p r a1 a2 c s l its.
Proof using Hk Hq Hc Hp.
  intros Hty [Ha1 Hn1] Hf2 Hne. destruct (accept_gives_up Hty) as [Hc' Hr].
  unfold handler_ok, handle_completion, next_ops. rewrite Hp. cbn [mbind option_bind]. rewrite Hty.
  destruct (Z.leb_spec 0 r) as [H0r|].
  2: { cbn [mbind option_bind]. destruct (handle_next_accept k s l _ a2 Hk Hq Hc' Hf2) as (new & Hh & Hroom).
       eexists _, new. split; [done|]. split; [by apply handled_delete|]. intros Hl.
       destruct Hroom as [-> Hheap]; [lia|]. cbn. by rewrite Hheap. }
  destruct (Hr H0r) as (Hrn & got & sent & Hm & He). set (s0 := set_heap (<[a1 := new_ctx r]> (heap s)) s).
  assert (heap s0 !! a1 = Some (new_ctx r)) as Hs0 by apply lookup_insert_eq.
  assert (<[a1 := read_ctx (new_ctx r)]> (heap s0) = <[a1 := read_ctx (new_ctx r)]> (heap s)) as Hins by apply insert_insert_eq.
  assert (forall it, it ∈ (p, Completed (-1)) :: its -> it.1 <> a1) as Hkeys.
  { intros it Hin <-. pose proof (c_items _ _ _ _ Hc') as Hi. rewrite Forall_forall in Hi. destruct (Hi it Hin) as (? & ? & _). congruence. }
  pose proof (submit_read_spec k a1 s0 l _ Hk Hq Hs0) as Hsub.
  destruct (submitted_next _ _ _ ((p, Completed (-1)) :: its) _ _ _ _ Hsub) as (s1 & new1 & Hs1 & [H1 H2 H3 H4] & Hsame & Hroom1).
  { done. } { done. }
  { eapply core_frame; [exact Hc'| |done|apply Hc']. intros it Hin. apply lookup_insert_ne. by apply not_eq_sym, Hkeys. }
  { rewrite Hins. apply core_new; [done|done|by intros f [= <-]|]. exists (read_ctx (new_ctx r)). cbn [fst snd].
    rewrite lookup_insert_eq. split_and!; [done|done|split; [|done]; cbn; by split_and!|]. intros f [= <-]. eauto. }
  rewrite Hs1. cbn [mbind option_bind].
  assert (fresh s1 a2) as Hf2'.
  { destruct Hf2 as [Ha2 Hn2]. split; [done|]. rewrite Hsame by done. by unfold s0; cbn; rewrite lookup_insert_ne. }
  destruct (handle_next_accept k s1 _ _ a2 Hk H1 H2 Hf2') as (new2 & [G1 G2 G3 G4] & Hroom2).
  eexists _, (new1 ++ new2). split; [done|]. split.
  - apply handled_delete. split; [by rewrite app_assoc| |by rewrite G3|by rewrite G4].
    rewrite fmap_app, <- app_assoc. by rewrite (Permutation_app_swap_app (op_item <$> new1)).
  - intros Hl. destruct Hroom1 as [-> Hh1]; [lia|]. destruct Hroom2 as [-> Hh2]; [rewrite length_app; cbn; lia|].
    cbn. by rewrite Hh2, H4, Hh1, Hins.
Qed.
End handler.

(** ** The kernel steps *)

Lemma echo_short got sent bs n m :
  (n <= m)%nat -> (full = true -> n = m) -> echo full got sent (take m bs) -> echo full got (sent ++ take n bs) [].
Proof.
  intros Hn Hf. unfold echo. rewrite app_nil_r. destruct full; [by rewrite Hf|].
  intros H. etrans; [|exact H]. apply sublist_app; [done|]. rewrite <- (Nat.min_l n m), <- take_take by done. apply sublist_take.
Qed.

Lemma echo_read got sent data : echo full got sent [] -> echo full (got ++ data) sent data.
Proof.
  unfold echo. rewrite app_nil_r. destruct full; [by intros ->|]. intros H. by apply sublist_app.
Qed.

Section execution.
Context (s : t) (e : sqe) (its : list (Z * phase)) (c : ConnectionContext).
Abbreviation p := (user_data e).
Hypothesis Hc : core (listen_fd_ s) (heap s) (socks s) (op_item e :: its).
Hypothesis Hp : heap s !! p = Some c.

(** Completing the operation of [p], with context [c'] and connections [m']. *)
Lemma complete_item c' r m' :
  (forall f, own_of c' (Completed r) = Some f -> own_of c (Submitted e) = Some f \/ socks s !! f = None) ->
  (forall f, f ∈ omap (own (heap s)) its -> m' !! f = socks s !! f) ->
  phase_ok (listen_fd_ s) p c' (Completed r) ->
  (forall f, own_of c' (Completed r) = Some f -> exists got sent, m' !! f = Some (got, sent) /\
     (failed_write c' (Completed r) \/ echo full got sent (pending_bytes c' (Completed r)))) ->
  map_Forall (fun _ => sock_ok) m' ->
  core (listen_fd_ s) (<[p := c']> (heap s)) m' ((p, Completed r) :: its).
Proof using Hc Hp.
  intros Ho Hm' Hok He Hs. pose proof Hc as (_ & (c0 & _ & H0 & _) & _ & _)%core_cons. cbn in H0.
  eapply core_replace; [exact Hc|done| | |done].
  - intros f Hf. unfold own. cbn [fst snd]. rewrite Hp. by apply Ho.
  - exists c'. cbn [fst snd]. by rewrite lookup_insert_eq.
Qed.

Lemma submitted_item :
  phase_ok (listen_fd_ s) p c (Submitted e) /\
  forall f, own_of c (Submitted e) = Some f -> (f ∉ omap (own (heap s)) its) /\
    exists got sent, socks s !! f = Some (got, sent) /\ echo full got sent (pending_bytes c (Submitted e)).
Proof using Hc Hp.
  pose proof Hc as (_ & (c0 & Hc0 & _ & Hph & Hm) & _ & Hown)%core_cons. cbn [fst snd op_item] in *. simplify_eq.
  split; [done|]. intros f Hf. split; [apply Hown; unfold own; cbn; by rewrite Hp|].
  destruct (Hm f Hf) as (got & sent & ? & [Hfw|]); [|by eauto]. unfold failed_write in Hfw. by destruct (type c).
Qed.

Lemma execute_failed r :
  r <= 0 -> op e <> OP_ACCEPT \/ r < 0 -> core (listen_fd_ s) (heap s) (socks s) ((p, Completed r) :: its).
Proof using Hc Hp.
  intros Hr Hacc. destruct submitted_item as [((Hop & _) & HL & Hbl) Hm]. rewrite <- (insert_id (heap s) p c) by done.
  assert (type c = ACCEPT -> r < 0) as Ha by (intros Hty; rewrite Hop, Hty in Hacc; naive_solver).
  apply complete_item; [|done| | |apply Hc].
  - unfold own_of. destruct (type c); [|naive_solver..]. by rewrite (proj2 (Z.leb_gt _ _)) by auto.
  - split; [|done]. intros _. unfold BUFFER. lia.
  - unfold own_of, failed_write, pending_bytes in *. destruct (type c); [by rewrite (proj2 (Z.leb_gt _ _)) by auto|..].
    + intros f Hf. destruct (Hm f Hf) as (_ & got & sent & ? & ?). exists got, sent. split; [done|]. right.
      by replace (Z.to_nat r) with 0%nat by lia.
    + intros f Hf. destruct (Hm f Hf) as (_ & got & sent & ? & _). eauto.
Qed.

Lemma execute_accept r :
  op e = OP_ACCEPT -> 0 <= r -> socks s !! r = None ->
  core (listen_fd_ s) (heap s) (<[r := ([], [])]> (socks s)) ((p, Completed r) :: its).
Proof using Hc Hp.
  intros Hacc Hr Hnone. destruct submitted_item as [((Hop & _) & HL & Hbl) _]. rewrite <- (insert_id (heap s) p c) by done.
  assert (type c = ACCEPT) as Ety by (rewrite Hop in Hacc; by destruct (type c)).
  assert (own_of c (Completed r) = Some r) as Ho by (unfold own_of; by rewrite Ety, (proj2 (Z.leb_le _ _))).
  pose proof Hc as (Hits & _)%core_cons. apply complete_item.
  - intros f Hf. right. congruence.
  - intros f Hf. apply lookup_insert_ne. intros <-. destruct (owned_all_open _ _ _ _ _ Hits Hf). congruence.
  - split; [congruence|done].
  - intros f Hf. assert (f = r) as -> by congruence. exists [], []. rewrite lookup_insert_eq. split; [done|]. right.
    unfold pending_bytes, echo. rewrite Ety. by destruct full.
  - apply map_Forall_insert_2; [|apply Hc]. unfold sock_ok. by destruct full.
Qed.

(** A successful transfer on the connection of [p]. *)
Lemma execute_transfer c' r got' sent' :
  type c <> ACCEPT -> type c' = type c -> fd c' = fd c -> length (buffer c') = BUFFER -> r <= Z.of_nat BUFFER ->
  echo full got' sent' (pending_bytes c' (Completed r)) ->
  core (listen_fd_ s) (<[p := c']> (heap s)) (<[fd c := (got', sent')]> (socks s)) ((p, Completed r) :: its).
Proof using Hc Hp.
  intros Hty Hty' Hfd Hbl Hr He. destruct submitted_item as [_ Hm].
  assert (own_of c (Submitted e) = Some (fd c)) as Ho by (unfold own_of; by destruct (type c)).
  assert (own_of c' (Completed r) = Some (fd c)) as Ho' by (unfold own_of; rewrite Hty', Hfd; by destruct (type c)).
  destruct (Hm _ Ho) as [Hnin _]. apply complete_item.
  - intros f Hf. left. congruence.
  - intros f Hf. apply lookup_insert_ne. by intros <-.
  - split; [done|]. split; [congruence|done].
  - intros f Hf. assert (f = fd c) as -> by congruence. exists got', sent'. rewrite lookup_insert_eq. by split; [|right].
  - apply map_Forall_insert_2; [|apply Hc]. by eapply echo_sock.
Qed.

Lemma execute_core r s1 :
  execute full e r s s1 ->
  core (listen_fd_ s) (heap s1) (socks s1) ((p, Completed r) :: its) /\
  sq s1 = sq s /\ cq s1 = cq s /\ listen_fd_ s1 = listen_fd_ s.
Proof using Hc Hp.
  intros Hx. split; [|by destruct Hx]. destruct submitted_item as [((Hop & Hfd & Ha & _ & Hlr & Hlw) & HL & Hbl) Hm].
  destruct Hx as [Hr Hacc|Hacc Hr HrL Hnone|c1 data got sent Hrd Hr Hdata Hc1 Hsock|c1 got sent Hwr Hr Hfull Hc1 Hsock].
  - by apply execute_failed.
  - by apply execute_accept.
  - assert (type c = READ) as Ety by (rewrite Hop in Hrd; by destruct (type c)). rewrite Hlr in Hr by done.
    assert (c1 = c) by (rewrite Ha in Hc1; congruence). subst c1. clear Hc1. cbn [heap socks set_heap set_socks]. rewrite Ha, Hfd in *.
    destruct (Hm (fd c)) as (_ & got0 & sent0 & Hs0 & He); [unfold own_of; by rewrite Ety|]. simplify_eq.
    apply execute_transfer; cbn; try done; [congruence| |lia|].
    + rewrite length_app, length_drop. unfold BUFFER in *. lia.
    + unfold pending_bytes in *. cbn. rewrite Ety in *. rewrite Nat2Z.id, take_app_length. by apply echo_read.
  - assert (type c = WRITE) as Ety by (rewrite Hop in Hwr; by destruct (type c)). specialize (Hlw Ety).
    assert (c1 = c) by (rewrite Ha in Hc1; congruence). subst c1. clear Hc1. cbn [heap socks set_heap set_socks]. rewrite Hfd in *.
    destruct (Hm (fd c)) as (_ & got0 & sent0 & Hs0 & He); [unfold own_of; by rewrite Ety|]. simplify_eq.
    rewrite <- (insert_id (heap s) p c) by done. apply execute_transfer; try done; [congruence|lia|].
    unfold pending_bytes in *. rewrite Ety in *. eapply echo_short; [|intros ->; by rewrite Hfull|done]. lia.
Qed.
End execution.

(** ** Configurations *)

Record cq_ok (kc : Z) (q : CQ) (l : list cqe) : Prop := {
  co_entries : cq_entries q = 2 ^ kc;
  co_mask : cq_mask_ q = 2 ^ kc - 1;
  co_cqes : Z.of_nat (length (cqes_ q)) = 2 ^ kc;
  co_ring : ring kc (cq_head_ q) (cq_tail_ q) (fun j => cqes_ q !! j) l }.

(** [todo] in the submission ring, [fl] in the kernel, [rest] completed. *)
Definition outstanding (todo fl : list sqe) (rest : list cqe) : list (Z * phase) :=
  (op_item <$> todo ++ fl) ++ (done_item <$> rest).

(** The thread has handled the first [length dn] entries of the completion
    ring since it last published its position. *)
Definition pc_ok (q : CQ) (l : pc) (dn rest : list cqe) : Prop :=
  match l with
  | Loop head tail => head = u32 (cq_head_ q + Z.of_nat (length dn)) /\
      exists m, (m <= length rest)%nat /\ tail = u32 (cq_head_ q + Z.of_nat (length dn + m))
  | _ => dn = []
  end.

Record cfg_ok (k kc : Z) (x : cfg) (todo : list sqe) (dn rest : list cqe) : Prop := {
  x_sq : sq_ok k (sq (st x)) todo;
  x_cq : cq_ok kc (cq (st x)) (dn ++ rest);
  x_pc : pc_ok (cq (st x)) (at_ x) dn rest;
  x_core : core (listen_fd_ (st x)) (heap (st x)) (socks (st x)) (outstanding todo (inflight x) rest) }.

Lemma consume_spec k s l e s' :
  0 <= k < 32 -> sq_ok k (sq s) l -> consume s = Some (e, s') ->
  exists l', l = e :: l' /\ sq_ok k (sq s') l' /\ heap s' = heap s /\ frame s s'.
Proof.
  intros Hk [He Hm Hs Ha Hr]. unfold consume. destruct (Z.eqb_spec (sq_head_ (sq s)) (sq_tail_ (sq s))) as [|Hne]; [done|].
  destruct l as [|e0 l']; [by apply (ring_nil k Hk) in Hr as [_ ?]; destruct Hne; auto|].
  destruct (ring_pop k Hk _ _ _ _ _ Hr) as (Hget & _ & Hr'). unfold sq_get in Hget. rewrite Hm.
  destruct (sq_array_ (sq s) !! _) as [i|]; [|done]. cbn [mbind option_bind] in *.
  case_decide as Hi; [|done]. rewrite Hi, Hget. cbn. intros [= <- <-]. exists l'. split; [done|]. split; [|done].
  by split.
Qed.

Lemma uring_enter_spec k n s l es s' :
  0 <= k < 32 -> sq_ok k (sq s) l -> enter n s = Some (es, s') ->
  exists l', l = es ++ l' /\ sq_ok k (sq s') l' /\ heap s' = heap s /\ frame s s'.
Proof.
  intros Hk. revert s l es. induction n as [|n IH]; intros s l es Hq; cbn [enter].
  { intros [= <- <-]. by exists l. }
  destruct (consume s) as [[e s1]|] eqn:Hcon; [|done]. cbn [mbind option_bind].
  destruct (enter n s1) as [[es1 s2]|] eqn:Hen; [|done]. cbn. intros [= <- <-].
  destruct (consume_spec k s l e s1 Hk Hq Hcon) as (l1 & -> & Hq1 & Hh1 & Hf1).
  destruct (IH s1 l1 es1 Hq1 Hen) as (l2 & -> & Hq2 & Hh2 & Hf2). exists l2. split; [done|]. split; [done|].
  split; [congruence|]. unfold frame in *. naive_solver congruence.
Qed.

Lemma ring_drop {S} k (Hk : 0 <= k < 32) head tail (get : nat -> option S) q1 q2 :
  ring k head tail get (q1 ++ q2) -> ring k (u32 (head + Z.of_nat (length q1))) tail get q2.
Proof.
  revert head. induction q1 as [|x q1 IH]; intros head Hr.
  { cbn. rewrite Z.add_0_r, wrap_small; [done|apply Hr]. }
  apply (ring_pop k Hk) in Hr as (_ & _ & Hr). apply IH in Hr. rewrite wrap_add_l in Hr. cbn [length].
  by replace (head + Z.of_nat (Datatypes.S (length q1))) with (head + 1 + Z.of_nat (length q1)) by lia.
Qed.

Lemma post_spec kc s c l s' :
  0 <= kc < 32 -> cq_ok kc (cq s) l -> post c s = Some s' ->
  cq_ok kc (cq s') (l ++ [c]) /\ cq_head_ (cq s') = cq_head_ (cq s) /\ sq s' = sq s /\ heap s' = heap s /\
  socks s' = socks s /\ listen_fd_ s' = listen_fd_ s.
Proof.
  intros Hk [He Hm Hl Hr]. unfold post. rewrite He, (ring_count kc Hk _ _ _ _ Hr).
  destruct (Z.leb_spec (2 ^ kc) (Z.of_nat (length l))); [done|]. intros [= <-]. cbn. split; [|done].
  assert (slot (cq_tail_ (cq s)) (2 ^ kc - 1) < Z.to_nat (2 ^ kc))%nat as Hlt.
  { rewrite (r_tail _ _ _ _ _ Hr). by apply slot_lt. }
  split; cbn; try done; [by rewrite length_insert|]. rewrite Hm.
  eapply (ring_push kc Hk); [done|done|by rewrite list_lookup_insert_eq by lia|].
  intros j y Hne. by rewrite list_lookup_insert_ne.
Qed.

(** The entry the thread looks at. *)
Lemma loop_entry kc q head tail dn rest :
  0 <= kc < 32 -> cq_ok kc q (dn ++ rest) -> pc_ok q (Loop head tail) dn rest -> head <> tail ->
  exists c rest', rest = c :: rest' /\ cqes_ q !! slot head (cq_mask_ q) = Some c /\
    pc_ok q (Loop (u32 (head + 1)) tail) (dn ++ [c]) rest'.
Proof.
  intros Hk [He Hm Hl Hr] (Hh & m & Hle & Ht) Hne.
  destruct rest as [|c rest']. { destruct m; [|cbn in Hle; lia]. by rewrite Nat.add_0_r in Ht; destruct Hne; congruence. }
  exists c, rest'. split; [done|]. split.
  - apply ring_drop in Hr; [|done]. apply (ring_pop kc Hk) in Hr as (Hget & _). by rewrite Hm, Hh.
  - destruct m as [|m]; [rewrite Nat.add_0_r in Ht; congruence|]. cbn [length] in Hle. rewrite Hh. split.
    + rewrite wrap_add_l, length_app. cbn [length]. f_equal. lia.
    + exists m. split; [lia|]. rewrite Ht, length_app. cbn [length]. f_equal. lia.
Qed.

(** ** Every context is in use *)

Definition is_accept (h : gmap Z ConnectionContext) (q : Z) : Prop := type <$> h !! q = Some ACCEPT.

#[export] Instance is_accept_dec h q : Decision (is_accept h q).
Proof. unfold is_accept. apply _. Defined.

(** Every context has an outstanding operation, and [n] of them are accepts. *)
Definition served (n : nat) (h : gmap Z ConnectionContext) (keys : list Z) : Prop :=
  (forall q, is_Some (h !! q) -> q ∈ keys) /\ length (filter (is_accept h) keys) = n.

Lemma filter_accept_ext h h' (keys : list Z) :
  (forall q, q ∈ keys -> type <$> h' !! q = type <$> h !! q) -> filter (is_accept h') keys = filter (is_accept h) keys.
Proof.
  intros H. induction keys as [|q keys IH]; [done|]. rewrite !filter_cons, IH by (intros; apply H; by right).
  specialize (H q ltac:(left)).
  destruct (decide (is_accept h' q)) as [Hy|Hn], (decide (is_accept h q)) as [Hy'|Hn']; unfold is_accept in *; congruence.
Qed.

Lemma served_same n h h' keys keys' :
  keys ≡ₚ keys' -> (forall q, type <$> h' !! q = type <$> h !! q) -> served n h keys -> served n h' keys'.
Proof.
  intros Hp Ht [Hall Hacc]. split.
  - intros q Hq. rewrite <- Hp. apply Hall. specialize (Ht q). destruct (h !! q); [done|].
    destruct Hq as [c Hc]. by rewrite Hc in Ht.
  - rewrite (filter_accept_ext h h') by done. by rewrite <- Hp.
Qed.

Lemma execute_types e r s s1 q : execute full e r s s1 -> type <$> heap s1 !! q = type <$> heap s !! q.
Proof.
  intros [| |c data got sent _ _ _ Hc _|]; try done. cbn.
  destruct (decide (q = addr e)) as [->|Hne]; [by rewrite lookup_insert_eq, Hc|by rewrite lookup_insert_ne].
Qed.

Definition accepts (c : ConnectionContext) : nat := if decide (type c = ACCEPT) then 1 else 0.

Lemma filter_accept_cons h q c (keys : list Z) :
  h !! q = Some c -> length (filter (is_accept h) (q :: keys)) = (accepts c + length (filter (is_accept h) keys))%nat.
Proof.
  intros Hq. rewrite filter_cons. unfold accepts. assert (is_accept h q <-> type c = ACCEPT) as Hiff.
  { unfold is_accept. rewrite Hq. cbn. split; congruence. }
  destruct (decide (is_accept h q)), (decide (type c = ACCEPT)); done || naive_solver.
Qed.

Lemma served_new n h keys a c : served n h keys -> a ∉ keys -> served (accepts c + n) (<[a := c]> h) (a :: keys).
Proof.
  intros [Hall <-] Ha. split.
  - intros q. destruct (decide (q = a)) as [->|Hne]; [by left|]. rewrite lookup_insert_ne by done. right. by apply Hall.
  - rewrite (filter_accept_cons _ _ c) by apply lookup_insert_eq. f_equal. f_equal.
    apply filter_accept_ext. intros q Hq. rewrite lookup_insert_ne; [done|]. by intros ->.
Qed.

Lemma served_delete n h keys p c : h !! p = Some c -> served n h (p :: keys) -> p ∉ keys -> served (n - accepts c) (delete p h) keys.
Proof.
  intros Hc [Hall <-] Hp. split.
  - intros q. destruct (decide (q = p)) as [->|Hne]; [by rewrite lookup_delete_eq; intros []|].
    rewrite lookup_delete_ne by done. intros Hq. specialize (Hall q Hq). by apply elem_of_cons in Hall as [|].
  - rewrite (filter_accept_cons _ _ c) by done. rewrite (filter_accept_ext h (delete p h)); [lia|].
    intros q Hq. rewrite lookup_delete_ne; [done|]. by intros ->.
Qed.

(** After the handler of [p], the new operations take the place of [p]. *)
Lemma served_next n L p r a1 a2 c h keys :
  h !! p = Some c -> h !! a1 = None -> h !! a2 = None -> a1 <> a2 -> NoDup (p :: keys) ->
  (forall q, q ∈ keys -> is_Some (h !! q)) -> served n h (p :: keys) ->
  served n (next_ops L p r a1 a2 c h).2 ((user_data <$> (next_ops L p r a1 a2 c h).1) ++ keys).
Proof.
  intros Hp H1 H2 Hne [Hpk Hnd]%NoDup_cons Hlive Hs. assert (p <> a1 /\ p <> a2) as [Hp1 Hp2] by (split; congruence).
  assert ((a1 ∉ keys) /\ (a2 ∉ keys)) as [Hk1 Hk2] by (split; intros [? ?]%Hlive; congruence).
  assert (forall c', type c <> ACCEPT -> type c' <> ACCEPT -> served n (<[p := c']> h) (p :: keys)) as Hupd.
  { intros c' Hc Hc'. rewrite <- insert_delete_eq. replace n with (accepts c' + (n - accepts c))%nat.
    - apply served_new; [by apply served_delete|done].
    - unfold accepts. rewrite !decide_False by done. lia. }
  unfold next_ops. destruct (type c) eqn:Ety; [|destruct (0 <? r); cbn..].
  - assert (forall h1 keys1, served n h1 (p :: keys1) -> h1 !! p = Some c -> a2 ∉ p :: keys1 -> p ∉ keys1 ->
      served n (delete p (<[a2 := new_ctx L]> h1)) (a2 :: keys1)) as Hacc.
    { intros h1 keys1 Hs1 Hp1' Ha2 Hpk1. replace n with (accepts (new_ctx L) + n - accepts c)%nat
        by (unfold accepts; rewrite Ety; cbn; lia).
      apply served_delete; [by rewrite lookup_insert_ne| |by rewrite not_elem_of_cons].
      eapply served_same; [apply Permutation_swap|done|]. by apply served_new. }
    destruct (0 <=? r); cbn.
    + eapply served_same; [apply Permutation_swap|done|]. apply Hacc; [|by rewrite lookup_insert_ne|set_solver|set_solver].
      eapply served_same; [apply Permutation_swap|done|]. apply (served_new n); [done|set_solver].
    + apply Hacc; [done|done|set_solver|done].
  - by apply Hupd.
  - replace n with (n - accepts c)%nat by (unfold accepts; rewrite decide_False; [lia|congruence]). by apply served_delete.
  - by apply Hupd.
  - replace n with (n - accepts c)%nat by (unfold accepts; rewrite decide_False; [lia|congruence]). by apply served_delete.
Qed.

(** ** Steps *)

Section steps.
Context (k kc : Z) (Hk : 0 <= k < 32) (Hkc : 0 <= kc < 32).

Definition keys (todo fl : list sqe) (rest : list cqe) : list Z := (outstanding todo fl rest).*1.

(** [y] is well formed, and if all contexts of [x] were in use and there was
    room then so are those of [y]. *)
Definition next_ok (x y : cfg) (todo : list sqe) (rest : list cqe) : Prop :=
  exists todo' dn' rest', cfg_ok k kc y todo' dn' rest' /\
    (Z.of_nat (size (heap (st x))) < 2 ^ k -> served 1 (heap (st x)) (keys todo (inflight x) rest) ->
     served 1 (heap (st y)) (keys todo' (inflight y) rest')).

Lemma keys_live listen h m items q : core listen h m items -> q ∈ items.*1 -> is_Some (h !! q).
Proof using.
  intros Hc (it & -> & Hin)%list_elem_of_fmap. pose proof (c_items _ _ _ _ Hc) as Hi. rewrite Forall_forall in Hi.
  destruct (Hi it Hin) as (c & Hc' & _). eauto.
Qed.

Lemma keys_size listen h m items : core listen h m items -> (length items <= size h)%nat.
Proof using.
  intros Hc. rewrite <- (length_fmap fst), <- size_dom, <- (size_list_to_set (C := gset Z)) by apply Hc.
  apply subseteq_size. intros q Hq%elem_of_list_to_set. apply elem_of_dom. by eapply keys_live.
Qed.

Lemma submit_step s es s' n fl todo dn rest :
  cfg_ok k kc (mk_cfg s Top fl) todo dn rest -> enter n s = Some (es, s') ->
  next_ok (mk_cfg s Top fl) (mk_cfg (set_pending 0 s') Check (fl ++ es)) todo rest.
Proof using Hk.
  intros [Hq Hcq Hpc Hc] Hen. cbn in *.
  destruct (uring_enter_spec k n s todo es s' Hk Hq Hen) as (todo' & -> & Hq' & Hh & Hf1 & Hf2 & Hf3 & _).
  assert (outstanding (es ++ todo') fl rest ≡ₚ outstanding todo' (fl ++ es) rest) as Hperm.
  { unfold outstanding. by rewrite <- app_assoc, (Permutation_app_comm es), app_assoc. }
  exists todo', dn, rest. split.
  - split; cbn; [done|by rewrite Hf1|done|]. by rewrite Hf2, Hf3, Hh, <- Hperm.
  - cbn. intros _ Hs. eapply served_same; [|by rewrite Hh|exact Hs]. unfold keys. by rewrite Hperm.
Qed.

Lemma handle_step s fl head tail a1 a2 s' todo dn rest :
  cfg_ok k kc (mk_cfg s (Loop head tail) fl) todo dn rest -> head <> tail -> fresh s a1 -> fresh s a2 -> a1 <> a2 ->
  handle_cqe head a1 a2 s = Some s' ->
  next_ok (mk_cfg s (Loop head tail) fl) (mk_cfg s' (Loop (u32 (head + 1)) tail) fl) todo rest.
Proof using Hk Hkc.
  intros [Hq Hcq Hpc Hc] Hne Hf1 Hf2 Ha. cbn in Hq, Hcq, Hpc, Hc.
  destruct (loop_entry kc _ _ _ _ _ Hkc Hcq Hpc Hne) as (c & rest' & -> & Hget & Hpc').
  assert (outstanding todo fl (c :: rest') ≡ₚ done_item c :: outstanding todo fl rest') as Hperm.
  { unfold outstanding. by rewrite fmap_cons, Permutation_middle. }
  rewrite Hperm in Hc. pose proof Hc as (_ & (ctx & Hctx & Hnz & _) & _)%core_cons. cbn in Hctx, Hnz.
  assert (handler_ok k (cqe_data c) (res c) a1 a2 ctx s todo (outstanding todo fl rest')) as (s2 & new & Hs2 & Hh & Hroom).
  { destruct (decide (type ctx = ACCEPT)); [by apply handler_accept_ok|by apply handler_client_ok]. }
  unfold handle_cqe. rewrite Hget. cbn [mbind option_bind]. rewrite (proj2 (Z.eqb_neq _ _)) by done.
  rewrite Hs2. intros [= ->]. destruct Hh as [H1 H2 H3 H4].
  assert ((op_item <$> new) ++ outstanding todo fl rest' ≡ₚ outstanding (todo ++ new) fl rest') as Hperm'.
  { unfold outstanding. rewrite !fmap_app, !app_assoc. do 2 f_equiv. apply Permutation_app_comm. }
  exists (todo ++ new), (dn ++ [c]), rest'. split.
  - split; cbn; [done|by rewrite H3, <- app_assoc|by rewrite H3|by rewrite <- Hperm'].
  - cbn [st inflight]. intros Hsize Hs. pose proof (keys_size _ _ _ _ Hc) as Hlen. unfold outstanding in Hlen. cbn [length] in Hlen.
    rewrite length_app, !length_fmap, length_app in Hlen. specialize (Hroom ltac:(lia)).
    replace new with (next_ops (listen_fd_ s) (cqe_data c) (res c) a1 a2 ctx (heap s)).1 by (by rewrite <- Hroom).
    replace (heap s') with (next_ops (listen_fd_ s) (cqe_data c) (res c) a1 a2 ctx (heap s)).2 by (by rewrite <- Hroom).
    eapply (served_same 1 _ _ ((user_data <$> _) ++ keys todo fl rest')); [|done|apply served_next; try done].
    + unfold keys. rewrite <- Hroom in *. cbn [fst] in *. rewrite <- Hperm', fmap_app. f_equiv. by rewrite <- list_fmap_compose.
    + apply Hf1.
    + apply Hf2.
    + apply (c_nodup _ _ _ _ Hc).
    + intros q Hin. eapply keys_live; [exact Hc|]. cbn. by right.
    + eapply served_same; [|done|exact Hs]. unfold keys. by rewrite Hperm.
Qed.

Lemma done_step s fl head todo dn rest :
  cfg_ok k kc (mk_cfg s (Loop head head) fl) todo dn rest ->
  next_ok (mk_cfg s (Loop head head) fl) (mk_cfg (set_cq_head head s) Top fl) todo rest.
Proof using Hkc.
  intros [Hq [He Hm Hl Hr] (Hh & _) Hc]. cbn in *. exists todo, [], rest. split; [|done].
  split; cbn; [done| |done|done]. split; cbn; try done. rewrite Hh. by apply (ring_drop kc Hkc).
Qed.

Lemma complete_step s l fl1 e fl2 r s1 s2 todo dn rest :
  cfg_ok k kc (mk_cfg s l (fl1 ++ e :: fl2)) todo dn rest ->
  execute full e r s s1 -> post (mk_cqe (user_data e) r) s1 = Some s2 ->
  next_ok (mk_cfg s l (fl1 ++ e :: fl2)) (mk_cfg s2 l (fl1 ++ fl2)) todo rest.
Proof using Hkc.
  intros [Hq Hcq Hpc Hc] Hx Hpost. cbn in Hq, Hcq, Hpc, Hc.
  assert (outstanding todo (fl1 ++ e :: fl2) rest ≡ₚ op_item e :: outstanding todo (fl1 ++ fl2) rest) as Hperm.
  { unfold outstanding. rewrite app_assoc, fmap_app, fmap_cons, <- Permutation_middle. cbn.
    by rewrite <- fmap_app, <- app_assoc. }
  rewrite Hperm in Hc. pose proof Hc as (_ & (c & Hp & _) & _)%core_cons. cbn in Hp.
  destruct (execute_core s e _ c Hc Hp r s1 Hx) as (Hc1 & E1 & E2 & E3).
  destruct (post_spec kc s1 _ (dn ++ rest) s2 Hkc ltac:(by rewrite E2) Hpost) as (Hcq' & Hhd & P1 & P2 & P3 & P4).
  assert (outstanding todo (fl1 ++ fl2) (rest ++ [mk_cqe (user_data e) r]) ≡ₚ
    (user_data e, Completed r) :: outstanding todo (fl1 ++ fl2) rest) as Hperm'.
  { unfold outstanding. rewrite (fmap_app done_item), (Permutation_app_comm (done_item <$> rest)). cbn.
    by rewrite <- Permutation_middle. }
  exists todo, dn, (rest ++ [mk_cqe (user_data e) r]). split.
  - split; cbn [st at_ inflight].
    + by rewrite P1, E1.
    + by rewrite app_assoc.
    + destruct l; try done. cbn in *. rewrite Hhd, E2. destruct Hpc as (? & m & ? & ?). split; [done|].
      exists m. rewrite length_app. split; [lia|done].
    + by rewrite P2, P3, P4, E3, Hperm'.
  - cbn [st inflight]. intros _ Hs. eapply served_same; [| |exact Hs].
    + unfold keys. by rewrite Hperm', Hperm.
    + intros q. rewrite P2. by eapply execute_types.
Qed.

Lemma step_ok x y todo dn rest : cfg_ok k kc x todo dn rest -> step full x y -> next_ok x y todo rest.
Proof using Hk Hkc.
  intros Hx Hstep. destruct Hstep as [s es s' n fl _ _ Hen|s fl _|s fl _|s fl _|s fl head tail a1 a2 s' Hne Hf1 Hf2 Ha Hh|s fl head|
    s l fl1 e fl2 r s1 s2 He Hp].
  - by eapply submit_step.
  - destruct Hx as [H1 H2 H3 H4]. exists todo, dn, rest. split; [by split|done].
  - destruct Hx as [H1 H2 H3 H4]. exists todo, dn, rest. split; [by split|done].
  - destruct Hx as [H1 H2 H3 H4]. cbn in *. subst dn. exists todo, [], rest. split; [|done]. split; try done.
    cbn. rewrite Z.add_0_r, wrap_small by apply H2. split; [done|]. exists (length rest). split; [done|].
    by rewrite (r_tail _ _ _ _ _ (co_ring _ _ _ H2)).
  - by eapply (handle_step _ _ _ _ a1 a2).
  - by eapply done_step.
  - by eapply complete_step.
Qed.
End steps.

Lemma started_ok k kc sock rfd a port :
  0 <= k < 32 -> 0 <= kc < 32 -> 0 <= sock -> 0 <= rfd -> a <> 0 ->
  cfg_ok k kc (started k kc sock rfd a port) [accept_op sock a] [] [] /\
  served 1 (heap (st (started k kc sock rfd a port))) [a].
Proof.
  intros Hk Hkc Hs Hr Ha. unfold started, init. cbn [listen_fd_ set_fds e_socket e_bind e_listen e_setup e_rings ring_fd_].
  rewrite !(proj2 (Z.ltb_ge _ _)) by lia. cbn [snd]. set (s0 := set_cq (fresh_cq kc) _).
  assert (0 < 2 ^ k) by (apply Z.pow_pos_nonneg; lia). assert (0 < 2 ^ kc) by (apply Z.pow_pos_nonneg; lia).
  assert (sq_ok k (sq s0) []) as Hq.
  { split; cbn; rewrite ?length_replicate; try lia. split; cbn; [lia|done|lia|done]. }
  destruct (submit_accept_spec k a s0 [] Hk Hq) as [[Hbad _]|(_ & Hq' & Hh & Hf1 & Hf2 & Hf3 & _)]; [cbn in Hbad; lia|].
  split.
  - split; cbn [st at_ inflight]; [done| |done|].
    + rewrite Hf1. split; cbn; rewrite ?length_replicate; try lia. split; cbn; [lia|done|lia|done].
    + rewrite Hf2, Hf3, Hh. cbn. apply (core_new _ ∅ ∅); [|done|done|].
      * split; [constructor|constructor|constructor|apply map_Forall_empty].
      * apply new_ctx_item; [done| |done]. split; [|done]. by split_and!.
  - cbn [st]. rewrite Hh. cbn. change 1%nat with (accepts (new_ctx sock) + 0)%nat. apply served_new; [|set_solver].
    split; [by intros q [? ?]|done].
Qed.
End invariant.

(** ** Properties *)

Definition reachable (full : bool) (k kc : Z) (x : cfg) : Prop :=
  exists sock rfd a port, 0 <= sock /\ 0 <= rfd /\ a <> 0 /\ rtc (step full) (started k kc sock rfd a port) x.

Lemma reachable_ok full k kc x :
  0 <= k < 32 -> 0 <= kc < 32 -> reachable full k kc x -> exists todo dn rest, cfg_ok full k kc x todo dn rest.
Proof.
  intros Hk Hkc (sock & rfd & a & port & Hs & Hr & Ha & Hrun).
  apply (rtc_ind_r (R := step full) (fun x => exists todo dn rest, cfg_ok full k kc x todo dn rest) (started k kc sock rfd a port)); [| |done].
  - destruct (started_ok full k kc sock rfd a port Hk Hkc Hs Hr Ha) as [Hok _]. eauto.
  - intros y z _ Hstep (todo & dn & rest & Hy). destruct (step_ok full k kc Hk Hkc y z _ _ _ Hy Hstep) as (? & ? & ? & ? & _). eauto.
Qed.

(** C16. In every execution of the event loop with the kernel, whatever results
    operations have and in whatever order they complete: the operations in the
    submission ring, in the kernel and in the completion ring belong to
    distinct live contexts, no entry of a ring is overwritten before it is
    taken, the kernel only accesses buffers of live contexts, with at most the
    2048 bytes of the buffer, and the completion handler never uses a deleted
    context. *)
Theorem uring_safety full k kc x :
  0 <= k < 32 -> 0 <= kc < 32 -> reachable full k kc x ->
  exists todo dn rest,
    sq_ok k (sq (st x)) todo /\ cq_ok kc (cq (st x)) (dn ++ rest) /\
    NoDup ((user_data <$> todo ++ inflight x) ++ (cqe_data <$> rest)) /\
    (forall e, e ∈ todo ++ inflight x -> exists c, heap (st x) !! addr e = Some c /\ user_data e = addr e /\
       op e = op_of (type c) /\ sqe_fd e = fd c /\ length (buffer c) = BUFFER /\
       (op e <> OP_ACCEPT -> 0 < len e <= Z.of_nat BUFFER)) /\
    (forall head tail a1 a2, at_ x = Loop head tail -> head <> tail -> fresh (st x) a1 -> fresh (st x) a2 -> a1 <> a2 ->
       is_Some (handle_cqe head a1 a2 (st x))).
Proof.
  intros Hk Hkc Hx. destruct (reachable_ok full k kc x Hk Hkc Hx) as (todo & dn & rest & [Hq Hcq Hpc Hc]).
  exists todo, dn, rest. split_and!; [done|done| | |].
  - pose proof (c_nodup _ _ _ _ _ Hc) as Hn. unfold outstanding in Hn. rewrite fmap_app, <- !list_fmap_compose in Hn. done.
  - intros e He. pose proof (c_items _ _ _ _ _ Hc) as Hi. rewrite Forall_forall in Hi.
    destruct (Hi (op_item e)) as (c & Hcl & _ & ((Hop & Hfd & Ha & Hu & Hlr & Hlw) & _ & Hbl) & _).
    { unfold outstanding. apply elem_of_app. left. by apply list_elem_of_fmap_2. }
    exists c. cbn in *. rewrite Ha. split_and!; try done. rewrite Hop. unfold BUFFER in *.
    destruct (type c); [done|rewrite Hlr by done; lia|]. intros _. by apply Hlw.
  - intros head tail a1 a2 Hat Hne Hf1 Hf2 Ha. rewrite Hat in Hpc.
    destruct (loop_entry kc _ _ _ _ _ Hkc Hcq Hpc Hne) as (c & rest' & -> & Hget & _).
    unfold handle_cqe. rewrite Hget. cbn [mbind option_bind]. case_match; [done|].
    unfold outstanding in Hc. rewrite fmap_cons, <- Permutation_middle in Hc.
    pose proof Hc as (_ & (ctx & Hctx & _) & _)%core_cons. cbn in Hctx.
    assert (handler_ok full k (cqe_data c) (res c) a1 a2 ctx (st x) todo (outstanding todo (inflight x) rest')) as (s2 & _ & -> & _);
      [|done]. destruct (decide (type ctx = ACCEPT)); [by apply handler_accept_ok|by apply handler_client_ok].
Qed.

(** The bytes sent to a connection are bytes received from it, in order
    and each at most once.  If every write either fails or transfers all its
    bytes, they are a prefix of the received bytes, and all of them whenever
    the connection waits for the next read. *)
Theorem uring_echo full k kc x f got sent :
  0 <= k < 32 -> 0 <= kc < 32 -> reachable full k kc x -> socks (st x) !! f = Some (got, sent) ->
  sent `sublist_of` got /\
  (full = true -> sent `prefix_of` got /\
     forall e, e ∈ inflight x -> op e = OP_READ -> sqe_fd e = f -> got = sent).
Proof.
  intros Hk Hkc Hx Hf. destruct (reachable_ok full k kc x Hk Hkc Hx) as (todo & dn & rest & [_ _ _ Hc]).
  pose proof (c_socks _ _ _ _ _ Hc f _ Hf) as Hs. cbn in Hs. unfold sock_ok in Hs. cbn in Hs. split.
  { destruct full; [|done]. destruct Hs as [r ->]. by apply sublist_inserts_r. }
  intros ->. split; [done|]. intros e He Hop Hfd. pose proof (c_items _ _ _ _ _ Hc) as Hi. rewrite Forall_forall in Hi.
  destruct (Hi (op_item e)) as (c & _ & _ & ((Hop' & Hfd' & _) & _) & Hm).
  { unfold outstanding. apply elem_of_app. left. apply list_elem_of_fmap_2, elem_of_app. by right. }
  cbn in *. assert (type c = READ) as Ety by (rewrite Hop in Hop'; by destruct (type c)).
  destruct (Hm f) as (got' & sent' & Hf' & He'); [unfold own_of; rewrite Ety; congruence|].
  unfold failed_write, pending_bytes, echo in He'. rewrite Ety, app_nil_r in He'. destruct He' as [[]|He']. congruence.
Qed.

(** A step taken while fewer contexts are allocated than the submission ring
    has entries. *)
Definition small_step (full : bool) (k : Z) (x y : cfg) : Prop :=
  step full x y /\ Z.of_nat (size (heap (st x))) < 2 ^ k.

(** As long as there are fewer contexts than entries in the submission
    ring, no operation is dropped: every context always has an operation
    outstanding, in one of the rings or in the kernel, and exactly one of them
    is an accept. *)
Theorem uring_all_served full k kc sock rfd a port x :
  0 <= k < 32 -> 0 <= kc < 32 -> 0 <= sock -> 0 <= rfd -> a <> 0 ->
  rtc (small_step full k) (started k kc sock rfd a port) x ->
  exists todo dn rest, sq_ok k (sq (st x)) todo /\ cq_ok kc (cq (st x)) (dn ++ rest) /\
    (forall q, is_Some (heap (st x) !! q) <-> q ∈ (user_data <$> todo ++ inflight x) ++ (cqe_data <$> rest)) /\
    length (filter (is_accept (heap (st x))) ((user_data <$> todo ++ inflight x) ++ (cqe_data <$> rest))) = 1%nat.
Proof.
  intros Hk Hkc Hs Hr Ha Hrun.
  assert (exists todo dn rest, cfg_ok full k kc x todo dn rest /\ served 1 (heap (st x)) (keys todo (inflight x) rest))
    as (todo & dn & rest & [Hq Hcq _ Hc] & [Hall Hacc]).
  { apply (rtc_ind_r (R := small_step full k) (fun x => exists todo dn rest, cfg_ok full k kc x todo dn rest /\
      served 1 (heap (st x)) (keys todo (inflight x) rest)) (started k kc sock rfd a port)); [| |done].
    - destruct (started_ok full k kc sock rfd a port Hk Hkc Hs Hr Ha) as [Hok Hsv]. eexists _, _, _. split; [exact Hok|done].
    - intros y z _ [Hstep Hsize] (todo & dn & rest & Hy & Hsv).
      destruct (step_ok full k kc Hk Hkc y z _ _ _ Hy Hstep) as (? & ? & ? & ? & Hsv'). eauto 10. }
  assert (keys todo (inflight x) rest = (user_data <$> todo ++ inflight x) ++ (cqe_data <$> rest)) as Hkeys.
  { unfold keys, outstanding. by rewrite fmap_app, <- !list_fmap_compose. }
  rewrite Hkeys in *. exists todo, dn, rest. split_and!; try done. intros q. split; [apply Hall|].
  rewrite <- Hkeys. unfold keys. by apply keys_live with (1 := Hc).
Qed.

Definition if_open (f : Z) : list Z := if 0 <=? f then [f] else [].

Lemma stop_spec s :
  closed (stop s) = closed s ++ if_open (ring_fd_ s) ++ if_open (listen_fd_ s) /\ listen_fd_ (stop s) < 0 /\ ring_fd_ (stop s) < 0.
Proof.
  unfold stop, if_open. cbn [ring_fd_ set_running]. destruct (Z.leb_spec 0 (ring_fd_ s)); cbn [listen_fd_ set_fds set_running close];
    (destruct (Z.leb_spec 0 (listen_fd_ s)); cbn [closed ring_fd_ listen_fd_ set_fds set_running close app];
     rewrite <- ?app_assoc, ?app_nil_r; (split; [done|lia])).
Qed.

Lemma submit_accept_fds a s :
  closed (submit_accept a s) = closed s /\ ring_fd_ (submit_accept a s) = ring_fd_ s /\
  listen_fd_ (submit_accept a s) = listen_fd_ s.
Proof. unfold submit_accept, get_sqe. cbv zeta. by destruct (_ <=? _). Qed.

(** Every descriptor that a failed or successful [init] obtained is closed
    once by [init] itself and [stop]. *)
Lemma uring_init_closes e a port :
  let '(ok, s) := init e a (IoUringReactor port) in
  let all_ok := (0 <=? e_socket e) && (0 <=? e_bind e) && (0 <=? e_listen e) in
  closed (stop s) ≡ₚ if_open (e_socket e) ++ (if all_ok then if_open (e_setup e) else []) /\
  listen_fd_ (stop s) < 0 /\ ring_fd_ (stop s) < 0 /\
  (ok = true <-> all_ok = true /\ 0 <= e_setup e /\ is_Some (e_rings e)).
Proof.
  destruct (init e a (IoUringReactor port)) as [ok s] eqn:Hi. cbv zeta. destruct (stop_spec s) as (-> & Hl & Hr).
  unfold init in Hi. cbn [listen_fd_ ring_fd_ set_fds IoUringReactor] in Hi. unfold if_open.
  destruct (Z.ltb_spec (e_socket e) 0), (Z.leb_spec 0 (e_socket e)), (Z.ltb_spec (e_bind e) 0), (Z.leb_spec 0 (e_bind e)),
    (Z.ltb_spec (e_listen e) 0), (Z.leb_spec 0 (e_listen e)), (Z.ltb_spec (e_setup e) 0), (Z.leb_spec 0 (e_setup e)); try lia.
  all: try (injection Hi as <- <-; cbn; rewrite ?(proj2 (Z.leb_gt _ _)) by lia; naive_solver lia).
  destruct (e_rings e) as [[q c]|]; injection Hi as <- <-.
  - destruct (submit_accept_fds a (set_cq c (set_sq q (set_fds (e_socket e) (e_setup e)
      (set_fds (e_socket e) (-1) (IoUringReactor port)))))) as (-> & -> & ->). cbn [closed ring_fd_ listen_fd_ set_cq set_sq set_fds].
    rewrite !(proj2 (Z.leb_le 0 _)) by lia. split; [apply Permutation_swap|]. cbn. naive_solver.
  - cbn [closed ring_fd_ listen_fd_ set_fds]. rewrite !(proj2 (Z.leb_le 0 _)) by lia. split; [apply Permutation_swap|].
    cbn. naive_solver.
Qed.

(** ** Executions *)

Inductive action :=
| A_submit (n : nat) | A_skip | A_idle | A_batch | A_handle (a1 a2 : Z) | A_done
| A_complete (i : nat) (r : Z) (data : list Z).

Definition exec_op (full : bool) (e : sqe) (r : Z) (data : list Z) (s : t) : option t :=
  match op e with
  | OP_NOP => None
  | OP_ACCEPT =>
      if r <? 0 then Some s else
      if negb (r =? listen_fd_ s) && bool_decide (socks s !! r = None)
      then Some (set_socks (<[r := ([], [])]> (socks s)) s) else None
  | OP_READ =>
      if r <=? 0 then Some s else
      if (r <=? len e) && (Z.of_nat (length data) =? r) then
        c ← heap s !! addr e; '(got, sent) ← socks s !! sqe_fd e;
        Some (set_socks (<[sqe_fd e := (got ++ data, sent)]> (socks s))
          (set_heap (<[addr e := mk_ctx (fd c) (type c) (bytes_transferred c) (data ++ drop (length data) (buffer c))]> (heap s)) s))
      else None
  | OP_WRITE =>
      if r <=? 0 then Some s else
      if (r <=? len e) && (negb full || (r =? len e)) then
        c ← heap s !! addr e; '(got, sent) ← socks s !! sqe_fd e;
        Some (set_socks (<[sqe_fd e := (got, sent ++ take (Z.to_nat r) (buffer c))]> (socks s)) s)
      else None
  end.

Definition is_fresh (s : t) (a : Z) : bool := negb (a =? 0) && bool_decide (heap s !! a = None).

Definition exec1 (full : bool) (a : action) (x : cfg) : option cfg :=
  let s := st x in
  match a, at_ x with
  | A_submit n, Top =>
      if (0 <? pending_sqes_ s) && (Z.of_nat n <=? pending_sqes_ s)
      then '(es, s') ← enter n s; Some (mk_cfg (set_pending 0 s') Check (inflight x ++ es)) else None
  | A_skip, Top => if pending_sqes_ s =? 0 then Some (mk_cfg s Check (inflight x)) else None
  | A_idle, Check => if cq_head_ (cq s) =? cq_tail_ (cq s) then Some (mk_cfg s Top (inflight x)) else None
  | A_batch, Check =>
      if cq_head_ (cq s) =? cq_tail_ (cq s) then None
      else Some (mk_cfg s (Loop (cq_head_ (cq s)) (cq_tail_ (cq s))) (inflight x))
  | A_handle a1 a2, Loop head tail =>
      if negb (head =? tail) && is_fresh s a1 && is_fresh s a2 && negb (a1 =? a2)
      then s' ← handle_cqe head a1 a2 s; Some (mk_cfg s' (Loop (u32 (head + 1)) tail) (inflight x)) else None
  | A_done, Loop head tail => if head =? tail then Some (mk_cfg (set_cq_head head s) Top (inflight x)) else None
  | A_complete i r data, l =>
      e ← inflight x !! i;
      s1 ← exec_op full e r data s;
      s2 ← post (mk_cqe (user_data e) r) s1;
      Some (mk_cfg s2 l (delete i (inflight x)))
  | _, _ => None
  end.

Fixpoint exec (full : bool) (l : list action) (x : cfg) : option cfg :=
  match l with
  | [] => Some x
  | a :: l => y ← exec1 full a x; exec full l y
  end.

Lemma exec_op_sound full e r data s s1 : exec_op full e r data s = Some s1 -> execute full e r s s1.
Proof.
  unfold exec_op. destruct (op e) eqn:Eop; [done|..].
  - destruct (Z.ltb_spec r 0); [intros [= <-]; apply X_failed; [lia|by right]|].
    destruct (negb _ && _) eqn:E; [|done]. apply andb_true_iff in E as [?%negb_true_iff%Z.eqb_neq ?%bool_decide_eq_true].
    intros [= <-]. by apply X_accept.
  - destruct (Z.leb_spec r 0); [intros [= <-]; apply X_failed; [lia|left; congruence]|].
    destruct ((r <=? len e) && _) eqn:E; [|done]. apply andb_true_iff in E as [?%Z.leb_le ?%Z.eqb_eq].
    destruct (heap s !! addr e) as [c|] eqn:Hc; [|done]. cbn [mbind option_bind].
    destruct (socks s !! sqe_fd e) as [[got sent]|] eqn:Hs; [|done]. intros [= <-]. by apply X_read.
  - destruct (Z.leb_spec r 0); [intros [= <-]; apply X_failed; [lia|left; congruence]|].
    destruct ((r <=? len e) && _) eqn:E; [|done]. apply andb_true_iff in E as [?%Z.leb_le Hf].
    destruct (heap s !! addr e) as [c|] eqn:Hc; [|done]. cbn [mbind option_bind].
    destruct (socks s !! sqe_fd e) as [[got sent]|] eqn:Hs; [|done]. intros [= <-]. apply X_write; try done.
    intros ->. by apply Z.eqb_eq.
Qed.

Lemma is_fresh_spec s a : is_fresh s a = true -> fresh s a.
Proof. unfold is_fresh. intros [?%negb_true_iff%Z.eqb_neq ?%bool_decide_eq_true]%andb_true_iff. by split. Qed.

Lemma exec1_sound full a x y : exec1 full a x = Some y -> step full x y.
Proof.
  destruct x as [s l fl]. unfold exec1. cbn [st at_ inflight].
  destruct a as [n| | | |a1 a2| |i r data], l as [| |head tail]; try done.
  1: { destruct (_ && _) eqn:E; [|done]. apply andb_true_iff in E as [?%Z.ltb_lt ?%Z.leb_le].
       destruct (enter n s) as [[es s']|] eqn:Hen; [|done]. intros [= <-]. by eapply S_submit. }
  1: { destruct (Z.eqb_spec (pending_sqes_ s) 0); [|done]. intros [= <-]. by apply S_skip. }
  1: { destruct (Z.eqb_spec (cq_head_ (cq s)) (cq_tail_ (cq s))); [|done]. intros [= <-]. by apply S_idle. }
  1: { destruct (Z.eqb_spec (cq_head_ (cq s)) (cq_tail_ (cq s))); [done|]. intros [= <-]. by apply S_batch. }
  1: { destruct (_ && _) eqn:E; [|done].
       apply andb_true_iff in E as [[[?%negb_true_iff%Z.eqb_neq ?%is_fresh_spec]%andb_true_iff ?%is_fresh_spec]%andb_true_iff ?%negb_true_iff%Z.eqb_neq].
       destruct (handle_cqe head a1 a2 s) as [s'|] eqn:Hh; [|done]. intros [= <-]. by apply (S_handle _ _ _ _ _ a1 a2). }
  1: { destruct (Z.eqb_spec head tail) as [->|]; [|done]. intros [= <-]. by apply S_done. }
  all: destruct (fl !! i) as [e|] eqn:He; [|done]; cbn [mbind option_bind];
    destruct (exec_op full e r data s) as [s1|] eqn:Hx; [|done]; cbn [mbind option_bind];
    destruct (post _ s1) as [s2|] eqn:Hp; [|done]; intros [= <-];
    rewrite delete_take_drop, <- (take_drop_middle fl i e He) at 1;
    (eapply S_complete; [by eapply exec_op_sound|done]).
Qed.

Lemma exec_sound full l x y : exec full l x = Some y -> rtc (step full) x y.
Proof.
  revert x. induction l as [|a l IH]; intros x; cbn [exec]; [by intros [= <-]|].
  destruct (exec1 full a x) as [z|] eqn:Hz; [|done]. cbn [mbind option_bind]. intros Hy.
  eapply rtc_l; [by eapply exec1_sound|by apply IH].
Qed.

(** ** Examples *)

(** A connection on descriptor 7 that sends two bytes, which are read and
    written back; [r] is the number of bytes the write transfers. *)
Definition ex_run (r : Z) : list action :=
  [A_submit 1; A_idle; A_complete 0 7 []; A_skip; A_batch; A_handle 2000 3000; A_done;
   A_submit 2; A_complete 0 2 [65; 66]; A_batch; A_handle 4000 5000; A_done;
   A_submit 1; A_complete 1 r []; A_batch; A_handle 4000 5000; A_done;
   A_submit 1].

Definition ex_start : cfg := started 2 3 5 6 1000 8080.
Definition ex_cfg (full : bool) (r : Z) : cfg := default ex_start (exec full (ex_run r) ex_start).

Lemma ex_exec full r : exec full (ex_run r) ex_start = Some (ex_cfg full r) -> reachable full 2 3 (ex_cfg full r).
Proof. intros H. exists 5, 6, 1000, 8080. split; [lia|]. split; [lia|]. split; [lia|]. by eapply exec_sound. Qed.

Lemma uring_echo_witness : [65; 66] `prefix_of` [65; 66].
Proof.
  apply (uring_echo true 2 3 (ex_cfg true 2) 7 [65; 66] [65; 66]); [lia|lia| |vm_compute; reflexivity|reflexivity].
  apply ex_exec. vm_compute. reflexivity.
Defined.

Lemma uring_safety_witness : exists todo dn rest,
  sq_ok 2 (sq (st (ex_cfg true 2))) todo /\ cq_ok 3 (cq (st (ex_cfg true 2))) (dn ++ rest).
Proof.
  destruct (uring_safety true 2 3 (ex_cfg true 2)) as (todo & dn & rest & H1 & H2 & _); [lia|lia| |by exists todo, dn, rest].
  apply ex_exec. vm_compute. reflexivity.
Defined.

(** With a short write the rest of the message is lost: the reactor waits for
    the next message although one of two bytes was not sent back. *)
Lemma uring_short_write_loses :
  exists x e, reachable false 2 3 x /\ socks (st x) !! 7 = Some ([65; 66], [65]) /\
    e ∈ inflight x /\ op e = OP_READ /\ sqe_fd e = 7.
Proof.
  exists (ex_cfg false 1), (read_op 7 2000). split; [apply ex_exec; vm_compute; reflexivity|].
  split; [vm_compute; reflexivity|]. split; [|done]. vm_compute. right. left.
Qed.

Fixpoint exec_small (full : bool) (k : Z) (l : list action) (x : cfg) : option cfg :=
  match l with
  | [] => Some x
  | a :: l => if Z.of_nat (size (heap (st x))) <? 2 ^ k then y ← exec1 full a x; exec_small full k l y else None
  end.

Lemma exec_small_sound full k l x y : exec_small full k l x = Some y -> rtc (small_step full k) x y.
Proof.
  revert x. induction l as [|a l IH]; intros x; cbn [exec_small]; [by intros [= <-]|].
  destruct (Z.ltb_spec (Z.of_nat (size (heap (st x)))) (2 ^ k)); [|done].
  destruct (exec1 full a x) as [z|] eqn:Hz; [|done]. cbn [mbind option_bind]. intros Hy.
  eapply rtc_l; [split; [by eapply exec1_sound|done]|by apply IH].
Qed.

Lemma uring_all_served_witness : exists todo dn rest,
  sq_ok 2 (sq (st (ex_cfg true 2))) todo /\ cq_ok 3 (cq (st (ex_cfg true 2))) (dn ++ rest).
Proof.
  destruct (uring_all_served true 2 3 5 6 1000 8080 (ex_cfg true 2)) as (todo & dn & rest & H1 & H2 & _);
    [lia|lia|lia|lia|lia| |by exists todo, dn, rest].
  apply exec_small_sound with (l := ex_run 2). vm_compute. reflexivity.
Defined.

(** With a full submission ring the next accept is dropped, and the reactor
    accepts no more connections: here in a ring with one entry. *)
Lemma uring_full_ring_stops_accepting :
  exists x, reachable true 0 3 x /\ map_Forall (fun _ c => type c <> ACCEPT) (heap (st x)).
Proof.
  set (run := [A_submit 1; A_idle; A_complete 0 7 []; A_skip; A_batch; A_handle 2000 3000; A_done]).
  set (x := default ex_start (exec true run (started 0 3 5 6 1000 8080))).
  assert (exec true run (started 0 3 5 6 1000 8080) = Some x) as Hx by (vm_compute; reflexivity).
  exists x. split.
  - exists 5, 6, 1000, 8080. split; [lia|]. split; [lia|]. split; [lia|]. by eapply exec_sound.
  - assert (heap (st x) = {[2000 := read_ctx (new_ctx 7)]}) as -> by (vm_compute; reflexivity).
    by apply map_Forall_singleton.
Qed.
End Uring.
