(* ===== verification/Epoll.v ===== *)
(** * The epoll echo server

    Model of [EpollEchoServer] (05-advanced-io, epoll_server.hpp): the
    edge-triggered event loop with its accept, read and write loops, start and
    stop.  The results of system calls are arguments of the handlers; the step
    relation ties them to the state of the sockets: a connection has a receive
    queue and an edge, set by the kernel when data or the end of the stream
    arrives and cleared when [epoll_wait] reports the descriptor. *)

From S2P Require Import Prelude.

#[local] Open Scope Z_scope.
#[local] Open Scope cpp_scope.

Module Epoll.

Definition MAX_EVENTS : nat := 1024.
Definition BUFFER_SIZE : nat := 4096.

(** ** State *)

(** An open connection: bytes not yet read, whether the peer has closed its
    side, whether an event is due, and all bytes read and written. *)
Record conn := mk_conn { rx : list Z; eof : bool; edge : bool; got : list Z; sent : list Z }.

(** The server, the open connections by descriptor, the received bytes of the
    connections not yet accepted, the edge of the listening socket and the
    descriptors closed so far. *)
Record t := mk {
  port_ : Z; listen_fd_ : Z; epoll_fd_ : Z; running_ : bool; total_bytes_echoed_ : Z; total_connections_ : Z;
  conns : gmap Z conn; backlog : list (list Z); lis_edge : bool; closed : list Z }.

Definition EpollEchoServer (port : Z) : t := mk port (-1) (-1) false 0 0 ∅ [] false [].

Definition set_fds (l e : Z) (s : t) : t :=
  mk (port_ s) l e (running_ s) (total_bytes_echoed_ s) (total_connections_ s) (conns s) (backlog s) (lis_edge s) (closed s).
Definition set_running (b : bool) (s : t) : t :=
  mk (port_ s) (listen_fd_ s) (epoll_fd_ s) b (total_bytes_echoed_ s) (total_connections_ s) (conns s) (backlog s) (lis_edge s) (closed s).
Definition set_totals (b c : Z) (s : t) : t :=
  mk (port_ s) (listen_fd_ s) (epoll_fd_ s) (running_ s) b c (conns s) (backlog s) (lis_edge s) (closed s).
Definition set_conns (m : gmap Z conn) (s : t) : t :=
  mk (port_ s) (listen_fd_ s) (epoll_fd_ s) (running_ s) (total_bytes_echoed_ s) (total_connections_ s) m (backlog s) (lis_edge s) (closed s).
Definition set_listen (l : list (list Z)) (e : bool) (s : t) : t :=
  mk (port_ s) (listen_fd_ s) (epoll_fd_ s) (running_ s) (total_bytes_echoed_ s) (total_connections_ s) (conns s) l e (closed s).

(** [::close]; a closed descriptor also leaves the epoll set. *)
Definition close (f : Z) (s : t) : t :=
  mk (port_ s) (listen_fd_ s) (epoll_fd_ s) (running_ s) (total_bytes_echoed_ s) (total_connections_ s) (delete f (conns s))
    (backlog s) (lis_edge s) (closed s ++ [f]).

(** ** Start and stop *)

(** The results of the system calls of [init]. *)
Record env := mk_env { e_socket : Z; e_bind : Z; e_listen : Z; e_epoll : Z; e_ctl : Z }.

Definition init (e : env) (s : t) : bool * t :=
  let s := set_fds (e_socket e) (epoll_fd_ s) s in
  if listen_fd_ s <? 0 then (false, s) else
  if e_bind e <? 0 then (false, let s := close (listen_fd_ s) s in set_fds (-1) (epoll_fd_ s) s) else
  if e_listen e <? 0 then (false, let s := close (listen_fd_ s) s in set_fds (-1) (epoll_fd_ s) s) else
  let s := set_fds (listen_fd_ s) (e_epoll e) s in
  if epoll_fd_ s <? 0 then (false, let s := close (listen_fd_ s) s in set_fds (-1) (epoll_fd_ s) s) else
  if e_ctl e <? 0 then
    (false, let s := close (epoll_fd_ s) s in let s := close (listen_fd_ s) s in set_fds (-1) (-1) s)
  else (true, s).

Definition stop (s : t) : t :=
  let s := set_running false s in
  let s := if 0 <=? epoll_fd_ s then set_fds (listen_fd_ s) (-1) (close (epoll_fd_ s) s) else s in
  if 0 <=? listen_fd_ s then set_fds (-1) (epoll_fd_ s) (close (listen_fd_ s) s) else s.

(** ** Handlers *)

Definition close_client (f : Z) (s : t) : t := close f s.

Inductive accept_result := Accepted (f : Z) (registered : bool) | AcceptAgain | AcceptError.

(** One round of the loop of [handle_accept]: whether it goes on, and the new
    state; [c] is the connection the kernel hands out. *)
Definition accept_round (r : accept_result) (c : conn) (s : t) : bool * t :=
  match r with
  | Accepted f registered =>
      let s := set_conns (<[f := c]> (conns s)) s in
      if registered then (true, set_totals (total_bytes_echoed_ s) (total_connections_ s +64 1) s) else (true, close f s)
  | AcceptAgain => (false, s)
  | AcceptError => (false, s)
  end.

Inductive read_result := Read (bs : list Z) | ReadEof | ReadAgain | ReadError.

(** What the loops of [handle_read] do next. *)
Inductive next := N_read | N_write (bs : list Z) | N_return.

Definition read_round (f : Z) (r : read_result) (s : t) : next * t :=
  match r with
  | Read bs => (N_write bs, set_totals (total_bytes_echoed_ s +64 Z.of_nat (length bs)) (total_connections_ s) s)
  | ReadEof => (N_return, close_client f s)
  | ReadAgain => (N_return, s)
  | ReadError => (N_return, close_client f s)
  end.

Inductive write_result := Written (n : nat) | WriteAgain | WriteError.

(** [bs] is the part of the buffer not yet written. *)
Definition write_round (f : Z) (r : write_result) (bs : list Z) (s : t) : next * t :=
  match r with
  | Written n => (match drop n bs with [] => N_read | bs' => N_write bs' end, s)
  | WriteAgain => (N_write bs, s)
  | WriteError => (N_return, close_client f s)
  end.

(** An event: the descriptor, an error or hang-up flag, and [EPOLLIN]. *)
Record event := mk_ev { ev_fd : Z; ev_hup : bool; ev_in : bool }.

Inductive handler := H_none | H_accept | H_read (f : Z).

(** The body of the loop over the events. *)
Definition dispatch (ev : event) (s : t) : handler * t :=
  if ev_hup ev then (H_none, close_client (ev_fd ev) s) else
  if ev_fd ev =? listen_fd_ s then (H_accept, s) else
  if ev_in ev then (H_read (ev_fd ev), s) else (H_none, s).

(** ** The kernel *)

Definition recv (n : nat) (c : conn) : conn := mk_conn (drop n (rx c)) (eof c) (edge c) (got c ++ take n (rx c)) (sent c).
Definition send (bs : list Z) (c : conn) : conn := mk_conn (rx c) (eof c) (edge c) (got c) (sent c ++ bs).
Definition deliver (bs : list Z) (c : conn) : conn := mk_conn (rx c ++ bs) (eof c) true (got c) (sent c).
Definition hang_up (c : conn) : conn := mk_conn (rx c) true true (got c) (sent c).
Definition clear (c : conn) : conn := mk_conn (rx c) (eof c) false (got c) (sent c).

(** A connection registered with received bytes is reported at once. *)
Definition fresh_conn (bs : list Z) (e : bool) : conn := mk_conn bs e (negb (bool_decide (bs = [])) || e) [] [].

(** An event that [epoll_wait] may report. *)
Definition due (listen_errors : bool) (s : t) (ev : event) : Prop :=
  (ev_fd ev = listen_fd_ s /\ lis_edge s = true /\ ev_in ev = true /\ (listen_errors = false -> ev_hup ev = false)) \/
  (exists c, conns s !! ev_fd ev = Some c /\ edge c = true /\ (rx c <> [] \/ eof c = true -> ev_in ev = true) /\
     (eof c = true -> ev_hup ev = true)).

Definition report (s : t) (evs : list event) : t :=
  let fds := ev_fd <$> evs in
  set_listen (backlog s) (if decide (listen_fd_ s ∈ fds) then false else lis_edge s)
    (set_conns (map_imap (fun f c => Some (if decide (f ∈ fds) then clear c else c)) (conns s)) s).

(** ** The event loop *)

(** Where the thread in [run] is: before [epoll_wait], between two events, or
    in a handler, with the events that remain. *)
Inductive pc :=
| Wait | Batch (evs : list event) | Accepting (evs : list event)
| Reading (f : Z) (evs : list event) | Writing (f : Z) (bs : list Z) (evs : list event) | Exited.

Definition go (f : Z) (evs : list event) (n : next) : pc :=
  match n with N_read => Reading f evs | N_write bs => Writing f bs evs | N_return => Batch evs end.

Definition enter (evs : list event) (h : handler) : pc :=
  match h with H_none => Batch evs | H_accept => Accepting evs | H_read f => Reading f evs end.

(** Which failures the environment may produce: [accept4] failing although
    connections are pending, and error events on the listening socket. *)
Record faults := mk_faults { accept_errors : bool; listen_errors : bool }.

(** Steps of the thread in [run]; a write makes progress if it transfers at
    least one byte or fails. *)
Inductive work (fl : faults) : bool -> t * pc -> t * pc -> Prop :=
| W_event s ev evs : work fl true (s, Batch (ev :: evs)) ((dispatch ev s).2, enter evs (dispatch ev s).1)
| W_end s : work fl false (s, Batch []) (s, Wait)
| W_accept s bs bl evs f reg e : backlog s = bs :: bl -> 0 <= f -> f <> listen_fd_ s -> f <> epoll_fd_ s ->
    conns s !! f = None ->
    work fl true (s, Accepting evs) ((accept_round (Accepted f reg) (fresh_conn bs e) (set_listen bl (lis_edge s) s)).2, Accepting evs)
| W_accept_again s evs : backlog s = [] -> work fl true (s, Accepting evs) (s, Batch evs)
| W_accept_error s evs : accept_errors fl = true -> work fl true (s, Accepting evs) (s, Batch evs)
| W_read s f evs c n : conns s !! f = Some c -> (0 < n <= length (rx c))%nat -> (n <= BUFFER_SIZE)%nat ->
    let r := read_round f (Read (take n (rx c))) (set_conns (<[f := recv n c]> (conns s)) s) in
    work fl true (s, Reading f evs) (r.2, go f evs r.1)
| W_read_stop s f evs c r : conns s !! f = Some c ->
    (r = ReadError \/ (rx c = [] /\ r = if eof c then ReadEof else ReadAgain)) ->
    work fl true (s, Reading f evs) ((read_round f r s).2, go f evs (read_round f r s).1)
| W_write s f bs evs c n : conns s !! f = Some c -> (0 < n <= length bs)%nat ->
    let r := write_round f (Written n) bs (set_conns (<[f := send (take n bs) c]> (conns s)) s) in
    work fl true (s, Writing f bs evs) (r.2, go f evs r.1)
| W_write_error s f bs evs : work fl true (s, Writing f bs evs)
    ((write_round f WriteError bs s).2, go f evs (write_round f WriteError bs s).1)
| W_write_again s f bs evs r : r = WriteAgain \/ (r = Written 0 /\ bs <> []) ->
    work fl false (s, Writing f bs evs) ((write_round f r bs s).2, go f evs (write_round f r bs s).1).

Inductive step (fl : faults) : t * pc -> t * pc -> Prop :=
| S_work x y b : work fl b x y -> step fl x y
| S_wait s evs : running_ s = true -> NoDup (ev_fd <$> evs) -> Forall (due (listen_errors fl) s) evs ->
    (length evs <= MAX_EVENTS)%nat -> step fl (s, Wait) (report s evs, Batch evs)
| S_stop s : step fl (s, Wait) (stop s, Wait)
| S_exit s : running_ s = false -> step fl (s, Wait) (s, Exited)
| S_deliver s l f c bs : conns s !! f = Some c -> eof c = false -> bs <> [] ->
    step fl (s, l) (set_conns (<[f := deliver bs c]> (conns s)) s, l)
| S_hang_up s l f c : conns s !! f = Some c -> step fl (s, l) (set_conns (<[f := hang_up c]> (conns s)) s, l)
| S_connect s l bs : step fl (s, l) (set_listen (backlog s ++ [bs]) true s, l).

(** A server after a successful [init], at the start of [run]. *)
Definition started (sock ep port : Z) : t * pc :=
  (set_running true (init (mk_env sock 0 0 ep 0) (EpollEchoServer port)).2, Wait).

(** ** Invariant *)

Definition evs_of (l : pc) : list event :=
  match l with
  | Batch evs | Accepting evs | Reading _ evs | Writing _ _ evs => evs
  | Wait | Exited => []
  end.

Definition handling (l : pc) : option Z := match l with Reading f _ | Writing f _ _ => Some f | _ => None end.

(** Bytes read from [f] that are still to be written back. *)
Definition unsent (l : pc) (f : Z) : list Z :=
  match l with Writing g bs _ => if decide (g = f) then bs else [] | _ => [] end.

(** Something to do on the connection: bytes to read, or the end of the stream. *)
Definition ready (c : conn) : Prop := rx c <> [] \/ eof c = true.

(** The connection will be looked at: by a later [epoll_wait], in the current
    batch or in the current handler. *)
Definition noticed (l : pc) (f : Z) (c : conn) : Prop :=
  edge c = true \/ handling l = Some f \/
  exists ev, ev ∈ evs_of l /\ ev_fd ev = f /\ (ev_hup ev = true \/ ev_in ev = true).

Definition conn_ok (l : pc) (f : Z) (c : conn) : Prop :=
  got c = sent c ++ unsent l f /\ (ready c -> noticed l f c).

Definition quiet (fl : faults) : Prop := accept_errors fl = false /\ listen_errors fl = false.

Definition backlog_ok (s : t) (l : pc) : Prop :=
  running_ s = true -> backlog s <> [] ->
  lis_edge s = true \/ (exists evs, l = Accepting evs) \/
  exists ev, ev ∈ evs_of l /\ ev_fd ev = listen_fd_ s /\ ev_hup ev = false.

Record inv (fl : faults) (s : t) (l : pc) : Prop := {
  i_conn : map_Forall (conn_ok l) (conns s);
  i_fds : map_Forall (fun f _ => 0 <= f /\ f <> listen_fd_ s /\ f <> epoll_fd_ s) (conns s);
  i_nodup : NoDup (ev_fd <$> evs_of l);
  i_evs : Forall (fun ev => (ev_fd ev = listen_fd_ s /\ (listen_errors fl = false -> ev_hup ev = false)) \/
                            is_Some (conns s !! ev_fd ev)) (evs_of l);
  i_handling : forall f, handling l = Some f -> is_Some (conns s !! f) /\ f ∉ (ev_fd <$> evs_of l);
  i_backlog : quiet fl -> backlog_ok s l }.

(** Changing one connection, or removing it, while the thread moves on. *)
Lemma conn_update l l' (m : gmap Z conn) f c' :
  map_Forall (conn_ok l) m ->
  (forall g c, g <> f -> m !! g = Some c -> conn_ok l g c -> conn_ok l' g c) -> conn_ok l' f c' ->
  map_Forall (conn_ok l') (<[f := c']> m).
Proof.
  intros Hm Hother Hc g c. destruct (decide (g = f)) as [->|Hne]; [rewrite lookup_insert_eq; by intros [= <-]|].
  rewrite lookup_insert_ne by done. intros Hg. apply (Hother g c Hne Hg), (Hm g c Hg).
Qed.

Lemma conn_remove l l' (m : gmap Z conn) f :
  map_Forall (conn_ok l) m -> (forall g c, g <> f -> m !! g = Some c -> conn_ok l g c -> conn_ok l' g c) ->
  map_Forall (conn_ok l') (delete f m).
Proof.
  intros Hm Hother g c [Hne Hg]%lookup_delete_Some. apply (Hother g c (not_eq_sym Hne) Hg), (Hm g c Hg).
Qed.

Lemma fds_insert s f c : map_Forall (fun f _ => 0 <= f /\ f <> listen_fd_ s /\ f <> epoll_fd_ s) (conns s) -> is_Some (conns s !! f) ->
  map_Forall (fun f _ => 0 <= f /\ f <> listen_fd_ s /\ f <> epoll_fd_ s) (<[f := c]> (conns s)).
Proof. intros Hm [c0 Hc]. apply map_Forall_insert_2; [by apply (Hm f c0)|done]. Qed.

Lemma live_insert {A} (m : gmap Z A) f c g : is_Some (m !! g) -> is_Some (<[f := c]> m !! g).
Proof. intros Hg. destruct (decide (g = f)) as [->|]; [by rewrite lookup_insert_eq|by rewrite lookup_insert_ne]. Qed.

(** The environment changes a connection and sets its edge. *)
Lemma inv_edge fl s l f c c' :
  inv fl s l -> conns s !! f = Some c -> got c' = got c -> sent c' = sent c -> edge c' = true ->
  inv fl (set_conns (<[f := c']> (conns s)) s) l.
Proof.
  intros [Hc Hf Hn He Hh Hb] Hl Hg Hs Hed. split; cbn; try done.
  - eapply conn_update; [done|done|]. destruct (Hc f c Hl) as [Hecho _]. split; [congruence|]. intros _. by left.
  - apply fds_insert; [done|by eexists].
  - eapply Forall_impl; [done|]. intros ev [|]; [by left|right]. by apply live_insert.
  - intros g Hg'. destruct (Hh g Hg'). split; [by apply live_insert|done].
Qed.

(** What holds of the other connections when the thread moves from [l] to
    [l'] and is done with [f]. *)
Lemma conn_moves l l' f g c :
  g <> f -> evs_of l' = evs_of l -> (handling l = None \/ handling l = Some f) -> unsent l' g = unsent l g ->
  conn_ok l g c -> conn_ok l' g c.
Proof.
  intros Hne Hevs Hh Hu [Hecho Hnote]. split; [by rewrite Hu|]. intros Hr. destruct (Hnote Hr) as [|[Hg|Hev]]; [by left| |].
  - destruct Hh; congruence.
  - right. right. by rewrite Hevs.
Qed.

Lemma conn_next_event ev evs l' g c :
  evs_of l' = evs -> unsent l' g = [] ->
  (g <> ev_fd ev \/ handling l' = Some g \/ (ev_hup ev = false /\ ev_in ev = false)) ->
  conn_ok (Batch (ev :: evs)) g c -> conn_ok l' g c.
Proof.
  intros Hevs Hu Hor [Hecho Hnote]. split; [by rewrite Hu|]. intros Hr. unfold noticed. rewrite Hevs.
  destruct (Hnote Hr) as [|[Hg|(ev' & Hin & Hfd & Hfl)]]; [by left|done|].
  apply elem_of_cons in Hin as [->|Hin]; [|right; right; by exists ev'].
  destruct Hor as [|[|[? ?]]]; [done|by right; left|destruct Hfl; congruence].
Qed.

Lemma backlog_next ev evs s l' :
  evs_of l' = evs -> (ev_fd ev <> listen_fd_ s \/ ev_hup ev = true \/ exists evs, l' = Accepting evs) ->
  backlog_ok s (Batch (ev :: evs)) -> backlog_ok s l'.
Proof.
  intros Hevs Hor Hb Hrun Hbl. rewrite Hevs. destruct (Hb Hrun Hbl) as [|[[? ?]|(ev' & Hin & Hfd & Hfl)]]; [by left|done|].
  apply elem_of_cons in Hin as [->|Hin]; [|right; right; by exists ev'].
  destruct Hor as [|[|]]; [done|congruence|by right; left].
Qed.

Lemma inv_close fl s l l' f :
  inv fl s l -> evs_of l' = evs_of l -> f ∉ (ev_fd <$> evs_of l) -> handling l' = None -> (forall g, unsent l' g = []) ->
  (forall g, g <> f -> unsent l g = []) -> (handling l = None \/ handling l = Some f) ->
  (forall evs, l = Accepting evs -> l' = Accepting evs) -> inv fl (close f s) l'.
Proof.
  intros [Hc Hf Hn He Hh Hb] Hevs Hnin Hnone Hu Hu' Hhl Hacc. split; cbn.
  - eapply conn_remove; [exact Hc|]. intros g c Hne _. eapply (conn_moves l l' f); try done. by rewrite Hu, Hu'.
  - by apply map_Forall_delete.
  - by rewrite Hevs.
  - rewrite Hevs. rewrite Forall_forall in He |- *. intros ev Hin. destruct (He ev Hin) as [|]; [by left|right].
    rewrite lookup_delete_ne; [done|]. intros ->. apply Hnin. apply list_elem_of_fmap. by exists ev.
  - intros g. by rewrite Hnone.
  - intros Hq Hrun Hbl. rewrite Hevs. destruct (Hb Hq Hrun Hbl) as [|[[evs ->]|?]]; [by left| |by right; right].
    right. left. exists evs. by apply Hacc.
Qed.

(** The thread moves on without touching the sockets. *)
Lemma thread_moves fl s l l' b cn :
  inv fl s l -> evs_of l' = evs_of l -> (forall f, handling l' = Some f -> handling l = Some f) ->
  (forall g, unsent l' g = unsent l g) ->
  (forall f c, conns s !! f = Some c -> handling l = Some f -> handling l' = None -> ~ ready c) ->
  (forall evs, l = Accepting evs -> backlog s <> [] -> quiet fl -> l' = Accepting evs) ->
  inv fl (set_totals b cn s) l'.
Proof.
  intros [Hc Hf Hn He Hh Hb] Hevs Hnh Hu Hdone Hacc. split; cbn; try (by rewrite Hevs).
  - intros g c Hg. destruct (Hc g c Hg) as [Hecho Hnote]. split; [by rewrite Hu|]. intros Hr. unfold noticed. rewrite Hevs.
    destruct (Hnote Hr) as [|[Hl|?]]; [by left| |by right; right]. right. left. destruct (handling l') as [f|] eqn:Hl'.
    + specialize (Hnh f eq_refl). congruence.
    + by destruct (Hdone g c Hg Hl eq_refl).
  - done.
  - intros f Hl'. rewrite Hevs. by apply Hh, Hnh.
  - intros Hq Hrun Hbl. cbn in *. rewrite Hevs. destruct (Hb Hq Hrun Hbl) as [|[[evs ->]|?]]; [by left| |by right; right].
    right. left. exists evs. by apply Hacc.
Qed.

Lemma event_inv fl s ev evs : inv fl s (Batch (ev :: evs)) -> inv fl (dispatch ev s).2 (enter evs (dispatch ev s).1).
Proof.
  intros [Hc Hf [Hnin Hn]%NoDup_cons [Hev He]%Forall_cons Hh Hb]. cbn in Hnin, Hn. unfold dispatch.
  assert (forall l' g c, evs_of l' = evs -> (forall g, unsent l' g = []) ->
    (g <> ev_fd ev \/ handling l' = Some g \/ (ev_hup ev = false /\ ev_in ev = false)) -> conns s !! g = Some c -> conn_ok l' g c) as Hnext.
  { intros l' g c Hevs Hu Hor Hg. eapply conn_next_event; [done|done|done|by apply Hc]. }
  destruct (ev_hup ev) eqn:Ehup; [|destruct (Z.eqb_spec (ev_fd ev) (listen_fd_ s)) as [Hl|Hl]; [|destruct (ev_in ev) eqn:Ein]]; cbn.
  - split; cbn; try done.
    + intros g c [Hne Hg]%lookup_delete_Some. apply Hnext; auto.
    + by apply map_Forall_delete.
    + rewrite Forall_forall in He |- *. intros e Hin. destruct (He e Hin) as [|]; [by left|right].
      rewrite lookup_delete_ne; [done|]. intros Heq. apply Hnin. rewrite Heq. apply list_elem_of_fmap. by exists e.
    + intros Hq. eapply (backlog_next ev evs (close (ev_fd ev) s)); [done|by right; left|by apply Hb].
  - split; cbn; try done.
    + intros g c Hg. apply Hnext; auto. left. rewrite Hl. by apply (Hf g c Hg).
    + intros Hq. eapply backlog_next; [done|by right; right; eexists|by apply Hb].
  - split; cbn; try done.
    + intros g c Hg. apply Hnext; auto. destruct (decide (g = ev_fd ev)) as [->|]; [by right; left|by left].
    + intros f [= <-]. split; [|done]. by destruct Hev as [[? _]|].
    + intros Hq. eapply backlog_next; [done|by left|by apply Hb].
  - split; cbn; try done.
    + intros g c Hg. apply Hnext; auto.
    + intros Hq. eapply backlog_next; [done|by left|by apply Hb].
Qed.

Lemma accept_inv fl s bs bl evs f reg e :
  inv fl s (Accepting evs) -> backlog s = bs :: bl -> 0 <= f -> f <> listen_fd_ s -> f <> epoll_fd_ s -> conns s !! f = None ->
  inv fl (accept_round (Accepted f reg) (fresh_conn bs e) (set_listen bl (lis_edge s) s)).2 (Accepting evs).
Proof.
  intros [Hc Hf Hn He Hh Hb] Hbl H0 Hl Hep Hnone.
  assert (forall s', backlog_ok s' (Accepting evs)) as Hbk by (intros s' _ _; right; left; by eexists).
  destruct reg; split; cbn; try done.
  - eapply conn_update; [exact Hc|done|]. split; [done|]. intros Hr. left. cbn. destruct Hr as [Hr|Hr]; cbn in Hr.
    + by rewrite bool_decide_false.
    + rewrite Hr. apply orb_true_r.
  - by apply map_Forall_insert_2.
  - eapply Forall_impl; [done|]. intros ev [|]; [by left|right]. by apply live_insert.
  - by rewrite delete_insert_id.
  - by rewrite delete_insert_id.
  - by rewrite delete_insert_id.
Qed.

(** A read or write that changes the connection of the handler. *)
Lemma transfer_inv fl s l l' f c c' b cn :
  inv fl s l -> conns s !! f = Some c -> handling l = Some f -> handling l' = Some f -> evs_of l' = evs_of l ->
  (forall g, g <> f -> unsent l' g = unsent l g) -> got c' = sent c' ++ unsent l' f ->
  inv fl (set_totals b cn (set_conns (<[f := c']> (conns s)) s)) l'.
Proof.
  intros [Hc Hf Hn He Hh Hb] Hl Hhl Hhl' Hevs Hu Hecho. split; cbn; try by rewrite Hevs.
  - eapply conn_update; [exact Hc| |].
    + intros g c0 Hne _. eapply (conn_moves l l' f); [done|done|by right|by apply Hu].
    + split; [done|]. intros _. by right; left.
  - apply fds_insert; [done|by eexists].
  - rewrite Hevs. eapply Forall_impl; [done|]. intros ev [|]; [by left|right]. by apply live_insert.
  - intros g Hg. rewrite Hevs. replace g with f by congruence. split; [by rewrite lookup_insert_eq|by apply Hh].
  - intros Hq Hrun Hbl. cbn in *. rewrite Hevs. destruct (Hb Hq Hrun Hbl) as [|[[evs ->]|?]]; [by left|done|by right; right].
Qed.

Lemma set_totals_id s : set_totals (total_bytes_echoed_ s) (total_connections_ s) s = s.
Proof. by destruct s. Qed.

Lemma unsent_other f g bs evs : g <> f -> unsent (Writing f bs evs) g = [].
Proof. intros Hne. cbn. by rewrite decide_False. Qed.

Lemma read_inv fl s f evs c n :
  inv fl s (Reading f evs) -> conns s !! f = Some c ->
  let r := read_round f (Read (take n (rx c))) (set_conns (<[f := recv n c]> (conns s)) s) in
  inv fl r.2 (go f evs r.1).
Proof.
  intros HI Hl r. subst r. cbn [read_round fst snd go]. eapply (transfer_inv fl s (Reading f evs)); try done.
  - intros g Hne. by rewrite unsent_other.
  - cbn. rewrite decide_True by done. destruct (i_conn _ _ _ HI f c Hl) as [Hecho _]. cbn in Hecho.
    by rewrite Hecho, app_nil_r.
Qed.

Lemma write_inv fl s f bs evs c n :
  inv fl s (Writing f bs evs) -> conns s !! f = Some c ->
  let r := write_round f (Written n) bs (set_conns (<[f := send (take n bs) c]> (conns s)) s) in
  inv fl r.2 (go f evs r.1).
Proof.
  intros HI Hl r. subst r. cbn [write_round fst snd].
  rewrite <- (set_totals_id (set_conns _ s)). cbn [total_bytes_echoed_ total_connections_ set_conns].
  destruct (i_conn _ _ _ HI f c Hl) as [Hecho _]. cbn in Hecho. rewrite decide_True in Hecho by done.
  destruct (drop n bs) as [|b bs'] eqn:Hd; cbn [go]; (eapply (transfer_inv fl s (Writing f bs evs)); try done).
  - intros g Hne. by rewrite unsent_other.
  - cbn. rewrite Hecho, <- (take_drop n bs) at 1. by rewrite Hd, !app_nil_r.
  - intros g Hne. by rewrite !unsent_other.
  - cbn. rewrite decide_True, <- app_assoc, <- Hd, take_drop by done. done.
Qed.

Lemma handler_close_inv fl s l f evs :
  inv fl s l -> handling l = Some f -> evs_of l = evs -> inv fl (close_client f s) (Batch evs).
Proof.
  intros HI Hl <-. unfold close_client. pose proof (i_handling _ _ _ HI f Hl) as [_ Hnin].
  eapply (inv_close fl s l); try done; [|by right|by intros ? ->].
  intros g Hne. destruct l; cbn in *; simplify_eq; [done|]. by rewrite decide_False.
Qed.

Lemma work_inv fl b s l s' l' : work fl b (s, l) (s', l') -> inv fl s l -> inv fl s' l'.
Proof.
  intros Hw HI.
  remember (s, l) as x eqn:Hx. remember (s', l') as y eqn:Hy. destruct Hw as
    [s0 ev evs|s0|s0 bs bl evs f reg e Hbl H0 Hlis Hep Hno|s0 evs Hbl|s0 evs Herr|s0 f evs c n Hc Hn Hb r|s0 f evs c r Hc Hr|
     s0 f bs evs c n Hc Hn r|s0 f bs evs|s0 f bs evs r Hr]; injection Hx as <- <-; injection Hy as <- <-.
  - by apply event_inv.
  - rewrite <- (set_totals_id s0). by eapply thread_moves.
  - by apply (accept_inv _ _ _ bl).
  - rewrite <- (set_totals_id s0). by eapply thread_moves.
  - rewrite <- (set_totals_id s0). eapply thread_moves; try done. intros ? _ _ [? _]. congruence.
  - by apply read_inv.
  - destruct Hr as [->|[Hrx ->]]; [by eapply handler_close_inv|]. destruct (eof c) eqn:Heof; [by eapply handler_close_inv|].
    cbn. rewrite <- (set_totals_id s0). eapply thread_moves; try done. intros g c' Hg [= <-] _ [?|?]; congruence.
  - by apply write_inv.
  - by eapply handler_close_inv.
  - assert (go f evs (write_round f r bs s0).1 = Writing f bs evs /\ (write_round f r bs s0).2 = s0) as [-> ->]; [|done].
    destruct Hr as [->|[-> Hne]]; [done|]. cbn. by destruct bs.
Qed.

Lemma report_lookup s evs f :
  conns (report s evs) !! f = (fun c => if decide (f ∈ (ev_fd <$> evs)) then clear c else c) <$> conns s !! f.
Proof. cbn. rewrite map_lookup_imap. by destruct (conns s !! f). Qed.

Lemma report_inv fl s evs :
  inv fl s Wait -> NoDup (ev_fd <$> evs) -> Forall (due (listen_errors fl) s) evs -> inv fl (report s evs) (Batch evs).
Proof.
  intros [Hc Hf _ _ _ Hb] Hn Hd. rewrite Forall_forall in Hd. split; [| |done| |done|].
  - intros f c. rewrite report_lookup, fmap_Some. intros (c0 & Hc0 & ->). destruct (Hc f c0 Hc0) as [Hecho Hnote].
    destruct (decide (f ∈ ev_fd <$> evs)) as [Hin|Hnin].
    + split; [done|]. intros Hr. right. right. apply list_elem_of_fmap in Hin as (ev & -> & Hin). exists ev. split_and!; try done.
      destruct (Hd ev Hin) as [(Heq & _)|(c1 & Hc1 & _ & Hin1 & _)].
      * destruct (Hf _ c0 Hc0) as (_ & ? & _). done.
      * right. apply Hin1. rewrite Hc0 in Hc1. by simplify_eq.
    + split; [done|]. intros Hr. destruct (Hnote Hr) as [|[?|(ev & Hin & _)]]; [by left|done|by apply elem_of_nil in Hin].
  - intros f c. rewrite report_lookup, fmap_Some. intros (c0 & Hc0 & _). by apply (Hf f c0).
  - apply Forall_forall. intros ev Hin. destruct (Hd ev Hin) as [(Heq & _ & _ & Hhup)|(c & Hcl & _)]; [by left|right].
    rewrite report_lookup, Hcl. done.
  - intros Hq Hrun Hbl. cbn in *. case_decide as Hin; [|destruct (Hb Hq Hrun Hbl) as [|[[? ?]|(ev & Hev & _)]]; [by left|done|by apply elem_of_nil in Hev]].
    right. right. apply list_elem_of_fmap in Hin as (ev & Hfd & Hin). exists ev. split_and!; try done.
    destruct (Hd ev Hin) as [(_ & _ & _ & Hhup)|(c & Hcl & _)]; [by apply Hhup, Hq|].
    destruct (Hf _ c Hcl) as (_ & ? & _). done.
Qed.

Lemma stop_inv fl s : inv fl s Wait -> inv fl (stop s) Wait.
Proof.
  intros [Hc Hf _ _ _ _].
  assert (conns (stop s) = conns s /\ running_ (stop s) = false /\ map_Forall (fun f _ => 0 <= f /\ f <> listen_fd_ (stop s) /\ f <> epoll_fd_ (stop s)) (conns s))
    as (Heq & Hrun & Hf').
  { assert (conns s !! listen_fd_ s = None) as Hl.
    { destruct (conns s !! listen_fd_ s) as [c|] eqn:E; [|done]. destruct (Hf _ c E) as (_ & ? & _). done. }
    assert (conns s !! epoll_fd_ s = None) as He.
    { destruct (conns s !! epoll_fd_ s) as [c|] eqn:E; [|done]. destruct (Hf _ c E) as (_ & _ & ?). done. }
    unfold stop. cbn [epoll_fd_ set_running]. destruct (0 <=? epoll_fd_ s); cbn [listen_fd_ set_fds set_running close];
      (destruct (0 <=? listen_fd_ s); cbn [conns running_ listen_fd_ epoll_fd_ set_fds set_running close];
       rewrite ?(delete_id _ (epoll_fd_ s)), ?(delete_id _ (listen_fd_ s)) by done; (split; [done|split; [done|]]);
       intros f c Hfc; destruct (Hf f c Hfc) as (? & ? & ?); split_and!; done || lia). }
  split; [by rewrite Heq|by rewrite Heq|constructor|constructor|done|]. intros _ Hr. congruence.
Qed.

Lemma epoll_step_inv fl x y : step fl x y -> inv fl x.1 x.2 -> inv fl y.1 y.2.
Proof.
  intros [[s l] [s' l'] b Hw|s evs _ Hn Hd _|s|s _|s l f c bs Hc _ _|s l f c Hc|s l bs] HI; cbn in *.
  - by eapply work_inv.
  - by apply report_inv.
  - by apply stop_inv.
  - rewrite <- (set_totals_id s). by eapply thread_moves.
  - by eapply inv_edge.
  - by eapply inv_edge.
  - destruct HI as [H1 H2 H3 H4 H5 H6]. split; try done. intros _ _ _. by left.
Qed.

Definition reachable (fl : faults) (x : t * pc) : Prop :=
  exists sock ep port, 0 <= sock /\ 0 <= ep /\ rtc (step fl) (started sock ep port) x.

Lemma epoll_reachable_inv fl x : reachable fl x -> inv fl x.1 x.2.
Proof.
  intros (sock & ep & port & Hs & He & Hrun). apply (rtc_ind_r (R := step fl) (fun x => inv fl x.1 x.2) (started sock ep port)); [| |done].
  - unfold started, init. cbn [listen_fd_ epoll_fd_ set_fds e_socket e_bind e_listen e_epoll e_ctl].
    rewrite !(proj2 (Z.ltb_ge _ _)) by lia. split; cbn; [apply map_Forall_empty|apply map_Forall_empty|constructor|constructor|done|].
    by intros _ _ ?.
  - intros y z _ Hstep HI. by eapply epoll_step_inv.
Qed.

(** ** Properties *)

(** C31. Whatever the sockets and system calls do, the bytes read from an open
    connection are the bytes written back followed by those the handler still
    holds: the echo loses, repeats and reorders nothing, also with partial
    writes and a full send buffer. *)
Theorem epoll_echo fl s l f c :
  reachable fl (s, l) -> conns s !! f = Some c -> got c = sent c ++ unsent l f.
Proof. intros Hx Hc. by apply (i_conn _ _ _ (epoll_reachable_inv _ _ Hx) f c Hc). Qed.

(** C17. No wake-up is lost although events are edge-triggered: whenever the
    server waits for events, each connection with unread bytes or a closed
    peer has an event due.  The listening socket has one due if connections are
    pending, while the server is running and provided that [accept4] fails only
    when no connection is pending and that the listening socket never reports
    an error event. *)
Theorem epoll_no_lost_wakeup fl s :
  reachable fl (s, Wait) ->
  (forall f c, conns s !! f = Some c -> ready c -> edge c = true) /\
  (quiet fl -> running_ s = true -> backlog s <> [] -> lis_edge s = true).
Proof.
  intros Hx. pose proof (epoll_reachable_inv _ _ Hx) as [Hc _ _ _ _ Hb]. cbn in *. split.
  - intros f c Hf Hr. destruct (Hc f c Hf) as [_ Hn]. destruct (Hn Hr) as [|[?|(ev & Hin & _)]]; [done|done|by apply elem_of_nil in Hin].
  - intros Hq Hrun Hbl. destruct (Hb Hq Hrun Hbl) as [|[[? ?]|(ev & Hin & _)]]; [done|done|by apply elem_of_nil in Hin].
Qed.

(** ** Termination of the handlers *)

Definition conn_weight (p : Z * conn) : nat := 2 * length (rx p.2).
Definition conns_weight (m : gmap Z conn) : nat := sum_list_with conn_weight (map_to_list m).
Definition pc_weight (l : pc) : nat :=
  match l with
  | Wait | Exited => 0
  | Batch evs => 2 * length evs
  | Accepting evs | Reading _ evs => 2 * length evs + 1
  | Writing _ bs evs => 2 * length evs + 1 + length bs
  end.

(** Twice the unread bytes, the pending connections and the work at hand. *)
Definition weight (x : t * pc) : nat :=
  conns_weight (conns x.1) + sum_list_with (fun bs => 2 * length bs + 1)%nat (backlog x.1) + pc_weight x.2.

Lemma sum_list_with_perm {A} (f : A -> nat) l1 l2 : l1 ≡ₚ l2 -> sum_list_with f l1 = sum_list_with f l2.
Proof. induction 1; cbn; lia. Qed.

Lemma weight_new m f c : m !! f = None -> conns_weight (<[f := c]> m) = (2 * length (rx c) + conns_weight m)%nat.
Proof. intros Hf. unfold conns_weight. by rewrite (sum_list_with_perm _ _ _ (map_to_list_insert m f c Hf)). Qed.

Lemma weight_lookup m f c : m !! f = Some c -> conns_weight m = (2 * length (rx c) + conns_weight (delete f m))%nat.
Proof. intros Hf. rewrite <- (insert_delete_id m f c Hf) at 1. apply weight_new, lookup_delete_eq. Qed.

Lemma weight_delete m f : (conns_weight (delete f m) <= conns_weight m)%nat.
Proof. destruct (m !! f) as [c|] eqn:Hf; [rewrite (weight_lookup m f c Hf); lia|by rewrite delete_id]. Qed.

Lemma weight_update m f c c' :
  m !! f = Some c -> (conns_weight (<[f := c']> m) + 2 * length (rx c) = conns_weight m + 2 * length (rx c'))%nat.
Proof.
  intros Hf. rewrite <- insert_delete_eq, weight_new by apply lookup_delete_eq. rewrite (weight_lookup m f c Hf). lia.
Qed.

Lemma weight_close f s l : (weight (close f s, l) <= conns_weight (conns s) + sum_list_with (fun bs => 2 * length bs + 1)%nat (backlog s) + pc_weight l)%nat.
Proof. unfold weight. cbn. pose proof (weight_delete (conns s) f). lia. Qed.

Lemma work_weight fl x y : work fl true x y -> (weight y < weight x)%nat.
Proof.
  intros Hw. remember true as b eqn:Hb. destruct Hw as
    [s ev evs|s|s bs bl evs f reg e Hbl H0 Hlis Hep Hno|s evs Hbl|s evs Herr|s f evs c n Hc Hn Hbuf r|s f evs c r Hc Hr|
     s f bs evs c n Hc Hn r|s f bs evs|s f bs evs r Hr]; try done; clear Hb.
  - unfold dispatch, close_client. repeat case_match; cbn [fst snd enter]; try (unfold weight; cbn; lia).
    pose proof (weight_close (ev_fd ev) s (Batch evs)). unfold weight in *. cbn in *. lia.
  - destruct reg; unfold weight; cbn; rewrite Hbl; cbn [sum_list_with].
    + rewrite weight_new by done. cbn. lia.
    + rewrite delete_insert_id by done. lia.
  - unfold weight. cbn. lia.
  - unfold weight. cbn. lia.
  - subst r. unfold weight. cbn. pose proof (weight_update (conns s) f c (recv n c) Hc) as Hu. cbn in Hu.
    rewrite length_drop in Hu. rewrite length_take. lia.
  - pose proof (weight_close f s (Batch evs)). destruct Hr as [->|[_ ->]]; [|case_match]; unfold weight, close_client in *; cbn in *; lia.
  - subst r. pose proof (weight_update (conns s) f c (send (take n bs) c) Hc) as Hu. cbn in Hu. unfold weight.
    cbn [write_round fst snd conns backlog set_conns]. pose proof (length_drop bs n).
    destruct (drop n bs) as [|b bs'] eqn:Hd; cbn [go pc_weight length] in *; lia.
  - pose proof (weight_close f s (Batch evs)). unfold weight, close_client in *. cbn in *. lia.
Qed.

Lemma fresh_fd (X : gset Z) : exists f, 0 <= f /\ f ∉ X.
Proof.
  exists (Z.of_nat (fresh (set_map Z.to_nat X : gset nat))). split; [lia|]. intros Hin.
  apply (is_fresh (set_map Z.to_nat X : gset nat)). apply elem_of_map. exists (Z.of_nat (fresh (set_map Z.to_nat X : gset nat))).
  by rewrite Nat2Z.id.
Qed.

(** The handlers terminate: the thread takes at most [weight] steps
    before it waits again, not counting attempts to write to a full socket,
    and it can always take one. *)
Theorem epoll_handlers_terminate fl s l :
  reachable fl (s, l) ->
  (forall n y, nsteps (work fl true) n (s, l) y -> (n <= weight (s, l))%nat) /\
  (l <> Wait -> l <> Exited -> l <> Batch [] -> exists y, work fl true (s, l) y).
Proof.
  intros Hx. split.
  - intros n y Hn. remember (s, l) as x eqn:Hxe. clear Hxe Hx.
    induction Hn as [x|n x y z Hw _ IH]; [lia|]. apply work_weight in Hw. lia.
  - pose proof (epoll_reachable_inv _ _ Hx) as [_ _ _ _ Hh _]. cbn in Hh. intros H1 H2 H3.
    destruct l as [|[|ev evs]|evs|f evs|f bs evs|]; try done.
    + eexists. apply W_event.
    + destruct (backlog s) as [|bs bl] eqn:Hbl; [eexists; by apply W_accept_again|].
      destruct (fresh_fd (dom (conns s) ∪ {[listen_fd_ s; epoll_fd_ s]})) as (f & H0 & Hf).
      eexists. apply (W_accept _ _ bs bl _ f true false); [done|done|set_solver|set_solver|]. apply not_elem_of_dom. set_solver.
    + destruct (Hh f eq_refl) as [[c Hc] _]. destruct (rx c) as [|b bs] eqn:Hrx.
      * eexists. eapply W_read_stop; [done|by right].
      * eexists. apply (W_read _ _ _ _ c 1 Hc); [rewrite Hrx; cbn; lia|unfold BUFFER_SIZE; lia].
    + eexists. apply W_write_error.
Qed.

(** ** Examples *)

Lemma rtc_eq {A} (R : relation A) x y : x = y -> rtc R x y.
Proof. by intros ->. Qed.

Ltac next_step c := eapply rtc_l; [apply c|].
Ltac next_work c := eapply rtc_l; [eapply S_work; apply c|].
Ltac due_conn := right; eexists; split; [vm_compute; reflexivity|]; vm_compute; intuition discriminate.
Ltac due_listen := left; vm_compute; intuition discriminate.

(** A connection that sends two bytes is accepted on descriptor 7 and reported. *)
Definition no_faults : faults := mk_faults false false.
Definition ex_conn (fl : faults) (x : t * pc) : Prop :=
  rtc (step fl) (started 5 6 8080) x.

Definition ex_accepted (e : bool) : t := mk 8080 5 6 true 0 1 {[7 := fresh_conn [65; 66] e]} [] false [].

Lemma ex_accept fl e : ex_conn fl (ex_accepted e, Wait).
Proof.
  unfold ex_conn. next_step (S_connect fl (started 5 6 8080).1 Wait [65; 66]).
  eapply rtc_l; [apply (S_wait _ _ [mk_ev 5 false true])|].
  { reflexivity. } { apply NoDup_singleton. } { apply Forall_singleton. due_listen. } { vm_compute. lia. }
  next_work W_event. eapply rtc_l; [eapply S_work, (W_accept _ _ [65; 66] [] _ 7 true e); vm_compute; congruence || lia|].
  eapply rtc_l; [eapply S_work, W_accept_again; reflexivity|]. next_work W_end. apply rtc_eq. destruct e; vm_compute; reflexivity.
Qed.

(** The bytes are read and written back one by one. *)
Definition ex_served : t := mk 8080 5 6 true 2 1 {[7 := mk_conn [] false false [65; 66] [65; 66]]} [] false [].

Lemma ex_serve fl : ex_conn fl (ex_served, Wait).
Proof.
  unfold ex_conn. etrans; [apply (ex_accept fl false)|].
  eapply rtc_l; [apply (S_wait _ _ [mk_ev 7 false true])|].
  { reflexivity. } { apply NoDup_singleton. } { apply Forall_singleton. due_conn. } { vm_compute. lia. }
  next_work W_event.
  eapply rtc_l; [eapply S_work, (W_read _ _ 7 [] (mk_conn [65; 66] false false [] []) 2); [vm_compute; reflexivity|cbn; lia|vm_compute; lia]|].
  eapply rtc_l; [eapply S_work, W_write_again; by left|].
  eapply rtc_l; [eapply S_work, (W_write _ _ 7 _ [] (mk_conn [] false false [65; 66] []) 1); [vm_compute; reflexivity|cbn; lia]|].
  eapply rtc_l; [eapply S_work, (W_write _ _ 7 _ [] (mk_conn [] false false [65; 66] [65]) 1); [vm_compute; reflexivity|cbn; lia]|].
  eapply rtc_l; [eapply S_work, (W_read_stop _ _ 7 [] (mk_conn [] false false [65; 66] [65; 66])); [vm_compute; reflexivity|by right]|].
  next_work W_end. apply rtc_eq. vm_compute. reflexivity.
Qed.

Lemma ex_reachable fl x : ex_conn fl x -> reachable fl x.
Proof. intros H. exists 5, 6, 8080. split; [lia|]. by split; [lia|]. Qed.

Lemma epoll_echo_witness : [65; 66] = [65; 66] ++ [].
Proof.
  apply (epoll_echo no_faults ex_served Wait 7 (mk_conn [] false false [65; 66] [65; 66])); [|vm_compute; reflexivity].
  apply ex_reachable, ex_serve.
Defined.

Lemma epoll_no_lost_wakeup_witness : edge (fresh_conn [65; 66] false) = true.
Proof.
  apply (epoll_no_lost_wakeup no_faults (ex_accepted false) (ex_reachable _ _ (ex_accept _ false)) ) with (f := 7);
    [vm_compute; reflexivity|left; discriminate].
Defined.

(** The event of the connection is about to be handled. *)
Definition ex_batch : t * pc :=
  (mk 8080 5 6 true 0 1 {[7 := mk_conn [65; 66] false false [] []]} [] false [], Batch [mk_ev 7 false true]).

Lemma ex_batched fl : ex_conn fl ex_batch.
Proof.
  unfold ex_conn. etrans; [apply (ex_accept fl false)|].
  eapply rtc_l; [apply (S_wait _ _ [mk_ev 7 false true])|].
  { reflexivity. } { apply NoDup_singleton. } { apply Forall_singleton. due_conn. } { vm_compute. lia. }
  apply rtc_eq. vm_compute. reflexivity.
Qed.

Lemma epoll_handlers_terminate_witness :
  (exists y, work no_faults true ex_batch y) /\ (forall n y, nsteps (work no_faults true) n ex_batch y -> (n <= weight ex_batch)%nat).
Proof.
  destruct (epoll_handlers_terminate no_faults ex_batch.1 ex_batch.2 (ex_reachable _ _ (ex_batched _))) as [H1 H2].
  split; [by apply H2|exact H1].
Defined.

(** A client that sends bytes and then closes its side of the connection gets
    nothing back: the hang-up is handled before the bytes are read. *)
Lemma epoll_half_close_drops :
  reachable no_faults (mk 8080 5 6 true 0 1 ∅ [] false [7], Wait) /\ rx (fresh_conn [65; 66] true) = [65; 66].
Proof.
  split; [|done]. apply ex_reachable. unfold ex_conn. etrans; [apply (ex_accept _ true)|].
  eapply rtc_l; [apply (S_wait _ _ [mk_ev 7 true true])|].
  { reflexivity. } { apply NoDup_singleton. } { apply Forall_singleton. due_conn. } { vm_compute. lia. }
  next_work W_event. next_work W_end. apply rtc_eq. vm_compute. reflexivity.
Qed.

(** After an error of [accept4] the server waits although a connection is
    pending, and no event is due for it. *)
Lemma epoll_accept_error_stalls :
  exists s, reachable (mk_faults true false) (s, Wait) /\ running_ s = true /\ backlog s <> [] /\ lis_edge s = false.
Proof.
  eexists. split; [|split; [|split]].
  - apply ex_reachable. unfold ex_conn. next_step (S_connect (mk_faults true false) (started 5 6 8080).1 Wait []).
    eapply rtc_l; [apply (S_wait _ _ [mk_ev 5 false true])|].
    { reflexivity. } { apply NoDup_singleton. } { apply Forall_singleton. due_listen. } { vm_compute. lia. }
    next_work W_event. eapply rtc_l; [eapply S_work, W_accept_error; reflexivity|]. next_work W_end. apply rtc_refl.
  - reflexivity.
  - discriminate.
  - reflexivity.
Qed.

(** An error event on the listening socket closes it as if it were a client,
    and [stop] closes the same descriptor again. *)
Lemma epoll_listen_closed_twice :
  exists s, reachable (mk_faults false true) (s, Wait) /\ closed (stop s) = [5; 6; 5].
Proof.
  eexists. split.
  - apply ex_reachable. unfold ex_conn. next_step (S_connect (mk_faults false true) (started 5 6 8080).1 Wait []).
    eapply rtc_l; [apply (S_wait _ _ [mk_ev 5 true true])|].
    { reflexivity. } { apply NoDup_singleton. } { apply Forall_singleton. due_listen. } { vm_compute. lia. }
    next_work W_event. next_work W_end. apply rtc_refl.
  - reflexivity.
Qed.

(** ** Descriptors of the server *)

Definition if_open (f : Z) : list Z := if 0 <=? f then [f] else [].

Lemma stop_fds s :
  closed (stop s) = closed s ++ if_open (epoll_fd_ s) ++ if_open (listen_fd_ s) /\ listen_fd_ (stop s) < 0 /\ epoll_fd_ (stop s) < 0.
Proof.
  unfold stop, if_open. cbn [epoll_fd_ set_running]. destruct (Z.leb_spec 0 (epoll_fd_ s)); cbn [listen_fd_ set_fds set_running close];
    (destruct (Z.leb_spec 0 (listen_fd_ s)); cbn [closed epoll_fd_ listen_fd_ set_fds set_running close app];
     rewrite <- ?app_assoc, ?app_nil_r; (split; [done|lia])).
Qed.

(** Every descriptor that a failed or successful [init] obtained is closed
    once by [init] itself and [stop]. *)
Lemma epoll_init_closes e port :
  let '(ok, s) := init e (EpollEchoServer port) in
  let sock_ok := (0 <=? e_socket e) && (0 <=? e_bind e) && (0 <=? e_listen e) in
  closed (stop s) ≡ₚ if_open (e_socket e) ++ (if sock_ok then if_open (e_epoll e) else []) /\
  listen_fd_ (stop s) < 0 /\ epoll_fd_ (stop s) < 0 /\
  (ok = true <-> sock_ok = true /\ 0 <= e_epoll e /\ 0 <= e_ctl e).
Proof.
  destruct (init e (EpollEchoServer port)) as [ok s] eqn:Hi. cbv zeta. destruct (stop_fds s) as (-> & Hl & Hr).
  unfold init in Hi. cbn [listen_fd_ epoll_fd_ set_fds EpollEchoServer] in Hi. unfold if_open.
  destruct (Z.ltb_spec (e_socket e) 0), (Z.leb_spec 0 (e_socket e)), (Z.ltb_spec (e_bind e) 0), (Z.leb_spec 0 (e_bind e)),
    (Z.ltb_spec (e_listen e) 0), (Z.leb_spec 0 (e_listen e)), (Z.ltb_spec (e_epoll e) 0), (Z.leb_spec 0 (e_epoll e)); try lia.
  all: try (injection Hi as <- <-; cbn; rewrite ?(proj2 (Z.leb_gt _ _)) by lia; naive_solver lia).
  destruct (Z.ltb_spec (e_ctl e) 0); injection Hi as <- <-; cbn [closed epoll_fd_ listen_fd_ set_fds close EpollEchoServer].
  - split; [apply Permutation_swap|]. cbn. naive_solver lia.
  - rewrite !(proj2 (Z.leb_le 0 _)) by lia. split; [apply Permutation_swap|]. cbn. naive_solver lia.
Qed.
End Epoll.
