(* ===== verification/Simd.v ===== *)
(** * The vectorised pipelines

    Model of [VectorPipeline] (03-cpu, simd_vector_pipeline.hpp), of the
    turnover calculations (aos_vs_soa_simd.cpp) and of the aligned allocator
    and tick layouts (market_tick.hpp).  An array of doubles is a list with a
    base address; the AVX2 loads and stores move four lanes and fault on an
    address that is not a multiple of 32 or outside the array.  Doubles are
    the binary64 numbers of [SpecFloat], with one NaN. *)

From Stdlib Require Import Floats.SpecFloat.
From S2P Require Import Prelude.

#[local] Open Scope Z_scope.
#[local] Open Scope cpp_scope.

Module Simd.

(** ** Arithmetic *)

(** What the code uses of its number type; [fma] rounds once. *)
Class Arith (D : Type) := { zero : D; add : D -> D -> D; mul : D -> D -> D; fma : D -> D -> D -> D; ltb : D -> D -> bool }.

Definition double := spec_float.

Definition fma64 (x y z : double) : double :=
  match x, y, z with
  | S754_finite sx mx ex, S754_finite sy my ey, S754_finite sz mz ez =>
      let e := Z.min (ex + ey) ez in
      let p := cond_Zopp (xorb sx sy) (Z.pos (mx * my) * 2 ^ (ex + ey - e)) in
      binary_normalize 53 1024 (p + cond_Zopp sz (Z.pos mz * 2 ^ (ez - e))) e false
  | S754_finite _ _ _, S754_finite _ _ _, S754_zero _ => SFmul 53 1024 x y
  | S754_finite _ _ _, S754_finite _ _ _, _ => z
  | _, _, _ => SFadd 53 1024 (SFmul 53 1024 x y) z
  end.

#[export] Instance binary64 : Arith double := {
  zero := S754_zero false; add := SFadd 53 1024; mul := SFmul 53 1024; fma := fma64; ltb := SFltb }.

(** Numbers without rounding. *)
#[export] Instance exact : Arith Z := {
  zero := 0; add := Z.add; mul := Z.mul; fma x y z := x * y + z; ltb := Z.ltb }.

(** ** Vectors of four lanes *)

Section code.
Context {D : Type} `{Arith D}.

Record array := mk_array { base : Z; elems : list D }.

Definition set1 (x : D) : list D := replicate 4 x.
Definition valigned (a : array) (i : nat) : bool := (base a + 8 * Z.of_nat i) mod 32 =? 0.

Definition load (a : array) (i : nat) : option (list D) :=
  if valigned a i && (i + 4 <=? length (elems a))%nat then Some (take 4 (drop i (elems a))) else None.

Definition stream (a : array) (i : nat) (v : list D) : option array :=
  if valigned a i && (i + 4 <=? length (elems a))%nat
  then Some (mk_array (base a) (take i (elems a) ++ v ++ drop (i + 4) (elems a))) else None.

Definition store (a : array) (i : nat) (x : D) : option array :=
  if (i <? length (elems a))%nat then Some (mk_array (base a) (<[i := x]> (elems a))) else None.

Definition vfmadd (a b c : list D) : list D := zip_with (fun f x => f x) (zip_with fma a b) c.
Definition vadd (a b : list D) : list D := zip_with add a b.

(** [MAXPD] and [MINPD] return the second operand unless the comparison holds. *)
Definition vmax (a b : list D) : list D := zip_with (fun x y => if ltb y x then x else y) a b.
Definition vmin (a b : list D) : list D := zip_with (fun x y => if ltb x y then x else y) a b.

(** ** [fma_stream] *)

Fixpoint fma_loop16 (fuel : nat) (src dst : array) (count : nat) (v_scale v_bias : list D) (i : nat) : option (nat * array) :=
  match fuel with
  | O => Some (i, dst)
  | S fuel =>
      if (i + 15 <? count)%nat then
        x0 ← load src i; x1 ← load src (i + 4); x2 ← load src (i + 8); x3 ← load src (i + 12);
        dst ← stream dst i (vfmadd x0 v_scale v_bias); dst ← stream dst (i + 4) (vfmadd x1 v_scale v_bias);
        dst ← stream dst (i + 8) (vfmadd x2 v_scale v_bias); dst ← stream dst (i + 12) (vfmadd x3 v_scale v_bias);
        fma_loop16 fuel src dst count v_scale v_bias (i + 16)
      else Some (i, dst)
  end.

Fixpoint fma_loop4 (fuel : nat) (src dst : array) (count : nat) (v_scale v_bias : list D) (i : nat) : option (nat * array) :=
  match fuel with
  | O => Some (i, dst)
  | S fuel =>
      if (i + 3 <? count)%nat then
        x ← load src i; dst ← stream dst i (vfmadd x v_scale v_bias); fma_loop4 fuel src dst count v_scale v_bias (i + 4)
      else Some (i, dst)
  end.

(** The scalar loop at the end, for either function. *)
Fixpoint tail_loop (fuel : nat) (f : D -> D) (src dst : array) (count i : nat) : option array :=
  match fuel with
  | O => Some dst
  | S fuel =>
      if (i <? count)%nat then
        x ← elems src !! i; dst ← store dst i (f x); tail_loop fuel f src dst count (i + 1)
      else Some dst
  end.

(** [x * scale + bias] in an expression: C++ allows the compiler to contract
    it to one operation, which is its choice [contract]. *)
Definition mul_add (contract : bool) (x y z : D) : D := if contract then fma x y z else add (mul x y) z.

(** Each loop runs at most [count] times. *)
Definition fma_stream (contract : bool) (src dst : array) (count : nat) (scale bias : D) : option array :=
  '(i, dst) ← fma_loop16 count src dst count (set1 scale) (set1 bias) 0;
  '(i, dst) ← fma_loop4 count src dst count (set1 scale) (set1 bias) i;
  tail_loop count (fun x => mul_add contract x scale bias) src dst count i.

(** ** [clamp_stream] *)

Fixpoint clamp_loop8 (fuel : nat) (src dst : array) (count : nat) (v_min v_max : list D) (i : nat) : option (nat * array) :=
  match fuel with
  | O => Some (i, dst)
  | S fuel =>
      if (i + 7 <? count)%nat then
        x0 ← load src i; x1 ← load src (i + 4);
        dst ← stream dst i (vmax v_min (vmin v_max x0)); dst ← stream dst (i + 4) (vmax v_min (vmin v_max x1));
        clamp_loop8 fuel src dst count v_min v_max (i + 8)
      else Some (i, dst)
  end.

Definition clamp_scalar (min_val max_val x : D) : D := if ltb x min_val then min_val else if ltb max_val x then max_val else x.

Definition clamp_stream (src dst : array) (count : nat) (min_val max_val : D) : option array :=
  '(i, dst) ← clamp_loop8 count src dst count (set1 min_val) (set1 max_val) 0;
  tail_loop count (clamp_scalar min_val max_val) src dst count i.

(** ** Turnover *)

Record AosMarketTick := mk_tick { price : D; volume : D; timestamp : Z; tick_flags : Z; symbol : list Z }.
Record SoaTickDataset := mk_soa { prices : array; volumes : array; timestamps : list Z; soa_flags : list Z }.

(** [total += p * v] *)
Definition accumulate (contract : bool) (total p v : D) : D := if contract then fma p v total else add total (mul p v).

Definition calculate_turnover_aos_scalar (contract : bool) (ticks : list AosMarketTick) : D :=
  foldl (fun total tick => accumulate contract total (price tick) (volume tick)) zero ticks.

Fixpoint turnover_tail (contract : bool) (fuel : nat) (ps vs : list D) (n i : nat) (total : D) : option D :=
  match fuel with
  | O => Some total
  | S fuel =>
      if (i <? n)%nat then p ← ps !! i; v ← vs !! i; turnover_tail contract fuel ps vs n (i + 1) (accumulate contract total p v)
      else Some total
  end.

Definition size (d : SoaTickDataset) : nat := length (elems (prices d)).

Definition calculate_turnover_soa_scalar (contract : bool) (d : SoaTickDataset) : option D :=
  turnover_tail contract (size d) (elems (prices d)) (elems (volumes d)) (size d) 0 zero.

Fixpoint turnover_loop16 (fuel : nat) (ps vs : array) (n i : nat) (s0 s1 s2 s3 : list D) : option (nat * (list D * list D * list D * list D)) :=
  match fuel with
  | O => Some (i, (s0, s1, s2, s3))
  | S fuel =>
      if (i + 15 <? n)%nat then
        p0 ← load ps i; v0 ← load vs i; p1 ← load ps (i + 4); v1 ← load vs (i + 4);
        p2 ← load ps (i + 8); v2 ← load vs (i + 8); p3 ← load ps (i + 12); v3 ← load vs (i + 12);
        turnover_loop16 fuel ps vs n (i + 16) (vfmadd p0 v0 s0) (vfmadd p1 v1 s1) (vfmadd p2 v2 s2) (vfmadd p3 v3 s3)
      else Some (i, (s0, s1, s2, s3))
  end.

Definition hsum (v : list D) : D :=
  match v with [a; b; c; d] => add (add (add a b) c) d | _ => zero end.

Definition calculate_turnover_soa_avx2 (contract : bool) (d : SoaTickDataset) : option D :=
  let n := size d in
  '(i, (s0, s1, s2, s3)) ← turnover_loop16 n (prices d) (volumes d) n 0 (set1 zero) (set1 zero) (set1 zero) (set1 zero);
  turnover_tail contract n (elems (prices d)) (elems (volumes d)) n i (hsum (vadd (vadd s0 s1) (vadd s2 s3))).
End code.

(** ** The allocator *)

(** [posix_memalign] maps an alignment and a size to a block, if there is one;
    [inl] stands for the exception. *)
Definition allocate (posix_memalign : Z -> Z -> option Z) (sizeof_T n : Z) : unit + Z :=
  if n =? 0 then inr 0 else
  match posix_memalign 32 (n *64 sizeof_T) with None => inl tt | Some p => inr p end.

(** ** Blocks *)

Section proofs.
Context {D : Type} `{Arith D}.

(** The destination after the first [i] elements: [f] of the source, then the
    old content. *)
Definition progress (f : D -> D) (i : nat) (src dst : list D) : list D := (f <$> take i src) ++ drop i dst.

Lemma length_progress f i src dst : (i <= length src)%nat -> (i <= length dst)%nat -> length (progress f i src dst) = length dst.
Proof. intros Hs Hd. unfold progress. rewrite length_app, length_fmap, length_take, length_drop. lia. Qed.

Lemma valigned_block (a : array (D := D)) i : base a mod 32 = 0 -> (i mod 4 = 0)%nat -> valigned a i = true.
Proof.
  intros Hb Hi. unfold valigned. apply Z.eqb_eq. apply Nat.Lcm0.mod_divide in Hi as [j ->].
  replace (8 * Z.of_nat (j * 4)) with (Z.of_nat j * 32) by lia. by rewrite Z.mod_add by lia.
Qed.

Lemma load_block (a : array (D := D)) i :
  base a mod 32 = 0 -> (i mod 4 = 0)%nat -> (i + 4 <= length (elems a))%nat -> load a i = Some (take 4 (drop i (elems a))).
Proof. intros Hb Hi Hl. unfold load. rewrite valigned_block by done. by rewrite (proj2 (Nat.leb_le _ _)). Qed.

Lemma stream_block (f : D -> D) b i src dst :
  b mod 32 = 0 -> (i mod 4 = 0)%nat -> (i + 4 <= length src)%nat -> (i + 4 <= length dst)%nat ->
  stream (mk_array b (progress f i src dst)) i (f <$> take 4 (drop i src)) = Some (mk_array b (progress f (i + 4) src dst)).
Proof.
  intros Hb Hi Hs Hd. unfold stream. cbn [base elems]. rewrite valigned_block by done.
  rewrite length_progress by lia. rewrite (proj2 (Nat.leb_le _ _)) by done. cbn [andb]. do 2 f_equal. unfold progress.
  assert (length (f <$> take i src) = i) as Hlen by (rewrite length_fmap, length_take; lia).
  rewrite take_app_length' by done. rewrite drop_app_ge by lia. rewrite Hlen, drop_drop, app_assoc, <- fmap_app. f_equal.
  - f_equal. rewrite <- (take_drop i (take (i + 4) src)), take_take, Nat.min_l by lia. f_equal.
    rewrite skipn_firstn_comm. f_equal. lia.
  - f_equal. lia.
Qed.

Lemma vfmadd_set1 x s b : length x = 4%nat -> vfmadd x (set1 s) (set1 b) = (fun y => fma y s b) <$> x.
Proof. intros Hl. do 4 (destruct x as [|? x]; [done|]). by destruct x. Qed.

(** [MAXPD] of [min_val] and [MINPD] of [max_val]. *)
Definition clamp_vector (min_val max_val x : D) : D :=
  let m := if ltb max_val x then max_val else x in if ltb m min_val then min_val else m.

Lemma vclamp_set1 x lo hi : length x = 4%nat -> vmax (set1 lo) (vmin (set1 hi) x) = clamp_vector lo hi <$> x.
Proof. intros Hl. do 4 (destruct x as [|? x]; [done|]). by destruct x. Qed.

Lemma length_block (l : list D) i : (i + 4 <= length l)%nat -> length (take 4 (drop i l)) = 4%nat.
Proof. intros Hl. rewrite length_take, length_drop. lia. Qed.

(** ** Loops *)

Context (src : array (D := D)) (db : Z) (dst : list D) (count : nat).
Hypothesis Hsrc : base src mod 32 = 0.
Hypothesis Hdst : db mod 32 = 0.
Hypothesis Hcs : (count <= length (elems src))%nat.
Hypothesis Hcd : (count <= length dst)%nat.
Abbreviation at_ f i := (mk_array db (progress f i (elems src) dst)).

(** A loop over blocks of [w] elements stops where less than [w] remain. *)
Definition block_end (w i j : nat) : Prop := (i <= j <= count)%nat /\ (j mod 4 = 0)%nat /\ (count < j + w)%nat.

Lemma mod4_add i k : (i mod 4 = 0)%nat -> ((i + 4 * k) mod 4 = 0)%nat.
Proof using. intros Hi. rewrite Nat.mul_comm, Nat.Div0.mod_add. done. Qed.

Lemma fma_loop16_spec scale bias fuel i :
  (i mod 4 = 0)%nat -> (i <= count <= i + fuel)%nat ->
  exists j, block_end 16 i j /\
    fma_loop16 fuel src (at_ (fun y => fma y scale bias) i) count (set1 scale) (set1 bias) i = Some (j, at_ (fun y => fma y scale bias) j).
Proof using Hsrc Hdst Hcs Hcd.
  revert i. induction fuel as [|fuel IH]; intros i Hi Hf; cbn [fma_loop16].
  { exists i. split; [split_and!; [lia|lia|done|lia]|done]. }
  destruct (Nat.ltb_spec (i + 15) count); [|exists i; split; [split_and!; [lia|lia|done|lia]|done]].
  assert ((i + 4) mod 4 = 0 /\ (i + 8) mod 4 = 0 /\ (i + 12) mod 4 = 0 /\ (i + 16) mod 4 = 0)%nat as (M1 & M2 & M3 & M4).
  { split_and!; [apply (mod4_add i 1)|apply (mod4_add i 2)|apply (mod4_add i 3)|apply (mod4_add i 4)]; done. }
  rewrite !load_block by (done || lia). cbn [mbind option_bind]. rewrite !vfmadd_set1 by (apply length_block; lia).
  rewrite stream_block by (done || lia). cbn [mbind option_bind].
  rewrite (stream_block _ _ (i + 4)) by (done || lia). replace (i + 4 + 4)%nat with (i + 8)%nat by lia. cbn [mbind option_bind].
  rewrite (stream_block _ _ (i + 8)) by (done || lia). replace (i + 8 + 4)%nat with (i + 12)%nat by lia. cbn [mbind option_bind].
  rewrite (stream_block _ _ (i + 12)) by (done || lia). replace (i + 12 + 4)%nat with (i + 16)%nat by lia. cbn [mbind option_bind].
  destruct (IH (i + 16)%nat M4 ltac:(lia)) as (j & (Hj1 & Hj2 & Hj3) & Hrun). exists j. split; [|done]. split; [lia|done].
Qed.

Lemma fma_loop4_spec scale bias fuel i :
  (i mod 4 = 0)%nat -> (i <= count <= i + fuel)%nat ->
  exists j, block_end 4 i j /\
    fma_loop4 fuel src (at_ (fun y => fma y scale bias) i) count (set1 scale) (set1 bias) i = Some (j, at_ (fun y => fma y scale bias) j).
Proof using Hsrc Hdst Hcs Hcd.
  revert i. induction fuel as [|fuel IH]; intros i Hi Hf; cbn [fma_loop4].
  { exists i. split; [split_and!; [lia|lia|done|lia]|done]. }
  destruct (Nat.ltb_spec (i + 3) count); [|exists i; split; [split_and!; [lia|lia|done|lia]|done]].
  rewrite load_block by (done || lia). cbn [mbind option_bind]. rewrite vfmadd_set1 by (apply length_block; lia).
  rewrite stream_block by (done || lia). cbn [mbind option_bind].
  destruct (IH (i + 4)%nat (mod4_add i 1 Hi) ltac:(lia)) as (j & (Hj1 & Hj2 & Hj3) & Hrun). exists j. split; [|done]. split; [lia|done].
Qed.

Lemma clamp_loop8_spec lo hi fuel i :
  (i mod 8 = 0)%nat -> (i <= count <= i + fuel)%nat ->
  exists j, (i <= j <= count)%nat /\ (j mod 8 = 0)%nat /\ (count < j + 8)%nat /\
    clamp_loop8 fuel src (at_ (clamp_vector lo hi) i) count (set1 lo) (set1 hi) i = Some (j, at_ (clamp_vector lo hi) j).
Proof using Hsrc Hdst Hcs Hcd.
  revert i. induction fuel as [|fuel IH]; intros i Hi Hf; cbn [clamp_loop8].
  { exists i. split_and!; [lia|lia|done|lia|done]. }
  destruct (Nat.ltb_spec (i + 7) count); [|exists i; split_and!; [lia|lia|done|lia|done]].
  assert (i mod 4 = 0)%nat as Hi4.
  { apply Nat.Lcm0.mod_divide in Hi as [k ->]. apply Nat.Lcm0.mod_divide. exists (k * 2)%nat. lia. }
  pose proof (mod4_add i 1 Hi4) as Hi4'. rewrite !load_block by (done || lia). cbn [mbind option_bind].
  rewrite !vclamp_set1 by (apply length_block; lia).
  rewrite stream_block by (done || lia). cbn [mbind option_bind].
  rewrite (stream_block _ _ (i + 4)) by (done || lia). replace (i + 4 + 4)%nat with (i + 8)%nat by lia. cbn [mbind option_bind].
  destruct (IH (i + 8)%nat) as (j & Hj1 & Hj2 & Hj3 & Hrun); [|lia|].
  - replace (i + 8)%nat with (i + 1 * 8)%nat by lia. by rewrite Nat.Div0.mod_add.
  - exists j. split_and!; [lia|lia|done|done|done].
Qed.

Lemma tail_loop_spec f fuel i (l : list D) :
  (i <= count <= i + fuel)%nat -> length l = length dst ->
  tail_loop fuel f src (mk_array db l) count i =
    Some (mk_array db (take i l ++ (f <$> take (count - i) (drop i (elems src))) ++ drop count l)).
Proof using Hcs Hcd.
  revert i l. induction fuel as [|fuel IH]; intros i l Hf Hl; cbn [tail_loop].
  { replace (count - i)%nat with 0%nat by lia. replace count with i by lia. by rewrite take_0, fmap_nil, app_nil_l, take_drop. }
  destruct (Nat.ltb_spec i count).
  2: { replace (count - i)%nat with 0%nat by lia. replace count with i by lia. by rewrite take_0, fmap_nil, app_nil_l, take_drop. }
  destruct (lookup_lt_is_Some_2 (elems src) i ltac:(lia)) as [x Hx]. rewrite Hx. cbn [mbind option_bind].
  unfold store. cbn [elems base]. rewrite (proj2 (Nat.ltb_lt _ _)) by lia. cbn [mbind option_bind].
  rewrite IH by (rewrite ?length_insert; lia). do 2 f_equal. rewrite Nat.add_1_r.
  rewrite (take_S_r _ i (f x)) by (apply list_lookup_insert_eq; lia). rewrite take_insert_ge by lia.
  rewrite drop_insert_lt by lia. rewrite <- app_assoc. f_equal. cbn [app].
  rewrite (drop_S (elems src) x i Hx). replace (count - i)%nat with (S (count - S i)) by lia. done.
Qed.

Lemma progress_tail f i : (i <= count)%nat -> take i (progress f i (elems src) dst) = f <$> take i (elems src).
Proof using Hcs Hcd. intros Hi. unfold progress. rewrite take_app_length'; [done|]. rewrite length_fmap, length_take. lia. Qed.

Lemma progress_rest f i : (i <= count)%nat -> drop count (progress f i (elems src) dst) = drop count dst.
Proof using Hcs Hcd.
  intros Hi. unfold progress. rewrite drop_app_ge by (rewrite length_fmap, length_take; lia).
  rewrite length_fmap, length_take, drop_drop. f_equal. lia.
Qed.

Lemma progress_0 f : progress f 0 (elems src) dst = dst.
Proof using. done. Qed.

Lemma fma_stream_spec contract scale bias :
  let v := (4 * (count / 4))%nat in
  fma_stream contract src (mk_array db dst) count scale bias =
    Some (mk_array db (((fun x => fma x scale bias) <$> take v (elems src)) ++
      ((fun x => mul_add contract x scale bias) <$> take (count - v) (drop v (elems src))) ++ drop count dst)).
Proof using Hsrc Hdst Hcs Hcd.
  cbv zeta. unfold fma_stream.
  destruct (fma_loop16_spec scale bias count 0 eq_refl ltac:(lia)) as (j & ((_ & Hj) & Hj4 & _) & Hrun). rewrite progress_0 in Hrun.
  rewrite Hrun. cbn [mbind option_bind].
  destruct (fma_loop4_spec scale bias count j Hj4 ltac:(lia)) as (i & ((_ & Hi) & Hi4 & Hc4) & ->). cbn [mbind option_bind].
  assert (i = 4 * (count / 4))%nat as <-.
  { apply Nat.Lcm0.mod_divide in Hi4 as [q ->]. pose proof (Nat.div_mod_eq count 4). pose proof (Nat.mod_upper_bound count 4). lia. }
  rewrite tail_loop_spec by (lia || (apply length_progress; lia)). by rewrite progress_tail, progress_rest by lia.
Qed.

Lemma clamp_stream_spec lo hi :
  let v := (8 * (count / 8))%nat in
  clamp_stream src (mk_array db dst) count lo hi =
    Some (mk_array db ((clamp_vector lo hi <$> take v (elems src)) ++
      (clamp_scalar lo hi <$> take (count - v) (drop v (elems src))) ++ drop count dst)).
Proof using Hsrc Hdst Hcs Hcd.
  cbv zeta. unfold clamp_stream.
  destruct (clamp_loop8_spec lo hi count 0 eq_refl ltac:(lia)) as (i & Hi & Hi8 & Hc8 & Hrun). rewrite progress_0 in Hrun.
  rewrite Hrun. cbn [mbind option_bind].
  assert (i = 8 * (count / 8))%nat as <-.
  { apply Nat.Lcm0.mod_divide in Hi8 as [q ->]. pose proof (Nat.div_mod_eq count 8). pose proof (Nat.mod_upper_bound count 8). lia. }
  rewrite tail_loop_spec by (lia || (apply length_progress; lia)). by rewrite progress_tail, progress_rest by lia.
Qed.
End proofs.

(** ** Order of doubles *)

Lemma ltb_irrefl (x : double) : SFltb x x = false.
Proof.
  unfold SFltb. destruct x as [s|[]| |[] m e]; try done; cbn; rewrite Z.compare_refl; by rewrite Pos.compare_cont_refl.
Qed.

(** Finite numbers compare like their exponents and mantissas, by sign. *)
Lemma finite_lt s1 m1 e1 s2 m2 e2 :
  SFltb (S754_finite s1 m1 e1) (S754_finite s2 m2 e2) = true <->
  match s1, s2 with
  | true, false => True
  | false, true => False
  | false, false => e1 < e2 \/ (e1 = e2 /\ (m1 < m2)%positive)
  | true, true => e2 < e1 \/ (e1 = e2 /\ (m2 < m1)%positive)
  end.
Proof.
  unfold SFltb. cbn. change (Pos.compare_cont Eq m1 m2) with (m1 ?= m2)%positive.
  destruct s1, s2; try done; destruct (Z.compare_spec e1 e2), (Pos.compare_spec m1 m2); cbn; split; try done; try lia; auto.
Qed.

Lemma ltb_trans (x y z : double) : SFltb x y = true -> SFltb y z = true -> SFltb x z = true.
Proof.
  destruct x as [?|[]| |[] m1 e1], y as [?|[]| |[] m2 e2], z as [?|[]| |[] m3 e3]; try done; rewrite !finite_lt; lia || done.
Qed.

(** ** Properties *)

Lemma clamp_agree (lo hi x : double) : SFltb hi lo = false -> clamp_vector lo hi x = clamp_scalar lo hi x.
Proof.
  intros Hle. unfold clamp_vector, clamp_scalar. cbn [ltb binary64].
  destruct (SFltb hi x) eqn:E1, (SFltb x lo) eqn:E2; rewrite ?Hle, ?E2; try done.
  by rewrite (ltb_trans hi x lo E1 E2) in Hle.
Qed.

(** C36. The vectorised clamp is the scalar clamp of every element and changes
    nothing behind them, for every pair of bounds that is not the wrong way
    round, infinities, signed zeros and NaNs included; for bounds that are, it
    returns the lower bound where the scalar clamp returns the upper one. *)
Theorem simd_clamp (src : array (D := double)) db dst count lo hi :
  base src mod 32 = 0 -> db mod 32 = 0 -> (count <= length (elems src))%nat -> (count <= length dst)%nat ->
  (SFltb hi lo = false ->
   clamp_stream src (mk_array db dst) count lo hi =
     Some (mk_array db ((clamp_scalar lo hi <$> take count (elems src)) ++ drop count dst))) /\
  (SFltb hi lo = true -> clamp_vector lo hi lo = lo /\ clamp_scalar lo hi lo = hi /\ lo <> hi).
Proof.
  intros Hs Hd Hcs Hcd. split; intros Hb.
  - rewrite clamp_stream_spec by done. cbv zeta. do 2 f_equal. set (v := (8 * (count / 8))%nat).
    assert (v <= count)%nat as Hv by (unfold v; pose proof (Nat.div_mod_eq count 8); lia).
    rewrite (list_fmap_ext (clamp_vector lo hi) (clamp_scalar lo hi)) by (intros; by apply clamp_agree).
    rewrite app_assoc, <- fmap_app. do 2 f_equal. rewrite <- (take_drop v (take count (elems src))).
    rewrite take_take, Nat.min_l by done. f_equal. by rewrite skipn_firstn_comm.
  - unfold clamp_vector, clamp_scalar. cbn [ltb binary64]. rewrite Hb, ltb_irrefl, Hb. split; [done|]. split; [done|].
    intros ->. by rewrite ltb_irrefl in Hb.
Qed.

(** C48. The streamed multiply-add computes every element from the element of
    the source with the same index and leaves the rest of the destination: a
    single rounding for the elements in whole blocks of four, and for the last
    [count mod 4] the rounding the compiler chose. *)
Theorem simd_fma contract (src : array (D := double)) db dst count scale bias i x :
  base src mod 32 = 0 -> db mod 32 = 0 -> (count <= length (elems src))%nat -> (count <= length dst)%nat ->
  exists out, fma_stream contract src (mk_array db dst) count scale bias = Some (mk_array db out) /\
    length out = length dst /\
    ((i < 4 * (count / 4))%nat -> elems src !! i = Some x -> out !! i = Some (fma x scale bias)) /\
    ((4 * (count / 4) <= i < count)%nat -> elems src !! i = Some x -> out !! i = Some (mul_add contract x scale bias)) /\
    ((count <= i)%nat -> out !! i = dst !! i).
Proof.
  intros Hs Hd Hcs Hcd. rewrite fma_stream_spec by done. cbv zeta. set (v := (4 * (count / 4))%nat).
  assert (v <= count)%nat as Hv by (unfold v; pose proof (Nat.div_mod_eq count 4); lia).
  assert (forall g : double -> double, length (g <$> take v (elems src)) = v) as L1 by (intros; rewrite length_fmap, length_take; lia).
  assert (forall g : double -> double, length (g <$> take (count - v) (drop v (elems src))) = (count - v)%nat) as L2.
  { intros g. rewrite length_fmap, length_take, length_drop. lia. }
  eexists. split; [done|]. split; [rewrite !length_app, L1, L2, length_drop; lia|]. split_and!.
  - intros Hi Hx. rewrite lookup_app_l by (rewrite L1; lia). by rewrite list_lookup_fmap, lookup_take_lt, Hx.
  - intros Hi Hx. rewrite lookup_app_r, L1 by (rewrite L1; lia). rewrite lookup_app_l by (rewrite L2; lia).
    rewrite list_lookup_fmap, lookup_take_lt, lookup_drop by lia. by replace (v + (i - v))%nat with i by lia; rewrite Hx.
  - intros Hi. rewrite lookup_app_r, L1 by (rewrite L1; lia). rewrite lookup_app_r, L2 by (rewrite L2; lia).
    rewrite lookup_drop. f_equal. lia.
Qed.

(** ** Turnover without rounding *)

Fixpoint dot (ps vs : list Z) : Z :=
  match ps, vs with p :: ps, v :: vs => p * v + dot ps vs | _, _ => 0 end.

(** The part of the sum from index [i] to [j]. *)
Definition dot_range (ps vs : list Z) (i j : nat) : Z := dot (take (j - i) (drop i ps)) (take (j - i) (drop i vs)).

Lemma dot_app ps1 ps2 vs1 vs2 : length ps1 = length vs1 -> dot (ps1 ++ ps2) (vs1 ++ vs2) = dot ps1 vs1 + dot ps2 vs2.
Proof.
  revert vs1. induction ps1 as [|p ps1 IH]; intros [|v vs1] Hl; try done. cbn [dot app]. rewrite IH by (cbn in Hl; lia). lia.
Qed.

Lemma dot_range_split ps vs i j k :
  (i <= j <= k)%nat -> (k <= length ps)%nat -> (k <= length vs)%nat -> dot_range ps vs i k = dot_range ps vs i j + dot_range ps vs j k.
Proof.
  intros Hij Hp Hv. unfold dot_range.
  assert (forall l : list Z, take (k - i) (drop i l) = take (j - i) (drop i l) ++ take (k - j) (drop j l)) as Hsplit.
  { intros l. replace (k - i)%nat with ((j - i) + (k - j))%nat by lia. rewrite <- (take_drop (j - i) (drop i l)) at 1.
    rewrite drop_drop. replace (i + (j - i))%nat with j by lia.
    destruct (decide (i + (j - i) <= length l)%nat).
    - rewrite take_app_add'; [done|]. rewrite length_take, length_drop. lia.
    - rewrite !(drop_ge l j) by lia. rewrite take_nil, !app_nil_r, take_take. f_equal. lia. }
  rewrite !Hsplit, dot_app; [done|]. rewrite !length_take, !length_drop. lia.
Qed.

Lemma dot_range_S ps vs i k p v :
  ps !! i = Some p -> vs !! i = Some v -> (i < k)%nat -> dot_range ps vs i k = p * v + dot_range ps vs (S i) k.
Proof.
  intros Hp Hv Hik. unfold dot_range. rewrite (drop_S ps p i Hp), (drop_S vs v i Hv).
  by replace (k - i)%nat with (S (k - S i)) by lia.
Qed.

Lemma dot_range_nil ps vs i : dot_range ps vs i i = 0.
Proof. unfold dot_range. rewrite Nat.sub_diag, !take_0. done. Qed.

Lemma accumulate_exact c (total p v : Z) : accumulate c total p v = total + p * v.
Proof. destruct c; cbn; lia. Qed.

Lemma turnover_tail_exact c fuel ps vs n i total :
  (i <= n <= i + fuel)%nat -> (n <= length ps)%nat -> (n <= length vs)%nat ->
  turnover_tail c fuel ps vs n i total = Some (total + dot_range ps vs i n).
Proof.
  revert i total. induction fuel as [|fuel IH]; intros i total Hf Hp Hv; cbn [turnover_tail].
  { replace n with i by lia. rewrite dot_range_nil. f_equal. lia. }
  destruct (Nat.ltb_spec i n); [|replace n with i by lia; rewrite dot_range_nil; f_equal; lia].
  destruct (lookup_lt_is_Some_2 ps i ltac:(lia)) as [p Hpi]. destruct (lookup_lt_is_Some_2 vs i ltac:(lia)) as [v Hvi].
  rewrite Hpi, Hvi. cbn [mbind option_bind]. rewrite IH by lia. rewrite (dot_range_S ps vs i n p v) by done.
  rewrite accumulate_exact, Nat.add_1_r. f_equal. lia.
Qed.

Lemma length4 {A} (l : list A) : length l = 4%nat -> exists a b c d, l = [a; b; c; d].
Proof. do 4 (destruct l as [|? l]; [done|]). destruct l; [|done]. intros _. by do 4 eexists. Qed.

Lemma hsum_vadd (a b : list Z) : length a = 4%nat -> length b = 4%nat -> hsum (vadd a b) = hsum a + hsum b.
Proof. intros (? & ? & ? & ? & ->)%length4 (? & ? & ? & ? & ->)%length4. cbn. lia. Qed.

Lemma hsum_vfmadd (p v s : list Z) :
  length p = 4%nat -> length v = 4%nat -> length s = 4%nat -> hsum (vfmadd p v s) = hsum s + dot p v /\ length (vfmadd p v s) = 4%nat.
Proof. intros (? & ? & ? & ? & ->)%length4 (? & ? & ? & ? & ->)%length4 (? & ? & ? & ? & ->)%length4. cbn. lia. Qed.

Definition acc4 (s : list Z * list Z * list Z * list Z) : Prop :=
  let '(s0, s1, s2, s3) := s in length s0 = 4%nat /\ length s1 = 4%nat /\ length s2 = 4%nat /\ length s3 = 4%nat.
Definition acc_sum (s : list Z * list Z * list Z * list Z) : Z :=
  let '(s0, s1, s2, s3) := s in hsum s0 + hsum s1 + hsum s2 + hsum s3.

Lemma turnover_loop16_exact (ps vs : array (D := Z)) n fuel i s0 s1 s2 s3 :
  base ps mod 32 = 0 -> base vs mod 32 = 0 -> (n <= length (elems ps))%nat -> (n <= length (elems vs))%nat ->
  (i mod 4 = 0)%nat -> (i <= n <= i + fuel)%nat -> acc4 (s0, s1, s2, s3) ->
  exists j s, turnover_loop16 fuel ps vs n i s0 s1 s2 s3 = Some (j, s) /\ (i <= j <= n)%nat /\ acc4 s /\
    acc_sum s = acc_sum (s0, s1, s2, s3) + dot_range (elems ps) (elems vs) i j.
Proof.
  intros Hbp Hbv Hp Hv. revert i s0 s1 s2 s3. induction fuel as [|fuel IH]; intros i s0 s1 s2 s3 Hi Hf Hs; cbn [turnover_loop16].
  { exists i, (s0, s1, s2, s3). rewrite dot_range_nil. split_and!; try done; lia. }
  destruct (Nat.ltb_spec (i + 15) n).
  2: { exists i, (s0, s1, s2, s3). rewrite dot_range_nil. split_and!; try done; lia. }
  pose proof (mod4_add i 1 Hi) as M1. pose proof (mod4_add i 2 Hi) as M2. pose proof (mod4_add i 3 Hi) as M3. pose proof (mod4_add i 4 Hi) as M4.
  rewrite !load_block by (done || lia). cbn [mbind option_bind]. destruct Hs as (H0 & H1 & H2 & H3).
  assert (forall k s, (k + 4 <= n)%nat -> length s = 4%nat ->
    hsum (vfmadd (take 4 (drop k (elems ps))) (take 4 (drop k (elems vs))) s) = hsum s + dot_range (elems ps) (elems vs) k (k + 4) /\
    length (vfmadd (take 4 (drop k (elems ps))) (take 4 (drop k (elems vs))) s) = 4%nat) as Hstep.
  { intros k s Hk Hl. unfold dot_range. replace (k + 4 - k)%nat with 4%nat by lia.
    apply hsum_vfmadd; [apply length_block; lia|apply length_block; lia|done]. }
  destruct (Hstep i s0 ltac:(lia) H0) as [E0 L0]. destruct (Hstep (i + 4)%nat s1 ltac:(lia) H1) as [E1 L1].
  destruct (Hstep (i + 8)%nat s2 ltac:(lia) H2) as [E2 L2]. destruct (Hstep (i + 12)%nat s3 ltac:(lia) H3) as [E3 L3].
  edestruct (IH (i + 16)%nat) as (j & s & Hrun & Hj & Hs & Hsum); [done|lia|split_and!; [exact L0|exact L1|exact L2|exact L3]|].
  exists j, s. split; [done|]. split; [lia|]. split; [done|]. rewrite Hsum. unfold acc_sum. rewrite E0, E1, E2, E3.
  rewrite (dot_range_split _ _ i (i + 16) j), (dot_range_split _ _ i (i + 4) (i + 16)), (dot_range_split _ _ (i + 4) (i + 8) (i + 16)),
    (dot_range_split _ _ (i + 8) (i + 12) (i + 16)) by lia.
  replace (i + 4 + 4)%nat with (i + 8)%nat by lia. replace (i + 8 + 4)%nat with (i + 12)%nat by lia.
  replace (i + 12 + 4)%nat with (i + 16)%nat by lia. lia.
Qed.

(** Up to rounding the three turnover calculations agree: without it, the
    vectorised sum with four accumulators, the scalar sum over the arrays and
    the sum over the ticks are the sum of price times volume. *)
Theorem simd_turnover c (d : SoaTickDataset (D := Z)) ticks :
  base (prices d) mod 32 = 0 -> base (volumes d) mod 32 = 0 ->
  elems (prices d) = price <$> ticks -> elems (volumes d) = volume <$> ticks ->
  let total := dot (price <$> ticks) (volume <$> ticks) in
  calculate_turnover_soa_avx2 c d = Some total /\ calculate_turnover_soa_scalar c d = Some total /\
  calculate_turnover_aos_scalar c ticks = total.
Proof.
  intros Hbp Hbv Hps Hvs total.
  assert (length (elems (volumes d)) = size d) as Hlv by (unfold size; by rewrite Hps, Hvs, !length_fmap).
  assert (dot_range (elems (prices d)) (elems (volumes d)) 0 (size d) = total) as Htot.
  { unfold dot_range. rewrite Nat.sub_0_r, !drop_0, !take_ge by (unfold size in *; lia). unfold total. by rewrite Hps, Hvs. }
  split_and!.
  - unfold calculate_turnover_soa_avx2.
    destruct (turnover_loop16_exact (prices d) (volumes d) (size d) (size d) 0 (set1 zero) (set1 zero) (set1 zero) (set1 zero))
      as (j & [[[s0 s1] s2] s3] & Hrun & Hj & (L0 & L1 & L2 & L3) & Hsum); [done|done|done|lia|done|lia|done|].
    rewrite Hrun. cbn [mbind option_bind]. rewrite turnover_tail_exact by (unfold size in *; lia). f_equal. rewrite <- Htot.
    rewrite (dot_range_split _ _ 0 j (size d)) by (unfold size in *; lia).
    destruct (length4 s0 L0) as (? & ? & ? & ? & ->), (length4 s1 L1) as (? & ? & ? & ? & ->),
      (length4 s2 L2) as (? & ? & ? & ? & ->), (length4 s3 L3) as (? & ? & ? & ? & ->). cbn in Hsum |- *. lia.
  - unfold calculate_turnover_soa_scalar. rewrite turnover_tail_exact by (unfold size in *; lia). by rewrite Htot.
  - unfold calculate_turnover_aos_scalar, total. clear. cbn [zero exact].
    assert (forall acc, foldl (fun total tick => accumulate c total (price tick) (volume tick)) acc ticks =
      acc + dot (price <$> ticks) (volume <$> ticks)) as Hacc; [|by rewrite Hacc].
    induction ticks as [|t ticks IH]; intros acc; cbn [foldl fmap list_fmap dot]; [lia|]. rewrite IH, accumulate_exact. lia.
Qed.

(** ** Examples *)

(** The double [m * 2^e]. *)
Definition dbl (m e : Z) : double := binary_normalize 53 1024 m e false.

Definition ints (l : list Z) : list double := (fun m => dbl m 0) <$> l.

Definition ex_src : array (D := double) := mk_array 64 (ints [3; 1; 4; 1; 5; 9; 2; 6; 5]).

Lemma simd_clamp_witness :
  clamp_stream ex_src (mk_array 128 (replicate 10 (dbl 7 0))) 9 (dbl 2 0) (dbl 5 0) =
    Some (mk_array 128 (ints [3; 2; 4; 2; 5; 5; 2; 5; 5; 7])).
Proof.
  etransitivity; [apply (simd_clamp ex_src 128 (replicate 10 (dbl 7 0)) 9 (dbl 2 0) (dbl 5 0))|]; vm_compute; reflexivity || lia.
Defined.

Lemma simd_fma_witness : exists out,
  fma_stream false ex_src (mk_array 128 (replicate 9 (dbl 0 0))) 9 (dbl 2 0) (dbl 1 0) = Some (mk_array 128 out) /\
  out !! 5%nat = Some (dbl 19 0).
Proof.
  destruct (simd_fma false ex_src 128 (replicate 9 (dbl 0 0)) 9 (dbl 2 0) (dbl 1 0) 5 (dbl 9 0)) as (out & Hrun & _ & Hin & _);
    [reflexivity|reflexivity|cbn; lia|cbn; lia|].
  exists out. split; [exact Hrun|]. rewrite Hin; [vm_compute; reflexivity|cbn; lia|vm_compute; reflexivity].
Defined.

(** One rounding and two differ: [x * x - (1 + 2^-26)] for [x = 1 + 2^-27] is
    [2^-54] with one and zero with two. *)
Lemma rounding_differs :
  mul_add true (dbl (2 ^ 27 + 1) (-27)) (dbl (2 ^ 27 + 1) (-27)) (dbl (- (2 ^ 26 + 1)) (-26)) = dbl 1 (-54) /\
  mul_add false (dbl (2 ^ 27 + 1) (-27)) (dbl (2 ^ 27 + 1) (-27)) (dbl (- (2 ^ 26 + 1)) (-26)) = S754_zero false.
Proof. split; vm_compute; reflexivity. Qed.

Definition ex_ticks : list (AosMarketTick (D := Z)) :=
  (fun i => mk_tick (100 + Z.of_nat i) (Z.of_nat i) 0 0 []) <$> seq 1 18.
Definition ex_data : SoaTickDataset (D := Z) :=
  mk_soa (mk_array 0 (price <$> ex_ticks)) (mk_array 256 (volume <$> ex_ticks)) [] [].

Lemma simd_turnover_witness : calculate_turnover_soa_avx2 true ex_data = Some 19209.
Proof.
  etransitivity; [apply (simd_turnover true ex_data ex_ticks); reflexivity|]. vm_compute. reflexivity.
Defined.
End Simd.
