(* ===== verification/CrashProbe.v ===== *)
(** * The crash probe

    Model of [CrashProbe] (10-signals, crash_probe.hpp): the number formatting
    of its signal handler, the report it builds in a buffer on the stack, and
    the installation of the handler.  Characters are their codes, and the text
    written so far is a list; the results of system calls are arguments. *)

From Stdlib Require Import String Ascii.
From S2P Require Import Prelude Logger.

#[local] Open Scope Z_scope.
#[local] Open Scope cpp_scope.

Module Crash.

Abbreviation chars := Logger.chars.

(** ** Formatting *)

Definition HEX_MAP : list Z := chars "0123456789abcdef".

(** The characters [write_str] appends. *)
Definition write_str (dst str : list Z) : list Z := dst ++ str.

(** [for (int i = 60; i >= 0; i -= 4)] *)
Fixpoint hex_loop (n : nat) (dst : list Z) (val : Z) : list Z :=
  match n with
  | O => dst
  | S n =>
      let i := 4 * Z.of_nat n in
      hex_loop n (dst ++ [default 0 (HEX_MAP !! Z.to_nat (Z.land (Z.shiftr val i) 0x0F))]) val
  end.

Definition write_hex64 (dst : list Z) (val : Z) : list Z := hex_loop 16 (dst ++ chars "0x") val.

(** The digits in [temp], last one first; the loop runs at most 20 times. *)
Fixpoint digit_loop (fuel : nat) (val : Z) (temp : list Z) : list Z :=
  match fuel with
  | O => temp
  | S fuel => if 0 <? val then digit_loop fuel (val / 10) (temp ++ [48 + val mod 10]) else temp
  end.

Definition write_uint (dst : list Z) (val : Z) : list Z :=
  let temp := if val =? 0 then [48] else digit_loop 20 val [] in dst ++ reverse temp.

(** ** The report *)

Record regs := mk_regs {
  rip : Z; rsp : Z; rbp : Z; rax : Z; rbx : Z; rcx : Z; rdx : Z; rsi : Z; rdi : Z; r8 : Z; r9 : Z; r10 : Z; r11 : Z; r12 : Z;
  r13 : Z; r14 : Z; r15 : Z; efl : Z }.

(** A quotation mark and a line feed. *)
Definition q : list Z := [34].
Definition nl : list Z := [10].

Definition signal_name (sig : Z) : list Z :=
  match sig with
  | 11 => chars "SIGSEGV" | 7 => chars "SIGBUS" | 8 => chars "SIGFPE" | 4 => chars "SIGILL" | 6 => chars "SIGABRT"
  | _ => chars "UNKNOWN"
  end.

(** One line of the register list; [last] is what follows the value. *)
Definition reg_line (label : list Z) (val : Z) (last : list Z) (p : list Z) : list Z :=
  let p := write_str p (chars "      " ++ q ++ label ++ q) in
  let p := write_hex64 p val in
  write_str p (q ++ last ++ nl).

Definition label (name : string) : list Z := chars name ++ q ++ chars ": ".
Definition label2 (name : string) : list Z := chars name ++ q ++ chars ":  ".

Definition report_head (sig fault_addr : Z) (p : list Z) : list Z :=
  let p := write_str p (chars "{" ++ nl ++ chars "  " ++ q ++ chars "crash_report" ++ q ++ chars ": {" ++ nl) in
  let p := write_str p (chars "    " ++ q ++ chars "signal" ++ q ++ chars ": ") in
  let p := write_uint p (u64 sig) in
  let p := write_str p (chars "," ++ nl ++ chars "    " ++ q ++ chars "signal_name" ++ q ++ chars ": " ++ q) in
  let p := write_str p (signal_name sig) in
  let p := write_str p (q ++ chars "," ++ nl ++ chars "    " ++ q ++ chars "fault_address" ++ q ++ chars ": " ++ q) in
  let p := write_hex64 p fault_addr in
  write_str p (q ++ chars "," ++ nl ++ chars "    " ++ q ++ chars "registers" ++ q ++ chars ": {" ++ nl).

Definition report_regs (r : regs) (p : list Z) : list Z :=
  let c := chars "," in
  let p := reg_line (label "rip") (rip r) c p in let p := reg_line (label "rsp") (rsp r) c p in
  let p := reg_line (label "rbp") (rbp r) c p in let p := reg_line (label "rax") (rax r) c p in
  let p := reg_line (label "rbx") (rbx r) c p in let p := reg_line (label "rcx") (rcx r) c p in
  let p := reg_line (label "rdx") (rdx r) c p in let p := reg_line (label "rsi") (rsi r) c p in
  let p := reg_line (label "rdi") (rdi r) c p in let p := reg_line (label2 "r8") (r8 r) c p in
  let p := reg_line (label2 "r9") (r9 r) c p in let p := reg_line (label "r10") (r10 r) c p in
  let p := reg_line (label "r11") (r11 r) c p in let p := reg_line (label "r12") (r12 r) c p in
  let p := reg_line (label "r13") (r13 r) c p in let p := reg_line (label "r14") (r14 r) c p in
  let p := reg_line (label "r15") (r15 r) c p in reg_line (label "efl") (efl r) [] p.

Definition report (sig fault_addr : Z) (r : regs) : list Z :=
  let p := report_head sig fault_addr [] in
  let p := report_regs r p in
  write_str p (chars "    }" ++ nl ++ chars "  }" ++ nl ++ chars "}" ++ nl).

Definition BUF_SIZE : nat := 2048.

(** What the handler leaves behind: the text written to standard error, the
    dump file if it could be opened, and the exit status.  [n1] and [n2] are
    the numbers of bytes the two writes transfer. *)
Record outcome := mk_outcome { stderr_text : list Z; dump : option (list Z); status : Z }.

Definition crash_handler (sig fault_addr : Z) (r : regs) (n1 n2 fd : Z) : option outcome :=
  let buf := report sig fault_addr r in
  if (length buf <=? BUF_SIZE)%nat then
    Some (mk_outcome (take (Z.to_nat n1) buf) (if 0 <=? fd then Some (take (Z.to_nat n2) buf) else None) (128 + sig))
  else None.

(** ** Installation *)

Definition PATH_SIZE : nat := 256.

(** The path with its terminating zero is kept in a buffer of 256 bytes. *)
Definition copy_path (dump_path_ : list Z) (output_json_path : option (list Z)) : list Z :=
  match output_json_path with
  | Some path => if (length path <? PATH_SIZE)%nat then path ++ [0] ++ drop (length path + 1) dump_path_ else dump_path_
  | None => dump_path_
  end.

(** [mapped] and [altstack] are the results of [mmap] and [sigaltstack]; the
    signals whose handler has been set. *)
Definition install (dump_path_ : list Z) (path : option (list Z)) (mapped : bool) (altstack : Z) : bool * list Z * list Z :=
  let dump_path_ := copy_path dump_path_ path in
  if negb mapped then (false, dump_path_, []) else
  if altstack <? 0 then (false, dump_path_, []) else (true, dump_path_, [11; 7; 8; 4; 6]).

(** ** Numbers *)

Lemma hex_loop_app n dst val : hex_loop n dst val = dst ++ hex_loop n [] val.
Proof.
  revert dst. induction n as [|n IH]; intros dst; cbn [hex_loop]; [by rewrite app_nil_r|].
  rewrite IH, (IH ([] ++ _)). by rewrite <- app_assoc.
Qed.

(** The sixteen digits of a value. *)
Definition hex_digits (val : Z) : list Z := hex_loop 16 [] val.

Lemma write_hex64_app dst val : write_hex64 dst val = dst ++ chars "0x" ++ hex_digits val.
Proof. unfold write_hex64, hex_digits. by rewrite hex_loop_app, <- app_assoc. Qed.

Lemma length_hex16_loop n val : length (hex_loop n [] val) = n.
Proof. induction n as [|n IH]; cbn [hex_loop]; [done|]. rewrite hex_loop_app, length_app, IH. done. Qed.

(** Reading hexadecimal digits. *)
Definition hex_val (c : Z) : option Z :=
  if (48 <=? c) && (c <=? 57) then Some (c - 48) else if (97 <=? c) && (c <=? 102) then Some (c - 87) else None.

Definition from_hex (cs : list Z) : option Z :=
  foldl (fun acc c => v ← acc; d ← hex_val c; Some (16 * v + d)) (Some 0) cs.

Lemma hex_val_map d : 0 <= d < 16 -> hex_val (default 0 (HEX_MAP !! Z.to_nat d)) = Some d.
Proof.
  intros Hd. assert (d ∈ seqZ 0 16) as Hin by (apply elem_of_seqZ; lia).
  repeat (apply elem_of_cons in Hin as [->|Hin]; [reflexivity|]). by apply elem_of_nil in Hin.
Qed.

Lemma from_hex_loop n val acc :
  foldl (fun acc c => v ← acc; d ← hex_val c; Some (16 * v + d)) (Some acc) (hex_loop n [] val) =
  Some (acc * 16 ^ Z.of_nat n + val mod 16 ^ Z.of_nat n).
Proof.
  revert acc. induction n as [|n IH]; intros acc; cbn [hex_loop]; [rewrite Z.mod_1_r; cbn; f_equal; lia|].
  rewrite hex_loop_app, foldl_app. cbn [foldl app mbind option_bind].
  assert (Z.land (Z.shiftr val (4 * Z.of_nat n)) 0x0F = (val / 16 ^ Z.of_nat n) mod 16) as Hd.
  { change 0x0F with (2 ^ 4 - 1). rewrite land_mask, Z.shiftr_div_pow2 by lia. by rewrite Z.pow_mul_r by lia. }
  rewrite Hd, hex_val_map by (apply Z.mod_pos_bound; lia). cbn [mbind option_bind]. rewrite IH. f_equal.
  rewrite Nat2Z.inj_succ, Z.pow_succ_r by lia. rewrite (Z.mul_comm 16 (16 ^ _)), (Z.rem_mul_r val) by (try apply Z.pow_nonzero; lia). ring.
Qed.

Lemma from_hex_digits val : 0 <= val < 2 ^ 64 -> from_hex (hex_digits val) = Some val.
Proof. intros Hv. unfold from_hex, hex_digits. rewrite from_hex_loop. f_equal. rewrite Z.mod_small; [lia|]. done. Qed.

Lemma length_digit_loop fuel val temp : (length (digit_loop fuel val temp) <= length temp + fuel)%nat.
Proof.
  revert val temp. induction fuel as [|fuel IH]; intros val temp; cbn [digit_loop]; [lia|].
  case_match; [|lia]. etrans; [apply IH|]. rewrite length_app. cbn. lia.
Qed.

Lemma length_write_uint dst val : (length (write_uint dst val) <= length dst + 20)%nat.
Proof.
  unfold write_uint. rewrite length_app, length_reverse. case_match; [cbn; lia|].
  pose proof (length_digit_loop 20 val []). cbn in *. lia.
Qed.

(** ** The report *)

(** A register as the report shows it. *)
Definition shown (name : list Z) (ds : list Z) : list Z := q ++ name ++ q ++ chars "0x" ++ ds ++ q.

Definition registers (r : regs) : list (list Z * Z) :=
  [(label "rip", rip r); (label "rsp", rsp r); (label "rbp", rbp r); (label "rax", rax r); (label "rbx", rbx r);
   (label "rcx", rcx r); (label "rdx", rdx r); (label "rsi", rsi r); (label "rdi", rdi r); (label2 "r8", r8 r);
   (label2 "r9", r9 r); (label "r10", r10 r); (label "r11", r11 r); (label "r12", r12 r); (label "r13", r13 r);
   (label "r14", r14 r); (label "r15", r15 r); (label "efl", efl r)].

Lemma reg_line_app name val last p :
  reg_line name val last p = p ++ chars "      " ++ shown name (hex_digits val) ++ last ++ nl.
Proof. unfold reg_line, write_str, shown. rewrite write_hex64_app. by rewrite <- !app_assoc. Qed.

(** The register list is one line per register. *)
Definition lines (r : regs) : list (list Z) :=
  imap (fun i '(name, val) => chars "      " ++ shown name (hex_digits val) ++ (if (i <? 17)%nat then chars "," else []) ++ nl) (registers r).

Lemma report_regs_lines r p : report_regs r p = p ++ concat (lines r).
Proof. unfold report_regs. rewrite !reg_line_app. unfold lines. cbn [imap registers concat]. rewrite <- !app_assoc. done. Qed.

Lemma length_head sig addr : (length (report_head sig addr []) <= 200)%nat.
Proof.
  unfold report_head, write_str. rewrite write_hex64_app, !length_app. unfold hex_digits. rewrite length_hex16_loop.
  pose proof (length_write_uint ([] ++ (chars "{" ++ nl ++ chars "  " ++ q ++ chars "crash_report" ++ q ++ chars ": {" ++ nl) ++
    chars "    " ++ q ++ chars "signal" ++ q ++ chars ": ") (u64 sig)) as Hu.
  assert (length (signal_name sig) <= 7)%nat as Hn by (unfold signal_name; repeat case_match; cbn; lia).
  rewrite <- !app_assoc in *. cbn in Hu |- *. lia.
Qed.

Lemma length_lines r : length (concat (lines r)) = 629%nat.
Proof.
  unfold lines, shown. cbn [imap registers concat]. rewrite !length_app. unfold hex_digits. rewrite !length_hex16_loop. reflexivity.
Qed.

Lemma report_app sig addr r :
  report sig addr r = report_head sig addr [] ++ concat (lines r) ++ chars "    }" ++ nl ++ chars "  }" ++ nl ++ chars "}" ++ nl.
Proof. unfold report, write_str. rewrite report_regs_lines. by rewrite <- !app_assoc. Qed.

(** C39. The report fits in the buffer on the stack of the handler for every
    signal and every content of the registers, so the handler always reaches
    its exit with the status of the signal, and each of the 18 registers is in
    the report under its name with sixteen digits that read back to its value. *)
Theorem crash_report_complete sig addr r n1 n2 fd :
  (exists o, crash_handler sig addr r n1 n2 fd = Some o /\ status o = 128 + sig) /\
  (length (report sig addr r) <= 1024)%nat /\
  forall name val, (name, val) ∈ registers r ->
    exists pre post, report sig addr r = pre ++ shown name (hex_digits val) ++ post /\
      length (hex_digits val) = 16%nat /\ (0 <= val < 2 ^ 64 -> from_hex (hex_digits val) = Some val).
Proof.
  assert (length (report sig addr r) <= 1024)%nat as Hlen.
  { rewrite report_app, !length_app, length_lines. pose proof (length_head sig addr) as Hh. revert Hh.
    generalize (length (report_head sig addr [])). intros n Hn. cbn. lia. }
  split; [|split; [done|]].
  - unfold crash_handler. rewrite (proj2 (Nat.leb_le _ _)) by (unfold BUF_SIZE; lia). by eexists.
  - intros name val (i & Hi)%list_elem_of_lookup.
    assert (lines r !! i = Some (chars "      " ++ shown name (hex_digits val) ++ (if (i <? 17)%nat then chars "," else []) ++ nl)) as Hl.
    { unfold lines. rewrite list_lookup_imap, Hi. done. }
    rewrite report_app, <- (take_drop_middle _ _ _ Hl), concat_app. cbn [concat].
    eexists (report_head sig addr [] ++ concat (take i (lines r)) ++ chars "      "), _.
    split; [rewrite <- !app_assoc; reflexivity|]. split; [apply length_hex16_loop|apply from_hex_digits].
Qed.

(** ** The dump path *)

Fixpoint c_string (b : list Z) : list Z :=
  match b with [] => [] | c :: b => if c =? 0 then [] else c :: c_string b end.

Lemma c_string_app path rest : 0 ∉ path -> c_string (path ++ 0 :: rest) = path.
Proof.
  induction path as [|c path IH]; [done|]. rewrite not_elem_of_cons. intros [Hc Hp]. cbn.
  rewrite (proj2 (Z.eqb_neq _ _)) by done. by rewrite IH.
Qed.

(** The buffer keeps its size; a path of up to 255 characters is stored, a
    longer one is ignored although [install] succeeds. *)
Lemma install_path old path mapped altstack :
  length old = PATH_SIZE -> 0 ∉ path ->
  let '(ok, new, sigs) := install old (Some path) mapped altstack in
  length new = PATH_SIZE /\ c_string new = (if (length path <? PATH_SIZE)%nat then path else c_string old) /\
  (ok = true <-> mapped = true /\ 0 <= altstack) /\ (sigs = if ok then [11; 7; 8; 4; 6] else []).
Proof.
  intros Hold Hp. unfold install, copy_path.
  assert (length (if (length path <? PATH_SIZE)%nat then path ++ [0] ++ drop (length path + 1) old else old) = PATH_SIZE /\
    c_string (if (length path <? PATH_SIZE)%nat then path ++ [0] ++ drop (length path + 1) old else old) =
      (if (length path <? PATH_SIZE)%nat then path else c_string old)) as [H1 H2].
  { destruct (Nat.ltb_spec (length path) PATH_SIZE); [|done]. split; [|by apply c_string_app].
    rewrite !length_app, length_drop. cbn. lia. }
  destruct mapped; cbn [negb]; [|naive_solver]. destruct (Z.ltb_spec altstack 0); naive_solver lia.
Qed.

(** ** Examples *)

Definition ex_regs : regs := mk_regs 4198400 140737488347136 0 1 2 3 4 5 6 7 8 9 10 11 12 13 14 66118.

Lemma ex_report :
  take 113 (report 11 48879 ex_regs) =
  chars "{" ++ nl ++ chars "  " ++ q ++ chars "crash_report" ++ q ++ chars ": {" ++ nl ++
  chars "    " ++ q ++ chars "signal" ++ q ++ chars ": 11," ++ nl ++
  chars "    " ++ q ++ chars "signal_name" ++ q ++ chars ": " ++ q ++ chars "SIGSEGV" ++ q ++ chars "," ++ nl ++
  chars "    " ++ q ++ chars "fault_address" ++ q ++ chars ": " ++ q ++ chars "0x000000000000beef" ++ q ++ chars "," ++ nl.
Proof. vm_compute. reflexivity. Qed.
End Crash.
