(* ===== verification/Doubles.v ===== *)
(** * Doubles

    The conversions between doubles and unsigned integers, [std::round] and the
    products the statistics use, on the binary64 numbers of [SpecFloat], with
    the rounding lemmas: a product is exact when it can be and otherwise within
    a relative error of 2^-52. *)

From Stdlib Require Import Floats.SpecFloat.
From S2P Require Import Prelude.

#[local] Open Scope Z_scope.

Module Dbl.

Abbreviation double := spec_float.

Definition of_Z (n : Z) : double := binary_normalize 53 1024 n 0 false.
Definition times (x y : double) : double := SFmul 53 1024 x y.
Definition over (x y : double) : double := SFdiv 53 1024 x y.

(** [static_cast<uint64_t>]: the integer part, if it fits. *)
Definition to_u64 (x : double) : option Z :=
  match x with
  | S754_zero _ => Some 0
  | S754_finite false m e =>
      let v := if 0 <=? e then Z.pos m * 2 ^ e else Z.pos m / 2 ^ (- e) in
      if v <? 2 ^ 64 then Some v else None
  | S754_finite true m e => if (e <? 0) && (Z.pos m <? 2 ^ (- e)) then Some 0 else None
  | _ => None
  end.

(** [std::round] of a number that is not negative: halves go up. *)
Definition round (x : double) : double :=
  match x with
  | S754_finite false m e =>
      if 0 <=? e then x else of_Z ((2 * Z.pos m + 2 ^ (- e)) / 2 ^ (- e + 1))
  | _ => x
  end.

(** ** Shifting mantissas *)

Lemma digits2_bounds m : 2 ^ (Z.pos (digits2_pos m) - 1) <= Z.pos m < 2 ^ Z.pos (digits2_pos m).
Proof.
  induction m as [m IH|m IH|]; cbn [digits2_pos]; [| |cbn; lia];
    rewrite Pos2Z.inj_succ, Z.sub_1_r, Z.pred_succ, (Z.pow_succ_r 2 (Z.pos _)) by lia;
    replace (Z.pos (digits2_pos m)) with (Z.succ (Z.pos (digits2_pos m) - 1)) at 1 by lia;
    rewrite Z.pow_succ_r by lia; lia.
Qed.

Lemma digits2_unique m d : 2 ^ (d - 1) <= Z.pos m < 2 ^ d -> Z.pos (digits2_pos m) = d.
Proof.
  intros [H1 H2]. destruct (digits2_bounds m) as [H3 H4]. set (d' := Z.pos (digits2_pos m)) in *.
  assert (0 < d) by (destruct (Z.lt_ge_cases 0 d); [done|]; rewrite (Z.pow_neg_r 2 (d - 1)) in H1 by lia;
    destruct (Z.eq_dec d 0) as [->|]; [cbn in H2; lia|rewrite Z.pow_neg_r in H2 by lia; lia]).
  assert (0 < d') by lia.
  destruct (Z.lt_trichotomy d' d) as [H5|[H5|H5]]; [|done|].
  - pose proof (Z.pow_le_mono_r 2 d' (d - 1)). lia.
  - pose proof (Z.pow_le_mono_r 2 d (d' - 1)). lia.
Qed.

Lemma iter_pos_iter {A} (f : A -> A) p x : SpecFloat.iter_pos f p x = Pos.iter f x p.
Proof.
  revert x. induction p as [p IH|p IH|]; intros x; cbn; rewrite ?IH; [|done..].
  by rewrite !Pos.iter_swap.
Qed.

Lemma shr_1_m r : 0 <= shr_m r -> shr_m (shr_1 r) = shr_m r / 2.
Proof.
  destruct r as [m r s]. destruct m as [|[p|p|]|p]; cbn [shr_1 shr_m]; intros; [done| | |done|lia].
  - apply (Z.div_unique _ _ _ 1); lia.
  - apply (Z.div_unique _ _ _ 0); lia.
Qed.

Lemma shr_iter p r : 0 <= shr_m r -> shr_m (Pos.iter shr_1 r p) = shr_m r / 2 ^ Z.pos p.
Proof.
  intros Hr. induction p as [|p IH] using Pos.peano_ind; [by apply shr_1_m|].
  rewrite Pos.iter_succ, shr_1_m, IH; [|rewrite IH; apply Z.div_pos; lia].
  rewrite Z.div_div, Pos2Z.inj_succ, Z.pow_succ_r by lia. f_equal. lia.
Qed.

Lemma shr_iter_exact p q : 0 <= q -> Pos.iter shr_1 (Build_shr_record (q * 2 ^ Z.pos p) false false) p = Build_shr_record q false false.
Proof.
  intros Hq. revert q Hq. induction p as [|p IH] using Pos.peano_ind; intros q Hq.
  - cbn. destruct q as [|q|q]; [done| |lia]. by rewrite Z.mul_comm.
  - rewrite Pos2Z.inj_succ, Z.pow_succ_r, Pos.iter_succ by lia.
    replace (q * (2 * 2 ^ Z.pos p)) with ((2 * q) * 2 ^ Z.pos p) by lia. rewrite IH by lia.
    destruct q as [|q|q]; [done|done|lia].
Qed.

Lemma even_near m loc : m <= round_nearest_even m loc <= m + 1.
Proof. destruct loc as [|[]]; cbn; [lia| |lia|lia]. destruct (Z.even m); lia. Qed.

(** ** Rounding *)

(** A mantissa of [d] digits is shortened to 53 digits, exactly if the digits
    dropped are zero. *)
Definition rounded (mx : Z) (n : Z) (m : Z) : Prop :=
  Z.abs (m * 2 ^ n - mx) <= 2 ^ n /\ (mx mod 2 ^ n = 0 -> m * 2 ^ n = mx) /\ 2 ^ 52 <= m <= 2 ^ 53.

Lemma shr_53 m e : 2 ^ 52 <= m < 2 ^ 53 -> -1000 <= e <= 900 -> shr_fexp 53 1024 m e loc_Exact = (Build_shr_record m false false, e).
Proof.
  intros Hm He. destruct m as [|m|m]; [lia| |lia]. unfold shr_fexp, Zdigits2. rewrite (digits2_unique m 53) by lia.
  unfold fexp, emin. replace (Z.max _ _ - e) with 0 by lia. done.
Qed.

Lemma shr_54 e : -1000 <= e <= 900 -> shr_fexp 53 1024 (2 ^ 53) e loc_Exact = (Build_shr_record (2 ^ 52) false false, e + 1).
Proof.
  intros He. unfold shr_fexp. change (Zdigits2 (2 ^ 53)) with 54. unfold fexp, emin. replace (Z.max _ _ - e) with 1 by lia. done.
Qed.

Lemma shr_first mx e d :
  2 ^ (d - 1) <= Z.pos mx < 2 ^ d -> 53 <= d -> -900 <= d + e <= 900 ->
  exists r, shr_fexp 53 1024 (Z.pos mx) e loc_Exact = (r, e + (d - 53)) /\ shr_m r = Z.pos mx / 2 ^ (d - 53) /\
    (Z.pos mx mod 2 ^ (d - 53) = 0 -> loc_of_shr_record r = loc_Exact).
Proof.
  intros Hm Hd He. unfold shr_fexp, Zdigits2. rewrite (digits2_unique mx d) by done. unfold fexp, emin.
  replace (Z.max _ _ - e) with (d - 53) by lia. cbn [shr_record_of_loc].
  destruct (d - 53) as [|p|p] eqn:Ep; [| |lia]; cbn [shr].
  - eexists. split; [f_equal; lia|]. cbn. by rewrite Z.div_1_r.
  - eexists. split; [done|]. rewrite iter_pos_iter, shr_iter by (cbn; lia). split; [done|]. intros Hz.
    rewrite (Z.div_mod (Z.pos mx) (2 ^ Z.pos p)), Hz, Z.add_0_r, Z.mul_comm, shr_iter_exact by (lia || apply Z.div_pos; lia). done.
Qed.

Lemma round_aux mx e d :
  2 ^ (d - 1) <= Z.pos mx < 2 ^ d -> 53 <= d -> -900 <= d + e <= 900 ->
  exists m k, binary_round_aux 53 1024 false (Z.pos mx) e loc_Exact = S754_finite false m (e + (d - 53) + k) /\ 0 <= k <= 1 /\
    rounded (Z.pos mx) (d - 53) (Z.pos m * 2 ^ k) /\ 2 ^ 52 <= Z.pos m < 2 ^ 53.
Proof.
  intros Hm Hd He. destruct (shr_first mx e d) as (r & E & Er & Hex); [done..|].
  unfold binary_round_aux. rewrite E. set (n := d - 53) in *. set (m1 := round_nearest_even _ _).
  assert (0 < 2 ^ n) by (apply Z.pow_pos_nonneg; lia).
  assert (Hd' : 2 ^ d = 2 ^ 53 * 2 ^ n) by (unfold n; rewrite <- Z.pow_add_r by lia; f_equal; lia).
  assert (Hd1 : 2 ^ (d - 1) = 2 ^ 52 * 2 ^ n) by (unfold n; rewrite <- Z.pow_add_r by lia; f_equal; lia).
  assert (Hq : 2 ^ 52 <= Z.pos mx / 2 ^ n < 2 ^ 53).
  { split; [apply Z.div_le_lower_bound|apply Z.div_lt_upper_bound]; lia. }
  pose proof (even_near (shr_m r) (loc_of_shr_record r)) as Hn. fold m1 in Hn. rewrite Er in Hn.
  assert (R : rounded (Z.pos mx) n m1).
  { pose proof (Z.div_mod (Z.pos mx) (2 ^ n) ltac:(lia)) as Hdm. pose proof (Z.mod_pos_bound (Z.pos mx) (2 ^ n) ltac:(lia)).
    split; [|split; [|lia]].
    - set (q := Z.pos mx / 2 ^ n) in *. assert (m1 = q \/ m1 = q + 1) as [->| ->] by lia; nia.
    - intros Hz. unfold m1. rewrite Hex, Er by done. cbn. rewrite Hz in Hdm. lia. }
  clearbody m1. destruct (Z.eq_dec m1 (2 ^ 53)) as [->|Hne].
  - rewrite shr_54 by lia. exists (Pos.pow 2 52), 1. cbn -[Z.pow Z.leb]. rewrite (proj2 (Z.leb_le _ _)) by lia.
    split; [done|]. split; [lia|]. split; [exact R|lia].
  - rewrite shr_53 by lia. destruct m1 as [|m1|m1]; [lia| |lia]. cbn [shr_m]. exists m1, 0.
    rewrite (proj2 (Z.leb_le _ _)) by lia. split; [by rewrite Z.add_0_r|]. rewrite Z.mul_1_r. split; [lia|]. split; [done|lia].
Qed.

(** ** Values *)

(** A positive number with a full mantissa and an exponent of size at most [L]. *)
Definition normal (L : Z) (x : double) : Prop :=
  exists m e, x = S754_finite false m e /\ 2 ^ 52 <= Z.pos m < 2 ^ 53 /\ - L <= e <= L.

(** The value in units of 2^-200, which is exact for [normal 200] numbers. *)
Definition val (x : double) : Z :=
  match x with S754_finite false m e => Z.pos m * 2 ^ (e + 200) | _ => 0 end.

Lemma iter_xO m p : Z.pos (Pos.iter xO m p) = Z.pos m * 2 ^ Z.pos p.
Proof.
  induction p as [|p IH] using Pos.peano_ind; [cbn; lia|].
  rewrite Pos.iter_succ, Pos2Z.inj_xO, IH, Pos2Z.inj_succ, Z.pow_succ_r by lia. lia.
Qed.

Lemma of_Z_exact n : 0 < n < 2 ^ 53 -> normal 52 (of_Z n) /\ val (of_Z n) = n * 2 ^ 200.
Proof.
  intros Hn. destruct n as [|n|n]; [lia| |lia]. unfold of_Z, binary_normalize, binary_round.
  pose proof (digits2_bounds n) as Hb. set (d := Z.pos (digits2_pos n)) in *.
  assert (1 <= d <= 53).
  { split; [lia|]. destruct (Z.le_gt_cases d 53); [done|]. pose proof (Z.pow_le_mono_r 2 53 (d - 1)). lia. }
  assert (S : exists mz, shl_align n 0 (fexp 53 1024 (d + 0)) = (mz, d - 53) /\ Z.pos mz = Z.pos n * 2 ^ (53 - d)).
  { unfold shl_align, fexp, emin. replace (Z.max _ _ - 0) with (d - 53) by lia. replace (Z.max _ _) with (d - 53) by lia.
    destruct (d - 53) as [|p|p] eqn:Ep; [|lia|]; eexists; (split; [done|]).
    - replace (53 - d) with 0 by lia. lia.
    - rewrite iter_xO. do 2 f_equal. lia. }
  destruct S as (mz & -> & Emz).
  assert (Hmz : 2 ^ 52 <= Z.pos mz < 2 ^ 53).
  { rewrite Emz. replace (2 ^ 52) with (2 ^ (d - 1) * 2 ^ (53 - d)) by (rewrite <- Z.pow_add_r by lia; f_equal; lia).
    replace (2 ^ 53) with (2 ^ d * 2 ^ (53 - d)) by (rewrite <- Z.pow_add_r by lia; f_equal; lia).
    assert (0 < 2 ^ (53 - d)) by (apply Z.pow_pos_nonneg; lia). nia. }
  destruct (round_aux mz (d - 53) 53) as (m & k & -> & Hk & (_ & Hx & _) & Hm); [done|lia|lia|].
  cbn [Z.sub Z.add Z.opp Z.pos_sub] in Hx. rewrite Z.sub_diag, Z.pow_0_r, Z.mod_1_r, Z.mul_1_r in Hx. specialize (Hx eq_refl).
  assert (k = 0) as -> by (assert (k = 0 \/ k = 1) as [-> | ->] by lia; [done|rewrite Z.pow_1_r in Hx; lia]).
  rewrite Z.pow_0_r, Z.mul_1_r in Hx. split; [exists m, (d - 53 + 0 + 0); split; [done|]; lia|].
  cbn [val]. rewrite Hx, Emz, <- Z.mul_assoc, <- Z.pow_add_r by lia. f_equal. f_equal. lia.
Qed.

Lemma to_u64_of_Z n : 0 <= n < 2 ^ 53 -> to_u64 (of_Z n) = Some n.
Proof.
  intros Hn. destruct (Z.eq_dec n 0) as [->|]; [done|]. destruct (of_Z_exact n) as [(m & e & -> & Hm & He) Hv]; [lia|].
  cbn [val] in Hv. cbn [to_u64]. destruct (Z.leb_spec 0 e).
  - assert (Z.pos m * 2 ^ e = n) as ->.
    { rewrite Z.pow_add_r, Z.mul_assoc in Hv by lia. nia. }
    by rewrite (proj2 (Z.ltb_lt _ _)) by lia.
  - assert (Z.pos m / 2 ^ (- e) = n) as ->.
    { assert (E : 2 ^ 200 = 2 ^ (e + 200) * 2 ^ (- e)) by (rewrite <- Z.pow_add_r by lia; f_equal; lia). rewrite E in Hv.
      assert (0 < 2 ^ (e + 200)) by (apply Z.pow_pos_nonneg; lia). assert (0 < 2 ^ (- e)) by (apply Z.pow_pos_nonneg; lia).
      replace (Z.pos m) with (n * 2 ^ (- e)) by nia. apply Z.div_mul. lia. }
    by rewrite (proj2 (Z.ltb_lt _ _)) by lia.
Qed.

(** A product is within 2^-52 of the exact one. *)
Lemma times_val x y L1 L2 :
  normal L1 x -> normal L2 y -> 0 <= L1 -> 0 <= L2 -> L1 + L2 <= 140 ->
  normal (L1 + L2 + 54) (times x y) /\
  Z.abs (val (times x y) * 2 ^ 200 - val x * val y) * 2 ^ 52 <= val x * val y.
Proof.
  intros (mx & ex & -> & Hmx & Hex) (my & ey & -> & Hmy & Hey) H1 H2 H12. cbn [times SFmul xorb val].
  unfold times. cbn [SFmul xorb].
  assert (exists d, 105 <= d <= 106 /\ 2 ^ (d - 1) <= Z.pos (mx * my) < 2 ^ d) as (d & Hd & Hp).
  { rewrite Pos2Z.inj_mul. destruct (Z.lt_ge_cases (Z.pos mx * Z.pos my) (2 ^ 105)).
    - exists 105. split; [lia|]. change (2 ^ (105 - 1)) with (2 ^ 52 * 2 ^ 52). nia.
    - exists 106. split; [lia|]. change (2 ^ (106 - 1)) with (2 ^ 105). change (2 ^ 106) with (2 ^ 53 * 2 ^ 53). nia. }
  destruct (round_aux (mx * my) (ex + ey) d) as (m & k & -> & Hk & (Hr & _ & _) & Hm); [done|lia|lia|].
  split; [eexists _, _; split; [done|]; lia|]. cbn [val].
  set (n := d - 53) in *. rewrite Pos2Z.inj_mul in *. set (P := Z.pos mx * Z.pos my) in *.
  set (U := 2 ^ (ex + ey + 400)). assert (0 < U) by (apply Z.pow_pos_nonneg; lia).
  assert (Z.pos m * 2 ^ (ex + ey + n + k + 200) * 2 ^ 200 = Z.pos m * 2 ^ k * 2 ^ n * U) as ->.
  { unfold U. rewrite <- !Z.mul_assoc, <- !Z.pow_add_r by lia. do 2 f_equal. lia. }
  assert (Z.pos mx * 2 ^ (ex + 200) * (Z.pos my * 2 ^ (ey + 200)) = P * U) as ->.
  { unfold U, P. replace (ex + ey + 400) with (ex + 200 + (ey + 200)) by lia. rewrite (Z.pow_add_r 2 (ex + 200)) by lia. ring. }
  assert (2 ^ n * 2 ^ 52 <= P) by (unfold n; rewrite <- Z.pow_add_r by lia; replace (d - 53 + 52) with (d - 1) by lia; lia).
  rewrite <- Z.mul_sub_distr_r, Z.abs_mul, (Z.abs_eq U) by lia. nia.
Qed.

(** Half of a number is exact. *)
Lemma times_half y L : normal L y -> 0 <= L <= 80 -> 2 * val (times (over (of_Z 50) (of_Z 100)) y) = val y.
Proof.
  intros (m & e & -> & Hm & He) HL. change (over (of_Z 50) (of_Z 100)) with (S754_finite false 4503599627370496 (-53)).
  unfold times. cbn [SFmul xorb]. destruct (round_aux (4503599627370496 * m) (-53 + e) 105) as (m' & k & -> & Hk & (_ & Hx & _) & _).
  { rewrite Pos2Z.inj_mul. change (2 ^ (105 - 1)) with (2 ^ 52 * 2 ^ 52). change (2 ^ 105) with (2 ^ 52 * 2 ^ 53). lia. }
  { lia. } { lia. }
  rewrite Pos2Z.inj_mul in Hx. change (Z.pos 4503599627370496) with (2 ^ 52) in Hx. change (105 - 53) with 52 in *.
  rewrite (Z.mul_comm (2 ^ 52)), Z.mod_mul in Hx by lia. specialize (Hx eq_refl). cbn [val].
  assert (Z.pos m' * 2 ^ k = Z.pos m) as Hmk by lia.
  replace (-53 + e + 52 + k + 200) with (k + (e + 199)) by lia. rewrite (Z.pow_add_r 2 k), (Z.mul_assoc (Z.pos m')), Hmk by lia.
  replace (e + 200) with (Z.succ (e + 199)) by lia. rewrite Z.pow_succ_r by lia. ring.
Qed.

(** ** Rounding to an index *)

Definition nearest (v : Z) : Z := (2 * v + 2 ^ 200) / 2 ^ 201.

Lemma nearest_mono v w : v <= w -> nearest v <= nearest w.
Proof. intros H. apply Z.div_le_mono; lia. Qed.

Lemma nearest_int k : nearest (k * 2 ^ 200) = k.
Proof. unfold nearest. symmetry. apply (Z.div_unique _ _ _ (2 ^ 200)); lia. Qed.

Lemma to_u64_round x L : normal L x -> L <= 200 -> val x < 2 ^ 252 -> to_u64 (round x) = Some (nearest (val x)).
Proof.
  intros (m & e & -> & Hm & He) HL Hv. cbn [val] in *. unfold round. destruct (Z.leb_spec 0 e) as [H0|H0].
  - exfalso. rewrite Z.pow_add_r in Hv by lia. assert (0 < 2 ^ e) by (apply Z.pow_pos_nonneg; lia).
    change (2 ^ 252) with (2 ^ 52 * 2 ^ 200) in Hv. nia.
  - set (j := - e). assert (0 < 2 ^ (e + 200)) by (apply Z.pow_pos_nonneg; lia). assert (0 < 2 ^ j) by (apply Z.pow_pos_nonneg; lia).
    assert (E : (2 * Z.pos m + 2 ^ j) / 2 ^ (j + 1) = nearest (Z.pos m * 2 ^ (e + 200))).
    { unfold nearest. replace (2 ^ 201) with (2 ^ (j + 1) * 2 ^ (e + 200)) by (rewrite <- Z.pow_add_r by lia; f_equal; lia).
      replace (2 ^ 200) with (2 ^ j * 2 ^ (e + 200)) by (rewrite <- Z.pow_add_r by lia; f_equal; lia).
      rewrite Z.mul_assoc, <- Z.mul_add_distr_r, Z.div_mul_cancel_r; [done|apply Z.pow_nonzero; lia|lia]. }
    rewrite E. apply to_u64_of_Z. split.
    + apply Z.div_pos; lia.
    + apply Z.div_lt_upper_bound; [lia|]. lia.
Qed.
End Dbl.
