(* ===== verification/MemoryUtils.v ===== *)
(** * Memory utilities

    Model of common/memory_utils.hpp: alignment of addresses, the cache-line
    wrappers, the hex dump and the struct layout report.  The cache-control
    intrinsics have no effect on memory and are left out. *)

From Stdlib Require Import String Ascii Floats.SpecFloat.
From S2P Require Import Prelude Bytes Logger Ostream Doubles.

#[local] Open Scope Z_scope.
#[local] Open Scope cpp_scope.

Module Mem.

Import Fmt.

Definition CACHE_LINE_SIZE : Z := 64.
Definition PAGE_SIZE_4KB : Z := 4096.
Definition HUGEPAGE_2MB : Z := 2 * 1024 * 1024.
Definition HUGEPAGE_1GB : Z := 1024 * 1024 * 1024.

(** ** Alignment *)

Definition is_aligned (ptr alignment : Z) : bool := Z.land ptr (alignment -64 1) =? 0.
Definition align_up (addr alignment : Z) : Z := Z.land (addr +64 (alignment -64 1)) (u64 (Z.lnot (alignment -64 1))).
Definition align_up_ptr (ptr alignment : Z) : Z := align_up ptr alignment.

(** Sizes of [CacheAligned<T>] and [Padded<T, TotalSize>], from the size and
    alignment of [T]: a struct's size is a multiple of its alignment.  The
    static assertion rejects a [T] larger than the padded size. *)
Definition sizeof_CacheAligned (sizeof_T alignof_T : Z) : Z := align_up sizeof_T (Z.max CACHE_LINE_SIZE alignof_T).
Definition sizeof_Padded (sizeof_T alignof_T TotalSize : Z) : option Z :=
  if sizeof_T <=? TotalSize then Some (align_up (sizeof_T + (TotalSize - sizeof_T)) alignof_T) else None.

(** ** Hex dump *)

(** [std::isprint] in the C locale. *)
Definition isprint (b : Z) : bool := (32 <=? b) && (b <=? 126).

Definition I_char (c : Z) : item := I_str [c].

(** The cell of byte [i] of a line that starts at [offset]. *)
Definition hex_cell (bytes : list Z) (offset i : nat) : list item :=
  (if (i =? 8)%nat then [I_lit "| "] else []) ++
  match bytes !! (offset + i)%nat with
  | Some b => [I_hex; I_setw 2; I_setfill 48; I_num b; I_lit " "]
  | None => [I_lit "   "]
  end.

Definition ascii_cell (bytes : list Z) (offset i : nat) : list item :=
  (if (i =? 8)%nat then [I_lit " "] else []) ++
  match bytes !! (offset + i)%nat with
  | Some b => [I_char (if isprint b then b else 46)]
  | None => [I_lit " "]
  end.

Definition dump_line (addr : Z) (bytes : list Z) (offset : nat) : list item :=
  [I_lit "0x"; I_hex; I_setw 8; I_setfill 48; I_num (addr +64 Z.of_nat offset); I_lit "  "] ++
  concat (hex_cell bytes offset <$> seq 0 16) ++ [I_lit " | "] ++ concat (ascii_cell bytes offset <$> seq 0 16) ++ [I_str nl].

(** [for (size_t offset = 0; offset < size; offset += 16)]; at most [size]
    rounds. *)
Fixpoint dump_loop (fuel : nat) (addr : Z) (bytes : list Z) (offset : nat) (os : ostream) : ostream :=
  match fuel with
  | O => os
  | S fuel =>
      if (offset <? length bytes)%nat then dump_loop fuel addr bytes (offset + 16) (outs os (dump_line addr bytes offset)) else os
  end.

(** [data] are the bytes at the address [addr]; [None] for the null pointer.
    The flags (base and adjustment) and the fill character are restored. *)
Definition hex_dump (addr : Z) (data : option (list Z)) (os : ostream) : ostream :=
  match data with
  | None | Some [] => out os (I_str (chars "[Empty or null buffer]" ++ nl))
  | Some bytes =>
      let os' := dump_loop (length bytes) addr bytes 0 os in
      mk_os (base os) (width os') (fill os) (left_adj os) (text os')
  end.

Definition new_os : ostream := mk_os 10 0 32 false [].
Definition hex_dump_str (addr : Z) (data : option (list Z)) : list Z := text (hex_dump addr data new_os).

(** ** Layout of structs *)

Record FieldLayout := mk_field { name : list Z; offset : Z; size : Z; alignment : Z }.

Definition layout_rule : list Z := replicate 55 45 ++ nl.
Definition layout_double_rule : list Z := replicate 55 61 ++ nl.

Definition padding_of (expected_offset : Z) (f : FieldLayout) : Z :=
  if expected_offset <? offset f then offset f -64 expected_offset else 0.

Definition field_line (f : FieldLayout) (padding : Z) : list item :=
  [I_setw 6; I_num (offset f); I_lit "  "; I_setw 5; I_num (size f); I_lit "  "; I_setw 5; I_num (alignment f); I_lit "  ";
   I_left; I_setw 24; I_str (name f); I_right] ++
  (if 0 <? padding then [I_lit " (+"; I_num padding; I_lit " padding)"] else []) ++ [I_str nl].

(** The loop over the fields: [expected_offset], [total_padding] and the stream. *)
Definition field_step (acc : Z * Z * ostream) (f : FieldLayout) : Z * Z * ostream :=
  let '(expected_offset, total_padding, os) := acc in
  let padding := padding_of expected_offset f in
  (offset f +64 size f, total_padding +64 padding, outs os (field_line f padding)).

Definition tail_line (expected_offset tail_padding : Z) : list item :=
  [I_setw 6; I_num expected_offset; I_lit "  "; I_setw 5; I_num tail_padding; I_lit "     -  ";
   I_left; I_setw 24; I_lit "[Tail Padding]"; I_right; I_lit " (+"; I_num tail_padding; I_str (chars " padding)" ++ nl)].

Definition waste_pct (total_padding total_size : Z) : spec_float :=
  if 0 <? total_size
  then Dbl.times (Dbl.over (Dbl.of_Z total_padding) (Dbl.of_Z total_size)) (Dbl.of_Z 100)
  else S754_zero false.

(** The stream and the padding reported. *)
Definition print_layout (struct_name : list Z) (total_size struct_align : Z) (fields : list FieldLayout) (os : ostream) : ostream * Z :=
  let os := outs os
    [I_str (nl ++ layout_double_rule); I_lit " Struct Memory Layout: "; I_str struct_name; I_str nl;
     I_lit " Total Size: "; I_num total_size; I_lit " bytes | Alignment: "; I_num struct_align; I_str (chars " bytes" ++ nl);
     I_str layout_rule; I_str (chars " Offset   Size  Align  Field Name                Padding" ++ nl); I_str layout_rule] in
  let '(expected_offset, total_padding, os) := foldl field_step (0, 0, os) fields in
  let '(total_padding, os) :=
    if expected_offset <? total_size then
      let tail_padding := total_size -64 expected_offset in
      (total_padding +64 tail_padding, outs os (tail_line expected_offset tail_padding))
    else (total_padding, os) in
  (outs os [I_str layout_rule; I_lit " Total Padding Waste: "; I_num total_padding; I_lit " bytes (";
            I_fixed 1 (waste_pct total_padding total_size); I_str (chars "%)" ++ nl); I_str (layout_double_rule ++ nl)],
   total_padding).

(** ** Alignment rounds up *)

(** [align_up] to a power of two: the result is always aligned; it is the
    first aligned address at or after the argument when that address exists,
    and wraps to address 0 for an argument in the last partial block. *)
Theorem align_up_correct k addr :
  0 <= k < 64 -> 0 <= addr < 2 ^ 64 ->
  let a := align_up_ptr addr (2 ^ k) in
  is_aligned a (2 ^ k) = true /\
  (addr <= 2 ^ 64 - 2 ^ k -> addr <= a < addr + 2 ^ k) /\
  (2 ^ 64 - 2 ^ k < addr -> a = 0).
Proof.
  intros Hk Ha a. assert (Hp : 0 < 2 ^ k <= 2 ^ 63) by (split; [apply Z.pow_pos_nonneg|apply Z.pow_le_mono_r]; lia).
  assert (Hs : 2 ^ k -64 1 = 2 ^ k - 1) by (apply wrap_small; lia).
  assert (E : a = (addr +64 (2 ^ k - 1)) - (addr +64 (2 ^ k - 1)) mod 2 ^ k).
  { unfold a, align_up_ptr, align_up. rewrite Hs, land_lnot_mask; [done|lia|apply wrap_range; lia]. }
  unfold is_aligned. rewrite Hs, land_mask by lia. split; [|split]; intros.
  - rewrite E, Zminus_mod, Z.mod_mod, Z.sub_diag by lia. done.
  - rewrite wrap_small in E by lia. pose proof (Z.mod_pos_bound (addr + (2 ^ k - 1)) (2 ^ k)). lia.
  - assert (W : addr +64 (2 ^ k - 1) = addr + (2 ^ k - 1) - 2 ^ 64).
    { unfold wrap. symmetry. apply Z.mod_unique with 1; lia. }
    rewrite W, Z.mod_small in E by lia. lia.
Qed.

Lemma align_up_correct_witness :
  4097 <= align_up_ptr 4097 (2 ^ 12) < 4097 + 2 ^ 12 /\ align_up_ptr (2 ^ 64 - 1) (2 ^ 6) = 0.
Proof.
  split.
  - apply (align_up_correct 12 4097); lia.
  - apply (align_up_correct 6 (2 ^ 64 - 1)); lia.
Defined.

(** ** The hex dump can be read back *)

Definition hex2 (b : Z) : list Z := [hex_digit (b / 16); hex_digit (b mod 16)].

Definition hex_text (bytes : list Z) (offset i : nat) : list Z :=
  (if (i =? 8)%nat then chars "| " else []) ++
  match bytes !! (offset + i)%nat with Some b => hex2 b ++ [32] | None => [32; 32; 32] end.

Definition ascii_text (bytes : list Z) (offset i : nat) : list Z :=
  (if (i =? 8)%nat then [32] else []) ++
  [match bytes !! (offset + i)%nat with Some b => if isprint b then b else 46 | None => 32 end].

Definition addr_text (a : Z) : list Z := replicate (8 - length (show 16 a)) 48 ++ show 16 a.

Definition line_text (addr : Z) (bytes : list Z) (offset : nat) : list Z :=
  chars "0x" ++ addr_text (addr +64 Z.of_nat offset) ++ chars "  " ++
  concat (hex_text bytes offset <$> seq 0 16) ++ chars " | " ++ concat (ascii_text bytes offset <$> seq 0 16) ++ nl.

(** The state of the stream inside the dump of a right-adjusted stream. *)
Definition dumping (t : list Z) : ostream := mk_os 16 0 48 false t.

Lemma show_byte b : is_byte b -> replicate (2 - length (show 16 b)) 48 ++ show 16 b = hex2 b.
Proof.
  intros [H0 H1]. unfold show, hex2. cbn [digits].
  assert (Hd : b / 16 / 16 = 0) by (rewrite Z.div_div by lia; apply Z.div_small; lia).
  assert (0 <= b / 16 < 16) by (split; [apply Z.div_pos|apply Z.div_lt_upper_bound]; lia).
  destruct (Z.eqb_spec (b / 16) 0) as [E|E].
  - by rewrite E.
  - rewrite Hd. cbn. by rewrite (Z.mod_small (b / 16)) by lia.
Qed.

Lemma put_right s b w f t : put s (mk_os b w f false t) = mk_os b 0 f false (t ++ (replicate (w - length s) f ++ s)).
Proof. done. Qed.

Lemma outs_concat {A} (f : A -> list item) (g : A -> list Z) (l : list A) t :
  (forall x t, x ∈ l -> outs (dumping t) (f x) = dumping (t ++ g x)) ->
  outs (dumping t) (concat (f <$> l)) = dumping (t ++ concat (g <$> l)).
Proof.
  revert t. induction l as [|x l IH]; intros t H; cbn; [by rewrite app_nil_r|].
  unfold outs in *. rewrite foldl_app, H by set_solver. rewrite IH by (intros; apply H; set_solver).
  by rewrite (assoc_L (++)).
Qed.

Section dump.
Context (bytes : list Z) (Hbytes : Forall is_byte bytes).

Lemma hex_cell_text offset i t : outs (dumping t) (hex_cell bytes offset i) = dumping (t ++ hex_text bytes offset i).
Proof using Hbytes.
  unfold hex_cell, hex_text, outs. rewrite foldl_app.
  set (t' := t ++ if (i =? 8)%nat then chars "| " else []).
  replace (foldl out (dumping t) _) with (dumping t') by (unfold t'; destruct (i =? 8)%nat; [done|by rewrite app_nil_r]).
  rewrite (assoc_L (++)). fold t'. destruct (bytes !! _) as [b|] eqn:E; [|done].
  pose proof (Forall_lookup_1 _ _ _ _ Hbytes E) as Hb. unfold dumping. cbn -[show].
  rewrite put_right, show_byte, put_right by done. cbn. by rewrite <- (assoc_L (++)).
Qed.

Lemma ascii_cell_text offset i t : outs (dumping t) (ascii_cell bytes offset i) = dumping (t ++ ascii_text bytes offset i).
Proof.
  unfold ascii_cell, ascii_text, outs. rewrite foldl_app, (assoc_L (++)).
  destruct (i =? 8)%nat, (bytes !! _); cbn; by rewrite ?app_nil_r.
Qed.

Lemma dump_line_text addr offset os :
  left_adj os = false -> width os = O -> outs os (dump_line addr bytes offset) = dumping (text os ++ line_text addr bytes offset).
Proof using Hbytes.
  intros Hl Hw. unfold dump_line, outs. rewrite !foldl_app.
  replace (foldl out os _) with
    (dumping (text os ++ chars "0x" ++ addr_text (addr +64 Z.of_nat offset) ++ chars "  ")).
  2: { unfold foldl, out, I_lit, put. cbn -[show chars addr_text Z.of_nat u64 wrap]. unfold addr_text, dumping. rewrite Hl, Hw. cbn -[show Z.of_nat wrap].
       by rewrite <- !(assoc_L (++)). }
  rewrite (outs_concat _ (hex_text bytes offset)) by (intros; apply hex_cell_text).
  replace (foldl out _ [I_lit " | "]) with
    (dumping ((text os ++ chars "0x" ++ addr_text (addr +64 Z.of_nat offset) ++ chars "  ") ++
              concat (hex_text bytes offset <$> seq 0 16) ++ chars " | ")) by (cbn -[seq]; by rewrite !(assoc_L (++))).
  rewrite (outs_concat _ (ascii_text bytes offset)) by (intros; apply ascii_cell_text).
  cbn -[seq chars addr_text hex_text ascii_text wrap Z.of_nat]. unfold put, dumping, line_text. cbn -[seq chars addr_text hex_text ascii_text wrap Z.of_nat].
  f_equal. by rewrite <- !(assoc_L (++)).
Qed.
End dump.

(** A reader of dumps: rows of an address and its bytes. *)
Definition unhex (c : Z) : option Z :=
  if (48 <=? c) && (c <=? 57) then Some (c - 48) else if (97 <=? c) && (c <=? 102) then Some (c - 87) else None.

Definition hexval (l : list Z) : Z := foldl (fun v c => v * 16 + default 0 (unhex c)) 0 l.

Fixpoint word (l : list Z) : list Z * list Z :=
  match l with
  | [] => ([], [])
  | c :: l' => if c =? 32 then ([], l) else let '(w, r) := word l' in (c :: w, r)
  end.

Fixpoint read_cells (n : nat) (l : list Z) : list Z :=
  match n, l with
  | S n, a :: b :: _ :: l => match unhex a, unhex b with Some x, Some y => x * 16 + y :: read_cells n l | _, _ => [] end
  | _, _ => []
  end.

Definition read_row (l : list Z) : Z * list Z * list Z :=
  let '(a, l) := word (drop 2 l) in
  let l := drop 2 l in
  (hexval a, read_cells 16 (take 24 l ++ take 24 (drop 26 l)), drop 71 l).

Fixpoint undump (fuel : nat) (l : list Z) : list (Z * list Z) :=
  match fuel, l with
  | S fuel, _ :: _ => let '(a, bs, l) := read_row l in (a, bs) :: undump fuel l
  | _, _ => []
  end.

(** The rows a buffer has: sixteen bytes each, the last one shorter. *)
Definition nrows (n : nat) : nat := ((n + 15) / 16)%nat.
Definition rows (addr : Z) (bytes : list Z) : list (Z * list Z) :=
  (fun i => (addr + Z.of_nat (16 * i), take 16 (drop (16 * i) bytes))) <$> seq 0 (nrows (length bytes)).

Lemma nrows_spec n : (n <= 16 * nrows n < n + 16)%nat.
Proof. unfold nrows. pose proof (Nat.div_mod_eq (n + 15) 16). pose proof (Nat.mod_upper_bound (n + 15) 16). lia. Qed.

Lemma unhex_digit d : 0 <= d < 16 -> unhex (hex_digit d) = Some d.
Proof.
  intros H. unfold unhex, hex_digit. destruct (Z.ltb_spec d 10).
  - destruct (Z.leb_spec 48 (48 + d)), (Z.leb_spec (48 + d) 57); try lia. cbn. f_equal. lia.
  - destruct (Z.leb_spec 48 (87 + d)), (Z.leb_spec (87 + d) 57), (Z.leb_spec 97 (87 + d)), (Z.leb_spec (87 + d) 102); try lia.
    cbn. f_equal. lia.
Qed.

Lemma hex_digit_nonspace d : 0 <= d -> hex_digit d <> 32.
Proof. intros H. unfold hex_digit. destruct (Z.ltb_spec d 10); lia. Qed.

Lemma hexval_app l v : foldl (fun v c => v * 16 + default 0 (unhex c)) v l = v * 16 ^ Z.of_nat (length l) + hexval l.
Proof.
  revert v. unfold hexval. induction l as [|c l IH]; intros v; cbn [foldl length]; [cbn; lia|].
  rewrite IH, (IH (0 * 16 + _)), Nat2Z.inj_succ, Z.pow_succ_r by lia. ring.
Qed.

Lemma digits_hexval fuel v acc :
  0 <= v < 16 ^ Z.of_nat fuel -> hexval (digits fuel 16 v acc) = v * 16 ^ Z.of_nat (length acc) + hexval acc.
Proof.
  revert v acc. induction fuel as [|fuel IH]; intros v acc Hv; [replace v with 0 by (cbn in Hv; lia); done|].
  rewrite Nat2Z.inj_succ, Z.pow_succ_r in Hv by lia. pose proof (Z.mod_pos_bound v 16).
  pose proof (Z.div_mod v 16). cbn [digits].
  assert (E : hexval (hex_digit (v mod 16) :: acc) = (v mod 16) * 16 ^ Z.of_nat (length acc) + hexval acc).
  { unfold hexval at 1. cbn [foldl]. rewrite hexval_app, unhex_digit by lia. cbn [default]. f_equal. }
  destruct (Z.eqb_spec (v / 16) 0) as [Hz|Hz].
  - rewrite E. f_equal. f_equal. lia.
  - rewrite IH, E by (split; [apply Z.div_pos|apply Z.div_lt_upper_bound]; lia).
    cbn [length]. rewrite Nat2Z.inj_succ, Z.pow_succ_r by lia. nia.
Qed.

Lemma digits_nonspace fuel v acc : 0 <= v -> Forall (fun c => c <> 32) acc -> Forall (fun c => c <> 32) (digits fuel 16 v acc).
Proof.
  revert v acc. induction fuel as [|fuel IH]; intros v acc Hv Ha; [done|]. cbn [digits].
  pose proof (Z.mod_pos_bound v 16). assert (Forall (fun c => c <> 32) (hex_digit (v mod 16) :: acc)).
  { constructor; [apply hex_digit_nonspace; lia|done]. }
  destruct (_ =? 0); [done|]. apply IH; [apply Z.div_pos; lia|done].
Qed.

Lemma word_app w l : Forall (fun c => c <> 32) w -> word (w ++ 32 :: l) = (w, 32 :: l).
Proof.
  induction 1 as [|c w Hc Hw IH]; [done|]. cbn. destruct (Z.eqb_spec c 32); [done|]. by rewrite IH.
Qed.

Lemma addr_text_value a : 0 <= a < 2 ^ 64 -> hexval (addr_text a) = a /\ Forall (fun c => c <> 32) (addr_text a).
Proof.
  intros Ha. unfold addr_text. split.
  - unfold hexval. rewrite foldl_app. set (z := foldl _ 0 (replicate _ _)).
    assert (z = 0) as -> by (subst z; induction (8 - length (show 16 a))%nat; [done|by cbn]).
    change (hexval (show 16 a) = a). unfold show. rewrite digits_hexval by (split; [lia|]; cbn; lia). cbn. lia.
  - apply Forall_app. split; [by apply Forall_replicate|]. apply digits_nonspace; [lia|done].
Qed.

(** A cell without the separator of the two halves. *)
Definition cell (bytes : list Z) (offset i : nat) : list Z :=
  match bytes !! (offset + i)%nat with Some b => hex2 b ++ [32] | None => [32; 32; 32] end.

Lemma length_concat_const {A B} (f : A -> list B) k l :
  (forall x, x ∈ l -> length (f x) = k) -> length (concat (f <$> l)) = (k * length l)%nat.
Proof.
  induction l as [|x l IH]; intros H; cbn; [lia|]. rewrite length_app, IH, H by set_solver. lia.
Qed.

Lemma length_cell bytes offset i : length (cell bytes offset i) = 3%nat.
Proof. unfold cell. by destruct (bytes !! _). Qed.

Lemma read_cells_concat bytes offset n a :
  Forall is_byte bytes -> read_cells n (concat (cell bytes offset <$> seq a n)) = take n (drop (offset + a) bytes).
Proof.
  intros Hb. revert a. induction n as [|n IH]; intros a; [by rewrite take_0|]. cbn [seq fmap list_fmap concat].
  unfold cell at 1. destruct (bytes !! (offset + a)%nat) as [b|] eqn:E.
  - pose proof (Forall_lookup_1 _ _ _ _ Hb E) as [? ?]. cbn [hex2 app read_cells].
    pose proof (Z.div_mod b 16). rewrite !unhex_digit.
    2: apply Z.mod_pos_bound; lia. 2: split; [apply Z.div_pos|apply Z.div_lt_upper_bound]; lia.
    rewrite IH, (drop_S _ _ _ E). cbn. replace (S (offset + a)) with (offset + S a)%nat by lia. f_equal. lia.
  - apply lookup_ge_None_1 in E. by rewrite drop_ge by lia.
Qed.

Lemma hex_text_halves bytes offset :
  concat (hex_text bytes offset <$> seq 0 16) =
  concat (cell bytes offset <$> seq 0 8) ++ chars "| " ++ concat (cell bytes offset <$> seq 8 8).
Proof. change (seq 0 16) with (seq 0 8 ++ seq 8 8). by rewrite fmap_app, concat_app. Qed.

Lemma length_ascii bytes offset : length (concat (ascii_text bytes offset <$> seq 0 16)) = 17%nat.
Proof. done. Qed.

Lemma drop_length_app {A} n (l k : list A) : length l = n -> drop n (l ++ k) = k.
Proof. intros <-. apply drop_app_length. Qed.

Lemma take_length_app {A} n (l k : list A) : length l = n -> take n (l ++ k) = l.
Proof. intros <-. apply take_app_length. Qed.

Lemma length_half bytes offset a : length (concat (cell bytes offset <$> seq a 8)) = 24%nat.
Proof. rewrite (length_concat_const _ 3), length_seq; [done|]. intros. apply length_cell. Qed.

Lemma read_row_line addr bytes offset rest :
  Forall is_byte bytes -> 0 <= addr -> addr + Z.of_nat offset < 2 ^ 64 ->
  read_row (line_text addr bytes offset ++ rest) = (addr + Z.of_nat offset, take 16 (drop offset bytes), rest).
Proof.
  intros Hb Ha Hlt. unfold line_text. rewrite wrap_small by lia.
  destruct (addr_text_value (addr + Z.of_nat offset)) as [Hv Hn]; [lia|].
  set (at_ := addr_text _) in *. set (h1 := concat (cell bytes offset <$> seq 0 8)). set (h2 := concat (cell bytes offset <$> seq 8 8)).
  pose proof (length_half bytes offset 0) as H1. pose proof (length_half bytes offset 8) as H2. pose proof (length_ascii bytes offset) as H3.
  unfold read_row. rewrite hex_text_halves. fold h1 h2. fold h1 in H1. fold h2 in H2.
  set (as_ := concat (ascii_text bytes offset <$> seq 0 16)) in *.
  replace ((chars "0x" ++ at_ ++ chars "  " ++ (h1 ++ chars "| " ++ h2) ++ chars " | " ++ as_ ++ nl) ++ rest)
    with (chars "0x" ++ (at_ ++ 32 :: ([32] ++ h1 ++ chars "| " ++ h2 ++ (chars " | " ++ as_ ++ nl) ++ rest)))
    by (rewrite <- !(assoc_L (++)); done).
  rewrite (drop_length_app 2 (chars "0x")), word_app by done. rewrite Hv.
  change (drop 2 (32 :: [32] ++ ?l)) with l.
  rewrite (take_length_app 24 h1) by done.
  rewrite (assoc_L (++) h1 (chars "| ")), (drop_length_app 26), (take_length_app 24 h2) by (rewrite ?length_app, ?H1; done).
  assert (E : read_cells 16 (h1 ++ h2) = take 16 (drop offset bytes)).
  { unfold h1, h2. rewrite <- concat_app, <- fmap_app. change (seq 0 8 ++ seq 8 8) with (seq 0 16).
    rewrite read_cells_concat by done. by rewrite Nat.add_0_r. }
  rewrite E. f_equal. rewrite !(assoc_L (++)). apply drop_length_app. rewrite !length_app, H1, H2, H3. done.
Qed.

Lemma dump_loop_text bytes addr fuel offset os :
  Forall is_byte bytes -> left_adj os = false -> width os = O -> (length bytes - offset <= 16 * fuel)%nat ->
  let os' := dump_loop fuel addr bytes offset os in
  width os' = O /\
  text os' = text os ++ concat ((fun i => line_text addr bytes (offset + 16 * i)) <$> seq 0 (nrows (length bytes - offset))).
Proof.
  intros Hb. revert offset os. induction fuel as [|fuel IH]; intros offset os Hl Hw Hf os'; subst os'; cbn [dump_loop].
  - split; [done|]. replace (length bytes - offset)%nat with 0%nat by lia. cbn. by rewrite app_nil_r.
  - destruct (Nat.ltb_spec offset (length bytes)).
    + rewrite dump_line_text by done. destruct (IH (offset + 16)%nat (dumping (text os ++ line_text addr bytes offset))) as [IHw IHt]; [done..|lia|].
      split; [done|]. rewrite IHt. cbn [text dumping]. rewrite <- (assoc_L (++)). f_equal.
      assert (nrows (length bytes - offset) = S (nrows (length bytes - (offset + 16)))) as ->.
      { pose proof (nrows_spec (length bytes - offset)). pose proof (nrows_spec (length bytes - (offset + 16))). lia. }
      cbn [seq fmap list_fmap concat]. rewrite Nat.mul_0_r, Nat.add_0_r. f_equal.
      rewrite <- fmap_S_seq, <- list_fmap_compose. f_equal. apply list_fmap_ext. intros i x _. unfold compose. f_equal. lia.
    + split; [done|]. replace (length bytes - offset)%nat with 0%nat by lia. cbn. by rewrite app_nil_r.
Qed.

Lemma undump_lines bytes addr l fuel :
  Forall is_byte bytes -> 0 <= addr -> addr + Z.of_nat (length bytes) <= 2 ^ 64 ->
  Forall (fun i => (16 * i < length bytes)%nat) l -> (length l <= fuel)%nat ->
  undump fuel (concat ((fun i => line_text addr bytes (16 * i)) <$> l)) =
  (fun i => (addr + Z.of_nat (16 * i), take 16 (drop (16 * i) bytes))) <$> l.
Proof.
  intros Hb Ha Hl Hall. revert fuel. induction Hall as [|i l Hi Hall IH]; intros fuel Hf; [by destruct fuel|].
  destruct fuel as [|fuel]; [cbn in Hf; lia|]. cbn in Hf. cbn [fmap list_fmap concat].
  set (rest := concat _). cbn [undump]. change (undump (S fuel) (line_text addr bytes (16 * i) ++ rest)) with
    (let '(a, bs, l) := read_row (line_text addr bytes (16 * i) ++ rest) in (a, bs) :: undump fuel l).
  rewrite read_row_line by (done || lia). f_equal. apply IH. lia.
Qed.

Lemma concat_rows addr bytes : concat (snd <$> rows addr bytes) = bytes.
Proof.
  unfold rows. rewrite <- list_fmap_compose. unfold compose. cbn [snd].
  enough (G : forall n k, (length bytes <= 16 * (k + n))%nat ->
    concat ((fun i => take 16 (drop (16 * i) bytes)) <$> seq k n) = drop (16 * k) bytes).
  { apply (G _ 0%nat). pose proof (nrows_spec (length bytes)). lia. }
  induction n as [|n IH]; intros k Hk; [by rewrite drop_ge by lia|].
  cbn [seq fmap list_fmap concat]. rewrite IH by lia. replace (16 * S k)%nat with (16 * k + 16)%nat by lia.
  by rewrite <- drop_drop, take_drop.
Qed.

(** The hex dump is readable back: on a right-adjusted stream with no
    pending width the text is made of lines from which a reader recovers every
    address and every byte, in order, without gaps, and the base, the fill
    character and the adjustment of the stream are restored. *)
Theorem hex_dump_roundtrip addr bytes os :
  bytes <> [] -> Forall is_byte bytes -> 0 <= addr -> addr + Z.of_nat (length bytes) <= 2 ^ 64 ->
  left_adj os = false -> width os = O ->
  let os' := hex_dump addr (Some bytes) os in
  (base os', width os', fill os', left_adj os') = (base os, width os, fill os, left_adj os) /\
  exists dump, text os' = text os ++ dump /\ undump (length bytes) dump = rows addr bytes /\ concat (snd <$> rows addr bytes) = bytes.
Proof.
  intros Hne Hb Ha Hlen Hl Hw os'. destruct bytes as [|b bs] eqn:E; [done|]. rewrite <- E in *. clear Hne.
  destruct (dump_loop_text bytes addr (length bytes) 0 os) as [Hw' Ht]; [done..|lia|].
  assert (os' = mk_os (base os) (width (dump_loop (length bytes) addr bytes 0 os)) (fill os) (left_adj os)
    (text (dump_loop (length bytes) addr bytes 0 os))) as -> by (subst os' bytes; done).
  cbn [base width fill left_adj text]. split; [by rewrite Hw', Hw|].
  eexists. split; [exact Ht|]. split; [|apply concat_rows]. rewrite Nat.sub_0_r. cbn [Nat.add].
  apply undump_lines; [done..| |].
  - apply Forall_forall. intros i Hi. apply elem_of_seq in Hi. pose proof (nrows_spec (length bytes)). lia.
  - rewrite length_seq. pose proof (nrows_spec (length bytes)). lia.
Qed.

Lemma hex_dump_roundtrip_witness :
  exists dump, text (hex_dump 65536 (Some (seqZ 0 20)) new_os) = [] ++ dump /\
    undump 20 dump = rows 65536 (seqZ 0 20) /\ concat (snd <$> rows 65536 (seqZ 0 20)) = seqZ 0 20.
Proof.
  apply (hex_dump_roundtrip 65536 (seqZ 0 20) new_os); try done.
  apply Forall_forall. intros x Hx. apply elem_of_seqZ in Hx. unfold is_byte. lia.
Defined.

(** On a left-adjusted stream the padding zeros go to the right: the byte 05 at
    address 0x10000 is dumped as the byte 50 at address 0x10000000. *)
Lemma hex_dump_left_adjusted :
  read_row (text (hex_dump 65536 (Some [5]) (mk_os 10 0 32 true []))) = (268435456, [80], []).
Proof. vm_compute. reflexivity. Qed.

(** ** The padding report *)

(** Fields in declaration order, from [from], without overlap, inside the struct. *)
Fixpoint layout_ok (from total_size : Z) (fields : list FieldLayout) : Prop :=
  match fields with
  | [] => from <= total_size
  | f :: fields => from <= offset f /\ 0 <= size f /\ layout_ok (offset f + size f) total_size fields
  end.

Definition sizes (fields : list FieldLayout) : Z := foldr (fun f n => size f + n) 0 fields.

Lemma layout_ok_le from total fields : layout_ok from total fields -> from <= total.
Proof. revert from. induction fields as [|f fs IH]; intros from; cbn; [done|]. intros (? & ? & H). apply IH in H. lia. Qed.

Lemma field_steps total fields e p os :
  total < 2 ^ 64 -> 0 <= e -> 0 <= p <= e -> layout_ok e total fields ->
  exists e' p' os', foldl field_step (e, p, os) fields = (e', p', os') /\
    e <= e' <= total /\ 0 <= p' <= e' /\ e' - p' = e - p + sizes fields.
Proof.
  intros Ht. revert e p os. induction fields as [|f fs IH]; intros e p os He Hp Hok.
  - exists e, p, os. cbn in *. split; [done|lia].
  - destruct Hok as (Ho & Hs & Hok). pose proof (layout_ok_le _ _ _ Hok).
    cbn [foldl]. unfold field_step at 2.
    assert (Hpad : padding_of e f = offset f - e).
    { unfold padding_of. destruct (Z.ltb_spec e (offset f)); [apply wrap_small|]; lia. }
    rewrite Hpad, !wrap_small by lia.
    destruct (IH (offset f + size f) (p + (offset f - e)) (outs os (field_line f (offset f - e)))) as (e' & p' & os' & E & ? & ? & ?);
      [lia..|done|].
    exists e', p', os'. split; [done|]. cbn [sizes foldr]. change (foldr _ 0 fs) with (sizes fs). lia.
Qed.

(** For fields listed in declaration order the padding reported, in front
    of fields and at the tail, is exactly the size of the struct minus the sizes
    of its fields. *)
Theorem print_layout_padding struct_name total_size struct_align fields os :
  total_size < 2 ^ 64 -> layout_ok 0 total_size fields ->
  snd (print_layout struct_name total_size struct_align fields os) = total_size - sizes fields.
Proof.
  intros Ht Hok. unfold print_layout. set (os0 := outs os _).
  destruct (field_steps total_size fields 0 0 os0) as (e & p & os1 & -> & ? & ? & ?); [done|lia|lia|done|].
  destruct (Z.ltb_spec e total_size); cbn [snd]; [|lia].
  rewrite (wrap_small 64 (total_size - e)), wrap_small by lia. lia.
Qed.

Lemma print_layout_padding_witness :
  snd (print_layout (chars "Foo") 24 8 [mk_field (chars "a") 0 1 1; mk_field (chars "b") 8 8 8; mk_field (chars "c") 16 4 4] new_os) = 24 - 13.
Proof. apply (print_layout_padding (chars "Foo") 24 8 [mk_field (chars "a") 0 1 1; mk_field (chars "b") 8 8 8; mk_field (chars "c") 16 4 4] new_os); cbn; lia. Defined.
End Mem.
