(* ===== verification/Latency.v ===== *)
(** * Timers and latency statistics

    Model of common/rdtsc_timer.hpp: the calibration of the time-stamp
    counter, the scoped timer and [LatencyTracker] with its percentiles, and of
    the fault counters of page_fault_tracker.hpp.  Readings of counters and
    clocks are arguments.  The statistics have no result where the conversion
    of a double to an integer is undefined. *)

From Stdlib Require Import String Ascii Floats.SpecFloat.
From stdpp Require Import sorting.
From S2P Require Import Prelude Logger Ostream Doubles.

#[local] Open Scope Z_scope.
#[local] Open Scope cpp_scope.

Module Latency.

Import Dbl Fmt.

(** ** Calibration *)

Record TscCalibrator := mk_cal { cycles_per_ns_ : double; ns_per_cycle_ : double; tsc_freq_ghz_ : double }.

Definition default_cal : TscCalibrator := mk_cal (of_Z 3) (over (of_Z 1) (of_Z 3)) (of_Z 3).

Definition get_tsc_freq_ghz (c : TscCalibrator) : double := tsc_freq_ghz_ c.
Definition get_cycles_per_ns (c : TscCalibrator) : double := cycles_per_ns_ c.
Definition get_ns_per_cycle (c : TscCalibrator) : double := ns_per_cycle_ c.
Definition cycles_to_ns (c : TscCalibrator) (cycles : Z) : double := times (of_Z cycles) (ns_per_cycle_ c).
Definition ns_to_cycles (c : TscCalibrator) (ns : double) : option Z := to_u64 (times ns (cycles_per_ns_ c)).

Definition calibrate (start_tsc end_tsc elapsed_ns : Z) (c : TscCalibrator) : TscCalibrator :=
  let elapsed_cycles := end_tsc -64 start_tsc in
  if 0 <? elapsed_ns then
    let cpn := over (of_Z elapsed_cycles) (of_Z elapsed_ns) in mk_cal cpn (over (of_Z 1) cpn) cpn
  else c.

(** ** The scoped timer *)

(** The value the destructor passes to the callback. *)
Definition elapsed (start_cycles_ end_cycles : Z) : Z :=
  if start_cycles_ <=? end_cycles then end_cycles -64 start_cycles_ else 0.

(** ** The tracker *)

(** [capacity] is that of the vector: the number of samples it reserves, at
    least [max_samples]. *)
Record LatencyTracker := mk { capacity : nat; samples_ : list Z }.

Definition new_tracker (reserved : nat) : LatencyTracker := mk reserved [].

Definition record_cycles (cycles : Z) (s : LatencyTracker) : LatencyTracker :=
  if (length (samples_ s) <? capacity s)%nat then mk (capacity s) (samples_ s ++ [cycles]) else s.

Definition record_ns (c : TscCalibrator) (ns : double) (s : LatencyTracker) : option LatencyTracker :=
  cycles ← ns_to_cycles c ns; Some (record_cycles cycles s).

Definition reset (s : LatencyTracker) : LatencyTracker := mk (capacity s) [].
Definition size (s : LatencyTracker) : nat := length (samples_ s).
Definition empty (s : LatencyTracker) : bool := (length (samples_ s) =? 0)%nat.

Record Statistics := mk_stats {
  count : nat; min_ns : double; max_ns : double; mean_ns : double; p50_ns : double; p90_ns : double; p99_ns : double;
  p99_9_ns : double; p99_99_ns : double;
  min_cycles : Z; max_cycles : Z; mean_cycles : Z; p50_cycles : Z; p90_cycles : Z; p99_cycles : Z; p99_9_cycles : Z;
  p99_99_cycles : Z }.

Definition no_stats : Statistics :=
  let z := S754_zero false in mk_stats 0 z z z z z z z z 0 0 0 0 0 0 0 0.

(** The literals [50.0], [90.0], [99.0], [99.9], [99.99] and [100.0]. *)
Definition P50 : double := of_Z 50.
Definition P90 : double := of_Z 90.
Definition P99 : double := of_Z 99.
Definition P99_9 : double := over (of_Z 999) (of_Z 10).
Definition P99_99 : double := over (of_Z 9999) (of_Z 100).
Definition P100 : double := of_Z 100.

Definition get_percentile (sorted : list Z) (p : double) : option Z :=
  let n := length sorted in
  if SFleb p (S754_zero false) then sorted !! 0%nat else
  if SFleb P100 p then sorted !! (n - 1)%nat else
  let rank := times (over p P100) (of_Z (Z.of_nat (n - 1))) in
  idx ← to_u64 (round rank);
  sorted !! Nat.min (Z.to_nat idx) (n - 1).

(** [std::sort] and [std::accumulate] *)
Definition sort (l : list Z) : list Z := merge_sort Z.le l.
Definition accumulate (l : list Z) : Z := foldl (fun acc x => acc +64 x) 0 l.

Definition compute_stats (cal : TscCalibrator) (s : LatencyTracker) : option Statistics :=
  if empty s then Some no_stats else
  let sorted := sort (samples_ s) in
  let n := length sorted in
  let sum_cycles := accumulate sorted in
  let mean := sum_cycles / Z.of_nat n in
  front ← sorted !! 0%nat; back ← sorted !! (n - 1)%nat;
  p50 ← get_percentile sorted P50; p90 ← get_percentile sorted P90; p99 ← get_percentile sorted P99;
  p99_9 ← get_percentile sorted P99_9; p99_99 ← get_percentile sorted P99_99;
  let ns := cycles_to_ns cal in
  Some (mk_stats n (ns front) (ns back) (ns mean) (ns p50) (ns p90) (ns p99) (ns p99_9) (ns p99_99)
          front back mean p50 p90 p99 p99_9 p99_99).

Definition summary_rule (c : Z) : list Z := replicate 56 c ++ Fmt.nl.

Definition metric_line (label : string) (cycles : Z) (ns : double) : list item :=
  [I_lit label; I_setw 12; I_num cycles; I_lit "     "; I_setw 10; I_fixed 2 ns; I_str (chars " ns" ++ Fmt.nl)].

Definition print_summary (cal : TscCalibrator) (label : list Z) (s : LatencyTracker) (os : ostream) : option ostream :=
  st ← compute_stats cal s;
  Some (if (count st =? 0)%nat then outs os [I_lit "No samples recorded for "; I_str label; I_str Fmt.nl] else
  outs os
    ([I_str (Fmt.nl ++ summary_rule 61); I_lit " Latency Profile: "; I_str label; I_lit " (Samples: "; I_num (Z.of_nat (count st)); I_str (chars ")" ++ Fmt.nl);
      I_lit " CPU TSC Frequency: "; I_fixed 3 (get_tsc_freq_ghz cal); I_str (chars " GHz" ++ Fmt.nl); I_str (summary_rule 45);
      I_str (chars " Metric        Cycles            Nanoseconds" ++ Fmt.nl); I_str (summary_rule 45)] ++
     metric_line " Min:          " (min_cycles st) (min_ns st) ++ metric_line " Mean:         " (mean_cycles st) (mean_ns st) ++
     metric_line " P50 (Median): " (p50_cycles st) (p50_ns st) ++ metric_line " P90:          " (p90_cycles st) (p90_ns st) ++
     metric_line " P99:          " (p99_cycles st) (p99_ns st) ++ metric_line " P99.9:        " (p99_9_cycles st) (p99_9_ns st) ++
     metric_line " P99.99:       " (p99_99_cycles st) (p99_99_ns st) ++ metric_line " Max:          " (max_cycles st) (max_ns st) ++
     [I_str (summary_rule 61 ++ Fmt.nl)])).

(** ** Page faults *)

Record FaultStats := mk_faults { minor_faults : Z; major_faults : Z; rss_kb : Z }.

(** [ru_minflt], [ru_majflt] and [ru_maxrss] of [getrusage]. *)
Definition get_current_stats (minflt majflt maxrss : Z) : FaultStats := mk_faults (u64 minflt) (u64 majflt) (u64 maxrss).

(** The differences the destructor of [ScopedTracker] prints. *)
Definition fault_delta (start_stats_ end_stats : FaultStats) : Z * Z :=
  (if minor_faults start_stats_ <=? minor_faults end_stats then minor_faults end_stats -64 minor_faults start_stats_ else 0,
   if major_faults start_stats_ <=? major_faults end_stats then major_faults end_stats -64 major_faults start_stats_ else 0).

(** What the destructor prints; the label and the differences. *)
Definition print_delta (label_ : list Z) (start_stats_ end_stats : FaultStats) (os : ostream) : ostream :=
  let '(delta_min, delta_maj) := fault_delta start_stats_ end_stats in
  outs os [I_lit "  ["; I_str label_; I_lit "] -> Minor Faults (Soft): +"; I_num delta_min;
           I_lit " | Major Faults (Hard): +"; I_num delta_maj; I_str Fmt.nl].

(** ** Indices of percentiles *)

(** The index of the percentile with fraction [c] among [k + 1] samples. *)
Definition index (c : double) (k : Z) : Z := nearest (val (times c (of_Z k))).

(** A fraction below 1, also after rounding. *)
Definition fraction (c : double) : Prop := normal 60 c /\ val c * (2 ^ 52 + 1) <= 2 ^ 200 * 2 ^ 52.

Lemma rank_val c k :
  fraction c -> 0 < k < 2 ^ 52 ->
  normal 166 (times c (of_Z k)) /\ 0 <= val c /\
  Z.abs (val (times c (of_Z k)) - val c * k) * 2 ^ 52 <= val c * k.
Proof.
  intros [Hc _] Hk. destruct (of_Z_exact k) as [Hn Hv]; [lia|].
  destruct (times_val c (of_Z k) 60 52) as [Ht He]; [done|done|lia..|]. split; [done|].
  rewrite Hv in He. assert (0 <= val c) by (destruct Hc as (m & e & -> & _); cbn [val]; apply Z.mul_nonneg_nonneg; [lia|apply Z.pow_nonneg; lia]).
  split; [done|]. replace (val c * (k * 2 ^ 200)) with (val c * k * 2 ^ 200) in He by ring.
  rewrite <- Z.mul_sub_distr_r, Z.abs_mul, (Z.abs_eq (2 ^ 200)) in He by lia. lia.
Qed.

Lemma index_range c k : fraction c -> 0 <= k < 2 ^ 52 -> 0 <= index c k <= k.
Proof.
  intros Hc Hk. unfold index. destruct (Z.eq_dec k 0) as [->|].
  { destruct Hc as [(m & e & -> & _) _]. vm_compute. intuition discriminate. }
  destruct (rank_val c k) as (_ & H0 & He); [done|lia|]. destruct Hc as [_ Hc].
  assert (0 <= val (times c (of_Z k)) <= k * 2 ^ 200) as [Hl Hu] by nia. split.
  - apply Z.div_pos; lia.
  - etrans; [by apply nearest_mono|]. by rewrite nearest_int.
Qed.

Lemma index_mono c1 c2 k :
  fraction c1 -> fraction c2 -> val c1 * (2 ^ 52 + 1) <= val c2 * (2 ^ 52 - 1) -> 0 <= k < 2 ^ 52 -> index c1 k <= index c2 k.
Proof.
  intros H1 H2 H12 Hk. destruct (Z.eq_dec k 0) as [->|].
  { pose proof (index_range c1 0 H1 Hk). pose proof (index_range c2 0 H2 Hk). lia. }
  destruct (rank_val c1 k) as (_ & P1 & E1); [done|lia|]. destruct (rank_val c2 k) as (_ & P2 & E2); [done|lia|].
  apply nearest_mono. nia.
Qed.

Lemma index_half k : 0 <= k < 2 ^ 52 -> index (over P50 P100) k = (k + 1) / 2.
Proof.
  intros Hk. destruct (Z.eq_dec k 0) as [->|]; [done|]. destruct (of_Z_exact k) as [Hn Hv]; [lia|].
  pose proof (times_half (of_Z k) 52 Hn ltac:(lia)) as Hh. rewrite Hv in Hh. unfold index, nearest, P50, P100.
  rewrite Hh. replace (k * 2 ^ 200 + 2 ^ 200) with ((k + 1) * 2 ^ 200) by ring. change (2 ^ 201) with (2 * 2 ^ 200).
  by rewrite Z.div_mul_cancel_r by lia.
Qed.

(** The percentiles that are reported. *)
Definition inner (p : double) : Prop :=
  SFleb p (S754_zero false) = false /\ SFleb P100 p = false /\ fraction (over p P100).

Lemma get_percentile_index sorted p :
  inner p -> (0 < length sorted)%nat -> Z.of_nat (length sorted) <= 2 ^ 52 ->
  get_percentile sorted p = sorted !! Z.to_nat (index (over p P100) (Z.of_nat (length sorted - 1))).
Proof.
  intros (H1 & H2 & Hf) Hl Hn. unfold get_percentile. rewrite H1, H2. set (k := (length sorted - 1)%nat).
  pose proof (index_range _ (Z.of_nat k) Hf ltac:(lia)) as Hr. unfold index in *.
  assert (to_u64 (round (times (over p P100) (of_Z (Z.of_nat k)))) = Some (nearest (val (times (over p P100) (of_Z (Z.of_nat k)))))) as ->.
  { destruct (Z.eq_dec (Z.of_nat k) 0) as [->|]; [destruct Hf as [(m & e & -> & _) _]; done|].
    destruct (rank_val _ (Z.of_nat k) Hf) as (Hn' & H0 & He); [lia|]. destruct Hf as [_ Hf]. apply (to_u64_round _ 166); [done|lia|nia]. }
  cbn [mbind option_bind]. f_equal. lia.
Qed.

Ltac is_fraction := split; [eexists _, _; split; [vm_compute; reflexivity|]; split; [split; [discriminate|reflexivity]|split; discriminate]|vm_compute; discriminate].
Ltac is_inner := split; [vm_compute; reflexivity|]; split; [vm_compute; reflexivity|is_fraction].

Lemma inner_P50 : inner P50. Proof. is_inner. Qed.
Lemma inner_P90 : inner P90. Proof. is_inner. Qed.
Lemma inner_P99 : inner P99. Proof. is_inner. Qed.
Lemma inner_P99_9 : inner P99_9. Proof. is_inner. Qed.
Lemma inner_P99_99 : inner P99_99. Proof. is_inner. Qed.

(** ** The statistics *)

Lemma sort_perm l : sort l ≡ₚ l.
Proof. apply merge_sort_Permutation. Qed.

Lemma sorted_lookup_le (l : list Z) i j x y :
  StronglySorted Z.le l -> l !! i = Some x -> l !! j = Some y -> (i <= j)%nat -> x <= y.
Proof.
  intros Hs. revert i j. induction Hs as [|a l Hs IH Ha]; intros i j Hi Hj Hij; [done|].
  destruct i as [|i], j as [|j]; cbn in Hi, Hj; simplify_eq; [lia| |lia|].
  - by apply (Forall_lookup_1 _ _ _ _ Ha Hj).
  - apply (IH i j); [done|done|lia].
Qed.

Lemma sort_le l i j x y : sort l !! i = Some x -> sort l !! j = Some y -> (i <= j)%nat -> x <= y.
Proof. apply sorted_lookup_le, StronglySorted_merge_sort; apply _. Qed.

#[local] Instance sum_proper : Proper ((≡ₚ) ==> (=)) (foldr Z.add 0).
Proof. intros l k H. induction H; cbn; lia. Qed.

Lemma accumulate_sum l : Forall (fun x => 0 <= x) l -> forall a, 0 <= a ->
  a + foldr Z.add 0 l < 2 ^ 64 -> foldl (fun acc x => acc +64 x) a l = a + foldr Z.add 0 l.
Proof.
  induction 1 as [|x l Hx Hl IH]; intros a Ha Hs; cbn in *; [lia|].
  assert (0 <= foldr Z.add 0 l) by (clear -Hl; induction Hl; cbn; lia).
  rewrite wrap_small by lia. rewrite IH by lia. lia.
Qed.

Lemma sum_bounds l lo hi : Forall (fun x => lo <= x <= hi) l ->
  lo * Z.of_nat (length l) <= foldr Z.add 0 l <= hi * Z.of_nat (length l).
Proof. induction 1 as [|x l Hx Hl IH]; cbn [foldr length]; [lia|]. rewrite Nat2Z.inj_succ. nia. Qed.

(** The samples the statistics are about: the percentiles read off at their
    indices. *)
Lemma compute_stats_reads cal s :
  samples_ s <> [] -> Z.of_nat (length (samples_ s)) <= 2 ^ 52 ->
  let sorted := sort (samples_ s) in
  let k := Z.of_nat (length (samples_ s) - 1) in
  let at_ c := default 0 (sorted !! Z.to_nat (index (over c P100) k)) in
  exists lo hi, sorted !! 0%nat = Some lo /\ sorted !! Z.to_nat k = Some hi /\
    (fun st => (count st, mean_cycles st, [min_cycles st; p50_cycles st; p90_cycles st; p99_cycles st; p99_9_cycles st; p99_99_cycles st; max_cycles st]))
      <$> compute_stats cal s =
    Some (length (samples_ s), accumulate sorted / Z.of_nat (length (samples_ s)),
      [lo; at_ P50; at_ P90; at_ P99; at_ P99_9; at_ P99_99; hi]).
Proof.
  intros Hne Hn sorted k at_. assert (length sorted = length (samples_ s)) as Hl by (unfold sorted; by rewrite sort_perm).
  assert (0 < length (samples_ s))%nat by (destruct (samples_ s); [done|cbn; lia]).
  destruct (lookup_lt_is_Some_2 sorted 0) as [lo Hlo]; [lia|].
  destruct (lookup_lt_is_Some_2 sorted (length sorted - 1)) as [hi Hhi]; [lia|].
  exists lo, hi. split; [done|]. split; [unfold k; by rewrite Nat2Z.id, <- Hl|].
  unfold compute_stats, empty. rewrite (proj2 (Nat.eqb_neq _ _)) by lia. fold sorted.
  assert (G : forall p, inner p -> get_percentile sorted p = Some (at_ p)).
  { intros p Hp. rewrite get_percentile_index by (done || lia). rewrite Hl. fold k. unfold at_.
    destruct Hp as (_ & _ & Hf). pose proof (index_range _ k Hf ltac:(lia)).
    destruct (lookup_lt_is_Some_2 sorted (Z.to_nat (index (over p P100) k))) as [x ->]; [lia|done]. }
  rewrite Hlo, Hhi. cbn [mbind option_bind].
  rewrite (G _ inner_P50), (G _ inner_P90), (G _ inner_P99), (G _ inner_P99_9), (G _ inner_P99_99). cbn. by rewrite Hl.
Qed.

(** The reported values in increasing order. *)
Definition distribution (st : Statistics) : list Z :=
  [min_cycles st; p50_cycles st; p90_cycles st; p99_cycles st; p99_9_cycles st; p99_99_cycles st; max_cycles st].

Definition total (s : LatencyTracker) : Z := foldr Z.add 0 (samples_ s).

#[local] Opaque index over times of_Z.

Definition indices (k : Z) : list Z :=
  [0; index (over P50 P100) k; index (over P90 P100) k; index (over P99 P100) k; index (over P99_9 P100) k; index (over P99_99 P100) k; k].

Lemma indices_range k : 0 <= k < 2 ^ 52 -> Forall (fun i => 0 <= i < k + 1) (indices k).
Proof.
  intros Hk. assert (forall p, inner p -> 0 <= index (over p P100) k < k + 1) as R.
  { intros p (_ & _ & Hf). pose proof (index_range _ k Hf Hk). lia. }
  pose proof (R _ inner_P50). pose proof (R _ inner_P90). pose proof (R _ inner_P99). pose proof (R _ inner_P99_9). pose proof (R _ inner_P99_99).
  unfold indices. rewrite !Forall_cons, Forall_nil. lia.
Qed.

Lemma indices_sorted k : 0 <= k < 2 ^ 52 -> StronglySorted Z.le (indices k).
Proof.
  intros Hk. apply Sorted_StronglySorted; [intros ???; lia|].
  pose proof inner_P50 as (_ & _ & F1). pose proof inner_P90 as (_ & _ & F2). pose proof inner_P99 as (_ & _ & F3).
  pose proof inner_P99_9 as (_ & _ & F4). pose proof inner_P99_99 as (_ & _ & F5).
  repeat apply Sorted_cons; [apply Sorted_nil|apply HdRel_nil|..]; apply HdRel_cons.
  - by apply index_range.
  - apply index_mono; [done|done|vm_compute; discriminate|done].
  - apply index_mono; [done|done|vm_compute; discriminate|done].
  - apply index_mono; [done|done|vm_compute; discriminate|done].
  - apply index_mono; [done|done|vm_compute; discriminate|done].
  - by apply index_range.
Qed.

Lemma sorted_reads (l : list Z) (js : list Z) :
  StronglySorted Z.le js -> Forall (fun i => 0 <= i < Z.of_nat (length l)) js ->
  StronglySorted Z.le ((fun i => default 0 (sort l !! Z.to_nat i)) <$> js) /\
  Forall (fun x => x ∈ l) ((fun i => default 0 (sort l !! Z.to_nat i)) <$> js).
Proof.
  assert (R : forall i, 0 <= i < Z.of_nat (length l) -> exists x, sort l !! Z.to_nat i = Some x /\ x ∈ l).
  { intros i Hi. destruct (lookup_lt_is_Some_2 (sort l) (Z.to_nat i)) as [x Hx]; [rewrite sort_perm; lia|].
    exists x. split; [done|]. rewrite <- (sort_perm l). by eapply list_elem_of_lookup_2. }
  induction 1 as [|i js Hs IH Hi]; intros Hf; [by split; constructor|]. apply Forall_cons in Hf as [Hi0 Hf].
  destruct (IH Hf) as [IH1 IH2]. destruct (R i Hi0) as (x & Hx & Hin). cbn. rewrite Hx. split; constructor; [done| |done|done].
  rewrite Forall_fmap. apply Forall_forall. intros j Hj. cbn. rewrite Forall_forall in Hi, Hf.
  destruct (R j (Hf j Hj)) as (y & Hy & _). rewrite Hy. cbn. apply (sort_le l _ _ _ _ Hx Hy). specialize (Hi j Hj). lia.
Qed.

(** C37. For any number of samples up to 2^52 the statistics are defined: no
    conversion from a double is undefined and no index out of range.  The
    minimum, the five percentiles and the maximum are recorded samples in
    increasing order that enclose all samples, P50 is the upper median, and
    the mean lies between the extremes unless the sum overflows. *)
Theorem latency_stats cal s :
  samples_ s <> [] -> Z.of_nat (length (samples_ s)) <= 2 ^ 52 -> Forall (fun x => 0 <= x) (samples_ s) ->
  exists st, compute_stats cal s = Some st /\ count st = length (samples_ s) /\
    StronglySorted Z.le (distribution st) /\ Forall (fun x => x ∈ samples_ s) (distribution st) /\
    Forall (fun x => min_cycles st <= x <= max_cycles st) (samples_ s) /\
    sort (samples_ s) !! (length (samples_ s) / 2)%nat = Some (p50_cycles st) /\
    (total s < 2 ^ 64 -> mean_cycles st = total s / Z.of_nat (length (samples_ s)) /\ min_cycles st <= mean_cycles st <= max_cycles st).
Proof.
  intros Hne Hn Hpos. destruct (compute_stats_reads cal s Hne Hn) as (lo & hi & Hlo & Hhi & E).
  destruct (compute_stats cal s) as [st|]; [|done]. exists st. split; [done|].
  assert (0 < length (samples_ s))%nat by (destruct (samples_ s); [done|cbn; lia]).
  set (k := Z.of_nat (length (samples_ s) - 1)) in *.
  pose proof (index_half k ltac:(lia)) as Hh.
  destruct (sorted_reads (samples_ s) (indices k)) as [Hs Hin];
    [apply indices_sorted; lia|eapply Forall_impl; [apply indices_range; lia|cbn; lia]|].
  cbn -[index over] in E. injection E as Ecount Emean Emin E50 E90 E99 E999 E9999 Emax.
  assert (D : distribution st = (fun i => default 0 (sort (samples_ s) !! Z.to_nat i)) <$> indices k).
  { unfold distribution, indices. cbn [fmap list_fmap]. change (Z.to_nat 0) with 0%nat. rewrite Hlo, Hhi. by rewrite Emin, E50, E90, E99, E999, E9999, Emax. }
  assert (B : Forall (fun x => min_cycles st <= x <= max_cycles st) (samples_ s)).
  { rewrite <- (sort_perm (samples_ s)), Emin, Emax. apply Forall_forall. intros x (i & Hi)%list_elem_of_lookup.
    pose proof (lookup_lt_Some _ _ _ Hi) as Hlt. rewrite sort_perm in Hlt.
    split; [apply (sort_le _ _ _ _ _ Hlo Hi)|apply (sort_le _ _ _ _ _ Hi Hhi)]; lia. }
  split; [done|]. rewrite D. split; [done|]. split; [done|]. split; [done|]. split.
  - rewrite E50, Hh. assert (Z.to_nat ((k + 1) / 2) = (length (samples_ s) / 2)%nat) as ->.
    { replace (k + 1) with (Z.of_nat (length (samples_ s))) by lia. change 2 with (Z.of_nat 2). by rewrite <- Nat2Z.inj_div, Nat2Z.id. }
    destruct (lookup_lt_is_Some_2 (sort (samples_ s)) (length (samples_ s) / 2)) as [x ->]; [|done].
    rewrite sort_perm. apply Nat.div_lt; lia.
  - intros Hsum. pose proof (sum_bounds _ _ _ B) as Hb.
    assert (accumulate (sort (samples_ s)) = total s) as Ea.
    { unfold accumulate, total in *. rewrite accumulate_sum; [by rewrite (sort_perm (samples_ s))|by rewrite sort_perm|done|by rewrite sort_perm]. }
    rewrite Emean, Ea. split; [done|]. unfold total. split; [apply Z.div_le_lower_bound|apply Z.div_le_upper_bound]; lia.
Qed.

Definition ex_tracker : LatencyTracker := foldl (fun s c => record_cycles c s) (new_tracker 8) [70; 10; 40; 20; 90].

Lemma latency_stats_witness :
  exists st, compute_stats default_cal ex_tracker = Some st /\ count st = 5%nat /\
    sort (samples_ ex_tracker) !! 2%nat = Some (p50_cycles st) /\ mean_cycles st = 46.
Proof.
  destruct (latency_stats default_cal ex_tracker) as (st & E & Hc & _ & _ & _ & H50 & Hm);
    [discriminate|vm_compute; discriminate|repeat apply Forall_cons_2; try apply Forall_nil_2; vm_compute; discriminate|].
  exists st. split; [exact E|]. split; [exact Hc|]. split; [exact H50|]. apply Hm. vm_compute. reflexivity.
Defined.

(** A full tracker drops samples instead of growing. *)
Lemma record_cycles_bounded cs s :
  (length (samples_ s) <= capacity s)%nat ->
  let s' := foldl (fun s c => record_cycles c s) s cs in
  capacity s' = capacity s /\ samples_ s' = take (capacity s) (samples_ s ++ cs).
Proof.
  revert s. induction cs as [|c cs IH]; intros s Hs; cbn.
  - by rewrite app_nil_r, take_ge by done.
  - unfold record_cycles at 2 4. destruct (Nat.ltb_spec (length (samples_ s)) (capacity s)).
    + destruct (IH (mk (capacity s) (samples_ s ++ [c]))) as [H1 H2]; [cbn; rewrite length_app; cbn; lia|].
      split; [exact H1|]. rewrite H2. cbn. by rewrite <- (assoc_L (++)).
    + destruct (IH s Hs) as [H1 H2]. split; [exact H1|]. rewrite H2. by rewrite !take_app_le by lia.
Qed.

(** The scoped timer reports the cycles between its two readings, also when
    the second one is smaller, where it reports none. *)
Lemma elapsed_spec a b : 0 <= a < 2 ^ 64 -> 0 <= b < 2 ^ 64 -> elapsed a b = Z.max 0 (b - a).
Proof. intros. unfold elapsed. destruct (Z.leb_spec a b); [rewrite wrap_small|]; lia. Qed.

(** Calibration has no such guard: a second reading one cycle below the first
    one, as between unsynchronised cores, gives 2^64 cycles in a millisecond. *)
Lemma calibrate_backwards :
  get_tsc_freq_ghz (calibrate 1000 999 (2 ^ 20) default_cal) = of_Z (2 ^ 44).
Proof. vm_compute. reflexivity. Qed.
End Latency.
