(* ===== verification/CycleCounter.v ===== *)
(** * The cycle counter and out-of-order execution

    [HardwareCycleCounter] of rdtsc_timer.hpp as the instructions its functions
    execute.  The processor may execute the instructions of a program in any
    order that respects the documented ordering of the fences: nothing moves
    across [LFENCE] or [CPUID], and [RDTSCP] waits for everything before it,
    while [RDTSC] is ordered with nothing. *)

From S2P Require Import Prelude.

#[local] Open Scope Z_scope.
#[local] Open Scope cpp_scope.

Module Counter.

Inductive insn := LFENCE | RDTSC | RDTSCP | CPUID | Work (n : nat).

Definition start_cycles : list insn := [LFENCE; RDTSC; LFENCE].
Definition end_cycles : list insn := [RDTSCP; LFENCE].
Definition start_cycles_cpuid : list insn := [CPUID; RDTSC].

(** The code between two readings, and the whole as it is fetched. *)
Definition measured (start : list insn) (body : list nat) : list insn := start ++ (Work <$> body) ++ end_cycles.

(** [a], earlier in the program, is executed before [b]. *)
Definition ordered (a b : insn) : bool :=
  match a, b with
  | LFENCE, _ | CPUID, _ | _, LFENCE | _, CPUID | _, RDTSCP => true
  | _, _ => false
  end.

(** [time i] is when instruction number [i] is executed. *)
Definition legal (p : list insn) (time : nat -> nat) : Prop :=
  forall i j a b, (i < j)%nat -> p !! i = Some a -> p !! j = Some b -> ordered a b = true -> (time i < time j)%nat.

(** What the subtraction of the two readings yields, for a counter that shows
    [tsc t] at time [t]. *)
Definition reading (tsc : nat -> Z) (time : nat -> nat) (i : nat) : Z := u64 (tsc (time i)).

Definition elapsed_cycles (tsc : nat -> Z) (time : nat -> nat) (start body : nat) : Z :=
  reading tsc time (start + body) -64 reading tsc time 1.

Lemma measured_body start body k n :
  body !! k = Some n -> measured start body !! (length start + k)%nat = Some (Work n).
Proof.
  intros Hk. unfold measured. rewrite lookup_app_r by lia. replace (length start + k - length start)%nat with k by lia.
  rewrite lookup_app_l by (rewrite length_fmap; by eapply lookup_lt_Some). by rewrite list_lookup_fmap, Hk.
Qed.

Lemma measured_end start body : measured start body !! (length start + length body)%nat = Some RDTSCP.
Proof.
  unfold measured. rewrite lookup_app_r by lia. replace (length start + length body - length start)%nat with (length body) by lia.
  rewrite lookup_app_r by (by rewrite length_fmap). by rewrite length_fmap, Nat.sub_diag.
Qed.

(** With [start_cycles] and [end_cycles] around it, all of the measured code is
    executed between the two readings, in every order the processor may choose;
    the difference of the readings is then at least the time any part of it
    spans. *)
Theorem cycles_enclose body time :
  legal (measured start_cycles body) time ->
  forall k n, body !! k = Some n -> (time 1 < time (3 + k) < time (3 + length body))%nat.
Proof.
  intros HL k n Hk. pose proof (measured_body start_cycles body k n Hk) as Hb. pose proof (measured_end start_cycles body) as He.
  pose proof (lookup_lt_Some _ _ _ Hk) as Hlt. cbn [length start_cycles] in Hb, He. split.
  - transitivity (time 2%nat); [by apply (HL 1%nat 2%nat RDTSC LFENCE); [lia|..]|by apply (HL 2%nat (3 + k)%nat LFENCE (Work n)); [lia|..]].
  - by apply (HL (3 + k)%nat (3 + length body)%nat (Work n) RDTSCP); [lia|..].
Qed.

Lemma elapsed_covers tsc body time k1 k2 n1 n2 :
  legal (measured start_cycles body) time -> (forall s t, (s <= t)%nat -> tsc s <= tsc t) ->
  (forall t, 0 <= tsc t < 2 ^ 64) -> body !! k1 = Some n1 -> body !! k2 = Some n2 ->
  tsc (time (3 + k2)%nat) - tsc (time (3 + k1)%nat) <= elapsed_cycles tsc time 3 (length body).
Proof.
  intros HL Hm Hb H1 H2. pose proof (measured_end start_cycles body) as He. cbn [length start_cycles] in He.
  assert (time 1 <= time (3 + k1) /\ time (3 + k2) <= time (3 + length body) /\ time 1 <= time (3 + length body))%nat as (A & B & C).
  { pose proof (measured_body start_cycles body k1 n1 H1) as B1. pose proof (measured_body start_cycles body k2 n2 H2) as B2.
    pose proof (lookup_lt_Some _ _ _ H1). pose proof (lookup_lt_Some _ _ _ H2). cbn [length start_cycles] in B1, B2.
    assert (time 1 < time 2)%nat by (by apply (HL 1%nat 2%nat RDTSC LFENCE); [lia|..]).
    assert (time 2 < time (3 + k1))%nat by (by apply (HL 2%nat (3 + k1)%nat LFENCE (Work n1)); [lia|..]).
    assert (time (3 + k1) < time (3 + length body))%nat by (by apply (HL (3 + k1)%nat (3 + length body)%nat (Work n1) RDTSCP); [lia|..]).
    assert (time (3 + k2) < time (3 + length body))%nat by (by apply (HL (3 + k2)%nat (3 + length body)%nat (Work n2) RDTSCP); [lia|..]).
    lia. }
  unfold elapsed_cycles, reading. pose proof (Hm _ _ A). pose proof (Hm _ _ B). pose proof (Hm _ _ C).
  pose proof (Hb (time 1%nat)). pose proof (Hb (time (3 + length body)%nat)). rewrite (wrap_small 64 (tsc (time 1%nat))), (wrap_small 64 (tsc (time (3 + length body)%nat))), wrap_small by lia. lia.
Qed.

(** [start_cycles_cpuid] has no fence after its reading: the measured code may
    be executed before it. *)
Lemma cpuid_not_enclosing n :
  exists time, legal (measured start_cycles_cpuid [n]) time /\ (time 2 < time 1)%nat.
Proof.
  exists (fun i => match i with 0 => 0 | 1 => 2 | 2 => 1 | _ => i end)%nat. split; [|lia].
  intros i j a b Hij Ha Hb. unfold measured in *. cbn in Ha, Hb.
  destruct i as [|[|[|[|[|i]]]]]; destruct j as [|[|[|[|[|j]]]]]; cbn in *; simplify_eq; cbn; try done; lia.
Qed.
End Counter.
