(* ===== verification/PingPong.v ===== *)
(** * Ping-pong programs over two queues

    The programs of bench_lockfree_queues.cpp (04-hardware-sync) and
    bench_shm_ipc.cpp (06-systems-ipc): a main thread sends a request over one
    queue and waits for the reply on another, an echoing thread answers.  The
    programs are written against [Fifo], the calls of a queue one shared access
    at a time, so that both threads interleave freely inside their calls; the
    lock-free queue [SPSCQueue] and the shared-memory bus [ShmIpcBus] implement
    the interface.  Readings of the cycle counter are arguments. *)

From Stdlib Require Import String Ascii.
From S2P Require Import Prelude Ring Spsc ShmBus Logger Ostream Doubles Latency.

#[local] Open Scope Z_scope.
#[local] Open Scope cpp_scope.

Module PingPong.

(** ** Queues by the steps of their calls

    [ff_push a x r y] is a step of a call [push(a)]: [r] is [None] inside the
    call and the result when it returns.  [ff_pop] is the same for [pop], whose
    result is the value taken out, if any.  [ff_calling a x] says that the
    producer is between calls or inside [push(a)]. *)
Class Fifo (X A : Type) := {
  ff_pushed : X -> list A;
  ff_popped : X -> list A;
  ff_push : A -> X -> option bool -> X -> Prop;
  ff_pop : X -> option (option A) -> X -> Prop;
  ff_calling : A -> X -> Prop }.

Inductive calls {X R} (step : X -> option R -> X -> Prop) : X -> R -> X -> Prop :=
| calls_ret x r y : step x (Some r) y -> calls step x r y
| calls_more x y r z : step x None y -> calls step y r z -> calls step x r z.

(** What a client relies on, for arguments that [fits] the queue. *)
Class FifoLaws {X A} (F : Fifo X A) (cap : Z) (fits : A -> Prop) (wf : X -> Prop) := {
  fl_cap : 0 < cap;
  fl_fifo x : wf x -> ff_popped x `prefix_of` ff_pushed x;
  fl_push a x r y : wf x -> fits a -> ff_push a x r y ->
    wf y /\ ff_popped y = ff_popped x /\
    ff_pushed y = (match r with Some true => ff_pushed x ++ [a] | _ => ff_pushed x end) /\
    (match r with None => ff_calling a y | Some _ => forall b, ff_calling b y end);
  fl_full a x y : wf x -> ff_push a x (Some false) y ->
    Z.of_nat (length (ff_pushed x)) = Z.of_nat (length (ff_popped x)) + cap;
  fl_pop x r y : wf x -> ff_pop x r y ->
    wf y /\ ff_pushed y = ff_pushed x /\
    ff_popped y = (match r with Some (Some v) => ff_popped x ++ [v] | _ => ff_popped x end) /\
    (forall a, ff_calling a x -> ff_calling a y);
  fl_empty x y : wf x -> ff_pop x (Some None) y -> ff_popped x = ff_pushed x;
  fl_push_returns a x : wf x -> fits a -> ff_calling a x -> exists b y, calls (ff_push a) x b y;
  fl_pop_returns x : wf x -> exists o y, calls ff_pop x o y }.

(** ** The two threads *)

Inductive main_pc := M_push (i : nat) | M_pop (i : nat) | M_bye | M_join | M_end.
Inductive echo_pc {A} := E_test | E_pop | E_push (a : A) | E_exit.
Arguments echo_pc : clear implicits.

Section bench.
Context {X A : Type} {F : Fifo X A}.

(** [ROUNDTRIPS], what the main thread sends in iteration [i], what the
    echoing thread answers, when it leaves its loop, given the number of
    answers and the flag [done], and the push with which the main thread
    unblocks it. *)
Context (ROUNDTRIPS : nat) (request : nat -> A) (reply : A -> A) (stop : nat -> bool -> bool) (farewell : option A).

(** Readings of the cycle counter before the request and after the reply. *)
Context (start_cycles end_cycles : nat -> Z).

Record sys := mk_sys {
  ping : X; pong : X; mpc : main_pc; epc : echo_pc A; done : bool; echoed : nat; replies : list A;
  tracker : Latency.LatencyTracker }.

Definition main_pushed (i : nat) (s : sys) (x : X) (r : option bool) : sys :=
  mk_sys x (pong s) (match r with Some true => M_pop i | _ => M_push i end) (epc s) (done s) (echoed s) (replies s) (tracker s).

Definition main_popped (i : nat) (s : sys) (x : X) (r : option (option A)) : sys :=
  match r with
  | Some (Some v) =>
      mk_sys (ping s) x (M_push (S i)) (epc s) (done s) (echoed s) (replies s ++ [v])
        (Latency.record_cycles (end_cycles i -64 start_cycles i) (tracker s))
  | _ => mk_sys (ping s) x (M_pop i) (epc s) (done s) (echoed s) (replies s) (tracker s)
  end.

Definition main_stores_done (s : sys) : sys :=
  mk_sys (ping s) (pong s) M_bye (epc s) true (echoed s) (replies s) (tracker s).

Definition main_to (p : main_pc) (x : X) (s : sys) : sys :=
  mk_sys x (pong s) p (epc s) (done s) (echoed s) (replies s) (tracker s).

Definition echo_tested (s : sys) : sys :=
  mk_sys (ping s) (pong s) (mpc s) (if stop (echoed s) (done s) then E_exit else E_pop) (done s) (echoed s) (replies s) (tracker s).

Definition echo_popped (s : sys) (x : X) (r : option (option A)) : sys :=
  mk_sys x (pong s) (mpc s)
    (match r with None => E_pop | Some None => E_test | Some (Some v) => E_push (reply v) end)
    (done s) (echoed s) (replies s) (tracker s).

Definition echo_pushed (a : A) (s : sys) (x : X) (r : option bool) : sys :=
  match r with
  | Some true => mk_sys (ping s) x (mpc s) E_test (done s) (S (echoed s)) (replies s) (tracker s)
  | _ => mk_sys (ping s) x (mpc s) (E_push a) (done s) (echoed s) (replies s) (tracker s)
  end.

Inductive step : sys -> sys -> Prop :=
| B_push s i r x :
    mpc s = M_push i -> (i < ROUNDTRIPS)%nat -> ff_push (request i) (ping s) r x -> step s (main_pushed i s x r)
| B_pop s i r x : mpc s = M_pop i -> ff_pop (pong s) r x -> step s (main_popped i s x r)
| B_done s : mpc s = M_push ROUNDTRIPS -> step s (main_stores_done s)
| B_bye s a r x :
    mpc s = M_bye -> farewell = Some a -> ff_push a (ping s) r x ->
    step s (main_to (match r with None => M_bye | Some _ => M_join end) x s)
| B_no_bye s : mpc s = M_bye -> farewell = None -> step s (main_to M_join (ping s) s)
| B_join s : mpc s = M_join -> epc s = E_exit -> step s (main_to M_end (ping s) s)
| B_test s : epc s = E_test -> step s (echo_tested s)
| B_take s r x : epc s = E_pop -> ff_pop (ping s) r x -> step s (echo_popped s x r)
| B_answer s a r x : epc s = E_push a -> ff_push a (pong s) r x -> step s (echo_pushed a s x r).

Definition start (p q : X) (reserved : nat) : sys :=
  mk_sys p q (M_push 0) E_test false 0 [] (Latency.new_tracker reserved).

(** ** Invariant *)

Definition requests (n : nat) : list A := request <$> seq 0 n.
Definition answers (n : nat) : list A := (fun i => reply (request i)) <$> seq 0 n.
Definition latencies (n : nat) : list Z := (fun i => end_cycles i -64 start_cycles i) <$> seq 0 n.

Definition quiet (e : echo_pc A) : Prop := match e with E_push _ => False | _ => True end.

(** The answering thread after [i] answers: it has not taken the next
    request, ... *)
Definition resting (s : sys) (i : nat) : Prop :=
  ff_popped (ping s) = requests i /\ ff_pushed (pong s) = answers i /\ echoed s = i /\ quiet (epc s).

(** ... or it holds the answer to [next], or it has sent it. *)
Definition answering (s : sys) (i : nat) (next : A) : Prop :=
  resting s i \/
  (ff_popped (ping s) = requests i ++ [next] /\ ff_pushed (pong s) = answers i /\ echoed s = i /\ epc s = E_push (reply next)) \/
  (ff_popped (ping s) = requests i ++ [next] /\ ff_pushed (pong s) = answers i ++ [reply next] /\ echoed s = S i /\ quiet (epc s)).

Definition phase (s : sys) : Prop :=
  match mpc s with
  | M_push i =>
      (i <= ROUNDTRIPS)%nat /\ done s = false /\ ff_pushed (ping s) = requests i /\ replies s = answers i /\ resting s i /\
      ((i < ROUNDTRIPS)%nat -> ff_calling (request i) (ping s)) /\ (i = ROUNDTRIPS -> forall b, ff_calling b (ping s))
  | M_pop i =>
      (i < ROUNDTRIPS)%nat /\ done s = false /\ ff_pushed (ping s) = requests i ++ [request i] /\ replies s = answers i /\
      answering s i (request i) /\ (forall b, ff_calling b (ping s))
  | M_bye =>
      done s = true /\ ff_pushed (ping s) = requests ROUNDTRIPS /\ replies s = answers ROUNDTRIPS /\ resting s ROUNDTRIPS /\
      (forall a, farewell = Some a -> ff_calling a (ping s))
  | M_join | M_end =>
      done s = true /\ replies s = answers ROUNDTRIPS /\
      match farewell with
      | Some a => ff_pushed (ping s) `prefix_of` requests ROUNDTRIPS ++ [a] /\ answering s ROUNDTRIPS a
      | None => ff_pushed (ping s) = requests ROUNDTRIPS /\ resting s ROUNDTRIPS
      end
  end.

Context (cap : Z) (fits : A -> Prop) (wf : X -> Prop) {L : FifoLaws F cap fits wf}.

Record Inv (reserved : nat) (s : sys) : Prop := {
  i_ping : wf (ping s);
  i_pong : wf (pong s);
  i_phase : phase s;
  i_replies : ff_popped (pong s) = replies s;
  i_call : match epc s with E_push a => fits a /\ ff_calling a (pong s) | _ => forall b, ff_calling b (pong s) end;
  i_exit : epc s = E_exit -> done s = true \/ (ROUNDTRIPS <= echoed s)%nat;
  i_tracker : Latency.capacity (tracker s) = reserved /\
    Latency.samples_ (tracker s) = take reserved (latencies (length (replies s))) }.

Lemma requests_S i : requests (S i) = requests i ++ [request i].
Proof. unfold requests. by rewrite seq_S, fmap_app. Qed.

Lemma answers_S i : answers (S i) = answers i ++ [reply (request i)].
Proof. unfold answers. by rewrite seq_S, fmap_app. Qed.

Lemma latencies_S i : latencies (S i) = latencies i ++ [end_cycles i -64 start_cycles i].
Proof. unfold latencies. by rewrite seq_S, fmap_app. Qed.

Lemma length_answers i : length (answers i) = i.
Proof. unfold answers. by rewrite length_fmap, length_seq. Qed.

Lemma length_requests i : length (requests i) = i.
Proof. unfold requests. by rewrite length_fmap, length_seq. Qed.

(** The next value a prefix of a list can grow by. *)
Lemma prefix_snoc {B} (l : list B) v w : l ++ [v] `prefix_of` l ++ [w] -> v = w.
Proof. intros H%prefix_app_inv. by apply prefix_cons_inv_1 in H. Qed.

Lemma snoc_neq {B} (l : list B) v : l <> l ++ [v].
Proof. intros H%(f_equal length). rewrite length_app in H. cbn in H. lia. Qed.

Lemma prefix_snoc_self {B} (l : list B) v : ~ l ++ [v] `prefix_of` l.
Proof. intros H%prefix_length. rewrite length_app in H. cbn in H. lia. Qed.

(** A step of the answering thread keeps the phase of the main thread. *)
Lemma phase_echo s s' :
  phase s -> mpc s' = mpc s -> done s' = done s -> replies s' = replies s -> ff_pushed (ping s') = ff_pushed (ping s) ->
  (forall a, ff_calling a (ping s) -> ff_calling a (ping s')) ->
  (forall i, resting s i -> ff_pushed (ping s) = requests i -> resting s' i) ->
  (forall i next, answering s i next -> ff_pushed (ping s) `prefix_of` requests i ++ [next] -> answering s' i next) ->
  phase s'.
Proof.
  intros Hp Em Ed Er Eu Hc HR HA. unfold phase in *. rewrite Em, Ed, Er, Eu. destruct (mpc s) as [i|i| | |].
  - destruct Hp as (H1 & H2 & H3 & H4 & H5 & H6 & H7). split_and!; auto.
  - destruct Hp as (H1 & H2 & H3 & H4 & H5 & H6). split_and!; auto. apply HA; [done|by rewrite H3].
  - destruct Hp as (H1 & H2 & H3 & H4 & H5). split_and!; auto.
  - destruct Hp as (H1 & H2 & H3). split_and!; [done|done|]. destruct farewell; destruct H3; auto.
  - destruct Hp as (H1 & H2 & H3). split_and!; [done|done|]. destruct farewell; destruct H3; auto.
Qed.

(** So does one that changes neither its progress nor the queues. *)
Lemma phase_silent s s' :
  phase s -> mpc s' = mpc s -> done s' = done s -> replies s' = replies s -> ff_pushed (ping s') = ff_pushed (ping s) ->
  (forall a, ff_calling a (ping s) -> ff_calling a (ping s')) ->
  ff_popped (ping s') = ff_popped (ping s) -> ff_pushed (pong s') = ff_pushed (pong s) -> echoed s' = echoed s ->
  (epc s' = epc s \/ quiet (epc s) /\ quiet (epc s')) -> phase s'.
Proof.
  intros Hp Em Ed Er Eu Hc Eo Eq Ee Hq.
  assert (HR : forall i, resting s i -> resting s' i).
  { intros i (H1 & H2 & H3 & H4). unfold resting. rewrite Eo, Eq, Ee. destruct Hq as [->|[_ Hq]]; done. }
  apply (phase_echo s); try done; [intros i H _; by apply HR|]. intros i next HA _. unfold answering. rewrite Eo, Eq, Ee.
  destruct HA as [H|[(H1 & H2 & H3 & H4)|(H1 & H2 & H3 & H4)]]; [left; by apply HR|right; left|right; right].
  - destruct Hq as [->|[Hq _]]; [done|by rewrite H4 in Hq].
  - destruct Hq as [->|[_ Hq]]; done.
Qed.

Context (Hreq : forall i, fits (request i)) (Hrep : forall i, fits (reply (request i)))
        (Hbye : forall a, farewell = Some a -> fits a /\ fits (reply a))
        (Hstop : forall n, stop n false = true -> (ROUNDTRIPS <= n)%nat).

Ltac fields := cbn [ping pong mpc epc done echoed replies tracker main_pushed main_popped main_stores_done main_to echo_tested echo_popped echo_pushed] in *.

(** The main thread's own part of the invariant survives a change of its
    position and of the queue it pushes to. *)
Lemma inv_main reserved s p x d :
  Inv reserved s -> wf x -> (done s = true -> d = true) ->
  phase (mk_sys x (pong s) p (epc s) d (echoed s) (replies s) (tracker s)) ->
  Inv reserved (mk_sys x (pong s) p (epc s) d (echoed s) (replies s) (tracker s)).
Proof. intros [H1 H2 H3 H4 H5 H6 H7] Hx Hd Hp. split; try done. cbn. intros He. destruct (H6 He); auto. Qed.

Lemma inv_push reserved s i r x :
  Inv reserved s -> mpc s = M_push i -> (i < ROUNDTRIPS)%nat -> ff_push (request i) (ping s) r x ->
  Inv reserved (main_pushed i s x r).
Proof using L Hreq.
  intros HI Hm Hi Hs. pose proof (i_phase _ _ HI) as Hp. unfold phase in Hp. rewrite Hm in Hp.
  destruct Hp as (Hle & Hd & Hpu & Hre & (R1 & R2 & R3 & R4) & Hc & _).
  destruct (fl_push _ _ _ _ (i_ping _ _ HI) (Hreq i) Hs) as (Hx & Ho & Hu & Hk).
  apply inv_main; [done|done|done|]. unfold phase, answering, resting. cbn. rewrite Hu, Ho, Hpu, Hd, Hre.
  destruct r as [[]|]; cbn; split_and!; try done; try lia; eauto.
Qed.

Lemma inv_done reserved s : Inv reserved s -> mpc s = M_push ROUNDTRIPS -> Inv reserved (main_stores_done s).
Proof.
  intros HI Hm. pose proof (i_phase _ _ HI) as Hp. unfold phase in Hp. rewrite Hm in Hp.
  destruct Hp as (Hle & Hd & Hpu & Hre & HR & _ & Hc). apply inv_main; [done|apply HI|done|].
  split_and!; try done. intros a _. by apply Hc.
Qed.

Lemma inv_bye reserved s a r x :
  Inv reserved s -> mpc s = M_bye -> farewell = Some a -> ff_push a (ping s) r x ->
  Inv reserved (main_to (match r with None => M_bye | Some _ => M_join end) x s).
Proof using L Hbye.
  intros HI Hm Hf Hs. pose proof (i_phase _ _ HI) as Hp. unfold phase in Hp. rewrite Hm in Hp.
  destruct Hp as (Hd & Hpu & Hre & (R1 & R2 & R3 & R4) & Hc).
  destruct (fl_push _ _ _ _ (i_ping _ _ HI) (proj1 (Hbye a Hf)) Hs) as (Hx & Ho & Hu & Hk).
  apply inv_main; [done|done|done|]. unfold phase, answering, resting. cbn. rewrite Hf, Hu, Ho, Hpu, Hd, Hre.
  destruct r as [[]|]; cbn; split_and!; try done; auto; [by apply prefix_app_r|]. intros b [= <-]. done.
Qed.

Lemma inv_no_bye reserved s : Inv reserved s -> mpc s = M_bye -> farewell = None -> Inv reserved (main_to M_join (ping s) s).
Proof.
  intros HI Hm Hf. pose proof (i_phase _ _ HI) as Hp. unfold phase in Hp. rewrite Hm in Hp. destruct Hp as (Hd & Hpu & Hre & HR & _).
  apply inv_main; [done|apply HI|done|]. unfold phase. cbn. rewrite Hf. split_and!; done.
Qed.

Lemma inv_join reserved s : Inv reserved s -> mpc s = M_join -> Inv reserved (main_to M_end (ping s) s).
Proof.
  intros HI Hm. pose proof (i_phase _ _ HI) as Hp. unfold phase in Hp. rewrite Hm in Hp.
  apply inv_main; [done|apply HI|done|]. exact Hp.
Qed.

Lemma answering_room s i a : answering s i a -> ff_popped (pong s) = answers i -> epc s <> E_push (reply a) \/
  ff_pushed (pong s) = ff_popped (pong s).
Proof. intros [(_ & H & _ & Hq)|[(_ & H & _)|(_ & _ & _ & Hq)]] E; [right; congruence|right; congruence|left; by intros He; rewrite He in Hq]. Qed.

Lemma inv_pop reserved s i r x :
  Inv reserved s -> mpc s = M_pop i -> ff_pop (pong s) r x -> Inv reserved (main_popped i s x r).
Proof using L.
  intros HI Hm Hs. pose proof (i_phase _ _ HI) as Hp. unfold phase in Hp. rewrite Hm in Hp.
  destruct Hp as (Hlt & Hd & Hpu & Hre & HA & Hc).
  destruct (fl_pop _ _ _ (i_pong _ _ HI) Hs) as (Hx & Hu & Ho & Hk). pose proof (i_replies _ _ HI) as HR.
  assert (C : match epc s with E_push a => fits a /\ ff_calling a x | _ => forall b, ff_calling b x end).
  { pose proof (i_call _ _ HI) as H. destruct (epc s); try (intros b; apply Hk, H). split; [apply H|apply Hk, H]. }
  destruct r as [[v|]|].
  - pose proof (fl_fifo _ Hx) as Hpre. rewrite Ho, Hu, HR, Hre in Hpre.
    destruct HA as [(_ & H & _)|[(_ & H & _)|(H1 & H & H3 & H4)]]; rewrite H in Hpre; [by apply prefix_snoc_self in Hpre..|].
    apply prefix_snoc in Hpre as ->.
    split; fields; [apply HI|done| |by rewrite Ho, HR|done|apply HI|].
    + unfold phase, resting. fields. rewrite Hu, answers_S, requests_S, Hre, H. split_and!; done.
    + destruct (i_tracker _ _ HI) as [T1 T2]. rewrite Hre, length_answers in T2. rewrite length_app, Hre, length_answers, Nat.add_1_r, latencies_S.
      unfold Latency.record_cycles. rewrite T1, T2. assert (length (latencies i) = i) as Hl by (unfold latencies; by rewrite length_fmap, length_seq).
      destruct (Nat.ltb_spec (length (take reserved (latencies i))) reserved) as [Hlt'|Hge]; rewrite length_take, Hl in *; cbn; (split; [done|]).
      * rewrite !take_ge; rewrite ?length_app, ?Hl; cbn; [done|lia..].
      * rewrite take_app_le by lia. done.
  - split; fields; [apply HI|done| |congruence|done|apply HI|apply HI].
    unfold phase, answering, resting in *. cbn. rewrite Hu. split_and!; done.
  - split; fields; [apply HI|done| |congruence|done|apply HI|apply HI].
    unfold phase, answering, resting in *. cbn. rewrite Hu. split_and!; done.
Qed.

Lemma inv_test reserved s : Inv reserved s -> epc s = E_test -> Inv reserved (echo_tested s).
Proof using Hstop.
  intros HI He. pose proof (i_call _ _ HI) as Hc. rewrite He in Hc. split; fields; try apply HI.
  - apply (phase_silent s); try done; [apply HI|]. right. rewrite He. fields. by destruct (stop _ _).
  - by destruct (stop _ _).
  - destruct (stop _ _) eqn:Hst; [|done]. intros _. destruct (done s); [by left|]. right. by apply Hstop.
Qed.

(** The value taken out of the ping queue is the next request. *)
Lemma take_answering s i next v x :
  answering s i next -> ff_pushed (ping s) `prefix_of` requests i ++ [next] -> epc s = E_pop ->
  ff_popped x = ff_popped (ping s) ++ [v] -> ff_pushed x = ff_pushed (ping s) -> ff_popped x `prefix_of` ff_pushed x ->
  v = next /\ answering (echo_popped s x (Some (Some v))) i next.
Proof.
  intros HA Hpu He Ho Hu Hpre. rewrite Hu, Ho in Hpre. destruct HA as [(R1 & R2 & R3 & _)|[(_ & _ & _ & E)|(E & _)]].
  - rewrite R1 in Hpre. assert (v = next) as -> by (eapply prefix_snoc; by etrans). split; [done|].
    right. left. fields. rewrite Ho, R1. done.
  - congruence.
  - exfalso. rewrite E in Hpre. apply (prefix_snoc_self (requests i ++ [next]) v). by etrans.
Qed.

Lemma take_resting s i v x :
  resting s i -> ff_pushed (ping s) = requests i ->
  ff_popped x = ff_popped (ping s) ++ [v] -> ff_pushed x = ff_pushed (ping s) -> ~ ff_popped x `prefix_of` ff_pushed x.
Proof. intros (R1 & _) Hpu Ho Hu. rewrite Ho, Hu, R1, Hpu. apply prefix_snoc_self. Qed.

(** The answering thread only pushes what fits. *)
Lemma take_fits s v x :
  phase s -> epc s = E_pop -> ff_popped x = ff_popped (ping s) ++ [v] -> ff_pushed x = ff_pushed (ping s) ->
  ff_popped x `prefix_of` ff_pushed x -> fits (reply v).
Proof using Hrep Hbye.
  intros Hp He Ho Hu Hpre. unfold phase in Hp. destruct (mpc s) as [i|i| | |].
  - destruct Hp as (_ & _ & Hpu & _ & HR & _). by destruct (take_resting s i v x).
  - destruct Hp as (_ & _ & Hpu & _ & HA & _). assert (ff_pushed (ping s) `prefix_of` requests i ++ [request i]) by by rewrite Hpu.
    by destruct (take_answering s i (request i) v x) as [-> _].
  - destruct Hp as (_ & Hpu & _ & HR & _). by destruct (take_resting s ROUNDTRIPS v x).
  - destruct Hp as (_ & _ & Hp). destruct farewell as [a|]; destruct Hp as [Hpu HA]; [|by destruct (take_resting s ROUNDTRIPS v x)].
    destruct (take_answering s ROUNDTRIPS a v x) as [-> _]; try done. by apply (Hbye a).
  - destruct Hp as (_ & _ & Hp). destruct farewell as [a|]; destruct Hp as [Hpu HA]; [|by destruct (take_resting s ROUNDTRIPS v x)].
    destruct (take_answering s ROUNDTRIPS a v x) as [-> _]; try done. by apply (Hbye a).
Qed.

Lemma inv_take reserved s r x :
  Inv reserved s -> epc s = E_pop -> ff_pop (ping s) r x -> Inv reserved (echo_popped s x r).
Proof using L Hrep Hbye.
  intros HI He Hs. pose proof (i_phase _ _ HI) as Hp. pose proof (i_call _ _ HI) as Hc. rewrite He in Hc.
  destruct (fl_pop _ _ _ (i_ping _ _ HI) Hs) as (Hx & Hu & Ho & Hk). pose proof (fl_fifo _ Hx) as Hpre.
  assert (G : phase (echo_popped s x r)).
  { destruct r as [[v|]|].
    - apply (phase_echo s); try done; [intros i HR Hpu; by destruct (take_resting s i v x)|].
      intros i next HA Hpu. by apply (take_answering s i next v x).
    - apply (phase_silent s); try done. right. by rewrite He.
    - apply (phase_silent s); try done. left. by rewrite He. }
  split; fields; try apply HI; try done; destruct r as [[v|]|]; try done.
  split; [by apply (take_fits s v x)|done].
Qed.

Lemma inv_answer reserved s a r x :
  Inv reserved s -> epc s = E_push a -> ff_push a (pong s) r x -> Inv reserved (echo_pushed a s x r).
Proof using L.
  intros HI He Hs. pose proof (i_phase _ _ HI) as Hp. pose proof (i_call _ _ HI) as Hc. rewrite He in Hc. destruct Hc as [Hfit Hc].
  destruct (fl_push _ _ _ _ (i_pong _ _ HI) Hfit Hs) as (Hx & Ho & Hu & Hk). pose proof (i_replies _ _ HI) as HR.
  assert (G : phase (echo_pushed a s x r)).
  { destruct r as [[]|].
    - apply (phase_echo s); try done.
      + intros i (_ & _ & _ & Hq). by rewrite He in Hq.
      + intros i next [(_ & _ & _ & Hq)|[(E1 & E2 & E3 & E4)|(_ & _ & _ & Hq)]] _; [by rewrite He in Hq| |by rewrite He in Hq].
        right. right. fields. rewrite He in E4. injection E4 as ->. rewrite Hu, E2, E3. done.
    - apply (phase_silent s); try done. left. by rewrite He.
    - apply (phase_silent s); try done. left. by rewrite He. }
  split; destruct r as [[]|]; fields; try apply HI; try done; try congruence.
Qed.

Lemma bench_step_inv reserved s s' : Inv reserved s -> step s s' -> Inv reserved s'.
Proof using L Hreq Hrep Hbye Hstop.
  intros HI Hs. destruct Hs.
  - by apply inv_push.
  - by apply inv_pop.
  - by apply inv_done.
  - by eapply inv_bye.
  - by apply inv_no_bye.
  - by apply inv_join.
  - by apply inv_test.
  - by apply inv_take.
  - by apply inv_answer.
Qed.

(** A new queue. *)
Definition fresh (x : X) : Prop := wf x /\ ff_pushed x = [] /\ ff_popped x = [] /\ forall a, ff_calling a x.

Lemma bench_reachable_inv p q reserved s :
  fresh p -> fresh q -> rtc step (start p q reserved) s -> Inv reserved s.
Proof using L Hreq Hrep Hbye Hstop.
  intros (P1 & P2 & P3 & P4) (Q1 & Q2 & Q3 & Q4) Hr.
  assert (Inv reserved (start p q reserved)) as H0.
  { split; try done; [|split; [done|]; cbn; by rewrite take_nil]. unfold phase, resting. cbn. rewrite P2, P3, Q2. split_and!; try done; try lia. }
  revert Hr H0. generalize (start p q reserved). induction 1; eauto using bench_step_inv.
Qed.

(** ** No push fails *)

Lemma main_never_fails reserved s i x :
  Inv reserved s -> mpc s = M_push i -> ~ ff_push (request i) (ping s) (Some false) x.
Proof using L.
  intros HI Hm Hf. apply fl_full in Hf; [|apply HI]. pose proof (i_phase _ _ HI) as Hp. unfold phase in Hp. rewrite Hm in Hp.
  destruct Hp as (_ & _ & Hpu & _ & (R1 & _) & _). rewrite Hpu, R1 in Hf. pose proof fl_cap. lia.
Qed.

(** The answering thread pushes only while every answer it sent has been
    received. *)
Lemma echo_room reserved s a : Inv reserved s -> epc s = E_push a -> ff_pushed (pong s) = ff_popped (pong s).
Proof.
  intros HI He. rewrite (i_replies _ _ HI). pose proof (i_phase _ _ HI) as Hp.
  assert (N : forall i next, answering s i next -> ff_pushed (pong s) = answers i).
  { intros i next [(_ & H & _)|[(_ & H & _)|(_ & _ & _ & Hq)]]; [done|done|by rewrite He in Hq]. }
  unfold phase in Hp. destruct (mpc s) as [i|i| | |].
  - destruct Hp as (_ & _ & _ & -> & HR & _). apply HR.
  - destruct Hp as (_ & _ & _ & -> & HA & _). by eapply N.
  - destruct Hp as (_ & _ & -> & HR & _). apply HR.
  - destruct Hp as (_ & -> & Hp). clear -Hp N. destruct farewell; destruct Hp as [_ Hp]; [by eapply N|apply Hp].
  - destruct Hp as (_ & -> & Hp). clear -Hp N. destruct farewell; destruct Hp as [_ Hp]; [by eapply N|apply Hp].
Qed.

Lemma echo_never_fails reserved s a x : Inv reserved s -> epc s = E_push a -> ~ ff_push a (pong s) (Some false) x.
Proof using L.
  intros HI He Hf. apply fl_full in Hf; [|apply HI]. rewrite (echo_room _ _ _ HI He) in Hf. pose proof fl_cap. lia.
Qed.

(** The replies so far, whatever the phase. *)
Lemma replies_answers reserved s : Inv reserved s -> 
  replies s = answers (length (replies s)) /\ (length (replies s) <= ROUNDTRIPS)%nat /\ (mpc s = M_end -> length (replies s) = ROUNDTRIPS).
Proof.
  intros HI. pose proof (i_phase _ _ HI) as Hp. unfold phase in Hp.
  destruct (mpc s); destruct Hp as (H1 & H2 & H3 & Hp) || destruct Hp as (H1 & H2 & H3); try destruct Hp as [H4 _].
  - rewrite H4, length_answers. split_and!; done || lia.
  - rewrite H4, length_answers. split_and!; done || lia.
  - rewrite H3, length_answers. split_and!; done || lia.
  - rewrite H2, length_answers. split_and!; done || lia.
  - rewrite H2, length_answers. split_and!; done || lia.
Qed.

(** ** The program can always finish *)

Lemma calls_push_true a x b y :
  calls (ff_push a) x b y -> wf x -> fits a -> ff_pushed x = ff_popped x -> b = true.
Proof using L.
  induction 1 as [x r y Hs|x y r z Hs _ IH]; intros Hx Ha He.
  - destruct r; [done|]. apply fl_full in Hs; [|done]. rewrite He in Hs. pose proof fl_cap. lia.
  - destruct (fl_push _ _ _ _ Hx Ha Hs) as (Hy & Ho & Hu & _). apply IH; [done|done|congruence].
Qed.

Lemma calls_pop_some x o y : calls ff_pop x o y -> wf x -> ff_popped x <> ff_pushed x -> exists v, o = Some v.
Proof using L.
  induction 1 as [x r y Hs|x y r z Hs _ IH]; intros Hx He.
  - destruct r as [v|]; [by exists v|]. by apply fl_empty in Hs.
  - destruct (fl_pop _ _ _ Hx Hs) as (Hy & Hu & Ho & _). apply IH; [done|congruence].
Qed.

Lemma lift_push s i b x :
  calls (ff_push (request i)) (ping s) b x -> mpc s = M_push i -> (i < ROUNDTRIPS)%nat -> rtc step s (main_pushed i s x (Some b)).
Proof.
  intros H. remember (ping s) as p eqn:Ep. revert s Ep. induction H as [p r y Hs|p y r z Hs _ IH]; intros s -> Hm Hi.
  - apply rtc_once. by constructor.
  - eapply rtc_l; [by apply (B_push s i None y)|]. by apply (IH (main_pushed i s y None)).
Qed.

Lemma lift_pop s i o x : calls ff_pop (pong s) o x -> mpc s = M_pop i -> rtc step s (main_popped i s x (Some o)).
Proof.
  intros H. remember (pong s) as p eqn:Ep. revert s Ep. induction H as [p r y Hs|p y r z Hs _ IH]; intros s -> Hm.
  - apply rtc_once. by constructor.
  - eapply rtc_l; [by apply (B_pop s i None y)|]. by apply (IH (main_popped i s y None)).
Qed.

Lemma lift_bye s a b x :
  calls (ff_push a) (ping s) b x -> mpc s = M_bye -> farewell = Some a -> rtc step s (main_to M_join x s).
Proof.
  intros H. remember (ping s) as p eqn:Ep. revert s Ep. induction H as [p r y Hs|p y r z Hs _ IH]; intros s -> Hm Hf.
  - apply rtc_once. by apply (B_bye s a (Some r) y).
  - eapply rtc_l; [by apply (B_bye s a None y)|]. by apply (IH (main_to M_bye y s)).
Qed.

Lemma lift_take s o x : calls ff_pop (ping s) o x -> epc s = E_pop -> rtc step s (echo_popped s x (Some o)).
Proof.
  intros H. remember (ping s) as p eqn:Ep. revert s Ep. induction H as [p r y Hs|p y r z Hs _ IH]; intros s -> He.
  - apply rtc_once. by constructor.
  - eapply rtc_l; [by apply (B_take s None y)|]. by apply (IH (echo_popped s y None)).
Qed.

Lemma lift_answer s a b x : calls (ff_push a) (pong s) b x -> epc s = E_push a -> rtc step s (echo_pushed a s x (Some b)).
Proof.
  intros H. remember (pong s) as p eqn:Ep. revert s Ep. induction H as [p r y Hs|p y r z Hs _ IH]; intros s -> He.
  - apply rtc_once. by constructor.
  - eapply rtc_l; [by apply (B_answer s a None y)|]. by apply (IH (echo_pushed a s y None)).
Qed.

(** The answering thread completes its push. *)
Lemma answer_completes reserved s a :
  Inv reserved s -> epc s = E_push a -> exists x, rtc step s (echo_pushed a s x (Some true)).
Proof using L.
  intros HI He. pose proof (i_call _ _ HI) as Hc. rewrite He in Hc. destruct Hc as [Hf Hc].
  destruct (fl_push_returns a (pong s) (i_pong _ _ HI) Hf Hc) as (b & x & Hx). exists x.
  assert (b = true) as -> by (eapply calls_push_true; [done|apply HI|done|by eapply echo_room]). by apply lift_answer.
Qed.

Lemma rtc_inv reserved s s' : rtc step s s' -> Inv reserved s -> Inv reserved s'.
Proof using L Hreq Hrep Hbye Hstop. induction 1; eauto using bench_step_inv. Qed.

(** An answer that is in the queue is received. *)
Lemma receive_completes reserved s i :
  Inv reserved s -> mpc s = M_pop i -> ff_popped (pong s) <> ff_pushed (pong s) -> exists s', rtc step s s' /\ mpc s' = M_push (S i).
Proof using L.
  intros HI Hm Hne. destruct (fl_pop_returns (pong s) (i_pong _ _ HI)) as (o & x & Hx).
  destruct (calls_pop_some _ _ _ Hx (i_pong _ _ HI) Hne) as [v ->]. eexists. split; [by eapply lift_pop|done].
Qed.

Lemma answered_completes reserved s i a :
  Inv reserved s -> mpc s = M_pop i -> epc s = E_push a -> exists s', rtc step s s' /\ mpc s' = M_push (S i).
Proof using L Hreq Hrep Hbye Hstop.
  intros HI Hm He. destruct (answer_completes reserved s a HI He) as [x Hr]. pose proof (rtc_inv _ _ _ Hr HI) as HI'.
  destruct (receive_completes reserved _ i HI') as (s' & Hr' & Hm'); [done| |exists s'; split; [by etrans|done]].
  pose proof (i_phase _ _ HI') as Hp. unfold phase in Hp. fields. rewrite Hm in Hp. destruct Hp as (_ & _ & _ & Hre & HA & _).
  pose proof (i_replies _ _ HI') as Ho. fields. rewrite Ho, Hre.
  pose proof (i_phase _ _ HI) as Hp. unfold phase in Hp. rewrite Hm in Hp. destruct Hp as (_ & _ & _ & _ & HA0 & _).
  destruct HA0 as [(_ & _ & _ & Hq)|[(_ & _ & E & _)|(_ & _ & _ & Hq)]]; [by rewrite He in Hq| |by rewrite He in Hq].
  destruct HA as [(_ & _ & E' & _)|[(_ & _ & E' & _)|(_ & E' & _)]]; fields; [lia|lia|]. rewrite E'. apply snoc_neq.
Qed.

(** A request that is in the queue is answered and the answer received. *)
Lemma taking_completes reserved s i :
  Inv reserved s -> mpc s = M_pop i -> epc s = E_pop -> ff_popped (ping s) <> ff_pushed (ping s) ->
  exists s', rtc step s s' /\ mpc s' = M_push (S i).
Proof using L Hreq Hrep Hbye Hstop.
  intros HI Hm He Hne. destruct (fl_pop_returns (ping s) (i_ping _ _ HI)) as (o & x & Hx).
  destruct (calls_pop_some _ _ _ Hx (i_ping _ _ HI) Hne) as [v ->].
  pose proof (lift_take _ _ _ Hx He) as Hr. pose proof (rtc_inv _ _ _ Hr HI) as HI2.
  destruct (answered_completes reserved _ i (reply v) HI2) as (s' & Hr' & Hm'); [done|done|].
  exists s'. split; [by etrans|done].
Qed.

(** One round trip. *)
Lemma round_completes reserved s i : Inv reserved s -> mpc s = M_pop i -> exists s', rtc step s s' /\ mpc s' = M_push (S i).
Proof using L Hreq Hrep Hbye Hstop.
  intros HI Hm. pose proof (i_phase _ _ HI) as Hp. unfold phase in Hp. rewrite Hm in Hp.
  destruct Hp as (Hlt & Hd & Hpu & Hre & HA & _).
  destruct HA as [(R1 & R2 & R3 & R4)|[(_ & _ & _ & E)|(_ & E & _)]].
  2: by eapply answered_completes.
  2: { apply (receive_completes reserved); [done|done|]. rewrite (i_replies _ _ HI), Hre, E. apply snoc_neq. }
  assert (Hne : ff_popped (ping s) <> ff_pushed (ping s)) by (rewrite R1, Hpu; apply snoc_neq).
  destruct (epc s) as [| |a|] eqn:He; [|by apply (taking_completes reserved)|done|].
  - assert (stop (echoed s) (done s) = false) as Hst.
    { rewrite Hd. destruct (stop _ _) eqn:Hst; [|done]. apply Hstop in Hst. lia. }
    pose proof (B_test s He) as Hs. pose proof (bench_step_inv _ _ _ HI Hs) as HI'.
    destruct (taking_completes reserved _ i HI') as (s' & Hr & Hm'); [done|cbn; by rewrite Hst|done|].
    exists s'. split; [by eapply rtc_l|done].
  - destruct (i_exit _ _ HI He) as [?|Hn]; [congruence|lia].
Qed.

Context (Hleave : forall n, (ROUNDTRIPS <= n)%nat -> stop n true = true).

(** The answering thread leaves its loop. *)
Lemma test_leaves reserved s : Inv reserved s -> mpc s = M_join -> epc s = E_test -> exists s', rtc step s s' /\ mpc s' = M_end.
Proof using Hleave.
  intros HI Hm He. pose proof (i_phase _ _ HI) as Hp. unfold phase in Hp. rewrite Hm in Hp. destruct Hp as (Hd & _ & Hp).
  assert (ROUNDTRIPS <= echoed s)%nat as Hn.
  { clear -Hp. destruct farewell as [a|]; destruct Hp as [_ Hp]; [|destruct Hp as (_ & _ & -> & _); lia].
    destruct Hp as [(_ & _ & -> & _)|[(_ & _ & -> & _)|(_ & _ & -> & _)]]; lia. }
  exists (main_to M_end (ping (echo_tested s)) (echo_tested s)). split; [|done].
  eapply rtc_l; [by apply B_test|]. apply rtc_once. apply B_join; [done|]. cbn. by rewrite Hd, Hleave.
Qed.

Lemma push_leaves reserved s a : Inv reserved s -> mpc s = M_join -> epc s = E_push a -> exists s', rtc step s s' /\ mpc s' = M_end.
Proof using L Hreq Hrep Hbye Hstop Hleave.
  intros HI Hm He. destruct (answer_completes reserved s a HI He) as [x Hr].
  destruct (test_leaves reserved _ (rtc_inv _ _ _ Hr HI)) as (s' & Hr' & Hm'); [done|done|]. exists s'. split; [by etrans|done].
Qed.

Lemma join_completes reserved s : Inv reserved s -> mpc s = M_join -> exists s', rtc step s s' /\ mpc s' = M_end.
Proof using L Hreq Hrep Hbye Hstop Hleave.
  intros HI Hm. destruct (epc s) as [| |a|] eqn:He.
  - by apply (test_leaves reserved).
  - destruct (fl_pop_returns (ping s) (i_ping _ _ HI)) as (o & x & Hx).
    pose proof (lift_take _ _ _ Hx He) as Hr. pose proof (rtc_inv _ _ _ Hr HI) as HI2.
    destruct o as [v|]; [destruct (push_leaves reserved _ (reply v) HI2) as (s' & ? & ?)|destruct (test_leaves reserved _ HI2) as (s' & ? & ?)];
      try done; exists s'; (split; [by etrans|done]).
  - by apply (push_leaves reserved s a).
  - eexists. split; [apply rtc_once; by apply B_join|done].
Qed.

Lemma bye_completes reserved s : Inv reserved s -> mpc s = M_bye -> exists s', rtc step s s' /\ mpc s' = M_end.
Proof using L Hreq Hrep Hbye Hstop Hleave.
  intros HI Hm. pose proof (i_phase _ _ HI) as Hp. unfold phase in Hp. rewrite Hm in Hp. destruct Hp as (_ & _ & _ & _ & Hc).
  assert (exists x, rtc step s (main_to M_join x s)) as [x Hr].
  { pose proof (Hbye) as Hb. destruct farewell as [a|] eqn:Hf.
    - destruct (fl_push_returns a (ping s)) as (b & x & Hx); [apply HI|by apply (Hb a)|by apply Hc|].
      exists x. rewrite <- Hf in *. by eapply lift_bye.
    - exists (ping s). apply rtc_once. by apply B_no_bye. }
  destruct (join_completes reserved _ (rtc_inv _ _ _ Hr HI)) as (s' & Hr' & Hm'); [done|]. exists s'. split; [by etrans|done].
Qed.

Lemma push_completes reserved n : forall s i, Inv reserved s -> mpc s = M_push i -> (ROUNDTRIPS - i = n)%nat -> exists s', rtc step s s' /\ mpc s' = M_end.
Proof using L Hreq Hrep Hbye Hstop Hleave.
  induction n as [|n IH]; intros s i HI Hm Hn; pose proof (i_phase _ _ HI) as Hp; unfold phase in Hp; rewrite Hm in Hp;
    destruct Hp as (Hle & _ & Hpu & _ & (R1 & _) & Hc & _).
  - assert (i = ROUNDTRIPS) as -> by lia. pose proof (B_done s Hm) as Hs.
    destruct (bye_completes reserved _ (bench_step_inv _ _ _ HI Hs)) as (s' & Hr & Hm'); [done|]. exists s'. split; [by eapply rtc_l|done].
  - destruct (fl_push_returns (request i) (ping s)) as (b & x & Hx); [apply HI|done|apply Hc; lia|].
    assert (b = true) as -> by (eapply calls_push_true; [done|apply HI|done|congruence]).
    pose proof (lift_push s i true x Hx Hm ltac:(lia)) as Hr1. pose proof (rtc_inv _ _ _ Hr1 HI) as HI1.
    destruct (round_completes reserved _ i HI1) as (s2 & Hr2 & Hm2); [done|]. pose proof (rtc_inv _ _ _ Hr2 HI1) as HI2.
    destruct (IH s2 (S i) HI2 Hm2) as (s' & Hr & Hm'); [lia|]. exists s'. split; [by do 2 etrans|done].
Qed.

Lemma can_finish reserved s : Inv reserved s -> exists s', rtc step s s' /\ mpc s' = M_end.
Proof using L Hreq Hrep Hbye Hstop Hleave.
  intros HI. destruct (mpc s) as [i|i| | |] eqn:Hm.
  - by apply (push_completes reserved (ROUNDTRIPS - i) s i).
  - destruct (round_completes reserved s i HI Hm) as (s1 & Hr & Hm1).
    destruct (push_completes reserved (ROUNDTRIPS - S i) s1 (S i) (rtc_inv _ _ _ Hr HI) Hm1 eq_refl) as (s' & ? & ?).
    exists s'. split; [by etrans|done].
  - by apply (bye_completes reserved).
  - by apply (join_completes reserved).
  - by exists s.
Qed.

(** What a run of the program does, at any point of it. *)
Lemma bench_correct p q s :
  fresh p -> fresh q -> rtc step (start p q ROUNDTRIPS) s ->
  replies s = answers (length (replies s)) /\
  Latency.samples_ (tracker s) = latencies (length (replies s)) /\
  (forall i x, mpc s = M_push i -> ~ ff_push (request i) (ping s) (Some false) x) /\
  (forall a x, epc s = E_push a -> ~ ff_push a (pong s) (Some false) x) /\
  (mpc s = M_end -> length (replies s) = ROUNDTRIPS) /\
  exists s', rtc step s s' /\ mpc s' = M_end.
Proof using L Hreq Hrep Hbye Hstop Hleave.
  intros Hp Hq Hr. pose proof (bench_reachable_inv _ _ _ _ Hp Hq Hr) as HI. destruct (replies_answers _ _ HI) as (E & Hle & Hend).
  destruct (i_tracker _ _ HI) as [_ Ht]. split_and!; [done| | | |done|by eapply can_finish].
  - rewrite Ht, take_ge; [done|]. unfold latencies. rewrite length_fmap, length_seq. done.
  - intros i x. by apply (main_never_fails _ _ _ _ HI).
  - intros a x. by apply (echo_never_fails _ _ _ _ HI).
Qed.
End bench.
End PingPong.
