(* ===== verification/QueueFifo.v ===== *)
(** * The queues behind the programs

    [SPSCQueue], [ShmIpcBus] and [ShmMarketFeed] implement the interface of
    PingPong.v: the steps of their calls are those of their own step relations,
    labelled with the result of the call. *)

From S2P Require Import Prelude Ring Spsc ShmBus OrderBook MarketFeed PingPong.

#[local] Open Scope Z_scope.
#[local] Open Scope cpp_scope.

Module Queues.

Import PingPong.

(** ** The lock-free queue *)

Section spsc.
Import Spsc.
Context {T : Type} (Capacity : Z).

Inductive spsc_push : T -> cfg T -> option bool -> cfg T -> Prop :=
| sp_call v s c ps qs : spsc_push v (mkc s P_idle c ps qs) None (mkc s (P_loaded v (tail_ s)) c ps qs)
| sp_full v s s' c tl ps qs :
    emplace_check Capacity tl s = (false, s') -> spsc_push v (mkc s (P_loaded v tl) c ps qs) (Some false) (mkc s' P_idle c ps qs)
| sp_room v s s' c tl ps qs :
    emplace_check Capacity tl s = (true, s') -> spsc_push v (mkc s (P_loaded v tl) c ps qs) None (mkc s' (P_ready v tl) c ps qs)
| sp_construct v s c tl ps qs :
    spsc_push v (mkc s (P_ready v tl) c ps qs) None (mkc (emplace_construct Capacity v tl s) (P_written v tl) c ps qs)
| sp_publish v s c tl ps qs :
    spsc_push v (mkc s (P_written v tl) c ps qs) (Some true) (mkc (emplace_publish tl s) P_idle c (ps ++ [v]) qs).

Inductive spsc_pop : cfg T -> option (option T) -> cfg T -> Prop :=
| so_call s p ps qs : spsc_pop (mkc s p C_idle ps qs) None (mkc s p (C_loaded (head_ s)) ps qs)
| so_empty s s' p h ps qs :
    pop_check h s = (false, s') -> spsc_pop (mkc s p (C_loaded h) ps qs) (Some None) (mkc s' p C_idle ps qs)
| so_avail s s' p h ps qs :
    pop_check h s = (true, s') -> spsc_pop (mkc s p (C_loaded h) ps qs) None (mkc s' p (C_ready h) ps qs)
| so_take s s' p h v ps qs :
    pop_take Capacity h s = (Some v, s') -> spsc_pop (mkc s p (C_ready h) ps qs) None (mkc s' p (C_taken h v) ps qs)
| so_release s p h v ps qs :
    spsc_pop (mkc s p (C_taken h v) ps qs) (Some (Some v)) (mkc (pop_publish h s) p C_idle ps (qs ++ [v])).

Definition spsc_calling (a : T) (x : cfg T) : Prop :=
  match pp x with P_idle => True | P_loaded v _ | P_ready v _ | P_written v _ => v = a end.

Definition spsc_fifo_ops : Fifo (cfg T) T :=
  {| ff_pushed := pushed; ff_popped := popped; ff_push := spsc_push; ff_pop := spsc_pop; ff_calling := spsc_calling |}.

(** The labelled steps are those of the queue. *)
Lemma spsc_push_step v x r y : spsc_push v x r y -> Spsc.step Capacity x y.
Proof. destruct 1; by econstructor. Qed.

Lemma spsc_pop_step x r y : spsc_pop x r y -> Spsc.step Capacity x y.
Proof. destruct 1; by econstructor. Qed.
End spsc.

Section spsc_laws.
Import Spsc.
Context {T : Type} (k : Z) (Hk : 0 <= k < 64).

Definition spsc_wf (x : cfg T) : Prop := exists nh nt, Spsc.Inv k x nh nt.

Lemma spsc_push_returns (a : T) x : spsc_calling a x -> exists b y, calls (spsc_push (2 ^ k) a) x b y.
Proof.
  destruct x as [s p c ps qs]. unfold spsc_calling. cbn.
  assert (W : forall s tl, exists b y, calls (spsc_push (2 ^ k) a) (mkc s (P_written a tl) c ps qs) b y).
  { intros. do 2 eexists. apply calls_ret, sp_publish. }
  assert (R : forall s tl, exists b y, calls (spsc_push (2 ^ k) a) (mkc s (P_ready a tl) c ps qs) b y).
  { intros s0 tl. destruct (W (emplace_construct (2 ^ k) a tl s0) tl) as (b & y & H). exists b, y. eapply calls_more; [apply sp_construct|done]. }
  assert (D : forall s tl, exists b y, calls (spsc_push (2 ^ k) a) (mkc s (P_loaded a tl) c ps qs) b y).
  { intros s0 tl. destruct (emplace_check (2 ^ k) tl s0) as [[] s'] eqn:E.
    - destruct (R s' tl) as (b & y & H). exists b, y. eapply calls_more; [by apply sp_room|done].
    - do 2 eexists. apply calls_ret. by apply sp_full. }
  destruct p as [|v tl|v tl|v tl]; [|intros ->..]; [|apply D|apply R|apply W].
  intros _. destruct (D s (tail_ s)) as (b & y & H). exists b, y. eapply calls_more; [apply sp_call|done].
Qed.

Lemma spsc_pop_returns x : spsc_wf x -> exists o y, calls (spsc_pop (2 ^ k)) x o y.
Proof using Hk.
  destruct x as [s p c ps qs]. intros (nh & nt & HI).
  assert (K : forall s h v, exists o y, calls (spsc_pop (2 ^ k)) (mkc s p (C_taken h v) ps qs) o y).
  { intros. do 2 eexists. apply calls_ret, so_release. }
  assert (R : forall s h nh nt, Spsc.Inv k (mkc s p (C_ready h) ps qs) nh nt ->
    exists o y, calls (spsc_pop (2 ^ k)) (mkc s p (C_ready h) ps qs) o y).
  { intros s0 h n m H0. destruct (pop_take_spec k Hk _ _ _ _ _ _ _ H0) as (v & s' & E & _).
    destruct (K s' h v) as (o & y & H). exists o, y. eapply calls_more; [by apply so_take|done]. }
  assert (D : forall s h nh nt, Spsc.Inv k (mkc s p (C_loaded h) ps qs) nh nt ->
    exists o y, calls (spsc_pop (2 ^ k)) (mkc s p (C_loaded h) ps qs) o y).
  { intros s0 h n m H0. destruct (pop_check h s0) as [b s'] eqn:E.
    destruct (pop_check_spec k Hk _ _ _ _ _ _ _ _ _ H0 E) as (m' & H1 & _). destruct b.
    - destruct (R s' h _ _ H1) as (o & y & H). exists o, y. eapply calls_more; [by apply so_avail|done].
    - do 2 eexists. apply calls_ret. by apply so_empty. }
  destruct c as [|h|h|h v]; [|by eapply D|by eapply R|apply K].
  destruct (step_inv k Hk _ _ _ _ (st_pop _ s p ps qs) HI) as (n & m & H0).
  destruct (D s (head_ s) n m H0) as (o & y & H). exists o, y. eapply calls_more; [apply so_call|done].
Qed.

Lemma spsc_fifo_laws : FifoLaws (spsc_fifo_ops (T := T) (2 ^ k)) (2 ^ k) (fun _ => True) spsc_wf.
Proof using Hk.
  split; cbn.
  - apply (cap_pos k Hk).
  - intros x (nh & nt & HI). rewrite (inv_fifo _ _ _ _ HI). apply prefix_take.
  - intros a x r y (nh & nt & HI) _ Hs. split; [apply (step_inv k Hk _ _ _ _ (spsc_push_step _ _ _ _ _ Hs) HI)|].
    destruct Hs; cbn; by split_and!.
  - intros a x y (nh & nt & HI) Hs. inversion Hs as [|? s s' c tl ps qs E| | |]; subst.
    by destruct (emplace_check_spec k Hk _ _ _ _ _ _ _ _ _ _ HI E) as (_ & _ & H); apply H.
  - intros x r y (nh & nt & HI) Hs. split; [apply (step_inv k Hk _ _ _ _ (spsc_pop_step _ _ _ _ Hs) HI)|]. destruct Hs; cbn; by split_and!.
  - intros x y (nh & nt & HI) Hs. inversion Hs as [|s s' p h ps qs E| | |]; subst.
    destruct (pop_check_spec k Hk _ _ _ _ _ _ _ _ _ HI E) as (_ & _ & H). symmetry. by apply H.
  - intros a x _ _. apply spsc_push_returns.
  - apply spsc_pop_returns.
Qed.
End spsc_laws.

(** ** The rings in shared memory *)

Section ring.
Context {Q M S : Type} {R : RingQueue Q M S}.

(** What a receiver reads out of a slot, and what a sender means by a message. *)
Context (content : S -> M) (truncate : M -> M).
Abbreviation ringcfg := (rcfg Q M S).

Inductive ring_push : M -> ringcfg -> option bool -> ringcfg -> Prop :=
| bp_call m q c ps qs : ring_push m (mkr q RP_idle c ps qs) None (mkr q (RP_loaded m (rq_w q)) c ps qs)
| bp_full m q c w ps qs :
    rq_full w (rq_r q) q = true -> ring_push m (mkr q (RP_loaded m w) c ps qs) (Some false) (mkr q RP_idle c ps qs)
| bp_room m q c w ps qs :
    rq_full w (rq_r q) q = false -> ring_push m (mkr q (RP_loaded m w) c ps qs) None (mkr q (RP_ready m w) c ps qs)
| bp_write m q c w ps qs :
    ring_push m (mkr q (RP_ready m w) c ps qs) None (mkr (rq_write m w q) (RP_written m w) c ps qs)
| bp_publish m q c w x ps qs :
    rq_read w q = Some x ->
    ring_push m (mkr q (RP_written m w) c ps qs) (Some true) (mkr (rq_publish w q) RP_idle c (ps ++ [(m, x)]) qs).

Inductive ring_pop : ringcfg -> option (option M) -> ringcfg -> Prop :=
| bc_call q p ps qs : ring_pop (mkr q p RC_idle ps qs) None (mkr q p (RC_loaded (rq_r q)) ps qs)
| bc_empty q p r ps qs :
    (r =? rq_w q) = true -> ring_pop (mkr q p (RC_loaded r) ps qs) (Some None) (mkr q p RC_idle ps qs)
| bc_avail q p r ps qs :
    (r =? rq_w q) = false -> ring_pop (mkr q p (RC_loaded r) ps qs) None (mkr q p (RC_ready r) ps qs)
| bc_read q p r x ps qs :
    rq_read r q = Some x -> ring_pop (mkr q p (RC_ready r) ps qs) None (mkr q p (RC_read r x) ps qs)
| bc_release q p r x ps qs :
    ring_pop (mkr q p (RC_read r x) ps qs) (Some (Some (content x))) (mkr (rq_release r q) p RC_idle ps (qs ++ [x])).

Definition ring_calling (m : M) (x : ringcfg) : Prop :=
  match rp x with RP_idle => True | RP_loaded v _ | RP_ready v _ | RP_written v _ => v = m end.

Definition ring_fifo_ops : Fifo ringcfg M :=
  {| ff_pushed x := truncate ∘ fst <$> sent x; ff_popped x := content <$> received x;
     ff_push := ring_push; ff_pop := ring_pop; ff_calling := ring_calling |}.

Lemma ring_push_step m x r y : ring_push m x r y -> ring_step x y.
Proof. destruct 1; by econstructor. Qed.

Lemma ring_pop_step x r y : ring_pop x r y -> ring_step x y.
Proof. destruct 1; by econstructor. Qed.

Context (k : Z) (ok : Q -> Prop) {L : RingLaws R k ok} (Hput : forall m old, content (rq_put m old) = truncate m).

Definition ring_fits (m : M) : Prop := truncate m = m.
Definition ring_wf (x : ringcfg) : Prop := RInv k ok x.

(** The slots hold what was published, up to the payload limit. *)
Lemma sent_content x : ring_wf x -> content <$> (sent x).*2 = truncate ∘ fst <$> sent x.
Proof.
  intros HI. rewrite <- list_fmap_compose. apply list_fmap_ext. intros i [m y] Hi%list_elem_of_lookup_2.
  destruct (rinv_put _ _ _ HI _ _ Hi) as [old ->]. apply Hput.
Qed.

Lemma ring_step_wf x y : ring_step x y -> ring_wf x -> ring_wf y.
Proof using L Hput. apply ring_step_inv, _. Qed.

Lemma ring_push_returns m x : ring_wf x -> ring_calling m x -> exists b y, calls (ring_push m) x b y.
Proof using L Hput.
  destruct x as [q p c ps qs]. intros HI. unfold ring_calling. cbn.
  assert (W : forall q w, ring_wf (mkr q (RP_written m w) c ps qs) -> exists b y, calls (ring_push m) (mkr q (RP_written m w) c ps qs) b y).
  { intros q0 w H0. destruct (rinv_p _ _ _ H0) as (_ & _ & old & Ho). do 2 eexists. eapply calls_ret, bp_publish.
    rewrite (rl_read q0 w (rinv_ok _ _ _ H0)). exact Ho. }
  assert (Y : forall q w, ring_wf (mkr q (RP_ready m w) c ps qs) -> exists b y, calls (ring_push m) (mkr q (RP_ready m w) c ps qs) b y).
  { intros q0 w H0. destruct (W (rq_write m w q0) w) as (b & y & H); [eapply ring_step_wf; [apply rs_write|done]|].
    exists b, y. eapply calls_more; [apply bp_write|done]. }
  assert (D : forall q w, ring_wf (mkr q (RP_loaded m w) c ps qs) -> exists b y, calls (ring_push m) (mkr q (RP_loaded m w) c ps qs) b y).
  { intros q0 w H0. destruct (rq_full w (rq_r q0) q0) eqn:E; [do 2 eexists; by apply calls_ret, bp_full|].
    destruct (Y q0 w) as (b & y & H); [eapply ring_step_wf; [by apply rs_room|done]|].
    exists b, y. eapply calls_more; [by apply bp_room|done]. }
  destruct p as [|v w|v w|v w]; [|intros ->..]; [|by apply D|by apply Y|by apply W].
  intros _. destruct (D q (rq_w q)) as (b & y & H); [eapply ring_step_wf; [apply rs_call|done]|].
  exists b, y. eapply calls_more; [apply bp_call|done].
Qed.

Lemma ring_pop_returns x : ring_wf x -> exists o y, calls ring_pop x o y.
Proof using L Hput.
  destruct x as [q p c ps qs]. intros HI.
  assert (K : forall r x, exists o y, calls ring_pop (mkr q p (RC_read r x) ps qs) o y).
  { intros. do 2 eexists. apply calls_ret, bc_release. }
  assert (Y : forall r, ring_wf (mkr q p (RC_ready r) ps qs) -> exists o y, calls ring_pop (mkr q p (RC_ready r) ps qs) o y).
  { intros r H0. destruct (rinv_c _ _ _ H0) as [-> Hav]. pose proof (rinv_ring _ _ _ H0) as HR. cbn [rq received sent] in *.
    destruct (ring_slot_is_Some k ok _ _ _ _ _ _ (Z.of_nat (length qs)) HR) as [v Hv].
    rewrite <- (ring_r _ _ _ _ _ _ _ HR), <- (rl_read q (rq_r q) (rinv_ok _ _ _ H0)) in Hv.
    destruct (K (rq_r q) v) as (o & y & H). exists o, y. eapply calls_more; [by apply bc_read|done]. }
  assert (D : forall r, ring_wf (mkr q p (RC_loaded r) ps qs) -> exists o y, calls ring_pop (mkr q p (RC_loaded r) ps qs) o y).
  { intros r H0. destruct (r =? rq_w q) eqn:E; [do 2 eexists; by apply calls_ret, bc_empty|].
    destruct (Y r) as (o & y & H); [eapply ring_step_wf; [by apply rs_avail|done]|].
    exists o, y. eapply calls_more; [by apply bc_avail|done]. }
  destruct c as [|r|r|r v]; [|by apply D|by apply Y|apply K].
  destruct (D (rq_r q)) as (o & y & H); [eapply ring_step_wf; [apply rs_consume|done]|].
  exists o, y. eapply calls_more; [apply bc_call|done].
Qed.

Lemma ring_fifo_laws : FifoLaws ring_fifo_ops (2 ^ k) ring_fits ring_wf.
Proof using L Hput.
  split; cbn.
  - apply (cap_pos k rl_k).
  - intros x HI. rewrite <- sent_content by done. rewrite (rinv_fifo _ _ _ HI), (fmap_take content). apply prefix_take.
  - intros a x r y HI Hf Hs. split; [by eapply ring_step_wf; [eapply ring_push_step|]|].
    destruct Hs; cbn; split_and!; try done. rewrite fmap_app. cbn. by rewrite Hf.
  - intros a x y HI Hs. inversion Hs as [|m q c w ps qs E| | |]; subst. rewrite !length_fmap.
    pose proof (rinv_p _ _ _ HI) as Hp. cbn [rp rq rp_ok] in Hp. subst w. rewrite (ring_test_full k ok _ _ _ _ _ HI) in E.
    by apply bool_decide_eq_true in E.
  - intros x r y HI Hs. split; [by eapply ring_step_wf; [eapply ring_pop_step|]|].
    destruct Hs; cbn; split_and!; try done. by rewrite fmap_app.
  - intros x y HI Hs. inversion Hs as [|q p r ps qs E| | |]; subst. rewrite <- sent_content by done. f_equal.
    pose proof (rinv_c _ _ _ HI) as Hp. cbn [rc rq rc_ok] in Hp. subst r. rewrite (ring_test_empty k ok _ _ _ _ _ HI) in E.
    apply bool_decide_eq_true in E. rewrite (rinv_fifo _ _ _ HI). cbn. by rewrite E, <- (length_fmap snd ps), firstn_all.
  - intros a x HI _. by apply ring_push_returns.
  - apply ring_pop_returns.
Qed.
End ring.


(** ** Instances *)

Definition bus_fifo_ops : Fifo (rcfg Ipc.t Ipc.msg_args Ipc.IpcMessage) Ipc.msg_args := ring_fifo_ops (R := Ipc.ipc_ring) Ipc.content Ipc.truncate.
Definition feed_fifo_ops : Fifo (rcfg Feed.t Feed.MarketEvent Feed.MarketEvent) Feed.MarketEvent := ring_fifo_ops (R := Feed.feed_ring) id id.

Definition bus_wf (k : Z) : rcfg Ipc.t Ipc.msg_args Ipc.IpcMessage -> Prop := ring_wf (R := Ipc.ipc_ring) k (Ipc.pow2_bus k).
Definition feed_wf (k : Z) : rcfg Feed.t Feed.MarketEvent Feed.MarketEvent -> Prop := ring_wf (R := Feed.feed_ring) k (Feed.pow2_feed k).

Lemma bus_fifo_laws k : 0 <= k < 64 -> FifoLaws bus_fifo_ops (2 ^ k) (ring_fits Ipc.truncate) (bus_wf k).
Proof. intros Hk. pose proof (Ipc.ipc_laws k Hk). apply ring_fifo_laws; [done|apply Ipc.content_fill]. Qed.

Lemma feed_fifo_laws k : 0 <= k < 64 -> FifoLaws feed_fifo_ops (2 ^ k) (ring_fits id) (feed_wf k).
Proof. intros Hk. pose proof (Feed.feed_laws k Hk). by apply ring_fifo_laws. Qed.

Lemma spsc_init_fresh k : 0 <= k < 64 -> fresh (F := spsc_fifo_ops (T := Z) (2 ^ k)) (spsc_wf k) (Spsc.init (2 ^ k)).
Proof. intros Hk. split; [|done]. exists 0%nat, 0%nat. by apply Spsc.spsc_inv_init. Qed.

Lemma bus_init_fresh k s :
  0 <= k < 57 -> Ipc.create true true true (2 ^ k) = inr s -> fresh (F := bus_fifo_ops) (bus_wf k) (rinit s).
Proof. intros Hk Hc. split; [|done]. apply Ipc.ipc_create_slots in Hc as ->; [|by apply Ipc.ipc_pow2_small]. pose proof (Ipc.ipc_laws k ltac:(lia)). by eapply rinv_init. Qed.

Lemma feed_init_fresh k bg s :
  0 <= k < 58 -> Feed.create true true true bg (2 ^ k) = inr s -> fresh (F := feed_fifo_ops) (feed_wf k) (rinit s).
Proof. intros Hk Hc. split; [|done]. apply Feed.feed_create_slots in Hc as ->; [|by apply Feed.feed_pow2_small]. pose proof (Feed.feed_laws k ltac:(lia)). by eapply rinv_init. Qed.
End Queues.
