(* ===== verification/Stream.v ===== *)
(** * A producer and a consumer

    One thread pushes the items [1 .. TOTAL_MSGS] of a sequence, spinning while
    the queue is full; another pops them and handles each.  A third waits for
    both.  The throughput program of bench_lockfree_queues.cpp and the exchange
    and engine processes of bench_tick_to_trade.cpp have this form. *)

From S2P Require Import Prelude Ring PingPong.

#[local] Open Scope Z_scope.
#[local] Open Scope cpp_scope.

Module Stream.

Import PingPong.

Inductive producer_pc := TP_wait | TP_loop (i : nat) | TP_exit.
Inductive consumer_pc {C} := TC_wait | TC_loop (count : nat) (acc : C) | TC_exit (acc : C).
Arguments consumer_pc : clear implicits.
Inductive joiner_pc := TJ_store | TJ_producer | TJ_consumer | TJ_end.

Section stream.
Context {X A C : Type} {F : Fifo X A} (TOTAL_MSGS : nat).

(** The items, what the consumer knows at the beginning and what it does with
    item number [count + 1], and the cycle counter before and after its loop. *)
Context (item : nat -> A) (c0 : C) (on : nat -> C -> A -> C) (start_cycles end_cycles : Z).

Record run := mk_run { queue : X; start_flag : bool; producer : producer_pc; consumer : consumer_pc C; joiner : joiner_pc; t0 : Z; t1 : Z }.

Definition produced (i : nat) (s : run) (x : X) (r : option bool) : run :=
  mk_run x (start_flag s) (match r with Some true => TP_loop (S i) | _ => TP_loop i end) (consumer s) (joiner s) (t0 s) (t1 s).

Definition produce_to (p : producer_pc) (s : run) : run :=
  mk_run (queue s) (start_flag s) p (consumer s) (joiner s) (t0 s) (t1 s).

Definition consume_start (s : run) : run :=
  mk_run (queue s) (start_flag s) (producer s) (TC_loop 0 c0) (joiner s) start_cycles (t1 s).

Definition consumed (count : nat) (acc : C) (s : run) (x : X) (r : option (option A)) : run :=
  mk_run x (start_flag s) (producer s)
    (match r with Some (Some v) => TC_loop (S count) (on count acc v) | _ => TC_loop count acc end) (joiner s) (t0 s) (t1 s).

Definition consume_end (acc : C) (s : run) : run :=
  mk_run (queue s) (start_flag s) (producer s) (TC_exit acc) (joiner s) (t0 s) end_cycles.

Definition join_to (f : bool) (j : joiner_pc) (s : run) : run :=
  mk_run (queue s) f (producer s) (consumer s) j (t0 s) (t1 s).

Inductive run_step : run -> run -> Prop :=
| T_go s : producer s = TP_wait -> start_flag s = true -> run_step s (produce_to (TP_loop 1) s)
| T_push s i r x :
    producer s = TP_loop i -> (i <= TOTAL_MSGS)%nat -> ff_push (item i) (queue s) r x -> run_step s (produced i s x r)
| T_pushed s : producer s = TP_loop (S TOTAL_MSGS) -> run_step s (produce_to TP_exit s)
| T_begin s : consumer s = TC_wait -> start_flag s = true -> run_step s (consume_start s)
| T_pop s count acc r x :
    consumer s = TC_loop count acc -> (count < TOTAL_MSGS)%nat -> ff_pop (queue s) r x -> run_step s (consumed count acc s x r)
| T_popped s acc : consumer s = TC_loop TOTAL_MSGS acc -> run_step s (consume_end acc s)
| T_store s : joiner s = TJ_store -> run_step s (join_to true TJ_producer s)
| T_joined_p s : joiner s = TJ_producer -> producer s = TP_exit -> run_step s (join_to (start_flag s) TJ_consumer s)
| T_joined_c s acc : joiner s = TJ_consumer -> consumer s = TC_exit acc -> run_step s (join_to (start_flag s) TJ_end s).

(** Threads that wait for [start_flag], and processes that start at once. *)
Definition run_start (x : X) : run := mk_run x false TP_wait TC_wait TJ_store 0 0.
Definition run_forked (x : X) : run := mk_run x true TP_wait TC_wait TJ_producer 0 0.

(** The first items, and what the consumer knows after them. *)
Definition items (n : nat) : list A := item <$> seq 1 n.
Definition handled (n : nat) : C := foldl (fun acc i => on i acc (item (S i))) c0 (seq 0 n).

Context (cap : Z) (fits : A -> Prop) (wf : X -> Prop) {L : FifoLaws F cap fits wf} (Hfits : forall i, fits (item i)).

Definition producing (s : run) : Prop :=
  match producer s with
  | TP_wait => ff_pushed (queue s) = [] /\ (forall a, ff_calling a (queue s))
  | TP_loop i =>
      start_flag s = true /\ (1 <= i <= S TOTAL_MSGS)%nat /\ ff_pushed (queue s) = items (i - 1) /\
      ((i <= TOTAL_MSGS)%nat -> ff_calling (item i) (queue s))
  | TP_exit => start_flag s = true /\ ff_pushed (queue s) = items TOTAL_MSGS
  end.

Definition consuming (s : run) : Prop :=
  match consumer s with
  | TC_wait => ff_popped (queue s) = []
  | TC_loop count acc =>
      start_flag s = true /\ (count <= TOTAL_MSGS)%nat /\ ff_popped (queue s) = items count /\ t0 s = start_cycles /\
      acc = handled count
  | TC_exit acc => ff_popped (queue s) = items TOTAL_MSGS /\ t0 s = start_cycles /\ t1 s = end_cycles /\ acc = handled TOTAL_MSGS
  end.

Definition joining (s : run) : Prop :=
  match joiner s with
  | TJ_store => True
  | TJ_producer => start_flag s = true
  | TJ_consumer => start_flag s = true /\ producer s = TP_exit
  | TJ_end => producer s = TP_exit /\ exists acc, consumer s = TC_exit acc
  end.

Record RunInv (s : run) : Prop := {
  ri_wf : wf (queue s); ri_produce : producing s; ri_consume : consuming s; ri_join : joining s }.

Lemma items_S n : items (S n) = items n ++ [item (S n)].
Proof. unfold items. by rewrite seq_S, fmap_app. Qed.

Lemma length_items n : length (items n) = n.
Proof. unfold items. by rewrite length_fmap, length_seq. Qed.

Lemma handled_S n : handled (S n) = on n (handled n) (item (S n)).
Proof. unfold handled. by rewrite seq_S, foldl_app. Qed.

Lemma take_items n m : (n <= m)%nat -> take n (items m) = items n.
Proof. intros H. unfold items. by rewrite <- fmap_take, take_seq, Nat.min_l. Qed.

(** One more item can only be the next one. *)
Lemma next_item n v m : items n ++ [v] `prefix_of` items m -> v = item (S n).
Proof.
  intros H. assert ((items n ++ [v]) !! n = Some v) as E by (rewrite lookup_app_r, length_items, Nat.sub_diag; [done|rewrite length_items; done]).
  pose proof (prefix_lookup_Some _ _ _ _ E H) as E'. unfold items in E'. rewrite list_lookup_fmap in E'.
  destruct (seq 1 m !! n) eqn:Hs; [|done]. apply lookup_seq in Hs as [-> _]. by injection E' as <-.
Qed.

Lemma run_inv_start x : wf x -> ff_pushed x = [] -> ff_popped x = [] -> (forall a, ff_calling a x) -> RunInv (run_start x).
Proof. intros. by split. Qed.

Lemma run_inv_forked x : wf x -> ff_pushed x = [] -> ff_popped x = [] -> (forall a, ff_calling a x) -> RunInv (run_forked x).
Proof. intros. by split. Qed.

Lemma run_push_inv s i r x :
  RunInv s -> producer s = TP_loop i -> (i <= TOTAL_MSGS)%nat -> ff_push (item i) (queue s) r x -> RunInv (produced i s x r).
Proof using L Hfits.
  intros [Hw Hp Hc Hj] Ep Hi Hs. destruct (fl_push _ _ _ _ Hw (Hfits i) Hs) as (Hx & Ho & Hu & Hk).
  unfold producing in Hp. rewrite Ep in Hp. destruct Hp as (Hf & Hr & Hpu & Hca). split; [done|..].
  - unfold producing. cbn [producer produced queue start_flag]. rewrite Hu, Hpu. destruct i as [|i]; [lia|]. cbn [Nat.sub]. rewrite !Nat.sub_0_r.
    destruct r as [[]|]; cbn [Nat.sub]; rewrite ?Nat.sub_0_r, ?items_S; split_and!; try done; lia.
  - unfold consuming in *. cbn [consumer produced queue start_flag t0 t1]. rewrite Ho. done.
  - unfold joining in *. cbn. destruct (joiner s); [done|done| |]; destruct Hj; congruence.
Qed.

(** What has been pushed is an initial part of the sequence. *)
Lemma pushed_items s : producing s -> exists m, ff_pushed (queue s) = items m.
Proof.
  unfold producing. destruct (producer s) as [|i|]; intros Hp;
    [exists 0%nat; apply Hp|exists (i - 1)%nat; apply Hp|exists TOTAL_MSGS; apply Hp].
Qed.

Lemma run_pop_inv s count acc r x :
  RunInv s -> consumer s = TC_loop count acc -> (count < TOTAL_MSGS)%nat -> ff_pop (queue s) r x -> RunInv (consumed count acc s x r).
Proof using L.
  intros [Hw Hp Hc Hj] Ec Hi Hs. destruct (fl_pop _ _ _ Hw Hs) as (Hx & Hu & Ho & Hk).
  unfold consuming in Hc. rewrite Ec in Hc. destruct Hc as (Hf & Hr & Hl & Ht & ->). split; [done|..].
  - unfold producing in *. cbn. rewrite Hu. destruct (producer s); [| |done].
    + destruct Hp. split; auto.
    + destruct Hp as (? & ? & ? & ?). split_and!; auto; lia.
  - unfold consuming. cbn [consumer consumed queue start_flag t0 t1]. destruct r as [[v|]|]; rewrite Ho; [|done|done].
    destruct (pushed_items s Hp) as [m Hm]. pose proof (fl_fifo x Hx) as Hpre. rewrite Ho, Hl, Hu, Hm in Hpre.
    apply next_item in Hpre as ->. rewrite Hl, items_S, handled_S. split_and!; done || lia.
  - unfold joining in *. cbn. destruct (joiner s); [done|done|done|]. destruct Hj as [_ [a Ha]]. congruence.
Qed.

Lemma run_step_inv s s' : RunInv s -> run_step s s' -> RunInv s'.
Proof using L Hfits.
  intros HI Hs. destruct Hs as [s Ep Ef|s i r x Ep Hi Hp|s Ep|s Ec Ef|s n v r x Ec Hn Hp|s v Ec|s Ej|s Ej Ep|s acc Ej Ec];
    [|by apply run_push_inv| | |by apply run_pop_inv|..]; destruct HI as [Hw Hp Hc Hj]; (split; [exact Hw|..]);
    unfold producing, consuming, joining in *; cbn [queue start_flag producer consumer joiner t0 t1 produce_to consume_start consume_end join_to];
    try rewrite Ep in *; try rewrite Ec in *; try rewrite Ej in *; try done.
  - destruct Hp as [Hp Hca]. split_and!; [done|lia|lia|done|done].
  - destruct (joiner s); naive_solver.
  - destruct Hp as (Hf & _ & Hp & _). cbn in Hp. rewrite Nat.sub_0_r in Hp. done.
  - destruct (joiner s); naive_solver.
  - rewrite Hc. split_and!; try done. lia.
  - destruct (joiner s); naive_solver.
  - destruct Hc as (_ & _ & Hl & Ht & ->). done.
  - destruct (joiner s); naive_solver.
  - destruct (producer s); naive_solver.
  - destruct (consumer s); naive_solver.
  - destruct Hj. split; [done|by exists acc].
Qed.

Lemma run_inv_reachable s s' : rtc run_step s s' -> RunInv s -> RunInv s'.
Proof using L Hfits. induction 1; eauto using run_step_inv. Qed.

(** ** The program can always finish *)

Lemma lift_produce s i b x :
  calls (ff_push (item i)) (queue s) b x -> producer s = TP_loop i -> (i <= TOTAL_MSGS)%nat ->
  rtc run_step s (produced i s x (Some b)).
Proof.
  intros H. remember (queue s) as p eqn:Ep. revert s Ep. induction H as [p r y Hs|p y r z Hs _ IH]; intros s -> Hm Hi.
  - apply rtc_once. by constructor.
  - eapply rtc_l; [by apply (T_push s i None y)|]. by apply (IH (produced i s y None)).
Qed.

Lemma lift_consume s n v o x :
  calls ff_pop (queue s) o x -> consumer s = TC_loop n v -> (n < TOTAL_MSGS)%nat ->
  rtc run_step s (consumed n v s x (Some o)).
Proof.
  intros H. remember (queue s) as p eqn:Ep. revert s Ep. induction H as [p r y Hs|p y r z Hs _ IH]; intros s -> Hm Hi.
  - apply rtc_once. by constructor.
  - eapply rtc_l; [by apply (T_pop s n v None y)|]. by apply (IH (consumed n v s y None)).
Qed.

(** With a message in the queue, the consumer handles one more. *)
Lemma count_completes s n v :
  RunInv s -> consumer s = TC_loop n v -> (n < TOTAL_MSGS)%nat -> ff_popped (queue s) <> ff_pushed (queue s) ->
  exists s' v', rtc run_step s s' /\ consumer s' = TC_loop (S n) v' /\ producer s' = producer s.
Proof using L.
  intros HI Ec Hn Hne. destruct (fl_pop_returns _ (ri_wf _ HI)) as (o & y & Hc).
  destruct (calls_pop_some _ _ _ _ _ _ Hc (ri_wf _ HI) Hne) as [w ->].
  exists (consumed n v s y (Some (Some w))), (on n v w). split; [by apply lift_consume|done].
Qed.

(** With none, the producer, which is then behind, pushes one. *)
Lemma produce_completes s i n v :
  RunInv s -> producer s = TP_loop i -> consumer s = TC_loop n v -> (n < TOTAL_MSGS)%nat ->
  ff_popped (queue s) = ff_pushed (queue s) ->
  exists s', rtc run_step s s' /\ producer s' = TP_loop (S i) /\ consumer s' = consumer s /\
    ff_popped (queue s') <> ff_pushed (queue s').
Proof using L Hfits.
  intros HI Ep Ec Hn He. pose proof (ri_produce _ HI) as Hp. unfold producing in Hp. rewrite Ep in Hp.
  pose proof (ri_consume _ HI) as Hco. unfold consuming in Hco. rewrite Ec in Hco.
  destruct Hp as (Hf & Hr & Hpu & Hca), Hco as (_ & _ & Hl & _). rewrite He, Hpu in Hl.
  apply (f_equal length) in Hl. rewrite !length_items in Hl.
  destruct (fl_push_returns _ _ (ri_wf _ HI) (Hfits i) (Hca ltac:(lia))) as (b & y & Hc).
  pose proof (calls_push_true _ _ _ _ _ _ _ Hc (ri_wf _ HI) (Hfits i) (eq_sym He)) as ->.
  pose proof (lift_produce s i true y Hc Ep ltac:(lia)) as Hst.
  exists (produced i s y (Some true)). split_and!; [done|done|done|].
  pose proof (run_inv_reachable _ _ Hst HI) as HI'. pose proof (ri_produce _ HI') as Hp'. unfold producing in Hp'. cbn [producer produced queue] in Hp'.
  pose proof (ri_consume _ HI') as Hc'. unfold consuming in Hc'. cbn [consumer produced queue] in Hc'. rewrite Ec in Hc'.
  destruct Hp' as (_ & _ & Hp' & _), Hc' as (_ & _ & Hc' & _). cbn [queue produced]. intros Heq. rewrite Heq, Hp' in Hc'.
  apply (f_equal length) in Hc'. rewrite !length_items in Hc'. lia.
Qed.

(** The main thread stores the flag once. *)
Lemma joiner_kept s s' : rtc run_step s s' -> joiner s <> TJ_store -> joiner s' <> TJ_store.
Proof. induction 1 as [|s s1 s2 Hs _ IH]; [done|]. intros Hj. apply IH. destruct Hs; done. Qed.

(** Once the consumer has handled everything, the producer has pushed
    everything, and the joins return. *)
Lemma exited_completes s acc : RunInv s -> joiner s <> TJ_store -> producer s <> TP_wait -> consumer s = TC_exit acc ->
  exists s', rtc run_step s s' /\ joiner s' = TJ_end.
Proof using L.
  intros HI Hj Hw Ec.
  assert (exists s1, rtc run_step s s1 /\ producer s1 = TP_exit /\ consumer s1 = TC_exit acc /\ joiner s1 = joiner s) as (s1 & H1 & P1 & C1 & J1).
  { destruct (producer s) as [|i|] eqn:Ep; [done| |by exists s].
    pose proof (ri_produce _ HI) as Hp. unfold producing in Hp. rewrite Ep in Hp.
    pose proof (ri_consume _ HI) as Hco. unfold consuming in Hco. rewrite Ec in Hco.
    pose proof (prefix_length _ _ (fl_fifo _ (ri_wf _ HI))) as Hl. destruct Hp as (_ & Hr & Hpu & _), Hco as (Hc & _).
    rewrite Hc, Hpu, !length_items in Hl. assert (i = S TOTAL_MSGS) as -> by lia.
    exists (produce_to TP_exit s). split_and!; [by apply rtc_once, T_pushed|done|done|done]. }
  destruct (joiner s) eqn:Ej; [done|..].
  - exists (join_to (start_flag s1) TJ_end (join_to (start_flag s1) TJ_consumer s1)). split; [|done].
    etrans; [exact H1|]. eapply rtc_l; [by apply T_joined_p|].
    by apply rtc_once, (T_joined_c (join_to (start_flag s1) TJ_consumer s1) acc).
  - exists (join_to (start_flag s1) TJ_end s1). split; [|done]. etrans; [exact H1|]. by apply rtc_once, (T_joined_c _ acc).
  - by exists s1.
Qed.

Lemma exit_completes s v : RunInv s -> joiner s <> TJ_store -> producer s <> TP_wait -> consumer s = TC_loop TOTAL_MSGS v ->
  exists s', rtc run_step s s' /\ joiner s' = TJ_end.
Proof using L Hfits.
  intros HI Hj Hw Ec. pose proof (T_popped s v Ec) as Hs.
  destruct (exited_completes (consume_end v s) v) as (s' & H & E); [by eapply run_step_inv|done|done|done|].
  exists s'. split; [by eapply rtc_l|done].
Qed.

Lemma loops_complete m : forall s n v, RunInv s -> joiner s <> TJ_store -> producer s <> TP_wait ->
  consumer s = TC_loop n v -> (TOTAL_MSGS - n = m)%nat -> exists s', rtc run_step s s' /\ joiner s' = TJ_end.
Proof using L Hfits.
  induction m as [|m IH]; intros s n v HI Hj Hw Ec Hm.
  - pose proof (ri_consume _ HI) as Hco. unfold consuming in Hco. rewrite Ec in Hco.
    assert (n = TOTAL_MSGS) as -> by (destruct Hco as (_ & H & _); lia). by eapply exit_completes.
  - assert (N : forall s, RunInv s -> joiner s <> TJ_store -> producer s <> TP_wait -> consumer s = TC_loop n v ->
      ff_popped (queue s) <> ff_pushed (queue s) -> exists s', rtc run_step s s' /\ joiner s' = TJ_end).
    { intros s0 H0 J0 P0 C0 Hne. destruct (count_completes s0 n v H0 C0 ltac:(lia) Hne) as (s1 & w & H1 & C1 & P1).
      pose proof (run_inv_reachable _ _ H1 H0) as I1. pose proof (joiner_kept _ _ H1 J0) as J1.
      destruct (IH s1 (S n) w I1 J1 ltac:(congruence) C1 ltac:(lia)) as (s' & H' & E'). exists s'. split; [by etrans|done]. }
    pose proof (ri_consume _ HI) as Hco. unfold consuming in Hco. rewrite Ec in Hco. destruct Hco as (_ & _ & Hl & _).
    assert (D : ff_popped (queue s) = ff_pushed (queue s) \/ ff_popped (queue s) <> ff_pushed (queue s)).
    { destruct (pushed_items s (ri_produce _ HI)) as [p Hp]. rewrite Hl, Hp. destruct (decide (n = p)) as [->|Hne]; [by left|right].
      intros E%(f_equal length). by rewrite !length_items in E. }
    destruct D as [He|Hne]; [|by apply N].
    pose proof (ri_produce _ HI) as Hp. unfold producing in Hp. destruct (producer s) as [|i|] eqn:Ep; [done|..].
    + destruct (produce_completes s i n v HI Ep Ec ltac:(lia) He) as (s1 & H1 & P1 & C1 & Hne).
      destruct (N s1) as (s' & H' & E'); [by eapply run_inv_reachable|by eapply joiner_kept|congruence|congruence|done|].
      exists s'. split; [by etrans|done].
    + destruct Hp as [_ Hp]. rewrite He, Hp in Hl. apply (f_equal length) in Hl. rewrite !length_items in Hl. lia.
Qed.

Lemma run_can_finish s : RunInv s -> exists s', rtc run_step s s' /\ joiner s' = TJ_end.
Proof using L Hfits.
  intros HI. assert (exists s1, rtc run_step s s1 /\ joiner s1 <> TJ_store) as (s1 & H1 & J1).
  { destruct (joiner s) eqn:Ej; [|exists s; by rewrite Ej..]. exists (join_to true TJ_producer s). split; [by apply rtc_once, T_store|done]. }
  pose proof (run_inv_reachable _ _ H1 HI) as I1.
  assert (F1 : joiner s1 = TJ_end \/ start_flag s1 = true).
  { pose proof (ri_join _ I1) as Hj. unfold joining in Hj. destruct (joiner s1); [done|by right|right; apply Hj|by left]. }
  destruct F1 as [F1|F1]; [by exists s1|].
  assert (exists s2, rtc run_step s1 s2 /\ joiner s2 = joiner s1 /\ producer s2 <> TP_wait /\ start_flag s2 = true) as (s2 & H2 & J2 & P2 & F2).
  { destruct (producer s1) eqn:Ep; [|exists s1; by rewrite Ep..]. exists (produce_to (TP_loop 1) s1). split_and!; [by apply rtc_once, T_go|done..]. }
  pose proof (run_inv_reachable _ _ H2 I1) as I2. assert (rtc run_step s s2) as H12 by by etrans.
  destruct (consumer s2) as [|n v|acc] eqn:Ec.
  - pose proof (T_begin s2 Ec F2) as H3. pose proof (run_step_inv _ _ I2 H3) as I3.
    destruct (loops_complete _ (consume_start s2) 0 c0 I3 ltac:(cbn; congruence) P2 eq_refl eq_refl) as (s' & H' & E').
    exists s'. split; [|done]. etrans; [exact H12|]. by eapply rtc_l.
  - destruct (loops_complete _ s2 n v I2 ltac:(congruence) P2 Ec eq_refl) as (s' & H' & E'). exists s'. split; [by etrans|done].
  - destruct (exited_completes s2 acc I2 ltac:(congruence) P2 Ec) as (s' & H' & E'). exists s'. split; [by etrans|done].
Qed.

(** What a run does, at any point of it. *)
Lemma stream_correct s :
  RunInv s ->
  (forall count acc, consumer s = TC_loop count acc -> ff_popped (queue s) = items count /\ acc = handled count) /\
  (joiner s = TJ_end -> ff_popped (queue s) = items TOTAL_MSGS /\ t0 s = start_cycles /\ t1 s = end_cycles /\
     consumer s = TC_exit (handled TOTAL_MSGS)) /\
  exists s', rtc run_step s s' /\ joiner s' = TJ_end.
Proof using L Hfits.
  intros HI. pose proof (ri_consume _ HI) as Hc. unfold consuming in Hc. split_and!; [| |by apply run_can_finish].
  - intros n acc Ec. rewrite Ec in Hc. destruct Hc as (_ & _ & Hl & _ & Ha). done.
  - intros Ej. pose proof (ri_join _ HI) as Hj. unfold joining in Hj. rewrite Ej in Hj. destruct Hj as [_ [acc Ec]]. rewrite Ec in Hc |- *.
    destruct Hc as (Hl & Ht0 & Ht1 & ->). done.
Qed.
End stream.
End Stream.
