(* ===== verification/QueuePrograms.v ===== *)
(** * The programs on queues and shared memory

    bench_lockfree_queues.cpp, bench_shm_ipc.cpp and bench_tick_to_trade.cpp:
    the generic programs of PingPong.v and Stream.v with the queues, messages,
    conditions and constants of the sources, and what they print.  The readings
    of the cycle counter are arguments. *)

From Stdlib Require Import String Ascii.
From S2P Require Import Prelude Ring Spsc ShmBus OrderBook MarketFeed Logger Ostream Simd Doubles Latency PingPong QueueFifo Stream.

#[local] Open Scope Z_scope.
#[local] Open Scope cpp_scope.

Module Programs.

Import PingPong Queues Stream.

(** ** The programs *)

Import Fmt.

Definition rule : list Z := replicate 72 61.

Definition banner (title : string) (n : Z) (unit_ : string) (os : ostream) : ostream :=
  outs os [I_str (rule ++ nl); I_lit title; I_num n; I_str (chars unit_ ++ nl); I_str (rule ++ nl ++ nl)].

Section programs.
(** The readings of the cycle counter. *)
Context (start_cycles end_cycles : nat -> Z).

Definition SPSC_ROUNDTRIPS : nat := Z.to_nat 100000.
Abbreviation ping_queue := (spsc_fifo_ops (T := Z) 1024).

Definition bench_spsc_ping_pong_latency : sys -> sys -> Prop :=
  step (F := ping_queue) SPSC_ROUNDTRIPS Z.of_nat id (fun _ done => done) (Some 999999) start_cycles end_cycles.

Definition spsc_ping_pong_start : sys :=
  start (A := Z) (Spsc.init (T := Z) 1024) (Spsc.init 1024) SPSC_ROUNDTRIPS.

Definition spsc_ping_pong_report (cal : Latency.TscCalibrator) (s : sys (X := Spsc.cfg Z) (A := Z)) (os : ostream) : option ostream :=
  Latency.print_summary cal (chars "SPSC Queue Roundtrip Latency (Ping-Pong)") (tracker s)
    (banner " Benchmark 2: SPSC Ping-Pong Roundtrip Latency (" 100000 " Iterations)" os).

Definition IPC_ROUNDTRIPS : nat := Z.to_nat 50000.
Abbreviation bus := (rcfg Ipc.t Ipc.msg_args Ipc.IpcMessage).

Definition PING (i : nat) : Ipc.msg_args := (Z.of_nat i, start_cycles i, chars "PING").
Definition PONG (m : Ipc.msg_args) : Ipc.msg_args := let '(id, ts, _) := m in (id, ts, chars "PONG").

(** The child leaves after its last iteration; no flag and no farewell. *)
Definition bench_shm_ipc : sys -> sys -> Prop :=
  step (F := bus_fifo_ops) IPC_ROUNDTRIPS PING PONG (fun n _ => (IPC_ROUNDTRIPS <=? n)%nat) None start_cycles end_cycles.

Definition ipc_start (ping_bus pong_bus : Ipc.t) : sys :=
  start (A := Ipc.msg_args) (rinit ping_bus : bus) (rinit pong_bus : bus) IPC_ROUNDTRIPS.

Definition ipc_report (cal : Latency.TscCalibrator) (t : Latency.LatencyTracker) (os : ostream) : option ostream :=
  os ← Latency.print_summary cal (chars "Cross-Process SHM Ping-Pong Latency") t os;
  stats ← Latency.compute_stats cal t;
  let one_way_latency := Dbl.over (Latency.p50_ns stats) (Dbl.of_Z 2) in
  let os := outs os [I_str (replicate 72 45 ++ nl); I_lit " Median One-Way IPC Latency: "; I_fixed 2 one_way_latency;
                     I_str (chars " ns" ++ nl); I_str (replicate 72 45 ++ nl ++ nl)] in
  Some (if SpecFloat.SFltb one_way_latency (Dbl.of_Z 500)
        then outs os [I_str (chars ">>> VERIFIED: Achieved sub-500ns cross-process IPC latency! <<<" ++ nl)] else os).

End programs.

Section throughput_program.
Context (start_cycles end_cycles : Z).

Definition TOTAL_MSGS : nat := Z.to_nat 10000000.

Definition bench_spsc_throughput : run -> run -> Prop :=
  run_step (F := spsc_fifo_ops (T := Z) 65536) TOTAL_MSGS Z.of_nat 0 (fun _ _ val => val) start_cycles end_cycles.

Definition spsc_throughput_start : run (C := Z) := run_start (Spsc.init (T := Z) 65536).

Definition throughput_report (cal : Latency.TscCalibrator) (t0 t1 : Z) (os : ostream) : ostream :=
  let total := Dbl.of_Z 10000000 in
  let elapsed_ns := Latency.cycles_to_ns cal (t1 -64 t0) in
  let elapsed_sec := Dbl.over elapsed_ns (Dbl.of_Z 1000000000) in
  let msgs_per_sec := Dbl.over total elapsed_sec in
  let million_msgs_per_sec := Dbl.over msgs_per_sec (Dbl.of_Z 1000000) in
  outs os [I_lit "  Elapsed Time:     "; I_fixed 2 (Dbl.over elapsed_ns (Dbl.of_Z 1000000)); I_str (chars " ms" ++ nl);
           I_lit "  Throughput:       "; I_fixed 2 million_msgs_per_sec; I_str (chars " Million Msgs/sec" ++ nl);
           I_lit "  Latency / Msg:    "; I_fixed 2 (Dbl.over elapsed_ns total); I_str (chars " ns/msg" ++ nl ++ nl)].
End throughput_program.

(** ** The programs are correct *)

(** The ping-pong program of the lock-free queue: whatever the
    interleaving of the two threads, down to the loads and stores inside
    [push] and [pop], the replies are the numbers sent, in order and once each,
    one latency is recorded per reply, no push of either thread ever finds its
    queue full, and from every reachable state the program can run to its
    end, where it has received all 100000 replies. *)
Theorem spsc_ping_pong start_cycles end_cycles s :
  rtc (bench_spsc_ping_pong_latency start_cycles end_cycles) spsc_ping_pong_start s ->
  replies s = Z.of_nat <$> seq 0 (length (replies s)) /\
  Latency.samples_ (tracker s) = (fun i => end_cycles i -64 start_cycles i) <$> seq 0 (length (replies s)) /\
  (forall i x, mpc s = M_push i -> ~ spsc_push 1024 (Z.of_nat i) (ping s) (Some false) x) /\
  (forall a x, epc s = E_push a -> ~ spsc_push 1024 a (pong s) (Some false) x) /\
  (mpc s = M_end -> length (replies s) = SPSC_ROUNDTRIPS) /\
  exists s', rtc (bench_spsc_ping_pong_latency start_cycles end_cycles) s s' /\ mpc s' = M_end.
Proof.
  pose proof (spsc_fifo_laws (T := Z) 10 ltac:(lia)) as L. pose proof (spsc_init_fresh 10 ltac:(lia)) as Hf.
  apply (bench_correct (F := spsc_fifo_ops 1024) SPSC_ROUNDTRIPS Z.of_nat id (fun _ done => done) (Some 999999) start_cycles end_cycles
    (2 ^ 10) (fun _ => True) (spsc_wf 10)); done.
Qed.

Lemma spsc_ping_pong_witness :
  exists s, rtc (bench_spsc_ping_pong_latency (fun i => Z.of_nat i) (fun i => Z.of_nat i +64 7)) spsc_ping_pong_start s /\
    mpc s = M_end /\ length (replies s) = SPSC_ROUNDTRIPS.
Proof.
  destruct (spsc_ping_pong (fun i => Z.of_nat i) (fun i => Z.of_nat i +64 7) spsc_ping_pong_start (rtc_refl _ _))
    as (_ & _ & _ & _ & _ & s & Hr & He).
  exists s. split; [exact Hr|]. split; [exact He|]. by apply (spsc_ping_pong _ _ s Hr).
Defined.

(** C25. The ping-pong program of the shared-memory bus: with both buses
    created at capacity 1024, the parent receives for every request, in order,
    its number and time stamp with the payload PONG, records one latency per
    reply, no publish finds its bus full, and from every reachable state both
    processes can run to their end after all 50000 round trips. *)
Theorem ipc_ping_pong start_cycles end_cycles ping_bus pong_bus s :
  Ipc.create true true true 1024 = inr ping_bus -> Ipc.create true true true 1024 = inr pong_bus ->
  rtc (bench_shm_ipc start_cycles end_cycles) (ipc_start ping_bus pong_bus) s ->
  replies s = (fun i => (Z.of_nat i, start_cycles i, chars "PONG")) <$> seq 0 (length (replies s)) /\
  Latency.samples_ (tracker s) = (fun i => end_cycles i -64 start_cycles i) <$> seq 0 (length (replies s)) /\
  (forall i x, mpc s = M_push i -> ~ ring_push (R := Ipc.ipc_ring) (PING start_cycles i) (ping s) (Some false) x) /\
  (forall m x, epc s = E_push m -> ~ ring_push (R := Ipc.ipc_ring) m (pong s) (Some false) x) /\
  (mpc s = M_end -> length (replies s) = IPC_ROUNDTRIPS) /\
  exists s', rtc (bench_shm_ipc start_cycles end_cycles) s s' /\ mpc s' = M_end.
Proof.
  intros Hp Hq. pose proof (bus_fifo_laws 10 ltac:(lia)) as L.
  apply (bench_correct (F := bus_fifo_ops) IPC_ROUNDTRIPS (PING start_cycles) PONG (fun n _ => (IPC_ROUNDTRIPS <=? n)%nat) None start_cycles end_cycles
    (2 ^ 10) (ring_fits Ipc.truncate) (bus_wf 10)); try done; [intros n; apply Nat.leb_le..|by apply bus_init_fresh|by apply bus_init_fresh].
Qed.

Lemma ipc_ping_pong_witness :
  exists b s, Ipc.create true true true 1024 = inr b /\
    rtc (bench_shm_ipc (fun i => Z.of_nat i) (fun i => Z.of_nat i +64 9)) (ipc_start b b) s /\
    mpc s = M_end /\ length (replies s) = IPC_ROUNDTRIPS.
Proof.
  eexists. edestruct (ipc_ping_pong (fun i => Z.of_nat i) (fun i => Z.of_nat i +64 9)) as (_ & _ & _ & _ & _ & s & Hr & He);
    [reflexivity|reflexivity|apply rtc_refl|].
  exists s. split; [reflexivity|]. split; [exact Hr|]. split; [exact He|].
  by eapply (ipc_ping_pong _ _ _ _ s); [reflexivity|reflexivity|exact Hr|].
Defined.

Lemma last_number n : handled Z.of_nat 0 (fun _ _ v => v) n = Z.of_nat n.
Proof. destruct n as [|n]; [done|]. by rewrite handled_S. Qed.

(** The throughput program: the consumer counts the numbers 1, 2, ... as
    they were pushed, none lost and none twice; when both threads are joined it
    has popped all ten million, between its two readings of the cycle counter;
    and from every reachable state the program can run to that point. *)
Theorem spsc_throughput start_cycles end_cycles s :
  rtc (bench_spsc_throughput start_cycles end_cycles) spsc_throughput_start s ->
  (forall count val, consumer s = TC_loop count val -> Spsc.popped (queue s) = Z.of_nat <$> seq 1 count /\ val = Z.of_nat count) /\
  (joiner s = TJ_end -> Spsc.popped (queue s) = Z.of_nat <$> seq 1 TOTAL_MSGS /\ t0 s = start_cycles /\ t1 s = end_cycles) /\
  exists s', rtc (bench_spsc_throughput start_cycles end_cycles) s s' /\ joiner s' = TJ_end.
Proof.
  intros Hr. pose proof (spsc_fifo_laws (T := Z) 16 ltac:(lia)) as L. destruct (spsc_init_fresh 16 ltac:(lia)) as (H1 & H2 & H3 & H4).
  assert (RunInv (F := spsc_fifo_ops 65536) TOTAL_MSGS Z.of_nat 0 (fun _ _ v => v) start_cycles end_cycles (spsc_wf 16) s) as HI.
  { apply (run_inv_reachable _ _ _ _ _ _ (2 ^ 16) (fun _ => True) (spsc_wf 16) (fun _ => I) _ _ Hr). by apply run_inv_start. }
  destruct (stream_correct TOTAL_MSGS Z.of_nat 0 (fun _ _ v => v) start_cycles end_cycles (2 ^ 16) (fun _ => True) (spsc_wf 16) (fun _ => I) s HI)
    as (C1 & C2 & C3).
  split_and!; [|intros Ej; by destruct (C2 Ej) as (? & ? & ? & _)|done].
  intros n v Ec. destruct (C1 n v Ec) as [E ->]. split; [done|apply last_number].
Qed.

Lemma spsc_throughput_witness :
  exists s, rtc (bench_spsc_throughput 5 11) spsc_throughput_start s /\ joiner s = TJ_end /\ t1 s -64 t0 s = 6.
Proof.
  destruct (spsc_throughput 5 11 spsc_throughput_start (rtc_refl _ _)) as (_ & _ & s & Hr & He).
  exists s. split; [exact Hr|]. split; [exact He|].
  destruct (spsc_throughput 5 11 s Hr) as (_ & H & _). destruct (H He) as (_ & -> & ->). reflexivity.
Defined.

(** The report of the bus program is defined for any tracker with samples. *)
Lemma ipc_report_defined cal t os :
  Latency.samples_ t <> [] -> Z.of_nat (length (Latency.samples_ t)) <= 2 ^ 52 -> is_Some (ipc_report cal t os).
Proof.
  intros Hne Hn. destruct (Latency.compute_stats_reads cal t Hne Hn) as (lo & hi & _ & _ & E).
  unfold ipc_report, Latency.print_summary. destruct (Latency.compute_stats cal t) as [st|]; [|done]. cbn [mbind option_bind]. by eexists.
Qed.

(** ** The exchange and the trading engine *)

Section tick_to_trade.
Import Book Feed.

(** The compiler's choice for the product and sum of the price, the cycle
    counter when event [i] is stamped and after the event with number
    [i + 1] is handled. *)
Context (contract : bool) (start_cycles now_cycles : nat -> Z).

Definition TICKS : nat := Z.to_nat 100000.

Definition tick_price (i : Z) : double := Simd.mul_add (H := Simd.binary64) contract (Dbl.of_Z (i mod 50)) (Dbl.over (Dbl.of_Z 1) (Dbl.of_Z 10)) (Dbl.of_Z 100).
Definition tick_qty (i : Z) : Z := u32 (10 +64 i mod 100).
Definition tick_side (i : Z) : Side := if i mod 2 =? 0 then BUY else SELL.

Definition exchange_event (i : nat) : MarketEvent :=
  let i' := Z.of_nat i in mk_event i' (start_cycles i) (tick_price i') (tick_qty i') 1 (tick_side i') UPDATE_LEVEL.

(** The body of the engine's loop for the event with number [processed + 1]. *)
Definition engine_step (processed : nat) (engine : Book.t * Latency.LatencyTracker) (e : MarketEvent) : Book.t * Latency.LatencyTracker :=
  let '(book, tr) := engine in
  let now := now_cycles processed in
  (on_event book e, if timestamp_ns e <? now then Latency.record_cycles (now -64 timestamp_ns e) tr else tr).

Definition engine_start : Book.t * Latency.LatencyTracker := (L2OrderBook, Latency.new_tracker TICKS).

Definition tick_to_trade : run -> run -> Prop :=
  run_step (F := feed_fifo_ops) TICKS exchange_event engine_start engine_step 0 0.

Definition tick_start (feed : Feed.t) : run (X := rcfg Feed.t MarketEvent MarketEvent) (C := Book.t * Latency.LatencyTracker) := run_forked (rinit feed).

(** The child's report.  After the table the stream prints doubles with two
    decimals; without samples nothing has changed the default format, which
    prints zero as a digit. *)
Definition tick_report (cal : Latency.TscCalibrator) (t : Latency.LatencyTracker) (os : ostream) : option ostream :=
  os ← Latency.print_summary cal (chars "End-to-End Tick-to-Trade Latency") t os;
  stats ← Latency.compute_stats cal t;
  Some (if SpecFloat.SFltb (Latency.p50_ns stats) (Dbl.of_Z 1000)
        then outs os [I_lit ">>> VERIFIED: Achieved SUB-MICROSECOND Tick-to-Trade Latency (";
                      (if (Latency.count stats =? 0)%nat then I_lit "0" else I_fixed 2 (Latency.p50_ns stats));
                      I_str (chars " ns P50)! <<<" ++ nl ++ nl)] else os).

(** *** The engine's book *)

Definition tick (b : Book.t) (i : Z) : Book.t := update_level (tick_side i) (tick_price i) (tick_qty i) 1 b.

Definition ticks (from n : nat) (b : Book.t) : Book.t := foldl (fun b i => tick b (Z.of_nat i)) b (seq from n).

Lemma engine_book_handled n : (handled exchange_event engine_start engine_step n).1 = engine_book (items exchange_event n).
Proof.
  induction n as [|n IH]; [done|]. rewrite handled_S, items_S. unfold engine_book in *. rewrite foldl_app, <- IH. cbn [foldl].
  by destruct (handled _ _ _ n).
Qed.

Lemma engine_book_ticks n : engine_book (items exchange_event n) = ticks 1 n L2OrderBook.
Proof.
  induction n as [|n IH]; [done|]. rewrite items_S. unfold engine_book, ticks in *. rewrite foldl_app, IH, seq_S, foldl_app. done.
Qed.

(** The updates repeat every hundred events. *)
Lemma tick_period b (i : Z) m : 0 <= i -> 0 <= m -> tick b (100 * m + i) = tick b i.
Proof.
  intros Hi Hm. unfold tick, tick_side, tick_price, tick_qty.
  replace (100 * m + i) with (i + (2 * m) * 50) at 2 by lia. replace (100 * m + i) with (i + m * 100) at 2 by lia.
  replace (100 * m + i) with (i + (50 * m) * 2) by lia. by rewrite !Z_mod_plus_full.
Qed.

Lemma ticks_period m n : forall from b, ticks (100 * m + from) n b = ticks from n b.
Proof.
  induction n as [|n IH]; intros from b; [done|]. unfold ticks in *. cbn [seq foldl].
  replace (S (100 * m + from)) with (100 * m + S from)%nat by lia. rewrite IH. f_equal.
  replace (Z.of_nat (100 * m + from)) with (100 * Z.of_nat m + Z.of_nat from) by lia. apply tick_period; lia.
Qed.

Lemma ticks_app from n m b : ticks from (n + m) b = ticks (from + n) m (ticks from n b).
Proof. unfold ticks. by rewrite seq_app, foldl_app. Qed.

Lemma ticks_cycle m b : ticks 1 100 (ticks 1 100 b) = ticks 1 100 b -> ticks 1 (100 * S m) b = ticks 1 100 b.
Proof.
  intros Hb. induction m as [|m IH]; [done|]. replace (100 * S (S m))%nat with (100 * S m + 100)%nat by lia.
  rewrite ticks_app, IH, (Nat.add_comm 1), ticks_period. exact Hb.
Qed.

(** *** The engine's tracker *)

Definition latency_of (processed : nat) : option Z :=
  if start_cycles (S processed) <? now_cycles processed then Some (now_cycles processed -64 start_cycles (S processed)) else None.

Lemma engine_tracker_handled n :
  (n <= TICKS)%nat -> (handled exchange_event engine_start engine_step n).2 = Latency.mk TICKS (omap latency_of (seq 0 n)).
Proof.
  induction n as [|n IH]; intros Hn; [done|]. specialize (IH ltac:(lia)). rewrite handled_S, seq_S, omap_app.
  destruct (handled _ _ _ n) as [b tr]. cbn [snd] in IH. subst tr.
  replace (omap latency_of [(0 + n)%nat]) with (match latency_of n with Some x => [x] | None => [] end) by done.
  cbn [engine_step snd exchange_event timestamp_ns]. destruct (latency_of n) as [x|] eqn:E; unfold latency_of in E;
    (destruct (start_cycles (S n) <? now_cycles n); [|try done]); simplify_eq; [|by rewrite app_nil_r]. unfold Latency.record_cycles. cbn [Latency.samples_ Latency.capacity].
  assert (length (omap latency_of (seq 0 n)) <= n)%nat as Hl.
  { rewrite <- (length_seq n 0) at 2. generalize (seq 0 n). intros l. induction l as [|x l IHl]; [done|]. cbn. destruct (latency_of x); cbn; lia. }
  by rewrite (proj2 (Nat.ltb_lt _ _)) by lia.
Qed.
End tick_to_trade.

Definition final_book (contract : bool) : Book.t := ticks contract 1 100 Book.L2OrderBook.

Lemma final_book_fixed contract : ticks contract 1 100 (final_book contract) = final_book contract.
Proof. destruct contract; vm_compute; reflexivity. Qed.

Lemma final_book_reached contract start_cycles now_cycles :
  (handled (exchange_event contract start_cycles) engine_start (engine_step now_cycles) TICKS).1 = final_book contract.
Proof.
  rewrite engine_book_handled, engine_book_ticks. replace TICKS with (100 * S 999)%nat by (unfold TICKS; lia).
  apply ticks_cycle, final_book_fixed.
Qed.

Lemma final_book_depth contract : Book.bid_depth (final_book contract) = 25%nat /\ Book.ask_depth (final_book contract) = 25%nat.
Proof. destruct contract; split; vm_compute; reflexivity. Qed.

Lemma final_book_crossed contract :
  Book.price <$> Book.best_bid (final_book contract) = Some (tick_price contract 48) /\
  Book.price <$> Book.best_ask (final_book contract) = Some (tick_price contract 1) /\
  Book.dlt (Book.spread (final_book contract)) Book.d0 = true.
Proof. destruct contract; split_and!; vm_compute; reflexivity. Qed.

Definition is_number (x : Book.double) : bool := match x with SpecFloat.S754_nan => false | _ => true end.

Lemma prices_numbers contract : forallb (fun j => is_number (tick_price contract (Z.of_nat j))) (seq 0 50) = true.
Proof. destruct contract; vm_compute; reflexivity. Qed.

Lemma tick_price_ok contract i : 0 <= i -> Book.not_nan (tick_price contract i).
Proof.
  intros Hi. pose proof (Z.mod_pos_bound i 50 ltac:(lia)). pose proof (prices_numbers contract) as Hn. rewrite forallb_forall in Hn.
  specialize (Hn (Z.to_nat (i mod 50))). rewrite Z2Nat.id in Hn by lia. unfold tick_price in *. rewrite Z.mod_mod in Hn by lia.
  intros E. rewrite E in Hn. discriminate Hn. apply in_seq. lia.
Qed.

(** C23. The exchange and the trading engine as two processes on the market
    feed: under every interleaving the engine's book is the replay of the
    events sent so far, and well formed; it records the latency of exactly the
    events whose time stamp lies before the reading after handling; from every
    reachable state both processes can finish, and then the book is one
    particular book of 25 bids and 25 asks. *)
Theorem trading_engine contract start_cycles now_cycles bg feed s :
  Feed.create true true true bg 65536 = inr feed ->
  rtc (tick_to_trade contract start_cycles now_cycles) (tick_start feed) s ->
  (forall n book tr, consumer s = TC_loop n (book, tr) ->
     book = Feed.engine_book (exchange_event contract start_cycles <$> seq 1 n) /\ Book.book_ok book) /\
  (joiner s = TJ_end ->
     consumer s = TC_exit (final_book contract, Latency.mk TICKS (omap (latency_of start_cycles now_cycles) (seq 0 TICKS)))) /\
  (exists s', rtc (tick_to_trade contract start_cycles now_cycles) s s' /\ joiner s' = TJ_end) /\
  Book.bid_depth (final_book contract) = 25%nat /\ Book.ask_depth (final_book contract) = 25%nat.
Proof.
  intros Hc Hr. pose proof (feed_fifo_laws 16 ltac:(lia)) as L. destruct (feed_init_fresh 16 bg feed ltac:(lia) Hc) as (H1 & H2 & H3 & H4).
  assert (RunInv (F := feed_fifo_ops) TICKS (exchange_event contract start_cycles) engine_start (engine_step now_cycles) 0 0 (feed_wf 16) s) as HI.
  { apply (run_inv_reachable TICKS (exchange_event contract start_cycles) _ _ _ _ (2 ^ 16) (ring_fits id) (feed_wf 16) (fun _ => eq_refl) _ _ Hr). by apply run_inv_forked. }
  destruct (stream_correct TICKS (exchange_event contract start_cycles) _ _ _ _ (2 ^ 16) (ring_fits id) (feed_wf 16) (fun _ => eq_refl) s HI) as (C1 & C2 & C3).
  split; [|split; [|split; [exact C3|apply final_book_depth]]].
  - intros n book tr Ec. destruct (C1 _ _ Ec) as [_ E]. pose proof (engine_book_handled contract start_cycles now_cycles n) as Eb.
    rewrite <- E in Eb. cbn in Eb. subst book. split; [done|]. apply Feed.engine_book_ok, Forall_fmap, Forall_forall.
    intros i _. apply tick_price_ok. lia.
  - intros Ej. destruct (C2 Ej) as (_ & _ & _ & ->).
    pose proof (engine_tracker_handled contract start_cycles now_cycles TICKS (Nat.le_refl _)) as E2.
    pose proof (final_book_reached contract start_cycles now_cycles) as E1.
    rewrite (surjective_pairing (handled _ _ _ _)), E1, E2. reflexivity.
Qed.

Lemma trading_engine_witness :
  exists feed s, Feed.create true true true Feed.zero_event 65536 = inr feed /\
    rtc (tick_to_trade false (fun _ => 1) (fun _ => 2)) (tick_start feed) s /\ joiner s = TJ_end /\
    exists tr, consumer s = TC_exit (final_book false, tr).
Proof.
  eexists. edestruct (trading_engine false (fun _ => 1) (fun _ => 2) Feed.zero_event) as (_ & _ & (s & Hr & He) & _);
    [reflexivity|apply rtc_refl|].
  exists s. split; [reflexivity|]. split; [exact Hr|]. split; [exact He|]. eexists.
  by eapply (trading_engine false (fun _ => 1) (fun _ => 2) Feed.zero_event); [reflexivity|exact Hr|exact He].
Defined.

(** Without samples the reported median is zero, and the program announces a
    latency below one microsecond. *)
Lemma no_samples_verified cal n os :
  exists os', Latency.print_summary cal (chars "End-to-End Tick-to-Trade Latency") (Latency.new_tracker n) os = Some os' /\
    tick_report cal (Latency.new_tracker n) os =
      Some (outs os' [I_lit ">>> VERIFIED: Achieved SUB-MICROSECOND Tick-to-Trade Latency ("; I_lit "0"; I_str (chars " ns P50)! <<<" ++ nl ++ nl)]).
Proof. unfold tick_report, Latency.print_summary. cbn [Latency.compute_stats Latency.empty Latency.samples_ Latency.new_tracker length Nat.eqb mbind option_bind]. by eexists. Qed.
End Programs.
