(* ===== verification/FiberPrograms.v ===== *)
(** * The benchmark programs of the fiber scheduler

    The two programs of bench_fibers.cpp.  Their fibers share variables and
    call only [Scheduler::yield]; a fiber is the point where it is suspended,
    and [resume] runs it to its next [yield] or to its end. *)

From Stdlib Require Import String Ascii.
From S2P Require Import Prelude Logger Ostream Doubles Latency.

#[local] Open Scope Z_scope.
#[local] Open Scope cpp_scope.

Module Coop.

Import Fmt.

(** ** [Scheduler::run] for fibers that only yield *)

Section run.
Context {V K : Type} (resume : K -> V -> V * option K).

(** The front of the ready queue runs; [yield] puts it back at the end, a
    fiber that ends is dropped. *)
Fixpoint run (fuel : nat) (ready_queue : list K) (v : V) : option V :=
  match ready_queue with
  | [] => Some v
  | k :: q =>
      match fuel with
      | O => None
      | S fuel =>
          match resume k v with
          | (v, Some k') => run fuel (q ++ [k']) v
          | (v, None) => run fuel q v
          end
      end
  end.

Lemma run_yields fuel k k' q v v' : resume k v = (v', Some k') -> run (S fuel) (k :: q) v = run fuel (q ++ [k']) v'.
Proof. intros H. cbn. by rewrite H. Qed.

Lemma run_ends fuel k q v v' : resume k v = (v', None) -> run (S fuel) (k :: q) v = run fuel q v'.
Proof. intros H. cbn. by rewrite H. Qed.
End run.

(** ** Context switches *)

Section switches.
(** Readings of the cycle counter before and after the yield of iteration [i]. *)
Context (start_cycles end_cycles : nat -> Z) (SWITCHES SAMPLES : nat).

Record shared := mk_shared { count : nat; tracker : Latency.LatencyTracker }.

(** A measuring fiber before its loop or in its [yield] with [t0], and a
    fiber that only yields. *)
Inductive point := Measure | Measuring (t0 : Z) | Yielding.

Definition measure_test (v : shared) : shared * option point :=
  if (count v <? SWITCHES)%nat then (v, Some (Measuring (start_cycles (count v)))) else (v, None).

Definition resume (k : point) (v : shared) : shared * option point :=
  match k with
  | Measure => measure_test v
  | Measuring t0 =>
      let t1 := end_cycles (count v) in
      let tr := if (Latency.size (tracker v) <? SAMPLES)%nat then Latency.record_cycles (t1 -64 t0) (tracker v) else tracker v in
      measure_test (mk_shared (S (count v)) tr)
  | Yielding => if (count v <? SWITCHES)%nat then (v, Some Yielding) else (v, None)
  end.

Definition latencies (n : nat) : list Z := (fun i => end_cycles i -64 start_cycles i) <$> seq 0 n.

Definition recorded (n : nat) : shared := mk_shared n (Latency.mk SAMPLES (take SAMPLES (latencies n))).

Lemma length_latencies n : length (latencies n) = n.
Proof. unfold latencies. by rewrite length_fmap, length_seq. Qed.

Lemma measuring_records n :
  resume (Measuring (start_cycles n)) (recorded n) = measure_test (recorded (S n)).
Proof.
  unfold resume, recorded, Latency.size, Latency.record_cycles. cbn [count tracker Latency.samples_ Latency.capacity]. f_equal. f_equal.
  unfold latencies. rewrite seq_S, fmap_app. fold (latencies n). rewrite length_take, length_latencies.
  destruct (Nat.ltb_spec (Nat.min SAMPLES n) SAMPLES) as [Hlt|Hge]; f_equal.
  - rewrite !take_ge; [done|rewrite length_app, length_latencies; cbn; lia|rewrite length_latencies; lia].
  - rewrite take_app_le; [done|rewrite length_latencies; lia].
Qed.

(** The two fibers alternate until the count is reached, and both end. *)
Lemma switches_from n : forall fuel c, (SWITCHES - c = S n)%nat -> (2 * n + 3 <= fuel)%nat ->
  run resume fuel [Measuring (start_cycles c); Yielding] (recorded c) = Some (recorded SWITCHES).
Proof.
  induction n as [|n IH]; intros fuel c Hc Hf; (destruct fuel as [|fuel]; [lia|]); cbn [run]; rewrite measuring_records; unfold measure_test; cbn [count recorded].
  - rewrite (proj2 (Nat.ltb_ge _ _)) by lia. assert (S c = SWITCHES) as -> by lia.
    destruct fuel as [|fuel]; [lia|]. cbn [run resume count recorded]. rewrite Nat.ltb_irrefl. by destruct fuel.
  - rewrite (proj2 (Nat.ltb_lt _ _)) by lia. cbn [app]. destruct fuel as [|fuel]; [lia|]. cbn [run resume count recorded].
    rewrite (proj2 (Nat.ltb_lt _ _)) by lia. cbn [app]. apply IH; lia.
Qed.

Lemma switches_run :
  (0 < SWITCHES)%nat ->
  run resume (2 * SWITCHES + 3) [Measure; Yielding] (mk_shared 0 (Latency.new_tracker SAMPLES)) = Some (recorded SWITCHES).
Proof.
  intros H0. replace (mk_shared 0 (Latency.new_tracker SAMPLES)) with (recorded 0) by (unfold recorded, latencies, Latency.new_tracker; cbn; by rewrite take_nil).
  replace (2 * SWITCHES + 3)%nat with (S (S (2 * SWITCHES + 1))) by lia.
  rewrite (run_yields _ _ Measure (Measuring (start_cycles 0)) [Yielding] _ (recorded 0)) by (cbn [resume]; unfold measure_test; cbn [count recorded]; by rewrite (proj2 (Nat.ltb_lt _ _))).
  cbn [app]. rewrite (run_yields _ _ Yielding Yielding _ _ (recorded 0)) by (cbn [resume count recorded]; by rewrite (proj2 (Nat.ltb_lt _ _))).
  apply (switches_from (SWITCHES - 1)); lia.
Qed.
End switches.

(** ** Spawning *)

Section throughput.
(** A fiber that increments [executed] and ends. *)
Definition execute (_ : unit) (executed : nat) : nat * option unit := (S executed, None).

Lemma execute_all n : forall fuel e, (n <= fuel)%nat -> run execute fuel (replicate n tt) e = Some (n + e)%nat.
Proof.
  induction n as [|n IH]; intros fuel e Hf; [by destruct fuel|]. destruct fuel as [|fuel]; [lia|]. cbn [replicate run execute].
  rewrite IH by lia. f_equal. lia.
Qed.

Definition fibers_report (cal : Latency.TscCalibrator) (n : nat) (executed : nat) (t0 t1 : Z) (os : ostream) : ostream :=
  let elapsed_ns := Latency.cycles_to_ns cal (t1 -64 t0) in
  let elapsed_sec := Dbl.over elapsed_ns (Dbl.of_Z 1000000000) in
  let fibers_per_sec := Dbl.over (Dbl.of_Z (Z.of_nat n)) elapsed_sec in
  outs os [I_lit "  Executed Fibers: "; I_num (Z.of_nat executed); I_str nl;
           I_lit "  Elapsed Time:    "; I_fixed 2 (Dbl.over elapsed_ns (Dbl.of_Z 1000000)); I_str (chars " ms" ++ nl);
           I_lit "  Throughput:      "; I_fixed 2 (Dbl.over fibers_per_sec (Dbl.of_Z 1000)); I_str (chars "k fibers/sec" ++ nl);
           I_lit "  Time / Fiber:    "; I_fixed 2 (Dbl.over elapsed_ns (Dbl.of_Z (Z.of_nat n))); I_str (chars " ns/fiber" ++ nl ++ nl)].
End throughput.

(** ** The programs *)

Definition rule : list Z := replicate 72 61 ++ nl.

Definition title (text_ : string) (n : Z) (unit_ : string) (os : ostream) : ostream :=
  outs os [I_str rule; I_lit text_; I_num n; I_str (chars unit_ ++ nl); I_str (rule ++ nl)].

Definition SWITCHES : nat := Z.to_nat 500000.
Definition SAMPLES : nat := Z.to_nat 100000.
Definition FIBER_COUNT : nat := Z.to_nat 50000.

(** The shared variables when [run] returns, and the table. *)
Definition context_switches (switches samples : nat) (cal : Latency.TscCalibrator) (start_cycles end_cycles : nat -> Z) (fuel : nat) (os : ostream) :
    option (shared * ostream) :=
  let os := title " Capstone 03: Fiber Context Switch Latency Benchmark (" (Z.of_nat switches) " Yields)" os in
  v ← run (resume start_cycles end_cycles switches samples) fuel [Measure; Yielding] (mk_shared 0 (Latency.new_tracker samples));
  os ← Latency.print_summary cal (chars "Cooperative Fiber Context Switch Latency") (tracker v) os;
  Some (v, os).

Definition spawn_all (n : nat) (cal : Latency.TscCalibrator) (t0 t1 : Z) (fuel : nat) (os : ostream) : option (nat * ostream) :=
  let os := title " Capstone 03: Fiber Spawn & Execution Throughput (" (Z.of_nat n) " Fibers)" os in
  executed ← run execute fuel (replicate n tt) 0%nat;
  Some (executed, fibers_report cal n executed t0 t1 os).

Definition bench_fiber_context_switches := context_switches SWITCHES SAMPLES.
Definition bench_fiber_throughput := spawn_all FIBER_COUNT.

Lemma context_switches_spec switches samples cal start_cycles end_cycles os :
  (0 < samples <= switches)%nat -> Z.of_nat samples <= 2 ^ 52 ->
  exists v os', context_switches switches samples cal start_cycles end_cycles (2 * switches + 3) os = Some (v, os') /\
    count v = switches /\ Latency.samples_ (tracker v) = (fun i => end_cycles i -64 start_cycles i) <$> seq 0 samples.
Proof.
  intros HS Hle. unfold context_switches. rewrite switches_run by lia. cbn [mbind option_bind].
  assert (E : Latency.samples_ (tracker (recorded start_cycles end_cycles samples switches)) = latencies start_cycles end_cycles samples).
  { cbn [tracker recorded Latency.samples_]. unfold latencies. by rewrite <- fmap_take, take_seq, Nat.min_l by lia. }
  destruct (Latency.compute_stats_reads cal (tracker (recorded start_cycles end_cycles samples switches))) as (lo & hi & _ & _ & Hs).
  - rewrite E. intros H0%(f_equal length). rewrite length_latencies in H0. cbn [length] in H0. lia.
  - by rewrite E, length_latencies.
  - unfold Latency.print_summary. destruct (Latency.compute_stats _ _) as [st|]; [|done]. cbn [mbind option_bind].
    do 2 eexists. split; [reflexivity|]. split; [done|exact E].
Qed.

Lemma spawn_all_spec n cal t0 t1 os : exists os', spawn_all n cal t0 t1 n os = Some (n, os').
Proof. unfold spawn_all. rewrite execute_all by lia. cbn [mbind option_bind]. rewrite Nat.add_0_r. by eexists. Qed.

Lemma samples_bound : (0 < SAMPLES <= SWITCHES)%nat /\ Z.of_nat SAMPLES <= 2 ^ 52.
Proof. unfold SAMPLES, SWITCHES. split; lia. Qed.

(** Both programs return: the first has counted all switches and recorded the
    latencies of the first [SAMPLES] of them, the second has executed every
    fiber. *)
Theorem fiber_benches cal start_cycles end_cycles t0 t1 os :
  (exists v os', bench_fiber_context_switches cal start_cycles end_cycles (2 * SWITCHES + 3) os = Some (v, os') /\
     count v = SWITCHES /\
     Latency.samples_ (tracker v) = (fun i => end_cycles i -64 start_cycles i) <$> seq 0 SAMPLES) /\
  (exists os', bench_fiber_throughput cal t0 t1 FIBER_COUNT os = Some (FIBER_COUNT, os')).
Proof.
  split; [|exact (spawn_all_spec FIBER_COUNT cal t0 t1 os)].
  exact (context_switches_spec SWITCHES SAMPLES cal start_cycles end_cycles os (proj1 samples_bound) (proj2 samples_bound)).
Qed.
End Coop.
