(* ===== verification/RawSyscalls.v ===== *)
(** * Raw system calls

    Model of 01-os-abi-and-syscall-internals/exercises/raw_syscalls.hpp and of
    the program without a library in nostdlib_entry.cpp: the registers the
    inline assembly loads, the [syscall] instruction and the typed wrappers.
    The kernel is a parameter that gets the number in [rax] and the contents
    of the six argument registers. *)

From Stdlib Require Import String Ascii.
From S2P Require Import Prelude Logger.

#[local] Open Scope Z_scope.
#[local] Open Scope cpp_scope.

Module Raw.

Abbreviation chars := Logger.chars.

Definition READ : Z := 0.
Definition WRITE : Z := 1.
Definition OPEN : Z := 2.
Definition CLOSE : Z := 3.
Definition MMAP : Z := 9.
Definition MUNMAP : Z := 11.
Definition GETPID : Z := 39.
Definition EXIT : Z := 60.

(** The general-purpose registers, as unsigned 64-bit numbers. *)
Record cpu := mk_cpu {
  rax : Z; rbx : Z; rcx : Z; rdx : Z; rsi : Z; rdi : Z; rbp : Z; rsp : Z;
  r8 : Z; r9 : Z; r10 : Z; r11 : Z; r12 : Z; r13 : Z; r14 : Z; r15 : Z }.

(** The [int64_t] in a register. *)
Definition s64 (v : Z) : Z := if v <? 2 ^ 63 then v else v - 2 ^ 64.

Section raw.
(** The state of the world outside the process, the kernel, and the values the
    instruction leaves in [rcx] and [r11]: the return address and the flags. *)
Context {W : Type} (kernel : Z -> list Z -> W -> Z * W) (rip rflags : Z).

Definition syscall (c : cpu) (w : W) : cpu * W :=
  let '(v, w) := kernel (rax c) [rdi c; rsi c; rdx c; r10 c; r8 c; r9 c] w in
  (mk_cpu v (rbx c) rip (rdx c) (rsi c) (rdi c) (rbp c) (rsp c) (r8 c) (r9 c) (r10 c) rflags (r12 c) (r13 c) (r14 c) (r15 c), w).

(** Loading the registers named by the input constraints. *)
Definition load_a (v : Z) (c : cpu) : cpu :=
  mk_cpu (u64 v) (rbx c) (rcx c) (rdx c) (rsi c) (rdi c) (rbp c) (rsp c) (r8 c) (r9 c) (r10 c) (r11 c) (r12 c) (r13 c) (r14 c) (r15 c).
Definition load_D (v : Z) (c : cpu) : cpu :=
  mk_cpu (rax c) (rbx c) (rcx c) (rdx c) (rsi c) (u64 v) (rbp c) (rsp c) (r8 c) (r9 c) (r10 c) (r11 c) (r12 c) (r13 c) (r14 c) (r15 c).
Definition load_S (v : Z) (c : cpu) : cpu :=
  mk_cpu (rax c) (rbx c) (rcx c) (rdx c) (u64 v) (rdi c) (rbp c) (rsp c) (r8 c) (r9 c) (r10 c) (r11 c) (r12 c) (r13 c) (r14 c) (r15 c).
Definition load_d (v : Z) (c : cpu) : cpu :=
  mk_cpu (rax c) (rbx c) (rcx c) (u64 v) (rsi c) (rdi c) (rbp c) (rsp c) (r8 c) (r9 c) (r10 c) (r11 c) (r12 c) (r13 c) (r14 c) (r15 c).
Definition load_r10 (v : Z) (c : cpu) : cpu :=
  mk_cpu (rax c) (rbx c) (rcx c) (rdx c) (rsi c) (rdi c) (rbp c) (rsp c) (r8 c) (r9 c) (u64 v) (r11 c) (r12 c) (r13 c) (r14 c) (r15 c).
Definition load_r8 (v : Z) (c : cpu) : cpu :=
  mk_cpu (rax c) (rbx c) (rcx c) (rdx c) (rsi c) (rdi c) (rbp c) (rsp c) (u64 v) (r9 c) (r10 c) (r11 c) (r12 c) (r13 c) (r14 c) (r15 c).
Definition load_r9 (v : Z) (c : cpu) : cpu :=
  mk_cpu (rax c) (rbx c) (rcx c) (rdx c) (rsi c) (rdi c) (rbp c) (rsp c) (r8 c) (u64 v) (r10 c) (r11 c) (r12 c) (r13 c) (r14 c) (r15 c).

(** The result in [rax], the registers and the world. *)
Definition result (x : cpu * W) : Z * cpu * W := (s64 (rax x.1), x.1, x.2).

Definition syscall0 (nr : Z) (c : cpu) (w : W) : Z * cpu * W := result (syscall (load_a nr c) w).
Definition syscall1 (nr arg1 : Z) (c : cpu) (w : W) : Z * cpu * W := result (syscall (load_D arg1 (load_a nr c)) w).
Definition syscall2 (nr arg1 arg2 : Z) (c : cpu) (w : W) : Z * cpu * W :=
  result (syscall (load_S arg2 (load_D arg1 (load_a nr c))) w).
Definition syscall3 (nr arg1 arg2 arg3 : Z) (c : cpu) (w : W) : Z * cpu * W :=
  result (syscall (load_d arg3 (load_S arg2 (load_D arg1 (load_a nr c)))) w).
Definition syscall6 (nr a1 a2 a3 a4 a5 a6 : Z) (c : cpu) (w : W) : Z * cpu * W :=
  let c := load_r9 a6 (load_r8 a5 (load_r10 a4 c)) in
  result (syscall (load_d a3 (load_S a2 (load_D a1 (load_a nr c)))) w).

(** ** The wrappers; pointers and sizes are unsigned, [int]s are signed *)

Definition sys_write (fd buf count : Z) := syscall3 WRITE fd buf count.
Definition sys_read (fd buf count : Z) := syscall3 READ fd buf count.
Definition sys_open (pathname flags mode : Z) := syscall3 OPEN pathname flags mode.
Definition sys_close (fd : Z) := syscall1 CLOSE fd.
Definition sys_getpid := syscall0 GETPID.
Definition sys_mmap (addr length prot flags fd offset : Z) (c : cpu) (w : W) : Z * cpu * W :=
  let '(res, c, w) := syscall6 MMAP addr length prot flags fd offset c w in (u64 res, c, w).
Definition sys_munmap (addr length : Z) := syscall2 MUNMAP addr length.

(** Nothing follows the call; its result is not used. *)
Definition sys_exit (status : Z) (c : cpu) (w : W) : W := let '(_, _, w) := syscall1 EXIT status c w in w.

(** ** The program without a library *)

Definition start_msg : list Z :=
  chars ">>> [NO-STDLIB SUCCESS]: Bare-metal user-space C++20 executing via raw inline assembly syscalls! <<<" ++ [10].
Definition start_len : Z := Z.of_nat (length (start_msg ++ [0])) - 1.

(** [msg] is the address of the message. *)
Definition start_ (msg : Z) (c : cpu) (w : W) : W :=
  let '(_, c, w) := sys_write 1 msg start_len c w in sys_exit 0 c w.

(** ** The calling convention *)

(** A system call that returns, as its caller means it. *)
Inductive request :=
| R_write (fd buf count : Z) | R_read (fd buf count : Z) | R_open (pathname flags mode : Z) | R_close (fd : Z) | R_getpid
| R_mmap (addr length prot flags fd offset : Z) | R_munmap (addr length : Z).

Definition run (r : request) : cpu -> W -> Z * cpu * W :=
  match r with
  | R_write fd buf count => sys_write fd buf count
  | R_read fd buf count => sys_read fd buf count
  | R_open p f m => sys_open p f m
  | R_close fd => sys_close fd
  | R_getpid => sys_getpid
  | R_mmap a l p f d o => sys_mmap a l p f d o
  | R_munmap a l => sys_munmap a l
  end.

(** Its number and arguments in the order of the manual pages. *)
Definition nr (r : request) : Z :=
  match r with
  | R_read _ _ _ => 0 | R_write _ _ _ => 1 | R_open _ _ _ => 2 | R_close _ => 3
  | R_mmap _ _ _ _ _ _ => 9 | R_munmap _ _ => 11 | R_getpid => 39
  end.
Definition args (r : request) : list Z :=
  match r with
  | R_write a b c | R_read a b c | R_open a b c => [a; b; c]
  | R_close a => [a] | R_getpid => []
  | R_mmap a b c d e f => [a; b; c; d; e; f] | R_munmap a b => [a; b]
  end.

(** Registers hold 64-bit words. *)
Definition words (c : cpu) : list Z :=
  [rax c; rbx c; rcx c; rdx c; rsi c; rdi c; rbp c; rsp c; r8 c; r9 c; r10 c; r11 c; r12 c; r13 c; r14 c; r15 c].
Definition word (v : Z) : Prop := 0 <= v < 2 ^ 64.
Definition cpu_ok (c : cpu) : Prop := Forall word (words c).

(** The registers of the arguments, in their order, and those that are neither
    arguments nor changed by the instruction. *)
Definition arg_regs (c : cpu) : list Z := [rdi c; rsi c; rdx c; r10 c; r8 c; r9 c].
Definition saved (c : cpu) : list Z := [rbx c; rbp c; rsp c; r12 c; r13 c; r14 c; r15 c].

(** What a wrapper with [n] arguments leaves as it was: all registers but
    [rax], [rcx], [r11] and the first [n] argument registers. *)
Definition untouched (n : nat) (c : cpu) : list Z := saved c ++ drop n (arg_regs c).

(** The number of arguments of a call. *)
Definition arity (n : Z) : option nat :=
  match n with
  | 0 | 1 | 2 => Some 3%nat | 3 | 60 => Some 1%nat | 9 => Some 6%nat | 11 => Some 2%nat | 39 => Some 0%nat
  | _ => None
  end.

(** A kernel reads the arguments a call has and no other register, and leaves
    a word in [rax]; [service] is what it does. *)
Context (service : Z -> list Z -> W -> Z * W).
Definition reads_arguments : Prop :=
  forall n k regs w, arity n = Some k -> kernel n regs w = service n (take k regs) w.
Definition returns_word : Prop := forall n l w, word (kernel n l w).1.

(** The value of a call from the word the kernel returns: [sys_mmap] returns a
    pointer, the other wrappers an [int64_t]. *)
Definition value (r : request) (v : Z) : Z := match r with R_mmap _ _ _ _ _ _ => v | _ => s64 v end.

Lemma u64_s64 v : word v -> u64 (s64 v) = v.
Proof.
  intros [H0 H1]. unfold s64. destruct (Z.ltb_spec v (2 ^ 63)); [apply wrap_small; lia|].
  unfold wrap. symmetry. apply (Z.mod_unique _ _ (-1)); lia.
Qed.

Lemma s64_range v : word v -> - 2 ^ 63 <= s64 v < 2 ^ 63.
Proof. intros [H0 H1]. unfold s64. destruct (Z.ltb_spec v (2 ^ 63)); lia. Qed.

Section convention.
Hypotheses (Hreads : reads_arguments) (Hword : returns_word) (Hrip : word rip) (Hflags : word rflags).

(** The instruction, in a processor that has the number and arguments of a
    call in their registers. *)
Lemma syscall_serves c w n k :
  cpu_ok c -> rax c = n -> arity n = Some k ->
  let '(c', w') := syscall c w in
  (rax c', w') = service n (take k (arg_regs c)) w /\ cpu_ok c' /\ saved c' = saved c /\ arg_regs c' = arg_regs c.
Proof using Hreads Hword Hrip Hflags.
  intros Hc <- Hk. unfold syscall. pose proof (Hword (rax c) [rdi c; rsi c; rdx c; r10 c; r8 c; r9 c] w) as Hv.
  pose proof (Hreads _ _ [rdi c; rsi c; rdx c; r10 c; r8 c; r9 c] w Hk) as E.
  destruct (kernel _ _ _) as [v w']. split; [exact E|]. split; [|done].
  unfold cpu_ok, words in *. cbn [rax rbx rcx rdx rsi rdi rbp rsp r8 r9 r10 r11 r12 r13 r14 r15]. cbn in Hv.
  rewrite !Forall_cons in *. tauto.
Qed.

Lemma u64_word v : word (u64 v).
Proof. apply wrap_range. lia. Qed.

Ltac loaded := unfold cpu_ok, words in *; cbn [load_a load_D load_S load_d load_r10 load_r8 load_r9
  rax rbx rcx rdx rsi rdi rbp rsp r8 r9 r10 r11 r12 r13 r14 r15]; rewrite !Forall_cons in *; pose proof u64_word; naive_solver.

(** C38. Every wrapper asks the kernel for the call it is named after with its
    arguments as 64-bit words in the order of the manual, whatever the
    registers held before.  A wrapper that returns leaves 64-bit words in the
    registers and changes none but [rax], [rcx], [r11] and those of its own
    arguments, and its result is the [int64_t] (for [sys_mmap] the pointer)
    in [rax]; [sys_exit] ends with the call of exit with its status.  The
    kernel is assumed to read the arguments a call has and to return a word. *)
Theorem raw_syscall_abi c w :
  cpu_ok c ->
  (forall r, let '(ret, c', w') := run r c w in
     let '(v, w'') := service (nr r) (u64 <$> args r) w in
     ret = value r v /\ w' = w'' /\ cpu_ok c' /\ untouched (length (args r)) c' = untouched (length (args r)) c /\ word v) /\
  (forall status, sys_exit status c w = (service 60 [u64 status] w).2).
Proof using Hreads Hword Hrip Hflags.
  intros Hc. split.
  - intros r.
    assert (G : forall c1, cpu_ok c1 -> untouched (length (args r)) c1 = untouched (length (args r)) c -> rax c1 = u64 (nr r) ->
      take (length (args r)) (arg_regs c1) = u64 <$> args r ->
      let '(ret, c', w') := result (syscall c1 w) in
      let '(v, w'') := service (nr r) (u64 <$> args r) w in
      ret = s64 v /\ w' = w'' /\ cpu_ok c' /\ untouched (length (args r)) c' = untouched (length (args r)) c /\ word v).
    { intros c1 H1 H2 H3 H4. assert (u64 (nr r) = nr r) as En by (destruct r; reflexivity). rewrite En in H3.
      pose proof (syscall_serves c1 w (nr r) (length (args r)) H1 H3 ltac:(destruct r; reflexivity)) as Hs. rewrite H4 in Hs.
      destruct (syscall c1 w) as [c' w']. destruct Hs as (<- & Hok & Hsv & Har). cbn [result fst snd]. split; [done|]. split; [done|]. split; [done|].
      split; [unfold untouched in *; congruence|]. unfold cpu_ok, words in Hok. rewrite Forall_cons in Hok. tauto. }
    destruct r; cbn [run]; try (apply G; [loaded|reflexivity..]).
    pose proof (G (load_d prot (load_S length (load_D addr (load_a MMAP (load_r9 offset (load_r8 fd (load_r10 flags c))))))))
      as G'. unfold sys_mmap, syscall6. destruct (result _) as [[ret c'] w'].
    destruct (service _ _ _) as [v w'']. destruct G' as (-> & ? & ? & ? & Hv); [loaded|reflexivity..|]. cbn [value]. by rewrite u64_s64.
  - intros status. unfold sys_exit, syscall1.
    pose proof (syscall_serves (load_D status (load_a EXIT c)) w 60 1 ltac:(loaded) eq_refl eq_refl) as Hs.
    destruct (syscall _ w) as [c' w']. destruct Hs as [Hs _]. cbn [result fst snd].
    change (take 1 (arg_regs (load_D status (load_a EXIT c)))) with [u64 status] in Hs. by rewrite <- Hs.
Qed.

(** The program writes its message and exits with status 0, whether or not
    all of it was written. *)
Lemma start_writes msg c w :
  cpu_ok c -> word msg ->
  start_ msg c w = (service 60 [0] (service 1 [1; msg; 101] w).2).2.
Proof using Hreads Hword Hrip Hflags.
  intros Hc Hm. unfold start_, sys_write, syscall3, sys_exit, syscall1.
  pose proof (syscall_serves (load_d start_len (load_S msg (load_D 1 (load_a WRITE c)))) w 1 3 ltac:(loaded) eq_refl eq_refl) as H1.
  destruct (syscall _ w) as [c1 w1]. destruct H1 as (E1 & Hc1 & _). cbn [result fst snd].
  pose proof (syscall_serves (load_D 0 (load_a EXIT c1)) w1 60 1 ltac:(loaded) eq_refl eq_refl) as H2.
  destruct (syscall _ w1) as [c2 w2]. destruct H2 as (E2 & _). cbn [result fst snd].
  cbn [take arg_regs rdi rsi rdx load_a load_D load_S load_d] in E1, E2. rewrite (wrap_small 64 msg) in E1 by exact Hm.
  change (u64 start_len) with 101 in E1. change (u64 1) with 1 in E1. change (u64 0) with 0 in E2. rewrite <- E1. cbn [snd]. by rewrite <- E2.
Qed.
End convention.
End raw.

(** ** Examples *)

(** A kernel that keeps the calls it served; every call fails with [errno]. *)
Definition log_service (errno : Z) (n : Z) (l : list Z) (w : list (Z * list Z)) : Z * list (Z * list Z) := (u64 (- errno), w ++ [(n, l)]).
Definition log_kernel (errno : Z) (n : Z) (regs : list Z) (w : list (Z * list Z)) : Z * list (Z * list Z) :=
  log_service errno n (take (default 6%nat (arity n)) regs) w.

Definition junk : cpu := mk_cpu 1 2 3 4 5 6 7 8 9 10 11 12 13 14 15 16.

Lemma junk_ok : cpu_ok junk.
Proof. unfold cpu_ok, words, word. rewrite !Forall_cons, Forall_nil. cbn. lia. Qed.

Lemma log_kernel_reads e : reads_arguments (log_kernel e) (log_service e).
Proof. intros n k regs w Hk. unfold log_kernel. by rewrite Hk. Qed.

Lemma log_kernel_word e : returns_word (log_kernel e).
Proof. intros n l w. apply wrap_range. lia. Qed.

(** Mapping a page with descriptor -1, from a processor with other values in
    the registers. *)
Lemma raw_syscall_abi_witness :
  let '(ret, c', w') := run (log_kernel 12) 0 0 (R_mmap 0 4096 3 34 (-1) 0) junk [] in
  let '(v, w'') := log_service 12 9 (u64 <$> [0; 4096; 3; 34; -1; 0]) [] in
  ret = v /\ w' = w'' /\ cpu_ok c' /\ untouched 6 c' = untouched 6 junk /\ word v.
Proof.
  apply (proj1 (raw_syscall_abi (log_kernel 12) 0 0 (log_service 12) (log_kernel_reads 12) (log_kernel_word 12)
    ltac:(unfold word; lia) ltac:(unfold word; lia) junk [] junk_ok) (R_mmap 0 4096 3 34 (-1) 0)).
Defined.

(** ** Errors *)

Definition MAP_FAILED : Z := 2 ^ 64 - 1.

(** A failed [sys_mmap] returns the negated error number as a pointer, which
    is [MAP_FAILED] only for error 1: running out of memory (12) passes a
    comparison with [nullptr] and [MAP_FAILED]. *)
Lemma sys_mmap_error e :
  1 <= e <= 4095 ->
  let ret := (run (log_kernel e) 0 0 (R_mmap 0 4096 3 34 (-1) 0) junk []).1.1 in
  ret <> 0 /\ (ret = MAP_FAILED <-> e = 1).
Proof.
  intros He ret.
  assert (u64 (- e) = 2 ^ 64 - e) as E by (unfold wrap; symmetry; apply (Z.mod_unique _ _ (-1)); lia).
  assert (ret = u64 (s64 (u64 (- e)))) as -> by reflexivity. rewrite u64_s64 by (apply wrap_range; lia).
  rewrite E. unfold MAP_FAILED. lia.
Qed.
End Raw.
