(* ===== verification/StoragePrograms.v ===== *)
(** * The benchmark programs of the storage engines

    bench_lsm_engine.cpp and bench_storage_engine.cpp are one program over an
    interface that [LsmEngine] and [EmbeddedLsmDatabase] implement: it writes
    [OPS] keys, reports, reads every key back and reports the latencies.  The
    readings of the cycle counter and the outcomes of the system calls are
    arguments. *)

From Stdlib Require Import String Ascii.
From S2P Require Import Prelude Bytes Bloom SSTable SkipList LsmEngine EmbeddedDb Logger Ostream Doubles Latency.

#[local] Open Scope Z_scope.
#[local] Open Scope cpp_scope.

Module Storage.

Import Fmt.

(** ** The interface *)

(** [kv_put i k v] is the put of iteration [i] with the outcomes of its system
    calls. *)
Class KvStore (S : Type) := {
  kv_put : nat -> Z -> Z -> S -> option S;
  kv_get : Z -> S -> option (option Z);
  kv_count : S -> Z }.

Definition puts {S} {K : KvStore S} (s : option S) (x : nat * (Z * Z)) : option S := s ← s; kv_put x.1 x.2.1 x.2.2 s.

Definition put_map (m : gmap Z Z) (x : nat * (Z * Z)) : gmap Z Z := <[x.2.1 := x.2.2]> m.

(** From [s0] the store holds what was put. *)
Class KvLaws {S} (K : KvStore S) (s0 : S) := {
  kv_run l : Forall (fun x => SST.pair_ok x.2) l -> 2 * Z.of_nat (length l) < 2 ^ 40 ->
    exists s, foldl puts (Some s0) l = Some s /\ forall k, kv_get k s = Some (foldl put_map ∅ l !! k) }.

(** ** The program *)

Section program.
Context {S : Type} {K : KvStore S}.
Context (start_cycles end_cycles : nat -> Z) (OPS : nat).

Definition writes : list (nat * (Z * Z)) := (fun i => (i, (Z.of_nat i, Z.of_nat i *64 10))) <$> seq 1 OPS.

Definition write_phase (s : S) : option S := foldl puts (Some s) writes.

(** One read with its latency; the value is dropped. *)
Definition read_one (s : S) (acc : option (list (option Z) * Latency.LatencyTracker)) (i : nat) : option (list (option Z) * Latency.LatencyTracker) :=
  '(vals, t) ← acc; v ← kv_get (Z.of_nat i) s; Some (vals ++ [v], Latency.record_cycles (end_cycles i -64 start_cycles i) t).

Definition read_phase (s : S) : option (list (option Z) * Latency.LatencyTracker) :=
  foldl (read_one s) (Some ([], Latency.new_tracker OPS)) (seq 1 OPS).

Definition rule (c : Z) : list Z := replicate 72 c ++ nl.

Definition title (text_ : string) (unit_ : string) (os : ostream) : ostream :=
  outs os [I_str (rule 61); I_lit text_; I_num (Z.of_nat OPS); I_str (chars unit_ ++ nl); I_str (rule 61 ++ nl)].

Definition write_report (cal : Latency.TscCalibrator) (time_label : string) (t0 t1 : Z) (s : S) (os : ostream) : ostream :=
  let elapsed_ns := Latency.cycles_to_ns cal (t1 -64 t0) in
  let elapsed_sec := Dbl.over elapsed_ns (Dbl.of_Z 1000000000) in
  let write_ops_sec := Dbl.over (Dbl.of_Z (Z.of_nat OPS)) elapsed_sec in
  outs os [I_str (rule 45);
           I_lit " Completed Writes:   "; I_num (Z.of_nat OPS); I_str (chars " keys" ++ nl);
           I_lit " Flushed SSTables:   "; I_num (kv_count s); I_str nl;
           I_lit time_label; I_fixed 2 (Dbl.over elapsed_ns (Dbl.of_Z 1000000)); I_str (chars " ms" ++ nl);
           I_lit " Write Throughput:   "; I_fixed 2 write_ops_sec; I_str (chars " ops/sec" ++ nl);
           I_lit " Latency / Write:    "; I_fixed 2 (Dbl.over elapsed_ns (Dbl.of_Z (Z.of_nat OPS))); I_str (chars " ns/write" ++ nl);
           I_str (rule 45 ++ nl)].

(** The values read, the tracker and the text. *)
Definition bench (cal : Latency.TscCalibrator) (text_ unit_ time_label label : string) (t0 t1 : Z) (s0 : S) (os : ostream) :
    option (list (option Z) * Latency.LatencyTracker * ostream) :=
  let os := title text_ unit_ os in
  s ← write_phase s0;
  let os := write_report cal time_label t0 t1 s os in
  '(vals, t) ← read_phase s;
  os ← Latency.print_summary cal (chars label) t os;
  Some (vals, t, os).

Lemma foldl_writes n k :
  foldl put_map ∅ ((fun i => (i, (Z.of_nat i, Z.of_nat i *64 10))) <$> seq 1 n) !! k =
  if decide (1 <= k <= Z.of_nat n) then Some (k *64 10) else None.
Proof.
  induction n as [|n IH]; [cbn; rewrite lookup_empty, decide_False by lia; done|].
  rewrite seq_S, fmap_app, foldl_app. cbn [foldl fmap list_fmap Nat.add]. unfold put_map at 1. cbn [fst snd].
  destruct (decide (k = Z.of_nat (Datatypes.S n))) as [->|Hne].
  - rewrite lookup_insert_eq, decide_True by lia. done.
  - rewrite lookup_insert_ne, IH by done. repeat case_decide; try lia; done.
Qed.

Lemma read_phase_spec s :
  (forall i, (1 <= i <= OPS)%nat -> kv_get (Z.of_nat i) s = Some (Some (Z.of_nat i *64 10))) ->
  read_phase s = Some ((fun i => Some (Z.of_nat i *64 10)) <$> seq 1 OPS,
                       Latency.mk OPS ((fun i => end_cycles i -64 start_cycles i) <$> seq 1 OPS)).
Proof.
  intros Hg. unfold read_phase.
  assert (G : forall n, (n <= OPS)%nat -> foldl (read_one s) (Some ([], Latency.new_tracker OPS)) (seq 1 n) =
    Some ((fun i => Some (Z.of_nat i *64 10)) <$> seq 1 n, Latency.mk OPS ((fun i => end_cycles i -64 start_cycles i) <$> seq 1 n))).
  { induction n as [|n IH]; intros Hn; [done|]. rewrite seq_S, foldl_app, IH by lia. cbn [foldl]. unfold read_one.
    cbn [mbind option_bind]. rewrite Hg by lia. cbn [mbind option_bind]. rewrite !fmap_app. unfold Latency.record_cycles. cbn [Latency.samples_ Latency.capacity].
    rewrite length_fmap, length_seq, (proj2 (Nat.ltb_lt _ _)) by lia. done. }
  by apply G.
Qed.

Context (s0 : S) {L : KvLaws K s0}.

Lemma storage_bench_correct cal text_ unit_ time_label label t0 t1 os :
  (0 < OPS)%nat -> Z.of_nat OPS < 2 ^ 30 ->
  exists os', bench cal text_ unit_ time_label label t0 t1 s0 os =
    Some ((fun i => Some (Z.of_nat i *64 10)) <$> seq 1 OPS,
          Latency.mk OPS ((fun i => end_cycles i -64 start_cycles i) <$> seq 1 OPS), os').
Proof using L.
  intros H0 Hn. destruct (kv_run writes) as (s & Hs & Hget).
  - apply Forall_fmap, Forall_forall. intros i Hi%elem_of_seq. split; unfold SST.is_u64; cbn; [lia|]. apply wrap_range. lia.
  - unfold writes. rewrite length_fmap, length_seq. lia.
  - unfold bench, write_phase. rewrite Hs. cbn [mbind option_bind]. rewrite read_phase_spec.
    + cbn [mbind option_bind]. unfold Latency.print_summary.
      destruct (Latency.compute_stats_reads cal (Latency.mk OPS ((fun i => end_cycles i -64 start_cycles i) <$> seq 1 OPS))) as (lo & hi & _ & _ & E).
      * cbn. destruct OPS; [lia|done].
      * cbn [Latency.samples_]. rewrite length_fmap, length_seq. lia.
      * destruct (Latency.compute_stats _ _) as [st|]; [|done]. by eexists.
    + intros i Hi. rewrite Hget. unfold writes. rewrite foldl_writes, decide_True by lia. done.
Qed.
End program.

(** ** The engines *)

Section engines.
Context {T : Type} {repr : T -> gmap Z Z -> Prop} {MT : MemTable T repr} (m_of : Z -> Z) (k_of : Z -> Z -> Z).
Context (Hbits : forall n, 0 <= n < 2 ^ 40 -> Bloom.num_bits_ (Bloom.BloomFilter m_of k_of n) < 2 ^ 60).
(** The random levels and the system calls of each put. *)
Context (draws : nat -> list bool) (io : nat -> Lsm.io) (Hio : forall i, Lsm.good_io (io i)).

Definition lsm_store : KvStore (Lsm.t (T := T)) :=
  {| kv_put i k v s := Lsm.put m_of k_of (draws i) (io i) k v s; kv_get := Lsm.get; kv_count := Lsm.sstable_count |}.

Definition db_store : KvStore (Db.t (T := T)) :=
  {| kv_put i k v s := Db.put m_of k_of 16 (draws i) (io i) k v s; kv_get := Db.get; kv_count := Db.sstable_count |}.

Lemma lsm_store_laws threshold : KvLaws lsm_store (Lsm.LsmEngine threshold ∅).
Proof using Hbits Hio.
  constructor. intros l Hok Hl. set (ops := (fun x : nat * (Z * Z) => Lsm.Put (draws x.1) (io x.1) x.2.1 x.2.2) <$> l).
  destruct (Lsm.run_after m_of k_of Hbits ops threshold ∅) as (s & Hs & mm & tms & Hi & _ & _ & Hm).
  - apply Forall_fmap. eapply Forall_impl; [exact Hok|]. intros [i [k v]] H. split; [apply Hio|done].
  - unfold ops. rewrite length_fmap. lia.
  - exists s. split.
    + rewrite <- Hs. unfold ops. clear. generalize (Some (Lsm.LsmEngine (T := T) threshold ∅)). induction l as [|x l IH]; intros s; [done|]. apply IH.
    + intros k. cbn [kv_get lsm_store]. rewrite (Lsm.engine_get_spec k _ _ _ Hi), Hm. f_equal. f_equal. unfold ops. clear. generalize (∅ : gmap Z Z).
      induction l as [|x l IH]; intros m; [done|]. apply IH.
Qed.

Lemma db_store_laws threshold : KvLaws db_store (Db.EmbeddedLsmDatabase threshold true ∅ []).
Proof using Hbits Hio.
  constructor. intros l Hok Hl. set (ops := (fun x : nat * (Z * Z) => Db.Put (draws x.1) (io x.1) x.2.1 x.2.2) <$> l).
  destruct (Db.db_run m_of k_of Hbits ops threshold) as (s & ps & mm & tms & Hs & Hi & Hm).
  - apply Forall_fmap. eapply Forall_impl; [exact Hok|]. intros [i [k v]] H. split; [apply Hio|done].
  - unfold ops. rewrite length_fmap. lia.
  - exists s. split.
    + rewrite <- Hs. unfold ops. clear. generalize (Some (Db.EmbeddedLsmDatabase (T := T) threshold true ∅ [])). induction l as [|x l IH]; intros s; [done|]. apply IH.
    + intros k. cbn [kv_get db_store]. rewrite (Db.db_get_spec k _ _ _ _ _ Hi), Hm. f_equal. f_equal. unfold ops. clear. generalize (∅ : gmap Z Z).
      induction l as [|x l IH]; intros m; [done|]. apply IH.
Qed.
End engines.

(** ** The two programs *)

Definition OPS : nat := Z.to_nat 50000.

Section main.
Context (m_of : Z -> Z) (k_of : Z -> Z -> Z) (draws : nat -> list bool) (io : nat -> Lsm.io).
Context (start_cycles end_cycles : nat -> Z) (cal : Latency.TscCalibrator) (t0 t1 : Z) (os : ostream).

Definition bench_lsm_engine : option (list (option Z) * Latency.LatencyTracker * ostream) :=
  bench (K := lsm_store (T := SkipList.t) m_of k_of draws io) start_cycles end_cycles OPS cal
    " Module 08: LSM-Tree Key-Value Ingestion Benchmark (" " Writes)" " Elapsed Time:       "
    "LSM Point Lookup Latency (Bloom + SSTable Index)" t0 t1 (Lsm.LsmEngine (64 * 1024) ∅) os.

Definition bench_storage_engine : option (list (option Z) * Latency.LatencyTracker * ostream) :=
  bench (K := db_store (T := SkipList.t) m_of k_of draws io) start_cycles end_cycles OPS cal
    " Capstone 02: Embedded LSM Key-Value Database Benchmark (" " Ops)" " Total Write Time:   "
    "Embedded LSM Point Lookup Latency" t0 t1 (Db.EmbeddedLsmDatabase (64 * 1024) true ∅ []) os.

(** C30. With working system calls both programs run to their end; every one of
    their reads finds the value written under the key, from the memtable or
    from one of the flushed tables, and its latency is recorded. *)
Theorem storage_benches :
  (forall n, 0 <= n < 2 ^ 40 -> Bloom.num_bits_ (Bloom.BloomFilter m_of k_of n) < 2 ^ 60) -> (forall i, Lsm.good_io (io i)) ->
  let result := ((fun i => Some (Z.of_nat i *64 10)) <$> seq 1 OPS, Latency.mk OPS ((fun i => end_cycles i -64 start_cycles i) <$> seq 1 OPS)) in
  (exists os', bench_lsm_engine = Some (result, os')) /\ (exists os', bench_storage_engine = Some (result, os')).
Proof.
  intros Hb Hio. pose proof (lsm_store_laws (T := SkipList.t) m_of k_of Hb draws io Hio (64 * 1024)).
  pose proof (db_store_laws (T := SkipList.t) m_of k_of Hb draws io Hio (64 * 1024)).
  split; (eapply storage_bench_correct; [done|unfold OPS; lia|unfold OPS; lia]).
Qed.
End main.

Lemma storage_benches_witness :
  exists os', bench_lsm_engine Bloom.ex_m Bloom.ex_k (fun _ => []) (fun _ => Lsm.ex_io) (fun _ => 0) (fun _ => 5) Latency.default_cal 0 1
    (mk_os 10 0 32 false []) =
    Some ((fun i => Some (Z.of_nat i *64 10)) <$> seq 1 OPS, Latency.mk OPS ((fun _ => 5) <$> seq 1 OPS), os').
Proof.
  destruct (storage_benches Bloom.ex_m Bloom.ex_k (fun _ => []) (fun _ => Lsm.ex_io) (fun _ => 0) (fun _ => 5) Latency.default_cal 0 1
    (mk_os 10 0 32 false []) Lsm.ex_bits (fun _ => Lsm.ex_good_io)) as [H _]. exact H.
Defined.
End Storage.
