(* ===== verification/BenchPrograms.v ===== *)
(** * Benchmark programs of the allocator, the pipeline and the servers

    bench_allocators.cpp, bench_pipeline.cpp and bench_client.cpp: what their
    loops do to the components and counters they measure, and what they print.
    The readings of the cycle counter and the results of system calls are
    arguments. *)

From Stdlib Require Import String Ascii.
From S2P Require Import Prelude Slab Logger Ostream Simd Doubles Latency.

#[local] Open Scope Z_scope.
#[local] Open Scope cpp_scope.

Module Benches.

Import Fmt.

Definition rule (c : Z) : list Z := replicate 72 c ++ nl.

(** A loop that records the latency of each round. *)
Definition record_all (start_cycles end_cycles : nat -> Z) (n : nat) : Latency.LatencyTracker :=
  foldl (fun t i => Latency.record_cycles (end_cycles i -64 start_cycles i) t) (Latency.new_tracker n) (seq 0 n).

Lemma record_all_samples sc ec n :
  record_all sc ec n = Latency.mk n ((fun i => ec i -64 sc i) <$> seq 0 n).
Proof.
  unfold record_all. assert (G : forall m, (m <= n)%nat ->
    foldl (fun t i => Latency.record_cycles (ec i -64 sc i) t) (Latency.new_tracker n) (seq 0 m) = Latency.mk n ((fun i => ec i -64 sc i) <$> seq 0 m)).
  { induction m as [|m IH]; intros Hm; [done|]. rewrite seq_S, foldl_app, IH by lia. cbn [foldl]. unfold Latency.record_cycles.
    cbn [Latency.samples_ Latency.capacity]. by rewrite length_fmap, length_seq, (proj2 (Nat.ltb_lt _ _)), fmap_app by lia. }
  by apply G.
Qed.

(** ** bench_allocators.cpp *)

Section allocators.
Import Slab.

(** [sizeof] and [alignof] of [TradeRecord]: the symbol follows the quantity
    without a gap, and four bytes fill up to the time stamp. *)
Definition sizeof_TradeRecord : Z := 8 + 8 + 4 + 8 + 4 + 8.
Definition alignof_TradeRecord : Z := 8.
Definition ITERATIONS : nat := Z.to_nat 100000.

Abbreviation slab_alloc := (allocate sizeof_TradeRecord alignof_TradeRecord 4096).

(** One round: the pointer and the allocator afterwards; [mmap] is what a
    growing slab would get. *)
Definition slab_round (mmap : option Z) (s : Slab.t) : option Z * Slab.t :=
  let '(p, s) := slab_alloc mmap s in (p, deallocate p s).

Fixpoint slab_loop (n : nat) (mmap : nat -> option Z) (s : Slab.t) (ps : list (option Z)) : list (option Z) * Slab.t :=
  match n with
  | O => (ps, s)
  | Datatypes.S n => let '(p, s) := slab_round (mmap n) s in slab_loop n mmap s (ps ++ [p])
  end.

Definition allocators_title (os : ostream) : ostream :=
  outs os [I_str (rule 61); I_str (chars " Benchmark: 64-Byte Object Allocation (Slab vs Standard malloc/free)" ++ nl);
           I_lit " Iterations: "; I_num 100000; I_str nl; I_str (rule 61 ++ nl)].

Definition allocators_report (cal : Latency.TscCalibrator) (malloc_tracker slab_tracker : Latency.LatencyTracker) (os : ostream) : option ostream :=
  os ← Latency.print_summary cal (chars "Standard std::malloc + std::free") malloc_tracker os;
  os ← Latency.print_summary cal (chars "Slab Allocator (Intrusive Free-List)") slab_tracker os;
  malloc_stats ← Latency.compute_stats cal malloc_tracker;
  slab_stats ← Latency.compute_stats cal slab_tracker;
  Some (if SpecFloat.SFltb (Dbl.of_Z 0) (Latency.mean_ns slab_stats) then
          outs os [I_lit ">>> Slab Allocator is "; I_fixed 2 (Dbl.over (Latency.mean_ns malloc_stats) (Latency.mean_ns slab_stats));
                   I_str (chars "x faster on average than std::malloc/free <<<" ++ nl ++ nl)] else os).

Lemma trade_layout : layout_ok sizeof_TradeRecord alignof_TradeRecord 4096.
Proof. unfold layout_ok, sizeof_TradeRecord, alignof_TradeRecord. split; [lia|]. split; [by exists 3|]. split; lia. Qed.

(** A round gives the chunk back to where it came from. *)
Lemma slab_round_same mmap s head rest :
  chain (mem s) (free_head_ s) (head :: rest) -> 0 <= active_objects_ s < 2 ^ 64 -> slab_round mmap s = (Some head, s).
Proof.
  intros (Hh & Hne & next & Hm & _) Ha. destruct s as [m h sl a]. cbn in *. subst h. unfold slab_round, allocate. cbn.
  rewrite (proj2 (Z.eqb_neq head 0)) by done. cbn [free_head_]. rewrite (proj2 (Z.eqb_neq head 0)) by done. cbn. rewrite Hm. cbn. f_equal. f_equal.
  - by apply insert_id.
  - rewrite wrap_sub_l, Z.add_simpl_r. by apply wrap_small.
Qed.

Lemma push_slabs (f : Z -> Z) l : forall s, slabs_ (foldl (fun s i => push_node s (f i)) s l) = slabs_ s.
Proof. induction l as [|i l IH]; intros s; [done|]. cbn [foldl]. by rewrite IH. Qed.

(** The slab loop touches one chunk: every round gets the chunk at the head of
    the free list and leaves the allocator as it was, so no further memory is
    mapped, whatever later calls of [mmap] would return. *)
Theorem slab_bench mmap0 b mmap n :
  mmap0 = Some b -> mmap_ok sizeof_TradeRecord alignof_TradeRecord 4096 (mk ∅ 0 [] 0) mmap0 ->
  let s := SlabAllocator sizeof_TradeRecord alignof_TradeRecord 4096 mmap0 in
  exists head, slab_loop n mmap s [] = (replicate n (Some head), s) /\ slabs_ s = [b] /\ active_objects_ s = 0.
Proof.
  intros -> Hm s. destruct (slab_inv_init _ _ _ trade_layout (Some b) Hm) as [free HI]. fold s in HI.
  assert (slabs_ s = [b]) as Hs by (unfold s, SlabAllocator, grow_slab; by rewrite push_slabs).
  assert (active_objects_ s = 0) as Ha by (rewrite (inv_active _ _ _ _ _ _ HI); reflexivity). clearbody s.
  pose proof (inv_perm _ _ _ _ _ _ HI) as Hp. rewrite Hs, app_nil_r in Hp. pose proof (inv_chain _ _ _ _ _ _ HI) as Hc.
  destruct free as [|head rest].
  { apply Permutation_length in Hp. rewrite length_all_chunks in Hp. cbn in Hp. lia. }
  exists head. split; [|split; [exact Hs|exact Ha]]. assert (G : forall n ps, slab_loop n mmap s ps = (ps ++ replicate n (Some head), s)).
  { intros m. induction m as [|m IH]; intros ps; cbn [slab_loop replicate]; [by rewrite app_nil_r|].
    rewrite (slab_round_same _ _ head rest Hc) by (rewrite Ha; lia). rewrite IH, <- app_assoc. done. }
  apply G.
Qed.
End allocators.

(** ** bench_pipeline.cpp *)

Section pipeline.
Import Simd.

Definition N : nat := Z.to_nat 10000000.
Definition TOTAL_BYTES : Z := Z.of_nat N *64 8 *64 2.
Definition RUNS : nat := 100.

Definition d_1_05 : double := Dbl.over (Dbl.of_Z 105) (Dbl.of_Z 100).

(** [n] calls of [fma_stream] on the same arrays of [count] elements. *)
Fixpoint pipeline_loop (contract : bool) (count n : nat) (src dst : array (D := double)) : option (array (D := double)) :=
  match n with
  | O => Some dst
  | S n => dst ← fma_stream (H := binary64) contract src dst count (Dbl.of_Z 2) (Dbl.of_Z 1); pipeline_loop contract count n src dst
  end.

(** The vectors at the addresses their allocator returned, the call that warms
    up, and the measured calls. *)
Definition pipeline (contract : bool) (count : nat) (src_base dst_base : Z) : option (array (D := double)) :=
  let src := mk_array src_base (replicate count d_1_05) in
  let dst := mk_array dst_base (replicate count (Dbl.of_Z 0)) in
  dst ← fma_stream (H := binary64) contract src dst 1000 (Dbl.of_Z 2) (Dbl.of_Z 1);
  pipeline_loop contract count RUNS src dst.

Definition pipeline_main (contract : bool) (src_base dst_base : Z) : option (array (D := double)) := pipeline contract N src_base dst_base.

Definition pipeline_title (os : ostream) : ostream :=
  outs os [I_str (rule 61); I_lit " Benchmark: Streaming AVX2 Vector Math Pipeline ("; I_num 10000000; I_str (chars " Elements)" ++ nl);
           I_lit " Total Data Streamed: "; I_num (TOTAL_BYTES / (1024 * 1024)); I_str (chars " MB" ++ nl); I_str (rule 61 ++ nl)].

Definition pipeline_report (cal : Latency.TscCalibrator) (t : Latency.LatencyTracker) (os : ostream) : option ostream :=
  os ← Latency.print_summary cal (chars "AVX2 FMA Non-Temporal Streaming") t os;
  stats ← Latency.compute_stats cal t;
  let mean_seconds := Dbl.over (Latency.mean_ns stats) (Dbl.of_Z 1000000000) in
  let giga_bytes := Dbl.over (Dbl.of_Z TOTAL_BYTES) (Dbl.times (Dbl.times (Dbl.of_Z 1024) (Dbl.of_Z 1024)) (Dbl.of_Z 1024)) in
  let gb_per_sec := Dbl.over giga_bytes mean_seconds in
  let gflops := Dbl.over (Dbl.over (Dbl.times (Dbl.of_Z (Z.of_nat N)) (Dbl.of_Z 2)) (Dbl.of_Z 1000000000)) mean_seconds in
  Some (outs os [I_str (rule 45); I_lit " Mean Throughput: "; I_fixed 2 gb_per_sec; I_str (chars " GB/sec" ++ nl);
                 I_lit " Compute Rate:    "; I_fixed 2 gflops; I_str (chars " GFLOPS" ++ nl); I_str (rule 45 ++ nl)]).

Lemma fmap_take_replicate {A B} (f : A -> B) m n x : (m <= n)%nat -> f <$> take m (replicate n x) = replicate m (f x).
Proof. intros H. by rewrite take_replicate, Nat.min_l, fmap_replicate by lia. Qed.

Lemma fma_whole contract n sb db dst :
  sb mod 32 = 0 -> db mod 32 = 0 -> length dst = n -> (4 * (n / 4) = n)%nat ->
  fma_stream (H := binary64) contract (mk_array sb (replicate n d_1_05)) (mk_array db dst) n (Dbl.of_Z 2) (Dbl.of_Z 1) =
    Some (mk_array db (replicate n (fma64 d_1_05 (Dbl.of_Z 2) (Dbl.of_Z 1)))).
Proof.
  intros Hs Hd Hl E. rewrite fma_stream_spec; cbn [base elems]; rewrite ?length_replicate; try done; try lia.
  cbv zeta. rewrite E, Nat.sub_diag, take_0, fmap_nil, (drop_ge dst) by lia. by rewrite !app_nil_r, fmap_take_replicate.
Qed.

Lemma loop_result contract count n sb db dst :
  sb mod 32 = 0 -> db mod 32 = 0 -> length dst = count -> (4 * (count / 4) = count)%nat ->
  pipeline_loop contract count (S n) (mk_array sb (replicate count d_1_05)) (mk_array db dst) =
    Some (mk_array db (replicate count (fma64 d_1_05 (Dbl.of_Z 2) (Dbl.of_Z 1)))).
Proof.
  intros Hs Hd Hl E. revert dst Hl. induction n as [|n IH]; intros dst Hl; cbn [pipeline_loop]; rewrite fma_whole by done; cbn [mbind option_bind]; [done|].
  apply IH, length_replicate.
Qed.

Lemma pipeline_spec contract count sb db :
  sb mod 32 = 0 -> db mod 32 = 0 -> (1000 <= count)%nat -> (4 * (count / 4) = count)%nat ->
  pipeline contract count sb db = Some (mk_array db (replicate count (fma64 d_1_05 (Dbl.of_Z 2) (Dbl.of_Z 1)))).
Proof.
  intros Hs Hd HN E. unfold pipeline. rewrite fma_stream_spec; cbn [base elems]; rewrite ?length_replicate; try done; try lia.
  cbv zeta. cbn [mbind option_bind elems]. apply loop_result; [done|done| |done].
  rewrite !length_app, !length_fmap, !length_take, !length_drop, !length_replicate. change (4 * (1000 / 4))%nat with 1000%nat. lia.
Qed.

Lemma N_large : (1000 <= N)%nat.
Proof. unfold N. lia. Qed.

Lemma N_blocks : (4 * (N / 4) = N)%nat.
Proof. apply Nat2Z.inj. rewrite Nat2Z.inj_mul, Nat2Z.inj_div. unfold N. rewrite Z2Nat.id by lia. reflexivity. Qed.

(** Every element of the destination is the source element times two plus one,
    rounded once, whichever way the compiler treats scalar products. *)
Theorem pipeline_result contract sb db :
  sb mod 32 = 0 -> db mod 32 = 0 ->
  pipeline_main contract sb db = Some (mk_array db (replicate N (fma64 d_1_05 (Dbl.of_Z 2) (Dbl.of_Z 1)))).
Proof.
  intros Hs Hd. exact (pipeline_spec contract N sb db Hs Hd N_large N_blocks).
Qed.
End pipeline.

(** ** bench_client.cpp *)

Section client.

(** What one request gets: the results of [write] and [read]. *)
Record exchange := mk_ex { written : Z; read_bytes : Z }.

(** The additions to the two shared counters, in program order. *)
Inductive add := Request | Bytes (n : Z).

(** The loop of a worker up to the first call that fails. *)
Fixpoint client_loop (n : nat) (ex : nat -> exchange) (i : nat) : list add :=
  match n with
  | O => []
  | S n =>
      if written (ex i) <=? 0 then [] else
      if read_bytes (ex i) <=? 0 then [] else
      Request :: Bytes (u64 (read_bytes (ex i))) :: client_loop n ex (S i)
  end.

(** Without a socket or a connection the worker does nothing. *)
Definition client_benchmark_worker (socket connect : bool) (requests_per_client : nat) (ex : nat -> exchange) : list add :=
  if negb socket then [] else if negb connect then [] else client_loop requests_per_client ex 0.

Record counters := mk_counters { total_requests : Z; total_bytes : Z; todo : list (list add) }.

Definition apply_add (a : add) (c : counters) (rest : list (list add)) : counters :=
  match a with
  | Request => mk_counters (total_requests c +64 1) (total_bytes c) rest
  | Bytes n => mk_counters (total_requests c) (total_bytes c +64 n) rest
  end.

(** One [fetch_add] of one worker. *)
Inductive client_step : counters -> counters -> Prop :=
| cs_add c i a l : todo c !! i = Some (a :: l) -> client_step c (apply_add a c (<[i := l]> (todo c))).

Definition requests_in (l : list add) : nat := length (List.filter (fun a => match a with Request => true | Bytes _ => false end) l).
Definition bytes_in (l : list add) : Z := foldr (fun a n => match a with Request => n | Bytes b => b + n end) 0 l.

Definition sum_requests (ls : list (list add)) : Z := foldr (fun l n => Z.of_nat (requests_in l) + n) 0 ls.
Definition sum_bytes (ls : list (list add)) : Z := foldr (fun l n => bytes_in l + n) 0 ls.

Lemma sum_insert (f : list add -> Z) ls : forall i l l', ls !! i = Some l ->
  foldr (fun l n => f l + n) 0 (<[i := l']> ls) = foldr (fun l n => f l + n) 0 ls - f l + f l'.
Proof.
  induction ls as [|x ls IH]; intros i l l' Hi; [done|]. destruct i as [|i]; cbn in Hi; [simplify_eq; cbn; lia|].
  change (<[S i := l']> (x :: ls)) with (x :: <[i := l']> ls). cbn [foldr]. rewrite (IH i l l' Hi). lia.
Qed.

(** The counters and what is still to be added. *)
Definition counted (r b : Z) (c : counters) : Prop :=
  u64 (total_requests c + sum_requests (todo c)) = r /\ u64 (total_bytes c + sum_bytes (todo c)) = b /\
  0 <= total_requests c < 2 ^ 64 /\ 0 <= total_bytes c < 2 ^ 64.

Lemma counted_step r b c c' : client_step c c' -> counted r b c -> counted r b c'.
Proof.
  destruct 1 as [c i a l Hi]. intros (Hr & Hb & H1 & H2). unfold counted, sum_requests, sum_bytes in *.
  destruct a as [|n]; cbn [apply_add total_requests total_bytes todo];
    rewrite (sum_insert (fun l => Z.of_nat (requests_in l)) _ _ _ _ Hi), (sum_insert bytes_in _ _ _ _ Hi), wrap_add_l.
  - change (bytes_in (Request :: l)) with (bytes_in l). change (requests_in (Request :: l)) with (S (requests_in l)).
    split; [rewrite <- Hr; f_equal; lia|]. split; [rewrite <- Hb; f_equal; lia|]. split; [apply wrap_range; lia|done].
  - change (bytes_in (Bytes n :: l)) with (n + bytes_in l). change (requests_in (Bytes n :: l)) with (requests_in l).
    split; [rewrite <- Hr; f_equal; lia|]. split; [rewrite <- Hb; f_equal; lia|]. split; [done|apply wrap_range; lia].
Qed.

(** The totals after the joins do not depend on how the workers interleaved. *)
Theorem client_totals ws c :
  rtc client_step (mk_counters 0 0 ws) c -> Forall (fun l => l = []) (todo c) ->
  total_requests c = u64 (sum_requests ws) /\ total_bytes c = u64 (sum_bytes ws).
Proof.
  intros Hr Hd. assert (counted (u64 (sum_requests ws)) (u64 (sum_bytes ws)) c) as (E1 & E2 & H1 & H2).
  { assert (G : forall c c', rtc client_step c c' -> counted (u64 (sum_requests ws)) (u64 (sum_bytes ws)) c -> counted (u64 (sum_requests ws)) (u64 (sum_bytes ws)) c')
      by (induction 1; eauto using counted_step). by apply (G _ _ Hr). }
  assert (sum_requests (todo c) = 0 /\ sum_bytes (todo c) = 0) as [Z1 Z2].
  { unfold sum_requests, sum_bytes. clear -Hd. induction Hd as [|l ls -> _ [IH1 IH2]]; cbn; [done|]. rewrite IH1, IH2. done. }
  rewrite Z1, Z.add_0_r, wrap_small in E1 by done. by rewrite Z2, Z.add_0_r, wrap_small in E2.
Qed.

(** A worker counts at most its requests. *)
Lemma client_loop_requests n ex : forall i, (requests_in (client_loop n ex i) <= n)%nat.
Proof. induction n as [|n IH]; intros i; cbn; [lia|]. destruct (_ <=? 0); cbn; [lia|]. destruct (_ <=? 0); cbn; [lia|]. specialize (IH (S i)). unfold requests_in in *. cbn. lia. Qed.

(** The arguments of [main], as [atoi] returns them. *)
Definition client_args (argv : list Z) : Z * Z * Z :=
  (default 8081 (u16 <$> argv !! 0%nat), default 50 (u64 <$> argv !! 1%nat), default 1000 (u64 <$> argv !! 2%nat)).

Definition client_title (argv : list Z) (os : ostream) : ostream :=
  let '(port, num_clients, reqs_per_client) := client_args argv in
  outs os [I_str (rule 61); I_str (chars " High-Concurrency Client Benchmark for Async TCP Server" ++ nl);
           I_lit " Port: "; I_num port; I_lit " | Concurrent Clients: "; I_num num_clients;
           I_lit " | Total Requests: "; I_num (num_clients *64 reqs_per_client); I_str nl; I_str (rule 61 ++ nl)].

Definition client_report (cal : Latency.TscCalibrator) (total_expected t0 t1 : Z) (c : counters) (os : ostream) : ostream :=
  let elapsed_ns := Latency.cycles_to_ns cal (t1 -64 t0) in
  let elapsed_sec := Dbl.over elapsed_ns (Dbl.of_Z 1000000000) in
  let reqs_per_sec := Dbl.over (Dbl.of_Z (total_requests c)) elapsed_sec in
  outs os [I_str (rule 45); I_lit " Completed Requests: "; I_num (total_requests c); I_lit " / "; I_num total_expected; I_str nl;
           I_lit " Elapsed Time:       "; I_fixed 2 (Dbl.over elapsed_ns (Dbl.of_Z 1000000)); I_str (chars " ms" ++ nl);
           I_lit " Request Throughput: "; I_fixed 2 reqs_per_sec; I_str (chars " reqs/sec" ++ nl);
           I_lit " Data Transferred:   "; I_fixed 2 (Dbl.over (Dbl.of_Z (total_bytes c)) (Dbl.times (Dbl.of_Z 1024) (Dbl.of_Z 1024))); I_str (chars " MB" ++ nl);
           I_str (rule 45 ++ nl)].
End client.
End Benches.
