(* ===== verification/Demos.v ===== *)
(** * The demonstration programs

    The [main] functions that run an operation sequence on one component and
    print what it does: slotted_page_layout.cpp, mvcc_undo_log_traversal.cpp,
    latch_crabbing_btree.cpp, page_fault_tracker.cpp and the ELF inspector's
    main.cpp; those that start the two servers, epoll_edge_triggered.cpp and
    server_main.cpp; and the functions of target_app.cpp.  The programs without
    external input are evaluated to the text they print. *)

From Stdlib Require Import String Ascii.
From S2P Require Import Prelude SlottedPage BTree Mvcc Logger Ostream Elf Epoll Uring Simd Doubles Latency.

#[local] Open Scope Z_scope.
#[local] Open Scope cpp_scope.

Module Demos.

Import Fmt.

Definition cout : ostream := mk_os 10 0 32 false [].

Definition rule : list Z := replicate 72 61 ++ nl.

Definition banner (title : string) (os : ostream) : ostream :=
  outs os [I_str rule; I_str (chars title ++ nl); I_str (rule ++ nl)].

(** Text given line by line. *)
Definition lines (l : list string) : list Z := concat ((fun s => chars s ++ nl) <$> l).

(** ** slotted_page_layout.cpp *)

(** [insert_tuple] assigns the slot only when it succeeds. *)
Definition demo_insert (payload : string) (slot : nat) (page : Page.t) : nat * Page.t :=
  let '(r, page) := Page.insert_tuple (chars payload) page in (default slot r, page).

Definition print_tuple (page : Page.t) (os : ostream) (s : nat) : ostream :=
  match Page.get_tuple s page with
  | Some payload => outs os [I_lit "  Slot "; I_num (Z.of_nat s); I_lit ": "; I_str payload; I_str nl]
  | None => os
  end.

Definition slotted_page_main (os : ostream) : ostream :=
  let os := banner " 4KB Slotted Page Storage Engine Demonstration (C++20)" os in
  let page := Page.init 101 in
  let os := outs os [I_lit "Initial Page ID: "; I_num (Page.page_id page); I_lit " | Free Space: "; I_num (Page.free_space page); I_str (chars " bytes" ++ nl ++ nl)] in
  let '(s0, page) := demo_insert "Tuple_0: User Shreyas (ID: 1001)" 0 page in
  let '(s1, page) := demo_insert "Tuple_1: Account Balance $150,000.50" 0 page in
  let '(s2, page) := demo_insert "Tuple_2: Limit Order BUY 500 AAPL @ $185.20" 0 page in
  let os := outs os [I_str (chars "Inserted 3 variable-length tuples:" ++ nl)] in
  let os := foldl (print_tuple page) os [s0; s1; s2] in
  let os := outs os [I_str (nl ++ chars "Free Space after inserts: "); I_num (Page.free_space page); I_str (chars " bytes" ++ nl)] in
  let page := (Page.delete_tuple s1 page).2 in
  let os := outs os [I_lit "Deleted Slot "; I_num (Z.of_nat s1); I_str (chars " (created fragmented hole)." ++ nl)] in
  let page := Page.compact page in
  let os := outs os [I_lit "Compacted page. Free Space after defragmentation: "; I_num (Page.free_space page); I_str (chars " bytes" ++ nl ++ nl)] in
  let os := outs os [I_str (chars "Remaining valid tuples:" ++ nl)] in
  foldl (print_tuple page) os [s0; s2].

Lemma slotted_page_output :
  text (slotted_page_main cout) = rule ++ lines [" 4KB Slotted Page Storage Engine Demonstration (C++20)"%string] ++ rule ++ lines
    [EmptyString; "Initial Page ID: 101 | Free Space: 4072 bytes"; EmptyString; "Inserted 3 variable-length tuples:";
     "  Slot 0: Tuple_0: User Shreyas (ID: 1001)"; "  Slot 1: Tuple_1: Account Balance $150,000.50";
     "  Slot 2: Tuple_2: Limit Order BUY 500 AAPL @ $185.20"; EmptyString; "Free Space after inserts: 3943 bytes";
     "Deleted Slot 1 (created fragmented hole)."; "Compacted page. Free Space after defragmentation: 3979 bytes"; EmptyString;
     "Remaining valid tuples:"; "  Slot 0: Tuple_0: User Shreyas (ID: 1001)"; "  Slot 2: Tuple_2: Limit Order BUY 500 AAPL @ $185.20"]%string.
Proof. vm_compute. reflexivity. Qed.

(** ** mvcc_undo_log_traversal.cpp *)

Section mvcc_demo.
Import Mvcc.

Definition demo_tuple : TupleSlot :=
  mk_slot 1 (chars "AAPL @ $225.00") 500
    [mk_undo 400 (chars "AAPL @ $200.00"); mk_undo 200 (chars "AAPL @ $175.00"); mk_undo 100 (chars "AAPL @ $150.00")].

Definition view300 : ReadView := mk_view 300 250 301 [].

Definition mvcc_main (os : ostream) : ostream :=
  let os := banner " Multi-Version Concurrency Control (MVCC) Version Traversal (C++20)" os in
  let snapshot_val := read_tuple_snapshot demo_tuple view300 in
  let os := outs os [I_lit "Current Heap Row (Txn 500): "; I_str (val demo_tuple); I_str nl] in
  let os := match snapshot_val with
            | Some v => outs os [I_lit "Txn 300 ReadView Snapshot:  "; I_str v; I_str (chars " (Traversed Undo Log)" ++ nl)]
            | None => os
            end in
  outs os [I_str (nl ++ chars "MVCC Undo Log version chain traversal completed successfully." ++ nl)].

Lemma mvcc_output :
  text (mvcc_main cout) = rule ++ lines [" Multi-Version Concurrency Control (MVCC) Version Traversal (C++20)"%string] ++ rule ++ lines
    [EmptyString; "Current Heap Row (Txn 500): AAPL @ $225.00"; "Txn 300 ReadView Snapshot:  AAPL @ $175.00 (Traversed Undo Log)"; EmptyString;
     "MVCC Undo Log version chain traversal completed successfully."]%string.
Proof. vm_compute. reflexivity. Qed.
End mvcc_demo.

(** ** latch_crabbing_btree.cpp *)

Section btree_demo.
Import BTree.

(** A call on the tree while no other thread runs: the steps of BTree.v until
    the call is done. *)
Fixpoint call (fuel : nat) (d : data) (p : pc) : option (data * pc) :=
  match p with
  | Idone | Sdone _ => Some (d, p)
  | _ =>
      match fuel with
      | O => None
      | S fuel => '((d, ps), _) ← step_thread 8 0 (d, [p]); p ← ps !! 0%nat; call fuel d p
      end
  end.

(** A call takes at most twelve steps in a tree of two levels. *)
Definition insert (key val : Z) (d : data) : option data := fst <$> call 16 d (Istart key val).

Definition search (key : Z) (d : data) : option (option Z) :=
  '(_, p) ← call 16 d (Sstart key); match p with Sdone r => Some r | _ => None end.

Definition demo_lookup (d : data) (os : ostream) (i : nat) : option ostream :=
  let i' := Z.of_nat i in
  val ← search (i' *64 10) d;
  Some (match val with
        | Some v => if i' mod 10 =? 0 then outs os [I_lit "  Key: "; I_num (i' *64 10); I_lit " -> Value: "; I_num v; I_str nl] else os
        | None => os
        end).

Definition btree_main (os : ostream) : option ostream :=
  let os := banner " Concurrent B+ Tree Index with Latch Crabbing Protocol (C++20)" os in
  let os := outs os [I_str (chars "Inserting 50 keys with Root-to-Leaf Write Latch Crabbing..." ++ nl)] in
  d ← foldl (fun d i => d ← d; insert (Z.of_nat i *64 10) (Z.of_nat i *64 100) d) (Some ConcurrentBTree) (seq 1 50);
  let os := outs os [I_str (chars "Performing Point Lookups with Read Latch Crabbing..." ++ nl)] in
  os ← foldl (fun os i => os ← os; demo_lookup d os i) (Some os) (seq 1 50);
  Some (outs os [I_str (nl ++ chars "Concurrent B+ Tree demonstration successful." ++ nl)]).

Lemma btree_output :
  text <$> btree_main cout = Some (rule ++ lines [" Concurrent B+ Tree Index with Latch Crabbing Protocol (C++20)"%string] ++ rule ++ lines
    [EmptyString; "Inserting 50 keys with Root-to-Leaf Write Latch Crabbing..."; "Performing Point Lookups with Read Latch Crabbing...";
     "  Key: 100 -> Value: 1000"; "  Key: 200 -> Value: 2000"; "  Key: 300 -> Value: 3000"; "  Key: 400 -> Value: 4000"; "  Key: 500 -> Value: 5000";
     EmptyString; "Concurrent B+ Tree demonstration successful."]%string).
Proof. vm_compute. reflexivity. Qed.
End btree_demo.

(** ** page_fault_tracker.cpp *)

Section page_fault_demo.
Import Latency.

Definition PAGE_SIZE : Z := 4096.
Definition NUM_PAGES : Z := 256.
Definition TOTAL_SIZE : Z := NUM_PAGES *64 PAGE_SIZE.

(** The addresses a stage writes, relative to the mapping. *)
Definition touched : list Z := (fun i => Z.of_nat i *64 PAGE_SIZE) <$> seq 0 (Z.to_nat NUM_PAGES).

(** [readings] are what [getrusage] reports at the beginning and at the end of
    a stage. *)
Definition stage (label : string) (os : ostream) (readings : FaultStats * FaultStats) : ostream :=
  print_delta (chars label) readings.1 readings.2 os.

(** The exit code with the text on the standard output and error. *)
Definition page_fault_main (mmap : bool) (r1 r2 r3 r4 r5 : FaultStats * FaultStats) (os : ostream) : Z * ostream * list Z :=
  let os := banner " Linux Page Fault & Demand Paging Demonstration (C++20)" os in
  let os := outs os [I_lit "Allocating "; I_num (TOTAL_SIZE / 1024); I_lit " KB ("; I_num NUM_PAGES; I_str (chars " pages) via mmap..." ++ nl)] in
  let os := stage "Stage 1: mmap (MAP_ANONYMOUS | MAP_PRIVATE)" os r1 in
  if negb mmap then (1, os, chars "mmap failed!" ++ nl) else
  let os := stage "Stage 2: First Touch (Write 1 byte per page)" os r2 in
  let os := stage "Stage 3: Second Touch (Rewrite all pages)" os r3 in
  let os := stage "Stage 4: madvise(MADV_DONTNEED)" os r4 in
  let os := stage "Stage 5: Third Touch after MADV_DONTNEED" os r5 in
  (0, outs os [I_str (nl ++ rule); I_str (chars " Demonstration Completed Successfully" ++ nl); I_str rule], []).

(** Every page of the mapping is written once per stage, inside the mapping. *)
Lemma touched_pages :
  length touched = Z.to_nat NUM_PAGES /\ (fun a => a / PAGE_SIZE) <$> touched = Z.of_nat <$> seq 0 (Z.to_nat NUM_PAGES) /\
  Forall (fun a => 0 <= a < TOTAL_SIZE) touched.
Proof. split_and!; [vm_compute; reflexivity..|]. apply Forall_forall. intros a Ha. unfold touched in Ha. apply list_elem_of_fmap in Ha as (i & -> & Hi).
  apply elem_of_seq in Hi. unfold TOTAL_SIZE, NUM_PAGES, PAGE_SIZE in *. rewrite !wrap_small by lia. lia. Qed.
End page_fault_demo.

(** ** main.cpp of the ELF inspector *)

Section elf_main.
Import Elf.

(** [what] is the text of the exception. *)
Definition elf_main (what : file_error -> list Z) (argv1 : option (list Z)) (opened : bool) (pos : Z) (data : list Z) (os : ostream) :
    option (Z * ostream * list Z) :=
  let target_path := default (chars "/proc/self/exe") argv1 in
  let os := outs os [I_str rule; I_str (chars " Lightweight ELF64 Binary Inspector (C++20)" ++ nl);
                     I_lit " Target File: "; I_str target_path; I_str nl; I_str (rule ++ nl)] in
  match from_file target_path opened pos data with
  | inl e => Some (1, os, chars "Exception during ELF inspection: " ++ what e ++ nl)
  | inr None => None
  | inr (Some inspector) =>
      Some (if negb (is_valid inspector) then (1, os, chars "Error: " ++ target_path ++ chars " is not a valid 64-bit ELF binary." ++ nl)
            else (0, print_summary inspector os, []))
  end.

(** The exit code tells whether a file was read and parsed. *)
Lemma elf_main_code what argv1 opened pos data os code out err :
  elf_main what argv1 opened pos data os = Some (code, out, err) ->
  (code = 0 <-> exists x, from_file (default (chars "/proc/self/exe") argv1) opened pos data = inr (Some x) /\ is_valid x = true) /\
  (code = 0 \/ code = 1) /\ (code = 0 <-> err = []).
Proof.
  unfold elf_main. destruct (from_file _ _ _ _) as [e|[x|]]; [| |done].
  - intros [= <- <- <-]. split_and!; [split; [done|by intros (x & ? & _)]|by right|split; done].
  - destruct (is_valid x) eqn:Hv; cbn [negb]; intros [= <- <- <-].
    + split_and!; [split; [by exists x|done]|by left|done].
    + split_and!; [split; [done|]|by right|split; done]. intros (y & [= <-] & Hy). congruence.
Qed.
End elf_main.

(** ** The server programs *)

(** The argument of [main], as [atoi] returns it. *)
Definition server_port (dflt : Z) (argv1 : option Z) : Z := default dflt (u16 <$> argv1).

Definition server_title (name : string) (port : Z) (kind : string) (os : ostream) : ostream :=
  outs os [I_str rule; I_str (chars name ++ nl); I_lit " Port: "; I_num port; I_str (chars kind ++ nl); I_str (rule ++ nl)].

(** epoll_edge_triggered.cpp up to [run]: the exit code and the text on the
    error stream, or the server. *)
Definition epoll_main (e : Epoll.env) (argv1 : option Z) (os : ostream) : (Z * ostream * list Z) + (ostream * Epoll.t) :=
  let port := server_port 8080 argv1 in
  let os := server_title " Non-Blocking Edge-Triggered epoll TCP Echo Server (C++20)" port " | EPOLLET Enabled" os in
  let '(ok, server) := Epoll.init e (Epoll.EpollEchoServer port) in
  if negb ok then inl (1, os, chars "Failed to initialize server." ++ nl) else
  inr (outs os [I_lit "Server listening on port "; I_num port; I_str (chars ". Press Ctrl+C to exit." ++ nl)], server).

(** The handler of SIGINT and SIGTERM; the server is not null from its
    construction on. *)
Definition epoll_signal_handler (x : ostream * Epoll.t) : ostream * Epoll.t :=
  (outs x.1 [I_str (nl ++ chars "Shutting down server gracefully..." ++ nl)], Epoll.stop x.2).

(** After [run]. *)
Definition epoll_main_end (x : ostream * Epoll.t) : Z * ostream :=
  (0, outs x.1 [I_lit "Total connections handled: "; I_num (Epoll.total_connections_ x.2); I_str nl;
                I_lit "Total bytes echoed:        "; I_num (Epoll.total_bytes_echoed_ x.2); I_str (chars " bytes" ++ nl)]).

(** server_main.cpp, in the same parts. *)
Definition uring_main (e : Uring.env) (a : Z) (argv1 : option Z) (os : ostream) : (Z * ostream * list Z) + (ostream * Uring.t) :=
  let port := server_port 8081 argv1 in
  let os := server_title " High-Throughput Linux io_uring TCP Echo Reactor (C++20)" port " | Direct Kernel Ring Submission" os in
  let '(ok, reactor) := Uring.init e a (Uring.IoUringReactor port) in
  if negb ok then inl (1, os, chars "Failed to initialize io_uring reactor." ++ nl) else
  inr (outs os [I_lit "Reactor running on port "; I_num port; I_str (chars ". Press Ctrl+C to stop." ++ nl)], reactor).

Definition uring_signal_handler (x : ostream * Uring.t) : ostream * Uring.t :=
  (outs x.1 [I_str (nl ++ chars "Shutting down io_uring server..." ++ nl)], Uring.stop x.2).

Definition uring_main_end (x : ostream * Uring.t) : Z * ostream :=
  (0, outs x.1 [I_lit "Total bytes echoed: "; I_num (Uring.total_bytes_echoed_ x.2); I_str (chars " bytes" ++ nl)]).

(** A server program that gets past [init] enters [run] in the state that the
    reachability theorems of the server start from. *)
Lemma epoll_main_runs e argv1 os os' s :
  epoll_main e argv1 os = inr (os', s) ->
  0 <= Epoll.e_socket e /\ 0 <= Epoll.e_epoll e /\
  (Epoll.set_running true s, Epoll.Wait) = Epoll.started (Epoll.e_socket e) (Epoll.e_epoll e) (server_port 8080 argv1).
Proof.
  intros H. assert (Hi : Epoll.init e (Epoll.EpollEchoServer (server_port 8080 argv1)) = (true, s)).
  { revert H. unfold epoll_main. generalize (Epoll.init e (Epoll.EpollEchoServer (server_port 8080 argv1))).
    intros [[] server]; cbn [negb]; intros H; [congruence|discriminate H]. }
  clear H. revert Hi. unfold Epoll.started, Epoll.init.
  cbn [Epoll.listen_fd_ Epoll.epoll_fd_ Epoll.set_fds Epoll.e_socket Epoll.e_bind Epoll.e_listen Epoll.e_epoll Epoll.e_ctl].
  destruct (Z.ltb_spec (Epoll.e_socket e) 0) as [|Hs]; [discriminate|]. destruct (Epoll.e_bind e <? 0); [discriminate|].
  destruct (Epoll.e_listen e <? 0); [discriminate|]. destruct (Z.ltb_spec (Epoll.e_epoll e) 0) as [|He]; [discriminate|].
  destruct (Epoll.e_ctl e <? 0); [discriminate|]. intros [= <-]. split; [exact Hs|split; [exact He|]].
  reflexivity.
Qed.

(** ** The functions of target_app.cpp *)

Section target_app.

Definition MULTIPLIER : Z := 6364136223846793005.

(** The loop body, [qty] times. *)
Fixpoint match_loop (qty : nat) (hash : Z) : Z :=
  match qty with O => hash | S qty => match_loop qty ((hash *64 MULTIPLIER) +64 1) end.

(** Undefined when the price in cents is not a [uint64_t]. *)
Definition process_order_matching (order_id : Z) (price : Dbl.double) (qty : Z) : option Z :=
  cents ← Dbl.to_u64 (Dbl.times price (Dbl.of_Z 100)); Some (match_loop (Z.to_nat qty) (Z.lxor order_id cents)).

(** [contract] is the compiler's choice for the last product and the sum. *)
Fixpoint risk_loop (contract : bool) (n : nat) (volatility res : Dbl.double) : Dbl.double :=
  match n with
  | O => res
  | S n => risk_loop contract n volatility
             (Simd.accumulate (H := Simd.binary64) contract res (Dbl.times res volatility) (Dbl.over (Dbl.of_Z 1) (Dbl.of_Z 100)))
  end.

Definition calculate_risk_exposure (contract : bool) (base_val volatility : Dbl.double) : Dbl.double := risk_loop contract 50 volatility base_val.

Lemma match_loop_range n : forall h, 0 <= h < 2 ^ 64 -> 0 <= match_loop n h < 2 ^ 64.
Proof. induction n as [|n IH]; intros h Hh; [done|]. apply IH. apply wrap_range. lia. Qed.

(** The multiplier is odd, so a round loses nothing: this is its inverse. *)
Definition INVERSE : Z := 13877824140714322085.

Lemma multiplier_inverse : u64 (MULTIPLIER * INVERSE) = 1.
Proof. vm_compute. reflexivity. Qed.

Definition unround (y : Z) : Z := u64 ((y - 1) * INVERSE).

Lemma unround_round h : 0 <= h < 2 ^ 64 -> unround ((h *64 MULTIPLIER) +64 1) = h.
Proof.
  intros Hh. unfold unround, wrap. rewrite Z.add_mod_idemp_l, <- Z.mul_mod_idemp_l, Zminus_mod_idemp_l, Z.mul_mod_idemp_l by lia.
  replace (h * MULTIPLIER + 1 - 1) with (h * MULTIPLIER) by lia. rewrite <- Z.mul_assoc, <- Z.mul_mod_idemp_r by lia.
  pose proof multiplier_inverse as E. unfold wrap in E. rewrite E, Z.mul_1_r. by apply Z.mod_small.
Qed.

Lemma match_loop_inj n : forall h h', 0 <= h < 2 ^ 64 -> 0 <= h' < 2 ^ 64 -> match_loop n h = match_loop n h' -> h = h'.
Proof.
  induction n as [|n IH]; intros h h' Hh Hh' E; [done|]. apply IH in E; [|apply wrap_range; lia..].
  by rewrite <- (unround_round h), <- (unround_round h'), E.
Qed.

Lemma lxor_cancel_r a b c : Z.lxor a c = Z.lxor b c -> a = b.
Proof. intros E. apply (f_equal (fun x => Z.lxor x c)) in E. by rewrite !Z.lxor_assoc, Z.lxor_nilpotent, !Z.lxor_0_r in E. Qed.

Lemma to_u64_range x c : Dbl.to_u64 x = Some c -> 0 <= c < 2 ^ 64.
Proof.
  destruct x as [s|s| |[] m e]; cbn [Dbl.to_u64]; try done; [intros [= <-]; lia|destruct (_ && _); [intros [= <-]; lia|done]|].
  destruct (Z.ltb_spec (if 0 <=? e then Z.pos m * 2 ^ e else Z.pos m / 2 ^ (- e)) (2 ^ 64)) as [Hlt|]; [|done]. intros [= <-]. split; [|done].
  destruct (Z.leb_spec 0 e); [pose proof (Z.pow_pos_nonneg 2 e); nia|]. apply Z.div_pos; [lia|apply Z.pow_pos_nonneg; lia].
Qed.

(** Different orders with the same price and quantity get different hashes. *)
Lemma order_matching_inj o1 o2 price qty r :
  0 <= o1 < 2 ^ 64 -> 0 <= o2 < 2 ^ 64 ->
  process_order_matching o1 price qty = Some r -> process_order_matching o2 price qty = Some r -> o1 = o2.
Proof.
  intros H1 H2. unfold process_order_matching. destruct (Dbl.to_u64 _) as [c|] eqn:Ec; [|done]. cbn. intros [= E1] [= E2].
  pose proof (to_u64_range _ _ Ec) as Hc.
  apply (lxor_cancel_r _ _ c), (match_loop_inj (Z.to_nat qty)); [by apply (lxor_range 64)..|congruence].
Qed.
End target_app.
End Demos.
